(* ===== verification/_CoqProject ===== *)
-Q . S2P
Prelude.v
Text.v
Wire.v
Request.v
Secret.v
Containment.v
Store.v
Grants.v
Requests.v
Receipts.v
Broker.v
System.v
Ledger.v
Decrypt.v
Server.v
RequestLog.v
Lanes.v
Peers.v
Bridge.v
BrowserGrants.v
Policy.v
Leases.v
Daemon.v
Handlers.v
Feed.v
Transport.v
Ceremony.v
EndToEnd.v
Paths.v
Preview.v
Sockets.v
Relay.v
Setup.v
Tiers.v
Edit.v
Commands.v
Holders.v
Channels.v
Gates.v
Doctor.v
Startup.v
