(* ===== verification/Prelude.v ===== *)
(** * forward: the secrets broker and the forward services

    A verification of the repository's own logic: the secrets broker and its
    client of [crates/secrets], the process containment, wire protocol and
    hardening they share with [crates/forward], and of [crates/forward] the
    daemon, the callback bridge and leases, the browser grants with their
    ceremony, feed and relay, the smart-card and audio channels, the file
    preview, the doctor and the start of both commands that stay.

    ** The program

    [secretsd] holds human-tier secrets encrypted to a hardware token.  A
    client asks for a key over a Unix socket; the broker resolves who is
    asking (a session token bound to a process tree, or a terminal), queues
    the request, and one worker runs sops, which waits for a touch.  What was
    decrypted is cached per scope and key for a while; LOCK drops everything.
    AUTHORIZE runs the same ceremony for a capability and yields a receipt
    that [forward serve] redeems once.  The [secrets] command reads both tiers
    (agent files decrypt without a touch) and edits them under one lock.

    [forward serve] on the devbox keeps a browser grant, alive only under the
    broker authority it was redeemed under, feeds its token to the laptop, and
    runs a relay whose connections it passes on only for processes of the
    session that asked.  Its callback bridge reaches loopback ports a local
    process armed or holds, and its preview serves files to the peer.  The
    laptop's daemon decides by allowlist and rate which URLs it opens, leases
    the callback ports of a URL to the devbox that sent it, and relays browser
    traffic that presents a fed token.  Both ends carry PC/SC and PulseAudio
    between a Unix socket of the devbox and one of the laptop, and [forward
    doctor] probes every channel from outside.

    ** Files

    Shared:
    - [Prelude]: results with the meaning of [?], machine widths, monotonic
      time, vectors, the [bool_to_prop] and [case_bool] tactics, the [broker]
      hint database, lemmas on lists.
    - [Text]: bytes and text, splitting, UTF-8, the integer parser and printer.
    - [Paths]: [std::path] on Unix.

    The broker ([crates/secrets], [crates/proto], [crates/containment]):
    - [Wire]: [crates/proto] (error codes, authority event, response parser and
      socket reader, handshake).
    - [Request]: [secrets/src/proto] (request grammar, response printer), the
      client's frame builder and [forward/src/secretsd/reply.rs].
    - [Secret]: [secret.rs], [capability.rs], [grants/token.rs], [hygiene/hex.rs].
    - [Containment]: [crates/containment]; [Module Pinned] is [pinned.rs],
      [Module Anchored] is [anchored.rs].
    - [Store]: [store.rs], over a file system given as a record of functions.
    - [Grants]: [grants/registry.rs] and, in [Module Table], [grants/table.rs];
      the class [PeerContainment] is what it needs of containment, and the
      pinned walk discharges it.
    - [Requests]: the approval queue of [requests/].
    - [Receipts]: [receipts.rs] and, in [Module CapabilityGrants],
      [capability_grants.rs].
    - [Broker]: the state behind the mutex of [server.rs] and every critical
      section of [server/dispatch*], [approval.rs] and [worker.rs].
    - [System]: connection threads, the worker and all their interleavings.
    - [Ledger]: outstanding receipts counted against touches, section by section.
    - [Decrypt]: [decrypt.rs] and [decrypt/classify.rs].
    - [Server]: framing, lane choice, the listener's node check, subscribers and
      the sanitizing of logged text.
    - [RequestLog]: the event each request leaves in the log, and what [Debug] shows
      of requests and outcomes ([server.rs], [proto/request.rs]).
    - [Lanes]: the worker pools behind the lanes of [server.rs] and the listener
      of [server/listener.rs], with socket activation.
    - [Setup]: [config.rs], [daemon.rs], [hygiene/src/hardening.rs] and the
      socket path of [proto/src/client.rs].
    - [Tiers]: the client's reading side, [client/agent.rs], [human.rs],
      [cli/context.rs], [cli/naming.rs], [status.rs], [status/provenance.rs].
    - [Edit]: the client's writing side, [client/edit.rs] and [client/edit/];
      [Module Scratch] is [edit/plaintext.rs].
    - [Commands]: every command of the client from its parsed form to what it
      writes and executes ([client/cli/context.rs], [cli/control.rs],
      [sources.rs], [error/display.rs], [proto/src/client.rs]).

    The devbox and the laptop ([crates/forward]):
    - [Peers]: [config.rs], [config/peers.rs] and [peer.rs].
    - [Bridge]: [bridge/armed.rs], [holder.rs], [port_policy.rs],
      [arm_request.rs], [limit.rs].
    - [Holders]: the holder process and arming from the command line,
      [bridge/hold.rs] and [bridge/arming.rs], against the bridge's end.
    - [Gates]: the accept loops in front of the bridge ([bridge/listener.rs]) and
      of the browser relay channel ([browser.rs]), with [refusal.rs].
    - [Channels]: [pcsc.rs], [pcsc/], [pulse.rs] and [pulse/].
    - [BrowserGrants]: [browser/grant.rs] and [grant/].
    - [Policy]: [policy.rs] and [ratelimit.rs].
    - [Leases]: [callback.rs], [callback/lease.rs], [callback/listener.rs].
    - [Daemon]: [daemon.rs] with its accept loop, [daemon/], [request.rs],
      [send.rs], [localhost.rs], [opener.rs], [process.rs], [port.rs].
    - [Handlers]: the connection threads of [daemon.rs] in every interleaving.
    - [Feed]: [browser.rs], [browser/feed.rs], [feed/], [push.rs], [token.rs] and
      the boot clock of [hygiene/src/clock.rs].
    - [Transport]: [secretsd.rs], [secretsd/transport.rs] and
      [browser/subscription.rs].
    - [Ceremony]: [browser/request/] and [grant.rs].
    - [EndToEnd]: the broker with its subscriber hub and instance, the
      subscription worker, the grant socket and the registry as one system; a
      move is one step of one of them, and what they exchange is text.
    - [Sockets]: [Module Bind] is [socket.rs], [Module Place] is
      [browser/relay/spawn.rs] and the relay's check of what it inherited,
      [Module Owner] is [browser/peer/socket.rs].
    - [Relay]: [browser/relay.rs], [browser/request/server/control.rs]; [Module
      Fdpass] is [fdpass.rs] and [Module Pipe] is [pipe.rs].
    - [Preview]: [serve.rs], [serve/], [render.rs] and [target.rs].
    - [Doctor]: [doctor.rs] and [doctor/].
    - [Startup]: [main.rs], [daemon.rs]'s [run] and the spawning of every service,
      as a monad of its own over what the machine answers.

    ** What is shown

    - The broker as a whole ([System], [Lanes], [RequestLog]; C1 to C3, C8, C16 to
      C19): over every interleaving from daemon start, released bytes were
      installed for that scope and key since the last LOCK, a decrypt begun
      before a LOCK installs nothing after it, each receipt is paid for by its
      own touch, lifetimes are capped, a wait ends at its deadline with TIMEOUT
      and for good, a LOCK or DENY that has come when its connection is accepted
      waits for no other lane, and the log accounts for what was released
      without a byte of it.
    - Browser grants from the touch to the bytes (C4 to C7, C9, C14, C15, C29):
      with the broker, the wire, the subscription and the registry as one
      system, the grants held are covered by touches since the last LOCK; a
      grant is made only when the broker's authority holds before and
      after the laptop took the token, a LOCK or an outage of the broker ends
      it, the sockets of its sessions are shut by the calls that follow its
      removal, and the laptop relays only for a token its own devbox fed, past
      the grant's end by no more than the time the token's line was on the way
      and a second.
    - Ports (C10 to C12, C28, C30): the bridge reaches a port only on behalf of a
      local process, a holder's dials stay in step with the bridge's, a served
      port stays with the devbox it was leased to, and both ends agree on a
      URL's ports.
    - Channels and gates (C26, C27, C31): what one side of a channel sent is
      what the other receives, strangers cost a gate nothing, and the doctor
      reads back what the gates answer (for the relay, while its upstream
      answers with a status line).
    - Opening and previewing (C13, C32, C33): over any interleaving of the
      daemon's handlers nothing opens unless the policy or the user says so,
      files are served to the peer alone, and the link [to_url] makes for a
      file that is not Markdown is answered with its bytes.
    - The client (C20 to C23, C39): apart from the editing commands only the two
      made for it reveal values, a program starts with all values or not at
      all, edits of both tiers never put a key in both and never deadlock, and a
      key in both tiers is refused by [get] and by injection and marked by
      [list].
    - Start-up (C24, C25, C40): both daemons serve only hardened and configured,
      every socket where the configuration says.
    - The tables and checks of the broker (C34 to C38): the grant table as a
      finite map, single flight, ancestry checks, the decrypt and its end.

    Further lemmas show what goes against the code's intent: among them
    [Edit.stale_names_duplicate_key], [Edit.Scratch.failed_editor_leaves_plaintext],
    [Setup.socket_agreement], [Tiers.status_sees_any_session],
    [Feed.relay_token_read], [Daemon.opened_without_opener],
    [Ceremony.long_ttl_wastes_touch], [System.grants_listing_unreadable],
    [Doctor.dead_upstream_reads_up],
    [Containment.anchor_reach_gap] and [Requests.fail_overwrites_denied].

    ** Modelling choices

    Instants and durations are nanoseconds in [Z] with the bounds of the Rust
    types; identifiers and epochs saturate or wrap at 64 bits as in the source,
    and theorems about runs assume fewer than [u64::MAX] steps where a counter
    must not wrap; [EndToEnd] assumes fewer than 10^15 moves, because an event
    with a longer epoch than that does not fit the subscriber's 64-byte read, and
    that the broker's random instances are distinct.  The decimal printer has fuel for 20 digits, which is enough
    for a [u64].  Loops over input run on a script of what the kernel would
    return (chunks, bytes, polls), so their recursion is structural; an
    unfinished script is a separate result, and the termination theorems show
    which scripts finish.  The audit value's popping loop has the length of the
    value as fuel, one pop per character, and the scrubbing loop the length of
    the file.  A function that takes a mutex or a file lock several times is
    several steps; everything between two lock operations is one step.  A file
    lock blocks every other open description of its directory, the holder's own
    included.  Ending browser grants takes them from the tables in one step and
    leaves its shutdown calls, which come after the locks are dropped, as an
    ending under way: each call is a step of its own ([BrowserGrants.shut]) that
    anything may precede, and [BrowserGrants.call] is an operation with its calls
    made.  Accepting a connection shows an error, nothing yet or the bytes that
    have come, and the lane follows from these.
    Processes (sops, an editor, an opener, a notifier) are what they return;
    third-party parsers ([url], [toml], percent coding, MIME, Markdown, IP
    literals) are parameters, with the laws a theorem needs of them as named
    hypotheses that an instance satisfies.

    Starting is sequential: a service on a thread of its own has got as far as
    its accept loop, or failed, before the next is started.  The handlers of
    the daemon, the bridge, the relay, the channels and the broker interleave.

    ** Not modelled

    Sockets, threads and processes themselves beyond what they return, the
    texts of logging other than the request log, zeroization, and the grammar
    of command lines, which [clap] derives.  What is left of the source is
    imports, accessors and constructors that only store their arguments, and
    code for tests. *)

From stdpp Require Import prelude strings list.
From Stdlib Require Import ZArith Lia Ascii.

(** * Rust results

    [Result<T, E>] of the source.  The bind instance gives stdpp's
    [x ← e; k] notation the meaning of the [?] operator. *)
Inductive result (E A : Type) : Type :=
| Ok (a : A)
| Err (e : E).
Arguments Ok {E A} a.
Arguments Err {E A} e.

#[global] Instance result_ret {E} : MRet (result E) := λ A a, Ok a.
#[global] Instance result_fmap {E} : FMap (result E) := λ A B f m,
  match m with Ok a => Ok (f a) | Err e => Err e end.
#[global] Instance result_bind {E} : MBind (result E) := λ A B f m,
  match m with Ok a => f a | Err e => Err e end.

#[global] Instance result_eq_dec {E A} `{EqDecision E, EqDecision A} :
  EqDecision (result E A).
Proof. solve_decision. Defined.

(** [Option::ok_or]. *)
Definition ok_or {E A} (e : E) (o : option A) : result E A :=
  match o with Some a => Ok a | None => Err e end.

(** [Result::is_ok_and]. *)
Definition is_ok_and {E A} (p : A → bool) (r : result E A) : bool :=
  match r with Ok a => p a | Err _ => false end.

(** [Option::is_some_and] and [Option::is_some]. *)
Definition is_some_and {A} (p : A → bool) (o : option A) : bool :=
  match o with Some a => p a | None => false end.

Definition is_some {A} (o : option A) : bool := is_some_and (λ _, true) o.

(** * Machine integers *)
Definition u8_max : Z := 255.
Definition u16_max : Z := 65535.
Definition u32_max : Z := 4294967295.
Definition i32_min : Z := -2147483648.
Definition i32_max : Z := 2147483647.
Definition u64_max : Z := 18446744073709551615.
Definition i64_max : Z := 9223372036854775807.

(** [u64::saturating_add] and [u64::checked_mul]. *)
Definition saturating_add_u64 (a b : Z) : Z := Z.min (a + b) u64_max.

Definition checked_mul_u64 (a b : Z) : option Z :=
  if (a * b <=? u64_max)%Z then Some (a * b)%Z else None.

(** [usize::saturating_sub]. *)
Definition saturating_sub (a b : Z) : Z := Z.max (a - b) 0.

(** * Monotonic time

    An [Instant] is a number of nanoseconds on the monotonic clock and a
    [Duration] a non-negative number of nanoseconds. *)
Module Time.

Definition nanos_per_sec : Z := 1000000000.

(** [Duration::MAX]: [u64::MAX] seconds and 999999999 nanoseconds. *)
Definition duration_max : Z := u64_max * nanos_per_sec + 999999999.

(** The largest [Instant]: a [timespec] whose seconds are an [i64]. *)
Definition instant_max : Z := i64_max * nanos_per_sec + 999999999.

Definition from_secs (secs : Z) : Z := secs * nanos_per_sec.
Definition as_secs (d : Z) : Z := d / nanos_per_sec.

(** [Instant::duration_since], which saturates at zero, and its alias
    [saturating_duration_since]. *)
Definition duration_since (now earlier : Z) : Z := Z.max (now - earlier) 0.

(** [Instant::checked_duration_since]. *)
Definition checked_duration_since (now earlier : Z) : option Z :=
  if (earlier <=? now)%Z then Some (now - earlier)%Z else None.

(** [Instant::checked_add]. *)
Definition checked_add (t d : Z) : option Z :=
  if (t + d <=? instant_max)%Z then Some (t + d)%Z else None.

(** [Duration::checked_sub] and [Duration::saturating_mul]. *)
Definition duration_checked_sub (a b : Z) : option Z :=
  if (b <=? a)%Z then Some (a - b)%Z else None.

Definition duration_saturating_mul (d k : Z) : Z := Z.min (d * k) duration_max.

End Time.

(** * Vectors

    [Vec::retain], [iter().find], [iter().any], [iter().all] are the
    Standard Library's boolean list functions.  [update_first p f l] is a
    mutation through [iter_mut().find(p)]; [position] is
    [iter().position]; [swap_remove] is [Vec::swap_remove]. *)
Definition retain {A} (p : A → bool) (l : list A) : list A := List.filter p l.

Fixpoint update_first {A} (p : A → bool) (f : A → A) (l : list A) : list A :=
  match l with
  | [] => []
  | x :: l' => if p x then f x :: l' else x :: update_first p f l'
  end.

Fixpoint position {A} (p : A → bool) (l : list A) : option nat :=
  match l with
  | [] => None
  | x :: l' => if p x then Some 0 else S <$> position p l'
  end.

(** The last element takes the removed slot; removing the last element
    only shortens the vector.  Out of range the code would panic. *)
Definition swap_remove {A} (l : list A) (i : nat) : option (A * list A) :=
  match l !! i, last l with
  | Some x, Some z => Some (x, take (length l - 1) (<[i := z]> l))
  | _, _ => None
  end.

(** * Tactics

    [case_bool] splits a boolean test of a hypothesis or the goal into the
    proposition it decides. *)

Ltac bool_to_prop :=
  repeat match goal with
  | H : (_ && _) = true |- _ => apply andb_true_iff in H; destruct H
  | H : (_ && _) = false |- _ => apply andb_false_iff in H
  | H : (_ || _) = false |- _ => apply orb_false_iff in H; destruct H
  | H : (_ || _) = true |- _ => apply orb_true_iff in H
  | H : negb _ = true |- _ => apply negb_true_iff in H
  | H : negb _ = false |- _ => apply negb_false_iff in H
  | H : bool_decide _ = true |- _ => apply bool_decide_eq_true_1 in H
  | H : bool_decide _ = false |- _ => apply bool_decide_eq_false_1 in H
  | H : (_ <=? _)%Z = true |- _ => apply Z.leb_le in H
  | H : (_ <=? _)%Z = false |- _ => apply Z.leb_gt in H
  | H : (_ <? _)%Z = true |- _ => apply Z.ltb_lt in H
  | H : (_ <? _)%Z = false |- _ => apply Z.ltb_ge in H
  | H : (_ =? _)%Z = true |- _ => apply Z.eqb_eq in H
  | H : (_ =? _)%Z = false |- _ => apply Z.eqb_neq in H
  end.

Ltac case_bool :=
  match goal with
  | |- context [ if ?b then _ else _ ] =>
      let Hb := fresh "Hb" in destruct b eqn:Hb; bool_to_prop
  | H : context [ if ?b then _ else _ ] |- _ =>
      let Hb := fresh "Hb" in destruct b eqn:Hb; bool_to_prop
  end.

(** * Lists *)
Create HintDb broker.

Section lists.
Context {A : Type}.
Implicit Types (p q : A → bool) (l : list A).

Lemma elem_of_retain p l x : x ∈ retain p l ↔ x ∈ l ∧ p x = true.
Proof. unfold retain. rewrite !list_elem_of_In. apply filter_In. Qed.

Lemma retain_app p l1 l2 : retain p (l1 ++ l2) = retain p l1 ++ retain p l2.
Proof. unfold retain. apply List.filter_app. Qed.

Lemma retain_all p l : (∀ x, x ∈ l → p x = true) → retain p l = l.
Proof.
  induction l as [|y l IH]; intros H; [done|]. unfold retain in *. simpl.
  rewrite H by (constructor). rewrite IH; [done|].
  intros x Hx. apply H. by constructor.
Qed.

Lemma retain_none p l : (∀ x, x ∈ l → p x = false) → retain p l = [].
Proof.
  induction l as [|y l IH]; intros H; [done|]. unfold retain in *. simpl.
  rewrite H by (constructor). apply IH.
  intros x Hx. apply H. by constructor.
Qed.

Lemma retain_length p l : length (retain p l) ≤ length l.
Proof. induction l as [|x l IH]; simpl; [lia|]. destruct (p x); simpl; unfold retain in *; lia. Qed.

Lemma retain_length_impl p q l :
  (∀ x, p x = true → q x = true) → length (retain p l) ≤ length (retain q l).
Proof.
  intros H. unfold retain. induction l as [|x l IH]; simpl; [lia|].
  destruct (p x) eqn:E; [rewrite (H x E); simpl; lia|]. destruct (q x); simpl; lia.
Qed.

Lemma retain_sublist p l : sublist (retain p l) l.
Proof.
  unfold retain. induction l as [|x l IH]; simpl; [constructor|].
  destruct (p x); by constructor.
Qed.

Lemma find_Some p l x : List.find p l = Some x → x ∈ l ∧ p x = true.
Proof. intros [??]%List.find_some. rewrite list_elem_of_In. done. Qed.

Lemma find_None p l : List.find p l = None ↔ ∀ x, x ∈ l → p x = false.
Proof.
  split.
  - intros H x. rewrite list_elem_of_In. by apply List.find_none.
  - induction l as [|y l IH]; intros H; simpl; [done|].
    rewrite H by constructor. apply IH. intros x Hx. apply H. by constructor.
Qed.

Lemma find_is_Some p l x : x ∈ l → p x = true → is_Some (List.find p l).
Proof.
  intros Hx Hp. destruct (List.find p l) eqn:E; [by eexists|].
  rewrite find_None in E. specialize (E x Hx). congruence.
Qed.

Lemma find_app p l1 l2 :
  List.find p (l1 ++ l2) =
  match List.find p l1 with Some x => Some x | None => List.find p l2 end.
Proof. induction l1 as [|x l1 IH]; simpl; [done|]. by destruct (p x). Qed.

Lemma find_retain p q l :
  (∀ x, p x = true → q x = true) → List.find p (retain q l) = List.find p l.
Proof.
  intros H. unfold retain. induction l as [|x l IH]; simpl; [done|].
  destruct (q x) eqn:Eq; simpl; [by rewrite IH|].
  destruct (p x) eqn:Ep; [|done]. rewrite H in Eq; done.
Qed.

Lemma find_retain_none p q l :
  (∀ x, p x = true → q x = false) → List.find p (retain q l) = None.
Proof.
  intros H. apply find_None. intros x [_ Hq]%elem_of_retain.
  destruct (p x) eqn:E; [|done]. rewrite (H x E) in Hq. done.
Qed.

Lemma find_ext p q l : (∀ x, x ∈ l → p x = q x) → List.find p l = List.find q l.
Proof.
  induction l as [|y l IH]; intros H; simpl; [done|].
  rewrite (H y) by constructor. rewrite IH; [done|].
  intros x Hx. apply H. by constructor.
Qed.

(** If only one element satisfies the predicate, it is the one found. *)
Lemma find_unique p l x :
  x ∈ l → p x = true → (∀ y, y ∈ l → p y = true → y = x) →
  List.find p l = Some x.
Proof.
  intros Hx Hp Hu. destruct (find_is_Some p l x Hx Hp) as [y Hy]. rewrite Hy.
  apply find_Some in Hy as [??]. by rewrite (Hu y).
Qed.

Lemma existsb_elem p l : existsb p l = true ↔ ∃ x, x ∈ l ∧ p x = true.
Proof.
  rewrite existsb_exists. split; intros (x & Hx & Hp); exists x;
    [rewrite list_elem_of_In|rewrite <-list_elem_of_In]; done.
Qed.

Lemma existsb_false p l : existsb p l = false ↔ ∀ x, x ∈ l → p x = false.
Proof.
  split.
  - intros H x Hx. destruct (p x) eqn:E; [|done].
    assert (existsb p l = true) by (apply existsb_elem; eauto). congruence.
  - intros H. apply not_true_iff_false. rewrite existsb_elem.
    intros (x & Hx & Hp). by rewrite H in Hp.
Qed.

Lemma forallb_elem p l : forallb p l = true ↔ ∀ x, x ∈ l → p x = true.
Proof.
  rewrite forallb_forall. split; intros H x Hx; apply H;
    [rewrite <-list_elem_of_In|rewrite list_elem_of_In]; done.
Qed.

Lemma update_first_none p f l :
  List.find p l = None → update_first p f l = l.
Proof.
  induction l as [|x l IH]; simpl; [done|].
  destruct (p x); [done|]. intros H. by rewrite IH.
Qed.

Lemma update_first_length p f l : length (update_first p f l) = length l.
Proof. induction l as [|x l IH]; simpl; [done|]. destruct (p x); simpl; lia. Qed.

(** The shape of a vector around the element a search finds. *)
Lemma find_split p l x :
  List.find p l = Some x →
  ∃ l1 l2, l = l1 ++ x :: l2 ∧ (∀ y, y ∈ l1 → p y = false) ∧ p x = true.
Proof.
  induction l as [|y l IH]; simpl; [done|]. destruct (p y) eqn:E.
  - intros [= ->]. exists [], l. split; [done|]. split; [|done].
    intros z Hz. by apply not_elem_of_nil in Hz.
  - intros H. destruct (IH H) as (l1 & l2 & -> & H1 & H2).
    exists (y :: l1), l2. split; [done|]. split; [|done].
    intros z [->|Hz]%elem_of_cons; auto.
Qed.

Lemma update_first_split p f l1 x l2 :
  (∀ y, y ∈ l1 → p y = false) → p x = true →
  update_first p f (l1 ++ x :: l2) = l1 ++ f x :: l2.
Proof.
  induction l1 as [|y l1 IH]; simpl; intros H1 H2; [by rewrite H2|].
  rewrite H1 by constructor. rewrite IH; [done| |done].
  intros z Hz. apply H1. by constructor.
Qed.

(** Mapping a key that the update keeps is invisible. *)
Lemma update_first_map {B} (k : A → B) p f l :
  (∀ x, k (f x) = k x) → k <$> update_first p f l = k <$> l.
Proof.
  intros H. induction l as [|x l IH]; simpl; [done|].
  destruct (p x); csimpl; [by rewrite H|by rewrite IH].
Qed.

Lemma elem_of_update_first p f l y :
  y ∈ update_first p f l → y ∈ l ∨ ∃ x, List.find p l = Some x ∧ y = f x.
Proof.
  induction l as [|x l IH]; simpl; [auto|]. destruct (p x) eqn:E.
  - intros [->|Hy]%elem_of_cons; [right; eauto|left; by constructor].
  - intros [->|Hy]%elem_of_cons; [left; by constructor|].
    destruct (IH Hy) as [?|(z & ? & ?)]; [left; by constructor|right; eauto].
Qed.

End lists.

Lemma NoDup_fmap_retain {A B} (k : A → B) p (l : list A) :
  NoDup (k <$> l) → NoDup (k <$> retain p l).
Proof.
  intros H. eapply sublist_NoDup; [done|].
  apply fmap_sublist, retain_sublist.
Qed.

Lemma position_Some {A} (p : A → bool) l i :
  position p l = Some i →
  (∃ x, l !! i = Some x ∧ p x = true) ∧ ∀ j x, (j < i)%nat → l !! j = Some x → p x = false.
Proof.
  revert i. induction l as [|y l IH]; intros i; simpl; [done|]. destruct (p y) eqn:E.
  - intros [= <-]. split; [eauto|]. lia.
  - destruct (position p l) as [k|]; [|done]. intros [= <-].
    destruct (IH k eq_refl) as [H1 H2]. split; [done|]. intros [|j] x Hj; simpl.
    + intros [= <-]. done.
    + apply H2. lia.
Qed.

Lemma position_is_Some {A} (p : A → bool) l : is_Some (position p l) ↔ ∃ x, x ∈ l ∧ p x = true.
Proof.
  induction l as [|y l IH]; simpl.
  { split; [by intros []|]. by intros (x & ?%not_elem_of_nil & _). }
  destruct (p y) eqn:E.
  - split; [|by eexists]. intros _. exists y. split; [by left|done].
  - rewrite fmap_is_Some, IH. split.
    + intros (x & Hx & Hp). exists x. split; [by right|done].
    + intros (x & [->|Hx]%elem_of_cons & Hp); [congruence|eauto].
Qed.

(** [Vec::swap_remove] removes exactly the addressed element, up to order. *)
Lemma swap_remove_Permutation {A} (l : list A) i x :
  l !! i = Some x → ∃ l', swap_remove l i = Some (x, l') ∧ l ≡ₚ x :: l'.
Proof.
  intros Hx. unfold swap_remove. rewrite Hx. destruct l as [|y l0] using rev_ind; [done|]. clear IHl0.
  rewrite last_snoc, length_app. simpl.
  replace (length l0 + 1 - 1)%nat with (length l0) by lia. eexists. split; [done|].
  destruct (decide (i = length l0)) as [->|Hi].
  - rewrite lookup_app_r, Nat.sub_diag in Hx by lia. injection Hx as <-.
    rewrite insert_app_r_alt, Nat.sub_diag by lia. rewrite take_app_length. simpl.
    by rewrite Permutation_app_comm.
  - assert (i < length l0)%nat as Hlt.
    { apply lookup_lt_Some in Hx. rewrite length_app in Hx. simpl in Hx. lia. }
    rewrite insert_app_l by done. rewrite lookup_app_l in Hx by done.
    rewrite take_app_length' by (by rewrite length_insert).
    rewrite (insert_take_drop l0 i y Hlt), <-(take_drop_middle l0 i x Hx) at 1.
    rewrite <-app_assoc. simpl. rewrite <-Permutation_middle. apply perm_skip.
    apply Permutation_app_head. by rewrite Permutation_app_comm.
Qed.
