(* ===== verification/Text.v ===== *)
(** Rust strings and byte slices.

    A [&str], [String], [&[u8]] or [Vec<u8>] is modelled by the Standard
    Library's [string], a sequence of 8-bit characters: the bytes of the
    UTF-8 encoding for text.  Every delimiter the program splits on is
    ASCII, so the byte-level operations here agree with the character-level
    ones of the source.  [from_utf8] is the check that turns bytes into
    text.  The file also holds the integer parser of [str::parse] and the
    decimal printer of [Display], with the round trip between them. *)

From stdpp Require Import prelude strings list.
From Stdlib Require Import ZArith Lia Ascii.
From S2P Require Import Prelude.

Local Open Scope string_scope.

(** * Bytes *)
Definition code (c : ascii) : Z := Z.of_N (N_of_ascii c).
Definition char_of (z : Z) : ascii := ascii_of_N (Z.to_N z).

Definition in_range (lo hi : Z) (c : ascii) : bool :=
  (lo <=? code c)%Z && (code c <=? hi)%Z.

(** [u8::is_ascii_digit], [is_ascii_lowercase], [is_ascii_uppercase],
    [is_ascii_alphabetic], [is_ascii_alphanumeric], [is_ascii_hexdigit],
    [is_ascii_graphic], [is_ascii]. *)
Definition is_ascii_digit (c : ascii) : bool := in_range 48 57 c.
Definition is_ascii_lowercase (c : ascii) : bool := in_range 97 122 c.
Definition is_ascii_uppercase (c : ascii) : bool := in_range 65 90 c.
Definition is_ascii_alphabetic (c : ascii) : bool :=
  is_ascii_lowercase c || is_ascii_uppercase c.
Definition is_ascii_alphanumeric (c : ascii) : bool :=
  is_ascii_alphabetic c || is_ascii_digit c.
Definition is_ascii_hexdigit (c : ascii) : bool :=
  is_ascii_digit c || in_range 97 102 c || in_range 65 70 c.
Definition is_ascii_graphic (c : ascii) : bool := in_range 33 126 c.
Definition is_ascii (c : ascii) : bool := in_range 0 127 c.

Definition to_ascii_uppercase (c : ascii) : ascii :=
  if is_ascii_lowercase c then char_of (code c - 32) else c.
Definition to_ascii_lowercase (c : ascii) : ascii :=
  if is_ascii_uppercase c then char_of (code c + 32) else c.

Definition newline : ascii := "010"%char.
Definition carriage_return : ascii := "013"%char.
Definition tab : ascii := "009"%char.
Definition nul : ascii := "000"%char.

(** * Strings *)
Definition slen (s : string) : Z := Z.of_nat (String.length s).

Fixpoint all_bytes (p : ascii → bool) (s : string) : bool :=
  match s with
  | EmptyString => true
  | String c s' => p c && all_bytes p s'
  end.

Definition any_byte (p : ascii → bool) (s : string) : bool :=
  negb (all_bytes (λ c, negb (p c)) s).

Definition contains_byte (c : ascii) (s : string) : bool :=
  any_byte (λ d, bool_decide (d = c)) s.

Fixpoint map_bytes (f : ascii → ascii) (s : string) : string :=
  match s with
  | EmptyString => EmptyString
  | String c s' => String (f c) (map_bytes f s')
  end.

Definition is_empty (s : string) : bool :=
  match s with EmptyString => true | _ => false end.

(** [str::strip_prefix] and [str::starts_with]. *)
Fixpoint strip_prefix (s p : string) : option string :=
  match p, s with
  | EmptyString, _ => Some s
  | String c p', String d s' => if bool_decide (c = d) then strip_prefix s' p' else None
  | String _ _, EmptyString => None
  end.

Definition starts_with (s p : string) : bool := is_some (strip_prefix s p).

(** [str::strip_suffix] and [str::ends_with]. *)
Fixpoint strip_suffix (s p : string) : option string :=
  if bool_decide (s = p) then Some EmptyString else
  match s with
  | EmptyString => None
  | String c s' => String c <$> strip_suffix s' p
  end.

Definition ends_with (s p : string) : bool := is_some (strip_suffix s p).

(** [str::split] on one ASCII character: always at least one piece. *)
Fixpoint split (d : ascii) (s : string) : list string :=
  match s with
  | EmptyString => [EmptyString]
  | String c s' =>
      if bool_decide (c = d) then EmptyString :: split d s'
      else match split d s' with
           | [] => [String c EmptyString]
           | w :: ws => String c w :: ws
           end
  end.

(** [str::split_once] on a pattern: the first occurrence. *)
Fixpoint split_once (pat s : string) : option (string * string) :=
  match strip_prefix s pat with
  | Some rest => Some (EmptyString, rest)
  | None =>
      match s with
      | EmptyString => None
      | String c s' =>
          match split_once pat s' with
          | Some (a, b) => Some (String c a, b)
          | None => None
          end
      end
  end.

(** [str::rsplit_once] on one ASCII character: the last occurrence. *)
Fixpoint rsplit_once (d : ascii) (s : string) : option (string * string) :=
  match s with
  | EmptyString => None
  | String c s' =>
      match rsplit_once d s' with
      | Some (a, b) => Some (String c a, b)
      | None => if bool_decide (c = d) then Some (EmptyString, s') else None
      end
  end.

(** [slice.iter().position(|byte| byte == c)] followed by [split_at]: the
    bytes before the first [c] and the rest, which starts with [c]. *)
Fixpoint split_at_byte (c : ascii) (s : string) : option (string * string) :=
  match s with
  | EmptyString => None
  | String d s' =>
      if bool_decide (d = c) then Some (EmptyString, s)
      else match split_at_byte c s' with
           | Some (a, b) => Some (String d a, b)
           | None => None
           end
  end.

Fixpoint concat_sep (sep : string) (l : list string) : string :=
  match l with
  | [] => EmptyString
  | [w] => w
  | w :: ws => w +:+ sep +:+ concat_sep sep ws
  end.

(** * UTF-8 validation, [std::str::from_utf8]

    The well-formed byte sequences of the Unicode standard, table 3-7. *)
Definition continuation (c : ascii) : bool := in_range 128 191 c.

Fixpoint valid_utf8 (s : string) : bool :=
  match s with
  | EmptyString => true
  | String a s1 =>
      if is_ascii a then valid_utf8 s1 else
      match s1 with
      | EmptyString => false
      | String b s2 =>
          if in_range 194 223 a then continuation b && valid_utf8 s2 else
          match s2 with
          | EmptyString => false
          | String c s3 =>
              if in_range 224 224 a then in_range 160 191 b && continuation c && valid_utf8 s3 else
              if in_range 237 237 a then in_range 128 159 b && continuation c && valid_utf8 s3 else
              if in_range 225 239 a then continuation b && continuation c && valid_utf8 s3 else
              match s3 with
              | EmptyString => false
              | String d s4 =>
                  if in_range 240 240 a then
                    in_range 144 191 b && continuation c && continuation d && valid_utf8 s4 else
                  if in_range 244 244 a then
                    in_range 128 143 b && continuation c && continuation d && valid_utf8 s4 else
                  if in_range 241 243 a then
                    continuation b && continuation c && continuation d && valid_utf8 s4 else
                  false
              end
          end
      end
  end.

Definition from_utf8 (s : string) : option string :=
  if valid_utf8 s then Some s else None.

(** * Integers *)

(** [char::to_digit(radix)] for a radix of at most 16. *)
Definition to_digit (radix : Z) (c : ascii) : option Z :=
  let v := if is_ascii_digit c then (code c - 48)%Z
           else if in_range 97 102 c then (code c - 87)%Z
           else if in_range 65 70 c then (code c - 55)%Z
           else 99%Z in
  if (v <? radix)%Z then Some v else None.

(** The digit loop of [from_str_radix]: every step is checked against the
    width's maximum. *)
Fixpoint digits_from (radix max acc : Z) (s : string) : option Z :=
  match s with
  | EmptyString => Some acc
  | String c s' =>
      match to_digit radix c with
      | Some d =>
          let acc' := (acc * radix + d)%Z in
          if (acc' <=? max)%Z then digits_from radix max acc' s' else None
      | None => None
      end
  end.

(** [uN::from_str_radix]: an optional [+], then at least one digit; a
    sign alone is not a number. *)
Definition from_str_radix (radix max : Z) (s : string) : option Z :=
  match s with
  | EmptyString => None
  | String c s' =>
      if bool_decide (c = "+"%char) then
        if is_empty s' then None else digits_from radix max 0 s'
      else digits_from radix max 0 s
  end.

(** [str::parse] at an unsigned width. *)
Definition parse_unsigned (max : Z) (s : string) : option Z := from_str_radix 10 max s.

(** [str::parse::<i32>]: a [-] is accepted too. *)
Definition parse_i32 (s : string) : option Z :=
  match s with
  | String "-"%char s' =>
      if is_empty s' then None else Z.opp <$> digits_from 10 (- i32_min) 0 s'
  | _ => from_str_radix 10 i32_max s
  end.

(** [u64::to_string].  Twenty digits are enough for any 64-bit integer. *)
Definition digit_char (d : Z) : ascii := char_of (48 + d).

Fixpoint dec_digits (fuel : nat) (n : Z) (acc : string) : string :=
  match fuel with
  | O => acc
  | S fuel' =>
      let acc' := String (digit_char (n mod 10)) acc in
      if (n / 10 =? 0)%Z then acc' else dec_digits fuel' (n / 10) acc'
  end.

Definition to_string (n : Z) : string := dec_digits 20 n EmptyString.

(** * Lemmas on append *)
Lemma append_nil_r s : s +:+ "" = s.
Proof. induction s as [|c s IH]; simpl; [done|]. unfold String.append in *. simpl. by rewrite IH. Qed.

Lemma append_cons c s t : String c s +:+ t = String c (s +:+ t).
Proof. done. Qed.

Lemma append_assoc s t u : s +:+ (t +:+ u) = (s +:+ t) +:+ u.
Proof. induction s as [|c s IH]; [done|]. rewrite !append_cons. by rewrite IH. Qed.

Lemma length_append s t : String.length (s +:+ t) = String.length s + String.length t.
Proof. induction s as [|c s IH]; [done|]. rewrite append_cons. simpl. lia. Qed.

Lemma slen_append s t : slen (s +:+ t) = (slen s + slen t)%Z.
Proof. unfold slen. rewrite length_append. lia. Qed.

Lemma slen_cons c s : slen (String c s) = (1 + slen s)%Z.
Proof. unfold slen. simpl. lia. Qed.

Lemma slen_nonneg s : (0 <= slen s)%Z.
Proof. unfold slen. lia. Qed.

Lemma append_inj_l s t u : s +:+ t = s +:+ u → t = u.
Proof. induction s as [|c s IH]; [done|]. rewrite !append_cons. intros [= H]. auto. Qed.

Lemma all_bytes_append p s t : all_bytes p (s +:+ t) = all_bytes p s && all_bytes p t.
Proof.
  induction s as [|c s IH]; [done|]. rewrite append_cons. simpl. rewrite IH.
  by rewrite andb_assoc.
Qed.

Lemma all_bytes_impl (p q : ascii → bool) s :
  (∀ c, p c = true → q c = true) → all_bytes p s = true → all_bytes q s = true.
Proof.
  intros H. induction s as [|c s IH]; [done|]. simpl.
  intros [??]%andb_true_iff. rewrite H, IH; done.
Qed.

Lemma contains_byte_false c s :
  contains_byte c s = false ↔ all_bytes (λ d, negb (bool_decide (d = c))) s = true.
Proof. unfold contains_byte, any_byte. by rewrite negb_false_iff. Qed.

Lemma contains_byte_append c s t :
  contains_byte c (s +:+ t) = contains_byte c s || contains_byte c t.
Proof. unfold contains_byte, any_byte. rewrite all_bytes_append. apply negb_andb. Qed.

(** A class of bytes that excludes [c] excludes it from a string. *)
Lemma all_bytes_not_contains (p : ascii → bool) c s :
  p c = false → all_bytes p s = true → contains_byte c s = false.
Proof.
  intros Hc H. apply contains_byte_false. revert H. apply all_bytes_impl.
  intros d Hd. apply negb_true_iff, bool_decide_eq_false_2. intros ->. congruence.
Qed.

Lemma map_bytes_id f s : all_bytes (λ c, bool_decide (f c = c)) s = true → map_bytes f s = s.
Proof.
  induction s as [|c s IH]; [done|]. simpl. intros [H%bool_decide_eq_true_1 ?]%andb_true_iff.
  by rewrite H, IH.
Qed.

Lemma all_bytes_map p f s : all_bytes p (map_bytes f s) = all_bytes (λ c, p (f c)) s.
Proof. induction s as [|c s IH]; [done|]. simpl. by rewrite IH. Qed.

Lemma strip_prefix_append s p : strip_prefix (p +:+ s) p = Some s.
Proof.
  induction p as [|c p IH]; [by destruct s|]. rewrite append_cons. simpl.
  by rewrite bool_decide_eq_true_2.
Qed.

Lemma strip_prefix_Some s p r : strip_prefix s p = Some r → s = p +:+ r.
Proof.
  revert s. induction p as [|c p IH]; intros s; simpl.
  - destruct s; simpl; intros [= <-]; done.
  - destruct s as [|d s]; simpl; [done|]. case_bool_decide; [|done]. subst.
    intros ->%IH. done.
Qed.

Lemma strip_suffix_append s p : strip_suffix (s +:+ p) p = Some s.
Proof.
  induction s as [|c s IH].
  - change ("" +:+ p) with p. destruct p; cbn [strip_suffix];
      by rewrite bool_decide_eq_true_2.
  - rewrite append_cons. cbn [strip_suffix].
    rewrite bool_decide_eq_false_2; [by rewrite IH|].
    intros H. apply (f_equal String.length) in H. simpl in H.
    rewrite length_append in H. lia.
Qed.

Lemma strip_suffix_Some s p r : strip_suffix s p = Some r → s = r +:+ p.
Proof.
  revert r. induction s as [|c s IH]; intros r; simpl.
  - case_bool_decide; [|done]. intros [= <-]. by subst.
  - case_bool_decide; [intros [= <-]; by subst|].
    destruct (strip_suffix s p) as [r'|] eqn:E; [|done]. simpl.
    intros [= <-]. by rewrite (IH r').
Qed.

(** * Splitting and joining *)
Lemma split_ne_nil d s : split d s ≠ [].
Proof. destruct s as [|c s]; simpl; [done|]. case_bool_decide; [done|]. by destruct (split d s). Qed.

Lemma split_clean d s : contains_byte d s = false → split d s = [s].
Proof.
  rewrite contains_byte_false. induction s as [|c s IH]; [done|]. simpl.
  intros [H ?]%andb_true_iff. apply negb_true_iff in H. rewrite H.
  by rewrite IH.
Qed.

Lemma split_append d w s :
  contains_byte d w = false → split d (w +:+ String d s) = w :: split d s.
Proof.
  rewrite contains_byte_false. induction w as [|c w IH].
  - intros _. change ("" +:+ String d s) with (String d s). simpl.
    by rewrite bool_decide_eq_true_2.
  - rewrite append_cons. simpl. intros [H ?]%andb_true_iff.
    apply negb_true_iff in H. rewrite H. by rewrite IH.
Qed.

Lemma split_once_char d w s :
  contains_byte d w = false →
  split_once (String d "") (w +:+ String d s) = Some (w, s).
Proof.
  rewrite contains_byte_false. induction w as [|c w IH].
  - intros _. change ("" +:+ String d s) with (String d s). simpl.
    rewrite bool_decide_eq_true_2 by done. by destruct s.
  - rewrite append_cons. simpl. intros [H ?]%andb_true_iff.
    apply negb_true_iff in H. rewrite bool_decide_eq_false_2.
    + by rewrite IH.
    + intros ->. by rewrite bool_decide_eq_true_2 in H.
Qed.

Lemma split_once_Some pat s a b : split_once pat s = Some (a, b) → s = a +:+ pat +:+ b.
Proof.
  revert a b. induction s as [|c s IH]; intros a b; cbn [split_once].
  - destruct (strip_prefix "" pat) as [r|] eqn:E; [|done].
    intros [= <- <-]. apply strip_prefix_Some in E. done.
  - destruct (strip_prefix (String c s) pat) as [r|] eqn:E.
    + intros [= <- <-]. apply strip_prefix_Some in E. done.
    + destruct (split_once pat s) as [[a' b']|]; [|done].
      intros [= <- <-]. rewrite append_cons. by rewrite <-(IH a' b').
Qed.

Lemma split_at_byte_append c a b :
  contains_byte c a = false → split_at_byte c (a +:+ String c b) = Some (a, String c b).
Proof.
  rewrite contains_byte_false. induction a as [|d a IH].
  - intros _. change ("" +:+ String c b) with (String c b). simpl.
    by rewrite bool_decide_eq_true_2.
  - rewrite append_cons. simpl. intros [H ?]%andb_true_iff.
    apply negb_true_iff in H. rewrite H. by rewrite IH.
Qed.

Lemma split_at_byte_Some c s a b :
  split_at_byte c s = Some (a, b) →
  ∃ b', b = String c b' ∧ s = a +:+ b ∧ contains_byte c a = false.
Proof.
  revert a b. induction s as [|d s IH]; intros a b; simpl; [done|].
  case_bool_decide.
  - intros [= <- <-]. subst. exists s. done.
  - destruct (split_at_byte c s) as [[a' b']|] eqn:E; [|done].
    intros [= <- <-]. destruct (IH a' b' eq_refl) as (r & -> & -> & Hc).
    exists r. split; [done|]. split; [done|].
    apply contains_byte_false. simpl. apply contains_byte_false in Hc. rewrite Hc.
    by rewrite bool_decide_eq_false_2.
Qed.

(** * Printing and parsing decimals *)
Lemma code_char_of z : (0 <= z < 256)%Z → code (char_of z) = z.
Proof.
  intros H. unfold code, char_of. rewrite N_ascii_embedding by lia. lia.
Qed.

Lemma digit_char_digit d : (0 <= d < 10)%Z → is_ascii_digit (digit_char d) = true.
Proof.
  intros H. unfold is_ascii_digit, in_range, digit_char.
  rewrite code_char_of by lia. apply andb_true_iff. split; apply Z.leb_le; lia.
Qed.

Lemma to_digit_digit_char d : (0 <= d < 10)%Z → to_digit 10 (digit_char d) = Some d.
Proof.
  intros H. unfold to_digit. rewrite digit_char_digit by done.
  unfold digit_char. rewrite code_char_of by lia.
  replace (48 + d - 48)%Z with d by lia.
  destruct (Z.ltb_spec d 10); [done|lia].
Qed.

(** Printing prepends the digits of [n]; the accumulator is untouched. *)
Lemma dec_digits_acc fuel n acc :
  dec_digits fuel n acc = dec_digits fuel n "" +:+ acc.
Proof.
  revert n acc. induction fuel as [|fuel IH]; intros n acc; simpl; [done|].
  destruct (n / 10 =? 0)%Z; [done|].
  rewrite IH, (IH _ (String _ "")). by rewrite <-append_assoc.
Qed.

Lemma digits_from_append radix max acc s t :
  digits_from radix max acc (s +:+ t) =
  digits_from radix max acc s ≫= λ a, digits_from radix max a t.
Proof.
  revert acc. induction s as [|c s IH]; intros acc; [done|].
  rewrite append_cons. simpl. destruct (to_digit radix c); [|done].
  case_bool; [apply IH|done].
Qed.

Lemma digits_from_dec max fuel n :
  (0 <= n)%Z → (n < 10 ^ Z.of_nat fuel)%Z → (n <= max)%Z → 0 < fuel →
  digits_from 10 max 0 (dec_digits fuel n "") = Some n.
Proof.
  revert n. induction fuel as [|fuel IH]; intros n Hn Hf Hm H0; [lia|]. simpl.
  pose proof (Z.mod_pos_bound n 10 ltac:(lia)) as Hmod.
  pose proof (Z.div_mod n 10 ltac:(lia)) as Hdm.
  destruct (Z.eqb_spec (n / 10) 0) as [Hz|Hz].
  - simpl. rewrite to_digit_digit_char by lia.
    replace (0 * 10 + n `mod` 10)%Z with n by lia.
    by destruct (Z.leb_spec n max); [|lia].
  - pose proof (Z.div_pos n 10 Hn ltac:(lia)).
    destruct fuel as [|fuel].
    { change (10 ^ Z.of_nat 1)%Z with 10%Z in Hf. rewrite Z.div_small in Hz; lia. }
    rewrite dec_digits_acc, digits_from_append, IH; [|lia| |lia|lia].
    + simpl. rewrite to_digit_digit_char by lia.
      replace (n / 10 * 10 + n `mod` 10)%Z with n by lia.
      by destruct (Z.leb_spec n max); [|lia].
    + apply Z.div_lt_upper_bound; [lia|].
      rewrite (Nat2Z.inj_succ (S fuel)), Z.pow_succ_r in Hf by lia. lia.
Qed.

Lemma dec_digits_all_digits fuel n :
  (0 <= n)%Z → all_bytes is_ascii_digit (dec_digits fuel n "") = true.
Proof.
  revert n. induction fuel as [|fuel IH]; intros n Hn; [done|]. simpl.
  pose proof (Z.mod_pos_bound n 10 ltac:(lia)).
  destruct (n / 10 =? 0)%Z.
  - simpl. by rewrite digit_char_digit by lia.
  - rewrite dec_digits_acc, all_bytes_append, IH by (apply Z.div_pos; lia).
    simpl. by rewrite digit_char_digit by lia.
Qed.

Lemma to_string_digits n : (0 <= n)%Z → all_bytes is_ascii_digit (to_string n) = true.
Proof. apply dec_digits_all_digits. Qed.

Lemma to_string_not_empty n : is_empty (to_string n) = false.
Proof.
  unfold to_string. generalize 19 as fuel. intros fuel. simpl.
  destruct (n / 10 =? 0)%Z; [done|]. rewrite dec_digits_acc.
  by destruct (dec_digits fuel _ "").
Qed.

(** A leading digit is not a sign, so the sign rules do not apply. *)
Lemma from_str_radix_digits radix max s :
  is_empty s = false → all_bytes is_ascii_digit s = true →
  from_str_radix radix max s = digits_from radix max 0 s.
Proof.
  destruct s as [|c s]; [done|]. simpl. intros _ [Hc _]%andb_true_iff.
  rewrite bool_decide_eq_false_2; [done|]. intros ->. done.
Qed.

(** Printing then parsing a 64-bit integer gives it back. *)
Lemma parse_unsigned_to_string max n :
  (0 <= n <= max)%Z → (max <= u64_max)%Z →
  parse_unsigned max (to_string n) = Some n.
Proof.
  intros Hn Hm. unfold parse_unsigned.
  rewrite from_str_radix_digits;
    [|apply to_string_not_empty|apply to_string_digits; lia].
  unfold to_string. apply digits_from_dec; [lia| |lia|lia].
  unfold u64_max in Hm. apply Z.le_lt_trans with 18446744073709551615%Z; [lia|done].
Qed.

Lemma digits_from_bound radix max acc s n :
  (acc <= max)%Z → digits_from radix max acc s = Some n → (n <= max)%Z.
Proof.
  revert acc. induction s as [|c s IH]; intros acc Ha; simpl.
  - intros [= <-]. done.
  - destruct (to_digit radix c); [|done]. case_bool; [|done]. by apply IH.
Qed.

Lemma to_digit_nonneg radix c d : to_digit radix c = Some d → (0 <= d < radix)%Z.
Proof.
  unfold to_digit, is_ascii_digit, in_range. intros H.
  repeat case_bool; simplify_eq; lia.
Qed.

Lemma digits_from_nonneg radix max acc s n :
  (0 <= acc)%Z → (0 <= radix)%Z → digits_from radix max acc s = Some n → (0 <= n)%Z.
Proof.
  revert acc. induction s as [|c s IH]; intros acc Ha Hr; simpl.
  - intros [= <-]. done.
  - destruct (to_digit radix c) eqn:E; [|done]. case_bool; [|done].
    apply IH; [|done]. apply to_digit_nonneg in E. nia.
Qed.

Lemma from_str_radix_range radix max s n :
  (0 <= max)%Z → (0 <= radix)%Z → from_str_radix radix max s = Some n → (0 <= n <= max)%Z.
Proof.
  intros Hm Hr. unfold from_str_radix. destruct s as [|c s]; [done|].
  repeat case_bool; try done; intros H;
    (split; [eapply digits_from_nonneg, H; lia|eapply digits_from_bound, H; lia]).
Qed.

(** ASCII text is valid UTF-8. *)
Lemma valid_utf8_ascii s : all_bytes is_ascii s = true → valid_utf8 s = true.
Proof.
  induction s as [|c s IH]; [done|]. simpl. intros [H ?]%andb_true_iff.
  rewrite H. auto.
Qed.

Lemma from_utf8_ascii s : all_bytes is_ascii s = true → from_utf8 s = Some s.
Proof. intros H. unfold from_utf8. by rewrite valid_utf8_ascii. Qed.

#[export] Hint Resolve to_string_digits to_string_not_empty slen_nonneg : broker.

(** * White space, [str::trim]

    The UTF-8 encodings of the characters with Unicode's White_Space property;
    [Containment.trim] is the same function on kernel text, which is ASCII. *)
Definition bytes_of (l : list Z) : string := foldr (λ z s, String (char_of z) s) EmptyString l.

Definition white_spaces : list string :=
  bytes_of <$> [[9]; [10]; [11]; [12]; [13]; [32]; [194; 133]; [194; 160]; [225; 154; 128];
    [226; 128; 128]; [226; 128; 129]; [226; 128; 130]; [226; 128; 131]; [226; 128; 132];
    [226; 128; 133]; [226; 128; 134]; [226; 128; 135]; [226; 128; 136]; [226; 128; 137];
    [226; 128; 138]; [226; 128; 168]; [226; 128; 169]; [226; 128; 175]; [226; 129; 159];
    [227; 128; 128]]%Z.

Fixpoint first_some {A B} (f : A → option B) (l : list A) : option B :=
  match l with [] => None | x :: l' => match f x with Some y => Some y | None => first_some f l' end end.

(** One white-space character off one end; the fuel is the text's length. *)
Fixpoint trim_loop (strip : string → option string) (fuel : nat) (s : string) : string :=
  match fuel with
  | O => s
  | S fuel' => match strip s with Some s' => trim_loop strip fuel' s' | None => s end
  end.

Definition strip_space_start (s : string) : option string := first_some (strip_prefix s) white_spaces.
Definition strip_space_end (s : string) : option string := first_some (strip_suffix s) white_spaces.

Definition str_trim (s : string) : string :=
  let s := trim_loop strip_space_start (String.length s) s in
  trim_loop strip_space_end (String.length s) s.

(** Text that begins and ends with a printable ASCII character. *)
Fixpoint last_byte (s : string) : option ascii :=
  match s with
  | EmptyString => None
  | String c EmptyString => Some c
  | String _ s' => last_byte s'
  end.

Definition tight (s : string) : bool :=
  match s with
  | EmptyString => false
  | String c _ => is_ascii_graphic c && is_some_and is_ascii_graphic (last_byte s)
  end.

Lemma last_byte_append s c : last_byte (s +:+ String c "") = Some c.
Proof. induction s as [|d s IH]; [done|]. simpl in *. by destruct (s +:+ String c "") eqn:E; [destruct s|]. Qed.

Lemma last_byte_split s c : last_byte s = Some c → ∃ s', s = s' +:+ String c "".
Proof.
  induction s as [|d s IH]; [done|]. destruct s as [|e s].
  - intros [= <-]. by exists "".
  - intros [s' ->]%IH. by exists (String d s').
Qed.

Lemma last_byte_app_r s t : t ≠ "" → last_byte (s +:+ t) = last_byte t.
Proof.
  intros Ht. induction s as [|c s IH]; [done|]. rewrite append_cons. simpl. destruct (s +:+ t) eqn:E; [|done].
  destruct s, t; done.
Qed.

Lemma first_some_None {A B} (f : A → option B) l : (∀ x, x ∈ l → f x = None) → first_some f l = None.
Proof.
  induction l as [|x l IH]; intros H; simpl; [done|]. rewrite H by constructor. apply IH. intros. apply H. by constructor.
Qed.

(** Every encoding begins and ends with a byte that is not printable ASCII. *)
Definition not_graphic_ends (w : string) : bool :=
  match w with
  | EmptyString => false
  | String c _ => negb (is_ascii_graphic c) && is_some_and (λ d, negb (is_ascii_graphic d)) (last_byte w)
  end.

Lemma white_spaces_ends w : w ∈ white_spaces → not_graphic_ends w = true.
Proof.
  intros H. assert (forallb not_graphic_ends white_spaces = true) as Hall by (by vm_compute).
  rewrite forallb_forall in Hall. by apply Hall, list_elem_of_In.
Qed.

Lemma strip_space_start_tight s : tight s = true → strip_space_start s = None.
Proof.
  intros Ht. apply first_some_None. intros w Hw%white_spaces_ends.
  destruct (strip_prefix s w) as [r|] eqn:E; [|done]. apply strip_prefix_Some in E as ->.
  destruct w as [|c w]; [done|]. rewrite append_cons in Ht. simpl in Ht, Hw.
  apply andb_true_iff in Ht as [Hc _]. rewrite Hc in Hw. done.
Qed.

Lemma strip_space_end_tight s : tight s = true → strip_space_end s = None.
Proof.
  intros Ht. apply first_some_None. intros w Hw%white_spaces_ends.
  destruct (strip_suffix s w) as [r|] eqn:E; [|done]. apply strip_suffix_Some in E as ->.
  assert (is_some_and is_ascii_graphic (last_byte (r +:+ w)) = true) as Hg.
  { destruct (r +:+ w); [done|]. cbn [tight] in Ht. by apply andb_true_iff in Ht as [_ ?]. }
  destruct w as [|c w]; [done|]. rewrite last_byte_app_r in Hg by done.
  cbn [not_graphic_ends] in Hw. apply andb_true_iff in Hw as [_ Hw].
  destruct (last_byte (String c w)); simpl in *; [|done]. by rewrite Hg in Hw.
Qed.

Lemma trim_loop_stop strip n s : strip s = None → trim_loop strip n s = s.
Proof. intros H. destruct n; simpl; [done|]. by rewrite H. Qed.

Lemma tight_append_newline s : tight s = true → strip_space_end (s +:+ String newline "") = Some s.
Proof.
  intros Ht. destruct s as [|c s]; [done|]. pose proof Ht as [Hc Hl]%andb_true_iff.
  destruct (last_byte (String c s)) as [d|] eqn:El; [|done].
  unfold strip_space_end, white_spaces. cbn [fmap list_fmap first_some].
  assert (∀ z, (0 <= z < 256)%Z → z ≠ 10%Z →
    strip_suffix (String c s +:+ String newline "") (bytes_of [z]) = None) as Hz.
  { intros z Hz Hne. destruct (strip_suffix _ _) as [r|] eqn:E; [|done]. apply strip_suffix_Some in E.
    change (bytes_of [z]) with (String (char_of z) "") in E.
    apply (f_equal last_byte) in E. rewrite !last_byte_append in E. simplify_eq.
    match goal with E : newline = _ |- _ => apply (f_equal code) in E; rewrite code_char_of in E by done end.
    change (code newline) with 10%Z in *. congruence. }
  rewrite Hz by done. change (bytes_of [10%Z]) with (String newline ""). by rewrite strip_suffix_append.
Qed.

(** Trimming a line leaves tight text as it is, without its newline. *)
Lemma str_trim_tight s : tight s = true → str_trim s = s.
Proof.
  intros Ht. unfold str_trim. rewrite (trim_loop_stop strip_space_start) by by apply strip_space_start_tight.
  by apply trim_loop_stop, strip_space_end_tight.
Qed.

Lemma str_trim_line s : tight s = true → str_trim (s +:+ String newline "") = s.
Proof.
  intros Ht. unfold str_trim. rewrite (trim_loop_stop strip_space_start).
  - rewrite length_append. simpl. rewrite Nat.add_1_r. cbn [trim_loop]. rewrite tight_append_newline by done.
    by apply trim_loop_stop, strip_space_end_tight.
  - destruct s as [|c s]; [done|]. apply first_some_None. intros w Hw%white_spaces_ends.
    destruct (strip_prefix _ w) as [r|] eqn:E; [|done]. apply strip_prefix_Some in E.
    destruct w as [|c' w]; [done|]. injection E as <- _. simpl in Ht, Hw.
    apply andb_true_iff in Ht as [Hc _]. by rewrite Hc in Hw.
Qed.

(** * Bounded reads of a line

    [prefix_of n] is [Read::take(n)]; [through_newline] is [read_until] the
    newline, or [read_line], over the bytes at hand. *)
Fixpoint prefix_of (n : nat) (s : string) : string :=
  match n, s with
  | S n', String c s' => String c (prefix_of n' s')
  | _, _ => EmptyString
  end.

(** The bytes [read_until] takes from the buffer: through the newline, if it
    has one. *)
Definition through_newline (s : string) : string :=
  match split_at_byte newline s with
  | Some (a, _) => a +:+ String newline ""
  | None => s
  end.

(** What [take(n).read_line] returns of a stream. *)
Definition bounded_line (n : nat) (s : string) : string := through_newline (prefix_of n s).

Lemma prefix_of_all n s : (String.length s <= n)%nat → prefix_of n s = s.
Proof. revert n. induction s as [|c s IH]; intros [|n] H; simpl in *; [done..|lia|]. rewrite IH; [done|lia]. Qed.

Lemma prefix_of_prefix n s : ∃ r, s = prefix_of n s +:+ r.
Proof.
  revert s. induction n as [|n IH]; intros s; [by exists s; destruct s|].
  destruct s as [|c s]; [by exists ""|]. destruct (IH s) as [r Hr]. exists r. simpl. by rewrite Hr at 1.
Qed.

Lemma prefix_of_through n line r :
  (String.length line < n)%nat →
  ∃ r', prefix_of n (line +:+ String newline r) = line +:+ String newline r'.
Proof.
  revert n. induction line as [|c line IH]; intros [|n] H; simpl in H; [lia| |lia|].
  - by exists (prefix_of n r).
  - destruct (IH n) as [r' E]; [lia|]. exists r'. rewrite !append_cons. simpl. by rewrite E.
Qed.

Lemma through_newline_line line r :
  contains_byte newline line = false → through_newline (line +:+ String newline r) = line +:+ String newline "".
Proof. intros H. unfold through_newline. by rewrite split_at_byte_append. Qed.

Lemma through_newline_clean s : contains_byte newline s = false → through_newline s = s.
Proof.
  intros H. unfold through_newline. destruct (split_at_byte newline s) as [[a b]|] eqn:E; [|done].
  apply split_at_byte_Some in E as (b' & -> & -> & _). rewrite contains_byte_append in H.
  apply orb_false_iff in H as [_ H]. done.
Qed.

Lemma bounded_line_line n line rest :
  contains_byte newline line = false → (String.length line < n)%nat →
  bounded_line n (line +:+ String newline rest) = line +:+ String newline "".
Proof.
  intros Hc Hn. unfold bounded_line. destruct (prefix_of_through n line rest Hn) as [r ->].
  by apply through_newline_line.
Qed.

Lemma tight_ends c s t :
  is_ascii_graphic c = true → is_some_and is_ascii_graphic (last_byte t) = true → tight (String c s +:+ t) = true.
Proof.
  intros Hc Ht. rewrite append_cons. cbn [tight]. rewrite Hc, andb_true_l.
  by rewrite <-append_cons, last_byte_app_r by (by destruct t).
Qed.

Lemma tight_append c s t : is_ascii_graphic c = true → tight t = true → tight (String c s +:+ t) = true.
Proof.
  intros Hc Ht. apply tight_ends; [done|]. destruct t; [done|].
  cbn [tight] in Ht. by apply andb_true_iff in Ht as [_ ?].
Qed.

Lemma digits_tight s : is_empty s = false → all_bytes is_ascii_digit s = true → tight s = true.
Proof.
  assert (∀ c, is_ascii_digit c = true → is_ascii_graphic c = true) as Hg.
  { intros c. unfold is_ascii_digit, is_ascii_graphic, in_range. intros H. bool_to_prop.
    apply andb_true_iff. split; apply Z.leb_le; lia. }
  intros He Hd. destruct s as [|c s]; [done|]. cbn [tight]. simpl in Hd. apply andb_true_iff in Hd as [Hc Hs].
  rewrite (Hg c Hc). simpl. clear He. revert c Hc Hs. induction s as [|d s IH]; intros c Hc Hs; [by apply Hg|].
  simpl in Hs. apply andb_true_iff in Hs as [Hd Hs]. by apply IH.
Qed.

Lemma tight_to_string n : (0 <= n)%Z → tight (to_string n) = true.
Proof. intros H. apply digits_tight; auto with broker. Qed.

(** * [String::from_utf8_lossy]

    Each ill-formed sequence, in the longest prefix of a well-formed one, is
    replaced by U+FFFD. *)
Definition replacement_char : string := bytes_of [239; 191; 189]%Z.

Definition second_of_three (a b : ascii) : bool :=
  if in_range 224 224 a then in_range 160 191 b
  else if in_range 237 237 a then in_range 128 159 b else continuation b.

Definition second_of_four (a b : ascii) : bool :=
  if in_range 240 240 a then in_range 144 191 b
  else if in_range 244 244 a then in_range 128 143 b else continuation b.

Fixpoint from_utf8_lossy (s : string) : string :=
  match s with
  | EmptyString => EmptyString
  | String a s1 =>
      if is_ascii a then String a (from_utf8_lossy s1) else
      if in_range 194 223 a then
        match s1 with
        | String b s2 =>
            if continuation b then String a (String b (from_utf8_lossy s2))
            else replacement_char +:+ from_utf8_lossy s1
        | EmptyString => replacement_char
        end
      else if in_range 224 239 a then
        match s1 with
        | String b s2 =>
            if second_of_three a b then
              match s2 with
              | String c s3 =>
                  if continuation c then String a (String b (String c (from_utf8_lossy s3)))
                  else replacement_char +:+ from_utf8_lossy s2
              | EmptyString => replacement_char
              end
            else replacement_char +:+ from_utf8_lossy s1
        | EmptyString => replacement_char
        end
      else if in_range 240 244 a then
        match s1 with
        | String b s2 =>
            if second_of_four a b then
              match s2 with
              | String c s3 =>
                  if continuation c then
                    match s3 with
                    | String d s4 =>
                        if continuation d
                        then String a (String b (String c (String d (from_utf8_lossy s4))))
                        else replacement_char +:+ from_utf8_lossy s3
                    | EmptyString => replacement_char
                    end
                  else replacement_char +:+ from_utf8_lossy s2
              | EmptyString => replacement_char
              end
            else replacement_char +:+ from_utf8_lossy s1
        | EmptyString => replacement_char
        end
      else replacement_char +:+ from_utf8_lossy s1
  end.

Example lossy_truncated : from_utf8_lossy (bytes_of [97; 226; 130]%Z) = "a" +:+ replacement_char.
Proof. reflexivity. Qed.

(** * [str::split_whitespace]

    [cur] is the word being read; every step consumes at least one byte. *)
Definition emit (cur : string) : list string := if is_empty cur then [] else [cur].

Fixpoint words_from (fuel : nat) (cur s : string) : list string :=
  match fuel, s with
  | O, _ | _, EmptyString => emit cur
  | S fuel, String c s' =>
      match strip_space_start s with
      | Some rest => (emit cur ++ words_from fuel EmptyString rest)%list
      | None => words_from fuel (cur +:+ String c EmptyString) s'
      end
  end.

Definition split_whitespace (s : string) : list string := words_from (S (String.length s)) EmptyString s.

Lemma strip_space_start_graphic c s : is_ascii_graphic c = true → strip_space_start (String c s) = None.
Proof.
  intros Hc. apply first_some_None. intros w Hw%white_spaces_ends. destruct w as [|d w]; [done|].
  simpl. case_bool_decide as E; [|done]. subst d. exfalso. unfold not_graphic_ends in Hw.
  cbn [is_empty] in Hw. bool_to_prop. congruence.
Qed.

Lemma strip_space_start_space s : strip_space_start (String " " s) = Some s.
Proof. unfold strip_space_start, white_spaces. cbn. by destruct s. Qed.

Lemma words_graphic fuel cur w s :
  all_bytes is_ascii_graphic w = true → (String.length w + String.length s < fuel)%nat →
  ∃ fuel', (String.length s < fuel')%nat ∧ words_from fuel cur (w +:+ s) = words_from fuel' (cur +:+ w) s.
Proof.
  revert fuel cur. induction w as [|c w IH]; intros fuel cur Hw Hf.
  - exists fuel. rewrite append_nil_r. done.
  - cbn [all_bytes] in Hw. apply andb_true_iff in Hw as [Hc Hw]. destruct fuel as [|fuel]; [lia|].
    rewrite append_cons. cbn [words_from]. rewrite strip_space_start_graphic by done.
    destruct (IH fuel (cur +:+ String c "") Hw) as (f' & Hf' & E); [simpl in Hf; lia|].
    exists f'. split; [done|]. rewrite E, <-append_assoc. done.
Qed.

(** Words of graphic characters are read back, after any leading spaces. *)
Lemma words_joined fuel l :
  Forall (λ w, w ≠ "" ∧ all_bytes is_ascii_graphic w = true) l →
  (String.length (concat_sep " " l) < fuel)%nat → words_from fuel "" (concat_sep " " l) = l.
Proof.
  intros Hl. revert fuel. induction Hl as [|w l [Hne Hw] Hl IH]; intros fuel Hf; [by destruct fuel|].
  destruct l as [|w' l].
  - cbn [concat_sep] in *. rewrite <-(append_nil_r w).
    destruct (words_graphic fuel "" w "" Hw) as (f' & Hf' & E); [simpl; lia|]. rewrite E.
    rewrite append_nil_r. destruct f' as [|f']; [simpl in Hf'; lia|]. simpl. unfold emit. by destruct w.
  - change (concat_sep " " (w :: w' :: l)) with (w +:+ String " " (concat_sep " " (w' :: l))) in *.
    rewrite length_append in Hf.
    destruct (words_graphic fuel "" w (String " " (concat_sep " " (w' :: l))) Hw) as (f' & Hf' & E); [lia|].
    rewrite E. destruct f' as [|f']; [lia|]. cbn [words_from]. rewrite strip_space_start_space.
    change ("" +:+ w) with w. unfold emit. destruct w as [|c w]; [done|]. cbn [is_empty app]. f_equal.
    apply IH. cbn [String.length] in Hf'. lia.
Qed.

Lemma split_whitespace_joined l :
  Forall (λ w, w ≠ "" ∧ all_bytes is_ascii_graphic w = true) l → split_whitespace (concat_sep " " l) = l.
Proof. intros Hl. apply words_joined; [done|lia]. Qed.

Lemma split_whitespace_space s : split_whitespace (String " " s) = split_whitespace s.
Proof.
  unfold split_whitespace. cbn [String.length words_from]. rewrite strip_space_start_space. done.
Qed.

(** [str::lines]: a line ended by a newline loses that and a carriage return
    before it; text after the last newline is a line as it is. *)
Definition strip_cr (s : string) : string :=
  default s (strip_suffix s (String carriage_return EmptyString)).

Fixpoint lines_of (pieces : list string) : list string :=
  match pieces with
  | [] => []
  | [w] => if is_empty w then [] else [w]
  | w :: rest => strip_cr w :: lines_of rest
  end.

Definition str_lines (s : string) : list string := lines_of (split newline s).

(** A text of newline-ended lines is read back line by line. *)
Definition line_text_ok (w : string) : Prop :=
  contains_byte newline w = false ∧ contains_byte carriage_return w = false.

Lemma strip_cr_clean w : contains_byte carriage_return w = false → strip_cr w = w.
Proof.
  intros H. unfold strip_cr. destruct (strip_suffix w _) as [r|] eqn:E; [|done].
  apply strip_suffix_Some in E as ->. rewrite contains_byte_append in H.
  apply orb_false_iff in H as [_ H]. by vm_compute in H.
Qed.

Lemma str_lines_line w rest :
  line_text_ok w → str_lines (w +:+ String newline rest) = w :: str_lines rest.
Proof.
  intros [Hn Hc]. unfold str_lines. rewrite split_append by done. cbn [lines_of].
  destruct (split newline rest) as [|x l] eqn:E; [by apply split_ne_nil in E|].
  by rewrite strip_cr_clean.
Qed.

(** * Quotes

    Templates are written with single quotes for the double quotes they hold. *)
Definition dquote : ascii := "034"%char.
Definition squote : ascii := "039"%char.

Definition quoted (s : string) : string :=
  map_bytes (λ c, if bool_decide (c = squote) then dquote else c) s.
