(* ===== verification/Wire.v ===== *)
(** The shared wire protocol: [crates/proto].

    The error codes with their wire tokens, the authority event, the
    [--ttl] grammar, the client's response parser and response reader, the
    handshake and the request validity check. *)

From stdpp Require Import prelude strings list.
From Stdlib Require Import ZArith Lia Ascii.
From S2P Require Import Prelude Text.

Local Open Scope string_scope.

Definition PROTOCOL_VERSION : Z := 4.
Definition MAX_FRAME_BYTES : Z := 4096.
Definition SUBSCRIBE_VERB : string := "SUBSCRIBE".
Definition SUBSCRIBER_CAPACITY_RESPONSE : string :=
  "ERR SUBSCRIBER_CAPACITY" +:+ String newline "".

(** * Error codes *)
Inductive ErrCode : Type :=
| BadRequest | UnknownOp | VersionMismatch | UnknownToken | NoScope | AgentTty
| ForeignCaller | NotHumanKey | AmbiguousKey | Denied | Timeout
| YubikeyUnreachable | TooManyPending | Internal.

#[global] Instance ErrCode_eq_dec : EqDecision ErrCode.
Proof. solve_decision. Defined.

Definition wire (e : ErrCode) : string :=
  match e with
  | BadRequest => "BAD_REQUEST"
  | UnknownOp => "UNKNOWN_OP"
  | VersionMismatch => "VERSION_MISMATCH"
  | UnknownToken => "UNKNOWN_TOKEN"
  | NoScope => "NO_SCOPE"
  | AgentTty => "AGENT_TTY"
  | ForeignCaller => "FOREIGN_CALLER"
  | NotHumanKey => "NOT_HUMAN_KEY"
  | AmbiguousKey => "AMBIGUOUS_KEY"
  | Denied => "DENIED"
  | Timeout => "TIMEOUT"
  | YubikeyUnreachable => "YUBIKEY_UNREACHABLE"
  | TooManyPending => "TOO_MANY_PENDING"
  | Internal => "INTERNAL"
  end.

Definition parse_wire (token : string) : option ErrCode :=
  if bool_decide (token = "BAD_REQUEST") then Some BadRequest else
  if bool_decide (token = "UNKNOWN_OP") then Some UnknownOp else
  if bool_decide (token = "VERSION_MISMATCH") then Some VersionMismatch else
  if bool_decide (token = "UNKNOWN_TOKEN") then Some UnknownToken else
  if bool_decide (token = "NO_SCOPE") then Some NoScope else
  if bool_decide (token = "AGENT_TTY") then Some AgentTty else
  if bool_decide (token = "FOREIGN_CALLER") then Some ForeignCaller else
  if bool_decide (token = "NOT_HUMAN_KEY") then Some NotHumanKey else
  if bool_decide (token = "AMBIGUOUS_KEY") then Some AmbiguousKey else
  if bool_decide (token = "DENIED") then Some Denied else
  if bool_decide (token = "TIMEOUT") then Some Timeout else
  if bool_decide (token = "YUBIKEY_UNREACHABLE") then Some YubikeyUnreachable else
  if bool_decide (token = "TOO_MANY_PENDING") then Some TooManyPending else
  if bool_decide (token = "INTERNAL") then Some Internal else
  None.

(** * Authority events *)
Definition authority_event (instance : string) (epoch : Z) : string :=
  "EPOCH " +:+ to_string epoch +:+ " instance=" +:+ instance +:+ String newline "".

Definition parse_authority_event (line : string) : option (string * Z) :=
  body ← strip_prefix line "EPOCH ";
  '(epoch, instance) ← split_once " instance=" body;
  instance ← strip_suffix instance (String newline "");
  if is_empty epoch
     || negb (all_bytes is_ascii_digit epoch)
     || is_empty instance
     || negb (all_bytes is_ascii_graphic instance)
  then None
  else n ← parse_unsigned u64_max epoch; Some (instance, n).

(** * [parse_ttl]

    The unit is the last character; everything before it is the number. *)
Fixpoint split_last (s : string) : option (string * ascii) :=
  match s with
  | EmptyString => None
  | String c EmptyString => Some (EmptyString, c)
  | String c s' =>
      match split_last s' with
      | Some (a, d) => Some (String c a, d)
      | None => None
      end
  end.

Definition ttl_multiplier (c : ascii) : option Z :=
  if bool_decide (c = "s"%char) then Some 1%Z else
  if bool_decide (c = "m"%char) then Some 60%Z else
  if bool_decide (c = "h"%char) then Some 3600%Z else None.

Definition parse_ttl (value : string) : option Z :=
  if negb (all_bytes is_ascii value) || (slen value <? 2)%Z then None else
  '(number, unit) ← split_last value;
  multiplier ← ttl_multiplier unit;
  n ← parse_unsigned u64_max number;
  ttl ← checked_mul_u64 n multiplier;
  if (0 <? ttl)%Z then Some ttl else None.

(** * Responses as the client sees them *)
Inductive BrokerResponse : Type :=
| RespOk
| RespFields (fields : string)
| RespBytes (bytes : string).

(** The [std::io::ErrorKind]s the client tells apart. *)
Inductive ErrorKind : Type :=
| Interrupted | WouldBlock | TimedOut | UnexpectedEof | NotFound | OtherKind.

Inductive ClientError : Type :=
| Io (kind : ErrorKind)
| ApprovalTimeout
| InvalidRequest
| InvalidResponse
| VersionHandshake
| Broker (code : ErrCode)
| TokenFile.

#[global] Instance ErrorKind_eq_dec : EqDecision ErrorKind.
Proof. solve_decision. Defined.
#[global] Instance BrokerResponse_eq_dec : EqDecision BrokerResponse.
Proof. solve_decision. Defined.
#[global] Instance ClientError_eq_dec : EqDecision ClientError.
Proof. solve_decision. Defined.

Inductive Header : Type :=
| HOk
| HFields (fields : string)
| HBytes (length : Z)
| HError (code : ErrCode).

Definition OK_LEN : string := "OK" +:+ String tab "len=".
Definition OK_TAB : string := "OK" +:+ String tab "".
Definition ERR_TAB : string := "ERR" +:+ String tab "".

Definition header_byte (c : ascii) : bool :=
  is_ascii_graphic c || bool_decide (c = " "%char) || bool_decide (c = tab).

Definition parse_header (header : string) : result ClientError Header :=
  if is_empty header || negb (all_bytes header_byte header) then Err InvalidResponse else
  text ← ok_or InvalidResponse (from_utf8 header);
  if bool_decide (text = "OK") then Ok HOk else
  match strip_prefix text OK_LEN with
  | Some length =>
      if is_empty length || negb (all_bytes is_ascii_digit length) then Err InvalidResponse else
      n ← ok_or InvalidResponse (parse_unsigned u64_max length);
      if (MAX_FRAME_BYTES <? n)%Z then Err InvalidResponse else Ok (HBytes n)
  | None =>
  match strip_prefix text OK_TAB with
  | Some fields => Ok (HFields fields)
  | None =>
  match strip_prefix text ERR_TAB with
  | Some error =>
      match split_once (String tab "") error with
      | None => Err InvalidResponse
      | Some (c, _) => HError <$> ok_or InvalidResponse (parse_wire c)
      end
  | None => Err InvalidResponse
  end end end.

Definition finish_header (h : Header) : result ClientError BrokerResponse :=
  match h with
  | HOk => Ok RespOk
  | HFields fields => Ok (RespFields fields)
  | HBytes _ => Err InvalidResponse
  | HError c => Err (Broker c)
  end.

Definition payload_from_slice (payload : string) (length : Z) :
    result ClientError BrokerResponse :=
  if bool_decide (slen payload = length) && negb (contains_byte nul payload)
  then Ok (RespBytes payload) else Err InvalidResponse.

Definition parse_response (response : string) : result ClientError BrokerResponse :=
  match split_at_byte newline response with
  | None => Err InvalidResponse
  | Some (header, rest) =>
      match strip_prefix rest (String newline "") with
      | None => Err InvalidResponse
      | Some payload =>
          h ← parse_header header;
          match h with
          | HBytes length => payload_from_slice payload length
          | _ => if is_empty payload then finish_header h else Err InvalidResponse
          end
      end
  end.

(** * Reading a response from the socket

    The peer is a script: one entry per call the client makes on the
    socket, with the clock reading taken before the call.  An exhausted
    script is a call that has not returned yet ([None]). *)
Inductive read_event : Type :=
| ReadByte (c : ascii)
| ReadEof
| ReadErr (kind : ErrorKind)
| SetTimeoutErr (kind : ErrorKind).

Definition script : Type := list (Z * read_event).

Definition timed_out : ClientError := Io TimedOut.

Fixpoint read_header_line (deadline : option Z) (line : string) (s : script) :
    option (result ClientError string * script) :=
  if (MAX_FRAME_BYTES <? slen line)%Z then Some (Err InvalidResponse, s) else
  match s with
  | [] => None
  | (now, event) :: s' =>
      if is_some_and (λ d, Time.duration_since d now =? 0)%Z deadline
      then Some (Err timed_out, s) else
      match event with
      | SetTimeoutErr kind => Some (Err (Io kind), s')
      | ReadEof => Some (Err InvalidResponse, s')
      | ReadByte c =>
          let line' := line +:+ String c "" in
          if bool_decide (c = newline) then Some (Ok line', s')
          else read_header_line deadline line' s'
      | ReadErr kind =>
          if bool_decide (kind = Interrupted) then read_header_line deadline line s'
          else Some (Err (Io kind), s')
      end
  end.

(** [read_exact]: retries an interrupted read, and reports an early end of
    stream as [UnexpectedEof], which the client maps to a bad response. *)
Fixpoint read_payload (n : nat) (payload : string) (s : script) :
    option (result ClientError string * script) :=
  match n with
  | O => Some (Ok payload, s)
  | S n' =>
      (fix go (s : script) :=
         match s with
         | [] => None
         | (_, ReadByte c) :: s' => read_payload n' (payload +:+ String c "") s'
         | (_, ReadEof) :: s' => Some (Err InvalidResponse, s')
         | (_, ReadErr kind) :: s' | (_, SetTimeoutErr kind) :: s' =>
             if bool_decide (kind = Interrupted) then go s' else
             if bool_decide (kind = UnexpectedEof) then Some (Err InvalidResponse, s') else
             Some (Err (Io kind), s')
         end) s
  end.

Definition reject_trailing_bytes (s : script) : option (result ClientError ()) :=
  match s with
  | [] => None
  | (_, ReadEof) :: _ => Some (Ok ())
  | (_, ReadByte _) :: _ => Some (Err InvalidResponse)
  | (_, ReadErr kind) :: _ | (_, SetTimeoutErr kind) :: _ => Some (Err (Io kind))
  end.

Definition bytes_response (payload : string) : result ClientError BrokerResponse :=
  if contains_byte nul payload then Err InvalidResponse else Ok (RespBytes payload).

(** [read_response_by]; [after_header] is the clock reading between the
    header and the payload. *)
Definition read_response_by (deadline : option Z) (after_header : Z) (s : script) :
    option (result ClientError BrokerResponse) :=
  '(raw, s1) ← read_header_line deadline EmptyString s;
  match raw with
  | Err e => Some (Err e)
  | Ok raw_header =>
      match strip_suffix raw_header (String newline "") with
      | None => Some (Err InvalidResponse)
      | Some header =>
          if is_some_and (λ d, d <=? after_header)%Z deadline then Some (Err timed_out) else
          match parse_header header with
          | Err e => Some (Err e)
          | Ok (HBytes length) =>
              '(payload, s2) ← read_payload (Z.to_nat length) EmptyString s1;
              match payload with
              | Err e => Some (Err e)
              | Ok payload =>
                  trailing ← reject_trailing_bytes s2;
                  Some (trailing ≫= λ _, bytes_response payload)
              end
          | Ok h =>
              trailing ← reject_trailing_bytes s1;
              Some (trailing ≫= λ _, finish_header h)
          end
      end
  end.

(** * Requests and the handshake *)
Definition APPROVAL_TIMEOUT : Z := Time.from_secs 120.
Definition CONTROL_TIMEOUT : Z := Time.from_secs 5.

Definition APPROVAL_VERBS : list string :=
  ["GET" +:+ String tab ""; "REQUEST" +:+ String tab ""; "AUTHORIZE" +:+ String tab ""].

Definition waits_for_approval (request : string) : bool :=
  existsb (starts_with request) APPROVAL_VERBS.

(** The frame [write_request] puts on the socket, or its refusal. *)
Definition write_request (request : string) : result ClientError string :=
  if negb (is_empty request) && (slen request <=? MAX_FRAME_BYTES)%Z
     && all_bytes is_ascii request
     && negb (any_byte (λ c, bool_decide (c = newline) || bool_decide (c = carriage_return)
                             || bool_decide (c = nul)) request)
  then Ok (request +:+ String newline "") else Err InvalidRequest.

Definition request_timeout (get_timeout control_timeout : Z) (request : string) : Z :=
  if waits_for_approval request then get_timeout else control_timeout.

(** [request_on] after the socket's timeouts were set: [now] is the clock
    reading after the write, [after_header] the one after the header. *)
Definition request_on (get_timeout control_timeout now after_header : Z)
    (request : string) (s : script) : option (result ClientError BrokerResponse) :=
  match write_request request with
  | Err e => Some (Err e)
  | Ok _ =>
      let deadline := Time.checked_add now (request_timeout get_timeout control_timeout request) in
      reply ← read_response_by deadline after_header s;
      Some (match reply with
            | Err (Io kind) =>
                if waits_for_approval request
                   && (bool_decide (kind = WouldBlock) || bool_decide (kind = TimedOut))
                then Err ApprovalTimeout else reply
            | _ => reply
            end)
  end.

Definition hello_request : string :=
  "HELLO" +:+ String tab ("version=" +:+ to_string PROTOCOL_VERSION).

(** The check [hello_on] makes of the broker's reply. *)
Definition hello_check (reply : result ClientError BrokerResponse) : result ClientError string :=
  r ← reply;
  match r with
  | RespFields fields =>
      if existsb (λ field, bool_decide (strip_prefix field "version="
                                        = Some (to_string PROTOCOL_VERSION)))
                 (split " "%char fields)
      then Ok fields else Err VersionHandshake
  | _ => Err VersionHandshake
  end.

(** [HelloFields::required]. *)
Fixpoint required_field (name : string) (value : option string) (fields : list string) :
    result ClientError string :=
  match fields with
  | [] => ok_or InvalidResponse value
  | field :: rest =>
      match split_once "=" field with
      | None => required_field name value rest
      | Some (field_name, field_value) =>
          if bool_decide (field_name = name) then
            if is_empty field_value || is_some value then Err InvalidResponse
            else required_field name (Some field_value) rest
          else required_field name value rest
      end
  end.

Definition hello_required (fields name : string) : result ClientError string :=
  required_field name None (split " "%char fields).

(** [SocketPath::resolve]. *)
Definition socket_path_resolve (override_path runtime_dir : option string) (uid : Z) : string :=
  match override_path, runtime_dir with
  | Some path, _ => path
  | None, Some directory =>
      if is_empty directory then "/run/user/" +:+ to_string uid +:+ "/secretsd.sock"
      else if ends_with directory "/" then directory +:+ "secretsd.sock"
      else directory +:+ "/secretsd.sock"
  | None, None => "/run/user/" +:+ to_string uid +:+ "/secretsd.sock"
  end.

(** * Properties *)

Lemma split_once_first d p a b :
  contains_byte d a = false →
  split_once (String d p) (a +:+ String d p +:+ b) = Some (a, b).
Proof.
  rewrite contains_byte_false. induction a as [|c a IH].
  - intros _. change ("" +:+ String d p +:+ b) with (String d p +:+ b).
    rewrite append_cons. cbn [split_once].
    rewrite <-append_cons, strip_prefix_append. done.
  - cbn [all_bytes]. intros [H Ha]%andb_true_iff.
    apply negb_true_iff, bool_decide_eq_false_1 in H.
    specialize (IH Ha). rewrite (append_cons c). cbn [split_once strip_prefix].
    rewrite bool_decide_eq_false_2 by congruence. by rewrite IH.
Qed.

Lemma digits_no_space s : all_bytes is_ascii_digit s = true → contains_byte " "%char s = false.
Proof. by apply all_bytes_not_contains. Qed.

Lemma parse_wire_wire e : parse_wire (wire e) = Some e.
Proof. by destruct e. Qed.

(** The wire token of an error code parses back to exactly that code,
    and no other text parses to it. *)
Lemma parse_wire_spec token e : parse_wire token = Some e ↔ wire e = token.
Proof.
  split.
  - unfold parse_wire. repeat (case_bool_decide; [intros [= <-]; by subst|]). done.
  - intros <-. apply parse_wire_wire.
Qed.

(** An authority event survives the trip to a subscriber: the parser
    returns the instance and the epoch the broker printed. *)
Lemma authority_event_roundtrip instance epoch :
  is_empty instance = false → all_bytes is_ascii_graphic instance = true →
  (0 <= epoch <= u64_max)%Z →
  parse_authority_event (authority_event instance epoch) = Some (instance, epoch).
Proof.
  intros He Hg Hepoch. unfold parse_authority_event, authority_event.
  rewrite strip_prefix_append. cbn [mbind option_bind].
  rewrite (split_once_first " "%char "instance=")
    by (apply digits_no_space, to_string_digits; lia).
  cbn [mbind option_bind]. rewrite strip_suffix_append. cbn [mbind option_bind].
  rewrite to_string_not_empty, to_string_digits, He, Hg by lia. simpl.
  by rewrite parse_unsigned_to_string by lia.
Qed.

Lemma authority_event_roundtrip_witness :
  parse_authority_event (authority_event "6e57b1e32c564c4ca0c53d9fc5983a14" 42)
  = Some ("6e57b1e32c564c4ca0c53d9fc5983a14", 42%Z).
Proof. apply authority_event_roundtrip; [done|done|unfold u64_max; lia]. Defined.

Lemma split_last_append s c : split_last (s +:+ String c "") = Some (s, c).
Proof.
  induction s as [|d s IH]; [done|]. rewrite append_cons. cbn [split_last].
  rewrite IH. by destruct s.
Qed.

Lemma ttl_multiplier_range c m : ttl_multiplier c = Some m → (1 <= m <= 3600)%Z ∧ is_ascii c = true.
Proof. unfold ttl_multiplier. repeat case_bool_decide; intros; simplify_eq; (split; [lia|done]). Qed.

(** [parse_ttl] reads a positive count and a unit as their product in
    seconds, and refuses exactly the products a [u64] cannot hold. *)
Lemma parse_ttl_value n c m :
  (0 < n <= u64_max)%Z → ttl_multiplier c = Some m →
  parse_ttl (to_string n +:+ String c "") =
  if (n * m <=? u64_max)%Z then Some (n * m)%Z else None.
Proof.
  intros Hn Hm. destruct (ttl_multiplier_range _ _ Hm) as [Hm1 Hc]. unfold parse_ttl.
  rewrite all_bytes_append, slen_append, slen_cons. cbn [all_bytes].
  rewrite Hc, (all_bytes_impl is_ascii_digit) by
    (auto with broker || (intros d; unfold is_ascii_digit, is_ascii, in_range; lia)
     || (apply to_string_digits; lia)).
  pose proof (to_string_not_empty n) as He.
  destruct (Z.ltb_spec (slen (to_string n) + (1 + slen "")) 2) as [H|_].
  { destruct (to_string n) as [|d t]; [done|]. rewrite slen_cons in H.
    pose proof (slen_nonneg t). unfold slen in H at 2. simpl in H. lia. }
  simpl. rewrite split_last_append. simpl. rewrite Hm. simpl.
  rewrite parse_unsigned_to_string by lia. simpl.
  unfold checked_mul_u64. case_bool; simpl; [|done].
  by destruct (Z.ltb_spec 0 (n * m)); [|nia].
Qed.

Lemma parse_ttl_value_witness :
  parse_ttl (to_string 30 +:+ "m") = Some 1800%Z.
Proof. exact (parse_ttl_value 30 "m"%char 60 ltac:(unfold u64_max; lia) eq_refl). Defined.

(** ** The streaming reader against the whole-buffer parser *)

(** A peer that sends [response] at once at time [t] and then closes. *)
Fixpoint deliver (t : Z) (response : string) : script :=
  match response with
  | EmptyString => [(t, ReadEof)]
  | String c s => (t, ReadByte c) :: deliver t s
  end.

Section streaming.
Context (deadline : option Z) (t after_header : Z).
Hypothesis not_late : is_some_and (λ d, Time.duration_since d t =? 0)%Z deadline = false.
Hypothesis header_not_late : is_some_and (λ d, d <=? after_header)%Z deadline = false.

(** A line that ends within the bound is read whole, and nothing after it. *)
Lemma read_header_line_newline acc h rest :
  contains_byte newline h = false → (slen acc + slen h <= MAX_FRAME_BYTES)%Z →
  read_header_line deadline acc (deliver t (h +:+ String newline rest)) =
  Some (Ok (acc +:+ h +:+ String newline ""), deliver t rest).
Proof.
  revert acc. induction h as [|c h IH]; intros acc; rewrite contains_byte_false; intros Hh Hl.
  - change ("" +:+ String newline rest) with (String newline rest).
    cbn [deliver read_header_line]. unfold slen in Hl at 2. simpl in Hl.
    destruct (Z.ltb_spec MAX_FRAME_BYTES (slen acc)); [lia|].
    rewrite not_late. by rewrite bool_decide_eq_true_2.
  - cbn [all_bytes] in Hh. apply andb_true_iff in Hh as [Hc Hh].
    apply negb_true_iff, bool_decide_eq_false_1 in Hc. rewrite append_cons.
    cbn [deliver read_header_line]. rewrite slen_cons in Hl. pose proof (slen_nonneg h).
    destruct (Z.ltb_spec MAX_FRAME_BYTES (slen acc)); [lia|].
    rewrite not_late, bool_decide_eq_false_2 by done.
    rewrite IH; [| by apply contains_byte_false
                 | rewrite slen_append, slen_cons; unfold slen at 2; simpl; lia].
    by rewrite <-append_assoc.
Qed.

(** Without a newline the reader refuses: at the end of the stream or at
    the frame bound, whichever comes first. *)
Lemma read_header_line_no_newline acc h :
  contains_byte newline h = false →
  ∃ s, read_header_line deadline acc (deliver t h) = Some (Err InvalidResponse, s).
Proof.
  revert acc. induction h as [|c h IH]; intros acc; rewrite contains_byte_false; intros Hh;
    cbn [deliver read_header_line]; case_bool; eauto; rewrite not_late; [eauto|].
  cbn [all_bytes] in Hh. apply andb_true_iff in Hh as [Hc Hh].
  apply negb_true_iff in Hc. rewrite Hc. apply IH. by apply contains_byte_false.
Qed.

Lemma read_payload_enough a b acc :
  read_payload (String.length a) acc (deliver t (a +:+ b)) = Some (Ok (acc +:+ a), deliver t b).
Proof.
  revert acc. induction a as [|c a IH]; intros acc.
  - by rewrite append_nil_r.
  - rewrite append_cons. cbn [String.length deliver read_payload]. rewrite IH.
    by rewrite <-append_assoc.
Qed.

Lemma read_payload_short payload acc n :
  (String.length payload < n)%nat →
  read_payload n acc (deliver t payload) = Some (Err InvalidResponse, []).
Proof.
  revert acc payload. induction n as [|n IH]; intros acc payload Hn; [lia|].
  destruct payload as [|c s]; cbn [deliver read_payload]; [done|].
  apply IH. simpl in Hn. lia.
Qed.

Lemma reject_trailing_deliver s :
  reject_trailing_bytes (deliver t s) =
  Some (if is_empty s then Ok () else Err InvalidResponse).
Proof. by destruct s. Qed.

End streaming.

Lemma split_at_byte_None c s : split_at_byte c s = None → contains_byte c s = false.
Proof.
  intros H. apply contains_byte_false. revert H.
  induction s as [|d s IH]; [done|]. simpl. case_bool_decide; [done|].
  destruct (split_at_byte c s) as [[??]|]; [done|]. intros _. by apply IH.
Qed.

Lemma string_split (n : nat) s :
  (n <= String.length s)%nat → ∃ a b, s = a +:+ b ∧ String.length a = n.
Proof.
  revert s. induction n as [|n IH]; intros s Hn; [by exists "", s|].
  destruct s as [|c s]; [simpl in Hn; lia|].
  destruct (IH s ltac:(simpl in Hn; lia)) as (a & b & -> & <-).
  by exists (String c a), b.
Qed.

Lemma parse_header_bytes_nonneg h n : parse_header h = Ok (HBytes n) → (0 <= n)%Z.
Proof.
  unfold parse_header. repeat case_bool; try done.
  destruct (from_utf8 h) as [text|]; simpl; [|done]. case_bool; [done|].
  destruct (strip_prefix text OK_LEN) as [len|].
  - case_bool; [done|]. destruct (parse_unsigned u64_max len) as [k|] eqn:E; simpl; [|done].
    case_bool; [done|]. intros [= <-]. unfold parse_unsigned in E.
    apply from_str_radix_range in E; [lia|done|done].
  - destruct (strip_prefix text OK_TAB); [done|].
    destruct (strip_prefix text ERR_TAB) as [error|]; [|done].
    destruct (split_once (String tab "") error) as [[c m]|]; [|done].
    by destruct (parse_wire c).
Qed.

(** Reading a response from the socket under its deadline gives the
    same answer as parsing the complete bytes, for every response whose
    header line fits the frame bound. *)
Lemma read_response_matches_parser deadline t after_header response :
  is_some_and (λ d, Time.duration_since d t =? 0)%Z deadline = false →
  is_some_and (λ d, d <=? after_header)%Z deadline = false →
  (∀ h rest, split_at_byte newline response = Some (h, rest) →
     (slen h <= MAX_FRAME_BYTES)%Z) →
  read_response_by deadline after_header (deliver t response) =
  Some (parse_response response).
Proof.
  intros Hd Ha Hfit. unfold read_response_by, parse_response.
  destruct (split_at_byte newline response) as [[h rest]|] eqn:E.
  2: { apply split_at_byte_None in E.
       destruct (read_header_line_no_newline deadline t Hd "" response E) as [s ->]. done. }
  specialize (Hfit h rest eq_refl).
  apply split_at_byte_Some in E as (payload & -> & -> & Hc).
  rewrite read_header_line_newline by (done || (unfold slen at 1; simpl; lia)).
  cbn [mbind option_bind]. change ("" +:+ h +:+ String newline "") with (h +:+ String newline "").
  rewrite strip_suffix_append, Ha. cbn [strip_prefix]. rewrite bool_decide_eq_true_2 by done.
  assert (strip_prefix payload "" = Some payload) as -> by by destruct payload.
  destruct (parse_header h) as [hd|e] eqn:Eh; [|done]. cbn [mbind result_bind].
  destruct hd as [|fields|n|c]; try (rewrite reject_trailing_deliver; simpl;
    by destruct (is_empty payload)).
  apply parse_header_bytes_nonneg in Eh. unfold payload_from_slice, bytes_response.
  destruct (decide (String.length payload < Z.to_nat n)%nat) as [Hs|Hs].
  - rewrite read_payload_short by done. simpl.
    rewrite bool_decide_eq_false_2 by (unfold slen; lia). done.
  - destruct (string_split (Z.to_nat n) payload) as (a & b & -> & Hn); [lia|].
    rewrite <-Hn, read_payload_enough. cbn [mbind option_bind].
    rewrite reject_trailing_deliver. change ("" +:+ a) with a. destruct b as [|x b].
    + rewrite append_nil_r, bool_decide_eq_true_2 by (unfold slen; lia). simpl.
      by destruct (contains_byte nul a).
    + rewrite bool_decide_eq_false_2; [done|].
      rewrite slen_append, slen_cons. pose proof (slen_nonneg b). unfold slen at 1. lia.
Qed.

Lemma read_response_matches_parser_witness :
  read_response_by (Some 10%Z) 5 (deliver 5 ("OK" +:+ String newline "")) = Some (Ok RespOk).
Proof.
  rewrite read_response_matches_parser; [done|done|done|].
  intros h rest [= <- <-]. done.
Defined.

(** The whole-reply deadline does not cover the payload: a peer that
    drips the payload after the deadline is still answered [Ok]. *)
Lemma payload_outlives_deadline :
  ∃ deadline after_header late s,
    (deadline < late)%Z ∧ (late, ReadByte "x"%char) ∈ s ∧
    read_response_by (Some deadline) after_header s = Some (Ok (RespBytes "x")).
Proof.
  exists 10%Z, 5%Z, 1000%Z,
    ([(1, ReadByte "O"%char); (1, ReadByte "K"%char); (1, ReadByte tab);
      (1, ReadByte "l"%char); (1, ReadByte "e"%char); (1, ReadByte "n"%char);
      (1, ReadByte "="%char); (1, ReadByte "1"%char); (1, ReadByte newline);
      (1000, ReadByte "x"%char); (1001, ReadEof)])%Z.
  split; [lia|]. split; [|by vm_compute]. set_solver.
Qed.
