(* ===== verification/Request.v ===== *)
(** The broker's side of the protocol: [crates/secrets/src/proto].

    The [Request] grammar and its parser, the response printer, the frame
    a [secrets] client builds, the reply the [forward] client accepts, and
    the round trips between the two ends. *)

From stdpp Require Import prelude strings list.
From Stdlib Require Import ZArith Lia Ascii.
From S2P Require Import Prelude Text Wire.

Local Open Scope string_scope.

(** * Requests *)
Inductive Request : Type :=
| Hello (version : Z)
| Register (token_hex session : string) (pid : Z)
| Unregister (session : string)
| Get (key : string) (token_hex tty : option string) (ttl_secs : option Z)
| RequestGrant (key : string) (token_hex tty : option string) (ttl_secs : option Z)
| Authorize (cap : string) (token_hex tty : option string)
| Redeem (receipt_hex cap : string)
| Grants
| Deny (id : Z)
| Lock
| Subscribe.

#[global] Instance Request_eq_dec : EqDecision Request.
Proof. solve_decision. Defined.

Definition fields_t : Type := list (string * string).

Definition field (fields : fields_t) (name : string) : option string :=
  snd <$> List.find (λ kv, bool_decide (kv.1 = name)) fields.

Definition required (fields : fields_t) (name : string) : result ErrCode string :=
  ok_or BadRequest (field fields name).

(** The loop that collects [k=v] parts and refuses a repeated key. *)
Fixpoint collect_fields (fields : fields_t) (parts : list string) : result ErrCode fields_t :=
  match parts with
  | [] => Ok fields
  | part :: rest =>
      '(key, value) ← ok_or BadRequest (split_once "=" part);
      if is_some (field fields key) then Err BadRequest
      else collect_fields (fields ++ [(key, value)])%list rest
  end.

(** The [ttl_secs] closure: absent is no preference, zero is malformed. *)
Definition ttl_field (fields : fields_t) (name : string) : result ErrCode (option Z) :=
  match field fields name with
  | None => Ok None
  | Some raw =>
      match parse_unsigned u64_max raw with
      | None => Err BadRequest
      | Some secs => if (secs =? 0)%Z then Err BadRequest else Ok (Some secs)
      end
  end.

Definition parse_op (op : string) (fields : fields_t) : result ErrCode Request :=
  if bool_decide (op = "HELLO") then
    version ← required fields "version";
    v ← ok_or BadRequest (parse_unsigned u32_max version);
    Ok (Hello v)
  else if bool_decide (op = "REGISTER") then
    token ← required fields "token";
    session ← required fields "session";
    raw_pid ← required fields "pid";
    pid ← ok_or BadRequest (parse_i32 raw_pid);
    Ok (Register token session pid)
  else if bool_decide (op = "UNREGISTER") then
    session ← required fields "session";
    Ok (Unregister session)
  else if bool_decide (op = "GET") then
    key ← required fields "key";
    ttl ← ttl_field fields "ttl";
    Ok (Get key (field fields "token") (field fields "tty") ttl)
  else if bool_decide (op = "REQUEST") then
    key ← required fields "key";
    ttl ← ttl_field fields "ttl";
    Ok (RequestGrant key (field fields "token") (field fields "tty") ttl)
  else if bool_decide (op = "AUTHORIZE") then
    cap ← required fields "cap";
    Ok (Authorize cap (field fields "token") (field fields "tty"))
  else if bool_decide (op = "REDEEM") then
    receipt ← required fields "receipt";
    cap ← required fields "cap";
    Ok (Redeem receipt cap)
  else if bool_decide (op = "GRANTS") then Ok Grants
  else if bool_decide (op = "DENY") then
    raw ← required fields "id";
    id ← ok_or BadRequest (parse_unsigned u64_max raw);
    Ok (Deny id)
  else if bool_decide (op = "LOCK") then Ok Lock
  else if bool_decide (op = SUBSCRIBE_VERB) then
    match fields with [] => Ok Subscribe | _ => Err BadRequest end
  else Err UnknownOp.

Definition parse_request (line : string) : result ErrCode Request :=
  if is_empty line || (MAX_FRAME_BYTES <? slen line)%Z then Err BadRequest else
  text ← ok_or BadRequest (from_utf8 line);
  match split tab text with
  | [] => Err BadRequest
  | op :: parts =>
      fields ← collect_fields [] parts;
      parse_op op fields
  end.

(** * Responses *)
Inductive Response : Type :=
| ROk
| ROkFields (fields : string)
| ROkBytes (len : Z)
| RFailed (code : ErrCode) (message : string).

Definition sanitize (text : string) : string :=
  map_bytes (λ c, if bool_decide (c = newline) || bool_decide (c = carriage_return)
                     || bool_decide (c = tab) then " "%char else c) text.

Definition format_response (r : Response) : string :=
  match r with
  | ROk => "OK" +:+ String newline ""
  | ROkFields fields => OK_TAB +:+ sanitize fields +:+ String newline ""
  | ROkBytes len => OK_LEN +:+ to_string len +:+ String newline ""
  | RFailed code message =>
      ERR_TAB +:+ wire code +:+ String tab "" +:+ sanitize message +:+ String newline ""
  end.

(** * The [secrets] client's frame, [HumanClient::scoped_frame] *)
Definition push_field (name : string) (value : option string) (frame : string) : string :=
  match value with
  | Some v => frame +:+ String tab (name +:+ "=") +:+ v
  | None => frame
  end.

Definition scoped_frame (operation key : string) (token tty : option string)
    (ttl_secs : option Z) : string :=
  push_field "ttl" (to_string <$> ttl_secs)
    (push_field "tty" tty
      (push_field "token" token
        (operation +:+ String tab "key=" +:+ key))).

(** [parse_ttl_field] of the same client. *)
Definition find_map_str (f : string → option string) (l : list string) : option string :=
  foldr (λ x acc, match f x with Some y => Some y | None => acc end) None l.

Definition parse_ttl_field (fields : string) : option Z :=
  value ← find_map_str (λ f, strip_prefix f "ttl=") (split " "%char fields);
  parse_unsigned u64_max value.

(** * The [forward] client's checks of a success reply *)
Definition is_ascii_control (c : ascii) : bool := in_range 0 31 c || in_range 127 127 c.

Definition valid_field (v : string) : bool :=
  negb (is_empty v) && all_bytes is_ascii v && negb (any_byte is_ascii_control v).

Definition valid_hex_bytes (v : string) (length : Z) : bool :=
  bool_decide (slen v = length) && all_bytes (λ c, is_ascii_digit c || in_range 97 102 c) v.

Inductive BrokerError : Type :=
| Connect (path source : string)
| UntrustedPeer (path : string)
| SubscriptionClosed
| SubscriberCapacity
| Protocol (why : string)
| UnknownOpError
| DeniedError
| TimeoutError
| YubikeyUnreachableError
| NotProvisioned (cap file : string)
| NoScopeError
| ReceiptRejected
| TooManyPendingError.

Fixpoint expected_fields_loop (expected : list string) (parsed : fields_t) (l : list string) :
    result BrokerError fields_t :=
  match l with
  | [] => Ok parsed
  | f :: rest =>
      match split_once "=" f with
      | None => Err (Protocol "malformed broker success reply")
      | Some (name, v) =>
          if is_empty name || is_empty v || negb (existsb (λ e, bool_decide (e = name)) expected)
             || existsb (λ kv, bool_decide (kv.1 = name)) parsed
          then Err (Protocol "unexpected or duplicate broker success field")
          else expected_fields_loop expected (parsed ++ [(name, v)])%list rest
      end
  end.

Definition expected_fields (fields : string) (expected : list string) :
    result BrokerError fields_t :=
  parsed ← expected_fields_loop expected [] (split " "%char fields);
  if bool_decide (length parsed = length expected) then Ok parsed
  else Err (Protocol "broker success reply is missing a field").

Record SocketIdentity : Type := { si_device : Z; si_inode : Z }.

Record BrokerIdentity : Type := {
  bi_instance : string;
  bi_epoch : Z;
  bi_socket : SocketIdentity;
}.

Record RedeemedGrant : Type := {
  rg_authority : BrokerIdentity;
  rg_ttl_secs : Z;
}.

#[global] Instance SocketIdentity_eq_dec : EqDecision SocketIdentity.
Proof. solve_decision. Defined.
#[global] Instance BrokerIdentity_eq_dec : EqDecision BrokerIdentity.
Proof. solve_decision. Defined.

Definition redeemed_cap (fields cap : string) (socket : SocketIdentity) :
    result BrokerError RedeemedGrant :=
  parsed ← expected_fields fields ["status"; "cap"; "instance"; "epoch"; "ttl"];
  match field parsed "status", field parsed "cap", field parsed "instance",
        field parsed "epoch", field parsed "ttl" with
  | Some status, Some returned, Some instance, Some epoch, Some ttl =>
      if bool_decide (status = "redeemed") && bool_decide (returned = cap) then
        if negb (valid_field instance) then
          Err (Protocol "broker redeem reply has no usable instance")
        else
          e ← ok_or (Protocol "broker redeem reply has no usable epoch")
                    (parse_unsigned u64_max epoch);
          t ← ok_or (Protocol "broker redeem reply has no usable ttl")
                    (t ← parse_unsigned u64_max ttl; if (0 <? t)%Z then Some t else None);
          Ok {| rg_authority := {| bi_instance := instance; bi_epoch := e; bi_socket := socket |};
                rg_ttl_secs := t |}
      else if bool_decide (status = "redeemed") then Err ReceiptRejected
      else Err (Protocol "broker success reply has an unexpected status")
  | Some status, _, _, _, _ =>
      if bool_decide (status = "redeemed") then Err ReceiptRejected
      else Err (Protocol "broker success reply has an unexpected status")
  | _, _, _, _, _ => Err ReceiptRejected
  end.

Definition authorized_receipt (fields : string) : result BrokerError string :=
  parsed ← expected_fields fields ["status"; "receipt"];
  match field parsed "status", field parsed "receipt" with
  | Some status, Some receipt =>
      if bool_decide (status = "authorized") && valid_hex_bytes receipt 64 then Ok receipt
      else Err (Protocol "broker did not return an authorized receipt")
  | _, _ => Err (Protocol "broker did not return an authorized receipt")
  end.

(** [authorize_request]: a session token is preferred over a terminal. *)
Definition authorize_request (cap : string) (token tty : option string) :
    result BrokerError string :=
  '(scope_name, scope) ←
    match token, tty with
    | Some t, _ => Ok ("token", t)
    | None, Some y => Ok ("tty", y)
    | None, None => Err NoScopeError
    end;
  if negb (valid_field cap) || negb (valid_field scope) then
    Err (Protocol "authorization request contains an invalid field")
  else
    let request := "AUTHORIZE" +:+ String tab "cap=" +:+ cap
                   +:+ String tab (scope_name +:+ "=") +:+ scope in
    if (MAX_FRAME_BYTES <? slen request + 1)%Z then
      Err (Protocol "authorization request exceeds the broker frame limit")
    else Ok request.

(** The success lines of [redeem] and [authorize] in the broker. *)
Definition redeemed_reply (cap instance : string) (epoch ttl : Z) : string :=
  "status=redeemed cap=" +:+ cap +:+ " instance=" +:+ instance +:+ " epoch="
  +:+ to_string epoch +:+ " ttl=" +:+ to_string ttl.

Definition receipt_reply (receipt : string) : string :=
  "OK" +:+ String tab "status=authorized receipt=" +:+ receipt +:+ String newline "".

(** * Lemmas: frames as lists of fields *)

Definition part (kv : string * string) : string := kv.1 +:+ String "="%char kv.2.

Fixpoint render (frame : string) (fields : fields_t) : string :=
  match fields with
  | [] => frame
  | kv :: rest => render (frame +:+ String tab (part kv)) rest
  end.

Definition clean_field (kv : string * string) : Prop :=
  contains_byte "="%char kv.1 = false ∧ contains_byte tab kv.1 = false ∧
  contains_byte tab kv.2 = false.

Lemma part_no_tab kv : clean_field kv → contains_byte tab (part kv) = false.
Proof.
  intros (_ & H1 & H2). unfold part. rewrite contains_byte_append, H1. simpl.
  apply contains_byte_false in H2. apply contains_byte_false. simpl. by rewrite H2.
Qed.

Fixpoint render_tail (fields : fields_t) : string :=
  match fields with
  | [] => EmptyString
  | kv :: rest => String tab (part kv +:+ render_tail rest)
  end.

Lemma render_tail_eq frame fields : render frame fields = frame +:+ render_tail fields.
Proof.
  revert frame. induction fields as [|kv fs IH]; intros frame; simpl.
  - by rewrite append_nil_r.
  - by rewrite IH, <-append_assoc.
Qed.

Lemma split_render op fields :
  contains_byte tab op = false → Forall clean_field fields →
  split tab (render op fields) = op :: (part <$> fields).
Proof.
  rewrite render_tail_eq. intros Hop Hf. revert op Hop.
  induction Hf as [|kv fs Hkv Hfs IH]; intros op Hop; simpl.
  - rewrite append_nil_r. by apply split_clean.
  - rewrite split_append by done. f_equal. rewrite IH; [done|]. by apply part_no_tab.
Qed.

Lemma field_app fs gs name :
  field (fs ++ gs)%list name = match field fs name with Some v => Some v | None => field gs name end.
Proof.
  unfold field. rewrite find_app.
  by destruct (List.find (λ kv : string * string, bool_decide (kv.1 = name)) fs).
Qed.

Lemma field_None fs name : name ∉ fs.*1 → field fs name = None.
Proof.
  intros H. unfold field. rewrite (proj2 (find_None _ _)); [done|].
  intros kv Hkv. apply bool_decide_eq_false_2. intros <-. apply H.
  apply list_elem_of_fmap. eauto.
Qed.

Lemma split_part k v :
  contains_byte "="%char k = false → split_once "=" (part (k, v)) = Some (k, v).
Proof. apply split_once_char. Qed.

Lemma collect_fields_parts acc fields :
  Forall clean_field fields → NoDup (acc ++ fields)%list.*1 →
  collect_fields acc (part <$> fields) = Ok (acc ++ fields)%list.
Proof.
  intros Hf. revert acc. induction Hf as [|[k v] fs (Hk & _ & _) Hfs IH]; intros acc Hn.
  - by rewrite app_nil_r.
  - rewrite fmap_cons. cbn [collect_fields]. rewrite split_part by done. simpl.
    rewrite field_None.
    + simpl. rewrite IH; [by rewrite <-app_assoc|]. by rewrite <-app_assoc.
    + rewrite fmap_app, NoDup_app in Hn. destruct Hn as (_ & Hn & _).
      intros Hin. eapply Hn; [exact Hin|]. simpl. constructor.
Qed.

(** A frame built from clean, distinct fields reaches [parse_op] intact. *)
Lemma parse_request_render op fields :
  contains_byte tab op = false → op ≠ "" →
  Forall clean_field fields → NoDup fields.*1 →
  all_bytes is_ascii (render op fields) = true →
  (slen (render op fields) <= MAX_FRAME_BYTES)%Z →
  parse_request (render op fields) = parse_op op fields.
Proof.
  intros Hop Hne Hf Hn Ha Hl. unfold parse_request.
  rewrite from_utf8_ascii by done.
  replace (is_empty (render op fields)) with false.
  2: { rewrite render_tail_eq. by destruct op. }
  destruct (Z.ltb_spec MAX_FRAME_BYTES (slen (render op fields))); [lia|]. simpl.
  rewrite split_render by done. by rewrite collect_fields_parts.
Qed.

(** The fields of a client frame, absent ones left out. *)
Definition opt_field (name : string) (v : option string) : fields_t :=
  match v with Some v => [(name, v)] | None => [] end.

Definition scoped_fields (key : string) (token tty : option string) (ttl : option Z) : fields_t :=
  (("key", key) :: opt_field "token" token ++ opt_field "tty" tty
    ++ opt_field "ttl" (to_string <$> ttl))%list.

Lemma push_field_render name v frame :
  push_field name v frame = render frame (opt_field name v).
Proof.
  destruct v as [v|]; [|done]. simpl. unfold part. simpl.
  by rewrite <-append_cons, <-!append_assoc.
Qed.

Lemma render_app frame fs gs : render frame (fs ++ gs)%list = render (render frame fs) gs.
Proof. revert frame. induction fs as [|kv fs IH]; intros frame; [done|]. apply IH. Qed.

Lemma scoped_frame_render op key token tty ttl :
  scoped_frame op key token tty ttl = render op (scoped_fields key token tty ttl).
Proof.
  unfold scoped_frame, scoped_fields. rewrite !push_field_render.
  rewrite app_comm_cons, !render_app. done.
Qed.

Definition clean_value (v : string) : Prop :=
  all_bytes is_ascii v = true ∧ contains_byte tab v = false.

Definition clean_opt (v : option string) : Prop :=
  match v with Some v => clean_value v | None => True end.

Definition valid_ttl (ttl : option Z) : Prop :=
  match ttl with Some n => (0 < n <= u64_max)%Z | None => True end.

Lemma to_string_no_tab n : (0 <= n)%Z → contains_byte tab (to_string n) = false.
Proof.
  intros H. eapply all_bytes_not_contains; [|by apply to_string_digits]. done.
Qed.

Lemma to_string_ascii n : (0 <= n)%Z → all_bytes is_ascii (to_string n) = true.
Proof.
  intros H. eapply all_bytes_impl; [|by apply to_string_digits].
  intros c. unfold is_ascii_digit, is_ascii, in_range. lia.
Qed.

Lemma ttl_field_opt ttl fs :
  valid_ttl ttl → "ttl" ∉ fs.*1 →
  ttl_field (fs ++ opt_field "ttl" (to_string <$> ttl))%list "ttl" = Ok ttl.
Proof.
  intros H Hn. unfold ttl_field. rewrite field_app, field_None by done.
  destruct ttl as [n|]; [|done]. simpl in *. unfold field. simpl.
  rewrite parse_unsigned_to_string by lia. by destruct (Z.eqb_spec n 0); [lia|].
Qed.

Lemma opt_field_clean name v :
  contains_byte "="%char name = false → contains_byte tab name = false → clean_opt v →
  Forall clean_field (opt_field name v).
Proof. intros ?? H. destruct v; repeat constructor; simpl; try done. apply H. Qed.

Lemma scoped_fields_clean key token tty ttl :
  clean_value key → clean_opt token → clean_opt tty → valid_ttl ttl →
  Forall clean_field (scoped_fields key token tty ttl).
Proof.
  intros [_ Hk] Ht Hy Hl. unfold scoped_fields.
  constructor; [by repeat split|]. rewrite !Forall_app.
  split_and!; apply opt_field_clean; try done.
  destruct ttl as [n|]; [|done]. simpl in *.
  split; [apply to_string_ascii; lia|apply to_string_no_tab; lia].
Qed.

Lemma scoped_fields_NoDup key token tty ttl : NoDup (scoped_fields key token tty ttl).*1.
Proof.
  unfold scoped_fields. destruct token, tty, ttl; simpl;
    apply (bool_decide_unpack _); by vm_compute.
Qed.

Lemma scoped_frame_ascii op key token tty ttl :
  all_bytes is_ascii op = true →
  clean_value key → clean_opt token → clean_opt tty → valid_ttl ttl →
  all_bytes is_ascii (scoped_frame op key token tty ttl) = true.
Proof.
  intros Ho [Hk _] Ht Hy Hl. unfold scoped_frame.
  destruct token as [t|], tty as [y|], ttl as [n|]; simpl in *; unfold push_field; simpl;
    repeat match goal with H : clean_value _ |- _ => destruct H as [H _] end;
    rewrite ?all_bytes_append; simpl; rewrite ?all_bytes_append; simpl;
    rewrite ?Ho, ?Hk, ?Ht, ?Hy, ?to_string_ascii by lia; done.
Qed.

(** The requests a scoped frame stands for. *)
Inductive scoped_request (key : string) (token tty : option string) (ttl : option Z) :
    string → Request → Prop :=
| scoped_get : scoped_request key token tty ttl "GET" (Get key token tty ttl)
| scoped_grant : scoped_request key token tty ttl "REQUEST" (RequestGrant key token tty ttl).

(** The broker parses the frame the [secrets] client builds to exactly
    the request the client meant, for any key, token, terminal and lifetime
    that are ASCII text without tabs and fit one frame. *)
Lemma scoped_frame_roundtrip op key token tty ttl request :
  scoped_request key token tty ttl op request →
  clean_value key → clean_opt token → clean_opt tty → valid_ttl ttl →
  (slen (scoped_frame op key token tty ttl) <= MAX_FRAME_BYTES)%Z →
  parse_request (scoped_frame op key token tty ttl) = Ok request.
Proof.
  intros Hop Hk Ht Hy Hl Hlen.
  assert (all_bytes is_ascii (scoped_frame op key token tty ttl) = true) as Ha.
  { apply scoped_frame_ascii; try done. by destruct Hop. }
  rewrite scoped_frame_render in *.
  rewrite parse_request_render; try done;
    [|by destruct Hop|by destruct Hop|by apply scoped_fields_clean|apply scoped_fields_NoDup].
  assert (ttl_field (scoped_fields key token tty ttl) "ttl" = Ok ttl) as Httl.
  { unfold scoped_fields. rewrite app_assoc, app_comm_cons. apply ttl_field_opt; [done|].
    destruct token, tty; simpl; apply (bool_decide_unpack _); by vm_compute. }
  assert (field (scoped_fields key token tty ttl) "token" = token) as Htok.
  { by destruct token, tty, ttl. }
  assert (field (scoped_fields key token tty ttl) "tty" = tty) as Htty.
  { by destruct token, tty, ttl. }
  destruct Hop; unfold parse_op; simpl; rewrite Httl; simpl; by rewrite Htok, Htty.
Qed.

Lemma scoped_frame_roundtrip_witness :
  parse_request (scoped_frame "GET" "DEEL_API_KEY" (Some "ab12") (Some "/dev/pts/3") (Some 60%Z))
  = Ok (Get "DEEL_API_KEY" (Some "ab12") (Some "/dev/pts/3") (Some 60%Z)).
Proof.
  apply scoped_frame_roundtrip; [constructor|by split|by split|by split| |by vm_compute].
  simpl. unfold u64_max. lia.
Defined.

(** ** Responses *)
Definition line_text (c : ascii) : bool := is_ascii_graphic c || bool_decide (c = " "%char).

Lemma sanitize_id s : all_bytes line_text s = true → sanitize s = s.
Proof.
  intros H. apply map_bytes_id. revert H. apply all_bytes_impl. intros c Hc.
  apply bool_decide_eq_true_2. case_bool; [|done]. exfalso.
  repeat match goal with H : _ ∨ _ |- _ => destruct H; bool_to_prop end; subst;
    vm_compute in Hc; done.
Qed.

(** Text a message may hold: after [sanitize] it is a valid header. *)
Definition message_text (c : ascii) : bool :=
  line_text c || bool_decide (c = newline) || bool_decide (c = carriage_return)
  || bool_decide (c = tab).

Lemma sanitize_line s : all_bytes message_text s = true → all_bytes line_text (sanitize s) = true.
Proof.
  intros H. unfold sanitize. rewrite all_bytes_map. revert H. apply all_bytes_impl.
  intros c. unfold message_text.
  destruct (bool_decide (c = newline)), (bool_decide (c = carriage_return)),
    (bool_decide (c = tab)); simpl; try (intros _; by vm_compute).
  by rewrite !orb_false_r.
Qed.

Lemma line_text_header s : all_bytes line_text s = true → all_bytes header_byte s = true.
Proof.
  apply all_bytes_impl. intros c. unfold header_byte, line_text. intros ->. done.
Qed.

Lemma header_ascii s : all_bytes header_byte s = true → all_bytes is_ascii s = true.
Proof.
  apply all_bytes_impl. intros c. unfold header_byte, is_ascii, is_ascii_graphic, in_range.
  intros H. bool_to_prop. destruct H as [H|H]; bool_to_prop; [|by subst].
  destruct H as [H|H]; bool_to_prop; [|by subst]. lia.
Qed.

Lemma header_no_newline s : all_bytes header_byte s = true → contains_byte newline s = false.
Proof. by apply all_bytes_not_contains. Qed.

(** A complete response is split at the end of its header. *)
Lemma parse_response_line h payload :
  all_bytes header_byte h = true →
  parse_response (h +:+ String newline payload) =
  hd ← parse_header h;
  match hd with
  | HBytes length => payload_from_slice payload length
  | _ => if is_empty payload then finish_header hd else Err InvalidResponse
  end.
Proof.
  intros Hh. unfold parse_response. rewrite split_at_byte_append by by apply header_no_newline.
  cbn [strip_prefix]. rewrite bool_decide_eq_true_2 by done. by destruct payload.
Qed.

Lemma parse_header_text h :
  all_bytes header_byte h = true → h ≠ "" →
  parse_header h =
  if bool_decide (h = "OK") then Ok HOk else
  match strip_prefix h OK_LEN with
  | Some length =>
      if is_empty length || negb (all_bytes is_ascii_digit length) then Err InvalidResponse else
      n ← ok_or InvalidResponse (parse_unsigned u64_max length);
      if (MAX_FRAME_BYTES <? n)%Z then Err InvalidResponse else Ok (HBytes n)
  | None =>
  match strip_prefix h OK_TAB with
  | Some fields => Ok (HFields fields)
  | None =>
  match strip_prefix h ERR_TAB with
  | Some error =>
      match split_once (String tab "") error with
      | None => Err InvalidResponse
      | Some (c, _) => HError <$> ok_or InvalidResponse (parse_wire c)
      end
  | None => Err InvalidResponse
  end end end.
Proof.
  intros Hh Hne. unfold parse_header. rewrite Hh, from_utf8_ascii by by apply header_ascii.
  by destruct h.
Qed.

Lemma wire_line e : all_bytes line_text (wire e) = true ∧ contains_byte tab (wire e) = false.
Proof. destruct e; by vm_compute. Qed.

Lemma digits_line s : all_bytes is_ascii_digit s = true → all_bytes header_byte s = true.
Proof.
  apply all_bytes_impl. intros c.
  unfold is_ascii_digit, header_byte, is_ascii_graphic, in_range. intros H.
  bool_to_prop. apply orb_true_iff. left. apply orb_true_iff. left. lia.
Qed.

Lemma digits_line' n : (0 <= n)%Z → all_bytes header_byte (to_string n) = true.
Proof. intros. by apply digits_line, to_string_digits. Qed.

#[export] Hint Resolve line_text_header sanitize_line digits_line' : broker.

(** What a client must see when the broker answers [r] and then writes
    [payload]. *)
Inductive answers : Response → string → result ClientError BrokerResponse → Prop :=
| answers_ok : answers ROk "" (Ok RespOk)
| answers_fields fields :
    all_bytes line_text fields = true → starts_with fields "len=" = false →
    answers (ROkFields fields) "" (Ok (RespFields fields))
| answers_bytes payload :
    (slen payload <= MAX_FRAME_BYTES)%Z → contains_byte nul payload = false →
    answers (ROkBytes (slen payload)) payload (Ok (RespBytes payload))
| answers_failed code message :
    all_bytes message_text message = true →
    answers (RFailed code message) "" (Err (Broker code)).

Lemma strip_prefix_app_r s p q :
  strip_prefix (p +:+ s) (p +:+ q) = strip_prefix s q.
Proof.
  induction p as [|c p IH]; [done|]. rewrite !append_cons. cbn [strip_prefix].
  by rewrite bool_decide_eq_true_2.
Qed.

Lemma parse_header_fields fields :
  all_bytes header_byte fields = true → starts_with fields "len=" = false →
  parse_header (OK_TAB +:+ fields) = Ok (HFields fields).
Proof.
  intros Hf Hl. rewrite parse_header_text; [|by rewrite all_bytes_append, Hf|done].
  rewrite bool_decide_eq_false_2 by done.
  change OK_LEN with (OK_TAB +:+ "len="). rewrite strip_prefix_app_r, strip_prefix_append.
  unfold starts_with in Hl. by destruct (strip_prefix fields "len=").
Qed.

Lemma parse_header_length n :
  (0 <= n <= MAX_FRAME_BYTES)%Z → parse_header (OK_LEN +:+ to_string n) = Ok (HBytes n).
Proof.
  intros Hn. rewrite parse_header_text; [|rewrite all_bytes_append, digits_line' by lia; done|done].
  rewrite bool_decide_eq_false_2 by done. rewrite strip_prefix_append.
  rewrite to_string_not_empty, to_string_digits by lia. cbn [orb negb].
  unfold MAX_FRAME_BYTES in *.
  rewrite parse_unsigned_to_string by (unfold u64_max in *; lia). simpl.
  by destruct (Z.ltb_spec 4096 n); [lia|].
Qed.

Lemma parse_header_error code message :
  all_bytes header_byte message = true →
  parse_header (ERR_TAB +:+ wire code +:+ String tab message) = Ok (HError code).
Proof.
  intros Hm. destruct (wire_line code) as [Hw Ht]. rewrite parse_header_text.
  - rewrite bool_decide_eq_false_2 by done. simpl strip_prefix at 1. simpl strip_prefix at 1.
    rewrite strip_prefix_append, split_once_char by done.
    by rewrite parse_wire_wire.
  - rewrite !all_bytes_append. simpl. by rewrite (line_text_header _ Hw), Hm.
  - done.
Qed.

Lemma response_answers r payload answer :
  answers r payload answer → parse_response (format_response r +:+ payload) = answer.
Proof.
  intros [|fields Hf Hl|p Hp Hn|code message Hm]; unfold format_response.
  - done.
  - rewrite sanitize_id, append_nil_r, append_assoc by done.
    rewrite parse_response_line by by rewrite all_bytes_append, (line_text_header fields).
    rewrite parse_header_fields by auto with broker. done.
  - rewrite append_assoc, <-append_assoc. change (String newline "" +:+ p) with (String newline p).
    pose proof (slen_nonneg p).
    rewrite parse_response_line by by rewrite all_bytes_append, digits_line' by lia.
    rewrite parse_header_length by lia. simpl. unfold payload_from_slice.
    rewrite Hn, bool_decide_eq_true_2 by done. done.
  - rewrite append_nil_r.
    replace (ERR_TAB +:+ wire code +:+ String tab "" +:+ sanitize message +:+ String newline "")
      with ((ERR_TAB +:+ wire code +:+ String tab (sanitize message)) +:+ String newline "")
      by by rewrite <-!append_assoc.
    pose proof (line_text_header _ (sanitize_line _ Hm)) as Hs.
    destruct (wire_line code) as [Hw _]. rewrite parse_response_line.
    + by rewrite parse_header_error.
    + rewrite !all_bytes_append. simpl. by rewrite (line_text_header _ Hw), Hs.
Qed.

(** Every answer of the broker reaches the client as it was meant: a
    bare success, the fields, exactly the released bytes, or the error code. *)
Lemma response_roundtrip r payload answer :
  answers r payload answer → parse_response (format_response r +:+ payload) = answer.
Proof. apply response_answers. Qed.

Lemma response_roundtrip_witness :
  parse_response (format_response (ROkBytes (slen "s3cret")) +:+ "s3cret")
  = Ok (RespBytes "s3cret").
Proof. apply response_roundtrip. constructor; [by vm_compute|done]. Defined.

(** A payload over the frame bound does not reach the client: the broker
    prints its length and its bytes, the client refuses the length. *)
Lemma long_payload_refused payload :
  (MAX_FRAME_BYTES < slen payload <= u64_max)%Z →
  parse_response (format_response (ROkBytes (slen payload)) +:+ payload) = Err InvalidResponse.
Proof.
  intros Hn. unfold format_response, MAX_FRAME_BYTES in *.
  rewrite append_assoc, <-append_assoc. change (String newline "" +:+ payload) with (String newline payload).
  rewrite parse_response_line by by rewrite all_bytes_append, digits_line' by lia.
  rewrite parse_header_text; [|rewrite all_bytes_append, digits_line' by lia; done|done].
  rewrite bool_decide_eq_false_2 by done. rewrite strip_prefix_append.
  rewrite to_string_not_empty, to_string_digits by lia. cbn [orb negb].
  rewrite parse_unsigned_to_string by lia. simpl. unfold MAX_FRAME_BYTES.
  by destruct (Z.ltb_spec 4096 (slen payload)); [|lia].
Qed.

(** ** Replies the [forward] client accepts *)
Definition token_text (c : ascii) : bool :=
  is_ascii_graphic c && negb (bool_decide (c = "="%char)).

Lemma token_text_spec s :
  all_bytes token_text s = true →
  contains_byte " "%char s = false ∧ all_bytes is_ascii_graphic s = true.
Proof.
  intros H. split; [by eapply all_bytes_not_contains, H|].
  revert H. apply all_bytes_impl. intros c. unfold token_text. by intros [??]%andb_true_iff.
Qed.

Lemma contains_space_cons p s :
  contains_byte " "%char p = false → contains_byte " "%char s = false →
  contains_byte " "%char (p +:+ s) = false.
Proof. intros H1 H2. by rewrite contains_byte_append, H1, H2. Qed.

Lemma redeemed_reply_split cap instance epoch ttl :
  contains_byte " "%char cap = false → contains_byte " "%char instance = false →
  (0 <= epoch)%Z → (0 <= ttl)%Z →
  split " "%char (redeemed_reply cap instance epoch ttl) =
  part <$> [("status", "redeemed"); ("cap", cap); ("instance", instance);
            ("epoch", to_string epoch); ("ttl", to_string ttl)].
Proof.
  intros Hc Hi He Ht.
  replace (redeemed_reply cap instance epoch ttl) with
    ("status=redeemed" +:+ String " "%char (("cap=" +:+ cap)
      +:+ String " "%char (("instance=" +:+ instance)
      +:+ String " "%char (("epoch=" +:+ to_string epoch)
      +:+ String " "%char ("ttl=" +:+ to_string ttl)))))
    by (unfold redeemed_reply; by rewrite <-!append_assoc).
  pose proof (digits_no_space _ (to_string_digits epoch He)).
  pose proof (digits_no_space _ (to_string_digits ttl Ht)).
  rewrite !split_append by (done || by apply contains_space_cons).
  by rewrite split_clean by by apply contains_space_cons.
Qed.

Lemma expected_fields_loop_parts expected acc fields :
  Forall (λ kv, contains_byte "="%char kv.1 = false ∧ is_empty kv.1 = false
                ∧ is_empty kv.2 = false ∧ kv.1 ∈ expected) fields →
  NoDup (acc ++ fields)%list.*1 →
  expected_fields_loop expected acc (part <$> fields) = Ok (acc ++ fields)%list.
Proof.
  intros Hf. revert acc. induction Hf as [|[k v] fs (Hk & Hke & Hve & Hin) Hfs IH];
    intros acc Hn.
  - by rewrite app_nil_r.
  - rewrite fmap_cons. cbn [expected_fields_loop]. rewrite split_part by done. simpl in *.
    rewrite Hke, Hve.
    rewrite (proj2 (existsb_elem _ _)) by (exists k; split; [done|by apply bool_decide_eq_true_2]).
    rewrite (proj2 (existsb_false _ _)).
    + simpl. rewrite IH; [by rewrite <-app_assoc|]. by rewrite <-app_assoc.
    + intros kv Hkv. apply bool_decide_eq_false_2. intros <-.
      rewrite fmap_app, NoDup_app in Hn. destruct Hn as (_ & Hn & _).
      eapply Hn; [apply list_elem_of_fmap; eauto|]. simpl. constructor.
Qed.

(** What [forward] makes of the broker's success line, whatever its lifetime
    reads as. *)
Lemma redeemed_reply_reads cap instance epoch ttl socket :
  cap ≠ "" → instance ≠ "" →
  all_bytes token_text cap = true → all_bytes token_text instance = true →
  (0 <= epoch <= u64_max)%Z → (0 <= ttl)%Z →
  redeemed_cap (redeemed_reply cap instance epoch ttl) cap socket =
  (t ← ok_or (Protocol "broker redeem reply has no usable ttl")
         (t ← parse_unsigned u64_max (to_string ttl); if (0 <? t)%Z then Some t else None);
   Ok {| rg_authority := {| bi_instance := instance; bi_epoch := epoch; bi_socket := socket |};
         rg_ttl_secs := t |}).
Proof.
  intros Hcne Hine Hc Hi He Ht.
  destruct (token_text_spec _ Hc) as [Hcs _], (token_text_spec _ Hi) as [His Hig].
  unfold redeemed_cap, expected_fields. rewrite redeemed_reply_split by (done || lia).
  rewrite expected_fields_loop_parts.
  - simpl. rewrite (bool_decide_eq_true_2 (cap = cap)) by done.
    assert (valid_field instance = true) as ->.
    { unfold valid_field, any_byte. rewrite negb_involutive.
      rewrite (all_bytes_impl is_ascii_graphic is_ascii),
        (all_bytes_impl is_ascii_graphic (λ c, negb (is_ascii_control c))); try done.
      - by destruct instance.
      - intros c. unfold is_ascii_graphic, is_ascii_control, in_range. lia.
      - intros c. unfold is_ascii_graphic, is_ascii, in_range. lia. }
    simpl. by rewrite (parse_unsigned_to_string u64_max epoch) by lia.
  - repeat constructor; simpl; try done;
      try (rewrite list_elem_of_In; simpl; tauto); auto with broker;
      by destruct cap, instance.
  - simpl. apply (bool_decide_unpack _). by vm_compute.
Qed.

(** Redemption agrees at both ends: [forward] recovers from the broker's
    success line the capability it asked for, the broker's instance and epoch,
    and the lifetime, and it refuses a zero lifetime. *)
Lemma redeemed_reply_roundtrip cap instance epoch ttl socket :
  cap ≠ "" → instance ≠ "" →
  all_bytes token_text cap = true → all_bytes token_text instance = true →
  (0 <= epoch <= u64_max)%Z → (0 <= ttl <= u64_max)%Z →
  redeemed_cap (redeemed_reply cap instance epoch ttl) cap socket =
  if (0 <? ttl)%Z
  then Ok {| rg_authority := {| bi_instance := instance; bi_epoch := epoch; bi_socket := socket |};
             rg_ttl_secs := ttl |}
  else Err (Protocol "broker redeem reply has no usable ttl").
Proof.
  intros Hcne Hine Hc Hi He Ht. rewrite redeemed_reply_reads by (done || lia).
  rewrite parse_unsigned_to_string by lia. simpl. by destruct (0 <? ttl)%Z.
Qed.

Lemma redeemed_reply_roundtrip_witness :
  redeemed_cap (redeemed_reply "browser" "00ff" 3 1800) "browser" {| si_device := 50; si_inode := 283 |}
  = Ok {| rg_authority := {| bi_instance := "00ff"; bi_epoch := 3;
                             bi_socket := {| si_device := 50; si_inode := 283 |} |};
          rg_ttl_secs := 1800 |}.
Proof.
  rewrite redeemed_reply_roundtrip; [done|done|done|by vm_compute|by vm_compute| |];
    unfold u64_max; lia.
Defined.
