(* ===== verification/Secret.v ===== *)
(** Names, values and credentials.

    Secret key names and human-tier file names ([crates/secrets/src/secret.rs]),
    capability names ([capability.rs]), session tokens
    ([grants/token.rs]) and the hex codec ([crates/hygiene/src/hex.rs]).

    [SecretName] and [Capability] values exist only as the result of their
    parsers, so both are strings here and [secret_name_ok] and
    [capability_ok] are the invariants the parsers establish. *)

From stdpp Require Import prelude strings list.
From Stdlib Require Import ZArith Lia Ascii.
From S2P Require Import Prelude Text Wire.

Local Open Scope string_scope.

(** * Secret names *)
Definition MAX_NAME_LEN : Z := 128.

Definition name_first (c : ascii) : bool := is_ascii_alphabetic c || bool_decide (c = "_"%char).
Definition name_rest (c : ascii) : bool := is_ascii_alphanumeric c || bool_decide (c = "_"%char).

Definition secret_name_parse (raw : string) : result ErrCode string :=
  if is_empty raw || (MAX_NAME_LEN <? slen raw)%Z then Err BadRequest else
  match raw with
  | EmptyString => Err BadRequest
  | String first characters =>
      if negb (name_first first) then Err BadRequest else
      if negb (all_bytes name_rest characters) then Err BadRequest else
      Ok raw
  end.

Definition file_name (name : string) : string := name +:+ ".env".
Definition local_file_name (name : string) : string := name +:+ ".local.env".

Inductive HumanFileName : Type :=
| Ignored
| Key (name : string) (local : bool)
| Invalid.

Definition parse_human_file_name (fname : string) : HumanFileName :=
  match strip_suffix fname ".env" with
  | None => Ignored
  | Some stem =>
      let '(raw_name, local) :=
        match strip_suffix stem ".local" with
        | Some raw_name => (raw_name, true)
        | None => (stem, false)
        end in
      match secret_name_parse raw_name with
      | Ok name => Key name local
      | Err _ => Invalid
      end
  end.

(** * Extracting the value from decrypted dotenv text *)
Fixpoint assignment_lines (expected : string) (found : option string) (lines : list string) :
    result ErrCode string :=
  match lines with
  | [] => ok_or Internal found
  | raw :: rest =>
      let line := default raw (strip_suffix raw (String carriage_return "")) in
      if is_empty line || starts_with line "#" then assignment_lines expected found rest else
      '(name, tail) ← ok_or Internal (split_at_byte "="%char line);
      value ← ok_or Internal (match tail with String _ v => Some v | EmptyString => None end);
      if negb (bool_decide (name = expected)) || is_some found || contains_byte nul value
      then Err Internal
      else assignment_lines expected (Some value) rest
  end.

Definition parse_single_assignment (plaintext expected : string) : result ErrCode string :=
  assignment_lines expected None (split newline plaintext).

(** * Capabilities *)
Definition CAPABILITY_KEY_PREFIX : string := "CAP_".
Definition MAX_CAPABILITY_LEN : Z := 32.

Definition capability_byte (c : ascii) : bool :=
  is_ascii_lowercase c || is_ascii_digit c || bool_decide (c = "_"%char).

Definition capability_parse (raw : string) : result ErrCode string :=
  if is_empty raw || (MAX_CAPABILITY_LEN <? slen raw)%Z then Err BadRequest else
  let first_is_letter := match raw with String c _ => is_ascii_lowercase c | _ => false end in
  if negb first_is_letter || negb (all_bytes capability_byte raw) then Err BadRequest
  else Ok raw.

Definition key_name (cap : string) : string :=
  CAPABILITY_KEY_PREFIX +:+ map_bytes to_ascii_uppercase cap.

Definition is_capability_key (key : string) : bool := starts_with key CAPABILITY_KEY_PREFIX.

(** * Hex *)
Definition HEX_DIGITS : string := "0123456789abcdef".

Definition hex_digit (n : Z) : ascii :=
  match String.get (Z.to_nat n) HEX_DIGITS with Some c => c | None => "?"%char end.

(** [hex::encode] of a byte sequence. *)
Fixpoint encode (bytes : string) : string :=
  match bytes with
  | EmptyString => EmptyString
  | String b rest =>
      String (hex_digit (Z.shiftr (code b) 4))
        (String (hex_digit (Z.land (code b) 15)) (encode rest))
  end.

(** Reading consecutive pairs with [u8::from_str_radix(pair, 16)], the loop
    shared by [decode_exact] and [SessionToken::parse_hex].  A pair that
    is not UTF-8 text or not a number ends it. *)
Fixpoint read_pairs (s : string) : option string :=
  match s with
  | String a (String b rest) =>
      text ← from_utf8 (String a (String b ""));
      v ← from_str_radix 16 u8_max text;
      out ← read_pairs rest;
      Some (String (char_of v) out)
  | _ => Some EmptyString
  end.

(** [hex::decode_exact]. *)
Definition decode_exact (raw : string) (expected_len : Z) : option string :=
  if negb (slen raw =? expected_len * 2)%Z || negb (all_bytes is_ascii_hexdigit raw) then None
  else read_pairs raw.

(** * Session tokens *)
Definition TOKEN_LEN : Z := 32.

(** [SessionToken::parse_hex]: [text.get(start..end)] fails when a pair
    would split a character, which is what the UTF-8 check of the pair
    says: in a valid string, two consecutive bytes at a pair boundary form
    text exactly when both cut points are character boundaries. *)
Definition parse_hex (text : string) : result ErrCode string :=
  if negb (slen text =? TOKEN_LEN * 2)%Z then Err BadRequest
  else ok_or BadRequest (read_pairs text).

(** * Byte classes

    A property of a class of bytes is checked on all 256 of them. *)
Definition all_ascii : list ascii := (λ n : nat, char_of (Z.of_nat n)) <$> seq 0 256.

Lemma elem_of_all_ascii c : c ∈ all_ascii.
Proof.
  apply list_elem_of_fmap. exists (nat_of_ascii c). split.
  - unfold char_of, nat_of_ascii. rewrite N_nat_Z, N2Z.id. symmetry. apply ascii_N_embedding.
  - apply elem_of_seq. pose proof (nat_ascii_bounded c). lia.
Qed.

Lemma byte_check (p : ascii → bool) : forallb p all_ascii = true → ∀ c, p c = true.
Proof. intros H c. eapply forallb_elem in H; [done|apply elem_of_all_ascii]. Qed.

Lemma byte_impl (p q : ascii → bool) :
  forallb (λ c, negb (p c) || q c) all_ascii = true → ∀ c, p c = true → q c = true.
Proof.
  intros H c Hp. pose proof (byte_check _ H c) as Hc. simpl in Hc. by rewrite Hp in Hc.
Qed.

Lemma char_of_code c : char_of (code c) = c.
Proof. unfold char_of, code. rewrite N2Z.id. apply ascii_N_embedding. Qed.

Lemma code_range c : (0 <= code c < 256)%Z.
Proof. unfold code. pose proof (N_ascii_bounded c). lia. Qed.

(** * Secret names *)
Definition secret_name_ok (n : string) : Prop := secret_name_parse n = Ok n.

Lemma secret_name_parse_Ok raw n :
  secret_name_parse raw = Ok n →
  n = raw ∧ is_empty raw = false ∧ (slen raw <= MAX_NAME_LEN)%Z ∧ all_bytes name_rest raw = true.
Proof.
  unfold secret_name_parse. case_bool; [done|]. destruct raw as [|c s]; [done|].
  repeat case_bool; try done. intros [= <-]. split_and!; [done|done|done|]. simpl.
  apply andb_true_iff. split; [|done]. revert Hb. apply byte_impl. by vm_compute.
Qed.

Lemma secret_name_ok_bytes n : secret_name_ok n → all_bytes name_rest n = true.
Proof. intros H. by apply secret_name_parse_Ok in H as (_ & _ & _ & ?). Qed.

Lemma secret_name_no_dot n : secret_name_ok n → contains_byte "."%char n = false.
Proof. intros H%secret_name_ok_bytes. by eapply all_bytes_not_contains, H. Qed.

Lemma strip_suffix_None_dot n suffix :
  contains_byte "."%char n = false → contains_byte "."%char suffix = true →
  strip_suffix n suffix = None.
Proof.
  intros Hn Hs. destruct (strip_suffix n suffix) as [r|] eqn:E; [|done].
  apply strip_suffix_Some in E as ->. rewrite contains_byte_append, Hs in Hn.
  by rewrite orb_true_r in Hn.
Qed.

(** File names and keys correspond one to one: a directory entry classifies
    as the key [n] exactly when it is the committed or the machine-local file
    name of that valid name. *)
Lemma parse_human_file_name_spec fname n local :
  parse_human_file_name fname = Key n local ↔
  secret_name_ok n ∧ fname = (if local then local_file_name n else file_name n).
Proof.
  unfold parse_human_file_name. split.
  - destruct (strip_suffix fname ".env") as [stem|] eqn:E1; [|done].
    apply strip_suffix_Some in E1 as ->.
    destruct (strip_suffix stem ".local") as [raw|] eqn:E2.
    + apply strip_suffix_Some in E2 as ->.
      destruct (secret_name_parse raw) as [m|] eqn:E; [|done]. intros [= <- <-].
      pose proof (secret_name_parse_Ok _ _ E) as (-> & _). split; [done|].
      unfold local_file_name. by rewrite <-append_assoc.
    + destruct (secret_name_parse stem) as [m|] eqn:E; [|done]. intros [= <- <-].
      by pose proof (secret_name_parse_Ok _ _ E) as (-> & _).
  - intros [Hn ->]. pose proof (secret_name_no_dot n Hn). destruct local.
    + unfold local_file_name. change ".local.env" with (".local" +:+ ".env").
      rewrite append_assoc, !strip_suffix_append. by rewrite Hn.
    + unfold file_name. rewrite strip_suffix_append, strip_suffix_None_dot by done.
      by rewrite Hn.
Qed.

(** * The anti-swap check *)

(** A line the dotenv reader skips, and the line it reads. *)
Definition dotenv_line (raw : string) : string :=
  default raw (strip_suffix raw (String carriage_return "")).

Definition skipped (raw : string) : Prop :=
  is_empty (dotenv_line raw) || starts_with (dotenv_line raw) "#" = true.

Lemma assignment_lines_skip expected found l1 l2 :
  Forall skipped l1 →
  assignment_lines expected found (l1 ++ l2)%list = assignment_lines expected found l2.
Proof.
  induction 1 as [|raw l1 H _ IH]; [done|]. simpl. unfold skipped, dotenv_line in H.
  by rewrite H.
Qed.

Lemma assignment_lines_found expected v lines w :
  assignment_lines expected (Some v) lines = Ok w ↔ w = v ∧ Forall skipped lines.
Proof.
  induction lines as [|raw lines IH]; simpl.
  - split; [intros [= <-]; done|]. by intros [-> _].
  - rewrite Forall_cons. unfold skipped at 1, dotenv_line.
    destruct (is_empty _ || starts_with _ "#") eqn:E; [naive_solver|].
    split; [|naive_solver].
    destruct (split_at_byte "="%char _) as [[name tail]|]; simpl; [|done].
    destruct tail as [|c value]; simpl; [done|].
    by rewrite orb_true_r.
Qed.

Lemma name_not_comment n v :
  secret_name_ok n → is_empty (n +:+ v) || starts_with (n +:+ v) "#" = false.
Proof.
  intros H%secret_name_parse_Ok. destruct H as (_ & Hne & _ & Hb).
  destruct n as [|c n]; [done|]. rewrite append_cons. simpl.
  unfold starts_with. simpl. rewrite bool_decide_eq_false_2; [done|].
  intros <-. by vm_compute in Hb.
Qed.

(** The value of a decrypted file is released only when the plaintext
    holds one single assignment, to exactly the expected key and without a NUL
    byte; every other line is blank or a comment.  This is the check that
    stops swapped ciphertext from answering for another key. *)
Lemma parse_single_assignment_spec plaintext expected v :
  secret_name_ok expected →
  parse_single_assignment plaintext expected = Ok v ↔
  ∃ l1 raw l2, split newline plaintext = (l1 ++ raw :: l2)%list ∧
    Forall skipped l1 ∧ Forall skipped l2 ∧
    dotenv_line raw = expected +:+ "=" +:+ v ∧ contains_byte nul v = false.
Proof.
  intros Hn. assert (contains_byte "="%char expected = false) as Heq.
  { eapply all_bytes_not_contains; [|by apply secret_name_ok_bytes]. done. }
  unfold parse_single_assignment. generalize (split newline plaintext) as lines. intros lines.
  split.
  - induction lines as [|raw lines IH]; simpl; [done|]. fold (dotenv_line raw).
    destruct (is_empty (dotenv_line raw) || starts_with (dotenv_line raw) "#") eqn:Es.
    { intros H. destruct (IH H) as (l1 & r & l2 & -> & ? & ? & ? & ?).
      exists (raw :: l1), r, l2. split_and!; [done|by constructor|done|done|done]. }
    destruct (split_at_byte "="%char (dotenv_line raw)) as [[name tail]|] eqn:Ea; simpl; [|done].
    destruct tail as [|c value]; simpl; [done|].
    apply split_at_byte_Some in Ea as (b' & [= -> ->] & Hl & _).
    case_bool; [done|].
    intros [-> Hs]%assignment_lines_found. exists [], raw, lines.
    split_and!; [done|constructor|done| |done]. rewrite Hl. by subst.
  - intros (l1 & raw & l2 & -> & H1 & H2 & Hl & Hnul).
    rewrite assignment_lines_skip by done. cbn [assignment_lines]. fold (dotenv_line raw).
    rewrite Hl, name_not_comment by done. change ("=" +:+ v) with (String "="%char v).
    rewrite split_at_byte_append by done. simpl.
    rewrite Hnul, bool_decide_eq_true_2 by done. simpl. by apply assignment_lines_found.
Qed.

Lemma parse_single_assignment_spec_witness :
  parse_single_assignment ("# note" +:+ String newline "KEY=v1") "KEY" = Ok "v1".
Proof.
  apply parse_single_assignment_spec; [done|].
  exists ["# note"], "KEY=v1", []. split_and!; [done|by repeat constructor|constructor|done|done].
Defined.

(** * Capabilities *)
Definition capability_ok (c : string) : Prop := capability_parse c = Ok c.

Lemma capability_parse_Ok raw c :
  capability_parse raw = Ok c →
  c = raw ∧ is_empty raw = false ∧ (slen raw <= MAX_CAPABILITY_LEN)%Z
  ∧ all_bytes capability_byte raw = true.
Proof.
  unfold capability_parse. repeat case_bool; try done. intros [= <-]. done.
Qed.

Lemma map_bytes_length f s : String.length (map_bytes f s) = String.length s.
Proof. induction s as [|c s IH]; simpl; congruence. Qed.

Lemma map_bytes_inj (p : ascii → bool) f s t :
  (∀ c d, p c = true → p d = true → f c = f d → c = d) →
  all_bytes p s = true → all_bytes p t = true →
  map_bytes f s = map_bytes f t → s = t.
Proof.
  intros Hf. revert t. induction s as [|c s IH]; intros [|d t]; simpl; try done.
  intros [Hc Hs]%andb_true_iff [Hd Ht]%andb_true_iff [= Hcd Hst].
  f_equal; [by apply Hf|by apply IH].
Qed.

Lemma uppercase_lowercase c :
  capability_byte c = true → to_ascii_lowercase (to_ascii_uppercase c) = c.
Proof.
  set (q := λ c, bool_decide (to_ascii_lowercase (to_ascii_uppercase c) = c)).
  intros H. assert (q c = true) as Hq.
  { revert H. apply byte_impl. by vm_compute. }
  unfold q in Hq. by bool_to_prop.
Qed.

Lemma uppercase_inj c d :
  capability_byte c = true → capability_byte d = true →
  to_ascii_uppercase c = to_ascii_uppercase d → c = d.
Proof.
  intros Hc Hd Heq. rewrite <-(uppercase_lowercase c), <-(uppercase_lowercase d) by done.
  by rewrite Heq.
Qed.

(** Capabilities embed into the human-tier key namespace without
    collisions: the derived key is a valid secret name under the reserved
    prefix, and two different capabilities never share a key. *)
Lemma capability_key_embedding cap1 cap2 :
  capability_ok cap1 → capability_ok cap2 →
  secret_name_ok (key_name cap1) ∧ is_capability_key (key_name cap1) = true ∧
  (key_name cap1 = key_name cap2 → cap1 = cap2).
Proof.
  intros H1%capability_parse_Ok H2%capability_parse_Ok.
  destruct H1 as (_ & _ & Hl1 & Hb1), H2 as (_ & _ & _ & Hb2). split_and!.
  - unfold secret_name_ok, key_name, secret_name_parse, CAPABILITY_KEY_PREFIX.
    change ("CAP_" +:+ ?x) with (String "C" (String "A" (String "P" (String "_" x)))).
    cbn [is_empty orb].
    destruct (Z.ltb_spec MAX_NAME_LEN
      (slen (String "C" (String "A" (String "P" (String "_" (map_bytes to_ascii_uppercase cap1)))))))
      as [H|_].
    { rewrite !slen_cons in H. unfold slen in *. rewrite map_bytes_length in H.
      unfold MAX_NAME_LEN, MAX_CAPABILITY_LEN in *. lia. }
    simpl. replace (all_bytes name_rest (map_bytes to_ascii_uppercase cap1)) with true; [done|].
    symmetry. rewrite all_bytes_map. revert Hb1. apply all_bytes_impl, byte_impl. by vm_compute.
  - unfold is_capability_key, starts_with, key_name. by rewrite strip_prefix_append.
  - unfold key_name. intros Heq%append_inj_l.
    eapply map_bytes_inj; [apply uppercase_inj|done|done|done].
Qed.

Lemma capability_key_embedding_witness :
  secret_name_ok (key_name "browser") ∧ is_capability_key (key_name "browser") = true ∧
  (key_name "browser" = key_name "admin" → "browser" = "admin").
Proof. by apply capability_key_embedding. Defined.

(** * Hex *)
Lemma hex_pair c :
  from_utf8 (String (hex_digit (Z.shiftr (code c) 4))
              (String (hex_digit (Z.land (code c) 15)) "")) =
    Some (String (hex_digit (Z.shiftr (code c) 4))
           (String (hex_digit (Z.land (code c) 15)) "")) ∧
  from_str_radix 16 u8_max (String (hex_digit (Z.shiftr (code c) 4))
                             (String (hex_digit (Z.land (code c) 15)) "")) = Some (code c) ∧
  is_ascii_hexdigit (hex_digit (Z.shiftr (code c) 4)) = true ∧
  is_ascii_hexdigit (hex_digit (Z.land (code c) 15)) = true.
Proof.
  pose (p := λ c, let h := hex_digit (Z.shiftr (code c) 4) in
                  let l := hex_digit (Z.land (code c) 15) in
    bool_decide (from_utf8 (String h (String l "")) = Some (String h (String l "")))
    && bool_decide (from_str_radix 16 u8_max (String h (String l "")) = Some (code c))
    && is_ascii_hexdigit h && is_ascii_hexdigit l).
  assert (p c = true) as H by (apply byte_check; by vm_compute).
  unfold p in H. bool_to_prop. done.
Qed.

Lemma encode_hexdigits bytes : all_bytes is_ascii_hexdigit (encode bytes) = true.
Proof.
  induction bytes as [|c s IH]; [done|]. cbn [encode all_bytes].
  destruct (hex_pair c) as (_ & _ & -> & ->). by rewrite IH.
Qed.

Lemma encode_length bytes : slen (encode bytes) = (2 * slen bytes)%Z.
Proof. induction bytes as [|c s IH]; [done|]. cbn [encode]. rewrite !slen_cons, IH. lia. Qed.

Lemma read_pairs_encode bytes : read_pairs (encode bytes) = Some bytes.
Proof.
  induction bytes as [|c s IH]; [done|]. cbn [encode read_pairs].
  destruct (hex_pair c) as (-> & H & _ & _). cbn [mbind option_bind].
  rewrite H. cbn [mbind option_bind]. rewrite IH. cbn [mbind option_bind].
  by rewrite char_of_code.
Qed.

Lemma decode_exact_encode bytes : decode_exact (encode bytes) (slen bytes) = Some bytes.
Proof.
  unfold decode_exact. rewrite encode_length, encode_hexdigits, read_pairs_encode.
  by destruct (Z.eqb_spec (2 * slen bytes) (slen bytes * 2)); [|lia].
Qed.

(** Hex credentials round trip: what [encode] prints, [decode_exact]
    reads back at exactly that length and at no other. *)
Lemma hex_roundtrip bytes n :
  decode_exact (encode bytes) n = if (n =? slen bytes)%Z then Some bytes else None.
Proof.
  unfold decode_exact. rewrite encode_length, encode_hexdigits, read_pairs_encode.
  destruct (Z.eqb_spec (2 * slen bytes) (n * 2)), (Z.eqb_spec n (slen bytes)); simpl; done || lia.
Qed.

Lemma parse_hex_encode token :
  slen token = TOKEN_LEN → parse_hex (encode token) = Ok token.
Proof.
  intros H. unfold parse_hex. rewrite encode_length, H, read_pairs_encode. done.
Qed.

(** [SessionToken::parse_hex] also accepts pairs such as [+7], which are
    not hex digits, because [u8::from_str_radix] allows a leading plus; the
    other decoder, [decode_exact], refuses the same text. *)
Lemma parse_hex_accepts_signs :
  ∃ text token, parse_hex text = Ok token ∧ all_bytes is_ascii_hexdigit text = false ∧
                decode_exact text TOKEN_LEN = None.
Proof.
  exists ("+7" +:+ "00000000000000000000000000000000000000000000000000000000000000").
  eexists. split; [by vm_compute|]. split; by vm_compute.
Qed.
