(* ===== verification/Containment.v ===== *)
(** Process containment: [crates/containment].

    The bounded parent walk shared by both binaries, the pidfd-pinned peer
    the broker authorizes ([pinned.rs]) and the pid-and-start-time anchor a
    browser grant records ([anchored.rs]).

    What the kernel reports is a parameter: [kernel] gives the text of a
    pidfd's [fdinfo] and of [/proc/<pid>/stat].  Only the text after the last
    parenthesis of a [stat] line and the [fdinfo] of our own descriptors are
    read, which the kernel writes in ASCII, so white space is ASCII white
    space here. *)

From stdpp Require Import prelude strings list.
From Stdlib Require Import ZArith Lia Ascii.
From S2P Require Import Prelude Text.

Local Open Scope string_scope.

(** * The walk *)
Inductive Step : Type :=
| Match
| Continue (parent : Z)
| Stop.

Fixpoint walk_from (visit : Z → Step) (visited : list Z) (hops : nat) (current : Z) : bool :=
  match hops with
  | O => false
  | S hops' =>
      if existsb (Z.eqb current) visited then false else
      match visit current with
      | Match => true
      | Stop => false
      | Continue parent => walk_from visit (visited ++ [current])%list hops' parent
      end
  end.

Definition walk (start : Z) (max_hops : nat) (visit : Z → Step) : bool :=
  walk_from visit [] max_hops start.

(** * Reading kernel text *)
Definition is_whitespace (c : ascii) : bool := bool_decide (c = " "%char) || in_range 9 13 c.

Fixpoint trim_start (s : string) : string :=
  match s with
  | String c s' => if is_whitespace c then trim_start s' else s
  | EmptyString => EmptyString
  end.

Fixpoint trim_end (s : string) : string :=
  match s with
  | String c s' =>
      let t := trim_end s' in
      if is_whitespace c && is_empty t then EmptyString else String c t
  | EmptyString => EmptyString
  end.

Definition trim (s : string) : string := trim_end (trim_start s).

(** [str::lines]: a final empty piece is not a line, and a carriage return
    before the newline is dropped. *)
Fixpoint drop_last_empty (l : list string) : list string :=
  match l with
  | [] => []
  | [w] => if is_empty w then [] else [w]
  | w :: ws => w :: drop_last_empty ws
  end.

Definition lines (s : string) : list string :=
  (λ w, default w (strip_suffix w (String carriage_return "")))
    <$> drop_last_empty (split newline s).

Fixpoint find_map {A B} (f : A → option B) (l : list A) : option B :=
  match l with
  | [] => None
  | x :: l' => match f x with Some y => Some y | None => find_map f l' end
  end.

Definition status_field (contents key : string) : option Z :=
  rest ← find_map (λ line, strip_prefix line key) (lines contents);
  parse_i32 (trim rest).

(** [str::split_whitespace]. *)
Fixpoint words_from (word : string) (s : string) : list string :=
  match s with
  | EmptyString => if is_empty word then [] else [word]
  | String c s' =>
      if is_whitespace c then
        if is_empty word then words_from EmptyString s'
        else word :: words_from EmptyString s'
      else words_from (word +:+ String c "") s'
  end.

Definition split_whitespace (s : string) : list string := words_from EmptyString s.

(** [stat_fields]: from two bytes after the last closing parenthesis;
    [stat.get(begin..)] fails past the end. *)
Definition stat_fields (stat : string) : option string :=
  '(_, rest) ← rsplit_once ")"%char stat;
  match rest with
  | String _ fields => Some fields
  | EmptyString => None
  end.

(** * What the kernel shows *)
Record kernel : Type := {
  fdinfo : Z → option string;
  proc_stat : Z → option string;
}.

(** * Pinned peers

    A [PinnedPeer] is its pidfd: clones share it. *)
Module Pinned.

Definition MAX_ANCESTRY_DEPTH : nat := 64.

Definition PinnedPeer : Type := Z.

Definition pid (k : kernel) (peer : PinnedPeer) : option Z :=
  info ← fdinfo k peer;
  value ← status_field info "Pid:";
  if (0 <? value)%Z then Some value else None.

Definition is_alive (k : kernel) (peer : PinnedPeer) : bool := is_some (pid k peer).

Definition parent_of (k : kernel) (p : Z) : option Z :=
  stat ← proc_stat k p;
  fields ← stat_fields stat;
  word ← split_whitespace fields !! 1;
  parse_i32 word.

(** The closure [descends_from_pid] hands to the walk. *)
Definition visit (k : kernel) (ancestor current : Z) : Step :=
  if negb (current <=? i32_max)%Z then Stop else
  if (current =? ancestor)%Z then Match else
  if (current <=? 1)%Z then Stop else
  match parent_of k current with
  | Some parent => if (0 <=? parent)%Z then Continue parent else Stop
  | None => Stop
  end.

Definition descends_from_pid (k : kernel) (caller ancestor : Z) : bool :=
  if (caller <? 0)%Z then false
  else walk caller MAX_ANCESTRY_DEPTH (visit k ancestor).

Definition descends_from (k : kernel) (peer root : PinnedPeer) : bool :=
  match pid k peer, pid k root with
  | Some caller, Some ancestor => descends_from_pid k caller ancestor
  | _, _ => false
  end.

End Pinned.

(** * Anchored peers *)
Module Anchored.

Definition MAX_ANCESTRY_HOPS : nat := 12.

Record Process : Type := {
  argv : list string;
  parent : Z;
  start : Z;
}.

Record AnchoredPeer : Type := {
  ap_pid : Z;
  ap_start : Z;
}.

#[global] Instance AnchoredPeer_eq_dec : EqDecision AnchoredPeer.
Proof. solve_decision. Defined.

Definition contains_visit (lookup : Z → option Process) (self : AnchoredPeer) (current : Z) : Step :=
  match lookup current with
  | None => Stop
  | Some process =>
      if (current =? ap_pid self)%Z then
        if (start process =? ap_start self)%Z then Match else Stop
      else if (parent process <=? 1)%Z then Stop
      else Continue (parent process)
  end.

Definition contains_with (lookup : Z → option Process) (self : AnchoredPeer) (pid : Z) : bool :=
  walk pid MAX_ANCESTRY_HOPS (contains_visit lookup self).

(** [is_session_id]: five groups of hex digits of widths 8, 4, 4, 4, 12. *)
Fixpoint session_groups (widths : list Z) (parts : list string) : bool :=
  match widths, parts with
  | [], [] => true
  | w :: widths', p :: parts' =>
      (slen p =? w)%Z && all_bytes is_ascii_hexdigit p && session_groups widths' parts'
  | _, _ => false
  end.

Definition is_session_id (value : string) : bool :=
  session_groups [8; 4; 4; 4; 12]%Z (split "-"%char value).

(** The scan of [session_of]: the argument after the first [--resume]. *)
Fixpoint resume_value (arguments : list string) : option string :=
  match arguments with
  | [] => None
  | argument :: rest =>
      if bool_decide (argument = "--resume") then
        value ← head rest; if is_session_id value then Some value else None
      else resume_value rest
  end.

Definition session_of (process : Process) : option string :=
  command ← head (argv process);
  if negb (bool_decide (command = "omp")) && negb (ends_with command "/omp") then None
  else resume_value (argv process).

Fixpoint anchor_loop (lookup : Z → option Process) (is_omp : Z → bool) (first : Z)
    (hops : nat) (current : Z) (fallback : option AnchoredPeer) : option AnchoredPeer :=
  match hops with
  | O => fallback
  | S hops' =>
      match lookup current with
      | None => fallback
      | Some process =>
          let here := {| ap_pid := current; ap_start := start process |} in
          let fallback := if (current =? first)%Z then Some here else fallback in
          if is_some (session_of process) && is_omp current then Some here else
          if (parent process <=? 1)%Z || (parent process =? current)%Z then fallback
          else anchor_loop lookup is_omp first hops' (parent process) fallback
      end
  end.

Definition anchor_for_with (lookup : Z → option Process) (is_omp : Z → bool) (pid : Z) :
    option AnchoredPeer :=
  process ← lookup pid;
  if (parent process <=? 1)%Z || (parent process =? pid)%Z then None
  else anchor_loop lookup is_omp (parent process) MAX_ANCESTRY_HOPS (parent process) None.

Fixpoint label_loop (lookup : Z → option Process) (is_omp : Z → bool) (hops : nat)
    (current : Z) : option string :=
  match hops with
  | O => None
  | S hops' =>
      process ← lookup current;
      match session_of process with
      | Some session => if is_omp current then Some session else None
      | None =>
          if (parent process <=? 1)%Z || (parent process =? current)%Z then None
          else label_loop lookup is_omp hops' (parent process)
      end
  end.

Definition session_label_with (lookup : Z → option Process) (is_omp : Z → bool) (pid : Z) :
    option string := label_loop lookup is_omp MAX_ANCESTRY_HOPS pid.

(** [read_process] out of [/proc]; [cmdline] gives the raw command line.
    [from_utf8_lossy] only affects text that is never compared equal, so
    arguments are kept as bytes. *)
Definition read_process (k : kernel) (cmdline : Z → option string) (pid : Z) : option Process :=
  raw ← cmdline pid;
  let argv := retain (λ part, negb (is_empty part)) (split nul raw) in
  stat ← proc_stat k pid;
  tail ← stat_fields stat;
  parent_word ← split_whitespace tail !! 1;
  parent ← parse_unsigned u32_max parent_word;
  started_word ← split_whitespace tail !! 19;
  started ← parse_unsigned u64_max started_word;
  Some {| argv := argv; parent := parent; start := started |}.

End Anchored.

(** * User identity *)
Definition OVERFLOW_UID : Z := 65534.

Definition same_user (peer_uid own_uid : Z) : bool :=
  (peer_uid =? own_uid)%Z || (peer_uid =? OVERFLOW_UID)%Z.

(** * Properties of the walk *)

(** [climbs visit n p]: starting at [p], the [n]-th process visited is the
    one sought, and every earlier one only names its parent. *)
Inductive climbs (visit : Z → Step) : nat → Z → Prop :=
| climbs_here p : visit p = Match → climbs visit 1 p
| climbs_up n p q : visit p = Continue q → climbs visit n q → climbs visit (S n) p.

Lemma climbs_unique visit n m p : climbs visit n p → climbs visit m p → n = m.
Proof.
  intros H. revert m. induction H as [p H|n p q H Hq IH]; intros m Hm; inversion Hm; subst;
    congruence || (f_equal; apply IH; congruence).
Qed.

Lemma walk_from_sound visit visited hops p :
  walk_from visit visited hops p = true → ∃ n, (n <= hops)%nat ∧ climbs visit n p.
Proof.
  revert visited p. induction hops as [|hops IH]; intros visited p; simpl; [done|].
  destruct (existsb _ visited); [done|]. destruct (visit p) as [|q|] eqn:E; [| |done].
  - intros _. exists 1. split; [lia|by constructor].
  - intros H. destruct (IH _ _ H) as (n & Hn & Hc). exists (S n).
    split; [lia|by econstructor].
Qed.

(** The visited set never stops a climb that succeeds: the processes seen
    so far are farther from the target than the current one. *)
Lemma walk_from_complete visit visited hops n p :
  climbs visit n p → (n <= hops)%nat →
  (∀ v, v ∈ visited → ∃ m, (n < m)%nat ∧ climbs visit m v) →
  walk_from visit visited hops p = true.
Proof.
  intros H. revert visited hops. induction H as [p H|n p q H Hq IH]; intros visited hops Hn Hv;
    (destruct hops as [|hops]; [lia|]); simpl;
    (destruct (existsb (Z.eqb p) visited) eqn:Hb;
     [apply existsb_elem in Hb as (v & Hin & Heq); bool_to_prop; subst;
      destruct (Hv _ Hin) as (m & Hm & Hc)|]).
  - pose proof (climbs_unique _ _ _ _ Hc (climbs_here _ _ H)). lia.
  - by rewrite H.
  - pose proof (climbs_unique _ _ _ _ Hc (climbs_up _ _ _ _ H Hq)). lia.
  - rewrite H. apply IH; [lia|]. intros v [Hin| ->%list_elem_of_singleton]%elem_of_app.
    + destruct (Hv v Hin) as (m & Hm & Hc). exists m. split; [lia|done].
    + exists (S n). split; [lia|by econstructor].
Qed.

(** The bounded walk, with its visited set, accepts exactly the climbs that
    fit its hop budget. *)
Lemma walk_spec start max_hops visit :
  walk start max_hops visit = true ↔ ∃ n, (n <= max_hops)%nat ∧ climbs visit n start.
Proof.
  unfold walk. split; [apply walk_from_sound|]. intros (n & Hn & Hc).
  eapply walk_from_complete; [done|done|]. intros v Hv. by apply not_elem_of_nil in Hv.
Qed.

(** ** Pinned peers *)
Section pinned.
Import Pinned.
Context (k : kernel).

(** [n] parent links lead from [p] up to [a]. *)
Inductive parent_chain : nat → Z → Z → Prop :=
| chain_self a : (0 <= a <= i32_max)%Z → parent_chain 0 a a
| chain_up n p q a :
    (1 < p <= i32_max)%Z → parent_of k p = Some q → (0 <= q)%Z →
    parent_chain n q a → parent_chain (S n) p a.

Lemma visit_climbs_chain a n p :
  (0 <= p)%Z → climbs (visit k a) n p → ∃ m, n = S m ∧ parent_chain m p a.
Proof.
  intros Hp H. revert Hp. induction H as [p H|n p q H Hq IH]; intros Hp; unfold visit in H;
    (destruct (Z.leb_spec p i32_max); [|done]); simpl in H.
  - destruct (Z.eqb_spec p a); [|by destruct (p <=? 1)%Z; [|case_match; [case_match|]]].
    subst. exists 0. split; [done|]. by constructor.
  - destruct (Z.eqb_spec p a); [done|]. destruct (Z.leb_spec p 1); [done|].
    destruct (parent_of k p) as [r|] eqn:Er; [|done].
    destruct (Z.leb_spec 0 r); [|done]. simplify_eq.
    destruct (IH ltac:(lia)) as (m & -> & Hm). exists (S m). split; [done|].
    econstructor; [lia|done|lia|done].
Qed.

Lemma chain_visit_climbs a m p :
  parent_chain m p a → ∃ n, (n <= S m)%nat ∧ climbs (visit k a) n p.
Proof.
  induction 1 as [a H|m p q a H Hpq Hq Hc (n & Hn & IH)].
  - exists 1. split; [lia|]. constructor. unfold visit.
    destruct (Z.leb_spec a i32_max); [|lia]. simpl. by rewrite Z.eqb_refl.
  - destruct (decide (p = a)) as [->|Hne].
    + exists 1. split; [lia|]. constructor. unfold visit.
      destruct (Z.leb_spec a i32_max); [|lia]. simpl. by rewrite Z.eqb_refl.
    + exists (S n). split; [lia|]. econstructor; [|done]. unfold visit.
      destruct (Z.leb_spec p i32_max); [|lia]. simpl.
      destruct (Z.eqb_spec p a); [done|]. destruct (Z.leb_spec p 1); [lia|].
      rewrite Hpq. by destruct (Z.leb_spec 0 q); [|lia].
Qed.

End pinned.

(** C36: the broker's containment check is exactly process ancestry: it
    accepts a caller if and only if both pidfds name live processes and at
    most 63 parent links lead from the caller to the session root. *)
Theorem descends_from_spec k peer root :
  Pinned.descends_from k peer root = true ↔
  ∃ caller ancestor n, Pinned.pid k peer = Some caller ∧ Pinned.pid k root = Some ancestor ∧
    (n < Pinned.MAX_ANCESTRY_DEPTH)%nat ∧ parent_chain k n caller ancestor.
Proof.
  unfold Pinned.descends_from, Pinned.descends_from_pid. split.
  - destruct (Pinned.pid k peer) as [caller|] eqn:Ec; [|done].
    destruct (Pinned.pid k root) as [ancestor|] eqn:Ea; [|done].
    destruct (Z.ltb_spec caller 0); [done|]. intros (n & Hn & Hc)%walk_spec.
    apply visit_climbs_chain in Hc as (m & -> & Hm); [|lia].
    exists caller, ancestor, m. done.
  - intros (caller & ancestor & m & -> & -> & Hm & Hc).
    destruct (Z.ltb_spec caller 0).
    { destruct Hc; lia. }
    apply walk_spec. apply chain_visit_climbs in Hc as (n & Hn & Hc).
    exists n. split; [lia|done].
Qed.

(** ** Anchored peers *)
Section anchored.
Import Anchored.
Context (lookup : Z → option Process).

(** [n] parent links lead from [p] to [a], through processes whose parent is
    not init. *)
Inductive anchored_chain : nat → Z → Z → Prop :=
| anchored_self a : anchored_chain 0 a a
| anchored_up n p pr a :
    lookup p = Some pr → (1 < parent pr)%Z →
    anchored_chain n (parent pr) a → anchored_chain (S n) p a.

Lemma contains_climbs_chain self n p :
  climbs (contains_visit lookup self) n p →
  ∃ m, n = S m ∧ anchored_chain m p (ap_pid self).
Proof.
  induction 1 as [p H|n p q H Hq (m & -> & IH)]; unfold contains_visit in H;
    (destruct (lookup p) as [pr|] eqn:El; [|done]).
  - destruct (Z.eqb_spec p (ap_pid self)); [|by destruct (parent pr <=? 1)%Z].
    subst. exists 0. split; [done|constructor].
  - destruct (Z.eqb_spec p (ap_pid self)); [by destruct (start pr =? ap_start self)%Z|].
    destruct (Z.leb_spec (parent pr) 1); [done|]. simplify_eq.
    exists (S m). split; [done|]. by econstructor.
Qed.

Lemma chain_contains_climbs self pr m p :
  lookup (ap_pid self) = Some pr → start pr = ap_start self →
  anchored_chain m p (ap_pid self) →
  ∃ n, (n <= S m)%nat ∧ climbs (contains_visit lookup self) n p.
Proof.
  intros Hl Hs H. remember (ap_pid self) as a eqn:Ea.
  assert (contains_visit lookup self a = Match) as Hm.
  { unfold contains_visit. rewrite Hl, <-Ea, Z.eqb_refl, Hs, Z.eqb_refl. done. }
  induction H as [a|m p pr' a Hp Hpar Hc IH].
  - exists 1. split; [lia|by constructor].
  - destruct (IH Ea Hl Hm) as (n & Hn & IHc). destruct (decide (p = a)) as [->|Hne].
    + exists 1. split; [lia|by constructor].
    + exists (S n). split; [lia|]. econstructor; [|done]. unfold contains_visit. rewrite Hp.
      destruct (Z.eqb_spec p (ap_pid self)); [congruence|].
      by destruct (Z.leb_spec (parent pr') 1); [lia|].
Qed.

Lemma climbs_match visit n p : climbs visit n p → ∃ q, visit q = Match.
Proof. induction 1; eauto. Qed.

End anchored.

(** A grant's anchor admits exactly the descendants of the anchored
    process instance within twelve processes; once the pid runs a process with
    another start time, nobody is admitted. *)
Lemma contains_with_spec lookup self pid :
  Anchored.contains_with lookup self pid = true ↔
  ∃ pr n, lookup (Anchored.ap_pid self) = Some pr ∧
    Anchored.start pr = Anchored.ap_start self ∧
    (n < Anchored.MAX_ANCESTRY_HOPS)%nat ∧ anchored_chain lookup n pid (Anchored.ap_pid self).
Proof.
  unfold Anchored.contains_with. rewrite walk_spec. split.
  - intros (n & Hn & Hc). destruct (climbs_match _ _ _ Hc) as (q & Hq).
    unfold Anchored.contains_visit in Hq. destruct (lookup q) as [pr|] eqn:El; [|done].
    destruct (Z.eqb_spec q (Anchored.ap_pid self)); [|by destruct (Anchored.parent pr <=? 1)%Z].
    destruct (Z.eqb_spec (Anchored.start pr) (Anchored.ap_start self)); [|done]. subst q.
    apply contains_climbs_chain in Hc as (m & -> & Hm). by exists pr, m.
  - intros (pr & m & Hl & Hs & Hm & Hc).
    destruct (chain_contains_climbs _ _ _ _ _ Hl Hs Hc) as (n & Hn & ?).
    exists n. split; [lia|done].
Qed.

(** ** Deriving an anchor *)
Lemma anchor_loop_spec lookup is_omp first hops current fallback a :
  (1 < current)%Z →
  (∀ f, fallback = Some f → Anchored.ap_pid f = first ∧ (1 < first)%Z ∧
     ∃ pr, lookup first = Some pr ∧ Anchored.start pr = Anchored.ap_start f) →
  Anchored.anchor_loop lookup is_omp first hops current fallback = Some a →
  ∃ pr, lookup (Anchored.ap_pid a) = Some pr ∧ Anchored.start pr = Anchored.ap_start a ∧
    (1 < Anchored.ap_pid a)%Z ∧
    (Anchored.ap_pid a = first ∨
     is_omp (Anchored.ap_pid a) = true ∧ is_Some (Anchored.session_of pr)).
Proof.
  revert current fallback. induction hops as [|hops IH]; intros current fallback Hcur Hf; simpl.
  { intros ->. destruct (Hf a eq_refl) as (Hpid & ? & pr & Hl & Hs).
    exists pr. rewrite Hpid. auto. }
  destruct (lookup current) as [pr|] eqn:El.
  2: { intros ->. destruct (Hf a eq_refl) as (Hpid & ? & pr & Hl & Hs).
       exists pr. rewrite Hpid. auto. }
  set (fb := if (current =? first)%Z then _ else fallback).
  assert (∀ f, fb = Some f → Anchored.ap_pid f = first ∧ (1 < first)%Z ∧
     ∃ pr, lookup first = Some pr ∧ Anchored.start pr = Anchored.ap_start f) as Hfb.
  { subst fb. destruct (Z.eqb_spec current first) as [->|]; [|done].
    intros f [= <-]. eauto. }
  destruct (is_some (Anchored.session_of pr) && is_omp current) eqn:Es.
  { intros [= <-]. bool_to_prop. exists pr. simpl. split_and!; try done. right.
    split; [done|]. by destruct (Anchored.session_of pr); [eexists|]. }
  destruct ((Anchored.parent pr <=? 1)%Z || (Anchored.parent pr =? current)%Z) eqn:Ep.
  { intros ->. destruct (Hfb a eq_refl) as (Hpid & ? & pr' & Hl & Hs).
    exists pr'. rewrite Hpid. auto. }
  bool_to_prop. apply IH; [lia|done].
Qed.

(** A derived anchor is a live process instance above init, and it is
    wider than the caller's own parent only when that ancestor really runs the
    [omp] executable with a session argument: a forged command line alone
    cannot widen it. *)
Lemma anchor_for_sound lookup is_omp pid a :
  Anchored.anchor_for_with lookup is_omp pid = Some a →
  ∃ caller pr, lookup pid = Some caller ∧
    lookup (Anchored.ap_pid a) = Some pr ∧ Anchored.start pr = Anchored.ap_start a ∧
    (1 < Anchored.ap_pid a)%Z ∧
    (Anchored.ap_pid a = Anchored.parent caller ∨
     is_omp (Anchored.ap_pid a) = true ∧ is_Some (Anchored.session_of pr)).
Proof.
  unfold Anchored.anchor_for_with. destruct (lookup pid) as [caller|] eqn:El; [|done].
  change (Some caller ≫= ?f) with (f caller). cbv beta.
  case_bool; [done|]. intros Ha. exists caller. bool_to_prop.
  apply anchor_loop_spec in Ha as (pr & ?); [by exists pr|lia|done].
Qed.

(** A tree of processes: pid [p] has parent [p - 1], and pid 10 is an agent
    session started with [--resume]. *)
Definition demo_process (p : Z) : option Anchored.Process :=
  Some {| Anchored.argv :=
            if (p =? 10)%Z
            then ["/usr/bin/omp"; "--resume"; "01234567-89ab-cdef-0123-456789abcdef"]
            else ["sh"];
          Anchored.parent := p - 1; Anchored.start := 100 + p |}.

Lemma anchor_for_sound_witness :
  ∃ caller pr, demo_process 13 = Some caller ∧
    demo_process 10 = Some pr ∧ Anchored.start pr = 110%Z ∧ (1 < 10)%Z ∧
    ((10 = Anchored.parent caller)%Z ∨
     (10 =? 10)%Z = true ∧ is_Some (Anchored.session_of pr)).
Proof.
  apply (anchor_for_sound demo_process (Z.eqb 10) 13
    {| Anchored.ap_pid := 10; Anchored.ap_start := 110 |}).
  vm_compute. reflexivity.
Defined.

(** The two walks disagree by one process.  Deriving an anchor looks at
    twelve ancestors of the caller, the containment test at twelve processes
    counting the caller itself: an anchor derived from the twelfth ancestor
    does not contain the very caller it was derived for. *)
Lemma anchor_reach_gap :
  ∃ anchor, Anchored.anchor_for_with demo_process (Z.eqb 10) 22 = Some anchor ∧
    Anchored.contains_with demo_process anchor 22 = false ∧
    Anchored.contains_with demo_process anchor 21 = true.
Proof.
  exists {| Anchored.ap_pid := 10; Anchored.ap_start := 110 |}. by vm_compute.
Qed.
