(* ===== verification/Store.v ===== *)
(** The human-tier store: [crates/secrets/src/store.rs].

    The file system is a parameter: a listing per directory, the descriptor
    [openat] returns for a file (symbolic links not followed) and the [fstat]
    of a descriptor.  Logging of an invalid name is not modelled. *)

From stdpp Require Import prelude strings list.
From Stdlib Require Import ZArith Lia Ascii.
From S2P Require Import Prelude Text Wire Secret.

Local Open Scope string_scope.

(** * Data *)
Record FileTimestamp : Type := { seconds : Z; nanoseconds : Z }.

Record FileIdentity : Type := {
  device : Z; inode : Z; size : Z; modified : FileTimestamp; changed : FileTimestamp;
}.

#[global] Instance FileTimestamp_eq_dec : EqDecision FileTimestamp.
Proof. solve_decision. Defined.
#[global] Instance FileIdentity_eq_dec : EqDecision FileIdentity.
Proof. solve_decision. Defined.

(** The fields of a [stat] the store reads. *)
Record FileStat : Type := {
  st_dev : Z; st_ino : Z; st_size : Z; st_mode : Z;
  st_mtime : Z; st_mtime_nsec : Z; st_ctime : Z; st_ctime_nsec : Z;
}.

Definition from_stat (stat : FileStat) : FileIdentity :=
  {| device := st_dev stat; inode := st_ino stat; size := st_size stat;
     modified := {| seconds := st_mtime stat; nanoseconds := st_mtime_nsec stat |};
     changed := {| seconds := st_ctime stat; nanoseconds := st_ctime_nsec stat |} |}.

Record HumanSource : Type := { hs_label : string; hs_dir : string }.

Record OpenedHumanFile : Type := {
  oh_label : string; oh_identity : FileIdentity; oh_file : Z;
}.

Record Candidate : Type := { c_label : string; c_dir : string; c_file_name : string }.

(** * The file system *)
Inductive dir_listing : Type :=
| Entries (names : list (option string))
| NotFound
| Unreadable.

Record filesystem : Type := {
  read_dir : string → dir_listing;
  open_dir : string → bool;
  openat : string → string → option Z;
  fstat : Z → option FileStat;
}.

(** * Operations *)
Definition directory_entries (fs : filesystem) (dir : string) :
    result ErrCode (option (list (option string))) :=
  match read_dir fs dir with
  | Entries names => Ok (Some names)
  | NotFound => Ok None
  | Unreadable => Err Internal
  end.

Definition human_file_name (fname : string) : result ErrCode (option (string * bool * string)) :=
  match from_utf8 fname with
  | None => Ok None
  | Some text =>
      match parse_human_file_name text with
      | Ignored => Ok None
      | Invalid => Err Internal
      | Key name local => Ok (Some (name, local, text))
      end
  end.

(** The two nested loops [candidates] and [key_names] share; [visit] is the
    body run for each file that names a key. *)
Section scan.
Context {A : Type} (visit : A → HumanSource → string * bool * string → A).

Fixpoint scan_entries (source : HumanSource) (acc : A) (entries : list (option string)) :
    result ErrCode A :=
  match entries with
  | [] => Ok acc
  | None :: _ => Err Internal
  | Some fname :: rest =>
      found ← human_file_name fname;
      match found with
      | None => scan_entries source acc rest
      | Some file => scan_entries source (visit acc source file) rest
      end
  end.

Fixpoint scan_sources (fs : filesystem) (acc : A) (sources : list HumanSource) :
    result ErrCode A :=
  match sources with
  | [] => Ok acc
  | source :: rest =>
      entries ← directory_entries fs (hs_dir source);
      match entries with
      | None => scan_sources fs acc rest
      | Some names =>
          acc' ← scan_entries source acc names;
          scan_sources fs acc' rest
      end
  end.
End scan.

Definition local_label (label : string) (local : bool) : string :=
  if local then label +:+ ".local" else label.

Definition candidate_visit (requested : string) (acc : list Candidate) (source : HumanSource)
    (file : string * bool * string) : list Candidate :=
  let '(name, local, fname) := file in
  if bool_decide (name = requested) then
    (acc ++ [{| c_label := local_label (hs_label source) local;
                c_dir := hs_dir source; c_file_name := fname |}])%list
  else acc.

Definition candidates (fs : filesystem) (sources : list HumanSource) (requested : string) :
    result ErrCode (list Candidate) :=
  scan_sources (candidate_visit requested) fs [] sources.

Definition locate (fs : filesystem) (sources : list HumanSource) (name : string) :
    result ErrCode string :=
  found ← candidates fs sources name;
  match found with
  | [] => Err NotHumanKey
  | [candidate] => Ok (c_label candidate)
  | _ => Err AmbiguousKey
  end.

(** The bits [SFlag] knows ([S_IFMT]), and the test
    [from_bits_truncate(mode).contains(S_IFREG)]. *)
Definition S_IFMT : Z := 61440.
Definition S_IFREG : Z := 32768.
Definition contains_ifreg (mode : Z) : bool :=
  (Z.land (Z.land mode S_IFMT) S_IFREG =? S_IFREG)%Z.

Definition open (fs : filesystem) (sources : list HumanSource) (name : string) :
    result ErrCode OpenedHumanFile :=
  found ← candidates fs sources name;
  match found with
  | [] => Err NotHumanKey
  | [candidate] =>
      if negb (open_dir fs (c_dir candidate)) then Err NotHumanKey else
      fd ← ok_or NotHumanKey (openat fs (c_dir candidate) (c_file_name candidate));
      stat ← ok_or NotHumanKey (fstat fs fd);
      if negb (contains_ifreg (st_mode stat)) then Err NotHumanKey else
      Ok {| oh_label := c_label candidate; oh_identity := from_stat stat; oh_file := fd |}
  | _ => Err AmbiguousKey
  end.

Definition identity (fs : filesystem) (sources : list HumanSource) (name : string) :
    result ErrCode FileIdentity :=
  oh_identity <$> open fs sources name.

(** [BTreeSet::insert] on a sorted list, names ordered bytewise. *)
Fixpoint str_lt (a b : string) : bool :=
  match a, b with
  | EmptyString, String _ _ => true
  | _, EmptyString => false
  | String c a', String d b' => (code c <? code d)%Z || ((code c =? code d)%Z && str_lt a' b')
  end.

Fixpoint set_insert (x : string) (l : list string) : list string :=
  match l with
  | [] => [x]
  | y :: l' => if str_lt x y then x :: l else if bool_decide (x = y) then l else y :: set_insert x l'
  end.

Definition key_names (fs : filesystem) (sources : list HumanSource) :
    result ErrCode (list string) :=
  scan_sources (λ names _ file, set_insert file.1.1 names) fs [] sources.

(** * What the scan sees *)
Definition file_of (fname : string) : option (string * bool * string) :=
  match human_file_name fname with Ok found => found | Err _ => None end.

Definition entry_ok (entry : option string) : bool :=
  is_some_and (λ fname, is_ok_and (λ _, true) (human_file_name fname)) entry.

(** The files a source directory lists; none where it cannot be read. *)
Definition listing (fs : filesystem) (source : HumanSource) : list (option string) :=
  match read_dir fs (hs_dir source) with Entries names => names | _ => [] end.

(** Every configured directory is missing or can be listed, and no listed
    [.env] file has an invalid name. *)
Definition source_ok (fs : filesystem) (source : HumanSource) : bool :=
  match read_dir fs (hs_dir source) with
  | Unreadable => false
  | _ => forallb entry_ok (listing fs source)
  end.

Definition readable (fs : filesystem) (sources : list HumanSource) : bool :=
  forallb (source_ok fs) sources.

(** The files of the sources that hold [name], in configuration order, each
    with whether it is the machine-local one. *)
Definition backing_entry (name : string) (source : HumanSource) (entry : option string) :
    option (HumanSource * bool) :=
  fname ← entry;
  if bool_decide (fname = file_name name) then Some (source, false)
  else if bool_decide (fname = local_file_name name) then Some (source, true) else None.

Definition backing (fs : filesystem) (name : string) (sources : list HumanSource) :
    list (HumanSource * bool) :=
  sources ≫= λ source, omap (backing_entry name source) (listing fs source).

Definition candidate_of (name : string) (found : HumanSource * bool) : Candidate :=
  {| c_label := local_label (hs_label found.1) found.2; c_dir := hs_dir found.1;
     c_file_name := if found.2 then local_file_name name else file_name name |}.

Lemma human_file_name_Err fname e : human_file_name fname = Err e → e = Internal.
Proof. unfold human_file_name. repeat case_match; congruence. Qed.

Lemma scan_entries_spec {A} (visit : A → HumanSource → string * bool * string → A) source acc es :
  scan_entries visit source acc es =
  if forallb entry_ok es
  then Ok (fold_left (λ a file, visit a source file) (omap (λ e, e ≫= file_of) es) acc)
  else Err Internal.
Proof.
  revert acc. induction es as [|[fname|] es IH]; intros acc; [done| |done].
  cbn [scan_entries forallb omap list_omap]. simpl. unfold file_of at 1.
  destruct (human_file_name fname) as [[file|]|e] eqn:E; simpl.
  - apply IH.
  - apply IH.
  - by apply human_file_name_Err in E as ->.
Qed.

Definition files (fs : filesystem) (sources : list HumanSource) :
    list (HumanSource * (string * bool * string)) :=
  sources ≫= λ source, omap (λ e, pair source <$> (e ≫= file_of)) (listing fs source).

Lemma fold_left_pair {A B C} (visit : A → B → C → A) b (l : list (option string)) (g : option string → option C) acc :
  fold_left (λ a x, visit a b x) (omap g l) acc =
  fold_left (λ a x, visit a x.1 x.2) (omap (λ e, pair b <$> g e) l) acc.
Proof.
  revert acc. induction l as [|e l IH]; intros acc; simpl; [done|].
  destruct (g e); simpl; apply IH.
Qed.

(** The scan fails on the first unusable directory or name and otherwise
    visits every file that names a key, in order. *)
Lemma scan_sources_spec {A} (visit : A → HumanSource → string * bool * string → A) fs acc sources :
  scan_sources visit fs acc sources =
  if readable fs sources
  then Ok (fold_left (λ a x, visit a x.1 x.2) (files fs sources) acc)
  else Err Internal.
Proof.
  revert acc. induction sources as [|source sources IH]; intros acc; [done|].
  change (readable fs (source :: sources)) with (source_ok fs source && readable fs sources).
  change (files fs (source :: sources)) with
    (omap (λ e, pair source <$> (e ≫= file_of)) (listing fs source) ++ files fs sources)%list.
  rewrite fold_left_app, <-fold_left_pair. cbn [scan_sources].
  unfold source_ok, directory_entries, listing at 2.
  destruct (read_dir fs (hs_dir source)) as [names| |] eqn:E; [|unfold listing; rewrite E|done].
  - change (Ok (Some names) ≫= ?f) with (f (Some names)). cbv beta iota.
    rewrite scan_entries_spec. unfold listing. rewrite E.
    destruct (forallb entry_ok names); [|done]. apply IH.
  - apply IH.
Qed.

(** * Which file backs a key *)
Lemma file_name_utf8 name local :
  secret_name_ok name →
  from_utf8 (if local : bool then local_file_name name else file_name name) =
  Some (if local then local_file_name name else file_name name).
Proof.
  intros H%secret_name_ok_bytes. apply from_utf8_ascii.
  assert (all_bytes is_ascii name = true) as Ha.
  { revert H. apply all_bytes_impl. apply byte_impl. by vm_compute. }
  destruct local; unfold local_file_name, file_name; by rewrite all_bytes_append, Ha.
Qed.

Lemma file_name_local n m : file_name n ≠ local_file_name m ∨ ¬ secret_name_ok n.
Proof.
  destruct (decide (file_name n = local_file_name m)) as [E|]; [right|by left].
  intros Hn%secret_name_no_dot. unfold file_name, local_file_name in E.
  change ".local.env" with (".local" +:+ ".env") in E. rewrite append_assoc in E.
  apply (f_equal (λ s, strip_suffix s ".env")) in E. rewrite !strip_suffix_append in E.
  injection E as ->. rewrite contains_byte_append in Hn. by rewrite orb_true_r in Hn.
Qed.

Lemma file_of_Some fname n local text :
  file_of fname = Some (n, local, text) ↔
  secret_name_ok n ∧ fname = (if local then local_file_name n else file_name n) ∧ text = fname.
Proof.
  unfold file_of, human_file_name. split.
  - destruct (from_utf8 fname) as [t|] eqn:E; [|done].
    assert (t = fname) as ->. { unfold from_utf8 in E. by case_match; simplify_eq. }
    destruct (parse_human_file_name fname) as [|m l|] eqn:Ep; [done| |done].
    intros [= -> -> ->]. by apply parse_human_file_name_spec in Ep as [? ?].
  - intros (Hn & -> & ->). rewrite file_name_utf8 by done.
    by rewrite (proj2 (parse_human_file_name_spec _ n local) (conj Hn eq_refl)).
Qed.

Lemma file_of_name n local :
  secret_name_ok n →
  file_of (if local : bool then local_file_name n else file_name n) =
  Some (n, local, if local then local_file_name n else file_name n).
Proof. intros Hn. by apply file_of_Some. Qed.

Lemma candidates_files requested fl acc :
  fold_left (λ a x, candidate_visit requested a x.1 x.2) fl acc =
  (acc ++ fold_left (λ a x, candidate_visit requested a x.1 x.2) fl [])%list.
Proof.
  revert acc. induction fl as [|[s [[n l] t]] fl IH]; intros acc; simpl.
  { by rewrite app_nil_r. }
  case_bool_decide; [|by rewrite IH]. rewrite IH, (IH [_]). by rewrite app_assoc.
Qed.

Lemma candidates_backing_source requested source es :
  secret_name_ok requested →
  fold_left (λ a x, candidate_visit requested a x.1 x.2)
    (omap (λ e, pair source <$> (e ≫= file_of)) es) [] =
  candidate_of requested <$> omap (backing_entry requested source) es.
Proof.
  intros Hr. induction es as [|[fname|] es IH]; [done| |done].
  cbn [omap list_omap]. simpl. destruct (file_of fname) as [[[n local] text]|] eqn:E; simpl.
  - apply file_of_Some in E as (Hn & -> & ->). case_bool_decide as Hnr.
    + subst n. rewrite candidates_files, IH. unfold backing_entry; simpl.
      destruct local; [|by rewrite bool_decide_eq_true_2].
      destruct (file_name_local requested requested) as [Hne|]; [|done].
      rewrite bool_decide_eq_false_2 by congruence. by rewrite bool_decide_eq_true_2.
    + rewrite IH. unfold backing_entry; simpl.
      assert (∀ l' : bool, (if local then local_file_name n else file_name n) =
        (if l' then local_file_name requested else file_name requested) → False) as Hne.
      { intros l' E. pose proof (proj2 (parse_human_file_name_spec _ n local) (conj Hn eq_refl)) as P1.
        pose proof (proj2 (parse_human_file_name_spec _ requested l') (conj Hr eq_refl)) as P2.
        rewrite E in P1. congruence. }
      rewrite !bool_decide_eq_false_2; [done|intros ?; by eapply (Hne true)|intros ?; by eapply (Hne false)].
  - rewrite IH. unfold backing_entry; simpl.
    assert (∀ l', fname ≠ (if l' : bool then local_file_name requested else file_name requested)) as Hne.
    { intros l' ->. by rewrite file_of_name in E. }
    by rewrite !bool_decide_eq_false_2 by first [apply (Hne true)|apply (Hne false)].
Qed.

Lemma candidates_spec fs sources name :
  secret_name_ok name →
  candidates fs sources name =
  if readable fs sources then Ok (candidate_of name <$> backing fs name sources) else Err Internal.
Proof.
  intros Hn. unfold candidates. rewrite scan_sources_spec.
  destruct (readable fs sources); [|done]. f_equal. clear -Hn.
  induction sources as [|source sources IH]; [done|].
  cbn [files backing mbind list_bind] in *. rewrite fold_left_app, candidates_files.
  rewrite candidates_backing_source by done. rewrite fmap_app. by f_equal.
Qed.

(** Which file backs a key.  With every source directory readable and
    well named, [locate] answers the label of the only file that holds the
    key, and refuses a key no file or more than one file holds; anything
    unreadable or badly named anywhere makes it fail closed. *)
Lemma locate_spec fs sources name :
  secret_name_ok name →
  locate fs sources name =
  if readable fs sources then
    match backing fs name sources with
    | [] => Err NotHumanKey
    | [(source, local)] => Ok (local_label (hs_label source) local)
    | _ => Err AmbiguousKey
    end
  else Err Internal.
Proof.
  intros Hn. unfold locate. rewrite candidates_spec by done.
  destruct (readable fs sources); [|done].
  by destruct (backing fs name sources) as [|[s l] [|? ?]].
Qed.

(** Two sources; the second holds [K] twice. *)
Definition demo_fs : filesystem :=
  {| read_dir := λ dir,
       if bool_decide (dir = "/a") then Entries [Some "K.env"; Some "README"; Some "L.env"]
       else if bool_decide (dir = "/b") then Entries [Some "L.local.env"] else NotFound;
     open_dir := λ _, true;
     openat := λ dir fname, if bool_decide (fname = "K.env") then Some 5%Z else None;
     fstat := λ _, Some {| st_dev := 1; st_ino := 2; st_size := 3; st_mode := 33152;
                           st_mtime := 4; st_mtime_nsec := 5; st_ctime := 6; st_ctime_nsec := 7 |} |}.

Definition demo_sources : list HumanSource :=
  [{| hs_label := "main"; hs_dir := "/a" |}; {| hs_label := "alt"; hs_dir := "/b" |};
   {| hs_label := "gone"; hs_dir := "/c" |}].

Lemma locate_spec_witness :
  locate demo_fs demo_sources "K" = Ok "main" ∧
  locate demo_fs demo_sources "L" = Err AmbiguousKey ∧
  locate demo_fs demo_sources "M" = Err NotHumanKey.
Proof.
  split_and!; (etransitivity; [apply locate_spec; vm_compute; reflexivity|vm_compute; reflexivity]).
Defined.

Lemma locate_candidate fs sources name candidate :
  candidates fs sources name = Ok [candidate] → locate fs sources name = Ok (c_label candidate).
Proof. unfold locate. by intros ->. Qed.

(** What is decrypted is what was located.  A file [open] hands out is
    the one file the configured directories hold for the key, under its
    committed or machine-local name, with the identity [fstat] reports for
    that very descriptor, and carries the label [locate] answers. *)
Lemma open_spec fs sources name opened :
  secret_name_ok name →
  open fs sources name = Ok opened →
  ∃ source local stat,
    backing fs name sources = [(source, local)] ∧
    locate fs sources name = Ok (oh_label opened) ∧
    oh_label opened = local_label (hs_label source) local ∧
    openat fs (hs_dir source) (if local then local_file_name name else file_name name) =
      Some (oh_file opened) ∧
    fstat fs (oh_file opened) = Some stat ∧ oh_identity opened = from_stat stat ∧
    Z.testbit (st_mode stat) 15 = true.
Proof.
  intros Hn. unfold open. destruct (candidates fs sources name) as [found|] eqn:Ec; [|done].
  pose proof Ec as Ec'. rewrite candidates_spec in Ec by done.
  destruct (readable fs sources); [|done]. injection Ec as <-.
  change (Ok ?x ≫= ?f) with (f x). cbv beta.
  destruct (backing fs name sources) as [|[s l] [|? ?]] eqn:Eb; [done| |done]. simpl.
  destruct (open_dir fs (hs_dir s)); [|done]. simpl.
  destruct (openat fs (hs_dir s) _) as [fd|] eqn:Eo; [|done]. simpl.
  destruct (fstat fs fd) as [stat|] eqn:Es; [|done]. simpl. case_bool; [done|].
  intros [= <-]. exists s, l, stat. simpl.
  split_and!; try done; [by apply locate_candidate in Ec'|].
  unfold contains_ifreg in Hb. bool_to_prop. apply (f_equal (λ z, Z.testbit z 15)) in Hb.
  rewrite !Z.land_spec in Hb. apply andb_true_iff in Hb as [Hb _].
  by apply andb_true_iff in Hb as [Hb _].
Qed.

Lemma open_spec_witness :
  ∃ source local stat,
    backing demo_fs "K" demo_sources = [(source, local)] ∧
    locate demo_fs demo_sources "K" = Ok "main" ∧
    "main" = local_label (hs_label source) local ∧
    openat demo_fs (hs_dir source) (if local then local_file_name "K" else file_name "K") = Some 5%Z ∧
    fstat demo_fs 5 = Some stat ∧
    {| device := 1; inode := 2; size := 3; modified := {| seconds := 4; nanoseconds := 5 |};
       changed := {| seconds := 6; nanoseconds := 7 |} |} = from_stat stat ∧
    Z.testbit (st_mode stat) 15 = true.
Proof.
  apply (open_spec demo_fs demo_sources "K"
    {| oh_label := "main"; oh_file := 5;
       oh_identity := {| device := 1; inode := 2; size := 3;
         modified := {| seconds := 4; nanoseconds := 5 |};
         changed := {| seconds := 6; nanoseconds := 7 |} |} |}); by vm_compute.
Defined.

(** * Listing *)
Lemma elem_of_set_insert x y l : y ∈ set_insert x l ↔ y = x ∨ y ∈ l.
Proof.
  induction l as [|z l IH]; simpl.
  { rewrite list_elem_of_singleton. split; [auto|]. by intros [|?%not_elem_of_nil]. }
  destruct (str_lt x z); [by rewrite elem_of_cons|].
  case_bool_decide as E; [subst z|].
  - rewrite elem_of_cons. naive_solver.
  - rewrite !elem_of_cons, IH. naive_solver.
Qed.

Lemma elem_of_key_fold y (fl : list (HumanSource * (string * bool * string))) acc :
  y ∈ fold_left (λ names x, set_insert x.2.1.1 names) fl acc ↔
  y ∈ acc ∨ ∃ x, x ∈ fl ∧ x.2.1.1 = y.
Proof.
  revert acc. induction fl as [|f fl IH]; intros acc; simpl.
  { split; [auto|]. by intros [?|(x & ?%not_elem_of_nil & _)]. }
  rewrite IH, elem_of_set_insert. setoid_rewrite elem_of_cons. naive_solver.
Qed.

Lemma backing_files fs name sources :
  secret_name_ok name →
  backing fs name sources ≠ [] ↔ ∃ x, x ∈ files fs sources ∧ x.2.1.1 = name.
Proof.
  intros Hn. assert (∀ l : list (HumanSource * bool), l ≠ [] ↔ ∃ x, x ∈ l) as Hne.
  { intros [|x l]; split; try done; [by intros (x & ?%not_elem_of_nil)|].
    intros _. exists x. by constructor. }
  rewrite Hne. unfold backing, files. setoid_rewrite list_elem_of_bind.
  setoid_rewrite list_elem_of_omap. split.
  - intros ([s l] & s' & (e & He & Hb) & Hs). destruct e as [fname|]; [|done].
    assert (s' = s ∧ fname = if l then local_file_name name else file_name name) as [-> ->].
    { unfold backing_entry in Hb. simpl in Hb. repeat case_bool_decide; by simplify_eq. }
    exists (s, (name, l, if l then local_file_name name else file_name name)). split; [|done].
    exists s. split; [|done]. eexists. split; [done|]. simpl.
    by rewrite file_of_name.
  - intros ([s [[n l] t]] & (s' & (e & He & Hf) & Hs) & Hx). simpl in Hx. subst n.
    destruct e as [fname|]; [|done]. simpl in Hf.
    destruct (file_of fname) as [x|] eqn:Ef; [|done]. simpl in Hf. simplify_eq.
    apply file_of_Some in Ef as (_ & -> & ->). exists (s, l), s. split; [|done].
    eexists. split; [done|]. unfold backing_entry. simpl.
    destruct l; [|by rewrite bool_decide_eq_true_2].
    destruct (file_name_local name name) as [Hf|]; [|done].
    rewrite bool_decide_eq_false_2 by congruence. by rewrite bool_decide_eq_true_2.
Qed.

(** The listing and the locator agree: a listing that succeeds names
    exactly the keys [locate] does not report as absent. *)
Lemma key_names_locate fs sources names name :
  secret_name_ok name → key_names fs sources = Ok names →
  name ∈ names ↔ locate fs sources name ≠ Err NotHumanKey.
Proof.
  intros Hn. unfold key_names. rewrite scan_sources_spec.
  unfold locate. rewrite candidates_spec by done.
  destruct (readable fs sources); [|done]. intros [= <-].
  rewrite elem_of_key_fold, <-(backing_files fs name sources Hn).
  destruct (backing fs name sources) as [|[s l] [|? ?]]; simpl.
  - split; [by intros [?%not_elem_of_nil|?]|done].
  - split; [done|]. by right.
  - split; [done|]. by right.
Qed.

Lemma key_names_locate_witness :
  "L" ∈ ["K"; "L"] ↔ locate demo_fs demo_sources "L" ≠ Err NotHumanKey.
Proof. apply (key_names_locate demo_fs demo_sources ["K"; "L"] "L"); by vm_compute. Defined.
