(* ===== verification/Grants.v ===== *)
(** Who is asking and what they may see: [crates/secrets/src/grants].

    [Registry] binds session tokens to the process that registered them and
    learns which terminals carry agent traffic; [GrantTable] caches released
    plaintext per scope and key.  Whether one process descends from another is
    the promise of the containment component, stated here as a class and
    discharged by the pinned-peer walk. *)

From stdpp Require Import prelude strings list gmap.
From Stdlib Require Import ZArith Lia Ascii.
From S2P Require Import Prelude Text Wire Secret Containment Store.

Local Open Scope string_scope.

(** * The containment interface *)
Class PeerContainment (P : Type) : Type := {
  descends_from : P → P → bool;
  is_alive : P → bool;
  descends_alive : ∀ peer root, descends_from peer root = true →
    is_alive peer = true ∧ is_alive root = true;
}.

Lemma pinned_descends_alive k peer root :
  Pinned.descends_from k peer root = true →
  Pinned.is_alive k peer = true ∧ Pinned.is_alive k root = true.
Proof.
  unfold Pinned.descends_from, Pinned.is_alive.
  by destruct (Pinned.pid k peer), (Pinned.pid k root).
Qed.

Definition pinned_containment (k : kernel) : PeerContainment Pinned.PinnedPeer :=
  {| descends_from := Pinned.descends_from k; is_alive := Pinned.is_alive k;
     descends_alive := pinned_descends_alive k |}.

(** * Scopes *)
Inductive Scope : Type :=
| Session (token : string)
| Tty (tty boot_id : string).

Inductive ScopeKind : Type := VerifiedSession | TokenlessTty.

Definition kind (s : Scope) : ScopeKind :=
  match s with Session _ => VerifiedSession | Tty _ _ => TokenlessTty end.

#[global] Instance Scope_eq_dec : EqDecision Scope.
Proof. solve_decision. Defined.

#[global] Instance Scope_countable : Countable Scope.
Proof.
  apply (inj_countable'
    (λ s, match s with Session t => inl t | Tty t b => inr (t, b) end)
    (λ s, match s with inl t => Session t | inr (t, b) => Tty t b end)).
  by intros [|].
Defined.

(** * The registry *)
Section registry.
Context {P : Type}.

Record Registration : Type := { token : string; session : string; root : P }.

Record Registry : Type := {
  sessions : list Registration;
  agent_ttys : list string;
  boot_id : string;
}.

Definition Registry_new (boot : string) : Registry :=
  {| sessions := []; agent_ttys := []; boot_id := boot |}.

Definition set_sessions (r : Registry) (l : list Registration) : Registry :=
  {| sessions := l; agent_ttys := agent_ttys r; boot_id := boot_id r |}.

Definition has_token (t : string) (e : Registration) : bool := bool_decide (token e = t).
Definition has_session (s : string) (e : Registration) : bool := bool_decide (session e = s).

Definition register (r : Registry) (new : Registration) : Registry * result ErrCode (list string) :=
  if existsb (has_token (token new)) (sessions r) then
    if existsb (λ e, has_token (token new) e && has_session (session new) e) (sessions r)
    then (r, Ok [])
    else (r, Err BadRequest)
  else
    let displaced := token <$> retain (has_session (session new)) (sessions r) in
    (set_sessions r (retain (λ e, negb (has_session (session new) e)) (sessions r) ++ [new])%list,
     Ok displaced).

Definition unregister (r : Registry) (s : string) : Registry * list string :=
  let revoked := token <$> retain (has_session s) (sessions r) in
  (set_sessions r (retain (λ e, negb (has_session s e)) (sessions r)), revoked).

Definition registration (r : Registry) (t : string) : option Registration :=
  List.find (has_token t) (sessions r).

Definition is_agent_tty (r : Registry) (tty : string) : bool :=
  existsb (λ known, bool_decide (known = tty)) (agent_ttys r).

Definition learn_tty (r : Registry) (tty : option string) : Registry :=
  match tty with
  | Some t =>
      if negb (is_agent_tty r t)
      then {| sessions := sessions r; agent_ttys := (agent_ttys r ++ [t])%list; boot_id := boot_id r |}
      else r
  | None => r
  end.

Definition resolve `{PeerContainment P} (r : Registry) (t tty : option string)
    (caller : option P) : Registry * result ErrCode Scope :=
  match t with
  | Some presented =>
      match root <$> List.find (has_token presented) (sessions r) with
      | None => (r, Err UnknownToken)
      | Some root =>
          if negb (is_some_and (λ c, descends_from c root) caller) then (r, Err ForeignCaller)
          else (learn_tty r tty, Ok (Session presented))
      end
  | None =>
      match tty with
      | Some tty => if is_agent_tty r tty then (r, Err AgentTty) else (r, Ok (Tty tty (boot_id r)))
      | None => (r, Err NoScope)
      end
  end.
End registry.
Arguments Registration P : clear implicits.
Arguments Registry P : clear implicits.

(** * The grant table *)
Record GrantOrigin : Type := { go_source : string; go_identity : FileIdentity }.

Record Grant : Type := {
  g_scope : Scope; g_key : string; g_value : string; g_origin : GrantOrigin;
  g_created : Z; g_ttl : Z;
}.

Definition GrantTable : Type := list Grant.

(** The operations of [GrantTable]. *)
Module Table.

Definition grant_for (scope : Scope) (key : string) (g : Grant) : bool :=
  bool_decide (g_scope g = scope) && bool_decide (g_key g = key).

Definition grant_fresh (now : Z) (g : Grant) : bool :=
  (Time.duration_since now (g_created g) <? g_ttl g)%Z.

Definition lookup (t : GrantTable) (scope : Scope) (key : string) (now : Z) :
    option (string * string * FileIdentity) :=
  (λ g, (g_value g, go_source (g_origin g), go_identity (g_origin g)))
    <$> List.find (λ g, grant_for scope key g && grant_fresh now g) t.

Definition remaining_secs (t : GrantTable) (scope : Scope) (key : string) (now : Z) : option Z :=
  Time.as_secs <$> (List.find (grant_for scope key) t ≫=
    λ g, Time.duration_checked_sub (g_ttl g) (Time.duration_since now (g_created g))).

Definition revoke (t : GrantTable) (scope : Scope) (key : string) : GrantTable :=
  retain (λ g, negb (grant_for scope key g)) t.

Definition insert (t : GrantTable) (scope : Scope) (key value : string) (created : Z)
    (origin : GrantOrigin) (ttl : Z) : GrantTable :=
  (retain (λ g, negb (grant_for scope key g)) t ++
   [{| g_scope := scope; g_key := key; g_value := value; g_origin := origin;
       g_created := created; g_ttl := ttl |}])%list.

Definition revoke_scope (t : GrantTable) (scope : Scope) : GrantTable :=
  retain (λ g, negb (bool_decide (g_scope g = scope))) t.

Definition revoke_tokens (t : GrantTable) (tokens : list string) : GrantTable :=
  retain (λ g, match g_scope g with
               | Session tok => negb (bool_decide (tok ∈ tokens))
               | Tty _ _ => true
               end) t.

Definition revoke_expired (t : GrantTable) (now : Z) : GrantTable * Z :=
  let t' := retain (grant_fresh now) t in
  (t', saturating_sub (Z.of_nat (length t)) (Z.of_nat (length t'))).

Definition revoke_all (t : GrantTable) : GrantTable := [].

(** [exists_path] is [Path::exists] on the terminal device. *)
Definition revoke_missing_ttys (exists_path : string → bool) (t : GrantTable) : GrantTable :=
  retain (λ g, match g_scope g with Session _ => true | Tty tty _ => exists_path tty end) t.

Definition table_is_empty (t : GrantTable) : bool := match t with [] => true | _ => false end.

Definition render_grant (now : Z) (g : Grant) : string :=
  g_key g +:+ String tab
    (match g_scope g with Session _ => "session" | Tty tty _ => "tty " +:+ tty end) +:+ String tab
    (to_string (Time.as_secs (Time.duration_since now (g_created g)))) +:+ "s" +:+ String newline "".

Definition render (t : GrantTable) (now : Z) : string :=
  match t with
  | [] => "no active grants" +:+ String newline ""
  | _ => fold_left (λ out g, out +:+ render_grant now g) t
           ("KEY" +:+ String tab "SCOPE" +:+ String tab "AGE" +:+ String newline "")
  end.

End Table.

(** * The registry binds each token once *)
Section registry_properties.
Context {P : Type}.
Implicit Types (r : Registry P) (e new : Registration P).

(** A token names one session and a session has one token. *)
Definition registry_wf r : Prop :=
  NoDup (token <$> sessions r) ∧ NoDup (session <$> sessions r) ∧ NoDup (agent_ttys r).

Lemma has_token_spec t e : has_token t e = true ↔ token e = t.
Proof. unfold has_token. by rewrite bool_decide_eq_true. Qed.

Lemma has_session_spec s e : has_session s e = true ↔ session e = s.
Proof. unfold has_session. by rewrite bool_decide_eq_true. Qed.

Lemma register_wf r new : registry_wf r → registry_wf (register r new).1.
Proof.
  intros Hr. pose proof Hr as (Ht & Hs & Ha). unfold register.
  destruct (existsb (has_token (token new)) (sessions r)) eqn:E.
  { by case_match. }
  rewrite existsb_false in E. split_and!; simpl; [| |done]; rewrite fmap_app; simpl.
  - apply NoDup_app. split; [by apply NoDup_fmap_retain|]. split; [|apply NoDup_singleton].
    intros t (e & -> & [He _]%elem_of_retain)%list_elem_of_fmap Heq%list_elem_of_singleton.
    specialize (E e He). by rewrite (proj2 (has_token_spec _ _) Heq) in E.
  - apply NoDup_app. split; [by apply NoDup_fmap_retain|]. split; [|apply NoDup_singleton].
    intros s (e & -> & [_ Hn]%elem_of_retain)%list_elem_of_fmap Heq%list_elem_of_singleton.
    by rewrite (proj2 (has_session_spec _ _) Heq) in Hn.
Qed.

Lemma unregister_wf r s : registry_wf r → registry_wf (unregister r s).1.
Proof.
  intros (Ht & Hs & Ha). split_and!; simpl; [by apply NoDup_fmap_retain..|done].
Qed.

Lemma learn_tty_wf r tty : registry_wf r → registry_wf (learn_tty r tty).
Proof.
  intros Hr. pose proof Hr as (Ht & Hs & Ha). destruct tty as [tty|]; simpl; [|done]. case_bool; [|done].
  split_and!; simpl; [done..|]. apply NoDup_app. split; [done|]. split; [|apply NoDup_singleton].
  intros t Hin ->%list_elem_of_singleton. unfold is_agent_tty in Hb.
  rewrite existsb_false in Hb. specialize (Hb tty Hin). by bool_to_prop.
Qed.

Lemma resolve_wf `{PeerContainment P} r t tty caller :
  registry_wf r → registry_wf (resolve r t tty caller).1.
Proof.
  intros Hr. unfold resolve. repeat case_match; try done. simpl. by apply learn_tty_wf.
Qed.

Lemma registration_Some r t e :
  registration r t = Some e → e ∈ sessions r ∧ token e = t.
Proof. intros [? Ht]%find_Some. by rewrite has_token_spec in Ht. Qed.

Lemma registration_None r t : registration r t = None ↔ ∀ e, e ∈ sessions r → token e ≠ t.
Proof.
  unfold registration. rewrite find_None. split.
  - intros H e He Ht. specialize (H e He). by rewrite (proj2 (has_token_spec _ _) Ht) in H.
  - intros H e He. apply not_true_iff_false. rewrite has_token_spec. auto.
Qed.

(** In a well-formed registry the position of an entry does not matter. *)
Lemma registration_elem r e :
  NoDup (token <$> sessions r) → e ∈ sessions r → registration r (token e) = Some e.
Proof.
  intros Hn He. apply find_unique; [done|by apply has_token_spec|].
  intros y Hy Ht%has_token_spec. revert Hn He Hy Ht. clear. induction (sessions r) as [|x l IH]; intros Hn He Hy Ht.
  { by apply not_elem_of_nil in He. }
  csimpl in Hn. apply NoDup_cons in Hn as [Hx Hn].
  apply elem_of_cons in He as [->|He], Hy as [->|Hy]; try done.
  - destruct Hx. rewrite <-Ht. by apply list_elem_of_fmap_2.
  - destruct Hx. rewrite Ht. by apply list_elem_of_fmap_2.
  - by apply IH.
Qed.

Inductive registry_op : Type :=
| OpRegister (new : Registration P)
| OpUnregister (s : string)
| OpResolve (t tty : option string) (caller : option P).

Definition run_registry_op `{PeerContainment P} r (op : registry_op) : Registry P :=
  match op with
  | OpRegister new => (register r new).1
  | OpUnregister s => (unregister r s).1
  | OpResolve t tty caller => (resolve r t tty caller).1
  end.

Definition run_registry `{PeerContainment P} r (ops : list registry_op) : Registry P :=
  fold_left run_registry_op ops r.

Lemma run_registry_wf `{PeerContainment P} r ops : registry_wf r → registry_wf (run_registry r ops).
Proof.
  unfold run_registry. revert r. induction ops as [|op ops IH]; intros r Hr; simpl; [done|].
  apply IH. destruct op; simpl; [by apply register_wf|by apply unregister_wf|by apply resolve_wf].
Qed.

Lemma Registry_new_wf boot : registry_wf (Registry_new (P:=P) boot).
Proof. split_and!; apply NoDup_nil_2. Qed.

Lemma resolve_sessions `{PeerContainment P} r t tty caller :
  sessions (resolve r t tty caller).1 = sessions r.
Proof. unfold resolve, learn_tty. by repeat case_match. Qed.

Lemma register_token_keeps r new t e :
  registry_wf r → registration r t = Some e →
  registration (register r new).1 t = Some e ∨
  (registration (register r new).1 t = None ∧ session new = session e ∧
   ∃ displaced, (register r new).2 = Ok displaced ∧ t ∈ displaced).
Proof.
  intros Hr He. pose proof (register_wf r new Hr) as (Hn' & _). destruct Hr as (Hn & _).
  revert Hn'. unfold register. destruct (existsb (has_token (token new)) (sessions r)) eqn:E.
  { left. by case_match. }
  intros Hn'. rewrite existsb_false in E. pose proof (registration_Some _ _ _ He) as [Hin <-].
  assert (token new ≠ token e) as Hne.
  { intros Heq. specialize (E e Hin). by rewrite (proj2 (has_token_spec _ _) (eq_sym Heq)) in E. }
  destruct (has_session (session new) e) eqn:Es.
  - right. split_and!.
    + apply registration_None. simpl. intros e' [Hi| ->%list_elem_of_singleton]%elem_of_app; [|done].
      apply elem_of_retain in Hi as [Hi Hs]. intros Heq.
      pose proof (registration_elem r e' Hn Hi) as H1. rewrite Heq, He in H1. simplify_eq.
      by rewrite Es in Hs.
    + symmetry. by apply has_session_spec.
    + eexists. split; [done|]. apply list_elem_of_fmap. exists e. split; [done|].
      by apply elem_of_retain.
  - left. apply registration_elem; [done|]. simpl. apply elem_of_app. left.
    apply elem_of_retain. by rewrite Es.
Qed.

Lemma unregister_token_keeps r s t e :
  registry_wf r → registration r t = Some e →
  registration (unregister r s).1 t = Some e ∨
  (registration (unregister r s).1 t = None ∧ session e = s ∧ t ∈ (unregister r s).2).
Proof.
  intros Hr He. pose proof (unregister_wf r s Hr) as (Hn' & _). destruct Hr as (Hn & _).
  pose proof (registration_Some _ _ _ He) as [Hin <-]. destruct (has_session s e) eqn:Es.
  - right. split_and!; [|by apply has_session_spec|].
    + apply registration_None. simpl. intros e' [Hi Hs]%elem_of_retain Heq.
      pose proof (registration_elem r e' Hn Hi) as H1. rewrite Heq, He in H1. simplify_eq.
      by rewrite Es in Hs.
    + apply list_elem_of_fmap. exists e. split; [done|]. by apply elem_of_retain.
  - left. apply registration_elem; [done|]. simpl. apply elem_of_retain. by rewrite Es.
Qed.

(** The operations that end the session an entry belongs to. *)
Definition ends_session e (op : registry_op) : bool :=
  match op with
  | OpRegister new => bool_decide (session new = session e ∧ token new ≠ token e)
  | OpUnregister s => bool_decide (s = session e)
  | OpResolve _ _ _ => false
  end.

Lemma op_token_keeps `{PeerContainment P} r op t e :
  registry_wf r → registration r t = Some e → ends_session e op = false →
  registration (run_registry_op r op) t = Some e.
Proof.
  intros Hr He Hop. destruct op as [new|s|t' tty caller]; simpl in *; bool_to_prop.
  - destruct (register_token_keeps r new t e Hr He) as [?|(Hnone & Hs & displaced & Hd & Hin)]; [done|].
    destruct (decide (token new = token e)) as [Ht|]; [|by destruct Hop].
    pose proof (registration_Some _ _ _ He) as [Hi <-]. revert Hnone. unfold register.
    assert (existsb (has_token (token new)) (sessions r) = true) as ->.
    { apply existsb_elem. exists e. by rewrite has_token_spec. }
    case_match; simpl; congruence.
  - destruct (unregister_token_keeps r s t e Hr He) as [?|(_ & Hs & _)]; [done|]. congruence.
  - unfold registration. by rewrite resolve_sessions.
Qed.

Lemma run_token_keeps `{PeerContainment P} r ops t e :
  registry_wf r → registration r t = Some e →
  forallb (λ op, negb (ends_session e op)) ops = true →
  registration (run_registry r ops) t = Some e.
Proof.
  unfold run_registry. revert r. induction ops as [|op ops IH]; intros r Hr He Ho; [done|].
  simpl in *. bool_to_prop. apply IH; [|by apply op_token_keeps|done].
  apply (run_registry_wf r [op] Hr).
Qed.

Lemma op_agent_tty `{PeerContainment P} r op tty :
  is_agent_tty r tty = true → is_agent_tty (run_registry_op r op) tty = true.
Proof.
  intros Ht. assert (∀ tty', is_agent_tty (learn_tty r tty') tty = true) as Hl.
  { intros [t|]; simpl; [|done]. case_bool; [|done]. unfold is_agent_tty in *. simpl.
    by rewrite existsb_app, Ht. }
  destruct op as [new|s|t tty' caller]; simpl; [|done|].
  - unfold register. repeat case_match; done.
  - unfold resolve. repeat case_match; done || apply Hl.
Qed.

Lemma run_agent_tty `{PeerContainment P} r ops tty :
  is_agent_tty r tty = true → is_agent_tty (run_registry r ops) tty = true.
Proof.
  unfold run_registry. revert r. induction ops as [|op ops IH]; intros r Hr; [done|].
  apply IH. by apply op_agent_tty.
Qed.

Lemma resolve_agent_tty `{PeerContainment P} r tty any :
  is_agent_tty r tty = true → (resolve r None (Some tty) any).2 = Err AgentTty.
Proof. unfold resolve. by intros ->. Qed.

End registry_properties.
Arguments registry_op P : clear implicits.

(** A token stays bound to the process that registered it.  From daemon
    start, whatever is registered, unregistered or resolved, an entry found for
    a token is still the one found, with the same pinned root, until that very
    session is unregistered or moves to a different token: presenting the
    token again never replaces its root. *)
Lemma registry_token_binding {P} `{PeerContainment P} boot ops later t e :
  registration (run_registry (Registry_new (P:=P) boot) ops) t = Some e →
  forallb (λ op, negb (ends_session e op)) later = true →
  registration (run_registry (Registry_new (P:=P) boot) (ops ++ later)%list) t = Some e.
Proof.
  intros He Hl. unfold run_registry. rewrite fold_left_app. apply run_token_keeps; [|done..].
  apply run_registry_wf, Registry_new_wf.
Qed.

(** A toy containment: peer [p] descends from [r] when [r] divides it. *)
Definition demo_containment : PeerContainment Z.
Proof.
  refine {| descends_from := λ p r, (0 <? p)%Z && (0 <? r)%Z && (p mod r =? 0)%Z;
            is_alive := λ p, (0 <? p)%Z |}.
  intros p r H. apply andb_true_iff in H as [H _]. by apply andb_true_iff in H.
Defined.

Lemma registry_token_binding_witness :
  registration (@run_registry Z demo_containment (Registry_new "boot")
    [OpRegister {| token := "T"; session := "s"; root := 2%Z |};
     OpRegister {| token := "T"; session := "s"; root := 3%Z |};
     OpRegister {| token := "U"; session := "other"; root := 5%Z |}]) "T" =
  Some {| token := "T"; session := "s"; root := 2%Z |}.
Proof.
  apply (@registry_token_binding Z demo_containment "boot"
    [OpRegister {| token := "T"; session := "s"; root := 2%Z |}]
    [OpRegister {| token := "T"; session := "s"; root := 3%Z |};
     OpRegister {| token := "U"; session := "other"; root := 5%Z |}]); by vm_compute.
Defined.

(** A token is not a bearer credential.  A request that presents a token
    gets a scope exactly when the token is registered and the caller is known
    and descends from the process that registered it, and the scope is then
    that session and nothing else; the caller and that process are alive. *)
Lemma resolve_session_spec {P} `{PeerContainment P} (r : Registry P) t tty caller scope :
  (resolve r (Some t) tty caller).2 = Ok scope ↔
  scope = Session t ∧ ∃ e c, registration r t = Some e ∧ caller = Some c ∧
    descends_from c (root e) = true ∧ is_alive c = true ∧ is_alive (root e) = true.
Proof.
  unfold resolve, registration. destruct (List.find _ _) as [e|]; simpl.
  - destruct caller as [c|]; simpl.
    + destruct (descends_from c (root e)) eqn:E; simpl.
      * pose proof (descends_alive _ _ E) as [??]. split; [intros [= <-]; eauto 10|].
        intros (-> & _). done.
      * split; [done|]. intros (_ & ? & ? & ? & ? & ? & _). congruence.
    + split; [done|]. by intros (_ & ? & ? & _ & ? & _).
  - split; [done|]. by intros (_ & ? & ? & ? & _).
Qed.

(** A terminal that carried agent traffic never counts as a human's
    again.  Once a request resolved with a token on that terminal, every later
    request from it without a token is refused. *)
Lemma agent_tty_stays {P} `{PeerContainment P} (r : Registry P) t tty caller scope later any :
  (resolve r (Some t) (Some tty) caller).2 = Ok scope →
  (resolve (run_registry r (OpResolve (Some t) (Some tty) caller :: later)) None (Some tty) any).2
    = Err AgentTty.
Proof.
  intros Hok. assert (is_agent_tty (resolve r (Some t) (Some tty) caller).1 tty = true) as Ht.
  { revert Hok. unfold resolve. destruct (root <$> _); [|done]. case_bool; [done|].
    intros _. simpl. unfold is_agent_tty. case_bool; [|done]. simpl. rewrite existsb_app. simpl.
    rewrite bool_decide_eq_true_2 by done. by rewrite orb_true_r. }
  apply resolve_agent_tty. apply (run_agent_tty _ later tty Ht).
Qed.

Lemma agent_tty_stays_witness :
  (@resolve Z demo_containment (@run_registry Z demo_containment
    {| sessions := [{| token := "T"; session := "s"; root := 2%Z |}]; agent_ttys := []; boot_id := "b" |}
    [OpResolve (Some "T") (Some "/dev/pts/3") (Some 6%Z); OpUnregister "s"])
    None (Some "/dev/pts/3") (Some 7%Z)).2 = Err AgentTty.
Proof.
  apply (@agent_tty_stays Z demo_containment _ "T" "/dev/pts/3" (Some 6%Z) (Session "T")).
  by vm_compute.
Defined.

(** * The grant table as a map *)
Section table_properties.
Import Table.
Implicit Types (t : GrantTable) (g : Grant).

Definition grant_key g : Scope * string := (g_scope g, g_key g).

(** What a grant says apart from whose it is. *)
Definition grant_facts g : string * GrantOrigin * Z * Z :=
  (g_value g, g_origin g, g_created g, g_ttl g).

(** The table invariant: one grant per scope and key. *)
Definition table_wf t : Prop := NoDup (grant_key <$> t).

(** The abstract table: a finite map from scope and key to a grant. *)
Definition abs t : gmap (Scope * string) (string * GrantOrigin * Z * Z) :=
  list_to_map ((λ g, (grant_key g, grant_facts g)) <$> t).

Lemma abs_lookup t k f :
  table_wf t → abs t !! k = Some f ↔ ∃ g, g ∈ t ∧ grant_key g = k ∧ grant_facts g = f.
Proof.
  intros Ht. unfold abs. rewrite <-elem_of_list_to_map.
  - rewrite list_elem_of_fmap. split; [intros (g & [= -> ->] & ?); eauto|].
    intros (g & ? & <- & <-). eauto.
  - by rewrite <-list_fmap_compose.
Qed.

Lemma table_wf_unique t g1 g2 :
  table_wf t → g1 ∈ t → g2 ∈ t → grant_key g1 = grant_key g2 → g1 = g2.
Proof.
  unfold table_wf. induction t as [|g t IH]; intros Hn H1 H2 Hk; [by apply not_elem_of_nil in H1|].
  csimpl in Hn. apply NoDup_cons in Hn as [Hg Hn].
  apply elem_of_cons in H1 as [->|H1], H2 as [->|H2]; try done.
  - destruct Hg. rewrite Hk. by apply list_elem_of_fmap_2.
  - destruct Hg. rewrite <-Hk. by apply list_elem_of_fmap_2.
  - by apply IH.
Qed.

Lemma retain_wf p t : table_wf t → table_wf (retain p t).
Proof. apply NoDup_fmap_retain. Qed.

(** Every revocation is [retain], and [retain] on a test of the grant's
    owner and facts is [filter] on the map. *)
Lemma abs_retain p (Q : (Scope * string) * (string * GrantOrigin * Z * Z) → Prop)
    `{∀ x, Decision (Q x)} t :
  table_wf t → (∀ g, p g = true ↔ Q (grant_key g, grant_facts g)) →
  abs (retain p t) = filter Q (abs t).
Proof.
  intros Ht Hp. apply map_eq. intros k. apply option_eq. intros f.
  rewrite map_lookup_filter_Some, !abs_lookup by first [done|by apply retain_wf].
  setoid_rewrite elem_of_retain. setoid_rewrite Hp. split.
  - intros (g & [? ?] & <- & <-). eauto.
  - intros [(g & ? & <- & <-) ?]. eauto.
Qed.

Lemma grant_for_spec scope key g : grant_for scope key g = true ↔ grant_key g = (scope, key).
Proof.
  unfold grant_for, grant_key. rewrite andb_true_iff, !bool_decide_eq_true.
  split; [intros [-> ->]; done|intros [= -> ->]; done].
Qed.

Lemma insert_wf t scope key value created origin ttl :
  table_wf t → table_wf (insert t scope key value created origin ttl).
Proof.
  intros Ht. unfold insert, table_wf. rewrite fmap_app. apply NoDup_app.
  split; [by apply NoDup_fmap_retain|]. split; [|apply NoDup_singleton].
  intros k (g & -> & [_ Hg]%elem_of_retain)%list_elem_of_fmap Hk%list_elem_of_singleton.
  by rewrite (proj2 (grant_for_spec scope key g)) in Hg.
Qed.

Lemma abs_insert t scope key value created origin ttl :
  table_wf t →
  abs (insert t scope key value created origin ttl) =
  <[(scope, key) := (value, origin, created, ttl)]> (abs t).
Proof.
  intros Ht. apply map_eq. intros k. apply option_eq. intros f.
  rewrite lookup_insert_Some, !abs_lookup by first [done|by apply insert_wf].
  unfold insert. setoid_rewrite elem_of_app. setoid_rewrite elem_of_retain.
  setoid_rewrite list_elem_of_singleton. split.
  - intros (g & [[Hin Hg]| ->] & <- & <-); [right|left; done].
    split; [|eauto]. intros Hk. by rewrite (proj2 (grant_for_spec scope key g)) in Hg.
  - intros [[<- <-]|(Hne & g & Hin & <- & <-)]; [eexists; eauto|].
    exists g. split; [left; split; [done|]|done]. apply negb_true_iff, not_true_iff_false.
    rewrite grant_for_spec. congruence.
Qed.

Lemma abs_revoke t scope key : table_wf t → abs (revoke t scope key) = delete (scope, key) (abs t).
Proof.
  intros Ht. apply map_eq. intros k. apply option_eq. intros f.
  rewrite lookup_delete_Some, !abs_lookup by first [done|by apply retain_wf].
  unfold revoke. setoid_rewrite elem_of_retain. split.
  - intros (g & [Hin Hg] & <- & <-). split; [|eauto]. intros Hk.
    by rewrite (proj2 (grant_for_spec scope key g)) in Hg.
  - intros (Hne & g & Hin & <- & <-). exists g. split_and!; try done.
    apply negb_true_iff, not_true_iff_false. rewrite grant_for_spec. congruence.
Qed.

Lemma find_abs t scope key :
  table_wf t → grant_facts <$> List.find (grant_for scope key) t = abs t !! (scope, key).
Proof.
  intros Ht. destruct (List.find _ t) as [g|] eqn:E; symmetry.
  - apply find_Some in E as [? ?%grant_for_spec]. apply abs_lookup; eauto.
  - apply eq_None_not_Some. intros [f (g & Hg & Hk & _)%abs_lookup]; [|done].
    rewrite find_None in E. specialize (E g Hg).
    by rewrite (proj2 (grant_for_spec scope key g)) in E.
Qed.

Definition facts_fresh (now : Z) (f : string * GrantOrigin * Z * Z) : bool :=
  (Time.duration_since now f.1.2 <? f.2)%Z.

Lemma find_fresh t scope key now :
  table_wf t →
  List.find (λ g, grant_for scope key g && grant_fresh now g) t =
  g ← List.find (grant_for scope key) t; if grant_fresh now g then Some g else None.
Proof.
  intros Ht. destruct (List.find (grant_for scope key) t) as [g|] eqn:E; simpl.
  - apply find_Some in E as [Hin Hg]. destruct (grant_fresh now g) eqn:Ef.
    + apply find_unique; [done|by rewrite Hg|]. intros y Hy Hp. bool_to_prop.
      apply (table_wf_unique t); [done..|]. rewrite grant_for_spec in *. congruence.
    + apply find_None. intros y Hy. apply not_true_iff_false. intros Hp. bool_to_prop.
      rewrite grant_for_spec in *. assert (y = g) as ->; [|congruence].
      apply (table_wf_unique t); [done..|congruence].
  - apply find_None. intros y Hy. rewrite find_None in E. by rewrite E.
Qed.

Lemma lookup_abs t scope key now :
  table_wf t →
  lookup t scope key now =
  f ← abs t !! (scope, key);
  if facts_fresh now f then Some (f.1.1.1, go_source f.1.1.2, go_identity f.1.1.2) else None.
Proof.
  intros Ht. unfold lookup. rewrite find_fresh, <-find_abs by done.
  destruct (List.find _ t) as [g|]; simpl; [|done].
  change (grant_fresh now g) with (facts_fresh now (grant_facts g)).
  by destruct (facts_fresh now _).
Qed.

(** The sweep leaves exactly the grants a lookup would still find. *)
Lemma revoke_expired_lookup t scope key now :
  table_wf t → lookup (revoke_expired t now).1 scope key now = lookup t scope key now.
Proof.
  intros _. unfold lookup, revoke_expired. simpl. rewrite find_retain; [done|].
  intros g Hg. by bool_to_prop.
Qed.

Lemma lookup_remaining t scope key now v :
  table_wf t → lookup t scope key now = Some v →
  ∃ s, remaining_secs t scope key now = Some s ∧ (0 <= s)%Z.
Proof.
  intros Ht. unfold lookup, remaining_secs. rewrite find_fresh by done.
  destruct (List.find (grant_for scope key) t) as [g|]; simpl; [|done].
  destruct (grant_fresh now g) eqn:Ef; [|done]. intros _.
  unfold grant_fresh in Ef. unfold Time.duration_checked_sub. bool_to_prop.
  destruct (Z.leb_spec (Time.duration_since now (g_created g)) (g_ttl g)); [|lia].
  eexists. split; [done|]. apply Z.div_pos; unfold Time.nanos_per_sec; lia.
Qed.
End table_properties.

Definition outside_tokens (tokens : list string) (s : Scope) : Prop :=
  match s with Session tok => tok ∉ tokens | Tty _ _ => True end.

Definition terminal_present (exists_path : string → bool) (s : Scope) : Prop :=
  match s with Session _ => True | Tty tty _ => exists_path tty = true end.

#[global] Instance outside_tokens_dec tokens s : Decision (outside_tokens tokens s).
Proof. destruct s; simpl; apply _. Defined.

#[global] Instance terminal_present_dec exists_path s : Decision (terminal_present exists_path s).
Proof. destruct s; simpl; apply _. Defined.

(** C34: the grant table implements a finite map from scope and key to a
    released value.  Every operation keeps at most one grant per scope and
    key, insertion overwrites, each revocation removes exactly the entries it
    names, and a lookup reads the map and then checks the grant's own age. *)
Theorem grant_table_refines_map t scope key value created origin ttl tokens now exists_path :
  table_wf t →
  (table_wf (Table.insert t scope key value created origin ttl) ∧
   abs (Table.insert t scope key value created origin ttl) =
     <[(scope, key) := (value, origin, created, ttl)]> (abs t)) ∧
  (table_wf (Table.revoke t scope key) ∧
   abs (Table.revoke t scope key) = delete (scope, key) (abs t)) ∧
  (table_wf (Table.revoke_scope t scope) ∧
   abs (Table.revoke_scope t scope) = filter (λ x, x.1.1 ≠ scope) (abs t)) ∧
  (table_wf (Table.revoke_tokens t tokens) ∧
   abs (Table.revoke_tokens t tokens) =
     filter (λ x, outside_tokens tokens x.1.1) (abs t)) ∧
  (table_wf (Table.revoke_expired t now).1 ∧
   abs (Table.revoke_expired t now).1 = filter (λ x, facts_fresh now x.2 = true) (abs t)) ∧
  (table_wf (Table.revoke_missing_ttys exists_path t) ∧
   abs (Table.revoke_missing_ttys exists_path t) =
     filter (λ x, terminal_present exists_path x.1.1) (abs t)) ∧
  abs (Table.revoke_all t) = ∅ ∧
  Table.lookup t scope key now =
    (f ← abs t !! (scope, key);
     if facts_fresh now f then Some (f.1.1.1, go_source f.1.1.2, go_identity f.1.1.2) else None).
Proof.
  intros Ht. split_and!; try by apply retain_wf.
  - by apply insert_wf.
  - by apply abs_insert.
  - by apply abs_revoke.
  - apply abs_retain; [done|]. intros g. simpl. by rewrite negb_true_iff, bool_decide_eq_false.
  - apply abs_retain; [done|]. intros g. simpl.
    destruct (g_scope g); [|done]. by rewrite negb_true_iff, bool_decide_eq_false.
  - by apply abs_retain.
  - apply abs_retain; [done|]. intros g. simpl. by destruct (g_scope g).
  - done.
  - by apply lookup_abs.
Qed.

Definition demo_origin : GrantOrigin :=
  {| go_source := "main";
     go_identity := {| device := 1; inode := 2; size := 3;
       modified := {| seconds := 4; nanoseconds := 5 |};
       changed := {| seconds := 6; nanoseconds := 7 |} |} |}.

Definition demo_table : GrantTable :=
  [{| g_scope := Session "T"; g_key := "K"; g_value := "v"; g_origin := demo_origin;
      g_created := 10; g_ttl := Time.from_secs 60 |};
   {| g_scope := Tty "/dev/pts/1" "b"; g_key := "K"; g_value := "w"; g_origin := demo_origin;
      g_created := 20; g_ttl := Time.from_secs 5 |}].

Lemma grant_table_refines_map_witness :
  abs (Table.insert demo_table (Session "T") "K" "new" 30 demo_origin 7) =
    <[(Session "T", "K") := ("new", demo_origin, 30%Z, 7%Z)]> (abs demo_table).
Proof.
  apply (grant_table_refines_map demo_table (Session "T") "K" "new" 30 demo_origin 7 [] 0 (λ _, true)).
  apply (bool_decide_unpack _). by vm_compute.
Defined.

(** A grant's lifetime is a hard bound on every read.  A lookup that
    releases a value at [now] has a grant for exactly that scope and key which
    is younger than its own lifetime, whether or not the periodic sweep has
    run, and the whole seconds reported as remaining never exceed what is
    left. *)
Lemma grant_lifetime t scope key now v :
  table_wf t → Table.lookup t scope key now = Some v →
  ∃ g secs, g ∈ t ∧ g_scope g = scope ∧ g_key g = key ∧ v.1.1 = g_value g ∧
    (now - g_created g < g_ttl g)%Z ∧
    Table.lookup (Table.revoke_expired t now).1 scope key now = Some v ∧
    Table.remaining_secs t scope key now = Some secs ∧
    (0 <= secs)%Z ∧ (now + Time.from_secs secs <= g_created g + g_ttl g ∨ now < g_created g)%Z.
Proof.
  intros Ht Hl. destruct (lookup_remaining _ _ _ _ _ Ht Hl) as (secs & Hr & Hpos).
  pose proof Hl as Hl'. rewrite <-(revoke_expired_lookup t scope key now Ht) in Hl'.
  pose proof Hr as Hr'. unfold Table.lookup in Hl. rewrite find_fresh in Hl by done.
  unfold Table.remaining_secs in Hr'.
  destruct (List.find (Table.grant_for scope key) t) as [g|] eqn:E; simpl in Hl, Hr'; [|done].
  destruct (Table.grant_fresh now g) eqn:Ef; [|done]. simplify_eq/=.
  apply find_Some in E as [Hin Hg]. apply grant_for_spec in Hg. injection Hg as Hs Hk.
  exists g, secs. unfold Table.grant_fresh, Time.duration_since in *. bool_to_prop.
  split_and!; try done; [lia|].
  unfold Time.duration_checked_sub in Hr'. case_bool; [|done].
  change (Some ?x ≫= ?f) with (f x) in Hr'. simpl in Hr'. injection Hr' as <-.
  unfold Time.from_secs, Time.as_secs, Time.nanos_per_sec in *.
  pose proof (Z.mul_div_le (g_ttl g - Z.max (now - g_created g) 0) 1000000000). lia.
Qed.

Lemma grant_lifetime_witness :
  ∃ g secs, g ∈ demo_table ∧ g_scope g = Session "T" ∧ g_key g = "K" ∧ "v" = g_value g ∧
    (500 - g_created g < g_ttl g)%Z ∧
    Table.lookup (Table.revoke_expired demo_table 500).1 (Session "T") "K" 500 =
      Some ("v", "main", go_identity demo_origin) ∧
    Table.remaining_secs demo_table (Session "T") "K" 500 = Some secs ∧
    (0 <= secs)%Z ∧ (500 + Time.from_secs secs <= g_created g + g_ttl g ∨ 500 < g_created g)%Z.
Proof.
  apply (grant_lifetime demo_table (Session "T") "K" 500 ("v", "main", go_identity demo_origin)).
  - apply (bool_decide_unpack _). by vm_compute.
  - by vm_compute.
Defined.
