(* ===== verification/Requests.v ===== *)
(** The approval queue: [crates/secrets/src/requests].

    Requests wait for their turn at the hardware token, one decrypt is in
    flight at a time, and a request that was denied or timed out can no longer
    be completed.  Instants are arguments: the source reads the clock at each
    call, and [deny] reads it itself. *)

From stdpp Require Import prelude strings list.
From Stdlib Require Import ZArith Lia Ascii.
From S2P Require Import Prelude Text Wire Secret Grants.

Local Open Scope string_scope.

(** * Data *)
Definition RequestId : Type := Z.
Bind Scope Z_scope with RequestId.

Module RequestState.

Inductive RequestState : Type := Pending | Decrypting | Granted | Denied | TimedOut | Failed.

#[global] Instance RequestState_eq_dec : EqDecision RequestState.
Proof. solve_decision. Defined.

End RequestState.
Notation RequestState := RequestState.RequestState.

Record QueueLimits : Type := { cooldown : Z; ttl : Z; max_pending_per_scope : Z }.

Record PendingRequest : Type := {
  r_id : RequestId; r_scope : Scope; r_key : string; r_state : RequestState;
  r_generation : Z; r_created : Z; r_requested_ttl : option Z;
}.

Record Queue : Type := {
  requests : list PendingRequest; limits : QueueLimits; next_id : Z;
  q_generation : Z; inflight : option RequestId; last_finished : option Z;
}.

Definition Queue_new (l : QueueLimits) : Queue :=
  {| requests := []; limits := l; next_id := 1; q_generation := 0;
     inflight := None; last_finished := None |}.

Definition set_requests (q : Queue) (l : list PendingRequest) : Queue :=
  {| requests := l; limits := limits q; next_id := next_id q; q_generation := q_generation q;
     inflight := inflight q; last_finished := last_finished q |}.

Definition set_state (s : RequestState) (r : PendingRequest) : PendingRequest :=
  {| r_id := r_id r; r_scope := r_scope r; r_key := r_key r; r_state := s; r_generation := r_generation r;
     r_created := r_created r; r_requested_ttl := r_requested_ttl r |}.

(** Leaving the queue early also invalidates the running decrypt. *)
Definition invalidate (s : RequestState) (r : PendingRequest) : PendingRequest :=
  {| r_id := r_id r; r_scope := r_scope r; r_key := r_key r; r_state := s;
     r_generation := saturating_add_u64 (r_generation r) 1;
     r_created := r_created r; r_requested_ttl := r_requested_ttl r |}.

Definition is_active (s : RequestState) : bool :=
  match s with RequestState.Pending | RequestState.Decrypting => true | _ => false end.

Definition has_id (i : RequestId) (r : PendingRequest) : bool := (r_id r =? i)%Z.

Definition same_request (s : Scope) (k : string) (r : PendingRequest) : bool :=
  bool_decide (r_scope r = s) && bool_decide (r_key r = k) && is_active (r_state r).

(** What a new request is counted against: a capability request only against
    the capability requests of its scope. *)
Definition counts_against (s : Scope) (capability : bool) (r : PendingRequest) : bool :=
  bool_decide (r_scope r = s) && (negb capability || is_capability_key (r_key r)) && is_active (r_state r).

(** * Operations *)
Definition enqueue (q : Queue) (s : Scope) (k : string) (now : Z) (rttl : option Z) :
    Queue * result ErrCode RequestId :=
  let capability := is_capability_key k in
  match (if negb capability then List.find (same_request s k) (requests q) else None) with
  | Some existing => (q, Ok (r_id existing))
  | None =>
      let active := Z.of_nat (length (retain (counts_against s capability) (requests q))) in
      let limit := if capability then 1%Z else max_pending_per_scope (limits q) in
      if (limit <=? active)%Z then (q, Err TooManyPending) else
      let r := {| r_id := next_id q; r_scope := s; r_key := k; r_state := RequestState.Pending; r_generation := 0;
                  r_created := now; r_requested_ttl := rttl |} in
      ({| requests := (requests q ++ [r])%list; limits := limits q;
          next_id := saturating_add_u64 (next_id q) 1; q_generation := q_generation q;
          inflight := inflight q; last_finished := last_finished q |},
       Ok (next_id q))
  end.

(** Whether the hardware is still cooling down after the last decrypt. *)
Definition cooling (q : Queue) (now : Z) : bool :=
  is_some_and (λ last, is_some_and (λ elapsed, (elapsed <? cooldown (limits q))%Z)
                         (Time.checked_duration_since now last)) (last_finished q).

Definition next_ready (q : Queue) (now : Z) : option RequestId :=
  if is_some (inflight q) then None else
  if cooling q now then None else
  r_id <$> List.find (λ r, bool_decide (r_state r = RequestState.Pending)) (requests q).

Definition start_decrypt (g : Z) (r : PendingRequest) : PendingRequest :=
  {| r_id := r_id r; r_scope := r_scope r; r_key := r_key r; r_state := RequestState.Decrypting; r_generation := g;
     r_created := r_created r; r_requested_ttl := r_requested_ttl r |}.

Definition mark_decrypting (q : Queue) (i : RequestId) (now : Z) : Queue * option Z :=
  if is_some (inflight q) || cooling q now then (q, None) else
  match List.find (has_id i) (requests q) with
  | None => (q, None)
  | Some r =>
      if negb (bool_decide (r_state r = RequestState.Pending)) then (q, None) else
      let g := saturating_add_u64 (q_generation q) 1 in
      ({| requests := update_first (has_id i) (start_decrypt g) (requests q); limits := limits q;
          next_id := next_id q; q_generation := g; inflight := Some i;
          last_finished := last_finished q |},
       Some g)
  end.

Definition finish (q : Queue) (i : RequestId) (now : Z) : Queue :=
  {| requests := requests q; limits := limits q; next_id := next_id q;
     q_generation := q_generation q;
     inflight := if bool_decide (inflight q = Some i) then None else inflight q;
     last_finished := Some now |}.

Definition complete (q : Queue) (i : RequestId) (g now : Z) : Queue * bool :=
  let still_current :=
    existsb (λ r, has_id i r && (r_generation r =? g)%Z && bool_decide (r_state r = RequestState.Decrypting))
      (requests q) in
  let q1 := if still_current
            then set_requests q (update_first (has_id i) (set_state RequestState.Granted) (requests q))
            else q in
  (finish q1 i now, still_current).

Definition fail (q : Queue) (i : RequestId) (now : Z) : Queue :=
  finish (set_requests q (update_first (has_id i) (set_state RequestState.Failed) (requests q))) i now.

(** The shared shape of [timeout] and [deny]. *)
Definition end_early (s : RequestState) (q : Queue) (i : RequestId) (now : Z) : Queue * bool :=
  match List.find (has_id i) (requests q) with
  | None => (q, false)
  | Some r =>
      if is_active (r_state r) then
        (finish (set_requests q (update_first (has_id i) (invalidate s) (requests q))) i now, true)
      else (q, false)
  end.

Definition timeout (q : Queue) (i : RequestId) (now : Z) : Queue * bool :=
  end_early RequestState.TimedOut q i now.

Definition deny (q : Queue) (i : RequestId) (real_now : Z) : Queue * bool :=
  end_early RequestState.Denied q i real_now.

Definition overdue (q : Queue) (now : Z) (r : PendingRequest) : bool :=
  is_active (r_state r) &&
  is_some_and (λ elapsed, (ttl (limits q) <? elapsed)%Z) (Time.checked_duration_since now (r_created r)).

Definition sweep_timeouts (q : Queue) (now : Z) : Queue * list RequestId :=
  let expired := r_id <$> retain (overdue q now) (requests q) in
  let swept := (λ r, if overdue q now r then invalidate RequestState.TimedOut r else r) <$> requests q in
  (fold_left (λ q i, finish q i now) expired (set_requests q swept), expired).

Definition state_of (q : Queue) (i : RequestId) : option RequestState :=
  r_state <$> List.find (has_id i) (requests q).

Definition describe (q : Queue) (i : RequestId) : option (Scope * string * option Z) :=
  (λ r, (r_scope r, r_key r, r_requested_ttl r)) <$> List.find (has_id i) (requests q).

Definition is_idle (q : Queue) : bool := negb (existsb (λ r, is_active (r_state r)) (requests q)).

Definition prune (q : Queue) (now : Z) : Queue :=
  let horizon := Time.duration_saturating_mul (ttl (limits q)) 2 in
  set_requests q
    (retain (λ r, is_active (r_state r) ||
       is_some_and (λ elapsed, (elapsed <? horizon)%Z)
         (Time.checked_duration_since now (r_created r))) (requests q)).

(** * The queue and the worker's ticket

    One worker thread drives the hardware: it takes a ticket with
    [mark_decrypting] and gives it back with [complete] or [fail].  Clients
    enqueue, deny and time requests out at any moment in between. *)
Record desk : Type := { d_queue : Queue; d_ticket : option (RequestId * Z) }.

Inductive queue_op : Type :=
| QEnqueue (s : Scope) (k : string) (now : Z) (rttl : option Z)
| QTimeout (i : RequestId) (now : Z)
| QDeny (i : RequestId) (now : Z)
| QSweep (now : Z)
| QPrune (now : Z)
| QMark (i : RequestId) (now : Z)
| QComplete (now : Z)
| QFail (now : Z).

Definition run_op (d : desk) (op : queue_op) : desk :=
  let q := d_queue d in
  let keep q' := {| d_queue := q'; d_ticket := d_ticket d |} in
  match op with
  | QEnqueue s k now rttl => keep (enqueue q s k now rttl).1
  | QTimeout i now => keep (timeout q i now).1
  | QDeny i now => keep (deny q i now).1
  | QSweep now => keep (sweep_timeouts q now).1
  | QPrune now => keep (prune q now)
  | QMark i now =>
      match d_ticket d with
      | Some _ => d
      | None => let '(q', g) := mark_decrypting q i now in
                {| d_queue := q'; d_ticket := pair i <$> g |}
      end
  | QComplete now =>
      match d_ticket d with
      | Some (i, g) => {| d_queue := (complete q i g now).1; d_ticket := None |}
      | None => d
      end
  | QFail now =>
      match d_ticket d with
      | Some (i, g) => {| d_queue := fail q i now; d_ticket := None |}
      | None => d
      end
  end.

Definition run_desk (d : desk) (ops : list queue_op) : desk := fold_left run_op ops d.

Definition desk_new (l : QueueLimits) : desk := {| d_queue := Queue_new l; d_ticket := None |}.

(** * Lists of requests *)
Implicit Types (r : PendingRequest) (l : list PendingRequest) (q : Queue).

Lemma has_id_spec i r : has_id i r = true ↔ r_id r = i.
Proof. unfold has_id. apply Z.eqb_eq. Qed.

Lemma find_id_Some i l r : List.find (has_id i) l = Some r → r ∈ l ∧ r_id r = i.
Proof. intros [? ?%has_id_spec]%find_Some. done. Qed.

Lemma ids_unique l r1 r2 : NoDup (r_id <$> l) → r1 ∈ l → r2 ∈ l → r_id r1 = r_id r2 → r1 = r2.
Proof.
  induction l as [|r l IH]; intros Hn H1 H2 Hk; [by apply not_elem_of_nil in H1|].
  csimpl in Hn. apply NoDup_cons in Hn as [Hr Hn].
  apply elem_of_cons in H1 as [->|H1], H2 as [->|H2]; try done.
  - destruct Hr. rewrite Hk. by apply list_elem_of_fmap_2.
  - destruct Hr. rewrite <-Hk. by apply list_elem_of_fmap_2.
  - by apply IH.
Qed.

Lemma find_id_elem l r : NoDup (r_id <$> l) → r ∈ l → List.find (has_id (r_id r)) l = Some r.
Proof.
  intros Hn Hr. apply find_unique; [done|by apply has_id_spec|].
  intros y Hy Hi%has_id_spec. by apply (ids_unique l).
Qed.

(** With unique ids, a mutation through a search is a map. *)
Definition at_id (i : RequestId) (f : PendingRequest → PendingRequest) r : PendingRequest :=
  if has_id i r then f r else r.

Lemma update_first_at_id i f l :
  NoDup (r_id <$> l) → update_first (has_id i) f l = at_id i f <$> l.
Proof.
  induction l as [|r l IH]; [done|]. csimpl. intros [Hr Hn]%NoDup_cons. unfold at_id at 1.
  destruct (has_id i r) eqn:E; [|by rewrite IH].
  f_equal. rewrite <-(list_fmap_id l) at 1. apply list_fmap_ext. intros j x Hx.
  unfold at_id. destruct (has_id i x) eqn:Ex; [|done].
  apply has_id_spec in E, Ex. destruct Hr. rewrite E, <-Ex.
  apply list_elem_of_fmap_2. by eapply list_elem_of_lookup_2.
Qed.

Lemma elem_of_at_id i f l y :
  y ∈ at_id i f <$> l ↔ ∃ r, r ∈ l ∧ y = (if has_id i r then f r else r).
Proof. rewrite list_elem_of_fmap. unfold at_id. naive_solver. Qed.

Lemma fold_finish ids q now :
  let q' := fold_left (λ q i, finish q i now) ids q in
  requests q' = requests q ∧ limits q' = limits q ∧ next_id q' = next_id q ∧
  inflight q' =
    (if is_some_and (λ i, bool_decide (i ∈ ids)) (inflight q) then None else inflight q).
Proof.
  simpl. revert q. induction ids as [|i ids IH]; intros q; simpl.
  { split_and!; try done. by destruct (inflight q). }
  destruct (IH (finish q i now)) as (-> & -> & -> & ->). split_and!; try done. simpl.
  destruct (inflight q) as [j|]; simpl; [|done].
  case_bool_decide as Ei; simplify_eq/=.
  - by rewrite bool_decide_eq_true_2 by constructor.
  - assert (bool_decide (j ∈ i :: ids) = bool_decide (j ∈ ids)) as ->; [|done].
    apply bool_decide_ext. rewrite elem_of_cons. naive_solver.
Qed.

(** * The invariant *)

(** Ids are unique and below the next one; the decrypting request, the
    in-flight marker and the worker's ticket agree. *)
Definition ids_wf q : Prop :=
  NoDup (r_id <$> requests q) ∧ (1 <= next_id q <= u64_max)%Z ∧
  ∀ r, r ∈ requests q → (1 <= r_id r < next_id q)%Z.

Definition flight_wf l (fl : option RequestId) (ticket : option (RequestId * Z)) : Prop :=
  (∀ r, r ∈ l → r_state r = RequestState.Decrypting →
    fl = Some (r_id r) ∧ ticket = Some (r_id r, r_generation r)) ∧
  (∀ i, fl = Some i → ∃ r, r ∈ l ∧ r_id r = i ∧ r_state r = RequestState.Decrypting).

(** The pending limits: per scope, one active capability request, and no
    more active others than configured. *)
Definition active_in l (s : Scope) (capability : bool) : list PendingRequest :=
  retain (λ r, bool_decide (r_scope r = s) && Bool.eqb (is_capability_key (r_key r)) capability &&
               is_active (r_state r)) l.

Definition limits_wf q : Prop :=
  ∀ s, (length (active_in (requests q) s true) <= 1)%nat ∧
    (Z.of_nat (length (active_in (requests q) s false)) <= Z.max 0 (max_pending_per_scope (limits q)))%Z.

Definition desk_wf (d : desk) : Prop :=
  ids_wf (d_queue d) ∧ flight_wf (requests (d_queue d)) (inflight (d_queue d)) (d_ticket d) ∧
  limits_wf (d_queue d).

(** A step that only moves requests out of the active states. *)
Definition retires (u : PendingRequest → PendingRequest) : Prop :=
  ∀ r, r_id (u r) = r_id r ∧ r_scope (u r) = r_scope r ∧ r_key (u r) = r_key r ∧
    (is_active (r_state (u r)) = true → u r = r).

Lemma retires_ids u l : retires u → r_id <$> (u <$> l) = r_id <$> l.
Proof.
  intros H. rewrite <-list_fmap_compose. apply list_fmap_ext. intros. apply H.
Qed.

Lemma active_in_retires u l s c : retires u → (length (active_in (u <$> l) s c) <= length (active_in l s c))%nat.
Proof.
  intros H. unfold active_in, retain. induction l as [|r l IH]; csimpl; [lia|].
  destruct (H r) as (_ & Hs & Hk & Ha). rewrite Hs, Hk.
  destruct (is_active (r_state (u r))) eqn:E.
  - rewrite (Ha eq_refl) in *. rewrite E. destruct (_ && true); simpl; lia.
  - rewrite andb_false_r. destruct (_ && is_active (r_state r)); simpl; lia.
Qed.

Lemma active_in_retain p l s c : (length (active_in (retain p l) s c) <= length (active_in l s c))%nat.
Proof.
  unfold active_in, retain. induction l as [|r l IH]; simpl; [lia|].
  destruct (p r); simpl; destruct (_ && is_active (r_state r)); simpl; lia.
Qed.

Lemma ids_wf_retires u q q' :
  retires u → requests q' = u <$> requests q → next_id q' = next_id q → ids_wf q → ids_wf q'.
Proof.
  intros Hu Hr Hn (H1 & H2 & H3). unfold ids_wf. rewrite Hr, Hn, retires_ids by done.
  split_and!; [done|lia|lia|]. intros y (r & -> & Hin)%list_elem_of_fmap.
  destruct (Hu r) as (-> & _). auto.
Qed.

Lemma limits_wf_retires u q q' :
  retires u → requests q' = u <$> requests q → limits q' = limits q → limits_wf q → limits_wf q'.
Proof.
  intros Hu Hr Hl H s. rewrite Hr, Hl. destruct (H s).
  pose proof (active_in_retires u (requests q) s true Hu).
  pose proof (active_in_retires u (requests q) s false Hu). lia.
Qed.

(** Ending some requests while the marker is cleared for exactly those. *)
Lemma flight_wf_retires u l fl fl' ticket :
  retires u → flight_wf l fl ticket →
  (∀ r, r ∈ l → u r = r → fl = Some (r_id r) → fl' = Some (r_id r)) →
  (∀ i, fl' = Some i → fl = Some i ∧ ∀ r, r ∈ l → r_id r = i → u r = r) →
  flight_wf (u <$> l) fl' ticket.
Proof.
  intros Hu [H1 H2] Hkeep Hdrop. split.
  - intros y (r & -> & Hin)%list_elem_of_fmap Hs. destruct (Hu r) as (Hid & _ & _ & Ha).
    assert (u r = r) as Hur by (apply Ha; by rewrite Hs). rewrite Hur in *.
    destruct (H1 r Hin Hs) as [Hf Ht]. eauto.
  - intros i Hi. destruct (Hdrop i Hi) as [Hf Hur]. destruct (H2 i Hf) as (r & Hin & Hr & Hs).
    exists (u r). rewrite (Hur r Hin Hr). split_and!; [|done..].
    rewrite <-(Hur r Hin Hr). by apply list_elem_of_fmap_2.
Qed.

Lemma retires_at_id i f :
  (∀ r, r_id (f r) = r_id r ∧ r_scope (f r) = r_scope r ∧ r_key (f r) = r_key r ∧
        is_active (r_state (f r)) = false) → retires (at_id i f).
Proof.
  intros Hf r. unfold at_id. destruct (has_id i r); [|done].
  destruct (Hf r) as (-> & -> & -> & ->). done.
Qed.

Lemma retires_set_state i s : is_active s = false → retires (at_id i (set_state s)).
Proof. intros Hs. by apply retires_at_id. Qed.

Lemma retires_invalidate i s : is_active s = false → retires (at_id i (invalidate s)).
Proof. intros Hs. by apply retires_at_id. Qed.

(** Ending the request [i] and releasing it with [finish]. *)
Lemma finish_wf d i f now :
  (∀ r, r_id (f r) = r_id r ∧ r_scope (f r) = r_scope r ∧ r_key (f r) = r_key r ∧
        is_active (r_state (f r)) = false) →
  desk_wf d →
  desk_wf {| d_queue := finish (set_requests (d_queue d)
               (update_first (has_id i) f (requests (d_queue d)))) i now;
             d_ticket := d_ticket d |}.
Proof.
  intros Hf (Hi & Hfl & Hl). pose proof Hi as (Hn & _).
  pose proof (retires_at_id i f Hf) as Hu. rewrite update_first_at_id by done. split_and!.
  - by eapply ids_wf_retires.
  - simpl. eapply flight_wf_retires; [done|done| |].
    + intros r Hr Hur Hfr. rewrite bool_decide_eq_false_2; [done|]. rewrite Hfr. intros [= Heq].
      destruct Hfl as [_ H2]. destruct (H2 _ Hfr) as (r' & Hr' & Hid & Hs).
      pose proof (ids_unique _ _ _ Hn Hr Hr' (eq_sym Hid)) as ->.
      unfold at_id in Hur. rewrite (proj2 (has_id_spec i r') Heq) in Hur.
      destruct (Hf r') as (_ & _ & _ & Ha). rewrite Hur, Hs in Ha. done.
    + intros j. case_bool_decide as E; [done|]. intros Hj. split; [done|]. intros r Hr Hid.
      unfold at_id. destruct (has_id i r) eqn:Ei; [|done]. apply has_id_spec in Ei. congruence.
  - by eapply limits_wf_retires.
Qed.

Lemma end_early_wf d s i now :
  is_active s = false → desk_wf d →
  desk_wf {| d_queue := (end_early s (d_queue d) i now).1; d_ticket := d_ticket d |}.
Proof.
  intros Hs Hd. unfold end_early. destruct (List.find _ _) as [r|]; [|by destruct d].
  destruct (is_active (r_state r)); [|by destruct d]. simpl. by apply finish_wf.
Qed.

Lemma flight_unique l fl ticket i g :
  flight_wf l fl ticket → ticket = Some (i, g) →
  ∀ r, r ∈ l → r_state r = RequestState.Decrypting → r_id r = i ∧ r_generation r = g.
Proof. intros [H1 _] Ht r Hr Hs. destruct (H1 r Hr Hs) as [_ Ht']. by simplify_eq. Qed.

(** Giving back the ticket: nothing is decrypting afterwards. *)
Lemma release_ticket_wf d i g now f :
  (∀ r, r_id (f r) = r_id r ∧ r_scope (f r) = r_scope r ∧ r_key (f r) = r_key r ∧
        is_active (r_state (f r)) = false) →
  desk_wf d → d_ticket d = Some (i, g) →
  desk_wf {| d_queue := finish (set_requests (d_queue d)
               (update_first (has_id i) f (requests (d_queue d)))) i now;
             d_ticket := None |}.
Proof.
  intros Hf Hd Ht. pose proof (finish_wf d i f now Hf Hd) as (H1 & H2 & H3). split_and!; [done| |done].
  assert (∀ r, r ∈ update_first (has_id i) f (requests (d_queue d)) →
            r_state r ≠ RequestState.Decrypting) as Hno.
  { intros r Hr Hs. pose proof (flight_unique _ _ _ _ _ H2 Ht r Hr Hs) as [Hid _].
    destruct Hd as ((Hn & _) & _). rewrite update_first_at_id in Hr by done.
    apply elem_of_at_id in Hr as (r0 & _ & ->). destruct (has_id i r0) eqn:E.
    - destruct (Hf r0) as (_ & _ & _ & Ha). rewrite Hs in Ha. done.
    - apply has_id_spec in Hid. congruence. }
  split; simpl.
  - intros r Hr Hs. by destruct (Hno r Hr).
  - intros j Hj. destruct H2 as [_ H2]. destruct (H2 j Hj) as (r & Hr & _ & Hs). by destruct (Hno r Hr).
Qed.

Lemma flight_idle l fl ticket :
  flight_wf l fl ticket → (∀ r, r ∈ l → r_state r ≠ RequestState.Decrypting) →
  fl = None ∧ ∀ ticket', flight_wf l fl ticket'.
Proof.
  intros [H1 H2] Hno. assert (fl = None) as ->.
  { destruct fl as [i|]; [|done]. destruct (H2 i eq_refl) as (r & Hr & _ & Hs). by destruct (Hno r). }
  split; [done|]. intros ticket'. split; [|done]. intros r Hr Hs. by destruct (Hno r).
Qed.

Lemma flight_none l ticket :
  flight_wf l None ticket → ∀ r, r ∈ l → r_state r ≠ RequestState.Decrypting.
Proof. intros [H1 _] r Hr Hs. by destruct (H1 r Hr Hs). Qed.

Lemma complete_wf d i g now :
  desk_wf d → d_ticket d = Some (i, g) →
  desk_wf {| d_queue := (complete (d_queue d) i g now).1; d_ticket := None |}.
Proof.
  intros Hd Ht. unfold complete. simpl. destruct (existsb _ _) eqn:E.
  { by eapply release_ticket_wf. }
  destruct Hd as (Hi & Hfl & Hl). rewrite existsb_false in E.
  destruct (flight_idle _ _ _ Hfl) as [Hnone Hany].
  { intros r Hr Hs. destruct (flight_unique _ _ _ _ _ Hfl Ht r Hr Hs) as [Hid Hg].
    specialize (E r Hr). rewrite (proj2 (has_id_spec i r) Hid), Hg, Z.eqb_refl in E.
    by rewrite bool_decide_eq_true_2 in E. }
  split_and!; [done| |done]. simpl. rewrite Hnone in *. simpl. apply Hany.
Qed.

Lemma mark_wf d i now :
  desk_wf d → d_ticket d = None →
  desk_wf {| d_queue := (mark_decrypting (d_queue d) i now).1;
             d_ticket := pair i <$> (mark_decrypting (d_queue d) i now).2 |}.
Proof.
  intros Hd Ht. pose proof Hd as (Hi & Hfl & Hl). unfold mark_decrypting.
  assert (desk_wf {| d_queue := d_queue d; d_ticket := None |}) as Hsame.
  { by rewrite <-Ht; destruct d. }
  destruct (_ || cooling _ _) eqn:E0; [done|]. bool_to_prop.
  destruct (inflight (d_queue d)) as [|] eqn:Efl; [done|].
  destruct (List.find _ _) as [r|] eqn:E; [|done].
  case_bool; [done|]. simpl. apply find_id_Some in E as [Hr Hid]. pose proof Hi as (Hn & Hnx & Hbd).
  set (g := saturating_add_u64 _ _). rewrite update_first_at_id by done.
  assert (∀ c s, active_in (at_id i (start_decrypt g) <$> requests (d_queue d)) s c =
     at_id i (start_decrypt g) <$> active_in (requests (d_queue d)) s c) as Hact.
  { intros c s. assert (∀ x, x ∈ requests (d_queue d) → has_id i x = true →
        is_active (r_state x) = true) as Hx.
    { intros x Hx Hxi%has_id_spec. by rewrite (ids_unique _ x r Hn Hx Hr), Hb by congruence. }
    clear -Hx. unfold active_in, retain. induction (requests (d_queue d)) as [|x l IH]; [done|].
    csimpl. rewrite IH by (intros; apply Hx; [by constructor|done]).
    assert (is_active (r_state (at_id i (start_decrypt g) x)) = is_active (r_state x)) as ->.
    { unfold at_id. destruct (has_id i x) eqn:E; [|done]. rewrite (Hx x); [done|by left|done]. }
    assert (r_scope (at_id i (start_decrypt g) x) = r_scope x ∧
            r_key (at_id i (start_decrypt g) x) = r_key x) as [-> ->].
    { unfold at_id. by destruct (has_id i x). }
    by destruct (_ && is_active (r_state x)). }
  split_and!.
  - assert (∀ x, r_id (at_id i (start_decrypt g) x) = r_id x) as Hids.
    { intros x. unfold at_id. by destruct (has_id i x). }
    split_and!; simpl; [|lia|lia|].
    + rewrite <-list_fmap_compose. by rewrite (list_fmap_ext (r_id ∘ _) r_id) by (intros; apply Hids).
    + intros y (x & -> & Hx)%list_elem_of_fmap. rewrite Hids. auto.
  - split; simpl.
    + intros y (x & Hx & ->)%elem_of_at_id Hs. destruct (has_id i x) eqn:Ex.
      * apply has_id_spec in Ex. simpl. by rewrite Ex.
      * by destruct (flight_none _ _ Hfl x Hx).
    + intros j [= <-]. exists (start_decrypt g r). split_and!; [|done..].
      apply elem_of_at_id. exists r. by rewrite (proj2 (has_id_spec i r)).
  - intros s. destruct (Hl s). simpl. rewrite !Hact, !length_fmap. lia.
Qed.

Lemma retires_overdue q now :
  retires (λ r, if overdue q now r then invalidate RequestState.TimedOut r else r).
Proof. intros r. by destruct (overdue q now r). Qed.

Lemma sweep_wf d now :
  desk_wf d → desk_wf {| d_queue := (sweep_timeouts (d_queue d) now).1; d_ticket := d_ticket d |}.
Proof.
  intros (Hi & Hfl & Hl). pose proof Hi as (Hn & _). unfold sweep_timeouts. simpl.
  set (q := d_queue d) in *. set (u := λ r, if overdue q now r then _ else r).
  destruct (fold_finish (r_id <$> retain (overdue q now) (requests q))
    (set_requests q (u <$> requests q)) now) as (Hr & Hlim & Hnx & Hf).
  pose proof (retires_overdue q now) as Hu. fold u in Hu. simpl in Hf. split_and!; simpl.
  - by apply (ids_wf_retires u q).
  - rewrite Hr, Hf. simpl. eapply flight_wf_retires; [done|done| |].
    + intros r Hin Hur Hfr. rewrite Hfr. simpl. rewrite bool_decide_eq_false_2; [done|].
      intros (r' & Hid & [Hin' Hov]%elem_of_retain)%list_elem_of_fmap.
      pose proof (ids_unique _ _ _ Hn Hin Hin' Hid) as <-.
      unfold u in Hur. rewrite Hov in Hur. apply (f_equal r_state) in Hur. simpl in Hur.
      unfold overdue in Hov. rewrite <-Hur in Hov. done.
    + intros i. destruct (inflight q) as [j|]; simpl; [|done]. case_bool_decide as Ej; [done|].
      intros [= ->]. split; [done|]. intros r Hin Hid. unfold u. destruct (overdue q now r) eqn:Ho; [|done].
      destruct Ej. apply list_elem_of_fmap. exists r. split; [done|]. by apply elem_of_retain.
  - by apply (limits_wf_retires u q).
Qed.

Lemma prune_wf d now :
  desk_wf d → desk_wf {| d_queue := prune (d_queue d) now; d_ticket := d_ticket d |}.
Proof.
  intros ((Hn & Hnx & Hb) & [H1 H2] & Hl). unfold prune. set (p := λ r, _ || _). split_and!; simpl.
  - split_and!; simpl; [by apply NoDup_fmap_retain|lia|lia|]. intros r [Hr _]%elem_of_retain. auto.
  - split; [intros r [Hr _]%elem_of_retain; auto|]. intros i Hi. destruct (H2 i Hi) as (r & Hr & Hid & Hs).
    exists r. split_and!; [|done..]. apply elem_of_retain. split; [done|]. subst p. simpl. by rewrite Hs.
  - intros s. destruct (Hl s). simpl.
    pose proof (active_in_retain p (requests (d_queue d)) s true).
    pose proof (active_in_retain p (requests (d_queue d)) s false). lia.
Qed.

Lemma enqueue_fresh q s k now rttl i :
  (enqueue q s k now rttl).2 = Ok i →
  (∃ r, r ∈ requests q ∧ r_id r = i ∧ r_scope r = s ∧ r_key r = k ∧ is_active (r_state r) = true ∧
     is_capability_key k = false ∧ (enqueue q s k now rttl).1 = q) ∨
  (i = next_id q ∧
   requests (enqueue q s k now rttl).1 =
     (requests q ++ [{| r_id := i; r_scope := s; r_key := k; r_state := RequestState.Pending;
                        r_generation := 0; r_created := now; r_requested_ttl := rttl |}])%list ∧
   next_id (enqueue q s k now rttl).1 = saturating_add_u64 (next_id q) 1).
Proof.
  unfold enqueue. destruct (is_capability_key k) eqn:Ek; simpl.
  - case_bool; [done|]. intros [= <-]. by right.
  - destruct (List.find _ _) as [r|] eqn:E; simpl.
    + intros [= <-]. left. apply find_Some in E as [Hr Hs]. unfold same_request in Hs. bool_to_prop.
      by exists r.
    + case_bool; [done|]. intros [= <-]. by right.
Qed.

Lemma enqueue_frame q s k now rttl :
  let q' := (enqueue q s k now rttl).1 in limits q' = limits q ∧ inflight q' = inflight q.
Proof. unfold enqueue. repeat case_match; by simplify_eq/=. Qed.

Lemma enqueue_error q s k now rttl e :
  (enqueue q s k now rttl).2 = Err e → e = TooManyPending ∧ (enqueue q s k now rttl).1 = q.
Proof. unfold enqueue. repeat case_match; intros; by simplify_eq/=. Qed.

Lemma enqueue_room q s k now rttl i c s' :
  (enqueue q s k now rttl).2 = Ok i → limits_wf q →
  requests (enqueue q s k now rttl).1 ≠ requests q →
  (Z.of_nat (length (active_in (requests q) s' c)) <
   (if c then 1 else Z.max 0 (max_pending_per_scope (limits q))))%Z ∨ s' ≠ s ∨ is_capability_key k ≠ c.
Proof.
  intros Hok Hl Hne. destruct (decide (s' = s)) as [->|]; [|auto].
  destruct (decide (is_capability_key k = c)) as [Hk|]; [|auto]. left.
  pose proof (retain_length_impl
    (λ r, bool_decide (r_scope r = s) && Bool.eqb (is_capability_key (r_key r)) c && is_active (r_state r))
    (counts_against s c) (requests q)) as Hlen.
  assert (length (active_in (requests q) s c) <= length (retain (counts_against s c) (requests q)))%nat as Hle.
  { apply Hlen. intros r Hr. unfold counts_against. bool_to_prop.
    rewrite bool_decide_eq_true_2, H0 by done. apply Bool.eqb_prop in H1. subst c. rewrite H1.
    by destruct (is_capability_key k). }
  revert Hok Hne. unfold enqueue. rewrite Hk. destruct c; simpl.
  - case_bool; [done|]. intros _ _. lia.
  - destruct (List.find _ _); [done|]. case_bool; [done|]. intros _ _. lia.
Qed.

Lemma enqueue_wf d s k now rttl :
  desk_wf d → (next_id (d_queue d) < u64_max)%Z →
  desk_wf {| d_queue := (enqueue (d_queue d) s k now rttl).1; d_ticket := d_ticket d |}.
Proof.
  intros Hd Hroom. destruct d as [q ticket]. simpl in *.
  destruct (enqueue q s k now rttl).2 as [i|e] eqn:E.
  2: { by destruct (enqueue_error _ _ _ _ _ _ E) as [_ ->]. }
  destruct (enqueue_fresh _ _ _ _ _ _ E) as [(r & _ & _ & _ & _ & _ & _ & ->)|(-> & Hr & Hnx)]; [done|].
  destruct (enqueue_frame q s k now rttl) as [Hlim Hfl].
  destruct Hd as ((Hn & Hb & Hid) & [H1 H2] & Hl). simpl in *.
  assert (saturating_add_u64 (next_id q) 1 = next_id q + 1)%Z as Hs.
  { unfold saturating_add_u64. lia. }
  split_and!; simpl.
  - unfold ids_wf. rewrite Hr, Hnx, Hs. split_and!; [|lia|lia|].
    + rewrite fmap_app. apply NoDup_app. split; [done|]. split; [|apply NoDup_singleton].
      intros x (r & -> & Hin)%list_elem_of_fmap Hx%list_elem_of_singleton.
      specialize (Hid r Hin). simpl in Hx. lia.
    + intros r [Hin| ->%list_elem_of_singleton]%elem_of_app; [specialize (Hid r Hin); lia|simpl; lia].
  - rewrite Hr, Hfl. split.
    + intros r [Hin| ->%list_elem_of_singleton]%elem_of_app; [auto|done].
    + intros i Hi. destruct (H2 i Hi) as (r & Hin & ?). exists r. split; [|done]. apply elem_of_app. auto.
  - intros s'. destruct (Hl s') as [Hc Hnc]. rewrite Hlim, Hr.
    assert (requests (enqueue q s k now rttl).1 ≠ requests q) as Hne.
    { intros Heq. rewrite Hr in Heq. apply (f_equal length) in Heq. rewrite length_app in Heq.
      simpl in Heq. lia. }
    pose proof (enqueue_room q s k now rttl _ true s' E Hl Hne) as Ht.
    pose proof (enqueue_room q s k now rttl _ false s' E Hl Hne) as Hf.
    unfold active_in in *. rewrite !retain_app, !length_app. unfold retain at 2 4. simpl.
    case_bool_decide; simpl; [subst s'|simpl; lia].
    destruct (is_capability_key k); simpl; [destruct Ht as [?|[?|?]]|destruct Hf as [?|[?|?]]]; try done; lia.
Qed.

(** * Reachable queues *)
Lemma run_op_wf d op :
  desk_wf d → (next_id (d_queue d) < u64_max)%Z → desk_wf (run_op d op).
Proof.
  intros Hd Hroom. destruct op as [s k now rttl|i now|i now|now|now|i now|now|now]; simpl.
  - by apply enqueue_wf.
  - by apply end_early_wf.
  - by apply end_early_wf.
  - by apply sweep_wf.
  - by apply prune_wf.
  - destruct (d_ticket d) eqn:Et; [done|]. pose proof (mark_wf d i now Hd Et) as Hm.
    by destruct (mark_decrypting (d_queue d) i now).
  - destruct (d_ticket d) as [[i g]|] eqn:Et; [|done]. by apply complete_wf.
  - destruct (d_ticket d) as [[i g]|] eqn:Et; [|done]. by eapply release_ticket_wf.
Qed.

Lemma next_id_mark q i now : next_id (mark_decrypting q i now).1 = next_id q.
Proof. unfold mark_decrypting. by repeat case_match. Qed.

Lemma next_id_end q s i now : next_id (end_early s q i now).1 = next_id q.
Proof. unfold end_early. by repeat case_match. Qed.

Lemma next_id_complete q i g now : next_id (complete q i g now).1 = next_id q.
Proof. unfold complete. simpl. by case_match. Qed.

Lemma next_id_sweep q now : next_id (sweep_timeouts q now).1 = next_id q.
Proof.
  unfold sweep_timeouts. simpl.
  by destruct (fold_finish (r_id <$> retain (overdue q now) (requests q))
    (set_requests q ((λ r, if overdue q now r then invalidate RequestState.TimedOut r else r) <$> requests q)) now) as (_ & _ & ? & _).
Qed.

Lemma next_id_enqueue q s k now rttl :
  (next_id q <= next_id (enqueue q s k now rttl).1 ∨ u64_max < next_id q)%Z ∧
  (next_id (enqueue q s k now rttl).1 <= Z.max (next_id q) (next_id q + 1))%Z.
Proof.
  unfold enqueue. repeat case_match; simplify_eq/=; unfold saturating_add_u64; lia.
Qed.

Lemma run_op_next_id d op : (next_id (d_queue (run_op d op)) <= next_id (d_queue d) + 1)%Z.
Proof.
  destruct op as [s k now rttl|i now|i now|now|now|i now|now|now]; simpl.
  - pose proof (next_id_enqueue (d_queue d) s k now rttl). lia.
  - unfold timeout. rewrite next_id_end. lia.
  - unfold deny. rewrite next_id_end. lia.
  - pose proof (next_id_sweep (d_queue d) now) as H. unfold sweep_timeouts in H. simpl in H. lia.
  - lia.
  - destruct (d_ticket d); [lia|]. pose proof (next_id_mark (d_queue d) i now).
    destruct (mark_decrypting (d_queue d) i now). simpl in *. lia.
  - destruct (d_ticket d) as [[i g]|]; [|lia]. pose proof (next_id_complete (d_queue d) i g now) as H.
    unfold complete in H. simpl in *. lia.
  - destruct (d_ticket d) as [[i g]|]; simpl; lia.
Qed.

Lemma run_desk_wf d ops :
  desk_wf d → (next_id (d_queue d) + Z.of_nat (length ops) <= u64_max)%Z → desk_wf (run_desk d ops).
Proof.
  unfold run_desk. revert d. induction ops as [|op ops IH]; intros d Hd Hn; simpl in *; [done|].
  pose proof (run_op_next_id d op). apply IH; [apply run_op_wf; [done|lia]|lia].
Qed.

Lemma desk_new_wf lim : desk_wf (desk_new lim).
Proof.
  split_and!; simpl.
  - split_and!; simpl; [apply NoDup_nil_2|unfold u64_max; lia..|]. by intros r ?%not_elem_of_nil.
  - split; [by intros r ?%not_elem_of_nil|done].
  - intros s. simpl. lia.
Qed.

(** * A closed request stays closed *)
Definition closed (i : RequestId) q : Prop :=
  (i < next_id q)%Z ∧ ∀ r, r ∈ requests q → r_id r = i → is_active (r_state r) = false.

Lemma closed_retires u q q' i :
  retires u → requests q' = u <$> requests q → next_id q' = next_id q → closed i q → closed i q'.
Proof.
  intros Hu Hr Hn [Hi Hc]. split; [lia|]. rewrite Hr.
  intros y (r & -> & Hin)%list_elem_of_fmap Hid. destruct (Hu r) as (Hru & _ & _ & Ha).
  destruct (is_active (r_state (u r))) eqn:E; [|done]. rewrite Ha in E by done. rewrite <-E.
  apply Hc; [done|]. congruence.
Qed.

Lemma closed_mark q i j now : ids_wf q → closed i q → closed i (mark_decrypting q j now).1.
Proof.
  intros (Hn & _) [Hi Hc]. unfold mark_decrypting. case_match; [done|].
  destruct (List.find _ _) as [r|] eqn:E; [|done]. case_bool; [done|].
  apply find_id_Some in E as [Hr <-]. split; [done|]. simpl. rewrite update_first_at_id by done.
  intros y (x & Hx & ->)%elem_of_at_id. destruct (has_id (r_id r) x) eqn:Ex; [|auto].
  apply has_id_spec in Ex. simpl. intros Hxi. rewrite Ex in Hxi.
  specialize (Hc r Hr Hxi). by rewrite Hb in Hc.
Qed.

Lemma closed_enqueue q i s k now rttl :
  (next_id q < u64_max)%Z → closed i q → closed i (enqueue q s k now rttl).1.
Proof.
  intros Hroom [Hi Hc]. destruct (enqueue q s k now rttl).2 as [j|e] eqn:E.
  2: { by destruct (enqueue_error _ _ _ _ _ _ E) as [_ ->]. }
  destruct (enqueue_fresh _ _ _ _ _ _ E) as [(r & _ & _ & _ & _ & _ & _ & ->)|(-> & Hr & Hnx)]; [done|].
  unfold closed. rewrite Hr, Hnx. split; [unfold saturating_add_u64; lia|].
  intros r [Hin| ->%list_elem_of_singleton]%elem_of_app; [auto|]. simpl. lia.
Qed.

Lemma closed_end q s i j now :
  is_active s = false → ids_wf q → closed i q → closed i (end_early s q j now).1.
Proof.
  intros Hs (Hn & _) Hc. unfold end_early. repeat case_match; try done. simpl.
  rewrite update_first_at_id by done. by eapply (closed_retires (at_id j (invalidate s)) q);
    [apply retires_invalidate|..].
Qed.

Lemma run_op_closed d op i :
  desk_wf d → (next_id (d_queue d) < u64_max)%Z →
  closed i (d_queue d) → closed i (d_queue (run_op d op)).
Proof.
  intros (Hi & Hfl & Hl) Hroom Hc. pose proof Hi as (Hn & _).
  destruct op as [s k now rttl|j now|j now|now|now|j now|now|now]; simpl.
  - by apply closed_enqueue.
  - by apply closed_end.
  - by apply closed_end.
  - set (q := d_queue d) in *.
    destruct (fold_finish (r_id <$> retain (overdue q now) (requests q)) (set_requests q
      ((λ r, if overdue q now r then invalidate RequestState.TimedOut r else r) <$> requests q)) now)
      as (Hr & _ & Hnx & _).
    by apply (closed_retires (λ r, if overdue q now r then invalidate RequestState.TimedOut r else r) q);
      [apply retires_overdue|..].
  - destruct Hc as [Hlt Hc]. split; [done|]. intros r [Hr _]%elem_of_retain. auto.
  - destruct (d_ticket d); [done|]. pose proof (closed_mark _ i j now Hi Hc).
    by destruct (mark_decrypting (d_queue d) j now).
  - destruct (d_ticket d) as [[j g]|]; [|done]. simpl. unfold complete. simpl. case_match; [|done].
    rewrite update_first_at_id by done. by eapply closed_retires; [apply (retires_set_state j RequestState.Granted)|..].
  - destruct (d_ticket d) as [[j g]|]; [|done]. simpl. unfold fail.
    rewrite update_first_at_id by done. by eapply closed_retires; [apply (retires_set_state j RequestState.Failed)|..].
Qed.

Lemma run_desk_closed d ops i :
  desk_wf d → (next_id (d_queue d) + Z.of_nat (length ops) <= u64_max)%Z →
  closed i (d_queue d) → closed i (d_queue (run_desk d ops)).
Proof.
  unfold run_desk. revert d. induction ops as [|op ops IH]; intros d Hd Hn Hc; simpl in *; [done|].
  pose proof (run_op_next_id d op).
  apply IH; [apply run_op_wf; [done|lia]|lia|apply run_op_closed; [done|lia|done]].
Qed.

Lemma closed_complete q i g now : closed i q → (complete q i g now).2 = false.
Proof.
  intros [_ Hc]. unfold complete. simpl. apply existsb_false. intros r Hr.
  apply not_true_iff_false. intros H. bool_to_prop. rewrite has_id_spec in *.
  specialize (Hc r Hr H). by rewrite H0 in Hc.
Qed.

(** The operation takes the request out of the queue before it is granted. *)
Definition withdraws q (op : queue_op) (i : RequestId) : Prop :=
  match op with
  | QTimeout j now => j = i ∧ (timeout q j now).2 = true
  | QDeny j now => j = i ∧ (deny q j now).2 = true
  | QSweep now => i ∈ (sweep_timeouts q now).2
  | _ => False
  end.

Lemma end_early_closed q s i now :
  ids_wf q → is_active s = false → (end_early s q i now).2 = true → closed i (end_early s q i now).1.
Proof.
  intros (Hn & _ & Hb) Hs. unfold end_early. destruct (List.find _ _) as [r|] eqn:E; [|done].
  case_match; [|done]. intros _. apply find_id_Some in E as [Hr <-].
  split; simpl; [by apply Hb|]. rewrite update_first_at_id by done.
  intros y (x & Hx & ->)%elem_of_at_id. destruct (has_id (r_id r) x) eqn:Ex; [done|].
  intros Hid. apply has_id_spec in Hid. congruence.
Qed.

Lemma withdraws_closed d op i :
  desk_wf d → withdraws (d_queue d) op i → closed i (d_queue (run_op d op)).
Proof.
  intros (Hi & _ & _) Hw. destruct op as [| j now|j now|now| | | |]; try done; simpl in *.
  - destruct Hw as [-> Hw]. by apply end_early_closed.
  - destruct Hw as [-> Hw]. by apply end_early_closed.
  - set (q := d_queue d) in *.
    destruct (fold_finish (r_id <$> retain (overdue q now) (requests q)) (set_requests q
      ((λ r, if overdue q now r then invalidate RequestState.TimedOut r else r) <$> requests q)) now)
      as (Hr & _ & Hnx & _). apply list_elem_of_fmap in Hw as (r & -> & [Hin Ho]%elem_of_retain).
    destruct Hi as (Hn & _ & Hb). split; [rewrite Hnx; by apply Hb|]. rewrite Hr. simpl.
    intros y (x & -> & Hx)%list_elem_of_fmap Hid.
    assert (r_id x = r_id r) as Hxr by (by destruct (overdue q now x)).
    pose proof (ids_unique _ _ _ Hn Hx Hin Hxr) as ->. by rewrite Ho.
Qed.

Lemma end_early_limits s q i now : limits (end_early s q i now).1 = limits q.
Proof. unfold end_early. by repeat case_match. Qed.

Lemma run_op_limits d op : limits (d_queue (run_op d op)) = limits (d_queue d).
Proof.
  destruct op as [s k now rttl|i now|i now|now|now|i now|now|now]; simpl; try apply end_early_limits; try done.
  - apply enqueue_frame.
  - by destruct (fold_finish (r_id <$> retain (overdue (d_queue d) now) (requests (d_queue d))) (set_requests (d_queue d)
      ((λ r, if overdue (d_queue d) now r then invalidate RequestState.TimedOut r else r) <$> requests (d_queue d))) now) as (_ & -> & _).
  - destruct (d_ticket d); [done|]. unfold mark_decrypting. by repeat case_match; simplify_eq/=.
  - destruct (d_ticket d) as [[i g]|]; [|done]. unfold complete. simpl. by case_match.
  - by destruct (d_ticket d) as [[i g]|].
Qed.

Lemma run_desk_limits d ops : limits (d_queue (run_desk d ops)) = limits (d_queue d).
Proof.
  unfold run_desk. revert d. induction ops as [|op ops IH]; intros d; simpl; [done|]. by rewrite IH, run_op_limits.
Qed.

(** C35: single flight and bounded queues.  However clients enqueue, deny and
    time requests out around the worker, within each scope at most one
    capability request and no more other requests than configured are active;
    at most one request is decrypting, and if one is, it is the one marked in
    flight and the one the worker holds, with its generation.  Ids are 64-bit,
    so the run is assumed shorter than that. *)
Theorem queue_single_flight lim ops :
  (Z.of_nat (length ops) < u64_max)%Z →
  let d := run_desk (desk_new lim) ops in
  (∀ s, (length (active_in (requests (d_queue d)) s true) <= 1)%nat ∧
        (Z.of_nat (length (active_in (requests (d_queue d)) s false)) <= Z.max 0 (max_pending_per_scope lim))%Z) ∧
  (∀ r1 r2, r1 ∈ requests (d_queue d) → r2 ∈ requests (d_queue d) →
     r_state r1 = RequestState.Decrypting → r_state r2 = RequestState.Decrypting → r1 = r2) ∧
  (∀ r, r ∈ requests (d_queue d) → r_state r = RequestState.Decrypting →
     inflight (d_queue d) = Some (r_id r) ∧ d_ticket d = Some (r_id r, r_generation r)).
Proof.
  intros Hlen d.
  destruct (run_desk_wf (desk_new lim) ops (desk_new_wf lim)) as ((Hn & _) & [Hf _] & Hl); [simpl; lia|].
  fold d in Hn, Hf, Hl. split_and!.
  - intros s. assert (limits (d_queue d) = lim) as Hlim by apply run_desk_limits. rewrite <-Hlim. split; apply Hl.
  - intros r1 r2 H1 H2 Hs1 Hs2. destruct (Hf r1 H1 Hs1) as [Hf1 _]. destruct (Hf r2 H2 Hs2) as [Hf2 _].
    apply (ids_unique _ _ _ Hn H1 H2). congruence.
  - intros r H1 Hs. by apply Hf.
Qed.

Definition demo_limits : QueueLimits :=
  {| cooldown := Time.from_secs 20; ttl := Time.from_secs 90; max_pending_per_scope := 2 |}.

Definition demo_ops : list queue_op :=
  [QEnqueue (Session "T") "A" 0 None; QEnqueue (Session "T") "B" 1 (Some 60%Z); QMark 1 2].

Definition demo_request : PendingRequest :=
  {| r_id := 1; r_scope := Session "T"; r_key := "A"; r_state := RequestState.Decrypting;
     r_generation := 1; r_created := 0; r_requested_ttl := None |}.

Lemma queue_single_flight_witness :
  (length (active_in (requests (d_queue (run_desk (desk_new demo_limits) demo_ops))) (Session "T") true) <= 1)%nat ∧
  (Z.of_nat (length (active_in (requests (d_queue (run_desk (desk_new demo_limits) demo_ops))) (Session "T") false)) <= 2)%Z ∧
  inflight (d_queue (run_desk (desk_new demo_limits) demo_ops)) = Some 1%Z ∧
  d_ticket (run_desk (desk_new demo_limits) demo_ops) = Some (1%Z, 1%Z).
Proof.
  destruct (queue_single_flight demo_limits demo_ops) as (Hl & _ & Hf); [by vm_compute|].
  destruct (Hl (Session "T")) as [H1 H2]. split; [exact H1|]. split; [exact H2|].
  apply (Hf demo_request); [|done]. vm_compute. by left.
Defined.

(** A withdrawn request is never granted.  Once a request was denied,
    timed out or swept, no later sequence of operations lets a completing
    decrypt install its grant, whatever generation it presents. *)
Lemma late_completion_refused lim ops op later i g now :
  (Z.of_nat (length ops + length later) + 1 < u64_max)%Z →
  withdraws (d_queue (run_desk (desk_new lim) ops)) op i →
  (complete (d_queue (run_desk (desk_new lim) (ops ++ op :: later)%list)) i g now).2 = false.
Proof.
  intros Hlen Hw. apply closed_complete. unfold run_desk. rewrite fold_left_app. simpl.
  fold (run_desk (desk_new lim) ops).
  assert (∀ ops d, (next_id (d_queue (run_desk d ops)) <= next_id (d_queue d) + Z.of_nat (length ops))%Z) as Hnx.
  { clear. unfold run_desk. induction ops as [|op ops IH]; intros d; simpl; [lia|].
    pose proof (IH (run_op d op)). pose proof (run_op_next_id d op). lia. }
  pose proof (Hnx ops (desk_new lim)) as H0. simpl in H0.
  assert (desk_wf (run_desk (desk_new lim) ops)) as Hd.
  { apply run_desk_wf; [apply desk_new_wf|simpl; lia]. }
  pose proof (run_op_next_id (run_desk (desk_new lim) ops) op).
  apply run_desk_closed; [apply run_op_wf; [done|lia]|lia|by apply withdraws_closed].
Qed.

Lemma late_completion_refused_witness :
  (complete (d_queue (run_desk (desk_new demo_limits) (demo_ops ++ QDeny 1 5 :: [QPrune 6])%list)) 1 1 7).2 = false.
Proof.
  apply (late_completion_refused demo_limits demo_ops (QDeny 1 5) [QPrune 6] 1 1 7).
  - by vm_compute.
  - split; [done|by vm_compute].
Defined.

(** The worker's choice always starts.  Whatever [next_ready] picks is the
    oldest pending request, the hardware is free and has cooled down, and
    [mark_decrypting] at the same instant then succeeds on it. *)
Lemma next_ready_starts q now i :
  ids_wf q → next_ready q now = Some i →
  inflight q = None ∧
  (∀ last, last_finished q = Some last → (now < last ∨ last + cooldown (limits q) <= now)%Z) ∧
  (∃ before r after, requests q = (before ++ r :: after)%list ∧ r_id r = i ∧
     r_state r = RequestState.Pending ∧ ∀ x, x ∈ before → r_state x ≠ RequestState.Pending) ∧
  ∃ g, (mark_decrypting q i now).2 = Some g ∧
    state_of (mark_decrypting q i now).1 i = Some RequestState.Decrypting ∧
    inflight (mark_decrypting q i now).1 = Some i.
Proof.
  intros (Hn & _) Hnr. unfold next_ready in Hnr. destruct (inflight q) eqn:Efl; [done|]. simpl in Hnr.
  destruct (cooling q now) eqn:Ec; [done|].
  destruct (List.find _ (requests q)) as [r|] eqn:E; [|done]. simpl in Hnr. injection Hnr as <-.
  pose proof (find_Some _ _ _ E) as [Hr Hs]. bool_to_prop. split_and!; [done| | |].
  - intros last Hlast. unfold cooling in Ec. rewrite Hlast in Ec. simpl in Ec.
    unfold Time.checked_duration_since in Ec. destruct (Z.leb_spec last now); simpl in Ec; [|by left].
    bool_to_prop. right. lia.
  - destruct (find_split _ _ _ E) as (l1 & l2 & Hl & Hb & _). exists l1, r, l2. split_and!; try done.
    intros x Hx Hp. specialize (Hb x Hx). by bool_to_prop.
  - unfold mark_decrypting. rewrite Efl, Ec. simpl. rewrite find_id_elem by done.
    rewrite bool_decide_eq_true_2 by done. simpl. eexists. split_and!; [done| |done].
    unfold state_of. simpl. destruct (find_split _ _ _ (find_id_elem _ _ Hn Hr)) as (l1 & l2 & Hl & Hb & Hi).
    rewrite Hl, update_first_split by done. rewrite find_app.
    rewrite (proj2 (find_None (has_id (r_id r)) l1)) by done. simpl.
    unfold has_id in *. simpl. by rewrite Hi.
Qed.

Lemma next_ready_starts_witness :
  let q := d_queue (run_desk (desk_new demo_limits) (take 2 demo_ops)) in
  inflight q = None ∧
  (∀ last, last_finished q = Some last → (2 < last ∨ last + cooldown (limits q) <= 2)%Z) ∧
  (∃ before r after, requests q = (before ++ r :: after)%list ∧ r_id r = 1%Z ∧
     r_state r = RequestState.Pending ∧ ∀ x, x ∈ before → r_state x ≠ RequestState.Pending) ∧
  ∃ g, (mark_decrypting q 1 2).2 = Some g ∧
    state_of (mark_decrypting q 1 2).1 1 = Some RequestState.Decrypting ∧
    inflight (mark_decrypting q 1 2).1 = Some 1%Z.
Proof.
  apply next_ready_starts; [|by vm_compute].
  split_and!; [apply (bool_decide_unpack _); by vm_compute|by vm_compute|by vm_compute|].
  apply Forall_forall. apply (bool_decide_unpack _). by vm_compute.
Defined.

(** A denial can be reported as a failure.  A decrypt that was denied
    while it ran ends with an error once its process is killed, and the
    worker's [fail] overwrites the terminal state: the waiting client is told
    the request failed instead of that a human denied it. *)
Lemma fail_overwrites_denied :
  let d := run_desk (desk_new demo_limits) (demo_ops ++ [QDeny 1 5])%list in
  state_of (d_queue d) 1 = Some RequestState.Denied ∧
  state_of (d_queue (run_op d (QFail 6))) 1 = Some RequestState.Failed.
Proof. by vm_compute. Qed.
