(* ===== verification/Receipts.v ===== *)
(** Receipts and capability grants: [crates/secrets/src/receipts.rs] and
    [capability_grants.rs].

    A receipt is minted once per completed touch ceremony, redeemed at most
    once and dead after a minute.  The random device is an argument: the
    sequence of blocks it would deliver, or its absence; a read past the end
    of the sequence is the read error.  Zeroization is not modelled. *)

From stdpp Require Import prelude strings list.
From Stdlib Require Import ZArith Lia Ascii.
From S2P Require Import Prelude Text Wire Secret.

Local Open Scope string_scope.

(** * Receipts *)
Definition RECEIPT_LEN : Z := 32.
Definition RECEIPT_TTL : Z := Time.from_secs 60.
Definition MAX_RECEIPTS : nat := 32.

Record Entry : Type := { e_id : string; e_cap : string; e_minted : Z }.

Notation ReceiptTable := (list Entry) (only parsing).

Inductive MintError : Type := WouldBlock | Entropy.

Definition receipt_fresh (now : Z) (e : Entry) : bool :=
  (Time.duration_since now (e_minted e) <? RECEIPT_TTL)%Z.

Definition sweep (t : ReceiptTable) (now : Z) : ReceiptTable := retain (receipt_fresh now) t.

(** [ct_eq] on byte slices: the constant-time comparison decides equality. *)
Definition ct_eq (a b : string) : bool := bool_decide (a = b).

(** The drawing loop: repeated until the block is not an outstanding id. *)
Fixpoint draw (t : ReceiptTable) (random : list string) : option string :=
  match random with
  | [] => None
  | block :: rest =>
      let duplicate := fold_left (λ found e, found || ct_eq (e_id e) block) t false in
      if negb duplicate then Some block else draw t rest
  end.

Definition mint (t : ReceiptTable) (random : option (list string)) (cap : string) (now : Z) :
    ReceiptTable * result MintError string :=
  let t := sweep t now in
  if (MAX_RECEIPTS <=? length t)%nat then (t, Err WouldBlock) else
  match random with
  | None => (t, Err Entropy)
  | Some blocks =>
      match draw t blocks with
      | None => (t, Err Entropy)
      | Some block =>
          ((t ++ [{| e_id := block; e_cap := cap; e_minted := now |}])%list, Ok (encode block))
      end
  end.

(** The scan of [redeem] selects the position with masks instead of branches.
    [usize] is 64 bits wide: negation is [0.wrapping_sub], complement is
    exclusive or with the all-ones word. *)
Definition wrapping_neg (b : Z) : Z := (- b) mod (u64_max + 1).
Definition word_not (m : Z) : Z := Z.lxor m u64_max.

Fixpoint masked_scan (presented : string) (t : ReceiptTable) (index position : Z) (found : bool) :
    Z * bool :=
  match t with
  | [] => (position, found)
  | e :: rest =>
      let matches := ct_eq (e_id e) presented in
      let mask := wrapping_neg (if matches && negb found then 1 else 0)%Z in
      masked_scan presented rest (index + 1)
        (Z.lor (Z.land position (word_not mask)) (Z.land index mask)) (found || matches)
  end.

Definition redeem (t : ReceiptTable) (receipt_hex expected_cap : string) (now : Z) :
    ReceiptTable * option string :=
  let t := sweep t now in
  match decode_exact receipt_hex RECEIPT_LEN with
  | None => (t, None)
  | Some presented =>
      let '(position, found) := masked_scan presented t 0 0 false in
      if found &&
         is_some_and (λ e, bool_decide (e_cap e = expected_cap)) (t !! Z.to_nat position)
      then match swap_remove t (Z.to_nat position) with
           | Some (e, t') => (t', Some (e_cap e))
           | None => (t, None)
           end
      else (t, None)
  end.

Definition clear (t : ReceiptTable) : ReceiptTable := [].

(** * Capability grants *)
Module CapabilityGrants.

(** An entry is its deadline. *)
Definition table : Type := list Z.

Definition is_live (deadline now : Z) : bool := (now <? deadline)%Z.

Definition cg_insert (t : table) (deadline : Z) : table * nat :=
  let t' := (t ++ [deadline])%list in (t', length t' - 1).

Definition cg_remaining_secs (t : table) (index : nat) (now : Z) : option Z :=
  deadline ← t !! index;
  if is_live deadline now then Some (Time.as_secs (Time.duration_since deadline now)) else None.

Definition cg_sweep (t : table) (now : Z) : table := retain (λ deadline, is_live deadline now) t.

Definition cg_clear (t : table) : table := [].

End CapabilityGrants.

(** * The masked scan *)
Lemma wrapping_neg_bit (b : bool) : wrapping_neg (if b then 1 else 0) = if b then u64_max else 0%Z.
Proof. by destruct b. Qed.

Lemma land_max z : (0 <= z <= u64_max)%Z → Z.land z u64_max = z.
Proof.
  intros H. change u64_max with (Z.ones 64). rewrite Z.land_ones by lia.
  apply Z.mod_small. unfold u64_max in H. lia.
Qed.

Lemma masked_step index position (b : bool) :
  (0 <= index <= u64_max)%Z → (0 <= position <= u64_max)%Z →
  Z.lor (Z.land position (word_not (wrapping_neg (if b then 1 else 0))))
        (Z.land index (wrapping_neg (if b then 1 else 0))) =
  if b then index else position.
Proof.
  intros Hi Hp. rewrite wrapping_neg_bit. unfold word_not. destruct b.
  - rewrite Z.lxor_nilpotent, Z.land_0_r, Z.lor_0_l. by apply land_max.
  - rewrite Z.lxor_0_l, Z.land_0_r, Z.lor_0_r. by apply land_max.
Qed.

(** The branch-free scan finds the first matching entry, as a search would. *)
Lemma masked_scan_position presented t index pos :
  (0 <= index)%Z → (index + Z.of_nat (length t) <= u64_max)%Z → (0 <= pos <= u64_max)%Z →
  masked_scan presented t index pos true = (pos, true) ∧
  masked_scan presented t index pos false =
  match position (λ e, ct_eq (e_id e) presented) t with
  | Some i => ((index + Z.of_nat i)%Z, true)
  | None => (pos, false)
  end.
Proof.
  revert index pos. induction t as [|e t IH]; intros index pos Hi Hl Hp; [done|].
  cbn [length] in Hl. cbn [masked_scan position]. rewrite andb_false_r, andb_true_r.
  rewrite (masked_step index pos false) by lia.
  rewrite (masked_step index pos (ct_eq (e_id e) presented)) by lia.
  split; [apply IH; lia|]. destruct (ct_eq (e_id e) presented).
  - rewrite Z.add_0_r. apply IH; lia.
  - cbn [orb]. destruct (IH (index + 1)%Z pos) as [_ ->]; [lia..|].
    destruct (position _ t); simpl; [|done]. f_equal. lia.
Qed.

(** * Table invariant *)

(** Outstanding ids are distinct and as long as they are minted, and there
    are never more than the bound. *)
Definition receipts_wf (t : ReceiptTable) : Prop :=
  NoDup (e_id <$> t) ∧ (length t <= MAX_RECEIPTS)%nat.

Lemma receipt_sweep_wf t now : receipts_wf t → receipts_wf (sweep t now).
Proof.
  intros [Hn Hl]. split; [by apply NoDup_fmap_retain|].
  pose proof (retain_length (receipt_fresh now) t). unfold sweep. lia.
Qed.

Lemma draw_Some t blocks b : draw t blocks = Some b → b ∈ blocks ∧ b ∉ e_id <$> t.
Proof.
  induction blocks as [|c blocks IH]; simpl; [done|]. case_bool.
  - intros [= ->]. split; [by left|]. intros (e & -> & He)%list_elem_of_fmap.
    assert (∀ l f, fold_left (λ found x, found || ct_eq (e_id x) (e_id e)) l f = false →
              f = false ∧ ∀ x, x ∈ l → e_id x ≠ e_id e) as Hf.
    { clear. induction l as [|x l IH]; intros f; simpl; [intros ->; split; [done|]; by intros ? ?%not_elem_of_nil|].
      intros [H1 H2]%IH. apply orb_false_iff in H1 as [H1 H3]. split; [done|].
      intros y [->|Hy]%elem_of_cons; [|by apply H2]. unfold ct_eq in H3. by bool_to_prop. }
    apply Hf in Hb as [_ Hb]. by apply (Hb e).
  - intros [??]%IH. split; [by right|done].
Qed.

Lemma mint_wf t random cap now : receipts_wf t → receipts_wf (mint t random cap now).1.
Proof.
  intros Ht. apply (receipt_sweep_wf t now) in Ht. unfold mint.
  destruct (Nat.leb_spec MAX_RECEIPTS (length (sweep t now))); [done|].
  destruct random as [blocks|]; [|done]. destruct (draw _ _) as [b|] eqn:E; [|done]. simpl.
  apply draw_Some in E as [_ Hb]. destruct Ht as [Hn Hl]. split.
  - rewrite fmap_app. apply NoDup_app. split; [done|]. split; [|apply NoDup_singleton].
    intros x Hx ->%list_elem_of_singleton. done.
  - rewrite length_app. simpl. lia.
Qed.

(** What [redeem] does, on every branch. *)
Inductive redeem_case (t : ReceiptTable) (receipt_hex cap : string) (now : Z) :
    ReceiptTable * option string → Prop :=
| redeem_done e t' :
    decode_exact receipt_hex RECEIPT_LEN = Some (e_id e) → e_cap e = cap →
    receipt_fresh now e = true → e ∈ t → sweep t now ≡ₚ e :: t' →
    redeem_case t receipt_hex cap now (t', Some cap)
| redeem_refused :
    (∀ e, e ∈ t → receipt_fresh now e = true → e_cap e = cap →
      decode_exact receipt_hex RECEIPT_LEN ≠ Some (e_id e)) →
    redeem_case t receipt_hex cap now (sweep t now, None).

Lemma sweep_elem t now e : e ∈ sweep t now ↔ e ∈ t ∧ receipt_fresh now e = true.
Proof. apply elem_of_retain. Qed.

Lemma redeem_cases t receipt_hex cap now :
  receipts_wf t → redeem_case t receipt_hex cap now (redeem t receipt_hex cap now).
Proof.
  intros Ht. apply (receipt_sweep_wf t now) in Ht as [Hn Hl]. unfold redeem.
  destruct (decode_exact receipt_hex RECEIPT_LEN) as [presented|] eqn:Ed.
  2: { constructor. by rewrite Ed. }
  destruct (masked_scan_position presented (sweep t now) 0 0) as [_ Hscan];
    [lia|unfold MAX_RECEIPTS, u64_max in *; lia|unfold u64_max; lia|]. rewrite Hscan.
  destruct (position _ (sweep t now)) as [i|] eqn:Ep.
  - destruct (position_Some _ _ _ Ep) as [(e & He & Hm) _]. unfold ct_eq in Hm. bool_to_prop. subst.
    cbn [andb]. rewrite Z.add_0_l, Nat2Z.id. rewrite He. simpl.
    pose proof (list_elem_of_lookup_2 _ _ _ He) as Hin. apply sweep_elem in Hin as [Hin Hf].
    case_bool_decide as Ec.
    + destruct (swap_remove_Permutation _ _ _ He) as (t' & -> & Hp). rewrite Ec.
      by apply (redeem_done _ _ _ _ e).
    + constructor. intros e' Hin' Hf' Hc' Hd. rewrite Ed in Hd. injection Hd as Hid. apply Ec.
      apply list_elem_of_lookup_1 in Hin' as [j Hj].
      assert (e' ∈ sweep t now) as Hs' by (apply sweep_elem; split; [by eapply list_elem_of_lookup_2|done]).
      apply list_elem_of_lookup_1 in Hs' as [k Hk].
      assert (i = k) as ->; [|by simplify_eq].
      eapply NoDup_lookup; [exact Hn| |]; rewrite list_lookup_fmap;
        [by rewrite He|rewrite Hk; simpl; by rewrite Hid].
  - simpl. constructor. intros e Hin Hf Hc Hd. rewrite Ed in Hd. injection Hd as ->.
    assert (is_Some (position (λ x, ct_eq (e_id x) (e_id e)) (sweep t now))) as [? Hs].
    { apply position_is_Some. exists e. rewrite sweep_elem. unfold ct_eq.
      by rewrite bool_decide_eq_true_2. }
    congruence.
Qed.

Lemma redeem_wf t receipt_hex cap now : receipts_wf t → receipts_wf (redeem t receipt_hex cap now).1.
Proof.
  intros Ht. pose proof (receipt_sweep_wf t now Ht) as [Hn Hl].
  destruct (redeem_cases t receipt_hex cap now Ht) as [e t' _ _ _ _ Hp|]; simpl; [|done].
  split.
  - rewrite Hp in Hn. csimpl in Hn. by apply NoDup_cons in Hn as [_ ?].
  - apply Permutation_length in Hp. simpl in Hp. lia.
Qed.

(** * Runs *)
Inductive receipt_op : Type :=
| RMint (random : option (list string)) (cap : string) (now : Z)
| RRedeem (receipt_hex cap : string) (now : Z)
| RSweep (now : Z)
| RClear.

Definition run_receipt_op (t : ReceiptTable) (op : receipt_op) : ReceiptTable :=
  match op with
  | RMint random cap now => (mint t random cap now).1
  | RRedeem receipt_hex cap now => (redeem t receipt_hex cap now).1
  | RSweep now => sweep t now
  | RClear => clear t
  end.

Definition run_receipts (t : ReceiptTable) (ops : list receipt_op) : ReceiptTable :=
  fold_left run_receipt_op ops t.

Lemma run_receipts_wf t ops : receipts_wf t → receipts_wf (run_receipts t ops).
Proof.
  unfold run_receipts. revert t. induction ops as [|op ops IH]; intros t Ht; [done|]. apply IH.
  destruct op; simpl; [by apply mint_wf|by apply redeem_wf|by apply receipt_sweep_wf|].
  split; [apply NoDup_nil_2|unfold MAX_RECEIPTS; simpl; lia].
Qed.

Lemma receipts_empty_wf : receipts_wf [].
Proof. split; [apply NoDup_nil_2|unfold MAX_RECEIPTS; simpl; lia]. Qed.

(** The random device never delivers [block] to this operation. *)
Definition never_draws (block : string) (op : receipt_op) : Prop :=
  match op with RMint (Some blocks) _ _ => block ∉ blocks | _ => True end.

Lemma run_op_absent block t op :
  receipts_wf t → never_draws block op → block ∉ e_id <$> t → block ∉ e_id <$> run_receipt_op t op.
Proof.
  intros Ht Hop Hb.
  assert (∀ now, block ∉ e_id <$> sweep t now) as Hs.
  { intros now (e & -> & [He _]%sweep_elem)%list_elem_of_fmap. apply Hb. by apply list_elem_of_fmap_2. }
  destruct op as [random cap now|hex cap now|now|]; simpl.
  - unfold mint. destruct (_ <=? _)%nat; [apply Hs|]. destruct random as [blocks|]; [|apply Hs].
    destruct (draw _ _) as [b|] eqn:E; [|apply Hs]. simpl. rewrite fmap_app, elem_of_app.
    intros [?|Hx%list_elem_of_singleton]; [by eapply Hs|]. simpl in *. subst b.
    by apply draw_Some in E as [? _].
  - destruct (redeem_cases t hex cap now Ht) as [e t' _ _ _ _ Hp|]; simpl; [|apply Hs].
    intros Hin. apply (Hs now). rewrite Hp. csimpl. by right.
  - apply Hs.
  - apply not_elem_of_nil.
Qed.

Lemma run_receipts_absent block t ops :
  receipts_wf t → Forall (never_draws block) ops → block ∉ e_id <$> t →
  block ∉ e_id <$> run_receipts t ops.
Proof.
  unfold run_receipts. revert t. induction ops as [|op ops IH]; intros t Ht Hops Hb; [done|].
  apply Forall_cons in Hops as [Hop Hops]. simpl. apply IH; [|done|by apply run_op_absent].
  by apply (run_receipts_wf t [op]).
Qed.

Lemma redeem_absent t hex cap now block :
  receipts_wf t → decode_exact hex RECEIPT_LEN = Some block → block ∉ e_id <$> t →
  (redeem t hex cap now).2 = None.
Proof.
  intros Ht Hd Hb. destruct (redeem_cases t hex cap now Ht) as [e t' He _ _ Hin _|]; [|done].
  rewrite Hd in He. injection He as ->. destruct Hb. by apply list_elem_of_fmap_2.
Qed.

(** A receipt is redeemed at most once.  After a redemption succeeded, no
    later sequence of mints, redemptions, sweeps and clears makes the same
    text redeemable again for any capability, unless the random device
    repeats the same 32 bytes. *)
Lemma receipt_single_use ops hex cap now later cap' now' block :
  decode_exact hex RECEIPT_LEN = Some block →
  (redeem (run_receipts [] ops) hex cap now).2 = Some cap →
  Forall (never_draws block) later →
  (redeem (run_receipts [] (ops ++ RRedeem hex cap now :: later)%list) hex cap' now').2 = None.
Proof.
  intros Hd Hr Hl. unfold run_receipts. rewrite fold_left_app. simpl. fold (run_receipts [] ops).
  pose proof (run_receipts_wf [] ops receipts_empty_wf) as Ht.
  assert (block ∉ e_id <$> (redeem (run_receipts [] ops) hex cap now).1) as Hb.
  { revert Hr. destruct (redeem_cases _ hex cap now Ht) as [e t' He _ _ _ Hp|]; [|done]. intros _. simpl.
    rewrite Hd in He. injection He as ->. destruct (receipt_sweep_wf _ now Ht) as [Hn _].
    rewrite Hp in Hn. csimpl in Hn. by apply NoDup_cons in Hn as [? _]. }
  eapply redeem_absent; [|done|].
  - apply run_receipts_wf, redeem_wf, Ht.
  - apply run_receipts_absent; [by apply redeem_wf|done..].
Qed.

Definition demo_block : string := "0123456789abcdef0123456789abcdef".
Definition demo_hex : string := Eval vm_compute in encode demo_block.

Lemma receipt_single_use_witness :
  (redeem (run_receipts [] ([RMint (Some [demo_block]) "browser" 5] ++
     RRedeem demo_hex "browser" 6 :: [RMint (Some []) "browser" 7])%list) demo_hex "browser" 8).2 = None.
Proof.
  apply (receipt_single_use [RMint (Some [demo_block]) "browser" 5] demo_hex "browser" 6
    [RMint (Some []) "browser" 7] "browser" 8 demo_block).
  - by vm_compute.
  - by vm_compute.
  - repeat constructor. simpl. apply not_elem_of_nil.
Defined.

(** A fresh receipt works.  In any reachable table, minting either
    refuses, because 32 receipts are outstanding or the device failed, leaving
    the live receipts as they are, or returns text that redeems for that very
    capability at any instant before its minute is over. *)
Lemma mint_redeem ops random cap now now' :
  (now <= now' < now + RECEIPT_TTL)%Z →
  (∀ block, block ∈ default [] random → slen block = RECEIPT_LEN) →
  match mint (run_receipts [] ops) random cap now with
  | (t', Ok receipt) => (redeem t' receipt cap now').2 = Some cap
  | (t', Err WouldBlock) => t' = sweep (run_receipts [] ops) now ∧ length t' = MAX_RECEIPTS
  | (t', Err Entropy) => t' = sweep (run_receipts [] ops) now ∧ ∀ blocks, random = Some blocks →
      ∀ block, block ∈ blocks → block ∈ e_id <$> t'
  end.
Proof.
  intros Hnow Hlen. pose proof (run_receipts_wf [] ops receipts_empty_wf) as Ht.
  pose proof (mint_wf _ random cap now Ht) as Hm. revert Hm.
  pose proof (receipt_sweep_wf _ now Ht) as [_ Hmax]. unfold mint.
  destruct (Nat.leb_spec MAX_RECEIPTS (length (sweep (run_receipts [] ops) now))).
  { intros _. split; [done|lia]. }
  destruct random as [blocks|]; [|by intros _].
  destruct (draw _ blocks) as [block|] eqn:E.
  - simpl. intros Hm. pose proof (draw_Some _ _ _ E) as [Hin _]. simpl in Hlen.
    destruct (redeem_cases _ (encode block) cap now' Hm) as [|Hno]; [done|].
    exfalso. refine (Hno {| e_id := block; e_cap := cap; e_minted := now |} _ _ _ _); simpl; [| |done|].
    + apply elem_of_app. right. by left.
    + unfold receipt_fresh, Time.duration_since. simpl. apply Z.ltb_lt. lia.
    + rewrite <-(Hlen block Hin). apply decode_exact_encode.
  - intros _. split; [done|]. intros ? [= <-]. clear -E. revert E.
    induction blocks as [|b blocks IH]; simpl; [by intros _ ? ?%not_elem_of_nil|].
    destruct (fold_left _ _ false) eqn:Ed; [|done]. simpl. intros HE x [->|Hx]%elem_of_cons; [|by apply IH].
    clear -Ed. assert (∀ f, fold_left (λ found e, found || ct_eq (e_id e) b) (sweep (run_receipts [] ops) now) f = true →
      f = true ∨ b ∈ e_id <$> sweep (run_receipts [] ops) now) as Hf.
    { clear. induction (sweep (run_receipts [] ops) now) as [|e l IH]; intros f; simpl; [auto|].
      intros [[?|Hc]%orb_true_iff|?]%IH; [auto| |right; by right].
      unfold ct_eq in Hc. bool_to_prop. subst. right. by left. }
    by destruct (Hf false Ed).
Qed.

Lemma mint_redeem_witness :
  (redeem (mint (run_receipts [] []) (Some [demo_block]) "browser" 5).1 demo_hex "browser" 6).2 = Some "browser".
Proof.
  pose proof (mint_redeem [] (Some [demo_block]) "browser" 5 6) as H.
  apply H.
  - by vm_compute.
  - simpl. intros block ->%list_elem_of_singleton. by vm_compute.
Defined.
