(* ===== verification/Broker.v ===== *)
(** The broker: [crates/secrets/src/server.rs], [server/dispatch*],
    [server/approval.rs] and [server/worker.rs].

    One mutex guards [State].  Every critical section of the source is one
    function here, from taking the lock to releasing it: a request that needs
    no approval is a single section; a GET, REQUEST or AUTHORIZE is a
    connection thread that walks through several, waiting in between; the
    worker thread takes a job, starts its decrypt and finishes it.  What a
    section reads from outside (clock, file system, process tree, random
    device) is the [World] it runs in, a different one each time. *)

From stdpp Require Import prelude strings list.
From Stdlib Require Import ZArith Lia Ascii.
From S2P Require Import Prelude Text Wire Request Secret Store Grants Requests Receipts.

Local Open Scope string_scope.

Section broker.
Context {P : Type}.

(** * What a section sees of the outside

    [w_clock w n] is the [n]-th reading of the clock in the section. *)
Record World : Type := {
  w_clock : nat → Z;
  w_fs : filesystem;
  w_exists : string → bool;
  w_peers : PeerContainment P;
  w_random : option (list string);
}.

(** * State *)
Record Config : Type := {
  max_grant : Z; max_requested_grant : Z; request_ttl : Z; human_sources : list HumanSource;
}.

Record ActiveDecrypt : Type := { ad_id : RequestId; ad_process_group : Z }.

Record State : Type := {
  st_instance : string;
  st_registry : Registry P;
  st_grants : GrantTable;
  st_receipts : list Entry;
  st_capability_grants : CapabilityGrants.table;
  st_queue : Queue;
  st_config : Config;
  st_failures : list (RequestId * ErrCode);
  st_lock_epoch : Z;
  st_active_decrypt : option ActiveDecrypt;
}.

Definition State_new (instance boot_id : string) (config : Config) (l : QueueLimits) : State :=
  {| st_instance := instance; st_registry := Registry_new boot_id; st_grants := [];
     st_receipts := []; st_capability_grants := []; st_queue := Queue_new l; st_config := config;
     st_failures := []; st_lock_epoch := 0; st_active_decrypt := None |}.

Definition set_registry (st : State) (r : Registry P) : State :=
  {| st_instance := st_instance st; st_registry := r; st_grants := st_grants st;
     st_receipts := st_receipts st; st_capability_grants := st_capability_grants st;
     st_queue := st_queue st; st_config := st_config st; st_failures := st_failures st;
     st_lock_epoch := st_lock_epoch st; st_active_decrypt := st_active_decrypt st |}.

Definition set_grants (st : State) (g : GrantTable) : State :=
  {| st_instance := st_instance st; st_registry := st_registry st; st_grants := g;
     st_receipts := st_receipts st; st_capability_grants := st_capability_grants st;
     st_queue := st_queue st; st_config := st_config st; st_failures := st_failures st;
     st_lock_epoch := st_lock_epoch st; st_active_decrypt := st_active_decrypt st |}.

Definition set_queue (st : State) (q : Queue) : State :=
  {| st_instance := st_instance st; st_registry := st_registry st; st_grants := st_grants st;
     st_receipts := st_receipts st; st_capability_grants := st_capability_grants st;
     st_queue := q; st_config := st_config st; st_failures := st_failures st;
     st_lock_epoch := st_lock_epoch st; st_active_decrypt := st_active_decrypt st |}.

Definition set_receipts (st : State) (r : list Entry) (c : CapabilityGrants.table) : State :=
  {| st_instance := st_instance st; st_registry := st_registry st; st_grants := st_grants st;
     st_receipts := r; st_capability_grants := c;
     st_queue := st_queue st; st_config := st_config st; st_failures := st_failures st;
     st_lock_epoch := st_lock_epoch st; st_active_decrypt := st_active_decrypt st |}.

Definition set_failures (st : State) (f : list (RequestId * ErrCode)) : State :=
  {| st_instance := st_instance st; st_registry := st_registry st; st_grants := st_grants st;
     st_receipts := st_receipts st; st_capability_grants := st_capability_grants st;
     st_queue := st_queue st; st_config := st_config st; st_failures := f;
     st_lock_epoch := st_lock_epoch st; st_active_decrypt := st_active_decrypt st |}.

Definition set_epoch (st : State) (e : Z) : State :=
  {| st_instance := st_instance st; st_registry := st_registry st; st_grants := st_grants st;
     st_receipts := st_receipts st; st_capability_grants := st_capability_grants st;
     st_queue := st_queue st; st_config := st_config st; st_failures := st_failures st;
     st_lock_epoch := e; st_active_decrypt := st_active_decrypt st |}.

Definition set_active (st : State) (a : option ActiveDecrypt) : State :=
  {| st_instance := st_instance st; st_registry := st_registry st; st_grants := st_grants st;
     st_receipts := st_receipts st; st_capability_grants := st_capability_grants st;
     st_queue := st_queue st; st_config := st_config st; st_failures := st_failures st;
     st_lock_epoch := st_lock_epoch st; st_active_decrypt := a |}.

(** [State::kill_active], with the process groups it kills. *)
Definition kill_active (st : State) (i : RequestId) : State * list Z :=
  match st_active_decrypt st with
  | Some a => if (ad_id a =? i)%Z then (set_active st None, [ad_process_group a]) else (st, [])
  | None => (st, [])
  end.

(** * Decisions *)
Inductive Outcome : Type :=
| OOk
| OFields (fields : string)
| OPayload (payload : string)
| OBytes (value : string)
| OReceipt (receipt : string)
| OFailed (code : ErrCode) (message : string).

Definition released_bytes (o : Outcome) : option Z :=
  match o with OBytes value => Some (slen value) | _ => None end.

Definition decision_word (o : Outcome) : string :=
  match o with OFailed code _ => wire code | _ => "ok" end.

Record Decision : Type := {
  d_outcome : Outcome; d_scope_kind : option ScopeKind;
  d_source : option string; d_request_id : option RequestId;
}.

Definition Decision_new (o : Outcome) : Decision :=
  {| d_outcome := o; d_scope_kind := None; d_source := None; d_request_id := None |}.

(** * Requests that take one section *)
Definition hello (st : State) (version : Z) : Decision :=
  Decision_new
    (if (version =? PROTOCOL_VERSION)%Z then
       OFields ("version=" +:+ to_string PROTOCOL_VERSION +:+ " instance=" +:+ st_instance st
                +:+ " epoch=" +:+ to_string (st_lock_epoch st))
     else OFailed VersionMismatch "unsupported protocol version").

Definition register (st : State) (token_hex session : string) (root : P) : State * Decision :=
  match parse_hex token_hex with
  | Err e => (st, Decision_new (OFailed e "invalid session token"))
  | Ok tok =>
      match Grants.register (st_registry st) {| token := tok; Grants.session := session; Grants.root := root |} with
      | (r, Ok displaced) =>
          (set_grants (set_registry st r) (Table.revoke_tokens (st_grants st) displaced),
           {| d_outcome := OOk; d_scope_kind := Some VerifiedSession; d_source := None; d_request_id := None |})
      | (r, Err e) =>
          (set_registry st r, Decision_new (OFailed e "token is already bound to another session"))
      end
  end.

Definition unregister (st : State) (session : string) : State * Decision :=
  let '(r, tokens) := Grants.unregister (st_registry st) session in
  (set_grants (set_registry st r) (Table.revoke_tokens (st_grants st) tokens), Decision_new OOk).

Definition grants (st : State) (now : Z) : Decision :=
  Decision_new (OPayload (Table.render (st_grants st) now)).

Definition deny (st : State) (i : RequestId) (real_now : Z) : State * Decision * list Z :=
  let '(q, denied) := Requests.deny (st_queue st) i real_now in
  if denied then
    let '(st', killed) := kill_active (set_queue st q) i in (st', Decision_new OOk, killed)
  else (set_queue st q, Decision_new (OFailed BadRequest "request is not pending"), []).

(** [lock]; publishing to the subscribers happens after the section. *)
Definition lock (st : State) (real_now : Z) : State * Decision * list Z :=
  let st := set_receipts (set_grants st (Table.revoke_all (st_grants st)))
              (clear (st_receipts st)) (CapabilityGrants.cg_clear (st_capability_grants st)) in
  let st := set_epoch st (saturating_add_u64 (st_lock_epoch st) 1) in
  match st_active_decrypt st with
  | Some active =>
      (set_queue (set_active st None) (Requests.deny (st_queue st) (ad_id active) real_now).1,
       Decision_new OOk, [ad_process_group active])
  | None => (st, Decision_new OOk, [])
  end.

Definition redeem (st : State) (receipt_hex expected_cap : string) (now : Z) : State * Decision :=
  match capability_parse expected_cap with
  | Err e => (st, Decision_new (OFailed e "invalid capability name"))
  | Ok cap =>
      match Time.checked_add now (max_grant (st_config st)) with
      | None => (st, Decision_new (OFailed Internal "capability grant deadline is out of range"))
      | Some deadline =>
          let '(receipts, redeemed) := Receipts.redeem (st_receipts st) receipt_hex cap now in
          let st := set_receipts st receipts (st_capability_grants st) in
          match redeemed with
          | None => (st, Decision_new (OFailed Denied "receipt is not redeemable"))
          | Some cap =>
              let '(caps, index) := CapabilityGrants.cg_insert (st_capability_grants st) deadline in
              let st := set_receipts st (st_receipts st) caps in
              match CapabilityGrants.cg_remaining_secs caps index now with
              | None => (st, Decision_new (OFailed Internal "capability grant record missing"))
              | Some ttl =>
                  (st, Decision_new (OFields (redeemed_reply cap (st_instance st) (st_lock_epoch st) ttl)))
              end
          end
      end
  end.

(** * Approval *)
Record Access : Type := {
  a_key : string; a_token_hex : option string; a_tty : option string; a_requested_ttl : option Z;
}.

Inductive Approval : Type :=
| AGranted (source : option string) (request_id : option RequestId)
| ARefused (error : ErrCode)
| AIncomplete (error : ErrCode) (request_id : RequestId).

(** What a waiting connection holds. *)
Record Waiting : Type := { w_id : RequestId; w_source : string; w_deadline : Z }.

(** [map(...).transpose()?] on the presented token. *)
Definition parse_token (token_hex : option string) : result ErrCode (option string) :=
  match token_hex with
  | None => Ok None
  | Some text => Some <$> parse_hex text
  end.

Definition resolve_access (w : World) (st : State) (a : Access) (caller : P) :
    State * result ErrCode (Scope * string) :=
  match secret_name_parse (a_key a) with
  | Err e => (st, Err e)
  | Ok key =>
      match parse_token (a_token_hex a) with
      | Err e => (st, Err e)
      | Ok tok =>
          let '(r, scope) := @resolve P (w_peers w) (st_registry st) tok (a_tty a) (Some caller) in
          (set_registry st r, match scope with Ok s => Ok (s, key) | Err e => Err e end)
      end
  end.

(** The cached-grant part of [await_approval]: the answer at once, or the
    state to go on with. *)
Definition cached_grant (w : World) (st : State) (scope : Scope) (key : string)
    (force_fresh : bool) : State * option Approval :=
  match Table.lookup (st_grants st) scope key (w_clock w 0) with
  | Some (_, source, ident) =>
      if is_ok_and (λ current, bool_decide (current = ident))
           (identity (w_fs w) (human_sources (st_config st)) key) then
        if force_fresh then (set_grants st (Table.revoke (st_grants st) scope key), None)
        else (st, Some (AGranted (Some source) None))
      else (set_grants st (Table.revoke (st_grants st) scope key), None)
  | None => (st, None)
  end.

(** [await_approval] up to its loop. *)
Definition await_enter (w : World) (st : State) (scope : Scope) (key : string)
    (force_fresh : bool) (rttl : option Z) : State * (Approval + Waiting) :=
  match cached_grant w st scope key force_fresh with
  | (st, Some approval) => (st, inl approval)
  | (st, None) =>
      match locate (w_fs w) (human_sources (st_config st)) key with
      | Err e => (st, inl (ARefused e))
      | Ok source =>
          match Time.checked_add (w_clock w 1) (request_ttl (st_config st)) with
          | None => (st, inl (ARefused Internal))
          | Some deadline =>
              match enqueue (st_queue st) scope key (w_clock w 1) rttl with
              | (q, Err e) => (set_queue st q, inl (ARefused e))
              | (q, Ok i) =>
                  (set_queue st q, inr {| w_id := i; w_source := source; w_deadline := deadline |})
              end
          end
      end
  end.

(** One turn of the waiting loop: an answer, or wait again. *)
Definition await_poll (now1 now2 : Z) (st : State) (t : Waiting) : State * option Approval * list Z :=
  let i := w_id t in
  match state_of (st_queue st) i with
  | Some RequestState.Granted => (st, Some (AGranted (Some (w_source t)) (Some i)), [])
  | Some RequestState.Denied => (st, Some (AIncomplete Denied i), [])
  | Some RequestState.TimedOut => (st, Some (AIncomplete Timeout i), [])
  | Some RequestState.Failed =>
      let error := match List.find (λ f, (f.1 =? i)%Z) (st_failures st) with
                   | Some (_, e) => e | None => Internal end in
      (st, Some (AIncomplete error i), [])
  | Some RequestState.Pending | Some RequestState.Decrypting =>
      match Time.checked_duration_since (w_deadline t) now1 with
      | Some _ => (st, None, [])
      | None =>
          let '(st', killed) := kill_active (set_queue st (timeout (st_queue st) i now2).1) i in
          (st', Some (AIncomplete Timeout i), killed)
      end
  | None => (st, Some (AIncomplete Internal i), [])
  end.

(** The rest of [dispatch_access]: what the caller is told. *)
Definition access_decision (w : World) (st : State) (a : Access) (return_value : bool)
    (scope : Scope) (key : string) (approval : Approval) : Decision :=
  let '(outcome, source, request_id) :=
    match approval with
    | ARefused e => (OFailed e "request refused", None, None)
    | AIncomplete e i => (OFailed e "approval did not complete", None, Some i)
    | AGranted source i =>
        if return_value then
          (match Table.lookup (st_grants st) scope key (w_clock w 0) with
           | Some (value, _, _) => OBytes value
           | None => OFailed Internal "grant disappeared"
           end, source, i)
        else
          let ttl := _ ← a_requested_ttl a;
                     Table.remaining_secs (st_grants st) scope key (w_clock w 0) in
          (OFields (match ttl with
                    | None => "status=granted"
                    | Some t => "status=granted ttl=" +:+ to_string t
                    end), source, i)
    end in
  {| d_outcome := outcome; d_scope_kind := Some (kind scope); d_source := source;
     d_request_id := request_id |}.

Definition unresolved (e : ErrCode) : Decision :=
  Decision_new (OFailed e "request has no usable scope").

(** * Authorization *)
Definition receipt_mint_failure (e : MintError) : Outcome :=
  match e with
  | WouldBlock => OFailed TooManyPending "too many outstanding receipts"
  | Entropy => OFailed Internal "receipt entropy unavailable"
  end.

Definition finish_authorization (w : World) (st : State) (cap : string) (epoch_before : Z)
    (d : Decision) : State * Decision :=
  let answer o := {| d_outcome := o; d_scope_kind := d_scope_kind d; d_source := d_source d;
                     d_request_id := d_request_id d |} in
  match d_outcome d, d_request_id d with
  | OFields _, Some _ =>
      if (st_lock_epoch st =? epoch_before)%Z then
        let '(receipts, minted) := mint (st_receipts st) (w_random w) cap (w_clock w 0) in
        (set_receipts st receipts (st_capability_grants st),
         answer (match minted with Ok receipt => OReceipt receipt | Err e => receipt_mint_failure e end))
      else (st, answer (OFailed Denied "locked during authorization"))
  | other, _ => (st, answer other)
  end.

(** * The worker *)
Record Job : Type := {
  j_id : RequestId; j_scope : Scope; j_key : string; j_generation : Z; j_lock_epoch : Z;
  j_requested_ttl : option Z;
}.

Definition effective_grant_ttl (requested : option Z) (max_grant max_requested : Z) : Z :=
  match requested with
  | None => max_grant
  | Some secs => Z.min (Time.from_secs secs) max_requested
  end.

(** Killing every request the sweep expired. *)
Fixpoint kill_all (st : State) (ids : list RequestId) : State * list Z :=
  match ids with
  | [] => (st, [])
  | i :: rest =>
      let '(st, killed) := kill_active st i in
      let '(st, more) := kill_all st rest in (st, (killed ++ more)%list)
  end.

(** The periodic upkeep at the head of the worker's section. *)
Definition upkeep (w : World) (st : State) : State * list Z :=
  let now := w_clock w 0 in
  let '(q, expired) := sweep_timeouts (st_queue st) now in
  let '(st, killed) := kill_all (set_queue st q) expired in
  let st := set_grants st (Table.revoke_expired (st_grants st) now).1 in
  let st := set_grants st (Table.revoke_missing_ttys (w_exists w) (st_grants st)) in
  let st := set_queue st (prune (st_queue st) now) in
  let st := set_receipts st (sweep (st_receipts st) now)
              (CapabilityGrants.cg_sweep (st_capability_grants st) now) in
  let st := set_failures st
              (retain (λ f, is_some (state_of (st_queue st) f.1)) (st_failures st)) in
  (st, killed).

Definition take_job (w : World) (st : State) : State * option Job * list Z :=
  let now := w_clock w 0 in
  let '(st, killed) := upkeep w st in
  match next_ready (st_queue st) now with
  | None => (st, None, killed)
  | Some i =>
      match mark_decrypting (st_queue st) i now with
      | (q, None) => (set_queue st q, None, killed)
      | (q, Some g) =>
          match describe q i with
          | None => (set_queue st (fail q i now), None, killed)
          | Some (scope, key, rttl) =>
              (set_queue st q,
               Some {| j_id := i; j_scope := scope; j_key := key; j_generation := g;
                       j_lock_epoch := st_lock_epoch st; j_requested_ttl := rttl |}, killed)
          end
      end
  end.

(** The callback run once the decrypting process exists. *)
Definition decrypt_started (st : State) (j : Job) (process_group : Z) : State * list Z :=
  if bool_decide (state_of (st_queue st) (j_id j) = Some RequestState.Decrypting)
  then (set_active st (Some {| ad_id := j_id j; ad_process_group := process_group |}), [])
  else (st, [process_group]).

(** What the decryptor returns: the value, its source and file identity. *)
Record Decrypted : Type := { dec_value : string; dec_source : string; dec_identity : FileIdentity }.

Definition session_is_active (w : World) (st : State) (scope : Scope) : bool :=
  match scope with
  | Session tok =>
      is_some_and (λ r, @is_alive P (w_peers w) (Grants.root r)) (registration (st_registry st) tok)
  | Tty tty _ => w_exists w tty
  end.

Definition finish_job (w : World) (st : State) (j : Job) (decrypted : result ErrCode Decrypted) :
    State * bool * list Z :=
  let '(st, killed) := kill_active st (j_id j) in
  match decrypted with
  | Err e =>
      (set_failures (set_queue st (fail (st_queue st) (j_id j) (w_clock w 0)))
         (st_failures st ++ [(j_id j, e)])%list, false, killed)
  | Ok dec =>
      let st := if negb (st_lock_epoch st =? j_lock_epoch j)%Z || negb (session_is_active w st (j_scope j))
                then set_queue st (Requests.deny (st_queue st) (j_id j) (w_clock w 0)).1 else st in
      let '(q, current) := complete (st_queue st) (j_id j) (j_generation j) (w_clock w 1) in
      let st := set_queue st q in
      if current then
        let ttl := effective_grant_ttl (j_requested_ttl j) (max_grant (st_config st))
                     (max_requested_grant (st_config st)) in
        (set_grants st (Table.insert (st_grants st) (j_scope j) (j_key j) (dec_value dec) (w_clock w 2)
           {| go_source := dec_source dec; go_identity := dec_identity dec |} ttl), true, killed)
      else (st, false, killed)
  end.

End broker.
