(* ===== verification/System.v ===== *)
(** The running broker: connection threads, the worker thread and their
    interleavings.

    [dispatch] of [server/dispatch.rs] routes a request; the access requests
    become connection threads that run [dispatch_access] section by section
    ([server/approval.rs]), the worker of [server/worker.rs] alternates between
    taking and finishing jobs.  An [action] is one critical section of one
    thread; a run is any sequence of actions, so every interleaving the mutex
    allows is a run.  Each section records what it did in a ghost history,
    newest event first, which the theorems are stated on. *)

From stdpp Require Import prelude strings list.
From Stdlib Require Import ZArith Lia Ascii.
From S2P Require Import Prelude Text Wire Request Secret Store Grants Requests Receipts Broker.

Local Open Scope string_scope.

Section system.
Context {P : Type}.

(** * Threads *)

(** Where a connection thread stands between two of its sections. *)
Inductive Pc : Type :=
| PcResolve
| PcEnter (scope : Scope) (key : string)
| PcWait (scope : Scope) (key : string) (t : Waiting)
| PcFinish (scope : Scope) (key : string) (approval : Approval)
| PcMint (d : Decision)
| PcDone (d : Decision).

(** A connection: its caller, what it asked, whether it wants the value,
    whether a cached grant must not be used, and, for an authorization, the
    capability with the epoch read before it began. *)
Record Conn : Type := {
  c_caller : P; c_access : Access; c_return : bool; c_fresh : bool;
  c_auth : option (string * Z); c_pc : Pc;
}.

Definition set_pc (c : Conn) (pc : Pc) : Conn :=
  {| c_caller := c_caller c; c_access := c_access c; c_return := c_return c; c_fresh := c_fresh c;
     c_auth := c_auth c; c_pc := pc |}.

(** * History *)
Inductive event : Type :=
| EResolve (i : nat) (scope : Scope)
| EStart (id : RequestId) (scope : Scope) (key : string)
| EInstall (id : RequestId) (scope : Scope) (key value : string)
| ERelease (i : nat) (scope : Scope) (key value : string)
| EMint (i : nat) (id : RequestId) (cap : string)
| ELock.

Record Sys : Type := {
  s_state : State (P:=P); s_conns : list Conn; s_job : option Job; s_history : list event;
}.

Definition Sys_new (instance boot_id : string) (config : Config) (l : QueueLimits) : Sys :=
  {| s_state := State_new instance boot_id config l; s_conns := []; s_job := None; s_history := [] |}.

(** * Dispatch *)

(** A request that is answered in one section, with whether it was a LOCK. *)
Definition dispatch_now (w : World (P:=P)) (st : State) (caller : P) (r : Request) :
    State * option Decision :=
  let now := w_clock w 0 in
  match r with
  | Hello version => (st, Some (hello st version))
  | Register token_hex session _ =>
      let '(st, d) := Broker.register st token_hex session caller in (st, Some d)
  | Unregister session => let '(st, d) := Broker.unregister st session in (st, Some d)
  | Get key _ _ _ | RequestGrant key _ _ _ =>
      if is_capability_key key then
        (st, Some (Decision_new (OFailed NotHumanKey "capability keys hold no retrievable value")))
      else (st, None)
  | Grants => (st, Some (grants st now))
  | Deny i => let '(st, d, _) := Broker.deny st i now in (st, Some d)
  | Lock => let '(st, d, _) := lock st now in (st, Some d)
  | Subscribe => (st, Some (Decision_new (OFailed BadRequest "subscription is connection-scoped")))
  | Authorize cap _ _ =>
      match capability_parse cap with
      | Err e => (st, Some (Decision_new (OFailed e "invalid capability name")))
      | Ok _ => (st, None)
      end
  | Redeem receipt_hex cap => let '(st, d) := Broker.redeem st receipt_hex cap now in (st, Some d)
  end.

(** The connection thread a request that needs approval starts as. *)
Definition open_conn (st : State (P:=P)) (caller : P) (r : Request) : option Conn :=
  match r with
  | Get key token_hex tty ttl =>
      Some {| c_caller := caller; c_return := true; c_fresh := false; c_auth := None; c_pc := PcResolve;
              c_access := {| a_key := key; a_token_hex := token_hex; a_tty := tty; a_requested_ttl := ttl |} |}
  | RequestGrant key token_hex tty ttl =>
      Some {| c_caller := caller; c_return := false; c_fresh := false; c_auth := None; c_pc := PcResolve;
              c_access := {| a_key := key; a_token_hex := token_hex; a_tty := tty; a_requested_ttl := ttl |} |}
  | Authorize cap token_hex tty =>
      match capability_parse cap with
      | Err _ => None
      | Ok cap =>
          Some {| c_caller := caller; c_return := false; c_fresh := true;
                  c_auth := Some (cap, st_lock_epoch st); c_pc := PcResolve;
                  c_access := {| a_key := key_name cap; a_token_hex := token_hex; a_tty := tty;
                                 a_requested_ttl := None |} |}
      end
  | _ => None
  end.

(** After [dispatch_access], an authorization goes on to mint. *)
Definition answered (c : Conn) (d : Decision) : Pc :=
  match c_auth c with Some _ => PcMint d | None => PcDone d end.

(** The next section of connection [i]. *)
Definition run_conn (w : World (P:=P)) (st : State) (i : nat) (c : Conn) : State * Conn * list event :=
  match c_pc c with
  | PcResolve =>
      match resolve_access w st (c_access c) (c_caller c) with
      | (st, Ok (scope, key)) => (st, set_pc c (PcEnter scope key), [EResolve i scope])
      | (st, Err e) => (st, set_pc c (answered c (unresolved e)), [])
      end
  | PcEnter scope key =>
      match await_enter w st scope key (c_fresh c) (a_requested_ttl (c_access c)) with
      | (st, inl approval) => (st, set_pc c (PcFinish scope key approval), [])
      | (st, inr t) =>
          match await_poll (w_clock w 2) (w_clock w 3) st t with
          | (st, Some approval, _) => (st, set_pc c (PcFinish scope key approval), [])
          | (st, None, _) => (st, set_pc c (PcWait scope key t), [])
          end
      end
  | PcWait scope key t =>
      match await_poll (w_clock w 0) (w_clock w 1) st t with
      | (st, Some approval, _) => (st, set_pc c (PcFinish scope key approval), [])
      | (st, None, _) => (st, c, [])
      end
  | PcFinish scope key approval =>
      let d := access_decision w st (c_access c) (c_return c) scope key approval in
      (st, set_pc c (answered c d),
       match d_outcome d with OBytes value => [ERelease i scope key value] | _ => [] end)
  | PcMint d =>
      match c_auth c with
      | None => (st, c, [])
      | Some (cap, epoch_before) =>
          let '(st, d') := finish_authorization w st cap epoch_before d in
          (st, set_pc c (PcDone d'),
           match d_outcome d', d_request_id d' with
           | OReceipt _, Some id => [EMint i id cap]
           | _, _ => []
           end)
      end
  | PcDone _ => (st, c, [])
  end.

(** * Actions *)
Inductive action : Type :=
| ARequest (w : World (P:=P)) (caller : P) (r : Request)
| AConn (w : World (P:=P)) (i : nat)
| ATake (w : World (P:=P))
| AStart (process_group : Z)
| AFinish (w : World (P:=P)) (decrypted : result ErrCode Decrypted).

Definition step (s : Sys) (a : action) : Sys :=
  let st := s_state s in
  match a with
  | ARequest w caller r =>
      match dispatch_now w st caller r with
      | (st', Some _) =>
          {| s_state := st'; s_conns := s_conns s; s_job := s_job s;
             s_history := match r with Lock => ELock :: s_history s | _ => s_history s end |}
      | (st', None) =>
          {| s_state := st';
             s_conns := (s_conns s ++ match open_conn st caller r with Some c => [c] | None => [] end)%list;
             s_job := s_job s; s_history := s_history s |}
      end
  | AConn w i =>
      match s_conns s !! i with
      | None => s
      | Some c =>
          let '(st', c', events) := run_conn w st i c in
          {| s_state := st'; s_conns := <[i := c']> (s_conns s); s_job := s_job s;
             s_history := (events ++ s_history s)%list |}
      end
  | ATake w =>
      match s_job s with
      | Some _ => s
      | None =>
          let '(st', job, _) := take_job w st in
          {| s_state := st'; s_conns := s_conns s; s_job := job;
             s_history := match job with
                          | Some j => EStart (j_id j) (j_scope j) (j_key j) :: s_history s
                          | None => s_history s
                          end |}
      end
  | AStart process_group =>
      match s_job s with
      | None => s
      | Some j => {| s_state := (decrypt_started st j process_group).1; s_conns := s_conns s;
                     s_job := s_job s; s_history := s_history s |}
      end
  | AFinish w decrypted =>
      match s_job s with
      | None => s
      | Some j =>
          let '(st', installed, _) := finish_job w st j decrypted in
          {| s_state := st'; s_conns := s_conns s; s_job := None;
             s_history := match decrypted with
                          | Ok dec => if installed
                                      then EInstall (j_id j) (j_scope j) (j_key j) (dec_value dec) :: s_history s
                                      else s_history s
                          | Err _ => s_history s
                          end |}
      end
  end.

Definition run (s : Sys) (actions : list action) : Sys := fold_left step actions s.

(** * What the history must justify *)

(** The events since the last LOCK. *)
Fixpoint since_lock (h : list event) : list event :=
  match h with
  | [] => []
  | ELock :: _ => []
  | e :: h' => e :: since_lock h'
  end.

Definition minted (h : list event) : list RequestId :=
  omap (λ e, match e with EMint _ id _ => Some id | _ => None end) h.

Definition justified (e : event) (before : list event) : Prop :=
  match e with
  | EInstall id scope key _ => EStart id scope key ∈ since_lock before
  | ERelease i scope key value =>
      is_capability_key key = false ∧ EResolve i scope ∈ before ∧
      ∃ id, EInstall id scope key value ∈ since_lock before
  | EMint i id cap =>
      id ∉ minted before ∧ ∃ scope value, EInstall id scope (key_name cap) value ∈ since_lock before
  | _ => True
  end.

Fixpoint history_ok (h : list event) : Prop :=
  match h with
  | [] => True
  | e :: before => justified e before ∧ history_ok before
  end.

End system.

(** * How a section may change the queue *)

(** [q'] has the requests of [q], possibly fewer, further along or with new
    ones after [next_id q]; none that ended is active again, and only [x] may
    have become granted. *)
Definition same_origin (r r' : PendingRequest) : Prop :=
  r_id r' = r_id r ∧ r_scope r' = r_scope r ∧ r_key r' = r_key r ∧
  (is_active (r_state r') = true → is_active (r_state r) = true).

Definition queue_frame (x : option RequestId) (q q' : Queue) : Prop :=
  (next_id q <= next_id q')%Z ∧
  ∀ r', r' ∈ requests q' →
    (∃ r, r ∈ requests q ∧ same_origin r r' ∧
       (r_state r' = RequestState.Granted → r_state r = RequestState.Granted ∨ x = Some (r_id r'))) ∨
    ((next_id q <= r_id r')%Z ∧ (r_state r' = RequestState.Granted → x = Some (r_id r'))).

Lemma queue_frame_refl x q : queue_frame x q q.
Proof. split; [lia|]. intros r Hr. left. exists r. split_and!; auto. done. Qed.

Lemma queue_frame_same x q q' :
  requests q' = requests q → next_id q' = next_id q → queue_frame x q q'.
Proof. unfold queue_frame. intros -> ->. apply queue_frame_refl. Qed.

Lemma queue_frame_trans x q1 q2 q3 : queue_frame x q1 q2 → queue_frame x q2 q3 → queue_frame x q1 q3.
Proof.
  intros [Hn1 H1] [Hn2 H2]. split; [lia|]. intros r3 Hr3.
  destruct (H2 r3 Hr3) as [(r2 & Hr2 & (Hi & Hs & Hk & Ha) & Hg)|[? ?]]; [|right; split; [lia|done]].
  destruct (H1 r2 Hr2) as [(r1 & Hr1 & (Hi1 & Hs1 & Hk1 & Ha1) & Hg1)|[? Hng]].
  - left. exists r1. split; [done|]. split; [unfold same_origin; split_and!; [congruence..|auto]|].
    intros [Hx|Hx]%Hg; [|auto]. rewrite Hi in *. auto.
  - right. rewrite Hi in *. split; [lia|]. intros [Hx|Hx]%Hg; auto.
Qed.

Lemma queue_frame_weaken x q q' : queue_frame None q q' → queue_frame x q q'.
Proof.
  intros [Hn H]. split; [done|]. intros r' Hr'.
  destruct (H r' Hr') as [(r & Hr & Ho & Hg)|[? Hg]]; [left|right].
  - exists r. split_and!; try done. intros [?|?]%Hg; [by left|done].
  - split; [done|]. by intros ?%Hg.
Qed.

(** Requests rewritten in place. *)
Lemma queue_frame_fmap x u q q' :
  next_id q' = next_id q → requests q' = u <$> requests q →
  (∀ r, r ∈ requests q → same_origin r (u r) ∧
    (r_state (u r) = RequestState.Granted → r_state r = RequestState.Granted ∨ x = Some (r_id r))) →
  queue_frame x q q'.
Proof.
  intros Hn Hr Hu. split; [lia|]. rewrite Hr. intros y (r & -> & Hin)%list_elem_of_fmap.
  destruct (Hu r Hin) as [Ho Hg]. left. exists r. split_and!; [done|done|].
  destruct Ho as (-> & _). done.
Qed.

Lemma queue_frame_at_id x i f q q' :
  NoDup (r_id <$> requests q) →
  next_id q' = next_id q → requests q' = update_first (has_id i) f (requests q) →
  (∀ r, r ∈ requests q → r_id r = i → same_origin r (f r) ∧
    (r_state (f r) = RequestState.Granted → r_state r = RequestState.Granted ∨ x = Some i)) →
  queue_frame x q q'.
Proof.
  intros Hnd Hn Hr Hf. rewrite update_first_at_id in Hr by done.
  apply (queue_frame_fmap x (at_id i f)); [done..|]. intros r Hin. unfold at_id.
  destruct (has_id i r) eqn:E; [|split; [done|auto]]. apply has_id_spec in E. subst. by apply Hf.
Qed.

Lemma frame_end_early s q i now :
  NoDup (r_id <$> requests q) → s ≠ RequestState.Granted → queue_frame None q (end_early s q i now).1.
Proof.
  intros Hnd Hs. unfold end_early. destruct (List.find _ _) as [r|] eqn:E; [|apply queue_frame_refl].
  case_match; [|apply queue_frame_refl]. apply find_id_Some in E as [Hr Hid].
  apply (queue_frame_at_id None i (invalidate s)); [done..|]. intros r' Hr' Hid'.
  rewrite (ids_unique _ r' r Hnd Hr' Hr) by congruence. by split; [split_and!|].
Qed.

Lemma frame_fail q i now : NoDup (r_id <$> requests q) → queue_frame None q (fail q i now).
Proof. intros Hnd. by apply (queue_frame_at_id None i (set_state RequestState.Failed)). Qed.

Lemma frame_complete q i g now :
  NoDup (r_id <$> requests q) →
  queue_frame (if (complete q i g now).2 then Some i else None) q (complete q i g now).1.
Proof.
  intros Hnd. unfold complete. simpl. destruct (existsb _ _).
  - apply (queue_frame_at_id (Some i) i (set_state RequestState.Granted)); auto.
    intros r _ _. split; [split_and!; done|auto].
  - by apply queue_frame_same.
Qed.

Lemma frame_mark q i now :
  NoDup (r_id <$> requests q) → queue_frame None q (mark_decrypting q i now).1.
Proof.
  intros Hnd. unfold mark_decrypting. case_match; [apply queue_frame_refl|].
  destruct (List.find _ _) as [r|] eqn:E; [|apply queue_frame_refl].
  case_bool; [apply queue_frame_refl|]. simpl. apply find_id_Some in E as [Hr Hid].
  apply (queue_frame_at_id None i (start_decrypt (saturating_add_u64 (q_generation q) 1))); [done..|].
  intros r' Hr' Hid'. rewrite (ids_unique _ r' r Hnd Hr' Hr) by congruence. split; [|done].
  split_and!; try done. intros _. by rewrite Hb.
Qed.

Lemma frame_sweep q now : queue_frame None q (sweep_timeouts q now).1.
Proof.
  unfold sweep_timeouts. set (u := λ r, if overdue q now r then _ else r).
  destruct (fold_finish (r_id <$> retain (overdue q now) (requests q)) (set_requests q (u <$> requests q)) now)
    as (Hr & _ & Hn & _). apply (queue_frame_fmap None u); [done..|].
  intros r _. unfold u. destruct (overdue q now r); [|split; [done|auto]]. by split; [split_and!|].
Qed.

Lemma frame_prune q now : queue_frame None q (prune q now).
Proof.
  split; [done|]. intros r [Hr _]%elem_of_retain. left. exists r. split_and!; auto. done.
Qed.

Lemma frame_enqueue q s k now rttl :
  (next_id q <= u64_max)%Z → queue_frame None q (enqueue q s k now rttl).1.
Proof.
  intros Hn. destruct (enqueue q s k now rttl).2 as [i|e] eqn:E.
  2: { destruct (enqueue_error _ _ _ _ _ _ E) as [_ ->]. apply queue_frame_refl. }
  destruct (enqueue_fresh _ _ _ _ _ _ E) as [(r & _ & _ & _ & _ & _ & _ & ->)|(-> & Hr & Hnx)];
    [apply queue_frame_refl|].
  split; [rewrite Hnx; unfold saturating_add_u64; lia|]. rewrite Hr.
  intros r [Hin| ->%list_elem_of_singleton]%elem_of_app.
  - left. exists r. split_and!; auto. done.
  - right. simpl. split; [lia|done].
Qed.

(** * How a section may change the state

    [quiet k st st'] is what every section does that neither installs a grant
    nor locks: grants only disappear, the queue moves within its frame and
    keeps its invariant, using at most [k] new ids. *)
Section quiet.
Context {P : Type}.
Implicit Types (st : State (P:=P)).

Definition quiet (k : Z) st st' : Prop :=
  (∀ g, g ∈ st_grants st' → g ∈ st_grants st) ∧
  st_lock_epoch st' = st_lock_epoch st ∧
  ∀ ticket, desk_wf {| d_queue := st_queue st; d_ticket := ticket |} →
    (next_id (st_queue st) + k <= u64_max)%Z →
    desk_wf {| d_queue := st_queue st'; d_ticket := ticket |} ∧
    queue_frame None (st_queue st) (st_queue st') ∧
    (next_id (st_queue st') <= next_id (st_queue st) + k)%Z.

Lemma quiet_refl st : quiet 0 st st.
Proof. split_and!; [done|done|]. intros. split_and!; [done|apply queue_frame_refl|lia]. Qed.

Lemma quiet_trans a b st1 st2 st3 :
  (0 <= b)%Z → quiet a st1 st2 → quiet b st2 st3 → quiet (a + b) st1 st3.
Proof.
  intros Hb (Hg1 & He1 & Hq1) (Hg2 & He2 & Hq2). split_and!; [auto|congruence|].
  intros ticket Hd Hn. destruct (Hq1 ticket Hd) as (Hd2 & Hf1 & Hn1); [lia|].
  destruct (Hq2 ticket Hd2) as (Hd3 & Hf2 & Hn2); [lia|].
  split_and!; [done|by eapply queue_frame_trans|lia].
Qed.

Lemma quiet_mono a b st st' : (a <= b)%Z → quiet a st st' → quiet b st st'.
Proof.
  intros Hab (Hg & He & Hq). split_and!; [done|done|]. intros ticket Hd Hn.
  destruct (Hq ticket Hd) as (? & ? & ?); [lia|]. split_and!; [done|done|lia].
Qed.

(** Sections that leave the queue alone. *)
Lemma quiet_same st st' :
  (∀ g, g ∈ st_grants st' → g ∈ st_grants st) → st_lock_epoch st' = st_lock_epoch st →
  st_queue st' = st_queue st → quiet 0 st st'.
Proof.
  intros Hg He Hq. split_and!; [done|done|]. rewrite Hq. intros.
  split_and!; [done|apply queue_frame_refl|lia].
Qed.

Lemma quiet_end st s i now :
  is_active s = false → s ≠ RequestState.Granted →
  quiet 0 st (set_queue st (end_early s (st_queue st) i now).1).
Proof.
  intros Ha Hs. split_and!; [done|done|]. intros ticket Hd Hn. split_and!; simpl.
  - apply (end_early_wf {| d_queue := st_queue st; d_ticket := ticket |} s i now Ha Hd).
  - apply frame_end_early; [|done]. by destruct Hd as ((? & _) & _).
  - rewrite next_id_end. lia.
Qed.

Lemma quiet_kill st i : quiet 0 st (kill_active st i).1.
Proof. unfold kill_active. repeat case_match; by apply quiet_same. Qed.

Lemma quiet_kill_all st ids : quiet 0 st (kill_all st ids).1.
Proof.
  revert st. induction ids as [|i ids IH]; intros st; simpl; [apply quiet_refl|].
  pose proof (quiet_kill st i) as H1. destruct (kill_active st i) as [st1 k1]. simpl in *.
  specialize (IH st1). destruct (kill_all st1 ids) as [st2 k2]. simpl in *.
  by apply (quiet_trans 0 0 _ st1).
Qed.

Lemma quiet_register st token_hex session root : quiet 0 st (Broker.register st token_hex session root).1.
Proof.
  unfold Broker.register. repeat case_match; simplify_eq/=; apply quiet_same; try done.
  simpl. by intros g [? _]%elem_of_retain.
Qed.

Lemma quiet_unregister st session : quiet 0 st (Broker.unregister st session).1.
Proof. apply quiet_same; try done. simpl. by intros g [? _]%elem_of_retain. Qed.

Lemma quiet_redeem st hex cap now : quiet 0 st (Broker.redeem st hex cap now).1.
Proof. unfold Broker.redeem. repeat case_match; simplify_eq/=; by apply quiet_same. Qed.

Lemma quiet_deny st i now : quiet 0 st (Broker.deny st i now).1.1.
Proof.
  unfold Broker.deny. destruct (Requests.deny (st_queue st) i now) as [q b] eqn:E.
  pose proof (quiet_end st RequestState.Denied i now eq_refl) as H.
  change (end_early RequestState.Denied (st_queue st) i now) with (Requests.deny (st_queue st) i now) in H.
  rewrite E in H. simpl in H. destruct b; [|by apply H].
  pose proof (quiet_kill (set_queue st q) i) as Hk.
  destruct (kill_active (set_queue st q) i) as [st' killed]. simpl in *.
  apply (quiet_trans 0 0 _ (set_queue st q)); [done|by apply H|done].
Qed.

Lemma quiet_resolve w st a caller : quiet 0 st (resolve_access w st a caller).1.
Proof. unfold resolve_access. repeat case_match; simplify_eq/=; by apply quiet_same. Qed.

Lemma quiet_cached w st scope key fresh : quiet 0 st (cached_grant w st scope key fresh).1.
Proof.
  unfold cached_grant. repeat case_match; simplify_eq/=; apply quiet_same; try done;
    simpl; by intros g [? _]%elem_of_retain.
Qed.

Lemma quiet_enqueue st s k now rttl :
  quiet 1 st (set_queue st (enqueue (st_queue st) s k now rttl).1).
Proof.
  split_and!; [done|done|]. intros ticket Hd Hn. split_and!; simpl.
  - apply (enqueue_wf {| d_queue := st_queue st; d_ticket := ticket |}); [done|simpl; lia].
  - apply frame_enqueue. lia.
  - destruct (next_id_enqueue (st_queue st) s k now rttl). lia.
Qed.

Lemma quiet_enter w st scope key fresh rttl : quiet 1 st (await_enter w st scope key fresh rttl).1.
Proof.
  unfold await_enter. pose proof (quiet_cached w st scope key fresh) as Hc.
  destruct (cached_grant w st scope key fresh) as [st1 [approval|]]; simpl in Hc.
  { by eapply quiet_mono; [|exact Hc]. }
  assert (quiet 1 st st1) as Hc1 by (by eapply quiet_mono; [|exact Hc]).
  repeat case_match; simplify_eq/=; try done.
  all: match goal with H : enqueue _ _ _ ?n _ = _ |- _ =>
    pose proof (quiet_enqueue st1 scope key n rttl) as He; rewrite H in He end.
  all: by apply (quiet_trans 0 1 _ st1).
Qed.

Lemma quiet_poll n1 n2 st t : quiet 0 st (await_poll n1 n2 st t).1.1.
Proof.
  unfold await_poll.
  assert (quiet 0 st (kill_active (set_queue st (timeout (st_queue st) (w_id t) n2).1) (w_id t)).1) as H.
  { eapply (quiet_trans 0 0); [done|apply (quiet_end st RequestState.TimedOut (w_id t) n2); done|apply quiet_kill]. }
  repeat case_match; simplify_eq/=; try apply quiet_refl; done.
Qed.

Lemma quiet_mint w st cap e d : quiet 0 st (finish_authorization w st cap e d).1.
Proof. unfold finish_authorization. repeat case_match; simplify_eq/=; by apply quiet_same. Qed.

Lemma quiet_started st j pg : quiet 0 st (decrypt_started st j pg).1.
Proof. unfold decrypt_started. case_match; by apply quiet_same. Qed.

Lemma quiet_upkeep w st : quiet 0 st (upkeep w st).1.
Proof.
  unfold upkeep. destruct (sweep_timeouts (st_queue st) (w_clock w 0)) as [q expired] eqn:E.
  assert (quiet 0 st (set_queue st q)) as H1.
  { split_and!; [done|done|]. intros ticket Hd Hn.
    replace q with (sweep_timeouts (st_queue st) (w_clock w 0)).1 by (by rewrite E). split_and!.
    - apply (Requests.sweep_wf {| d_queue := st_queue st; d_ticket := ticket |} _ Hd).
    - apply frame_sweep.
    - cbn [set_queue st_queue]. rewrite next_id_sweep. lia. }
  pose proof (quiet_kill_all (set_queue st q) expired) as H2.
  destruct (kill_all (set_queue st q) expired) as [st1 killed]. simpl in *.
  eapply (quiet_trans 0 0); [done|eapply (quiet_trans 0 0); [done|exact H1|exact H2]|].
  split_and!; simpl; [|done|].
  - intros g [Hg _]%elem_of_retain. by apply elem_of_retain in Hg as [? _].
  - intros ticket Hd Hn. split_and!; [|apply frame_prune|lia].
    apply (prune_wf {| d_queue := st_queue st1; d_ticket := ticket |} _ Hd).
Qed.

End quiet.

(** * The invariant of a run *)
Section invariant.
Context {P : Type}.
Implicit Types (st : State (P:=P)) (c : Conn (P:=P)) (s : Sys (P:=P)) (h : list event).

Definition linked st (i : RequestId) (scope : Scope) (key : string) : Prop :=
  (i < next_id (st_queue st))%Z ∧
  ∀ r, r ∈ requests (st_queue st) → r_id r = i → r_scope r = scope ∧ r_key r = key.

(** If no LOCK came since the authorization began, whatever was installed for
    its request was installed since the last LOCK. *)
Definition current_only st h c (id : RequestId) : Prop :=
  ∀ cap e, c_auth c = Some (cap, e) → e = st_lock_epoch st →
  ∀ scope key v, EInstall id scope key v ∈ h → EInstall id scope key v ∈ since_lock h.

Definition pc_ok st h (i : nat) c : Prop :=
  match c_pc c with
  | PcResolve | PcDone _ => True
  | PcEnter scope key => key = a_key (c_access c) ∧ EResolve i scope ∈ h
  | PcWait scope key t =>
      key = a_key (c_access c) ∧ EResolve i scope ∈ h ∧
      linked st (w_id t) scope key ∧ current_only st h c (w_id t)
  | PcFinish scope key approval =>
      key = a_key (c_access c) ∧ EResolve i scope ∈ h ∧
      match approval with
      | AGranted _ (Some id) => (∃ v, EInstall id scope key v ∈ h) ∧ current_only st h c id
      | _ => True
      end
  | PcMint d => (∀ receipt, d_outcome d ≠ OReceipt receipt) ∧
      ∀ fields id, d_outcome d = OFields fields → d_request_id d = Some id →
      (∃ scope v, EInstall id scope (a_key (c_access c)) v ∈ h) ∧ current_only st h c id
  end.

Definition conn_ok st h (i : nat) c : Prop :=
  (∀ cap e, c_auth c = Some (cap, e) →
    c_return c = false ∧ a_key (c_access c) = key_name cap ∧ (e <= st_lock_epoch st)%Z) ∧
  (c_return c = true → is_capability_key (a_key (c_access c)) = false) ∧
  pc_ok st h i c.

(** The request an authorization thread is about to be paid for. *)
Definition conn_ids c : list RequestId :=
  match c_auth c, c_pc c with
  | Some _, PcWait _ _ t => [w_id t]
  | Some _, PcFinish _ _ (AGranted _ (Some id)) => [id]
  | Some _, PcMint d =>
      match d_outcome d, d_request_id d with OFields _, Some id => [id] | _, _ => [] end
  | _, _ => []
  end.

Definition auth_ids (conns : list Conn) : list RequestId := conns ≫= conn_ids.

Definition job_ok st h (j : Job) : Prop :=
  (j_lock_epoch j <= st_lock_epoch st)%Z ∧
  (j_lock_epoch j = st_lock_epoch st → EStart (j_id j) (j_scope j) (j_key j) ∈ since_lock h) ∧
  linked st (j_id j) (j_scope j) (j_key j).

Definition grants_ok st h : Prop :=
  ∀ g, g ∈ st_grants st → ∃ id, EInstall id (g_scope g) (g_key g) (g_value g) ∈ since_lock h.

Definition granted_ok st h : Prop :=
  ∀ r, r ∈ requests (st_queue st) → r_state r = RequestState.Granted →
    ∃ v, EInstall (r_id r) (r_scope r) (r_key r) v ∈ h.

Definition installed_ok st h : Prop :=
  ∀ id scope key v, EInstall id scope key v ∈ h → (id < next_id (st_queue st))%Z.

Definition minted_ok st (conns : list Conn) h : Prop :=
  NoDup (minted h ++ auth_ids conns)%list ∧
  ∀ id, id ∈ (minted h ++ auth_ids conns)%list → (id < next_id (st_queue st))%Z.

Definition ticket_of (job : option Job) : option (RequestId * Z) :=
  (λ j, (j_id j, j_generation j)) <$> job.

Record Inv (n : Z) s : Prop := {
  inv_history : history_ok (s_history s);
  inv_grants : grants_ok (s_state s) (s_history s);
  inv_desk : desk_wf {| d_queue := st_queue (s_state s); d_ticket := ticket_of (s_job s) |};
  inv_next : (next_id (st_queue (s_state s)) <= 1 + n)%Z;
  inv_epoch : (0 <= st_lock_epoch (s_state s) <= n)%Z;
  inv_job : ∀ j, s_job s = Some j → job_ok (s_state s) (s_history s) j;
  inv_granted : granted_ok (s_state s) (s_history s);
  inv_installed : installed_ok (s_state s) (s_history s);
  inv_minted : minted_ok (s_state s) (s_conns s) (s_history s);
  inv_conns : ∀ i c, s_conns s !! i = Some c → conn_ok (s_state s) (s_history s) i c;
}.

(** ** Time only moves forward *)
Definition later st h st' h' : Prop :=
  (next_id (st_queue st) <= next_id (st_queue st'))%Z ∧
  (∀ r', r' ∈ requests (st_queue st') →
    (∃ r, r ∈ requests (st_queue st) ∧ same_origin r r') ∨ (next_id (st_queue st) <= r_id r')%Z) ∧
  (st_lock_epoch st <= st_lock_epoch st')%Z ∧
  ∃ ev, h' = (ev ++ h)%list ∧ (st_lock_epoch st' = st_lock_epoch st → ELock ∉ ev).

Lemma since_lock_app ev h : ELock ∉ ev → since_lock (ev ++ h)%list = (ev ++ since_lock h)%list.
Proof.
  induction ev as [|e ev IH]; [done|]. intros [Hne Hin]%not_elem_of_cons. simpl.
  rewrite IH by done. by destruct e.
Qed.

Lemma linked_later st h st' h' i scope key :
  later st h st' h' → linked st i scope key → linked st' i scope key.
Proof.
  intros (Hn & Hr & _) [Hi Hl]. split; [lia|]. intros r' Hr' Hid.
  destruct (Hr r' Hr') as [(r & Hin & Ho1 & Ho2 & Ho3 & _)|?]; [|lia].
  rewrite Ho2, Ho3. apply Hl; [done|congruence].
Qed.

Lemma current_only_later st h st' h' c id :
  later st h st' h' → (∀ cap e, c_auth c = Some (cap, e) → (e <= st_lock_epoch st)%Z) →
  current_only st h c id → current_only st' h' c id.
Proof.
  intros (_ & _ & He & ev & -> & Hev) Hle Hc cap e Ha Heq scope key v Hin.
  specialize (Hle cap e Ha). assert (st_lock_epoch st' = st_lock_epoch st) as Hee by lia.
  rewrite since_lock_app by auto. apply elem_of_app in Hin as [Hin|Hin]; apply elem_of_app; [auto|].
  right. eapply Hc; [done|lia|done].
Qed.

Lemma conn_ok_later st h st' h' i c :
  later st h st' h' → conn_ok st h i c → conn_ok st' h' i c.
Proof.
  intros Hl (Ha & Hr & Hpc). pose proof Hl as (_ & _ & He & ev & Hh & _).
  assert (∀ cap e, c_auth c = Some (cap, e) → (e <= st_lock_epoch st)%Z) as Hle
    by (intros cap e Hc; apply (Ha cap e Hc)).
  assert (∀ e, e ∈ h → e ∈ h') as Hsub by (intros; subst h'; apply elem_of_app; auto).
  pose proof (current_only_later st h st' h' c) as Hcur.
  split_and!; [|done|].
  { intros cap e Hc. destruct (Ha cap e Hc) as (? & ? & ?). split_and!; [done|done|lia]. }
  unfold pc_ok in *. destruct (c_pc c) as [|scope key|scope key t|scope key approval|d|d]; [done| | | | |done].
  - naive_solver.
  - destruct Hpc as (? & ? & ? & ?). split_and!; eauto using linked_later.
  - destruct Hpc as (? & ? & Hap). split_and!; auto. destruct approval as [src [id|]| |]; [|done..].
    destruct Hap as [[v Hv] ?]. split; eauto.
  - destruct Hpc as [Hno Hpc]. split; [done|].
    intros fields id Ho Hid. destruct (Hpc fields id Ho Hid) as [(scope & v & ?) ?]. split; eauto.
Qed.

Lemma job_ok_later st h st' h' j : later st h st' h' → job_ok st h j → job_ok st' h' j.
Proof.
  intros Hl (Hle & Hst & Hlk). pose proof Hl as (_ & _ & He & ev & -> & Hev).
  split_and!; [lia| |by eapply linked_later]. intros Heq.
  assert (st_lock_epoch st' = st_lock_epoch st) as Hee by lia.
  rewrite since_lock_app by auto. apply elem_of_app. right. apply Hst. lia.
Qed.

(** The events a quiet section may record. *)
Definition soft (e : event) : bool :=
  match e with EResolve _ _ | ERelease _ _ _ _ | EMint _ _ _ => true | _ => false end.

Lemma soft_no_lock ev : forallb soft ev = true → ELock ∉ ev.
Proof. intros H Hin. rewrite forallb_elem in H. by specialize (H _ Hin). Qed.

Lemma soft_install ev h id scope key v :
  forallb soft ev = true → EInstall id scope key v ∈ (ev ++ h)%list → EInstall id scope key v ∈ h.
Proof.
  intros H [Hin|?]%elem_of_app; [|done]. rewrite forallb_elem in H. by specialize (H _ Hin).
Qed.

Lemma frame_later st h st' ev x :
  queue_frame x (st_queue st) (st_queue st') → st_lock_epoch st' = st_lock_epoch st → ELock ∉ ev →
  later st h st' (ev ++ h)%list.
Proof.
  intros [Hn Hf] He Hev. split_and!; [done| |lia|by exists ev].
  intros r' Hr'. destruct (Hf r' Hr') as [(r & ? & ? & _)|[? _]]; [left; eauto|by right].
Qed.

(** A quiet section of any thread keeps the invariant, given what it did to
    the connections and the history. *)
Lemma inv_quiet n s st' conns' ev :
  Inv n s → (n + 1 < u64_max)%Z → quiet 1 (s_state s) st' → forallb soft ev = true →
  history_ok (ev ++ s_history s)%list →
  minted_ok st' conns' (ev ++ s_history s)%list →
  (∀ i c, conns' !! i = Some c → conn_ok st' (ev ++ s_history s)%list i c) →
  Inv (n + 1) {| s_state := st'; s_conns := conns'; s_job := s_job s; s_history := (ev ++ s_history s)%list |}.
Proof.
  intros [Hh Hg Hd Hn He Hj Hgr Hin _ _] Hb (Hq1 & Hq2 & Hq3) Hev Hh' Hm Hc.
  destruct (Hq3 _ Hd) as (Hd' & Hf & Hn'); [lia|]. pose proof (soft_no_lock _ Hev) as Hnl.
  pose proof (frame_later _ (s_history s) _ ev _ Hf Hq2 Hnl) as Hlater.
  split; simpl; [done| |done|lia|lia| | | |done|done].
  - intros g Hgin. destruct (Hg g (Hq1 g Hgin)) as [id Hid]. exists id.
    rewrite since_lock_app by done. apply elem_of_app. by right.
  - intros j Hjob. by eapply job_ok_later, Hj.
  - intros r' Hr' Hs. destruct Hf as [_ Hf].
    destruct (Hf r' Hr') as [(r & Hr & (-> & -> & -> & _) & Hst)|[_ Hno]]; [|by apply Hno in Hs].
    destruct (Hst Hs) as [Hs'|]; [|done]. destruct (Hgr r Hr Hs') as [v Hv].
    exists v. apply elem_of_app. by right.
  - intros id scope key v Hi. apply soft_install in Hi; [|done]. specialize (Hin _ _ _ _ Hi).
    destruct Hf as [? _]. lia.
Qed.

End invariant.

(** * The sections of a connection *)
Section connection.
Context {P : Type}.
Implicit Types (st : State (P:=P)) (c : Conn (P:=P)) (s : Sys (P:=P)) (h : list event).

Lemma key_name_capability cap : is_capability_key (key_name cap) = true.
Proof.
  unfold is_capability_key, starts_with, key_name. by rewrite strip_prefix_append.
Qed.

Lemma granted_ok_frame st st' h :
  queue_frame None (st_queue st) (st_queue st') → granted_ok st h → granted_ok st' h.
Proof.
  intros [_ Hf] Hg r' Hr' Hs.
  destruct (Hf r' Hr') as [(r & Hr & (-> & -> & -> & _) & Hst)|[_ Hno]]; [|by apply Hno in Hs].
  destruct (Hst Hs) as [?|]; [|done]. by apply Hg.
Qed.

Lemma state_of_Some q i x : state_of q i = Some x → ∃ r, r ∈ requests q ∧ r_id r = i ∧ r_state r = x.
Proof.
  unfold state_of. destruct (List.find _ _) as [r|] eqn:E; [|done]. intros [= <-].
  apply find_id_Some in E as [??]. eauto.
Qed.

(** The waiting loop answers with the request it waited for, and a grant only
    when that request was granted. *)
Lemma await_poll_granted n1 n2 st t st' src o killed :
  await_poll n1 n2 st t = (st', Some (AGranted src o), killed) →
  o = Some (w_id t) ∧ state_of (st_queue st) (w_id t) = Some RequestState.Granted.
Proof. unfold await_poll. repeat case_match; intros; simplify_eq; done. Qed.

Lemma await_enter_waiting w st scope key fresh rttl st' t :
  (next_id (st_queue st) < u64_max)%Z →
  ids_wf (st_queue st) →
  await_enter w st scope key fresh rttl = (st', inr t) →
  linked st' (w_id t) scope key ∧
  (is_capability_key key = true →
    w_id t = next_id (st_queue st) ∧ (next_id (st_queue st) < next_id (st_queue st'))%Z).
Proof.
  intros Hroom (Hnd & _ & Hb). unfold await_enter.
  destruct (cached_grant w st scope key fresh) as [st1 [approval|]] eqn:Ec; [done|].
  assert (st_queue st1 = st_queue st) as Hq1.
  { revert Ec. unfold cached_grant. repeat case_match; intros; by simplify_eq. }
  destruct (locate _ _ _); [|done]. destruct (Time.checked_add _ _); [|done]. rewrite Hq1.
  destruct (enqueue _ _ _ _ _) as [q [i|e]] eqn:E; [|done]. intros [= <- <-]. simpl.
  assert ((enqueue (st_queue st) scope key (w_clock w 1) rttl).2 = Ok i) as Hok by (by rewrite E).
  unfold linked. simpl.
  replace q with (enqueue (st_queue st) scope key (w_clock w 1) rttl).1 by (by rewrite E).
  destruct (enqueue_fresh _ _ _ _ _ _ Hok) as [(r & Hr & Hid & Hs & Hk & _ & Hcap & ->)|(-> & Hr & Hnx)].
  - split; [|congruence]. split; [rewrite <-Hid; by apply Hb|].
    intros r' Hr' Hid'. by rewrite (ids_unique _ r' r Hnd Hr' Hr) by congruence.
  - rewrite Hnx, Hr. unfold saturating_add_u64. split; [|intros _; split; [done|lia]].
    split; [lia|]. intros r [Hin| ->%list_elem_of_singleton]%elem_of_app; [|done].
    specialize (Hb r Hin). lia.
Qed.

Lemma await_enter_at_once w st scope key fresh rttl st' approval :
  await_enter w st scope key fresh rttl = (st', inl approval) →
  match approval with AGranted _ (Some _) => False | _ => True end.
Proof.
  unfold await_enter. destruct (cached_grant w st scope key fresh) as [st1 [ap|]] eqn:Ec.
  - intros [= <- <-]. revert Ec. unfold cached_grant. repeat case_match; intros; by simplify_eq.
  - repeat case_match; intros; by simplify_eq.
Qed.

(** What one section of connection [i] establishes. *)
Record conn_step st h (i : nat) c st' c' (ev : list event) : Prop := {
  cs_quiet : quiet 1 st st';
  cs_soft : forallb soft ev = true;
  cs_history : history_ok h → history_ok (ev ++ h)%list;
  cs_conn : conn_ok st' (ev ++ h)%list i c';
  cs_ids : (minted ev ++ conn_ids c')%list = conn_ids c ∨ (minted ev ++ conn_ids c')%list = [] ∨
    (minted ev = [] ∧ conn_ids c' = [next_id (st_queue st)] ∧
     (next_id (st_queue st) < next_id (st_queue st'))%Z);
}.

Lemma quiet_later st st' h ev job k :
  quiet k st st' → desk_wf {| d_queue := st_queue st; d_ticket := job |} →
  (next_id (st_queue st) + k <= u64_max)%Z → ELock ∉ ev → later st h st' (ev ++ h)%list.
Proof.
  intros (_ & He & Hq) Hd Hn Hev. destruct (Hq _ Hd Hn) as (_ & Hf & _).
  by eapply frame_later.
Qed.

(** After a turn of the waiting loop. *)
Lemma poll_step n1 n2 st st1 h i c scope key t :
  (∀ cap e, c_auth c = Some (cap, e) →
    c_return c = false ∧ a_key (c_access c) = key_name cap ∧ (e <= st_lock_epoch st)%Z) →
  (c_return c = true → is_capability_key (a_key (c_access c)) = false) →
  key = a_key (c_access c) → EResolve i scope ∈ h →
  granted_ok st h → linked st (w_id t) scope key → current_only st h c (w_id t) →
  later st h st1 h →
  match await_poll n1 n2 st t with
  | (st', Some approval, _) => st1 = st' → conn_ok st' h i (set_pc c (PcFinish scope key approval))
  | (st', None, _) => st1 = st' → conn_ok st' h i (set_pc c (PcWait scope key t))
  end.
Proof.
  intros Ha Hr Hk Hres Hg Hl Hcur Hlater.
  destruct (await_poll n1 n2 st t) as [[st' [approval|]] killed] eqn:E; intros ->.
  - assert (conn_ok st h i (set_pc c (PcFinish scope key approval))) as Hok; [|by eapply conn_ok_later].
    split_and!; [done|done|]. unfold pc_ok. simpl. split_and!; [done|done|].
    destruct approval as [src [id|]| |]; [|done..].
    apply await_poll_granted in E as [[= ->] Hs]. split; [|done].
    apply state_of_Some in Hs as (r & Hin & Hid & Hgr). destruct (Hg r Hin Hgr) as [v Hv].
    destruct Hl as [_ Hl]. destruct (Hl r Hin Hid) as [Hsc Hky]. rewrite Hid, Hsc, Hky in Hv. eauto.
  - assert (conn_ok st h i (set_pc c (PcWait scope key t))) as Hok; [|by eapply conn_ok_later].
    split_and!; [done|done|]. unfold pc_ok. simpl. by split_and!.
Qed.

Lemma step_resolve w st h i c st' c' ev job :
  c_pc c = PcResolve → conn_ok st h i c →
  desk_wf {| d_queue := st_queue st; d_ticket := job |} → (next_id (st_queue st) < u64_max)%Z →
  run_conn w st i c = (st', c', ev) → conn_step st h i c st' c' ev.
Proof.
  intros Hpc Hc Hd Hn. unfold run_conn. rewrite Hpc.
  pose proof (quiet_resolve w st (c_access c) (c_caller c)) as Hq.
  destruct (resolve_access w st (c_access c) (c_caller c)) as [st1 [[scope key]|e]] eqn:E;
    simpl in Hq; intros [= <- <- <-].
  - pose proof (quiet_later st st1 h [EResolve i scope] job 0 Hq Hd) as Hl.
    split; [by eapply quiet_mono; [|done]|done|done| |].
    + assert (conn_ok st1 ([EResolve i scope] ++ h)%list i c) as (Ha & Hr & _).
      { eapply conn_ok_later; [apply Hl; [lia|]|done]. by intros ?%list_elem_of_singleton. }
      split_and!; [done|done|]. unfold pc_ok. simpl. split; [|by left].
      revert E. unfold resolve_access. destruct (secret_name_parse _) as [k|] eqn:Ek; [|done].
      apply secret_name_parse_Ok in Ek as (-> & _). repeat case_match; intros; by simplify_eq.
    + unfold conn_ids. rewrite Hpc. simpl. by destruct (c_auth c); left.
  - pose proof (quiet_later st st1 h [] job 0 Hq Hd) as Hl.
    split; [by eapply quiet_mono; [|done]|done|done| |].
    + assert (conn_ok st1 h i c) as (Ha & Hr & _).
      { eapply conn_ok_later; [apply Hl; [lia|apply not_elem_of_nil]|done]. }
      split_and!; [done|done|]. unfold pc_ok, answered. simpl.
      destruct (c_auth c); [|done]. by split.
    + right; left. unfold conn_ids, answered. simpl. by destruct (c_auth c).
Qed.

Lemma quiet_granted k st st' h job :
  quiet k st st' → desk_wf {| d_queue := st_queue st; d_ticket := job |} →
  (next_id (st_queue st) + k <= u64_max)%Z → granted_ok st h → granted_ok st' h.
Proof.
  intros (_ & _ & Hq) Hd Hn. destruct (Hq _ Hd Hn) as (_ & Hf & _). by apply granted_ok_frame.
Qed.

Lemma step_enter_answered w st h i c scope key st1 approval job :
  c_pc c = PcEnter scope key → conn_ok st h i c →
  desk_wf {| d_queue := st_queue st; d_ticket := job |} → (next_id (st_queue st) < u64_max)%Z →
  await_enter w st scope key (c_fresh c) (a_requested_ttl (c_access c)) = (st1, inl approval) →
  quiet 1 st st1 → conn_step st h i c st1 (set_pc c (PcFinish scope key approval)) [].
Proof.
  intros Hpc Hc Hd Hn E Hq. pose proof (await_enter_at_once _ _ _ _ _ _ _ _ E) as Hap.
  split; [done|done|done| |].
  - assert (conn_ok st1 h i c) as (Ha & Hr & Hp).
    { eapply conn_ok_later; [apply (quiet_later st st1 h [] job 1 Hq Hd); [lia|apply not_elem_of_nil]|done]. }
    unfold pc_ok in Hp. rewrite Hpc in Hp. destruct Hp as [Hk Hres].
    split_and!; [done|done|]. unfold pc_ok. simpl. split_and!; [done|done|].
    by destruct approval as [? [|]| |].
  - right; left. unfold conn_ids. simpl. destruct (c_auth c); [|done]. by destruct approval as [? [|]| |].
Qed.

Lemma step_enter w st h i c scope key st' c' ev job :
  c_pc c = PcEnter scope key → conn_ok st h i c →
  desk_wf {| d_queue := st_queue st; d_ticket := job |} → (next_id (st_queue st) < u64_max)%Z →
  granted_ok st h → installed_ok st h →
  run_conn w st i c = (st', c', ev) → conn_step st h i c st' c' ev.
Proof.
  intros Hpc Hc Hd Hn Hg Hins. unfold run_conn. rewrite Hpc.
  pose proof (quiet_enter w st scope key (c_fresh c) (a_requested_ttl (c_access c))) as Hq.
  destruct (await_enter w st scope key (c_fresh c) (a_requested_ttl (c_access c)))
    as [st1 [approval|t]] eqn:E; simpl in Hq.
  - intros [= <- <- <-]. by eapply step_enter_answered.
  - destruct (await_enter_waiting w st scope key (c_fresh c) (a_requested_ttl (c_access c)) st1 t) as [Hlk Hfresh];
      [done|by destruct Hd|done|].
    pose proof (quiet_poll (w_clock w 2) (w_clock w 3) st1 t) as Hq2.
    assert (desk_wf {| d_queue := st_queue st1; d_ticket := job |} ∧ (next_id (st_queue st1) <= u64_max)%Z) as [Hd1 Hn1].
    { destruct Hq as (_ & _ & Hq). destruct (Hq _ Hd) as (? & _ & ?); [lia|]. split; [done|lia]. }
    assert (later st h st1 h) as Hl1 by (apply (quiet_later st st1 h [] job 1 Hq Hd); [lia|apply not_elem_of_nil]).
    pose proof (conn_ok_later _ _ _ _ _ _ Hl1 Hc) as (Ha & Hr & Hp).
    unfold pc_ok in Hp. rewrite Hpc in Hp. destruct Hp as [Hk Hres].
    assert (current_only st1 h c (w_id t)) as Hcur.
    { intros cap e Hau _ sc k v Hin. destruct (Ha cap e Hau) as (_ & Hkn & _).
      destruct Hfresh as [Hw _]; [by rewrite Hk, Hkn, key_name_capability|].
      specialize (Hins _ _ _ _ Hin). lia. }
    pose proof (poll_step (w_clock w 2) (w_clock w 3) st1 (await_poll (w_clock w 2) (w_clock w 3) st1 t).1.1
      h i c scope key t Ha Hr Hk Hres) as Hpoll.
    assert (granted_ok st1 h) as Hg1 by (eapply quiet_granted; [exact Hq|exact Hd|lia|done]).
    specialize (Hpoll Hg1 Hlk Hcur (quiet_later st1 _ h [] job 0 Hq2 Hd1 ltac:(lia) (not_elem_of_nil _))).
    assert (next_id (st_queue st1) <= next_id (st_queue (await_poll (w_clock w 2) (w_clock w 3) st1 t).1.1))%Z as Hnn.
    { destruct Hq2 as (_ & _ & Hq2). by destruct (Hq2 _ Hd1) as (_ & [? _] & _); [lia|]. }
    assert (∀ pc, conn_ids (set_pc c pc) = [w_id t] ∨ conn_ids (set_pc c pc) = [] → conn_ids (set_pc c pc) = [] ∨
      conn_ids (set_pc c pc) = [next_id (st_queue st)] ∧ (next_id (st_queue st) < next_id (st_queue st1))%Z) as Hids.
    { intros pc [Hw|?]; [|by left]. right. unfold conn_ids in Hw at 1. simpl in Hw.
      destruct (c_auth c) as [[cap e]|] eqn:Hau; [|done]. destruct (Ha cap e eq_refl) as (_ & Hkn & _).
      destruct Hfresh as [Hw' Hlt]; [by rewrite Hk, Hkn, key_name_capability|].
      split; [|done]. rewrite <-Hw'. unfold conn_ids. simpl. by rewrite Hau. }
    destruct (await_poll (w_clock w 2) (w_clock w 3) st1 t) as [[st2 [approval|]] killed] eqn:Ep;
      intros [= <- <- <-]; simpl in *;
      (split; [by apply (quiet_trans 1 0 _ st1)|done|done|by apply Hpoll|]).
    + destruct (Hids (PcFinish scope key approval)) as [->|[Hi ?]]; [|by right; left|].
      { unfold conn_ids. simpl. destruct (c_auth c); [|by right].
        destruct approval as [src [id|]| |]; [|by right..].
        apply await_poll_granted in Ep as [[= ->] _]. by left. }
      right; right. split_and!; [done|done|lia].
    + destruct (Hids (PcWait scope key t)) as [->|[Hi ?]]; [|by right; left|].
      { unfold conn_ids. simpl. destruct (c_auth c); [by left|by right]. }
      right; right. split_and!; [done|done|lia].
Qed.

Lemma step_wait w st h i c scope key t st' c' ev job :
  c_pc c = PcWait scope key t → conn_ok st h i c →
  desk_wf {| d_queue := st_queue st; d_ticket := job |} → (next_id (st_queue st) < u64_max)%Z →
  granted_ok st h →
  run_conn w st i c = (st', c', ev) → conn_step st h i c st' c' ev.
Proof.
  intros Hpc Hc Hd Hn Hg. unfold run_conn. rewrite Hpc.
  pose proof Hc as (Ha & Hr & Hp). unfold pc_ok in Hp. rewrite Hpc in Hp.
  destruct Hp as (Hk & Hres & Hlk & Hcur).
  pose proof (quiet_poll (w_clock w 0) (w_clock w 1) st t) as Hq.
  pose proof (poll_step (w_clock w 0) (w_clock w 1) st (await_poll (w_clock w 0) (w_clock w 1) st t).1.1
    h i c scope key t Ha Hr Hk Hres Hg Hlk Hcur
    (quiet_later st _ h [] job 0 Hq Hd ltac:(lia) (not_elem_of_nil _))) as Hpoll.
  destruct (await_poll (w_clock w 0) (w_clock w 1) st t) as [[st2 [approval|]] killed] eqn:Ep;
    intros [= <- <- <-]; simpl in *.
  - split; [by eapply quiet_mono; [|exact Hq]|done|done|by apply Hpoll|].
    unfold conn_ids. rewrite Hpc. simpl. destruct (c_auth c); [|by left].
    destruct approval as [src [id|]| |]; [|by right; left..].
    apply await_poll_granted in Ep as [[= ->] _]. by left.
  - split; [by eapply quiet_mono; [|exact Hq]|done|done| |by left].
    eapply conn_ok_later; [|done].
    apply (quiet_later st _ h [] job 0 Hq Hd ltac:(lia) (not_elem_of_nil _)).
Qed.

Lemma lookup_elem t scope key now v src ident :
  Table.lookup t scope key now = Some (v, src, ident) →
  ∃ g, g ∈ t ∧ g_scope g = scope ∧ g_key g = key ∧ g_value g = v.
Proof.
  unfold Table.lookup. destruct (List.find _ t) as [g|] eqn:E; [|done]. intros [= <- <- <-].
  apply find_Some in E as [Hg Hp]. apply andb_true_iff in Hp as [Hp _].
  unfold Table.grant_for in Hp. bool_to_prop. by exists g.
Qed.

Lemma access_decision_bytes w st a ret scope key approval v :
  d_outcome (access_decision w st a ret scope key approval) = OBytes v →
  ret = true ∧ ∃ g, g ∈ st_grants st ∧ g_scope g = scope ∧ g_key g = key ∧ g_value g = v.
Proof.
  unfold access_decision. destruct approval as [src o| |]; [|done..]. destruct ret; [|done].
  destruct (Table.lookup _ _ _ _) as [[[value src'] ident]|] eqn:E; [|done]. simpl.
  intros [= ->]. split; [done|]. by eapply lookup_elem.
Qed.

Lemma access_decision_no_receipt w st a ret scope key approval receipt :
  d_outcome (access_decision w st a ret scope key approval) ≠ OReceipt receipt.
Proof.
  unfold access_decision. destruct approval as [src o| |]; [|done..]. destruct ret; [|done].
  by destruct (Table.lookup _ _ _ _) as [[[value src'] ident]|].
Qed.

Lemma access_decision_fields w st a ret scope key approval fields id :
  d_outcome (access_decision w st a ret scope key approval) = OFields fields →
  d_request_id (access_decision w st a ret scope key approval) = Some id →
  ∃ src, approval = AGranted src (Some id).
Proof.
  unfold access_decision. destruct approval as [src o|e|e j]; simpl; [|done..]. destruct ret; simpl.
  - destruct (Table.lookup _ _ _ _) as [[[value src'] ident]|]; done.
  - intros _ ->. eauto.
Qed.

Lemma step_finish w st h i c scope key approval st' c' ev :
  c_pc c = PcFinish scope key approval → conn_ok st h i c → grants_ok st h →
  run_conn w st i c = (st', c', ev) → conn_step st h i c st' c' ev.
Proof.
  intros Hpc (Ha & Hr & Hp) Hg. unfold run_conn. rewrite Hpc. intros [= <- <- <-].
  unfold pc_ok in Hp. rewrite Hpc in Hp. destruct Hp as (Hk & Hres & Hap).
  set (d := access_decision _ _ _ _ _ _ _).
  assert (∀ v, d_outcome d = OBytes v → c_auth c = None) as Hnoauth.
  { intros v [Hret _]%access_decision_bytes. destruct (c_auth c) as [[cap e]|] eqn:E; [|done].
    destruct (Ha cap e eq_refl) as (? & _). congruence. }
  split.
  - eapply (quiet_mono 0); [lia|apply quiet_refl].
  - by destruct (d_outcome d).
  - destruct (d_outcome d) as [| | |v| |] eqn:Ed; try done. intros Hh. split; [|done].
    apply access_decision_bytes in Ed as (Hret & g & Hg1 & <- & Hgk & <-).
    simpl. rewrite <-Hgk in Hk. split_and!; [|done|].
    + rewrite <-Hgk, Hk. auto.
    + rewrite <-Hgk. by apply Hg.
  - assert (pc_ok st h i (set_pc c (answered c d))) as Hpc'.
    { unfold pc_ok, answered. simpl. destruct (c_auth c) as [[cap e]|] eqn:Eau; [|done]. simpl.
      split; [apply access_decision_no_receipt|]. intros fields id Ho Hid.
      destruct (access_decision_fields _ _ _ _ _ _ _ _ _ Ho Hid) as [src ->].
      destruct Hap as [[v Hv] Hcur]. split; [|done]. rewrite <-Hk. eauto. }
    destruct (d_outcome d) as [| | |v| |] eqn:Ed; try by split_and!.
    specialize (Hnoauth v eq_refl). split_and!; [done|done|].
    unfold pc_ok, answered. simpl. by rewrite Hnoauth.
  - unfold conn_ids, answered. rewrite Hpc. simpl. destruct (c_auth c) as [[cap e]|] eqn:Eau.
    + destruct (d_outcome d) as [| f| |v| |] eqn:Ed; try by (right; left).
      destruct (d_request_id d) as [id|] eqn:Eid; [|by right; left].
      destruct (access_decision_fields _ _ _ _ _ _ _ _ _ Ed Eid) as [src ->]. by left.
    + destruct (d_outcome d); by left.
Qed.

Lemma step_mint w st h i c d st' c' ev :
  c_pc c = PcMint d → conn_ok st h i c →
  (∀ id, id ∈ conn_ids c → id ∉ minted h) →
  run_conn w st i c = (st', c', ev) → conn_step st h i c st' c' ev.
Proof.
  intros Hpc Hc Hfresh. unfold run_conn. rewrite Hpc.
  destruct (c_auth c) as [[cap e]|] eqn:Eau.
  2: { intros [= <- <- <-]. split; [by eapply (quiet_mono 0); [lia|apply quiet_refl]|done|done|done|by left]. }
  pose proof (quiet_mint w st cap e d) as Hq.
  destruct (finish_authorization w st cap e d) as [st1 d'] eqn:E. simpl in Hq.
  intros [= <- <- <-]. destruct Hc as (Ha & Hr & Hp). unfold pc_ok in Hp. rewrite Hpc in Hp.
  destruct Hp as [Hno Hp]. destruct (Ha cap e Eau) as (_ & Hk & _).
  assert (∀ receipt id, d_outcome d' = OReceipt receipt → d_request_id d' = Some id →
    st_lock_epoch st = e ∧ ∃ fields, d_outcome d = OFields fields ∧ d_request_id d = Some id) as Hrec.
  { intros receipt id Ho Hid. revert E. unfold finish_authorization.
    destruct (d_outcome d) as [|f| | |rc|] eqn:Ed; try (intros; by simplify_eq/=).
    2: by destruct (Hno rc).
    destruct (d_request_id d) as [id'|] eqn:Eid; [|intros; by simplify_eq/=].
    destruct (Z.eqb_spec (st_lock_epoch st) e); [|intros; by simplify_eq/=].
    destruct (mint _ _ _ _) as [rs m]. intros [= <- <-]. simpl in Hid. simplify_eq/=. eauto. }
  assert (conn_ok st1 h i c) as (Ha' & Hr' & _).
  { destruct Hq as (_ & He & _). unfold conn_ok. rewrite He. split_and!; [done|done|].
    unfold pc_ok. rewrite Hpc. split; [done|]. intros f id Ho Hid. destruct (Hp f id Ho Hid) as [? Hcur]. split; [done|].
    unfold current_only in *. by rewrite He. }
  destruct (d_outcome d') as [| | | |receipt|] eqn:Ed'; simpl.
  1-4,6: split; [by eapply quiet_mono; [|exact Hq]|done|done|by split_and!|
         right; left; unfold conn_ids; simpl; by rewrite Eau].
  destruct (d_request_id d') as [id|] eqn:Eid'.
  2: split; [by eapply quiet_mono; [|exact Hq]|done|done|by split_and!|
         right; left; unfold conn_ids; simpl; by rewrite Eau].
  destruct (Hrec receipt id eq_refl eq_refl) as (Hep & fields & Ho & Hid).
  destruct (Hp fields id Ho Hid) as [(scope & v & Hv) Hcur].
  split; [by eapply quiet_mono; [|exact Hq]|done| | |].
  - intros Hh. split; [|done]. simpl. split.
    + apply Hfresh. unfold conn_ids. rewrite Eau, Hpc, Ho, Hid. by left.
    + exists scope, v. rewrite Hk in Hv. by eapply Hcur.
  - split_and!; [done|done|done].
  - left. unfold conn_ids. simpl. by rewrite Eau, Hpc, Ho, Hid.
Qed.

Lemma conn_step_intro w n s i c st' c' ev :
  Inv n s → (n + 1 < u64_max)%Z → s_conns s !! i = Some c →
  run_conn w (s_state s) i c = (st', c', ev) →
  conn_step (s_state s) (s_history s) i c st' c' ev.
Proof.
  intros [Hh Hg Hd Hn He Hj Hgr Hin [Hm1 Hm2] Hcs] Hb Hi Hrun. pose proof (Hcs i c Hi) as Hc.
  assert (next_id (st_queue (s_state s)) < u64_max)%Z as Hroom by lia.
  destruct (c_pc c) as [|scope key|scope key t|scope key approval|d|d] eqn:Hpc.
  - by eapply step_resolve.
  - by eapply step_enter.
  - by eapply step_wait.
  - by eapply step_finish.
  - eapply step_mint; [done..| |done]. intros id Hid Hmin.
    apply NoDup_app in Hm1 as (_ & Hdis & _). apply (Hdis id Hmin). unfold auth_ids.
    apply list_elem_of_bind. exists c. split; [done|]. by eapply list_elem_of_lookup_2.
  - unfold run_conn in Hrun. rewrite Hpc in Hrun. simplify_eq.
    split; [by eapply (quiet_mono 0); [lia|apply quiet_refl]|done|done|done|by left].
Qed.

(** ** Ids of authorizations are used once *)
Lemma auth_ids_insert (conns : list (Conn (P:=P))) i c c' :
  conns !! i = Some c →
  ∃ rest, auth_ids conns ≡ₚ (conn_ids c ++ rest)%list ∧ auth_ids (<[i := c']> conns) ≡ₚ (conn_ids c' ++ rest)%list.
Proof.
  intros Hi. exists (auth_ids (take i conns) ++ auth_ids (drop (S i) conns))%list. unfold auth_ids.
  assert (i < length conns)%nat as Hlt by (by eapply lookup_lt_Some). split.
  - rewrite <-(take_drop_middle conns i c Hi) at 1. rewrite bind_app. simpl. apply Permutation_app_swap_app.
  - rewrite (insert_take_drop conns i c' Hlt), bind_app. simpl. apply Permutation_app_swap_app.
Qed.

Lemma minted_app ev h : minted (ev ++ h)%list = (minted ev ++ minted h)%list.
Proof. unfold minted. by rewrite omap_app. Qed.

Lemma minted_step n s i c st' c' ev job :
  minted_ok (s_state s) (s_conns s) (s_history s) → (n + 1 < u64_max)%Z →
  desk_wf {| d_queue := st_queue (s_state s); d_ticket := job |} →
  (next_id (st_queue (s_state s)) <= 1 + n)%Z →
  s_conns s !! i = Some c → conn_step (s_state s) (s_history s) i c st' c' ev →
  minted_ok st' (<[i := c']> (s_conns s)) (ev ++ s_history s)%list.
Proof.
  intros [Hnd Hbd] Hb Hd Hn Hi [Hq _ _ _ Hids].
  destruct (auth_ids_insert (s_conns s) i c c' Hi) as (rest & Hp & Hp').
  destruct Hq as (_ & _ & Hq). destruct (Hq _ Hd) as (_ & [Hmono _] & _); [lia|].
  unfold minted_ok. setoid_rewrite minted_app. setoid_rewrite Hp'. rewrite Hp in Hnd. setoid_rewrite Hp in Hbd.
  assert (∀ A, (minted ev ++ conn_ids c')%list = A →
    ((minted ev ++ minted (s_history s)) ++ conn_ids c' ++ rest)%list ≡ₚ (A ++ minted (s_history s) ++ rest)%list) as Hperm.
  { intros A <-. rewrite <-!app_assoc. apply Permutation_app_head. apply Permutation_app_swap_app. }
  assert ((minted (s_history s) ++ conn_ids c ++ rest)%list ≡ₚ (conn_ids c ++ minted (s_history s) ++ rest)%list) as Hold
    by apply Permutation_app_swap_app.
  rewrite Hold in Hnd. setoid_rewrite Hold in Hbd. destruct Hids as [E|[E|(E1 & E2 & Hlt)]].
  - rewrite (Hperm _ E). setoid_rewrite (Hperm _ E). split; [done|]. intros id Hid.
    specialize (Hbd id Hid). lia.
  - rewrite (Hperm _ E). setoid_rewrite (Hperm _ E). simpl. split; [by apply NoDup_app in Hnd as (_ & _ & ?)|].
    intros id Hid. assert (id ∈ conn_ids c ++ minted (s_history s) ++ rest)%list as Hid' by (apply elem_of_app; auto).
    specialize (Hbd id Hid'). lia.
  - assert ((minted ev ++ conn_ids c')%list = [next_id (st_queue (s_state s))]) as E by (by rewrite E1, E2).
    rewrite (Hperm _ E). setoid_rewrite (Hperm _ E). apply NoDup_app in Hnd as (_ & _ & Hnd).
    assert (∀ id, id ∈ (minted (s_history s) ++ rest)%list → (id < next_id (st_queue (s_state s)))%Z) as Hbd'
      by (intros id Hid; apply Hbd, elem_of_app; auto). split.
    + simpl. apply NoDup_cons. split; [|done]. intros Hid%Hbd'. lia.
    + simpl. intros id [->|Hid%Hbd']%elem_of_cons; lia.
Qed.

Lemma inv_conn w n s i :
  Inv n s → (n + 1 < u64_max)%Z → Inv (n + 1) (step s (AConn w i)).
Proof.
  intros Hinv Hb. unfold step. destruct (s_conns s !! i) as [c|] eqn:Hi.
  2: { destruct Hinv. split; try done; lia. }
  destruct (run_conn w (s_state s) i c) as [[st' c'] ev] eqn:Hrun.
  pose proof (conn_step_intro w n s i c st' c' ev Hinv Hb Hi Hrun) as Hcs.
  pose proof Hinv as [Hh Hg Hd Hn He Hj Hgr Hin Hm Hco]. pose proof Hcs as [Hq Hsoft Hhist Hc' _].
  apply inv_quiet; [done|done|done|done|by apply Hhist| |].
  - by eapply minted_step.
  - intros k ck Hk. destruct (decide (k = i)) as [->|Hne].
    + rewrite list_lookup_insert_eq in Hk by (by eapply lookup_lt_Some). by simplify_eq.
    + rewrite list_lookup_insert_ne in Hk by done. eapply conn_ok_later; [|by apply Hco].
      eapply (quiet_later _ _ _ _ _ 1); [done|exact Hd|lia|by apply soft_no_lock].
Qed.
End connection.

(** * Requests and the worker *)
Section steps.
Context {P : Type}.
Implicit Types (st : State (P:=P)) (c : Conn (P:=P)) (s : Sys (P:=P)) (h : list event).

Lemma quiet_dispatch w st caller r :
  r ≠ Lock → quiet 0 st (dispatch_now w st caller r).1.
Proof.
  intros Hr. unfold dispatch_now. destruct r as [v|tok ses pid|ses|k a b t|k a b t|cap a b|hex cap| |i| |];
    try apply quiet_refl; try done.
  - pose proof (quiet_register st tok ses caller). by destruct (Broker.register _ _ _ _).
  - pose proof (quiet_unregister st ses). by destruct (Broker.unregister _ _).
  - case_match; apply quiet_refl.
  - case_match; apply quiet_refl.
  - case_match; apply quiet_refl.
  - pose proof (quiet_redeem st hex cap (w_clock w 0)). by destruct (Broker.redeem _ _ _ _).
  - pose proof (quiet_deny st i (w_clock w 0)). by destruct (Broker.deny _ _ _) as [[? ?] ?].
Qed.

Lemma open_conn_ok st h caller r c i w :
  (dispatch_now w st caller r).2 = None → open_conn st caller r = Some c →
  conn_ok st h i c ∧ conn_ids c = [].
Proof.
  unfold dispatch_now, open_conn. destruct r as [v|tok ses pid|ses|k a b t|k a b t|cap a b|hex cap| |j| |];
    try done.
  - destruct (is_capability_key k) eqn:Ek; [done|]. intros _ [= <-]. by split.
  - destruct (is_capability_key k) eqn:Ek; [done|]. intros _ [= <-]. by split.
  - destruct (capability_parse cap) as [cap'|]; [|done]. intros _ [= <-].
    split; [|done]. split_and!; [|done|done]. simpl. intros cap0 e [= <- <-]. split_and!; [done|done|lia].
Qed.

Lemma inv_request w n s caller r :
  Inv n s → (n + 1 < u64_max)%Z → r ≠ Lock → Inv (n + 1) (step s (ARequest w caller r)).
Proof.
  intros Hinv Hb Hr. pose proof (quiet_dispatch w (s_state s) caller r Hr) as Hq. unfold step.
  pose proof (open_conn_ok (s_state s) (s_history s) caller r) as Hopen.
  destruct (dispatch_now w (s_state s) caller r) as [st' o] eqn:E. simpl in Hq.
  pose proof Hinv as [Hh Hg Hd Hn He Hj Hgr Hin [Hm1 Hm2] Hco].
  assert (later (s_state s) (s_history s) st' (s_history s)) as Hl
    by (apply (quiet_later _ _ _ [] _ 0 Hq Hd ltac:(lia) (not_elem_of_nil _))).
  pose proof (quiet_mono 0 1 _ _ ltac:(lia) Hq) as Hq1. pose proof Hl as (Hmono & _).
  destruct o as [d|].
  - replace (match r with Lock => ELock :: s_history s | _ => s_history s end) with ([] ++ s_history s)%list
      by (by destruct r).
    apply inv_quiet; [done|done|done|done|done| |].
    + split; [done|]. intros id Hid. specialize (Hm2 id Hid). lia.
    + intros i c Hi. eapply conn_ok_later; [done|by apply Hco].
  - apply (inv_quiet n s st' _ []); [done|done|done|done|done| |].
    + unfold minted_ok, auth_ids. rewrite bind_app.
      assert ((match open_conn (s_state s) caller r with Some c => [c] | None => [] end ≫= conn_ids) = []) as ->.
      { destruct (open_conn (s_state s) caller r) as [c|] eqn:Eo; [|done]. simpl.
        destruct (Hopen c 0%nat w) as [_ ->]; [by rewrite E|done|done]. }
      rewrite app_nil_r. split; [done|]. intros id Hid. specialize (Hm2 id Hid). lia.
    + intros i c [Hi|[_ Hi]]%lookup_app_Some; [eapply conn_ok_later; [done|by apply Hco]|].
      destruct (open_conn (s_state s) caller r) as [c'|] eqn:Eo; [|done].
      destruct (i - length (s_conns s))%nat; [|done]. simpl in Hi. injection Hi as ->.
      eapply conn_ok_later; [done|]. by apply (Hopen c i w); [by rewrite E|].
Qed.

(** ** LOCK *)
Lemma lock_effect st now :
  let st' := (lock st now).1.1 in
  st_grants st' = [] ∧ st_receipts st' = [] ∧ st_capability_grants st' = [] ∧
  st_active_decrypt st' = None ∧ st_lock_epoch st' = saturating_add_u64 (st_lock_epoch st) 1 ∧
  (st_queue st' = st_queue st ∨ ∃ i, st_queue st' = (Requests.deny (st_queue st) i now).1).
Proof.
  unfold lock. simpl. destruct (st_active_decrypt st) as [a|] eqn:E; simpl; split_and!; eauto.
Qed.

Lemma inv_lock w n s caller :
  Inv n s → (n + 1 < u64_max)%Z → Inv (n + 1) (step s (ARequest w caller Lock)).
Proof.
  intros [Hh Hg Hd Hn He Hj Hgr Hin Hm Hco] Hb. unfold step, dispatch_now.
  pose proof (lock_effect (s_state s) (w_clock w 0)) as (Eg & _ & _ & _ & Ee & Eq).
  destruct (lock (s_state s) (w_clock w 0)) as [[st' d] killed]. simpl in *.
  assert (desk_wf {| d_queue := st_queue st'; d_ticket := ticket_of (s_job s) |} ∧
    queue_frame None (st_queue (s_state s)) (st_queue st') ∧
    next_id (st_queue st') = next_id (st_queue (s_state s))) as (Hd' & Hf & Hnx).
  { destruct Eq as [->|[i ->]]; [split_and!; [done|apply queue_frame_refl|done]|]. split_and!.
    - apply (end_early_wf {| d_queue := st_queue (s_state s); d_ticket := ticket_of (s_job s) |}
        RequestState.Denied i (w_clock w 0) eq_refl Hd).
    - apply frame_end_early; [by destruct Hd as ((? & _) & _)|done].
    - apply next_id_end. }
  assert (st_lock_epoch st' = st_lock_epoch (s_state s) + 1)%Z as Ee'.
  { rewrite Ee. unfold saturating_add_u64. lia. }
  assert (later (s_state s) (s_history s) st' (ELock :: s_history s)) as Hl.
  { destruct Hf as [Hmono Hf]. split_and!; [done| |lia|].
    - intros r' Hr'. destruct (Hf r' Hr') as [(r & ? & ? & _)|[? _]]; [left; eauto|by right].
    - exists [ELock]. split; [done|lia]. }
  split; simpl; [done| |done|lia|lia| | | | |].
  - intros g. rewrite Eg. by intros ?%not_elem_of_nil.
  - intros j Hjob. by eapply job_ok_later, Hj.
  - intros r Hr Hs. destruct (granted_ok_frame _ _ _ Hf Hgr r Hr Hs) as [v Hv]. exists v. by right.
  - intros id scope key v [?|Hi]%elem_of_cons; [done|]. rewrite Hnx. by eapply Hin.
  - unfold minted_ok. rewrite Hnx. exact Hm.
  - intros i c Hi. eapply conn_ok_later; [done|by apply Hco].
Qed.

(** ** The worker *)
Lemma desk_wf_nodup q t : desk_wf {| d_queue := q; d_ticket := t |} → NoDup (r_id <$> requests q).
Proof. by intros ((? & _) & _). Qed.

Lemma inv_start n s pg : Inv n s → (n + 1 < u64_max)%Z → Inv (n + 1) (step s (AStart pg)).
Proof.
  intros Hinv Hb. unfold step. destruct (s_job s) as [j|] eqn:Ej.
  2: { destruct Hinv. split; try done; lia. }
  pose proof (quiet_started (s_state s) j pg) as Hq. rewrite <-Ej.
  pose proof Hinv as [Hh Hg Hd Hn He Hj Hgr Hin [Hm1 Hm2] Hco].
  assert (later (s_state s) (s_history s) (decrypt_started (s_state s) j pg).1 (s_history s)) as Hl
    by (apply (quiet_later _ _ _ [] _ 0 Hq Hd ltac:(lia) (not_elem_of_nil _))).
  apply (inv_quiet n s _ _ []); [done|done|by eapply quiet_mono; [|exact Hq]|done|done| |].
  - split; [done|]. intros id Hid. specialize (Hm2 id Hid). destruct Hl as (? & _). simpl in *. lia.
  - intros i c Hi. eapply conn_ok_later; [done|by apply Hco].
Qed.

Lemma describe_Some q i scope key rttl :
  NoDup (r_id <$> requests q) → describe q i = Some (scope, key, rttl) →
  (∃ r, r ∈ requests q ∧ r_id r = i) ∧
  ∀ r, r ∈ requests q → r_id r = i → r_scope r = scope ∧ r_key r = key.
Proof.
  intros Hnd. unfold describe. destruct (List.find _ _) as [r|] eqn:E; [|done]. intros [= <- <- <-].
  apply find_id_Some in E as [Hr Hid]. split; [eauto|]. intros r' Hr' Hid'.
  by rewrite (ids_unique _ r' r Hnd Hr' Hr) by congruence.
Qed.

(** What taking a job does: upkeep, then at most one request starts. *)
Lemma take_job_spec w st st' job killed :
  desk_wf {| d_queue := st_queue st; d_ticket := None |} → (next_id (st_queue st) <= u64_max)%Z →
  take_job w st = (st', job, killed) →
  desk_wf {| d_queue := st_queue st'; d_ticket := ticket_of job |} ∧
  queue_frame None (st_queue st) (st_queue st') ∧
  next_id (st_queue st') = next_id (st_queue st) ∧
  (∀ g, g ∈ st_grants st' → g ∈ st_grants st) ∧ st_lock_epoch st' = st_lock_epoch st ∧
  ∀ j, job = Some j → j_lock_epoch j = st_lock_epoch st ∧ linked st' (j_id j) (j_scope j) (j_key j).
Proof.
  intros Hd Hn. unfold take_job. pose proof (quiet_upkeep w st) as (Hg & He & Hq).
  destruct (upkeep w st) as [st1 k1]. simpl in *. destruct (Hq None Hd) as (Hd1 & Hf1 & Hn1); [lia|].
  pose proof (desk_wf_nodup _ _ Hd1) as Hnd1. pose proof Hf1 as [Hmono _].
  destruct (next_ready (st_queue st1) (w_clock w 0)) as [i|].
  2: { intros [= <- <- <-]. split_and!; [done|done|lia|done|done|done]. }
  pose proof (mark_wf {| d_queue := st_queue st1; d_ticket := None |} i (w_clock w 0) Hd1 eq_refl) as Hd2.
  pose proof (frame_mark (st_queue st1) i (w_clock w 0) Hnd1) as Hf2.
  pose proof (next_id_mark (st_queue st1) i (w_clock w 0)) as Hnx.
  simpl in Hd2. destruct (mark_decrypting (st_queue st1) i (w_clock w 0)) as [q [g|]]; simpl in *.
  2: { intros [= <- <- <-]. simpl. split_and!; [done|by eapply queue_frame_trans|lia|done|done|done]. }
  pose proof (desk_wf_nodup _ _ Hd2) as Hnd2.
  destruct (describe q i) as [[[scope key] rttl]|] eqn:Ed; intros [= <- <- <-]; simpl.
  - split_and!; [done|by eapply queue_frame_trans|lia|done|done|]. intros j [= <-]. simpl.
    split; [done|]. destruct (describe_Some _ _ _ _ _ Hnd2 Ed) as [(r & Hr & <-) Hall]. split; [|done].
    destruct Hd2 as ((_ & _ & Hb) & _). by apply Hb.
  - split_and!; [|eapply queue_frame_trans; [exact Hf1|]|lia|done|done|done].
    2: { eapply queue_frame_trans; [exact Hf2|by apply frame_fail]. }
    by apply (release_ticket_wf _ i g (w_clock w 0) (set_state RequestState.Failed)
      ltac:(done) Hd2 eq_refl).
Qed.

Lemma inv_take w n s : Inv n s → (n + 1 < u64_max)%Z → Inv (n + 1) (step s (ATake w)).
Proof.
  intros Hinv Hb. unfold step. destruct (s_job s) as [j|] eqn:Ej.
  { destruct Hinv. split; try done; lia. }
  destruct Hinv as [Hh Hg Hd Hn He Hj Hgr Hin [Hm1 Hm2] Hco]. rewrite Ej in Hd.
  destruct (take_job w (s_state s)) as [[st' job] killed] eqn:Et.
  destruct (take_job_spec w _ _ _ _ Hd ltac:(lia) Et) as (Hd' & Hf & Hnx & Hgs & Hep & Hjs).
  set (ev := match job with Some j => [EStart (j_id j) (j_scope j) (j_key j)] | None => [] end).
  replace (match job with Some j => _ :: s_history s | None => s_history s end)
    with (ev ++ s_history s)%list by (by destruct job).
  assert (ELock ∉ ev) as Hnl.
  { unfold ev. destruct job; [by intros ?%list_elem_of_singleton|apply not_elem_of_nil]. }
  pose proof (frame_later _ (s_history s) _ ev _ Hf Hep Hnl) as Hl.
  assert (∀ id sc k v, EInstall id sc k v ∈ (ev ++ s_history s)%list → EInstall id sc k v ∈ s_history s) as Hinst.
  { intros id sc k v [Hi|?]%elem_of_app; [|done]. unfold ev in Hi.
    destruct job; [by apply list_elem_of_singleton in Hi|by apply not_elem_of_nil in Hi]. }
  split; simpl; [| |done|lia|lia| | | | |].
  - unfold ev. by destruct job.
  - intros g Hgi. destruct (Hg g (Hgs g Hgi)) as [id Hid]. exists id.
    rewrite since_lock_app by done. apply elem_of_app. by right.
  - intros j ->. destruct (Hjs j eq_refl) as [Hje Hlk]. split_and!; [lia| |done].
    intros _. rewrite since_lock_app by done. by left.
  - intros r Hr Hs. destruct (granted_ok_frame _ _ _ Hf Hgr r Hr Hs) as [v Hv].
    exists v. apply elem_of_app. by right.
  - intros id sc k v Hi%Hinst. rewrite Hnx. by eapply Hin.
  - unfold minted_ok. rewrite minted_app, Hnx. unfold ev. by destruct job.
  - intros i c Hi. eapply conn_ok_later; [done|by apply Hco].
Qed.

Lemma kill_active_frame st i :
  let st' := (kill_active st i).1 in
  st_queue st' = st_queue st ∧ st_grants st' = st_grants st ∧ st_lock_epoch st' = st_lock_epoch st ∧
  st_registry st' = st_registry st ∧ st_failures st' = st_failures st ∧ st_config st' = st_config st.
Proof. unfold kill_active. repeat case_match; simpl; split_and!; done. Qed.

Lemma deny_then_complete q i t g t' : ids_wf q → (complete (Requests.deny q i t).1 i g t').2 = false.
Proof.
  intros Hi. destruct (Requests.deny q i t).2 eqn:E.
  { by apply closed_complete, end_early_closed. }
  unfold Requests.deny, end_early in *. destruct (List.find (has_id i) (requests q)) as [r|] eqn:Ef; simpl in *.
  - destruct (is_active (r_state r)) eqn:Ea; [done|]. unfold complete. simpl. apply existsb_false.
    intros x Hx. apply not_true_iff_false. intros Hb. bool_to_prop. apply find_id_Some in Ef as [Hr Hid].
    rewrite has_id_spec in *. destruct Hi as (Hnd & _).
    rewrite (ids_unique _ x r Hnd Hx Hr) in H0 by congruence. by rewrite H0 in Ea.
  - unfold complete. simpl. apply existsb_false. intros x Hx. rewrite find_None in Ef. by rewrite Ef.
Qed.

Lemma complete_not_decrypting q i g now :
  (∀ r, r ∈ requests q → r_id r = i → r_state r ≠ RequestState.Decrypting) → (complete q i g now).2 = false.
Proof.
  intros H. unfold complete. simpl. apply existsb_false. intros r Hr. apply not_true_iff_false.
  intros Hb. bool_to_prop. rewrite has_id_spec in *. by apply (H r).
Qed.

(** What finishing a job does; a grant is installed only by a decrypt that
    succeeded, for the job's own scope and key, with no LOCK since it began. *)
Lemma finish_job_spec w st j decrypted st' installed killed :
  desk_wf {| d_queue := st_queue st; d_ticket := Some (j_id j, j_generation j) |} →
  finish_job w st j decrypted = (st', installed, killed) →
  desk_wf {| d_queue := st_queue st'; d_ticket := None |} ∧
  queue_frame (if installed then Some (j_id j) else None) (st_queue st) (st_queue st') ∧
  next_id (st_queue st') = next_id (st_queue st) ∧ st_lock_epoch st' = st_lock_epoch st ∧
  match decrypted with
  | Ok dec =>
      if installed then
        st_lock_epoch st = j_lock_epoch j ∧ session_is_active w st (j_scope j) = true ∧
        ∀ g, g ∈ st_grants st' → g ∈ st_grants st ∨
          (g_scope g = j_scope j ∧ g_key g = j_key j ∧ g_value g = dec_value dec ∧
           g_ttl g = effective_grant_ttl (j_requested_ttl j) (max_grant (st_config st))
             (max_requested_grant (st_config st)))
      else st_grants st' = st_grants st
  | Err _ => installed = false ∧ st_grants st' = st_grants st
  end.
Proof.
  intros Hd. unfold finish_job. pose proof (kill_active_frame st (j_id j)) as (Eq & Eg & Ee & Er & Ef & Ec).
  destruct (kill_active st (j_id j)) as [st0 k0]. cbn [fst snd] in *.
  pose proof (desk_wf_nodup _ _ Hd) as Hnd.
  destruct decrypted as [dec|e].
  2: { intros [= <- <- <-]. simpl. rewrite Eq, Eg, Ee. split_and!; try done; [|by apply frame_fail].
    by apply (release_ticket_wf _ (j_id j) (j_generation j) (w_clock w 0) (set_state RequestState.Failed)
      ltac:(done) Hd eq_refl). }
  assert (session_is_active w st0 (j_scope j) = session_is_active w st (j_scope j)) as Hact
    by (unfold session_is_active; by rewrite Er). rewrite Hact.
  destruct (negb (st_lock_epoch st0 =? j_lock_epoch j)%Z || negb (session_is_active w st (j_scope j))) eqn:Ebad;
    cbv zeta; cbn [st_queue set_queue].
  - rewrite Eq. pose proof (deny_then_complete (st_queue st) (j_id j) (w_clock w 0) (j_generation j) (w_clock w 1)) as Hno.
    pose proof (end_early_wf {| d_queue := st_queue st; d_ticket := Some (j_id j, j_generation j) |}
      RequestState.Denied (j_id j) (w_clock w 0) eq_refl Hd) as Hd1.
    pose proof (frame_end_early RequestState.Denied (st_queue st) (j_id j) (w_clock w 0) Hnd ltac:(done)) as Hf1.
    pose proof (next_id_end (st_queue st) RequestState.Denied (j_id j) (w_clock w 0)) as Hn1.
    fold (Requests.deny (st_queue st) (j_id j) (w_clock w 0)) in Hd1, Hf1, Hn1.
    set (q1 := (Requests.deny (st_queue st) (j_id j) (w_clock w 0)).1) in *.
    assert (desk_wf {| d_queue := (complete q1 (j_id j) (j_generation j) (w_clock w 1)).1; d_ticket := None |}) as Hd2
      by (by apply (complete_wf {| d_queue := q1; d_ticket := Some (j_id j, j_generation j) |})).
    pose proof (frame_complete q1 (j_id j) (j_generation j) (w_clock w 1) (desk_wf_nodup _ _ Hd1)) as Hf2.
    pose proof (next_id_complete q1 (j_id j) (j_generation j) (w_clock w 1)) as Hn2.
    rewrite Hno in Hf2 by (by destruct Hd).
    destruct (complete q1 (j_id j) (j_generation j) (w_clock w 1)) as [q2 b] eqn:E2. cbn [fst snd] in *.
    rewrite Hno by (by destruct Hd). intros [= <- <- <-]. simpl. rewrite Ee, Eg.
    split_and!; [exact Hd2|by eapply queue_frame_trans|congruence|done|done].
  - rewrite Eq. pose proof (complete_wf _ (j_id j) (j_generation j) (w_clock w 1) Hd eq_refl) as Hd2.
    pose proof (frame_complete (st_queue st) (j_id j) (j_generation j) (w_clock w 1) Hnd) as Hf2.
    pose proof (next_id_complete (st_queue st) (j_id j) (j_generation j) (w_clock w 1)) as Hn2.
    cbn [d_queue] in Hd2.
    destruct (complete (st_queue st) (j_id j) (j_generation j) (w_clock w 1)) as [q2 b]. cbn [fst snd] in *.
    apply orb_false_iff in Ebad as [Eb1 Eb2]. apply negb_false_iff in Eb1, Eb2. apply Z.eqb_eq in Eb1.
    destruct b; intros [= <- <- <-]; simpl; rewrite ?Ee; split_and!; try done; [congruence|].
    intros g [[Hg _]%elem_of_retain| ->%list_elem_of_singleton]%elem_of_app; [left; by rewrite <-Eg|right].
    by rewrite <-Ec.
Qed.

Lemma inv_finish w n s decrypted :
  Inv n s → (n + 1 < u64_max)%Z → Inv (n + 1) (step s (AFinish w decrypted)).
Proof.
  intros Hinv Hb. unfold step. destruct (s_job s) as [j|] eqn:Ej.
  2: { destruct Hinv. split; try done; lia. }
  destruct Hinv as [Hh Hg Hd Hn He Hj Hgr Hin [Hm1 Hm2] Hco]. rewrite Ej in Hd. simpl in Hd.
  destruct (finish_job w (s_state s) j decrypted) as [[st' installed] killed] eqn:Ef.
  destruct (finish_job_spec _ _ _ _ _ _ _ Hd Ef) as (Hd' & Hf & Hnx & Hep & Hcase).
  destruct (Hj j Ej) as (Hje & Hjs & Hjl).
  set (ev := match decrypted with Ok dec => if installed
    then [EInstall (j_id j) (j_scope j) (j_key j) (dec_value dec)] else [] | Err _ => [] end).
  replace (match decrypted with Ok dec => if installed then _ :: s_history s else s_history s | Err _ => s_history s end)
    with (ev ++ s_history s)%list by (unfold ev; destruct decrypted; [by destruct installed|done]).
  assert (ELock ∉ ev) as Hnl.
  { unfold ev. destruct decrypted; [|apply not_elem_of_nil].
    destruct installed; [by intros ?%list_elem_of_singleton|apply not_elem_of_nil]. }
  pose proof (frame_later _ (s_history s) _ ev _ Hf Hep Hnl) as Hl.
  assert (∀ id sc k v, EInstall id sc k v ∈ (ev ++ s_history s)%list →
    EInstall id sc k v ∈ s_history s ∨ id = j_id j) as Hinst.
  { intros id sc k v [Hi|?]%elem_of_app; [right|by left]. unfold ev in Hi.
    destruct decrypted; [destruct installed|]; try by apply not_elem_of_nil in Hi.
    apply list_elem_of_singleton in Hi. by simplify_eq. }
  split; simpl; [| |done|lia|lia|done| | | |].
  - unfold ev. destruct decrypted as [dec|]; [|done]. destruct installed; [|done].
    split; [|done]. simpl. apply Hjs. by destruct Hcase as [-> _].
  - intros g Hgi. rewrite since_lock_app by done. unfold ev.
    destruct decrypted as [dec|]; [destruct installed|].
    + destruct Hcase as (_ & _ & Hall). destruct (Hall g Hgi) as [Hold|(-> & -> & -> & _)].
      * destruct (Hg g Hold) as [id Hid]. exists id. by right.
      * exists (j_id j). by left.
    + rewrite Hcase in Hgi. destruct (Hg g Hgi) as [id Hid]. by exists id.
    + destruct Hcase as [_ Hcase]. rewrite Hcase in Hgi. destruct (Hg g Hgi) as [id Hid]. by exists id.
  - intros r' Hr' Hs. destruct Hf as [_ Hf].
    assert (r_id r' = j_id j → installed = true → ∃ v, EInstall (r_id r') (r_scope r') (r_key r') v ∈ (ev ++ s_history s)%list) as Hnew.
    { intros Hid ->. destruct decrypted as [dec|]; [|by destruct Hcase].
      destruct (linked_later _ _ _ _ _ _ _ Hl Hjl) as [_ Hlk]. destruct (Hlk r' Hr' Hid) as [-> ->].
      rewrite Hid. exists (dec_value dec). by left. }
    destruct (Hf r' Hr') as [(r & Hr & (Hi & Hsc & Hk & _) & Hst)|[_ Hno]].
    + destruct (Hst Hs) as [Hs'|Hx].
      * destruct (Hgr r Hr Hs') as [v Hv]. exists v. rewrite Hi, Hsc, Hk. apply elem_of_app. by right.
      * destruct installed; [|done]. apply Hnew; [congruence|done].
    + specialize (Hno Hs). destruct installed; [|done]. apply Hnew; [congruence|done].
  - intros id sc k v Hi. rewrite Hnx. destruct (Hinst _ _ _ _ Hi) as [?| ->]; [by eapply Hin|by destruct Hjl].
  - unfold minted_ok. rewrite minted_app, Hnx. unfold ev.
    destruct decrypted as [dec|]; [destruct installed|]; done.
  - intros i c Hi. eapply conn_ok_later; [done|by apply Hco].
Qed.

Lemma inv_step n s a : Inv n s → (n + 1 < u64_max)%Z → Inv (n + 1) (step s a).
Proof.
  intros Hinv Hb. destruct a as [w caller r|w i|w|pg|w dec].
  - destruct (decide (r = Lock)) as [->|Hr]; [by apply inv_lock|by apply inv_request].
  - by apply inv_conn.
  - by apply inv_take.
  - by apply inv_start.
  - by apply inv_finish.
Qed.

Lemma inv_new instance boot config l : Inv 0 (Sys_new (P:=P) instance boot config l).
Proof.
  split; simpl; try done.
  - intros g ?%not_elem_of_nil. done.
  - apply (desk_new_wf l).
  - intros r ?%not_elem_of_nil. done.
  - intros ? ? ? ? ?%not_elem_of_nil. done.
  - split; [apply NoDup_nil_2|]. intros ? ?%not_elem_of_nil. done.
Qed.

Lemma inv_run n s actions :
  Inv n s → (n + Z.of_nat (length actions) < u64_max)%Z → Inv (n + Z.of_nat (length actions)) (run s actions).
Proof.
  unfold run. revert n s. induction actions as [|a actions IH]; intros n s Hinv Hb; simpl in *.
  { by rewrite Z.add_0_r. }
  replace (n + Z.of_nat (S (length actions)))%Z with ((n + 1) + Z.of_nat (length actions))%Z by lia.
  apply IH; [apply inv_step; [done|lia]|lia].
Qed.

(** ** What no step undoes *)
Lemma frame_closed x q q' i : queue_frame x q q' → closed i q → closed i q'.
Proof.
  intros [Hn Hf] [Hi Hc]. split; [lia|]. intros r' Hr' Hid.
  destruct (Hf r' Hr') as [(r & Hr & (Ho & _ & _ & Ha) & _)|[? _]]; [|lia].
  specialize (Hc r Hr ltac:(congruence)). destruct (is_active (r_state r')); [|done]. by rewrite Ha in Hc.
Qed.

Lemma finish_closed w st j decrypted :
  ids_wf (st_queue st) → closed (j_id j) (st_queue st) → (finish_job w st j decrypted).1.2 = false.
Proof.
  intros Hi Hc. unfold finish_job. pose proof (kill_active_frame st (j_id j)) as (Eq & _).
  destruct (kill_active st (j_id j)) as [st0 k0]. cbn [fst] in *. destruct decrypted as [dec|]; [|done]. cbv zeta.
  set (bad := _ || _). assert (closed (j_id j)
    (st_queue (if bad then set_queue st0 (Requests.deny (st_queue st0) (j_id j) (w_clock w 0)).1 else st0))) as Hc'.
  { destruct bad; cbn [st_queue set_queue]; rewrite Eq; [by apply closed_end|done]. }
  pose proof (closed_complete _ (j_id j) (j_generation j) (w_clock w 1) Hc') as Hno.
  destruct (complete _ _ _ _) as [q b]. cbn [snd] in Hno. by subst b.
Qed.

Lemma finish_after_lock w st j decrypted :
  ids_wf (st_queue st) → st_lock_epoch st ≠ j_lock_epoch j →
  (finish_job w st j decrypted).1.2 = false ∧ st_grants (finish_job w st j decrypted).1.1 = st_grants st.
Proof.
  intros Hi He. unfold finish_job. pose proof (kill_active_frame st (j_id j)) as (Eq & Eg & Ee & _).
  destruct (kill_active st (j_id j)) as [st0 k0]. cbn [fst snd] in *.
  destruct decrypted as [dec|e]; [|done]. rewrite Ee.
  destruct (Z.eqb_spec (st_lock_epoch st) (j_lock_epoch j)); [done|]. cbn [negb orb].
  cbv zeta. cbn [st_queue set_queue]. rewrite Eq.
  pose proof (deny_then_complete (st_queue st) (j_id j) (w_clock w 0) (j_generation j) (w_clock w 1) Hi) as Hno.
  destruct (complete _ _ _ _) as [q b]. simpl in Hno. by subst b.
Qed.

(** A step moves the queue within its frame, never turns the epoch back, adds
    to the history, and installs nothing for a request that has ended. *)
Record forward s s' : Prop := {
  fw_queue : ∃ x, queue_frame x (st_queue (s_state s)) (st_queue (s_state s'));
  fw_epoch : (st_lock_epoch (s_state s) <= st_lock_epoch (s_state s'))%Z;
  fw_history : ∃ ev, s_history s' = (ev ++ s_history s)%list ∧
    ∀ i scope key v, closed i (st_queue (s_state s)) → EInstall i scope key v ∉ ev;
}.

Lemma forward_quiet n s st' conns' ev k :
  Inv n s → (next_id (st_queue (s_state s)) + k <= u64_max)%Z → quiet k (s_state s) st' →
  (∀ i scope key v, EInstall i scope key v ∉ ev) →
  forward s {| s_state := st'; s_conns := conns'; s_job := s_job s; s_history := (ev ++ s_history s)%list |}.
Proof.
  intros Hinv Hn (_ & He & Hq) Hev. destruct (Hq _ (inv_desk _ _ Hinv) Hn) as (_ & Hf & _).
  split; simpl; [by eexists|lia|]. exists ev. auto.
Qed.

Lemma step_forward n s a : Inv n s → (n + 1 < u64_max)%Z → forward s (step s a).
Proof.
  intros Hinv Hb. pose proof Hinv as [_ _ Hd Hn He _ _ _ _ _].
  assert (forward s s) as Hrefl.
  { split; [eexists; by apply (queue_frame_refl None)|done|]. exists []. split; [done|]. intros ???? _. apply not_elem_of_nil. }
  destruct a as [w caller r|w i|w|pg|w dec]; cbn [step].
  - destruct (decide (r = Lock)) as [->|Hr].
    + cbn [dispatch_now]. pose proof (lock_effect (s_state s) (w_clock w 0)) as (_ & _ & _ & _ & Hep & Hq).
      destruct (lock (s_state s) (w_clock w 0)) as [[st' d] killed]. cbn [fst] in *. split; simpl.
      * destruct Hq as [->|[i ->]]; [exists None; apply queue_frame_refl|].
        exists None. apply frame_end_early; [by eapply desk_wf_nodup|done].
      * rewrite Hep. unfold saturating_add_u64. lia.
      * exists [ELock]. split; [done|]. by intros ???? _ ?%list_elem_of_singleton.
    + pose proof (quiet_dispatch w (s_state s) caller r Hr) as Hq.
      destruct (dispatch_now w (s_state s) caller r) as [st' [d|]]; cbn [fst] in Hq.
      * replace (match r with Lock => ELock :: s_history s | _ => s_history s end) with ([] ++ s_history s)%list by (by destruct r).
        eapply forward_quiet; [done| |exact Hq|intros; apply not_elem_of_nil]. lia.
      * apply (forward_quiet n s st' _ [] 0); [done|lia|exact Hq|intros; apply not_elem_of_nil].
  - destruct (s_conns s !! i) as [c|] eqn:Hi; [|done].
    destruct (run_conn w (s_state s) i c) as [[st' c'] ev] eqn:Hrun.
    destruct (conn_step_intro w n s i c st' c' ev Hinv Hb Hi Hrun) as [Hq Hsoft _ _ _].
    eapply forward_quiet; [done| |exact Hq|]; [lia|]. intros id scope key v Hin.
    rewrite forallb_elem in Hsoft. by specialize (Hsoft _ Hin).
  - destruct (s_job s) as [j|] eqn:Ej; [done|]. destruct (take_job w (s_state s)) as [[st' job] killed] eqn:Et.
    destruct (take_job_spec w _ _ _ _ Hd ltac:(lia) Et) as (_ & Hf & _ & _ & Hep & _).
    split; simpl; [by eexists|lia|]. destruct job as [j|].
    + exists [EStart (j_id j) (j_scope j) (j_key j)]. split; [done|]. by intros ???? _ ?%list_elem_of_singleton.
    + exists []. split; [done|]. intros ???? _. apply not_elem_of_nil.
  - destruct (s_job s) as [j|] eqn:Ej; [|done]. rewrite <-Ej.
    apply (forward_quiet n s _ _ [] 0); [done|lia|apply quiet_started|intros; apply not_elem_of_nil].
  - destruct (s_job s) as [j|] eqn:Ej; [|done]. cbn [ticket_of] in Hd.
    pose proof (finish_closed w (s_state s) j dec) as Hcl.
    destruct (finish_job w (s_state s) j dec) as [[st' installed] killed] eqn:Ef. cbn [fst snd] in Hcl.
    destruct (finish_job_spec _ _ _ _ _ _ _ Hd Ef) as (_ & Hf & _ & Hep & _).
    split; simpl; [by eexists|lia|]. destruct dec as [dec|]; [destruct installed|].
    + exists [EInstall (j_id j) (j_scope j) (j_key j) (dec_value dec)]. split; [done|].
      intros i scope key v Hc Hin%list_elem_of_singleton. injection Hin as -> _ _ _.
      destruct Hd as [Hids _]. by specialize (Hcl Hids Hc).
    + exists []. split; [done|]. intros ???? _. apply not_elem_of_nil.
    + exists []. split; [done|]. intros ???? _. apply not_elem_of_nil.
Qed.

Lemma run_forward n s actions : Inv n s → (n + Z.of_nat (length actions) < u64_max)%Z →
  (st_lock_epoch (s_state s) <= st_lock_epoch (s_state (run s actions)))%Z ∧
  ∀ i, closed i (st_queue (s_state s)) → closed i (st_queue (s_state (run s actions))) ∧
    ∀ scope key v, EInstall i scope key v ∈ s_history (run s actions) → EInstall i scope key v ∈ s_history s.
Proof.
  unfold run. revert n s. induction actions as [|a actions IH]; intros n s Hinv Hb; simpl in *; [done|].
  assert (n + 1 < u64_max)%Z as Hb1 by lia. pose proof (step_forward n s a Hinv Hb1) as [[x Hq] He (ev & Hev & Hno)].
  destruct (IH (n + 1)%Z (step s a)) as [IHe IHc]; [by apply inv_step|lia|]. split; [lia|].
  intros i Hc. destruct (IHc i) as [H1 H2]; [by eapply frame_closed|]. split; [done|].
  intros scope key v Hin. apply H2 in Hin. rewrite Hev in Hin. apply elem_of_app in Hin as [Hin|?]; [|done].
  by destruct (Hno i scope key v Hc).
Qed.

(** A request that is ended early is found so. *)
Lemma state_of_end_early q (to : RequestState) i now x :
  state_of q i = Some x → is_active x = true → state_of (end_early to q i now).1 i = Some to.
Proof.
  unfold state_of, end_early. destruct (List.find (has_id i) (requests q)) as [r|] eqn:E; [|done].
  simpl. intros [= <-] ->. simpl. destruct (find_split _ _ _ E) as (l1 & l2 & -> & H1 & H2).
  rewrite update_first_split by done. rewrite find_app. destruct (List.find (has_id i) l1) as [y|] eqn:Ey.
  - apply find_Some in Ey as [Hy Hid]. by rewrite H1 in Hid.
  - simpl. assert (has_id i (invalidate to r) = true) as ->; [|done].
    apply has_id_spec. apply has_id_spec in H2. done.
Qed.

Lemma history_split h1 e h2 : history_ok (h1 ++ e :: h2)%list → justified e h2.
Proof. induction h1 as [|e' h1 IH]; simpl; [by intros [? _]|intros [_ ?]; auto]. Qed.
End steps.

(** * What a run guarantees *)

Section demo.

Definition demo_token : string := "AAAAAAAAAAAAAAAAAAAAAAAAAAAAAAAA".
Definition demo_token_hex : string := Eval vm_compute in encode demo_token.

Definition demo_world (t : Z) : World (P:=Z) :=
  {| w_clock := λ n, (t + Z.of_nat n)%Z; w_fs := demo_fs; w_exists := λ _, true;
     w_peers := demo_containment; w_random := Some [demo_block] |}.

Definition demo_config : Config :=
  {| max_grant := Time.from_secs 43200; max_requested_grant := Time.from_secs 86400;
     request_ttl := Time.from_secs 90; human_sources := demo_sources |}.

Definition demo_decrypted : Decrypted :=
  {| dec_value := "s3cret"; dec_source := "main";
     dec_identity := {| device := 1; inode := 2; size := 3;
       modified := {| seconds := 4; nanoseconds := 5 |};
       changed := {| seconds := 6; nanoseconds := 7 |} |} |}.

(** A session registered by process 2 asks for [K] from its descendant 6,
    and the request is approved. *)
Definition demo_actions : list (action (P:=Z)) :=
  [ARequest (demo_world 0) 2%Z (Register demo_token_hex "s" 0);
   ARequest (demo_world 10) 6%Z (Get "K" (Some demo_token_hex) None None);
   AConn (demo_world 20) 0; AConn (demo_world 30) 0;
   ATake (demo_world 40); AStart 77;
   AFinish (demo_world 50) (Ok demo_decrypted);
   AConn (demo_world 60) 0; AConn (demo_world 70) 0].

Definition demo_run (actions : list (action (P:=Z))) : Sys (P:=Z) :=
  run (Sys_new "abc" "boot" demo_config demo_limits) actions.

End demo.

(** C1: no secret leaves the broker without an approved decrypt.  In every
    interleaving of connections, requests and the worker, from daemon start,
    bytes released to a connection for a scope and key were installed by a
    decrypt of that same key for that same scope, after the last LOCK; the
    connection had been resolved to that scope, and the key is not a
    capability key. *)
Theorem released_bytes_approved {P} instance boot config l (actions : list (action (P:=P)))
    after i scope key value before :
  (Z.of_nat (length actions) < u64_max)%Z →
  s_history (run (Sys_new instance boot config l) actions) =
    (after ++ ERelease i scope key value :: before)%list →
  is_capability_key key = false ∧ EResolve i scope ∈ before ∧
  ∃ id, EInstall id scope key value ∈ since_lock before.
Proof.
  intros Hlen Heq. destruct (inv_run 0 _ actions (inv_new instance boot config l)) as [Hh _ _ _ _ _ _ _ _ _];
    [lia|]. rewrite Heq in Hh. exact (history_split _ _ _ Hh).
Qed.

Lemma released_bytes_approved_witness :
  is_capability_key "K" = false ∧
  EResolve 0 (Session demo_token) ∈
    [EInstall 1 (Session demo_token) "K" "s3cret"; EStart 1 (Session demo_token) "K";
     EResolve 0 (Session demo_token)] ∧
  ∃ id, EInstall id (Session demo_token) "K" "s3cret" ∈
    since_lock [EInstall 1 (Session demo_token) "K" "s3cret"; EStart 1 (Session demo_token) "K";
     EResolve 0 (Session demo_token)].
Proof.
  apply (released_bytes_approved "abc" "boot" demo_config demo_limits demo_actions [] 0%nat
    (Session demo_token) "K" "s3cret"); by vm_compute.
Defined.

(** C2: LOCK ends every approval in progress.  A grant is only ever installed
    by a decrypt that was started, for that request, scope and key, after the
    last LOCK: one that was running or about to run when the LOCK came never
    installs. *)
Theorem installed_since_lock {P} instance boot config l (actions : list (action (P:=P)))
    after id scope key value before :
  (Z.of_nat (length actions) < u64_max)%Z →
  s_history (run (Sys_new instance boot config l) actions) =
    (after ++ EInstall id scope key value :: before)%list →
  EStart id scope key ∈ since_lock before.
Proof.
  intros Hlen Heq. destruct (inv_run 0 _ actions (inv_new instance boot config l)) as [Hh _ _ _ _ _ _ _ _ _];
    [lia|]. rewrite Heq in Hh. exact (history_split _ _ _ Hh).
Qed.

Lemma installed_since_lock_witness :
  EStart 1 (Session demo_token) "K" ∈
    since_lock [EStart 1 (Session demo_token) "K"; EResolve 0 (Session demo_token)].
Proof.
  apply (installed_since_lock "abc" "boot" demo_config demo_limits demo_actions
    [ERelease 0 (Session demo_token) "K" "s3cret"] 1 (Session demo_token) "K" "s3cret"); by vm_compute.
Defined.

(** The capability file [CAP_BROWSER.env]. *)
Definition cap_fs : filesystem :=
  {| read_dir := λ dir, if bool_decide (dir = "/a") then Entries [Some "CAP_BROWSER.env"] else NotFound;
     open_dir := λ _, true; openat := λ _ _, Some 5%Z; fstat := λ _, None |}.

Definition cap_world (t : Z) : World (P:=Z) :=
  {| w_clock := λ n, (t + Z.of_nat n)%Z; w_fs := cap_fs; w_exists := λ _, true;
     w_peers := demo_containment; w_random := Some [demo_block] |}.

Definition cap_actions : list (action (P:=Z)) :=
  [ARequest (cap_world 0) 2%Z (Register demo_token_hex "s" 0);
   ARequest (cap_world 10) 6%Z (Authorize "browser" (Some demo_token_hex) None);
   AConn (cap_world 20) 0; AConn (cap_world 30) 0;
   ATake (cap_world 40); AStart 77; AFinish (cap_world 50) (Ok demo_decrypted);
   AConn (cap_world 60) 0; AConn (cap_world 70) 0; AConn (cap_world 80) 0].

(** C3: one touch, one receipt.  Every receipt minted in any run is paid for
    by its own approved decrypt of that capability's key, installed after the
    last LOCK; no two receipts are paid for by the same request. *)
Theorem receipt_paid_once {P} instance boot config l (actions : list (action (P:=P)))
    after i id cap before :
  (Z.of_nat (length actions) < u64_max)%Z →
  s_history (run (Sys_new instance boot config l) actions) = (after ++ EMint i id cap :: before)%list →
  id ∉ minted before ∧ ∃ scope value, EInstall id scope (key_name cap) value ∈ since_lock before.
Proof.
  intros Hlen Heq. destruct (inv_run 0 _ actions (inv_new instance boot config l)) as [Hh _ _ _ _ _ _ _ _ _];
    [lia|]. rewrite Heq in Hh. exact (history_split _ _ _ Hh).
Qed.

Lemma receipt_paid_once_witness :
  1%Z ∉ minted [EInstall 1 (Session demo_token) "CAP_BROWSER" "s3cret";
    EStart 1 (Session demo_token) "CAP_BROWSER"; EResolve 0 (Session demo_token)] ∧
  ∃ scope value, EInstall 1 scope (key_name "browser") value ∈
    since_lock [EInstall 1 (Session demo_token) "CAP_BROWSER" "s3cret";
      EStart 1 (Session demo_token) "CAP_BROWSER"; EResolve 0 (Session demo_token)].
Proof.
  apply (receipt_paid_once "abc" "boot" demo_config demo_limits cap_actions [] 0%nat); by vm_compute.
Defined.

(** C16: what LOCK does.  At once all cached values, receipts and capability
    grants are gone and the epoch has moved on; a decrypt that was running has
    its process group killed and its request denied.  A job taken before the
    LOCK, also one whose process had not started and may still start, installs
    nothing: whatever happens after the LOCK until that job finishes, and
    whatever its decrypt returns, its finish adds no value and no event. *)
Theorem lock_revokes_all {P} instance boot config l (actions : list (action (P:=P))) w caller :
  (Z.of_nat (length actions) + 1 < u64_max)%Z →
  let s := run (Sys_new instance boot config l) actions in
  let s' := step s (ARequest w caller Lock) in
  st_grants (s_state s') = [] ∧ st_receipts (s_state s') = [] ∧ st_capability_grants (s_state s') = [] ∧
  st_lock_epoch (s_state s') = (st_lock_epoch (s_state s) + 1)%Z ∧ st_active_decrypt (s_state s') = None ∧
  (∀ a, st_active_decrypt (s_state s) = Some a →
     (lock (s_state s) (w_clock w 0)).2 = [ad_process_group a] ∧
     ∀ x, state_of (st_queue (s_state s)) (ad_id a) = Some x → is_active x = true →
       state_of (st_queue (s_state s')) (ad_id a) = Some RequestState.Denied) ∧
  ∀ j more w' decrypted, s_job s = Some j →
    (Z.of_nat (length actions) + 1 + Z.of_nat (length more) < u64_max)%Z → s_job (run s' more) = Some j →
    let after := step (run s' more) (AFinish w' decrypted) in
    st_grants (s_state after) = st_grants (s_state (run s' more)) ∧ s_history after = s_history (run s' more).
Proof.
  intros Hlen s s'. pose proof (inv_run 0 _ actions (inv_new instance boot config l) ltac:(lia)) as Hinv. fold s in Hinv.
  pose proof (inv_step _ _ (ARequest w caller Lock) Hinv ltac:(lia)) as Hinv'. fold s' in Hinv'.
  pose proof (lock_effect (s_state s) (w_clock w 0)) as (H1 & H2 & H3 & H4 & H5 & _).
  assert (s_state s' = (lock (s_state s) (w_clock w 0)).1.1) as Es'.
  { unfold s'. cbn [step dispatch_now]. by destruct (lock (s_state s) (w_clock w 0)) as [[??]?]. }
  rewrite Es'. cbv zeta in *.
  assert (saturating_add_u64 (st_lock_epoch (s_state s)) 1 = st_lock_epoch (s_state s) + 1)%Z as Hsat.
  { unfold saturating_add_u64. pose proof (inv_epoch _ _ Hinv). lia. }
  rewrite Hsat in H5. split_and!; [done..| |].
  - intros a Ha. unfold lock. cbn [set_epoch set_receipts set_grants st_active_decrypt st_queue]. rewrite Ha.
    split; [done|]. intros x Hx Hact. cbn [fst set_queue set_active st_queue]. by eapply state_of_end_early.
  - intros j more w' decrypted Hj Hm Hjob. destruct (run_forward _ s' more Hinv' ltac:(lia)) as [Hep _].
    pose proof (inv_run _ s' more Hinv' ltac:(lia)) as Hinv2. destruct (inv_job _ _ Hinv j Hj) as [Hje _].
    destruct (inv_desk _ _ Hinv2) as [Hids _]. cbn [d_queue] in Hids.
    destruct (finish_after_lock w' (s_state (run s' more)) j decrypted Hids) as [Hf1 Hf2].
    { rewrite Es' in Hep. lia. }
    cbn [step]. rewrite Hjob. destruct (finish_job w' (s_state (run s' more)) j decrypted) as [[st' b] killed].
    cbn [fst snd s_state s_history] in *. subst b. split; [done|]. by destruct decrypted.
Qed.

Definition demo_job : Job :=
  {| j_id := 1; j_scope := Session demo_token; j_key := "K"; j_generation := 1; j_lock_epoch := 0;
     j_requested_ttl := None |}.

(** The job of [demo_actions] is taken, LOCK comes, and only then its process
    starts and yields its value. *)
Lemma lock_revokes_all_witness :
  let s' := step (demo_run (take 5 demo_actions)) (ARequest (demo_world 44) 2%Z Lock) in
  let before := run s' [AStart 77] in
  let after := step before (AFinish (demo_world 50) (Ok demo_decrypted)) in
  st_active_decrypt (s_state before) = Some {| ad_id := 1; ad_process_group := 77 |} ∧
  st_grants (s_state after) = st_grants (s_state before) ∧ s_history after = s_history before.
Proof.
  destruct (lock_revokes_all "abc" "boot" demo_config demo_limits (take 5 demo_actions) (demo_world 44) 2%Z)
    as (_ & _ & _ & _ & _ & _ & H); [by vm_compute|].
  cbv zeta. split; [vm_compute; reflexivity|].
  apply (H demo_job [AStart 77] (demo_world 50) (Ok demo_decrypted)); vm_compute; reflexivity.
Defined.

(** C8: an installed grant lives exactly as long as granted.  When a job
    installs at instant [t], the value is readable by its scope under its key
    from then on exactly while the requested lifetime, capped by the
    configured ceiling, or the default when none was requested, has not
    passed. *)
Theorem installed_grant_lifetime {P} w (st : State (P:=P)) j dec st' killed now :
  finish_job w st j (Ok dec) = (st', true, killed) → (w_clock w 2 <= now)%Z →
  Table.lookup (st_grants st') (j_scope j) (j_key j) now =
  if (now - w_clock w 2 <? match j_requested_ttl j with
                           | None => max_grant (st_config st)
                           | Some secs => Z.min (Time.from_secs secs) (max_requested_grant (st_config st))
                           end)%Z
  then Some (dec_value dec, dec_source dec, dec_identity dec) else None.
Proof.
  unfold finish_job. pose proof (kill_active_frame st (j_id j)) as (_ & _ & _ & _ & _ & Ec).
  destruct (kill_active st (j_id j)) as [st0 k0]. cbn [fst] in *. cbv zeta.
  match goal with |- context [complete ?q ?i ?g ?t] => destruct (complete q i g t) as [q2 [|]] end; [|done].
  intros [= <- <-] Hnow. simpl.
  assert (st_config (if negb (st_lock_epoch st0 =? j_lock_epoch j)%Z || negb (session_is_active w st0 (j_scope j))
    then set_queue st0 (Requests.deny (st_queue st0) (j_id j) (w_clock w 0)).1 else st0) = st_config st) as Hcfg
    by (by case_match).
  rewrite Hcfg. unfold Table.lookup, Table.insert. rewrite find_app, find_retain_none.
  2: { intros g Hg. apply andb_true_iff in Hg as [-> _]. done. }
  simpl. unfold Table.grant_for, Table.grant_fresh. simpl.
  rewrite !bool_decide_eq_true_2 by done. simpl. unfold effective_grant_ttl, Time.duration_since.
  rewrite Z.max_l by lia. by destruct (_ <? _)%Z.
Qed.

Lemma installed_grant_lifetime_witness :
  Table.lookup (st_grants (s_state (demo_run (take 7 demo_actions)))) (Session demo_token) "K" 1000 =
  Some ("s3cret", "main", dec_identity demo_decrypted).
Proof.
  apply (installed_grant_lifetime (demo_world 50) (s_state (demo_run (take 6 demo_actions))) demo_job demo_decrypted
    (s_state (demo_run (take 7 demo_actions))) [77%Z] 1000).
  - by vm_compute.
  - by vm_compute.
Defined.

(** ** Waiting *)

(** Where a connection that waits with [t] can be from then on. *)
Definition waits_with {P} (t : Waiting) (c : Conn (P:=P)) : Prop :=
  match c_pc c with
  | PcResolve | PcEnter _ _ => False
  | PcWait _ _ t' => t' = t
  | _ => True
  end.

Lemma run_conn_waits {P} w (st : State (P:=P)) i c t :
  waits_with t c → waits_with t (run_conn w st i c).1.2.
Proof.
  unfold waits_with, run_conn. destruct (c_pc c) eqn:Ec; try done.
  - intros ->. destruct (await_poll _ _ _ _) as [[st' [approval|]] killed]; cbn [fst snd set_pc c_pc]; [done|by rewrite Ec].
  - intros _. cbn [fst snd set_pc c_pc]. unfold answered. by destruct (c_auth c).
  - intros _. destruct (c_auth c) as [[cap e]|]; [|by cbn [fst snd]; rewrite Ec].
    by destruct (finish_authorization _ _ _ _ _).
  - intros _. cbn [fst snd]. by rewrite Ec.
Qed.

Lemma step_waits {P} (s : Sys (P:=P)) a i c t :
  s_conns s !! i = Some c → waits_with t c → ∃ c', s_conns (step s a) !! i = Some c' ∧ waits_with t c'.
Proof.
  intros Hi Hw. destruct a as [w caller r|w j|w|pg|w dec]; cbn [step].
  - destruct (dispatch_now w (s_state s) caller r) as [st' [d|]]; cbn [s_conns]; [by exists c|].
    exists c. split; [|done]. by apply lookup_app_l_Some.
  - destruct (s_conns s !! j) as [c0|] eqn:Ej; [|by exists c].
    pose proof (run_conn_waits w (s_state s) j c0 t) as Hk.
    destruct (run_conn w (s_state s) j c0) as [[st' c'] ev]. cbn [s_conns fst snd] in *.
    destruct (decide (i = j)) as [->|Hne].
    + rewrite list_lookup_insert_eq by (by eapply lookup_lt_Some). exists c'. split; [done|]. apply Hk. congruence.
    + rewrite list_lookup_insert_ne by done. by exists c.
  - destruct (s_job s); [by exists c|]. destruct (take_job _ _) as [[??]?]. by exists c.
  - destruct (s_job s); by exists c.
  - destruct (s_job s); [|by exists c]. destruct (finish_job _ _ _ _) as [[??]?]. by exists c.
Qed.

Lemma run_waits {P} (s : Sys (P:=P)) actions i c t :
  s_conns s !! i = Some c → waits_with t c → ∃ c', s_conns (run s actions) !! i = Some c' ∧ waits_with t c'.
Proof.
  unfold run. revert s c. induction actions as [|a actions IH]; intros s c Hi Hw; simpl; [by exists c|].
  destruct (step_waits s a i c t Hi Hw) as (c' & Hi' & Hw'). by eapply IH.
Qed.

Lemma await_enter_deadline {P} w (st : State (P:=P)) scope key fresh rttl st' t :
  await_enter w st scope key fresh rttl = (st', inr t) → w_deadline t = (w_clock w 1 + request_ttl (st_config st))%Z.
Proof.
  unfold await_enter. destruct (cached_grant w st scope key fresh) as [st1 [approval|]] eqn:Ec; [done|].
  assert (st_config st1 = st_config st) as Hc.
  { revert Ec. unfold cached_grant. repeat case_match; intros; by simplify_eq. }
  destruct (locate _ _ _); [|done]. rewrite Hc. unfold Time.checked_add. case_bool; [|done].
  destruct (enqueue _ _ _ _ _) as [q [i|e]]; [|done]. by intros [= <- <-].
Qed.

(** A connection that entered its wait either answered at once or waits for as
    long as configured. *)
Lemma enter_waits {P} w (st : State (P:=P)) i c scope key :
  c_pc c = PcEnter scope key → ∃ t, waits_with t (run_conn w st i c).1.2 ∧
    w_deadline t = (w_clock w 1 + request_ttl (st_config st))%Z.
Proof.
  intros Ec. unfold run_conn. rewrite Ec.
  destruct (await_enter w st scope key (c_fresh c) (a_requested_ttl (c_access c))) as [st' [approval|t]] eqn:Ee.
  - by exists {| w_id := 0; w_source := ""; w_deadline := (w_clock w 1 + request_ttl (st_config st))%Z |}.
  - exists t. apply await_enter_deadline in Ee. split; [|done].
    by destruct (await_poll _ _ _ _) as [[st1 [approval|]] killed].
Qed.

(** One turn of the loop past the deadline. *)
Lemma poll_past now1 now2 {P} (st : State (P:=P)) t :
  ids_wf (st_queue st) → (w_deadline t < now1)%Z →
  ∃ st' approval killed, await_poll now1 now2 st t = (st', Some approval, killed) ∧
    (∀ src o, approval = AGranted src o → state_of (st_queue st) (w_id t) = Some RequestState.Granted) ∧
    ∀ x, state_of (st_queue st) (w_id t) = Some x → is_active x = true →
      approval = AIncomplete Timeout (w_id t) ∧ state_of (st_queue st') (w_id t) = Some RequestState.TimedOut ∧
      closed (w_id t) (st_queue st').
Proof.
  intros Hi Hd. unfold await_poll.
  assert (Time.checked_duration_since (w_deadline t) now1 = None) as Hpast.
  { unfold Time.checked_duration_since. by destruct (Z.leb_spec now1 (w_deadline t)); [lia|]. }
  rewrite Hpast.
  assert (∀ x, state_of (st_queue st) (w_id t) = Some x → is_active x = true → ∃ st' killed,
    kill_active (set_queue st (timeout (st_queue st) (w_id t) now2).1) (w_id t) = (st', killed) ∧
    state_of (st_queue st') (w_id t) = Some RequestState.TimedOut ∧ closed (w_id t) (st_queue st')) as Hto.
  { intros x E Ha. pose proof (kill_active_frame (set_queue st (timeout (st_queue st) (w_id t) now2).1) (w_id t)) as (Eq & _).
    destruct (kill_active _ (w_id t)) as [st' killed]. exists st', killed. split; [done|]. simpl in Eq. rewrite Eq.
    split; [by eapply state_of_end_early|]. apply end_early_closed; [done|done|]. unfold end_early. unfold state_of in E.
    destruct (List.find _ _) as [r|]; [|done]. simpl in E. injection E as ->. by rewrite Ha. }
  destruct (state_of (st_queue st) (w_id t)) as [x|] eqn:E; [|by eexists _, _, _; split_and!].
  destruct x; try (eexists _, _, _; split_and!; [done|done|by intros ? [= <-]]).
  all: destruct (Hto _ eq_refl eq_refl) as (st' & killed & -> & H1 & H2); eexists _, _, _; split_and!; [done|done|].
  all: intros ? _ _; by split_and!.
Qed.

(** C17: waiting is bounded.  A connection that enters its wait for an approval
    has as its deadline the moment it entered plus the configured time, and
    keeps it.  Whatever happens in between, its first turn past the deadline
    ends the wait; if the request was still pending or decrypting, the answer is
    TIMEOUT, the request is timed out, and for good: nothing is ever installed
    for it and it is never active again. *)
Theorem wait_is_bounded {P} instance boot config l (actions : list (action (P:=P))) i c scope key w0 mid c1 scope' key' t w :
  let s0 := run (Sys_new instance boot config l) actions in
  let s := run (step s0 (AConn w0 i)) mid in
  let s' := step s (AConn w i) in
  (Z.of_nat (length actions) + 1 + Z.of_nat (length mid) + 1 < u64_max)%Z →
  s_conns s0 !! i = Some c → c_pc c = PcEnter scope key →
  s_conns s !! i = Some c1 → c_pc c1 = PcWait scope' key' t →
  w_deadline t = (w_clock w0 1 + request_ttl (st_config (s_state s0)))%Z ∧
  ((w_deadline t < w_clock w 0)%Z →
   ∃ c2 approval, s_conns s' !! i = Some c2 ∧ c_pc c2 = PcFinish scope' key' approval ∧
     (∀ src o, approval = AGranted src o → state_of (st_queue (s_state s)) (w_id t) = Some RequestState.Granted) ∧
     ∀ x, state_of (st_queue (s_state s)) (w_id t) = Some x → is_active x = true →
       approval = AIncomplete Timeout (w_id t) ∧
       state_of (st_queue (s_state s')) (w_id t) = Some RequestState.TimedOut ∧
       ∀ more, (Z.of_nat (length actions) + 1 + Z.of_nat (length mid) + 1 + Z.of_nat (length more) < u64_max)%Z →
         (∀ y, state_of (st_queue (s_state (run s' more))) (w_id t) = Some y → is_active y = false) ∧
         ∀ sc k v, EInstall (w_id t) sc k v ∈ s_history (run s' more) → EInstall (w_id t) sc k v ∈ s_history s').
Proof.
  intros s0 s s' Hlen Hc Hpc Hc1 Hpc1.
  pose proof (inv_run 0 _ actions (inv_new instance boot config l) ltac:(lia)) as Hi0. fold s0 in Hi0.
  pose proof (inv_step _ _ (AConn w0 i) Hi0 ltac:(lia)) as Hi1.
  pose proof (inv_run _ _ mid Hi1 ltac:(lia)) as His. fold s in His.
  pose proof (inv_step _ _ (AConn w i) His ltac:(lia)) as His'. fold s' in His'.
  split.
  - destruct (enter_waits w0 (s_state s0) i c scope key Hpc) as (t0 & Hw & Ht0).
    destruct (run_waits (step s0 (AConn w0 i)) mid i (run_conn w0 (s_state s0) i c).1.2 t0) as (c' & Hc' & Hw'); [|done|].
    { cbn [step]. rewrite Hc. destruct (run_conn w0 (s_state s0) i c) as [[st' c'] ev]. cbn [s_conns fst snd].
      apply list_lookup_insert_eq. by eapply lookup_lt_Some. }
    fold s in Hc'. assert (c' = c1) as -> by congruence. unfold waits_with in Hw'. rewrite Hpc1 in Hw'. congruence.
  - intros Hd. destruct (inv_desk _ _ His) as [Hids _]. cbn [d_queue] in Hids.
    destruct (poll_past (w_clock w 0) (w_clock w 1) (s_state s) t Hids Hd) as (st' & approval & killed & Hp & Hg & Ha).
    assert (s_state s' = st' ∧ s_conns s' = <[i := set_pc c1 (PcFinish scope' key' approval)]> (s_conns s)) as [Es Ec].
    { unfold s'. cbn [step]. rewrite Hc1. unfold run_conn. rewrite Hpc1, Hp. done. }
    exists (set_pc c1 (PcFinish scope' key' approval)), approval. rewrite Ec, Es. split_and!; [|done|done|].
    { apply list_lookup_insert_eq. by eapply lookup_lt_Some. }
    intros x Hx Hact. destruct (Ha x Hx Hact) as (H1 & H2 & H3). split_and!; [done|done|]. intros more Hm.
    rewrite <-Es in H3. destruct (run_forward _ s' more His' ltac:(lia)) as [_ Hf].
    destruct (Hf (w_id t) H3) as [Hcl Hin]. split; [|done].
    intros y (r & Hr & Hid & <-)%state_of_Some. by apply Hcl.
Qed.

(** The request of [demo_actions] is being decrypted when its wait ends. *)
Lemma wait_is_bounded_witness :
  ∃ t c2, w_deadline t = (31 + request_ttl demo_config)%Z ∧
    s_conns (step (demo_run (take 6 demo_actions)) (AConn (demo_world (w_deadline t + 1)) 0)) !! 0%nat = Some c2 ∧
    c_pc c2 = PcFinish (Session demo_token) "K" (AIncomplete Timeout (w_id t)).
Proof.
  destruct (s_conns (demo_run (take 3 demo_actions)) !! 0%nat) as [c|] eqn:Ec; [|by vm_compute in Ec].
  destruct (s_conns (demo_run (take 6 demo_actions)) !! 0%nat) as [c1|] eqn:Ec1; [|by vm_compute in Ec1].
  destruct (c_pc c1) as [| |scope' key' t| | |] eqn:Ep; try (vm_compute in Ec1; injection Ec1 as <-; vm_compute in Ep; discriminate Ep).
  assert (scope' = Session demo_token ∧ key' = "K" ∧ w_id t = 1%Z ∧ w_deadline t = (31 + request_ttl demo_config)%Z)
    as (-> & -> & Hid & Hdl).
  { vm_compute in Ec1. injection Ec1 as <-. vm_compute in Ep. injection Ep as <- <- <-. split_and!; vm_compute; reflexivity. }
  assert (run (step (run (Sys_new "abc" "boot" demo_config demo_limits) (take 3 demo_actions)) (AConn (demo_world 30) 0))
    [ATake (demo_world 40); AStart 77] = demo_run (take 6 demo_actions)) as Hs.
  { unfold demo_run, run, demo_actions. cbn [take fold_left]. reflexivity. }
  destruct (wait_is_bounded "abc" "boot" demo_config demo_limits (take 3 demo_actions) 0%nat c
    (Session demo_token) "K" (demo_world 30) [ATake (demo_world 40); AStart 77] c1 (Session demo_token) "K" t
    (demo_world (w_deadline t + 1))) as [H1 H2].
  - by vm_compute.
  - exact Ec.
  - vm_compute in Ec. injection Ec as <-. reflexivity.
  - rewrite Hs. exact Ec1.
  - exact Ep.
  - rewrite Hs in H2. destruct H2 as (c2 & approval & Hc2 & Hp2 & _ & Hx); [cbn [w_clock demo_world]; lia|].
    exists t, c2. split; [exact Hdl|]. split; [exact Hc2|]. rewrite Hp2.
    destruct (Hx RequestState.Decrypting) as [-> _]; [rewrite Hid; vm_compute; reflexivity|reflexivity|reflexivity].
Defined.

(** Possession of a token is checked against the process tree at the
    moment of use.  A connection is resolved to a session only when, in the
    kernel's view at that section, its caller descends from the live process
    that registered the session's token. *)
Lemma resolved_caller_descends {P} w (s : Sys (P:=P)) i tok :
  s_history (step s (AConn w i)) = EResolve i (Session tok) :: s_history s →
  ∃ c e, s_conns s !! i = Some c ∧ registration (st_registry (s_state s)) tok = Some e ∧
    @descends_from P (w_peers w) (c_caller c) (Grants.root e) = true ∧
    @is_alive P (w_peers w) (c_caller c) = true ∧ @is_alive P (w_peers w) (Grants.root e) = true.
Proof.
  unfold step. destruct (s_conns s !! i) as [c|] eqn:Ec.
  2: { intros Hh. apply (f_equal length) in Hh. simpl in Hh. lia. }
  destruct (run_conn w (s_state s) i c) as [[st' c'] ev] eqn:Er. simpl. intros Hh.
  assert (ev = [EResolve i (Session tok)]) as ->.
  { apply (app_inv_tail (s_history s)). by rewrite Hh. }
  exists c. revert Er. unfold run_conn. destruct (c_pc c); try (repeat case_match; intros; by simplify_eq).
  destruct (resolve_access w (s_state s) (c_access c) (c_caller c)) as [st1 [[scope key]|e]] eqn:Ea;
    intros; simplify_eq.
  revert Ea. unfold resolve_access. destruct (secret_name_parse _); [|done].
  destruct (parse_token _) as [presented|]; [|done]. unfold resolve, registration.
  destruct presented as [t|]; [|repeat case_match; intros; by simplify_eq].
  destruct (List.find (has_token t) _) as [e|] eqn:Ef; [|done]. simpl.
  destruct (descends_from (c_caller c) (Grants.root e)) eqn:Ed; [|done]. simpl. intros; simplify_eq.
  exists e. pose proof (@descends_alive P (w_peers w) _ _ Ed) as [??]. by split_and!.
Qed.

Lemma resolved_caller_descends_witness :
  ∃ c e, s_conns (demo_run (take 2 demo_actions)) !! 0%nat = Some c ∧
    registration (st_registry (s_state (demo_run (take 2 demo_actions)))) demo_token = Some e ∧
    @descends_from Z (w_peers (demo_world 20)) (c_caller c) (Grants.root e) = true ∧
    @is_alive Z (w_peers (demo_world 20)) (c_caller c) = true ∧
    @is_alive Z (w_peers (demo_world 20)) (Grants.root e) = true.
Proof.
  apply (resolved_caller_descends (demo_world 20) (demo_run (take 2 demo_actions)) 0%nat demo_token).
  by vm_compute.
Defined.

(** A table of [n] one-letter-key grants on one terminal each. *)
Definition many_grants (n : nat) : GrantTable :=
  (λ i : nat, {| g_scope := Tty ("/dev/pts/" +:+ to_string (Z.of_nat i)) "b"; g_key := "K"; g_value := "v";
           g_origin := demo_origin; g_created := 0; g_ttl := Time.from_secs 60 |}) <$> seq 0 n.

(** A long grant listing does not reach the human.  The broker answers
    GRANTS with the whole rendered table; with two hundred live grants the
    payload exceeds the frame bound and the client refuses the reply. *)
Lemma grants_listing_unreadable {P} (st : State (P:=P)) :
  match d_outcome (grants (set_grants st (many_grants 200)) 1) with
  | OPayload payload =>
      (MAX_FRAME_BYTES < slen payload)%Z ∧
      parse_response (format_response (ROkBytes (slen payload)) +:+ payload) = Err InvalidResponse
  | _ => False
  end.
Proof.
  assert (MAX_FRAME_BYTES < slen (Table.render (many_grants 200) 1) <= u64_max)%Z as H by (by vm_compute).
  simpl. split; [by destruct H|by apply long_payload_refused].
Qed.
