(* ===== verification/Ledger.v ===== *)
(** The ledger of receipts: every receipt outstanding since the last LOCK was
    minted for a touch of its own.

    [System] records the touches in its history; this file counts them against
    the receipt table of [Receipts], section by section, and collects what a
    section can change of the broker's identity: nothing but LOCK the epoch,
    and nothing the instance. *)

From stdpp Require Import prelude strings list.
From Stdlib Require Import ZArith Lia Ascii.
From S2P Require Import Prelude Text Wire Request Secret Store Grants Requests Receipts Broker System.

Local Open Scope string_scope.

(** * Receipts are paid for

    [held cap st] receipts for [cap] are outstanding; [touches cap h] are the
    requests whose approval a receipt was minted for since the last LOCK. *)
Definition for_cap (cap : string) (e : Entry) : bool := bool_decide (e_cap e = cap).

Definition held {P} (cap : string) (st : State (P:=P)) : nat := length (retain (for_cap cap) (st_receipts st)).

Definition mint_of (cap : string) (e : System.event) : option RequestId :=
  match e with EMint _ id c => if bool_decide (c = cap) then Some id else None | _ => None end.

Definition touches (cap : string) (h : list System.event) : list RequestId := omap (mint_of cap) (since_lock h).

Definition is_lock {P} (a : System.action (P:=P)) : bool :=
  match a with ARequest _ _ Lock => true | _ => false end.

(** ** What only LOCK changes

    A projection of the state that no section's update touches, LOCK's new
    epoch apart. *)
Section projection.
Context {P X : Type} (f : State (P:=P) → X).
Context (Hr : ∀ st r, f (set_registry st r) = f st) (Hg : ∀ st g, f (set_grants st g) = f st)
  (Hq : ∀ st q, f (set_queue st q) = f st) (Hc : ∀ st r c, f (set_receipts st r c) = f st)
  (Hf : ∀ st l, f (set_failures st l) = f st) (Ha : ∀ st a, f (set_active st a) = f st).

Ltac unset := repeat first [rewrite Hr|rewrite Hg|rewrite Hq|rewrite Hc|rewrite Hf|rewrite Ha].

Lemma kill_active_keeps st i : f (kill_active st i).1 = f st.
Proof. unfold kill_active. repeat case_match; simpl; by rewrite ?Ha. Qed.

Lemma kill_all_keeps ids st : f (kill_all st ids).1 = f st.
Proof.
  revert st. induction ids as [|i ids IH]; intros st; [done|]. cbn [kill_all].
  pose proof (kill_active_keeps st i). destruct (kill_active st i) as [st1 k]. specialize (IH st1).
  destruct (kill_all st1 ids). simpl in *. congruence.
Qed.

Lemma upkeep_keeps w st : f (upkeep w st).1 = f st.
Proof.
  unfold upkeep. destruct (sweep_timeouts _ _) as [q e]. pose proof (kill_all_keeps e (set_queue st q)) as H.
  destruct (kill_all _ _). simpl in *. unset. by rewrite H, Hq.
Qed.

Lemma lock_keeps st now : (∀ st e, f (set_epoch st e) = f st) → f (lock st now).1.1 = f st.
Proof.
  intros He. unfold lock. cbn zeta. case_match; cbn [fst]; by repeat (unset; try rewrite He).
Qed.

Ltac branches :=
  repeat (case_match; simplify_eq/=);
  simpl in *; unset;
  try match goal with H : kill_active ?st ?i = (?st', _) |- f ?st' = _ =>
    replace st' with (kill_active st i).1 by (by rewrite H); rewrite kill_active_keeps end;
  unset; congruence.

Lemma step_keeps s a :
  is_lock a = false ∨ (∀ st e, f (set_epoch st e) = f st) → f (s_state (System.step s a)) = f (s_state s).
Proof.
  intros Hl. destruct a as [w caller r|w i|w|pg|w dec]; simpl.
  - destruct r; simpl; try (unfold Broker.register, Broker.unregister, Broker.deny, Broker.redeem; branches).
    destruct Hl as [Hl|He]; [done|]. pose proof (lock_keeps (s_state s) (w_clock w 0) He) as H.
    destruct (lock _ _) as [[st' d] k]. exact H.
  - destruct (s_conns s !! i) as [c|]; [|done]. unfold run_conn, resolve_access, await_enter, cached_grant, await_poll,
      finish_authorization. branches.
  - destruct (s_job s); [done|]. unfold take_job. pose proof (upkeep_keeps w (s_state s)) as Hu.
    destruct (upkeep w (s_state s)) as [st1 k]. branches.
  - destruct (s_job s); [|done]. simpl. unfold decrypt_started. branches.
  - destruct (s_job s) as [j|]; [|done]. unfold finish_job. branches.
Qed.
End projection.

Section ledger.
Context {P : Type}.
Implicit Types (st : State (P:=P)) (s : Sys (P:=P)).

Lemma held_same cap st st' : st_receipts st' = st_receipts st → held cap st' = held cap st.
Proof. unfold held. by intros ->. Qed.

Lemma step_instance s a : st_instance (s_state (System.step s a)) = st_instance (s_state s).
Proof. apply step_keeps; try done. by right. Qed.

Lemma step_epoch s a : is_lock a = false → st_lock_epoch (s_state (System.step s a)) = st_lock_epoch (s_state s).
Proof. intros H. apply step_keeps; try done. by left. Qed.

Lemma kill_active_receipts st i : st_receipts (kill_active st i).1 = st_receipts st.
Proof. unfold kill_active. destruct (st_active_decrypt st) as [a|]; [by destruct (_ =? _)%Z|done]. Qed.

Lemma kill_all_receipts st ids : st_receipts (kill_all st ids).1 = st_receipts st.
Proof.
  revert st. induction ids as [|i ids IH]; intros st; [done|]. cbn [kill_all].
  pose proof (kill_active_receipts st i). destruct (kill_active st i) as [st1 k]. specialize (IH st1).
  destruct (kill_all st1 ids). simpl in *. congruence.
Qed.

Lemma retain_sub_length {A} (f g : A → bool) l : (length (retain f (retain g l)) ≤ length (retain f l))%nat.
Proof.
  induction l as [|x l IH]; [done|]. simpl. destruct (g x); simpl; destruct (f x); simpl; lia.
Qed.

Lemma retain_Permutation {A} (f : A → bool) l l' : l ≡ₚ l' → retain f l ≡ₚ retain f l'.
Proof.
  induction 1 as [|x l l' _ IH|x y l|l l1 l' _ IH1 _ IH2]; simpl; [done| | |by etrans].
  - destruct (f x); [by constructor|done].
  - destruct (f x), (f y); try done. constructor.
Qed.

Lemma sweep_held cap t now : (length (retain (for_cap cap) (sweep t now)) ≤ length (retain (for_cap cap) t))%nat.
Proof. apply retain_sub_length. Qed.

Lemma take_job_held cap w st : (held cap (take_job w st).1.1 ≤ held cap st)%nat.
Proof.
  assert (held cap (upkeep w st).1 ≤ held cap st)%nat as Hu.
  { unfold upkeep. destruct (sweep_timeouts (st_queue st) (w_clock w 0)) as [q expired].
    pose proof (kill_all_receipts (set_queue st q) expired) as Hk.
    destruct (kill_all (set_queue st q) expired) as [st1 k]. unfold held. simpl in *. rewrite Hk. apply sweep_held. }
  unfold take_job. destruct (upkeep w st) as [st1 k]. simpl in Hu.
  destruct (next_ready _ _); [|done]. destruct (mark_decrypting _ _ _) as [q [g|]]; [|done].
  by destruct (describe q _) as [[[scope key] rttl]|].
Qed.

Lemma take_job_wf w st : receipts_wf (st_receipts st) → receipts_wf (st_receipts (take_job w st).1.1).
Proof.
  intros Hw. assert (receipts_wf (st_receipts (upkeep w st).1)) as Hu.
  { unfold upkeep. destruct (sweep_timeouts (st_queue st) (w_clock w 0)) as [q expired].
    pose proof (kill_all_receipts (set_queue st q) expired) as Hk.
    destruct (kill_all (set_queue st q) expired) as [st1 k]. simpl in *. rewrite Hk. by apply receipt_sweep_wf. }
  unfold take_job. destruct (upkeep w st) as [st1 k]. simpl in Hu.
  destruct (next_ready _ _); [|done]. destruct (mark_decrypting _ _ _) as [q [g|]]; [|done].
  by destruct (describe q _) as [[[scope key] rttl]|].
Qed.

Lemma finish_job_receipts w st j dec : st_receipts (finish_job w st j dec).1.1 = st_receipts st.
Proof.
  unfold finish_job. pose proof (kill_active_receipts st (j_id j)) as Hk. destruct (kill_active st (j_id j)) as [st1 k].
  simpl in Hk. destruct dec as [dec|]; [|done].
  set (st2 := if _ || _ then _ else _). assert (st_receipts st2 = st_receipts st1) as H2 by (unfold st2; by destruct (_ || _)).
  destruct (complete _ _ _ _) as [q []]; simpl; congruence.
Qed.

Lemma resolve_access_receipts w st a caller : st_receipts (resolve_access w st a caller).1 = st_receipts st.
Proof.
  unfold resolve_access. destruct (secret_name_parse _); [|done]. destruct (parse_token _); [|done].
  by destruct (resolve _ _ _ _).
Qed.

Lemma await_enter_receipts w st scope key fresh rttl : st_receipts (await_enter w st scope key fresh rttl).1 = st_receipts st.
Proof.
  unfold await_enter, cached_grant. repeat case_match; simplify_eq/=; done.
Qed.

Lemma await_poll_receipts n1 n2 st t : st_receipts (await_poll n1 n2 st t).1.1 = st_receipts st.
Proof.
  unfold await_poll. destruct (state_of _ _) as [[]|]; try done; destruct (Time.checked_duration_since _ _); try done;
    (pose proof (kill_active_receipts (set_queue st (timeout (st_queue st) (w_id t) n2).1) (w_id t)) as Hk;
     by destruct (kill_active _ _)).
Qed.

(** What one section does to the outstanding receipts. *)
Lemma redeem_held cap st hex c now :
  receipts_wf (st_receipts st) →
  receipts_wf (st_receipts (Broker.redeem st hex c now).1) ∧
  (held cap (Broker.redeem st hex c now).1 ≤ held cap st)%nat ∧
  (∀ fields, capability_parse c = Ok cap → d_outcome (Broker.redeem st hex c now).2 = OFields fields →
     (held cap (Broker.redeem st hex c now).1 < held cap st)%nat ∧
     ∃ ttl, (0 ≤ ttl)%Z ∧ fields = redeemed_reply cap (st_instance st) (st_lock_epoch st) ttl).
Proof.
  intros Hwf. unfold Broker.redeem. destruct (capability_parse c) as [c'|e]; [|split_and!; [done|done|done]].
  destruct (Time.checked_add now (max_grant (st_config st))) as [deadline|]; [|split_and!; [done|done|done]].
  pose proof (redeem_wf (st_receipts st) hex c' now Hwf) as Hwf'.
  pose proof (redeem_cases (st_receipts st) hex c' now Hwf) as Hc.
  destruct (Receipts.redeem (st_receipts st) hex c' now) as [receipts redeemed]. simpl in Hwf'.
  pose proof (sweep_held cap (st_receipts st) now) as Hs.
  inversion Hc as [e t' Hd He Hf Hin Hp|Hno]; subst; clear Hc; cbn zeta iota.
  2: { split_and!; [done|exact Hs|done]. }
  assert (length (retain (for_cap cap) (sweep (st_receipts st) now)) =
    (if for_cap cap e then 1 else 0) + length (retain (for_cap cap) receipts))%nat as Hlen.
  { rewrite (Permutation_length (retain_Permutation _ _ _ Hp)). simpl. by destruct (for_cap cap e). }
  destruct (CapabilityGrants.cg_insert _ _) as [caps index].
  destruct (CapabilityGrants.cg_remaining_secs caps index now) as [ttl|] eqn:Et; simpl; unfold held; simpl.
  - split_and!; [done|destruct (for_cap cap e); lia|].
    intros fields [= <-] [= <-]. unfold for_cap in Hlen at 2. rewrite bool_decide_eq_true_2 in Hlen by done.
    split; [lia|]. exists ttl. split; [|done]. revert Et. unfold CapabilityGrants.cg_remaining_secs.
    destruct (caps !! index); simpl; [|done]. case_match; [|done]. intros [= <-].
    unfold Time.as_secs, Time.duration_since. apply Z.div_pos; [lia|done].
  - split_and!; [done|destruct (for_cap cap e); lia|done].
Qed.

Lemma mint_held cap t random c now :
  (length (retain (for_cap cap) (mint t random c now).1) ≤
   length (retain (for_cap cap) t) +
   match (mint t random c now).2 with Ok _ => if bool_decide (c = cap) then 1 else 0 | Err _ => 0 end)%nat.
Proof.
  pose proof (sweep_held cap t now). unfold mint. case_match; [simpl; lia|]. destruct random; [|simpl; lia].
  destruct (draw _ _) as [b|]; simpl; [|lia]. rewrite retain_app, length_app. simpl. unfold for_cap at 2. simpl.
  case_bool_decide; simpl; lia.
Qed.

(** The ledger of a capability: every receipt outstanding, or redeemed since
    the last LOCK, was minted for a touch of its own. *)
Definition ledger_ok cap s s' : Prop :=
  receipts_wf (st_receipts (s_state s')) ∧
  (held cap (s_state s') + length (touches cap (s_history s)) ≤
   held cap (s_state s) + length (touches cap (s_history s')))%nat.

Lemma ledger_same cap s s' :
  receipts_wf (st_receipts (s_state s)) → s_history s' = s_history s →
  st_receipts (s_state s') = st_receipts (s_state s) → ledger_ok cap s s'.
Proof. intros Hw Hh Hr. unfold ledger_ok, held. by rewrite Hh, Hr. Qed.

Lemma touches_app cap ev h :
  ELock ∉ ev → touches cap (ev ++ h)%list = (omap (mint_of cap) ev ++ touches cap h)%list.
Proof. intros H. unfold touches. by rewrite since_lock_app, omap_app. Qed.

Lemma touches_start cap id scope key h : touches cap (EStart id scope key :: h) = touches cap h.
Proof. done. Qed.

Lemma touches_install cap id scope key v h : touches cap (EInstall id scope key v :: h) = touches cap h.
Proof. done. Qed.

Lemma mint_ledger cap w st c e d i :
  receipts_wf (st_receipts st) →
  let r := finish_authorization w st c e d in
  receipts_wf (st_receipts r.1) ∧
  (held cap r.1 ≤ held cap st + length (omap (mint_of cap)
     match d_outcome r.2, d_request_id r.2 with OReceipt _, Some id => [EMint i id c] | _, _ => [] end))%nat.
Proof.
  intros Hw r. subst r. unfold finish_authorization.
  destruct (d_outcome d) as [| | | | |] eqn:Eo; try (simpl; by split; [|lia]).
  destruct (d_request_id d) as [id|] eqn:Ei; [|simpl; by split; [|lia]].
  destruct (_ =? e)%Z; [|simpl; by split; [|lia]].
  pose proof (mint_wf (st_receipts st) (w_random w) c (w_clock w 0) Hw).
  pose proof (mint_held cap (st_receipts st) (w_random w) c (w_clock w 0)) as Hm.
  destruct (mint _ _ _ _) as [t [x|x]]; simpl in *; unfold held; simpl.
  - split; [done|]. case_bool_decide; simpl; lia.
  - split; [done|]. lia.
Qed.

Lemma conn_ledger cap s w i c :
  s_conns s !! i = Some c → receipts_wf (st_receipts (s_state s)) → ledger_ok cap s (System.step s (AConn w i)).
Proof.
  intros Hi Hw. unfold System.step. rewrite Hi.
  assert (∀ st' c' ev, st_receipts st' = st_receipts (s_state s) → forallb soft ev = true →
    ledger_ok cap s {| s_state := st'; s_conns := <[i := c']> (s_conns s); s_job := s_job s;
                       s_history := (ev ++ s_history s)%list |}) as Hsame.
  { intros st' c' ev Hr He. split; simpl; [by rewrite Hr|]. rewrite touches_app by by apply soft_no_lock.
    rewrite length_app, (held_same cap _ _ Hr). lia. }
  unfold run_conn. destruct (c_pc c) as [|scope key|scope key t|scope key approval|d|d].
  - pose proof (resolve_access_receipts w (s_state s) (c_access c) (c_caller c)) as Hr.
    destruct (resolve_access _ _ _ _) as [st' [[scope key]|e]]; by apply Hsame.
  - pose proof (await_enter_receipts w (s_state s) scope key (c_fresh c) (a_requested_ttl (c_access c))) as Hr.
    destruct (await_enter _ _ _ _ _ _) as [st' [approval|t]]; [by apply Hsame|]. simpl in Hr.
    pose proof (await_poll_receipts (w_clock w 2) (w_clock w 3) st' t) as Hp.
    destruct (await_poll _ _ _ _) as [[st2 [approval|]] k]; apply Hsame; simpl in *; congruence.
  - pose proof (await_poll_receipts (w_clock w 0) (w_clock w 1) (s_state s) t) as Hp.
    destruct (await_poll _ _ _ _) as [[st2 [approval|]] k]; by apply Hsame.
  - apply Hsame; [done|]. by case_match.
  - destruct (c_auth c) as [[cp e]|]; [|by apply Hsame].
    destruct (mint_ledger cap w (s_state s) cp e d i Hw) as [Hwf Hm].
    destruct (finish_authorization _ _ _ _ _) as [st' d']. simpl in Hwf, Hm. split; [done|]. cbn [s_state s_history].
    rewrite touches_app by (repeat case_match; set_solver). rewrite length_app. lia.
  - by apply Hsame.
Qed.

Lemma request_ledger cap s w caller r :
  r ≠ Lock → receipts_wf (st_receipts (s_state s)) → ledger_ok cap s (System.step s (ARequest w caller r)).
Proof.
  intros Hr Hw. simpl. destruct r as [v|tk se p|se|k t y ttl|k t y ttl|c t y|hex c| |i| |]; simpl.
  - by apply ledger_same.
  - unfold Broker.register. repeat case_match; simplify_eq/=; by apply ledger_same.
  - by apply ledger_same.
  - destruct (is_capability_key k); by apply ledger_same.
  - destruct (is_capability_key k); by apply ledger_same.
  - destruct (capability_parse c); by apply ledger_same.
  - destruct (redeem_held cap (s_state s) hex c (w_clock w 0) Hw) as (Hw' & Hh & _).
    destruct (Broker.redeem _ _ _ _) as [st' d]. split; simpl in *; [done|]. lia.
  - by apply ledger_same.
  - unfold Broker.deny. destruct (Requests.deny _ _ _) as [q []]; [|by apply ledger_same].
    pose proof (kill_active_receipts (set_queue (s_state s) q) i) as Hk.
    destruct (kill_active _ _) as [st' k]. by apply ledger_same.
  - done.
  - by apply ledger_same.
Qed.

Lemma step_ledger cap s a :
  is_lock a = false → receipts_wf (st_receipts (s_state s)) → ledger_ok cap s (System.step s a).
Proof.
  intros Hl Hw. destruct a as [w caller r|w i|w|pg|w dec].
  - apply request_ledger; [by intros ->|done].
  - destruct (s_conns s !! i) as [c|] eqn:E; [by eapply conn_ledger|]. simpl. rewrite E. by apply ledger_same.
  - simpl. destruct (s_job s); [by apply ledger_same|]. pose proof (take_job_held cap w (s_state s)) as Hh.
    pose proof (take_job_wf w (s_state s) Hw) as Hw'. destruct (take_job _ _) as [[st' job] k]. simpl in *.
    split; [done|]. destruct job; cbn [s_state s_history]; rewrite ?touches_start; lia.
  - simpl. destruct (s_job s); [|by apply ledger_same]. unfold decrypt_started. case_match; by apply ledger_same.
  - simpl. destruct (s_job s) as [j|]; [|by apply ledger_same].
    pose proof (finish_job_receipts w (s_state s) j dec) as Hr. destruct (finish_job _ _ _ _) as [[st' ins] k].
    simpl in Hr. split; simpl; [by rewrite Hr|]. rewrite (held_same cap _ _ Hr).
    destruct dec; [destruct ins|]; rewrite ?touches_install; lia.
Qed.

Lemma lock_epoch s w caller :
  (st_lock_epoch (s_state s) < u64_max)%Z →
  st_lock_epoch (s_state (System.step s (ARequest w caller Lock))) = (st_lock_epoch (s_state s) + 1)%Z.
Proof.
  intros H. simpl. unfold lock. simpl. destruct (st_active_decrypt (s_state s)); simpl; unfold saturating_add_u64; lia.
Qed.

Lemma lock_ledger cap s w caller :
  let s' := System.step s (ARequest w caller Lock) in st_receipts (s_state s') = [] ∧ touches cap (s_history s') = [].
Proof. simpl. unfold lock. simpl. by destruct (st_active_decrypt (s_state s)). Qed.
End ledger.

(** * The touches behind the ledger *)
Lemma since_lock_elem (h : list System.event) e : e ∈ since_lock h → e ∈ h.
Proof.
  induction h as [|x h IH]; [done|]. destruct x; simpl; try (intros [->|?]%elem_of_cons; [left|right; by apply IH]).
  by intros ?%not_elem_of_nil.
Qed.

Lemma touches_minted cap h id : id ∈ touches cap h → id ∈ minted h.
Proof.
  unfold touches, minted. intros (e & He%since_lock_elem & Hm)%list_elem_of_omap. apply list_elem_of_omap.
  exists e. split; [done|]. destruct e; try done. simpl in Hm. by case_bool_decide.
Qed.

(** Touches are requests of their own, and since the last LOCK each had the
    capability's key decrypted, which takes a touch. *)
Lemma touches_ok cap h :
  history_ok h →
  NoDup (touches cap h) ∧
  ∀ id, id ∈ touches cap h → ∃ scope value, EInstall id scope (key_name cap) value ∈ since_lock h.
Proof.
  induction h as [|e h IH]; [intros _; split; [apply NoDup_nil_2|by intros id ?%not_elem_of_nil]|].
  intros [Hj [Hn Hi]%IH].
  assert (∀ e', e' ∈ since_lock h → e ≠ ELock → e' ∈ since_lock (e :: h)) as Hin.
  { intros e' He Hne. destruct e; try done; by right. }
  destruct e as [i sc|id0 sc k|id0 sc k v|i sc k v|i id0 c|]; try (split; [done|];
    intros id (scope & value & H)%Hi; exists scope, value; by apply Hin).
  2: { split; [apply NoDup_nil_2|by intros id ?%not_elem_of_nil]. }
  unfold touches. cbn [since_lock omap list_omap mint_of]. fold (touches cap h). case_bool_decide as E.
  - subst c. destruct Hj as [Hfresh (scope & value & H)]. split.
    + apply NoDup_cons. split; [|done]. by intros ?%touches_minted.
    + intros id [->|(sc & v & H')%Hi]%elem_of_cons; [exists scope, value|exists sc, v]; by apply Hin.
  - split; [done|]. intros id (scope & value & H)%Hi. exists scope, value. by apply Hin.
Qed.
