(* ===== verification/Decrypt.v ===== *)
(** Running sops: [crates/secrets/src/decrypt.rs] and [decrypt/classify.rs].

    The decrypting process is a parameter: what each poll of it reports,
    with the clock reading that follows, and what its pipes hold once it has
    exited.  The hardware probe is the same loop on its own command.  Logging
    and zeroization are not modelled. *)

From stdpp Require Import prelude strings list.
From Stdlib Require Import ZArith Lia Ascii.
From S2P Require Import Prelude Text Wire Secret Store.

Local Open Scope string_scope.

(** * Classifying a failure *)

(** [contains_subslice]: some window of the haystack is the needle. *)
Fixpoint contains_subslice (haystack needle : string) : bool :=
  starts_with haystack needle ||
  match haystack with
  | String _ rest => contains_subslice rest needle
  | EmptyString => false
  end.

Definition SOPS_STDERR_SIGNATURES : list (string * string) :=
  [("failed to decrypt yubikey stanza", "yubikey-stanza-undecryptable");
   ("yubikey plugin", "yubikey-plugin-error");
   ("pc/sc error", "pcsc-communication-error");
   ("no identity matched", "no-matching-identity");
   ("sops metadata not found", "missing-sops-metadata");
   ("no such file or directory", "input-unreadable");
   ("permission denied", "input-permission-denied");
   ("failed to get the data key", "data-key-unavailable")].

Definition classify_sops_stderr (stderr : string) : string :=
  let lowered := map_bytes to_ascii_lowercase stderr in
  match List.find (λ s, contains_subslice lowered s.1) SOPS_STDERR_SIGNATURES with
  | Some (_, label) => label
  | None => "unclassified"
  end.

Definition UNREACHABLE_FAILURE_LABELS : list string :=
  ["yubikey-plugin-error"; "pcsc-communication-error"].
Definition UNTOUCHED_FAILURE_LABELS : list string := ["yubikey-stanza-undecryptable"].

Definition failure_code (label : string) : ErrCode :=
  if existsb (λ l, bool_decide (l = label)) UNREACHABLE_FAILURE_LABELS then YubikeyUnreachable
  else if existsb (λ l, bool_decide (l = label)) UNTOUCHED_FAILURE_LABELS then Timeout
  else Internal.

(** * The child process *)

(** What a pipe of an exited child holds, or that it cannot be read; the pipe
    itself may be missing. *)
Inductive pipe : Type :=
| PipeMissing
| PipeError (partial : string)
| PipeBytes (bytes : string).

Inductive poll : Type :=
| Exited (success : bool) (stderr stdout : pipe)
| Running (now : Z)
| WaitError.

Definition MAX_SOPS_STDERR_BYTES : nat := 300.

(** The branch of an exited child. *)
Definition exited (key : string) (success : bool) (stderr stdout : pipe) : result ErrCode string :=
  failure ← match stderr with
            | PipeMissing => Err Internal
            | PipeBytes bytes => Ok (classify_sops_stderr (String.substring 0 MAX_SOPS_STDERR_BYTES bytes))
            | PipeError partial => Ok "stderr-unreadable"
            end;
  if negb success then Err (failure_code failure) else
  match stdout with
  | PipeMissing | PipeError _ => Err Internal
  | PipeBytes bytes => parse_single_assignment bytes key
  end.

(** The polling loop: [None] while the script of polls has not ended it. *)
Fixpoint poll_loop (key : string) (deadline : Z) (polls : list poll) : option (result ErrCode string) :=
  match polls with
  | [] => None
  | Exited success stderr stdout :: _ => Some (exited key success stderr stdout)
  | Running now :: rest =>
      if (deadline <=? now)%Z then Some (Err Timeout) else poll_loop key deadline rest
  | WaitError :: _ => Some (Err Internal)
  end.

(** The probe's loop ends in whether the hardware responded. *)
Fixpoint probe_loop (deadline : Z) (polls : list poll) : option bool :=
  match polls with
  | [] => None
  | Exited success _ _ :: _ => Some success
  | Running now :: rest => if (deadline <=? now)%Z then Some false else probe_loop deadline rest
  | WaitError :: _ => Some false
  end.

(** How a command starts: not at all, with a process id that is no [pid_t], or
    as a process group with a script of polls. *)
Inductive spawned : Type :=
| SpawnError
| BadProcessId
| Child (process_group : Z) (polls : list poll).

Definition responds (start timeout : Z) (child : spawned) : option bool :=
  match Time.checked_add start timeout with
  | None => Some false
  | Some deadline =>
      match child with
      | SpawnError | BadProcessId => Some false
      | Child _ polls => probe_loop deadline polls
      end
  end.

(** [is_reachable]: no socket configured means direct access; [exists_path] is
    [Path::exists] and [probe] the outcome of the probe, where there is one. *)
Definition is_reachable (socket : option string) (exists_path : string → bool) (probe : option bool) : bool :=
  match socket with
  | None => true
  | Some path => exists_path path && match probe with None => true | Some answer => answer end
  end.

Record DecryptedHumanFile : Type := {
  dh_source : string; dh_identity : FileIdentity; dh_value : string;
}.

(** [decrypt_opened_with_start]; [socket] is the configured PC/SC socket and
    [probe] what the probe answers, where one is configured; [dup] is whether
    the descriptor could be duplicated, [now] the clock once the child runs.  The second component is
    the process group reported to the callback. *)
Definition decrypt_opened_with_start (fs : filesystem) (sources : list HumanSource) (key : string)
    (socket : option string) (exists_path : string → bool) (probe : option bool)
    (dup : bool) (child : spawned) (now timeout : Z) :
    option (result ErrCode DecryptedHumanFile) * option Z :=
  if negb (is_reachable socket exists_path probe) then (Some (Err YubikeyUnreachable), None) else
  match open fs sources key with
  | Err e => (Some (Err e), None)
  | Ok opened =>
      if negb dup then (Some (Err Internal), None) else
      match child with
      | SpawnError | BadProcessId => (Some (Err Internal), None)
      | Child process_group polls =>
          (match Time.checked_add now timeout with
           | None => Some (Err Internal)
           | Some deadline =>
               match poll_loop key deadline polls with
               | None => None
               | Some (Err e) => Some (Err e)
               | Some (Ok value) =>
                   Some (Ok {| dh_source := oh_label opened; dh_identity := oh_identity opened;
                               dh_value := value |})
               end
           end, Some process_group)
      end
  end.

(** * Properties *)
Lemma poll_loop_ends key deadline polls now :
  Running now ∈ polls → (deadline <= now)%Z → is_Some (poll_loop key deadline polls).
Proof.
  induction polls as [|p polls IH]; [by intros ?%not_elem_of_nil|].
  intros [<-|Hin]%elem_of_cons Hd; simpl.
  - destruct (Z.leb_spec deadline now); [by eexists|lia].
  - destruct p as [s e o|t|]; [by eexists| |by eexists]. case_bool; [by eexists|]. by apply IH.
Qed.

Lemma poll_loop_Ok key deadline polls v :
  poll_loop key deadline polls = Some (Ok v) →
  ∃ before stderr stdout after,
    polls = (before ++ Exited true stderr (PipeBytes stdout) :: after)%list ∧
    (∀ p, p ∈ before → ∃ now, p = Running now ∧ (now < deadline)%Z) ∧
    parse_single_assignment stdout key = Ok v.
Proof.
  induction polls as [|p polls IH]; [done|]. destruct p as [success e o|t|]; simpl; [| |done].
  - intros [= Hx]. unfold exited in Hx.
    destruct e as [|partial|bytes]; simpl in Hx; [done| |];
      (destruct success; [|done]); (destruct o as [| |out]; [done|done|]); simpl in Hx.
    + exists [], (PipeError partial), out, polls. split_and!; [done| |done]. by intros ? ?%not_elem_of_nil.
    + exists [], (PipeBytes bytes), out, polls. split_and!; [done| |done]. by intros ? ?%not_elem_of_nil.
  - case_bool; [done|]. intros H. destruct (IH H) as (before & e & o & after & -> & Hrun & Hp).
    exists (Running t :: before), e, o, after. split_and!; [done| |done].
    intros p [->|Hin]%elem_of_cons; [by exists t|auto].
Qed.

Lemma probe_loop_true deadline polls :
  probe_loop deadline polls = Some true →
  ∃ before stderr stdout after, polls = (before ++ Exited true stderr stdout :: after)%list ∧
    ∀ p, p ∈ before → ∃ now, p = Running now ∧ (now < deadline)%Z.
Proof.
  induction polls as [|p polls IH]; [done|]. destruct p as [success e o|t|]; simpl; [| |done].
  - intros [= ->]. exists [], e, o, polls. split; [done|]. by intros ? ?%not_elem_of_nil.
  - case_bool; [done|]. intros H. destruct (IH H) as (before & e & o & after & -> & Hrun).
    exists (Running t :: before), e, o, after. split; [done|]. intros p [->|Hin]%elem_of_cons; [by exists t|auto].
Qed.

(** What the probe, if there is one, answered: its start, its timeout and how
    its command ran. *)
Definition probed (run : option (Z * Z * spawned)) (probe : option bool) : Prop :=
  match run with
  | None => probe = None
  | Some (start, timeout, child) => ∃ answer, responds start timeout child = Some answer ∧ probe = Some answer
  end.

(** A command was started and exited with success; while it ran, no poll found
    it running at or past the deadline. *)
Definition succeeds (child : spawned) (deadline : Z) : Prop :=
  ∃ process_group before stderr stdout after,
    child = Child process_group (before ++ Exited true stderr stdout :: after)%list ∧
    ∀ p, p ∈ before → ∃ t, p = Running t ∧ (t < deadline)%Z.

Lemma reachable_sound socket exists_path run probe :
  probed run probe → is_reachable socket exists_path probe = true →
  socket = None ∨ ∃ path, socket = Some path ∧ exists_path path = true ∧
    ∀ start timeout child, run = Some (start, timeout, child) → succeeds child (start + timeout).
Proof.
  intros Hp. unfold is_reachable. destruct socket as [path|]; [|by left]. intros [He Hr]%andb_true_iff. right.
  exists path. split_and!; [done|done|]. intros start timeout child ->. destruct Hp as (answer & Ha & ->). subst answer.
  unfold responds, Time.checked_add in Ha. revert Ha. case_bool; [|done]. destruct child as [| |pg polls]; [done|done|].
  intros (before & e & o & after & -> & Hb')%probe_loop_true. by exists pg, before, e, o, after.
Qed.

(** C37: what a decrypt yields.  The decryptor returns a value only if the
    hardware is reachable: no PC/SC socket is configured, or the socket exists
    and the probe, where one is configured, exited with success and was not
    seen running at its deadline; only if exactly one file of the configured
    directories holds the key, whose label and [fstat] identity are the ones
    returned; and only if sops exited with success, every earlier poll having
    found it running before the deadline, and its output has one assignment,
    to that very key, of the value returned.  (The exit itself is not timed.) *)
Theorem decrypt_sound fs sources key socket exists_path run probe dup child now timeout d group :
  secret_name_ok key → probed run probe →
  decrypt_opened_with_start fs sources key socket exists_path probe dup child now timeout = (Some (Ok d), group) →
  (socket = None ∨ ∃ path, socket = Some path ∧ exists_path path = true ∧
     ∀ start timeout child, run = Some (start, timeout, child) → succeeds child (start + timeout)) ∧
  (∃ source local fd stat, backing fs key sources = [(source, local)] ∧
     dh_source d = local_label (hs_label source) local ∧
     openat fs (hs_dir source) (if local then local_file_name key else file_name key) = Some fd ∧
     fstat fs fd = Some stat ∧ dh_identity d = from_stat stat) ∧
  ∃ process_group polls before stderr stdout after,
    child = Child process_group polls ∧ group = Some process_group ∧
    polls = (before ++ Exited true stderr (PipeBytes stdout) :: after)%list ∧
    (∀ p, p ∈ before → ∃ t, p = Running t ∧ (t < now + timeout)%Z) ∧
    parse_single_assignment stdout key = Ok (dh_value d).
Proof.
  intros Hk Hprobe. unfold decrypt_opened_with_start. destruct (is_reachable socket exists_path probe) eqn:Er; [|done]. simpl.
  destruct (open fs sources key) as [opened|] eqn:Eo; [|done].
  destruct dup; [|done]. simpl. destruct child as [| |pg polls]; [done|done|].
  unfold Time.checked_add. case_bool; [|done]. intros H.
  destruct (poll_loop key (now + timeout) polls) as [[v|e]|] eqn:Ep; simpl in H; [|done|done].
  injection H as <- <-. split; [by eapply reachable_sound|]. split.
  - destruct (open_spec _ _ _ _ Hk Eo) as (source & local & stat & H1 & _ & H2 & H3 & H4 & H5 & _).
    by exists source, local, (oh_file opened), stat.
  - destruct (poll_loop_Ok _ _ _ _ Ep) as (before & se & so & after & -> & Hb' & Hv). simpl.
    eexists _, _, before, se, so, after. by split_and!.
Qed.

(** Behind a bridge whose probe answers at the second poll. *)
Lemma decrypt_sound_witness :
  backing demo_fs "K" demo_sources = [({| hs_label := "main"; hs_dir := "/a" |}, false)] ∧
  succeeds (Child 8 [Running 1; Exited true PipeMissing PipeMissing]) (0 + 5) ∧
  (∃ stdout, parse_single_assignment stdout "K" = Ok "v").
Proof.
  destruct (decrypt_sound demo_fs demo_sources "K" (Some "/run/pcscd.comm") (λ _, true)
    (Some (0, 5, Child 8 [Running 1; Exited true PipeMissing PipeMissing])%Z) (Some true) true
    (Child 9 [Running 3; Exited true (PipeBytes "") (PipeBytes "K=v")]) 1 10
    {| dh_source := "main"; dh_value := "v";
       dh_identity := {| device := 1; inode := 2; size := 3;
         modified := {| seconds := 4; nanoseconds := 5 |};
         changed := {| seconds := 6; nanoseconds := 7 |} |} |} (Some 9%Z)) as (H1 & (source & local & fd & stat & H2 & _) & H3).
  - by vm_compute.
  - exists true. split; by vm_compute.
  - by vm_compute.
  - split_and!.
    + by vm_compute.
    + destruct H1 as [H1|(path & _ & _ & H1)]; [done|]. by apply (H1 0%Z 5%Z).
    + destruct H3 as (pg & polls & before & se & so & after & _ & _ & _ & _ & H3). by exists so.
Defined.

(** C38: a decrypt ends.  Whatever the child does, once some poll finds it
    still running at or after the deadline, the decryptor has returned. *)
Theorem decrypt_terminates fs sources key socket exists_path probe dup process_group polls now timeout late :
  Running late ∈ polls → (now + timeout <= late)%Z →
  is_Some (decrypt_opened_with_start fs sources key socket exists_path probe dup (Child process_group polls) now timeout).1.
Proof.
  intros Hin Hlate. unfold decrypt_opened_with_start. destruct (is_reachable _ _ _); [|by eexists]. simpl.
  destruct (open fs sources key); [|by eexists]. destruct dup; [|by eexists]. simpl.
  unfold Time.checked_add. case_bool; [|by eexists].
  destruct (poll_loop_ends key _ _ _ Hin Hlate) as [[|] ->]; by eexists.
Qed.

Lemma decrypt_terminates_witness :
  is_Some (decrypt_opened_with_start demo_fs demo_sources "K" None (λ _, false) None true (Child 9 [Running 3; Running 12]) 1 10).1.
Proof. apply (decrypt_terminates _ _ _ _ _ _ _ _ _ _ _ 12); [right; by left|by vm_compute]. Defined.

(** Which failures blame what.  A failed decrypt reads as a missed touch
    exactly when the token refused the stanza, as unreachable hardware exactly
    when instead the plugin or the PC/SC link complained, and as an internal
    fault otherwise; letter case in the child's output does not matter. *)
Lemma failure_code_spec stderr :
  let says needle := contains_subslice (map_bytes to_ascii_lowercase stderr) needle in
  failure_code (classify_sops_stderr stderr) =
  if says "failed to decrypt yubikey stanza" then Timeout
  else if says "yubikey plugin" || says "pc/sc error" then YubikeyUnreachable
  else Internal.
Proof.
  unfold classify_sops_stderr, SOPS_STDERR_SIGNATURES. cbn [List.find fst].
  set (lowered := map_bytes to_ascii_lowercase stderr).
  destruct (contains_subslice lowered "failed to decrypt yubikey stanza"); [done|].
  destruct (contains_subslice lowered "yubikey plugin"); [done|].
  destruct (contains_subslice lowered "pc/sc error"); [done|].
  by repeat (destruct (contains_subslice lowered _); [done|]).
Qed.
