(* ===== verification/Server.v ===== *)
(** The broker's edges: reading a frame and choosing a lane
    ([crates/secrets/src/server.rs]), the socket node it serves on
    ([server/listener.rs]), the subscriber hub ([server/subscribers.rs]) and
    the audit line ([audit.rs]).

    A connection's input is the sequence of chunks the kernel would hand out
    and how it ends; a lane is the number of connections waiting on it.  The
    worker threads and [tracing] are not modelled. *)

From stdpp Require Import prelude strings list.
From Stdlib Require Import ZArith Lia Ascii.
From S2P Require Import Prelude Text Wire Request Secret Containment Store Grants Requests Broker.

Local Open Scope string_scope.

(** * Reading a frame *)

(** The end of a connection's input: closed, or a read error. *)
Record input : Type := { chunks : list string; read_fails : bool }.

Definition FRAME_LIMIT : nat := 4097.

(** [read_frame]: each turn reads at most what is left of the limit and stops
    at the first newline.  An empty chunk is a closed connection. *)
Fixpoint read_chunks (frame : string) (fails : bool) (l : list string) : option string :=
  let remaining := (FRAME_LIMIT - String.length frame)%nat in
  if (remaining =? 0)%nat then Some frame else
  match l with
  | [] => if fails then None else Some frame
  | chunk :: rest =>
      let got := String.substring 0 remaining chunk in
      if is_empty got then Some frame else
      match split_at_byte newline got with
      | Some (line, _) => Some (frame +:+ line +:+ String newline "")
      | None => read_chunks (frame +:+ got) fails rest
      end
  end.

Definition read_frame (i : input) : option string := read_chunks "" (read_fails i) (chunks i).

(** The request of a frame; [None] is the [InvalidData] error that becomes the
    reply [invalid request frame]. *)
Definition frame_request (frame : string) : option Request :=
  line ← strip_suffix frame (String newline "");
  if (slen line <=? MAX_FRAME_BYTES)%Z then
    match parse_request line with Ok r => Some r | Err _ => None end
  else None.

(** What is written back. *)
Definition reply (o : Outcome) : string :=
  match o with
  | OOk => format_response ROk
  | OFields fields => format_response (ROkFields fields)
  | OPayload payload => format_response (ROkBytes (slen payload)) +:+ payload
  | OBytes value => format_response (ROkBytes (slen value)) +:+ value
  | OReceipt receipt => receipt_reply receipt
  | OFailed code message => format_response (RFailed code message)
  end.

(** [handle]: a connection of another user or of a caller the kernel does not
    identify ends without a reply, before its frame is read; a read error ends
    it too.  [dispatch] is the outcome of the request ([System]). *)
Inductive handled (P : Type) : Type :=
| HandleError
| HandleAttach (caller : P)
| HandleReply (bytes : string).
Arguments HandleError {_}.
Arguments HandleAttach {_} _.
Arguments HandleReply {_} _.

Definition handle {P} (peer_uid euid : Z) (caller : option P) (i : input)
    (dispatch : Request → P → Outcome) : handled P :=
  if negb (same_user peer_uid euid) then HandleError else
  match caller with
  | None => HandleError
  | Some c =>
      match read_frame i with
      | None => HandleError
      | Some frame =>
          match frame_request frame with
          | Some Subscribe => HandleAttach c
          | Some r => HandleReply (reply (dispatch r c))
          | None => HandleReply (reply (OFailed BadRequest "invalid request frame"))
          end
      end
  end.

(** * Lanes *)
Inductive ConnectionLane : Type := Main | Fast | Control | Subscription.

#[global] Instance ConnectionLane_eq_dec : EqDecision ConnectionLane.
Proof. solve_decision. Defined.

Definition request_lane (r : Request) : ConnectionLane :=
  match r with
  | Get _ _ _ _ | RequestGrant _ _ _ _ | Authorize _ _ _ => Main
  | Hello _ | Register _ _ _ | Unregister _ | Request.Grants | Redeem _ _ => Fast
  | Deny _ | Lock => Control
  | Subscribe => Subscription
  end.

(** [ready_request_lane] on the bytes a peek shows, at most the limit. *)
Definition ready_request_lane (peeked : string) : option ConnectionLane :=
  match split_at_byte newline (String.substring 0 FRAME_LIMIT peeked) with
  | None => None
  | Some (line, _) =>
      if (MAX_FRAME_BYTES <? slen line)%Z then None else
      match parse_request line with Ok r => Some (request_lane r) | Err _ => None end
  end.

(** The bounded channels of the accept loop: how many connections wait on
    each, of at most eight. *)
Record lanes : Type := { main_waiting : nat; fast_waiting : nat; control_waiting : nat; subscription_waiting : nat }.

Definition QUEUE_DEPTH : nat := 8.

Definition try_send (waiting : nat) : option nat :=
  if (waiting <? QUEUE_DEPTH)%nat then Some (S waiting) else None.

(** Accepting one connection: the lanes after it, or the connection refused
    with the capacity reply (only a complete request gets one). *)
Inductive accepted : Type := Queued (l : lanes) | Refused (replied : bool).

Definition accept (l : lanes) (lane : option ConnectionLane) : accepted :=
  let refused := Refused (is_some lane) in
  match lane with
  | None | Some Main =>
      match try_send (main_waiting l) with
      | Some n => Queued {| main_waiting := n; fast_waiting := fast_waiting l;
                            control_waiting := control_waiting l; subscription_waiting := subscription_waiting l |}
      | None => refused
      end
  | Some Fast =>
      match try_send (fast_waiting l) with
      | Some n => Queued {| main_waiting := main_waiting l; fast_waiting := n;
                            control_waiting := control_waiting l; subscription_waiting := subscription_waiting l |}
      | None => refused
      end
  | Some Control =>
      match try_send (control_waiting l) with
      | Some n => Queued {| main_waiting := main_waiting l; fast_waiting := fast_waiting l;
                            control_waiting := n; subscription_waiting := subscription_waiting l |}
      | None => refused
      end
  | Some Subscription =>
      match try_send (subscription_waiting l) with
      | Some n => Queued {| main_waiting := main_waiting l; fast_waiting := fast_waiting l;
                            control_waiting := control_waiting l; subscription_waiting := n |}
      | None => refused
      end
  end.

(** * The listening socket's node *)
Record node : Type := { n_mode : Z; n_uid : Z }.

Definition S_IFSOCK : Z := 49152.

Inductive node_error : Type :=
| StatFailed
| NotASocket
| NotOwned
| WrongMode (mode : Z).

Definition assert_owner_only (stat : option node) (euid : Z) : result node_error () :=
  match stat with
  | None => Err StatFailed
  | Some n =>
      if negb (Z.land (Z.land (n_mode n) S_IFMT) S_IFSOCK =? S_IFSOCK)%Z then Err NotASocket else
      if negb (n_uid n =? euid)%Z then Err NotOwned else
      let mode := Z.land (n_mode n) 511 in
      if negb (mode =? 384)%Z then Err (WrongMode mode) else Ok ()
  end.

(** * Audit values

    [sanitize_audit_value] works on characters: a character is its scalar
    value, and its length is that of its UTF-8 encoding. *)
Definition len_utf8 (c : Z) : Z :=
  if (c <? 128)%Z then 1 else if (c <? 2048)%Z then 2 else if (c <? 65536)%Z then 3 else 4.

Definition byte_len (s : list Z) : Z := foldr (λ c n, len_utf8 c + n)%Z 0%Z s.

Definition MAX_AUDIT_VALUE_BYTES : Z := 256.
Definition ELLIPSIS : Z := 8230.

(** Popping characters until at most [limit] bytes are left. *)
Fixpoint pop_to (fuel : nat) (limit : Z) (s : list Z) : list Z :=
  match fuel with
  | O => s
  | S fuel' =>
      if (limit <? byte_len s)%Z then pop_to fuel' limit (take (length s - 1) s) else s
  end.

Definition append_audit_piece (rendered piece : list Z) : list Z * bool :=
  if (MAX_AUDIT_VALUE_BYTES <? byte_len rendered + byte_len piece)%Z then
    ((pop_to (length rendered) (saturating_sub MAX_AUDIT_VALUE_BYTES (len_utf8 ELLIPSIS)) rendered
      ++ [ELLIPSIS])%list, false)
  else ((rendered ++ piece)%list, true).

(** [char::is_control]: the general category Cc. *)
Definition is_control (c : Z) : bool :=
  ((0 <=? c) && (c <=? 31) || ((127 <=? c) && (c <=? 159)))%Z.

Definition hex_upper (n : Z) : Z := if (n <? 10)%Z then (48 + n)%Z else (55 + n)%Z.

(** A control character is at most [0x9F], so four hex digits are two zeros
    and its two digits. *)
Definition audit_piece (c : Z) : list Z :=
  (if c =? 13 then [92; 114]
   else if c =? 10 then [92; 110]
   else if c =? 9 then [92; 116]
   else if c =? 0 then [92; 48]
   else if is_control c then
     [92; 117; 123; 48; 48; hex_upper (Z.shiftr c 4); hex_upper (Z.land c 15); 125]
   else [c])%Z.

Fixpoint sanitize_loop (rendered : list Z) (value : list Z) : list Z :=
  match value with
  | [] => rendered
  | c :: rest =>
      match append_audit_piece rendered (audit_piece c) with
      | (rendered', true) => sanitize_loop rendered' rest
      | (rendered', false) => rendered'
      end
  end.

Definition sanitize_audit_value (value : list Z) : list Z := sanitize_loop [] value.

(** * Subscribers

    [s_seen] is ghost: the epoch of the last event written in full. *)
Section subscribers.
Context {P : Type}.

Record Subscriber : Type := { s_peer : P; s_stream : nat; s_seen : Z }.

Definition SUBSCRIBER_CAPACITY : nat := 8.

(** How an attachment ends: the subscriber is in the table, the capacity reply
    was written, or the connection ends in an error. *)
Inductive attached : Type := Attached | AtCapacity | AttachError.

(** [pid] is the kernel's view of a pinned peer, [writes] is whether a stream
    takes the whole line without blocking, [nonblocking] whether it could be
    made nonblocking. *)
Definition attach (pid : P → option Z) (writes : nat → bool) (nonblocking : bool) (epoch : Z)
    (hub : list Subscriber) (stream : nat) (peer : P) : list Subscriber * attached :=
  if negb nonblocking then (hub, AttachError) else
  let hub := retain (λ s, is_some (pid (s_peer s)) && negb (bool_decide (pid (s_peer s) = pid peer))) hub in
  if (SUBSCRIBER_CAPACITY <=? length hub)%nat
  then (hub, if writes stream then AtCapacity else AttachError) else
  if writes stream
  then ((hub ++ [{| s_peer := peer; s_stream := stream; s_seen := epoch |}])%list, Attached)
  else (hub, AttachError).

Definition publish_current (pid : P → option Z) (writes : nat → bool) (epoch : Z)
    (hub : list Subscriber) : list Subscriber :=
  (λ s, {| s_peer := s_peer s; s_stream := s_stream s; s_seen := epoch |})
    <$> retain (λ s, is_some (pid (s_peer s)) && writes (s_stream s)) hub.

End subscribers.

(** * Frames do not depend on chunking *)
Fixpoint concat_chunks (l : list string) : string :=
  match l with [] => "" | c :: rest => c +:+ concat_chunks rest end.

Lemma substring_prefix n s :
  ∃ t, s = String.substring 0 n s +:+ t ∧
    String.length (String.substring 0 n s) = Nat.min n (String.length s).
Proof.
  revert n. induction s as [|c s IH]; intros [|n]; simpl; [by exists ""|by exists ""|by exists (String c s)|].
  destruct (IH n) as (t & Hs & Hl). exists t. rewrite append_cons, <-Hs, Hl. done.
Qed.

Lemma first_newline a x b y :
  contains_byte newline a = false → contains_byte newline b = false →
  a +:+ String newline x = b +:+ String newline y → a = b ∧ x = y.
Proof.
  intros Ha Hb H. apply (f_equal (split_at_byte newline)) in H.
  rewrite !split_at_byte_append in H by done. by simplify_eq.
Qed.

(** A prefix without newline stays before the first newline. *)
Lemma prefix_before_newline a b line extra :
  contains_byte newline a = false → a +:+ b = line +:+ String newline extra →
  (String.length a <= String.length line)%nat.
Proof.
  revert line. induction a as [|c a IH]; intros line Ha H; [simpl; lia|].
  apply contains_byte_false in Ha. cbn [all_bytes] in Ha. apply andb_true_iff in Ha as [Hc Ha].
  apply contains_byte_false in Ha. apply negb_true_iff, bool_decide_eq_false_1 in Hc.
  destruct line as [|d line]; rewrite ?append_cons in H.
  - change ("" +:+ String newline extra) with (String newline extra) in H. by injection H as -> _.
  - injection H as -> H. specialize (IH line Ha H). simpl. lia.
Qed.

Lemma read_chunks_line frame fails l line extra :
  Forall (λ c, is_empty c = false) l →
  contains_byte newline frame = false → contains_byte newline line = false →
  (String.length line < FRAME_LIMIT)%nat →
  frame +:+ concat_chunks l = line +:+ String newline extra →
  read_chunks frame fails l = Some (line +:+ String newline "").
Proof.
  intros Hl. revert frame. induction Hl as [|c l Hc Hl IH]; intros frame Hf Hline Hlen Heq;
    pose proof (prefix_before_newline _ _ _ _ Hf Heq) as Hle; cbn [read_chunks];
    (destruct (Nat.eqb_spec (FRAME_LIMIT - String.length frame) 0); [lia|]).
  - cbn [concat_chunks] in Heq. rewrite append_nil_r in Heq. subst frame.
    rewrite length_append in Hle. simpl in Hle. lia.
  - cbn [concat_chunks] in Heq. destruct (substring_prefix (FRAME_LIMIT - String.length frame) c) as (t & Hct & Hgl).
    set (got := String.substring 0 (FRAME_LIMIT - String.length frame) c) in *.
    assert (is_empty got = false) as ->.
    { destruct got; [|done]. destruct c; [done|]. simpl in Hgl. lia. }
    destruct (split_at_byte newline got) as [[l1 r1]|] eqn:Es.
    + apply split_at_byte_Some in Es as (r & -> & Hgot & Hn1). rewrite Hct, Hgot in Heq.
      rewrite <-!append_assoc, append_assoc in Heq.
      change (String newline r +:+ (t +:+ concat_chunks l)) with (String newline (r +:+ (t +:+ concat_chunks l))) in Heq.
      apply first_newline in Heq as [<- _]; [by rewrite <-append_assoc| |done].
      by rewrite contains_byte_append, Hf, Hn1.
    + apply split_at_byte_None in Es. rewrite Hct, <-!append_assoc, append_assoc in Heq.
      assert (contains_byte newline (frame +:+ got) = false) as Hfg by by rewrite contains_byte_append, Hf, Es.
      pose proof (prefix_before_newline _ _ _ _ Hfg Heq) as Hle2. rewrite length_append, Hgl in Hle2.
      assert (t = "") as ->.
      { rewrite Hct, length_append, Hgl in Hle2. destruct t as [|ch t]; [done|]. exfalso.
        apply (f_equal String.length) in Hct. rewrite length_append, Hgl in Hct. simpl in Hct. simpl in Hle2. lia. }
      apply IH; done.
Qed.

Lemma frame_request_line line :
  frame_request (line +:+ String newline "") =
  if (slen line <=? MAX_FRAME_BYTES)%Z then
    match parse_request line with Ok r => Some r | Err _ => None end else None.
Proof. unfold frame_request. by rewrite strip_suffix_append. Qed.

Lemma slen_limit line : (slen line <= MAX_FRAME_BYTES)%Z ↔ (String.length line < FRAME_LIMIT)%nat.
Proof. unfold slen, MAX_FRAME_BYTES, FRAME_LIMIT. lia. Qed.

Lemma request_of_line l fails line extra :
  Forall (λ c, is_empty c = false) l →
  concat_chunks l = line +:+ String newline extra →
  contains_byte newline line = false → (slen line <= MAX_FRAME_BYTES)%Z →
  ∃ frame, read_frame {| chunks := l; read_fails := fails |} = Some frame ∧
    frame_request frame = match parse_request line with Ok r => Some r | Err _ => None end.
Proof.
  intros Hl Hcat Hline Hlen. exists (line +:+ String newline ""). split.
  - unfold read_frame. simpl.
    rewrite (read_chunks_line _ _ _ line extra); [done|done|done|done|by apply slen_limit|done].
  - rewrite frame_request_line. by destruct (Z.leb_spec (slen line) MAX_FRAME_BYTES); [|lia].
Qed.

(** Framing.  However the kernel cuts the bytes of a connection into
    reads, and however the connection ends, a first line within the bound
    alone decides what the broker does with an identified caller of its own
    user: attach it, answer the request it parses to, or answer that it is
    invalid. *)
Lemma frame_independent_of_chunks {P} uid (caller : P) l fails line extra dispatch :
  Forall (λ c, is_empty c = false) l →
  concat_chunks l = line +:+ String newline extra →
  contains_byte newline line = false → (slen line <= MAX_FRAME_BYTES)%Z →
  handle uid uid (Some caller) {| chunks := l; read_fails := fails |} dispatch =
  match parse_request line with
  | Ok Subscribe => HandleAttach caller
  | Ok r => HandleReply (reply (dispatch r caller))
  | Err _ => HandleReply (format_response (RFailed BadRequest "invalid request frame"))
  end.
Proof.
  intros Hl Hcat Hline Hlen. unfold handle, same_user. rewrite Z.eqb_refl. cbn [orb negb].
  destruct (request_of_line l fails line extra) as (frame & -> & Hr); [done..|]. rewrite Hr.
  destruct (parse_request line) as [[]|]; done.
Qed.

Lemma frame_independent_of_chunks_witness :
  handle 1000 1000 (Some ()) {| chunks := ["LO"; "CK" +:+ String newline "x"; "y"]; read_fails := true |}
    (λ _ _, OOk) = HandleReply (format_response ROk).
Proof.
  apply (frame_independent_of_chunks 1000 () ["LO"; "CK" +:+ String newline "x"; "y"] true "LOCK" "xy");
    [by repeat constructor|done|done|by vm_compute].
Defined.

(** A connection is queued on the lane of the request it will be served
    as: what the peek classified is what the frame parses to, whatever arrives
    after the peek. *)
Lemma lane_matches_request l fails peeked more lane :
  Forall (λ c, is_empty c = false) l → concat_chunks l = peeked +:+ more →
  ready_request_lane peeked = Some lane →
  ∃ r, (frame ← read_frame {| chunks := l; read_fails := fails |}; frame_request frame) = Some r ∧
    request_lane r = lane.
Proof.
  intros Hl Hcat. unfold ready_request_lane.
  destruct (substring_prefix FRAME_LIMIT peeked) as (t & Hp & _).
  destruct (split_at_byte newline _) as [[line rest]|] eqn:Es; [|done].
  apply split_at_byte_Some in Es as (r & -> & Hs & Hn). destruct (Z.ltb_spec MAX_FRAME_BYTES (slen line)); [done|].
  destruct (parse_request line) as [rq|] eqn:Er; [|done]. intros [= <-]. exists rq. split; [|done].
  assert (concat_chunks l = line +:+ String newline (r +:+ (t +:+ more))) as Hcat'.
  { rewrite Hcat. rewrite Hs in Hp. rewrite Hp. rewrite <-!append_assoc. by rewrite append_cons. }
  destruct (request_of_line l fails line (r +:+ (t +:+ more))) as (frame & -> & Hr); [done..|].
  simpl. by rewrite Hr, Er.
Qed.

Lemma lane_matches_request_witness :
  ∃ r, (frame ← read_frame {| chunks := ["LOCK" +:+ String newline ""; "more"]; read_fails := false |};
        frame_request frame) = Some r ∧ request_lane r = Control.
Proof.
  apply (lane_matches_request ["LOCK" +:+ String newline ""; "more"] false ("LOCK" +:+ String newline "") "more");
    [by repeat constructor|done|by vm_compute].
Defined.

(** * LOCK is never crowded out *)
Inductive lane_event : Type :=
| Arrives (lane : option ConnectionLane)
| Taken (lane : ConnectionLane).

(** A worker of a lane takes one of the connections waiting on it. *)
Definition take_conn (l : lanes) (lane : ConnectionLane) : lanes :=
  {| main_waiting := main_waiting l - (if decide (lane = Main) then 1 else 0);
     fast_waiting := fast_waiting l - (if decide (lane = Fast) then 1 else 0);
     control_waiting := control_waiting l - (if decide (lane = Control) then 1 else 0);
     subscription_waiting := subscription_waiting l - (if decide (lane = Subscription) then 1 else 0) |}.

Definition lane_step (l : lanes) (e : lane_event) : lanes :=
  match e with
  | Arrives lane => match accept l lane with Queued l' => l' | Refused _ => l end
  | Taken lane => take_conn l lane
  end.

Lemma lane_step_control l e :
  e ≠ Arrives (Some Control) → (control_waiting (lane_step l e) <= control_waiting l)%nat.
Proof.
  intros Hne. destruct e as [lane|lane]; simpl; [|lia].
  unfold accept. destruct lane as [[]|]; simpl; try done; by destruct (try_send _).
Qed.

(** However many approval, registration, subscription or incomplete
    connections arrive, and whatever the workers take, none takes a place of
    the lane LOCK and DENY wait on: with room there, a LOCK is queued. *)
Lemma lock_lane_isolated l events :
  (control_waiting l < QUEUE_DEPTH)%nat → Forall (λ e, e ≠ Arrives (Some Control)) events →
  ∃ l', accept (fold_left lane_step events l) (Some (request_lane Lock)) = Queued l'.
Proof.
  intros Hl Ha.
  assert (control_waiting (fold_left lane_step events l) <= control_waiting l)%nat as Hc.
  { clear Hl. revert l. induction Ha as [|e events Hne Ha IH]; intros l; simpl; [done|].
    etrans; [apply IH|by apply lane_step_control]. }
  unfold accept, try_send. simpl.
  destruct (Nat.ltb_spec (control_waiting (fold_left lane_step events l)) QUEUE_DEPTH); [by eexists|lia].
Qed.

Lemma lock_lane_isolated_witness :
  ∃ l', accept (fold_left lane_step (replicate 20 (Arrives (Some Main)) ++ [Taken Control; Arrives None])%list
      {| main_waiting := 0; fast_waiting := 0; control_waiting := 7; subscription_waiting := 0 |})
    (Some (request_lane Lock)) = Queued l'.
Proof.
  apply lock_lane_isolated; [apply (bool_decide_unpack _); by vm_compute|].
  by repeat constructor.
Defined.

(** * The subscriber hub over time

    Attaching and publishing hold the hub's mutex; the epoch advances between
    them, never down. *)
Section hub_runs.
Context {P : Type}.

Inductive hub_event : Type :=
| HAttach (pid : P → option Z) (writes : nat → bool) (nonblocking : bool) (stream : nat) (peer : P)
| HPublish (pid : P → option Z) (writes : nat → bool)
| HLock.

Definition hub_step (h : list (@Subscriber P) * Z) (e : hub_event) : list (@Subscriber P) * Z :=
  match e with
  | HAttach pid writes nonblocking stream peer =>
      (fst (attach pid writes nonblocking (snd h) (fst h) stream peer), snd h)
  | HPublish pid writes => (publish_current pid writes (snd h) (fst h), snd h)
  | HLock => (fst h, saturating_add_u64 (snd h) 1)
  end.

Definition hub_run (h : list (@Subscriber P) * Z) (l : list hub_event) : list (@Subscriber P) * Z :=
  fold_left hub_step l h.

(** Every subscriber was told of an epoch at least [e], and the table is
    within its capacity. *)
Definition hub_inv (e : Z) (h : list (@Subscriber P) * Z) : Prop :=
  (length (fst h) <= SUBSCRIBER_CAPACITY)%nat ∧ (e <= snd h <= u64_max)%Z ∧
  Forall (λ s, (e <= s_seen s)%Z) (fst h).

Lemma retain_Forall {A} (f : A → bool) (Q : A → Prop) (l : list A) : Forall Q l → Forall Q (retain f l).
Proof. induction 1 as [|x l Hx _ IH]; simpl; [done|]. destruct (f x); [by constructor|done]. Qed.

Lemma attach_inv pid writes nonblocking stream peer e h :
  hub_inv e h → hub_inv e (hub_step h (HAttach pid writes nonblocking stream peer)).
Proof.
  intros (Hl & He & Hs). unfold hub_step, attach. destruct nonblocking; [|by split_and!; simpl; done || lia].
  cbn [negb].
  set (hub := retain _ (fst h)). assert (Forall (λ s, (e <= s_seen s)%Z) hub) by by apply retain_Forall.
  assert (length hub <= SUBSCRIBER_CAPACITY)%nat.
  { etrans; [apply retain_length|done]. }
  destruct (Nat.leb_spec SUBSCRIBER_CAPACITY (length hub)); [split_and!; simpl; done || lia|].
  destruct (writes stream); [|split_and!; simpl; done || lia].
  split_and!; simpl; [|lia|lia|].
  - rewrite length_app. simpl. lia.
  - apply Forall_app. split; [done|]. constructor; [simpl; lia|done].
Qed.

Lemma publish_inv pid writes e h : hub_inv e h → hub_inv (snd h) (hub_step h (HPublish pid writes)).
Proof.
  intros (Hl & He & _). unfold hub_step, publish_current. split_and!; simpl; [|lia|lia|].
  - rewrite length_fmap. etrans; [apply retain_length|done].
  - apply Forall_fmap, Forall_true. intros s. simpl. lia.
Qed.

Lemma hub_inv_weaken e e' h : (e' <= e)%Z → hub_inv e h → hub_inv e' h.
Proof. intros He (Hl & Hr & Hs). split_and!; [done|lia|lia|]. eapply Forall_impl; [done|]. simpl. lia. Qed.

Lemma hub_step_inv e h ev : hub_inv e h → hub_inv e (hub_step h ev).
Proof.
  intros H. destruct ev as [pid writes nonblocking stream peer|pid writes|].
  - by apply attach_inv.
  - eapply hub_inv_weaken, publish_inv; [|done]. apply H.
  - destruct H as (Hl & He & Hs). unfold hub_step, saturating_add_u64.
    split_and!; simpl; [done|lia|lia|done].
Qed.

Lemma hub_run_inv e h l : hub_inv e h → hub_inv e (hub_run h l).
Proof. revert h. induction l as [|ev l IH]; intros h H; [done|]. by apply IH, hub_step_inv. Qed.

(** No subscriber misses a LOCK.  Once the authority has been published,
    every connection the hub still holds has been sent an event for at least
    the epoch of that publication, whatever attached, failed or locked before
    and after; and the hub never holds more than its capacity. *)
Lemma subscribers_see_lock before pid writes after epoch :
  (0 <= epoch <= u64_max)%Z →
  let at_publish := hub_run ([], epoch) before in
  let final := hub_run ([], epoch) (before ++ HPublish pid writes :: after) in
  Forall (λ s, (snd at_publish <= s_seen s)%Z) (fst final) ∧
  (length (fst final) <= SUBSCRIBER_CAPACITY)%nat.
Proof.
  intros He at_publish final.
  assert (hub_inv epoch at_publish) as Hi.
  { apply hub_run_inv. split_and!; simpl; [lia|lia|lia|done]. }
  assert (final = hub_run (hub_step at_publish (HPublish pid writes)) after) as ->.
  { unfold final, hub_run. by rewrite fold_left_app. }
  eapply publish_inv in Hi. apply (hub_run_inv _ _ after) in Hi as (Hl & _ & Hs).
  split; [exact Hs|exact Hl].
Qed.

End hub_runs.

Lemma subscribers_see_lock_witness :
  let live := λ p : Z, Some p in let ok := λ _ : nat, true in
  let final := hub_run ([], 0%Z)
    ([HAttach live ok true 3 (7 : Z); HLock] ++ HPublish live ok :: [HAttach live ok true 4 (8 : Z)])%list in
  Forall (λ s, (1 <= s_seen s)%Z) (fst final) ∧ length (fst final) = 2%nat.
Proof.
  split; [|done].
  apply (subscribers_see_lock [HAttach (λ p : Z, Some p) (λ _, true) true 3 (7 : Z); HLock]
    (λ p, Some p) (λ _, true) [HAttach (λ p, Some p) (λ _, true) true 4 (8 : Z)] 0). vm_compute. done.
Defined.

(** * The daemon serves on an owner-only socket *)
Lemma assert_owner_only_spec stat euid :
  assert_owner_only stat euid = Ok () ↔
  ∃ n, stat = Some n ∧ Z.testbit (n_mode n) 14 = true ∧ Z.testbit (n_mode n) 15 = true ∧
    n_uid n = euid ∧ Z.land (n_mode n) 511 = 384%Z.
Proof.
  assert (∀ m, Z.land (Z.land m S_IFMT) S_IFSOCK = S_IFSOCK ↔ Z.testbit m 14 = true ∧ Z.testbit m 15 = true) as Hsock.
  { intros m. rewrite <-Z.land_assoc. change (Z.land S_IFMT S_IFSOCK) with S_IFSOCK. split.
    - intros H. split; [apply (f_equal (λ z, Z.testbit z 14)) in H|apply (f_equal (λ z, Z.testbit z 15)) in H];
        rewrite Z.land_spec in H; by apply andb_true_iff in H as [H _].
    - intros [H1 H2]. apply Z.bits_inj'. intros i Hi. rewrite Z.land_spec.
      destruct (decide (i = 14%Z)) as [->|H14]; [by rewrite H1|].
      destruct (decide (i = 15%Z)) as [->|H15]; [by rewrite H2|].
      assert (Z.testbit S_IFSOCK i = false) as ->; [|apply andb_false_r].
      change S_IFSOCK with (Z.shiftl 3 14). rewrite Z.shiftl_spec by lia.
      destruct (Z.ltb_spec i 14); [apply Z.testbit_neg_r; lia|].
      apply Z.bits_above_log2; [lia|]. change (Z.log2 3) with 1%Z. lia. }
  unfold assert_owner_only. destruct stat as [n|]; [|split; [done|by intros (? & ? & _)]].
  split.
  - repeat case_bool; try done. intros _. exists n. apply Hsock in Hb. tauto.
  - intros (n' & [= <-] & H1 & H2 & -> & H4). rewrite (proj2 (Hsock _)) by done.
    by rewrite !Z.eqb_refl, H4.
Qed.

(** * Audit values are bounded and on one line *)
Lemma byte_len_app s t : byte_len (s ++ t) = (byte_len s + byte_len t)%Z.
Proof. unfold byte_len. induction s as [|c s IH]; simpl; [done|]. rewrite IH. lia. Qed.

Lemma len_utf8_pos c : (1 <= len_utf8 c <= 4)%Z.
Proof. unfold len_utf8. repeat case_match; lia. Qed.

Lemma byte_len_length s : (Z.of_nat (length s) <= byte_len s)%Z.
Proof.
  induction s as [|c s IH]; simpl; [lia|]. pose proof (len_utf8_pos c). unfold byte_len in *. simpl. lia.
Qed.

Lemma pop_to_spec fuel limit s :
  (0 <= limit)%Z → (length s <= fuel)%nat →
  (byte_len (pop_to fuel limit s) <= limit)%Z ∧ ∃ n, pop_to fuel limit s = take n s.
Proof.
  intros H0. revert s. induction fuel as [|fuel IH]; intros s Hf; simpl.
  { destruct s; simpl in *; [|lia]. split; [done|by exists 0%nat]. }
  destruct (Z.ltb_spec limit (byte_len s)); [|split; [done|exists (length s); by rewrite take_ge]].
  destruct s as [|c s]; [unfold byte_len in *; simpl in *; lia|].
  destruct (IH (take (length (c :: s) - 1) (c :: s))) as (Hb & n & Hn).
  { rewrite length_take. simpl in *. lia. }
  split; [done|]. rewrite Hn, take_take. by eexists.
Qed.

Definition audit_safe (s : list Z) : Prop :=
  (byte_len s <= MAX_AUDIT_VALUE_BYTES)%Z ∧ Forall (λ c, is_control c = false) s.

Lemma is_control_iff c : is_control c = true ↔ (0 <= c <= 31 ∨ 127 <= c <= 159)%Z.
Proof. unfold is_control. rewrite orb_true_iff, !andb_true_iff, !Z.leb_le. done. Qed.

Lemma hex_upper_safe n : (0 <= n <= 15)%Z → is_control (hex_upper n) = false.
Proof.
  intros Hn. apply not_true_iff_false. rewrite is_control_iff. unfold hex_upper.
  destruct (Z.ltb_spec n 10); lia.
Qed.

Lemma audit_piece_safe c : Forall (λ c, is_control c = false) (audit_piece c).
Proof.
  unfold audit_piece. destruct (c =? 13)%Z; [by repeat constructor|].
  destruct (c =? 10)%Z; [by repeat constructor|]. destruct (c =? 9)%Z; [by repeat constructor|].
  destruct (c =? 0)%Z; [by repeat constructor|].
  destruct (is_control c) eqn:Ec; [|by constructor].
  apply is_control_iff in Ec. repeat (constructor; [try done|]); [| |done]; apply hex_upper_safe.
  - rewrite Z.shiftr_div_pow2 by lia. split; [apply Z.div_pos; lia|].
    apply Z.lt_succ_r, Z.div_lt_upper_bound; lia.
  - assert (Z.land c 15 = c mod 16)%Z as -> by (apply (Z.land_ones c 4); lia).
    pose proof (Z.mod_pos_bound c 16). lia.
Qed.

Lemma append_audit_safe rendered piece :
  audit_safe rendered → Forall (λ c, is_control c = false) piece →
  audit_safe (fst (append_audit_piece rendered piece)).
Proof.
  intros [Hb Hc] Hp. unfold append_audit_piece.
  destruct (Z.ltb_spec MAX_AUDIT_VALUE_BYTES (byte_len rendered + byte_len piece)); simpl.
  - destruct (pop_to_spec (length rendered)
      (saturating_sub MAX_AUDIT_VALUE_BYTES (len_utf8 ELLIPSIS)) rendered) as (Hl & n & Hn); [done|done|].
    split; [|rewrite Hn; apply Forall_app; split; [by apply Forall_take|by constructor]].
    rewrite byte_len_app. change (byte_len [ELLIPSIS]) with 3%Z.
    change (saturating_sub _ _) with 253%Z in *. change MAX_AUDIT_VALUE_BYTES with 256%Z. lia.
  - split; [rewrite byte_len_app; lia|by apply Forall_app].
Qed.

Lemma sanitize_loop_safe value rendered : audit_safe rendered → audit_safe (sanitize_loop rendered value).
Proof.
  revert rendered. induction value as [|c value IH]; intros rendered H; simpl; [done|].
  pose proof (append_audit_safe rendered (audit_piece c) H (audit_piece_safe c)) as Ha.
  destruct (append_audit_piece rendered (audit_piece c)) as [r []]; simpl in Ha; [by apply IH|done].
Qed.

Lemma sanitize_loop_app rendered value :
  (byte_len (rendered ++ concat (audit_piece <$> value)) <= MAX_AUDIT_VALUE_BYTES)%Z →
  sanitize_loop rendered value = (rendered ++ concat (audit_piece <$> value))%list.
Proof.
  revert rendered. induction value as [|c value IH]; intros rendered H; [symmetry; apply app_nil_r|].
  rewrite fmap_cons, concat_cons, app_assoc in H |- *. simpl sanitize_loop. rewrite byte_len_app in H.
  pose proof (byte_len_length (concat (audit_piece <$> value))).
  unfold append_audit_piece. rewrite byte_len_app in H.
  destruct (Z.ltb_spec MAX_AUDIT_VALUE_BYTES (byte_len rendered + byte_len (audit_piece c))); [lia|].
  apply IH. rewrite !byte_len_app. lia.
Qed.

(** Whatever a caller names its secret or command, its audit value is at
    most 256 bytes of UTF-8 and has no control character, so it cannot forge
    a second log line; and when the escaped value fits it is logged whole. *)
Lemma audit_value_safe value :
  (byte_len (sanitize_audit_value value) <= MAX_AUDIT_VALUE_BYTES)%Z ∧
  Forall (λ c, is_control c = false) (sanitize_audit_value value) ∧
  ((byte_len (concat (audit_piece <$> value)) <= MAX_AUDIT_VALUE_BYTES)%Z →
   sanitize_audit_value value = concat (audit_piece <$> value)).
Proof.
  assert (audit_safe (sanitize_audit_value value)) as [Hb Hc].
  { apply sanitize_loop_safe. split; [done|constructor]. }
  split_and!; [done|done|]. intros Hf. by apply (sanitize_loop_app []).
Qed.

Lemma audit_value_safe_witness :
  sanitize_audit_value [97; 10; 155]%Z = [97; 92; 110; 92; 117; 123; 48; 48; 57; 66; 125]%Z.
Proof. apply (audit_value_safe [97; 10; 155]%Z). by vm_compute. Defined.
