(* ===== verification/RequestLog.v ===== *)
(** The broker's request log ([crates/secrets/src/server.rs]: [AuditContext],
    [audit_context], the event of [handle]; [server/dispatch.rs]:
    [request_key]), which is the only record of who was given what.

    Text is logged as characters, so the request's strings are decoded; the
    fields the log prints with [Debug] are kept as values. *)

From stdpp Require Import prelude strings list gmap.
From Stdlib Require Import ZArith Lia Ascii.
From S2P Require Import Prelude Text Wire Request Secret Grants Requests Broker System Server.

Local Open Scope string_scope.

(** * Characters

    [str::chars]: the scalar values of a UTF-8 string.  A byte that starts no
    sequence does not occur in one. *)
Definition low6 (c : ascii) : Z := Z.land (code c) 63.

Fixpoint chars (s : string) : list Z :=
  match s with
  | EmptyString => []
  | String a s1 =>
      if is_ascii a then code a :: chars s1 else
      match s1 with
      | EmptyString => []
      | String b s2 =>
          if in_range 194 223 a then (Z.shiftl (Z.land (code a) 31) 6 + low6 b)%Z :: chars s2 else
          match s2 with
          | EmptyString => []
          | String c s3 =>
              if in_range 224 239 a
              then (Z.shiftl (Z.land (code a) 15) 12 + Z.shiftl (low6 b) 6 + low6 c)%Z :: chars s3 else
              match s3 with
              | EmptyString => []
              | String d s4 =>
                  (Z.shiftl (Z.land (code a) 7) 18 + Z.shiftl (low6 b) 12 + Z.shiftl (low6 c) 6 + low6 d)%Z :: chars s4
              end
          end
      end
  end.

(** ** The decoder agrees with the encoding's lengths *)
Lemma bits_of (lo hi mask base : Z) :
  forallb (λ c, negb (in_range lo hi c) || (Z.land (code c) mask =? code c - base)%Z) all_ascii = true →
  ∀ c, in_range lo hi c = true → Z.land (code c) mask = (code c - base)%Z ∧ (lo ≤ code c ≤ hi)%Z.
Proof.
  intros H c Hc. split.
  - apply Z.eqb_eq. by apply (byte_impl (in_range lo hi) (λ c, (Z.land (code c) mask =? code c - base)%Z)).
  - unfold in_range in Hc. bool_to_prop. lia.
Qed.

Definition cont_bits := bits_of 128 191 63 128 eq_refl.
Definition two_bits := bits_of 194 223 31 192 eq_refl.
Definition three_bits := bits_of 224 239 15 224 eq_refl.
Definition four_bits := bits_of 240 244 7 240 eq_refl.

Lemma in_range_iff lo hi c : in_range lo hi c = true ↔ (lo ≤ code c ≤ hi)%Z.
Proof. unfold in_range. rewrite andb_true_iff, !Z.leb_le. done. Qed.

Lemma in_range_not lo hi c : in_range lo hi c = false ↔ ¬ (lo ≤ code c ≤ hi)%Z.
Proof. rewrite <-in_range_iff. by destruct (in_range lo hi c). Qed.

Lemma scalar_len_2 a b : in_range 194 223 a = true → continuation b = true →
  len_utf8 (Z.shiftl (Z.land (code a) 31) 6 + low6 b) = 2%Z.
Proof.
  intros [-> Ha]%two_bits [Hb Hb']%cont_bits. unfold low6, len_utf8. rewrite Hb, Z.shiftl_mul_pow2 by done.
  change (2 ^ 6)%Z with 64%Z. destruct (Z.ltb_spec ((code a - 192) * 64 + (code b - 128)) 128); [lia|].
  destruct (Z.ltb_spec ((code a - 192) * 64 + (code b - 128)) 2048); [done|lia].
Qed.

Lemma scalar_len_3 a b c : in_range 224 239 a = true → continuation b = true → continuation c = true →
  (code a = 224 → 160 ≤ code b)%Z →
  len_utf8 (Z.shiftl (Z.land (code a) 15) 12 + Z.shiftl (low6 b) 6 + low6 c) = 3%Z.
Proof.
  intros [-> Ha]%three_bits [Hb Hb']%cont_bits [Hc Hc']%cont_bits Hx. unfold low6, len_utf8.
  rewrite Hb, Hc, !Z.shiftl_mul_pow2 by done. change (2 ^ 6)%Z with 64%Z. change (2 ^ 12)%Z with 4096%Z.
  assert (2048 ≤ (code a - 224) * 4096 + (code b - 128) * 64 + (code c - 128) < 65536)%Z.
  { destruct (decide (code a = 224%Z)) as [E|]; [specialize (Hx E)|]; lia. }
  repeat (case_match; bool_to_prop); lia.
Qed.

Lemma scalar_len_4 a b c d : in_range 240 244 a = true → continuation b = true → continuation c = true →
  continuation d = true → (code a = 240 → 144 ≤ code b)%Z →
  len_utf8 (Z.shiftl (Z.land (code a) 7) 18 + Z.shiftl (low6 b) 12 + Z.shiftl (low6 c) 6 + low6 d) = 4%Z.
Proof.
  intros [-> Ha]%four_bits [Hb Hb']%cont_bits [Hc Hc']%cont_bits [Hd Hd']%cont_bits Hx. unfold low6, len_utf8.
  rewrite Hb, Hc, Hd, !Z.shiftl_mul_pow2 by done.
  change (2 ^ 6)%Z with 64%Z. change (2 ^ 12)%Z with 4096%Z. change (2 ^ 18)%Z with 262144%Z.
  assert (65536 ≤ (code a - 240) * 262144 + (code b - 128) * 4096 + (code c - 128) * 64 + (code d - 128))%Z.
  { destruct (decide (code a = 240%Z)) as [E|]; [specialize (Hx E)|]; lia. }
  repeat (case_match; bool_to_prop); lia.
Qed.

Lemma chars_cons c s r k : byte_len (chars r) = slen r → len_utf8 c = k → slen s = (k + slen r)%Z →
  byte_len (c :: chars r) = slen s.
Proof. intros H <- ->. unfold byte_len in *. cbn [foldr]. by rewrite H. Qed.

(** The five ways a sequence of three or four bytes starts. *)
Lemma three_start a b : (in_range 224 224 a = true ∧ in_range 160 191 b = true) ∨
    (in_range 237 237 a = true ∧ in_range 128 159 b = true) ∨ (in_range 225 239 a = true ∧ continuation b = true) →
  in_range 224 239 a = true ∧ continuation b = true ∧ (code a = 224 → 160 ≤ code b)%Z.
Proof. unfold continuation. rewrite !in_range_iff. lia. Qed.

Lemma four_start a b : (in_range 240 240 a = true ∧ in_range 144 191 b = true) ∨
    (in_range 244 244 a = true ∧ in_range 128 143 b = true) ∨ (in_range 241 243 a = true ∧ continuation b = true) →
  in_range 240 244 a = true ∧ in_range 224 239 a = false ∧ continuation b = true ∧ (code a = 240 → 144 ≤ code b)%Z.
Proof. unfold continuation. rewrite !in_range_iff, in_range_not. lia. Qed.

(** Nothing of a well-formed string is lost or made up in decoding. *)
Lemma chars_byte_len s : valid_utf8 s = true → byte_len (chars s) = slen s.
Proof.
  remember (String.length s) as n eqn:En. revert s En. induction (lt_wf n) as [n _ IH]. intros s -> Hv.
  assert (∀ r, (String.length r < String.length s)%nat → valid_utf8 r = true → byte_len (chars r) = slen r) as IH'.
  { intros r Hr. by apply (IH _ Hr). } clear IH.
  destruct s as [|a s1]; [done|]. cbn [valid_utf8 chars] in *. destruct (is_ascii a) eqn:Ea.
  { eapply (chars_cons _ _ _ 1); [apply IH'; [simpl; lia|done]| |unfold slen; simpl; lia].
    unfold is_ascii in Ea. apply in_range_iff in Ea. unfold len_utf8. destruct (Z.ltb_spec (code a) 128); [done|lia]. }
  destruct s1 as [|b s2]; [done|]. destruct (in_range 194 223 a) eqn:E2.
  { apply andb_true_iff in Hv as [Hb Hv].
    eapply (chars_cons _ _ _ 2); [apply IH'; [simpl; lia|done]|by apply scalar_len_2|unfold slen; simpl; lia]. }
  destruct s2 as [|c s3]; [done|].
  destruct (in_range 224 224 a) eqn:Ex; [|destruct (in_range 237 237 a) eqn:Ey; [|destruct (in_range 225 239 a) eqn:Ez]].
  1-3: apply andb_true_iff in Hv as [[Hb Hc]%andb_true_iff Hv]; destruct (three_start a b) as (Ha & Hb' & Hx); [by auto|];
    rewrite Ha; eapply (chars_cons _ _ _ 3); [apply IH'; [simpl; lia|done]|by apply scalar_len_3|unfold slen; simpl; lia].
  destruct s3 as [|d s4]; [done|].
  destruct (in_range 240 240 a) eqn:Eu; [|destruct (in_range 244 244 a) eqn:Ev; [|destruct (in_range 241 243 a) eqn:Ew; [|done]]].
  all: apply andb_true_iff in Hv as [[[Hb Hc]%andb_true_iff Hd]%andb_true_iff Hv];
    destruct (four_start a b) as (Ha & Hn & Hb' & Hx); [by auto|];
    rewrite Hn; eapply (chars_cons _ _ _ 4); [apply IH'; [simpl; lia|done]|by apply scalar_len_4|unfold slen; simpl; lia].
Qed.

Definition sanitize (s : string) : list Z := sanitize_audit_value (chars s).

(** * What is logged *)
Definition request_key (r : Request) : option string :=
  match r with Get key _ _ _ | RequestGrant key _ _ _ => Some key | _ => None end.

Record AuditContext : Type := {
  au_key : list Z;
  au_session : option (list Z);
  au_root_pid : option Z;
}.

Record Event : Type := {
  e_key : list Z;
  e_source : list Z;
  e_peer_uid : Z;
  e_peer_pid : Z;
  e_caller_pid : option Z;
  e_scope_kind : option ScopeKind;
  e_session : option (list Z);
  e_root_pid : option Z;
  e_request_id : option RequestId;
  e_decision : string;
  e_released : option Z;
}.

(** * What [Debug] shows

    The fields of [debug_struct] and [debug_tuple], with the values as the
    formatter is given them. *)
Inductive Shown : Type :=
| ShownText (s : string)
| ShownNumber (n : Z)
| ShownTextOption (o : option string)
| ShownNumberOption (o : option Z)
| ShownCode (c : ErrCode)
| ShownPart (name : string) (fields : list (string * Shown)).

Definition REDACTED : string := "<redacted>".

(** [Debug for Request]. *)
Definition debug_request (r : Request) : Shown :=
  match r with
  | Hello version => ShownPart "Hello" [("version", ShownNumber version)]
  | Register _ session n =>
      ShownPart "Register" [("token_hex", ShownText REDACTED); ("session", ShownText session); ("pid", ShownNumber n)]
  | Unregister session => ShownPart "Unregister" [("session", ShownText session)]
  | Get key _ tty ttl =>
      ShownPart "Get" [("key", ShownText key); ("token_hex", ShownText REDACTED); ("tty", ShownTextOption tty);
                       ("ttl_secs", ShownNumberOption ttl)]
  | RequestGrant key _ tty ttl =>
      ShownPart "RequestGrant" [("key", ShownText key); ("token_hex", ShownText REDACTED); ("tty", ShownTextOption tty);
                                ("ttl_secs", ShownNumberOption ttl)]
  | Authorize cap _ tty =>
      ShownPart "Authorize" [("cap", ShownText cap); ("token_hex", ShownText REDACTED); ("tty", ShownTextOption tty)]
  | Redeem _ cap => ShownPart "Redeem" [("receipt_hex", ShownText REDACTED); ("cap", ShownText cap)]
  | Request.Grants => ShownText "Grants"
  | Deny i => ShownPart "Deny" [("id", ShownNumber i)]
  | Lock => ShownText "Lock"
  | Subscribe => ShownText "Subscribe"
  end.

(** [Debug for Outcome], with [SecretBytes]'s own; a tuple's fields are
    unnamed. *)
Definition debug_outcome (o : Outcome) : Shown :=
  match o with
  | OOk => ShownText "Ok"
  | OFields fields => ShownPart "Fields" [("", ShownText fields)]
  | OPayload payload => ShownPart "Payload" [("", ShownText payload)]
  | OBytes _ => ShownPart "Bytes" [("", ShownText "SecretBytes(<redacted>)")]
  | OReceipt _ => ShownText "Receipt(<redacted>)"
  | OFailed code message => ShownPart "Failed" [("", ShownCode code); ("", ShownText message)]
  end.

Section audit.
Context {P : Type} (pid : P → option Z).

(** The session a token is registered for. *)
Definition registered (st : State (P:=P)) (token_hex : option string) : option (Registration P) :=
  token_hex ≫= λ text,
  match parse_hex text with Ok t => registration (st_registry st) t | Err _ => None end.

Definition audit_context (st : State (P:=P)) (r : Request) : AuditContext :=
  let key := match r with
             | Authorize cap _ _ => sanitize ("CAP_" +:+ map_bytes to_ascii_uppercase cap)
             | _ => match request_key r with Some key => sanitize key | None => chars "-" end
             end in
  let unattributed := {| au_key := key; au_session := None; au_root_pid := None |} in
  match r with
  | Get _ token_hex _ _ | RequestGrant _ token_hex _ _ | Authorize _ token_hex _ =>
      match registered st token_hex with
      | Some reg => {| au_key := key; au_session := Some (sanitize (session reg)); au_root_pid := pid (root reg) |}
      | None => unattributed
      end
  | Register _ session _ => {| au_key := key; au_session := Some (sanitize session); au_root_pid := None |}
  | _ => unattributed
  end.

(** [handle] once the frame is a request: the context is read before the
    request is dispatched, and the event written before the reply. *)
Definition log (st : State (P:=P)) (peer_uid peer_pid : Z) (caller : P) (r : Request) (d : Decision) : Event :=
  let audit := audit_context st r in
  {| e_key := au_key audit;
     e_source := match d_source d with Some s => sanitize s | None => chars "-" end;
     e_peer_uid := peer_uid; e_peer_pid := peer_pid; e_caller_pid := pid caller;
     e_scope_kind := d_scope_kind d; e_session := au_session audit; e_root_pid := au_root_pid audit;
     e_request_id := d_request_id d; e_decision := decision_word (d_outcome d);
     e_released := released_bytes (d_outcome d) |}.

(** * What the log may depend on *)

(** A request without its token and its receipt. *)
Definition without_secrets (r : Request) : Request :=
  match r with
  | Get key _ tty ttl => Get key None tty ttl
  | RequestGrant key _ tty ttl => RequestGrant key None tty ttl
  | Authorize cap _ tty => Authorize cap None tty
  | Register _ session n => Register "" session n
  | Redeem _ cap => Redeem "" cap
  | r => r
  end.

Definition request_token (r : Request) : option string :=
  match r with Get _ t _ _ | RequestGrant _ t _ _ | Authorize _ t _ => t | _ => None end.

Definition attribution (st : State (P:=P)) (r : Request) : option (string * option Z) :=
  (λ reg, (session reg, pid (root reg))) <$> registered st (request_token r).

(** Nor does a request printed with [Debug] show them. *)
Lemma debug_request_redacted r1 r2 :
  without_secrets r1 = without_secrets r2 ↔ debug_request r1 = debug_request r2.
Proof. split; destruct r1, r2; cbn; intros E; by simplify_eq. Qed.

(** Two outcomes print alike exactly when they are equal or differ in the bytes
    of a secret or of a receipt. *)
Lemma debug_outcome_redacted o1 o2 :
  debug_outcome o1 = debug_outcome o2 ↔
  o1 = o2 ∨ (∃ v1 v2, o1 = OBytes v1 ∧ o2 = OBytes v2) ∨ (∃ r1 r2, o1 = OReceipt r1 ∧ o2 = OReceipt r2).
Proof. split; [|naive_solver]. destruct o1, o2; cbn; intros E; simplify_eq; naive_solver. Qed.

(** Outcomes alike but for what they carry. *)
Definition same_shape (o1 o2 : Outcome) : Prop :=
  match o1, o2 with
  | OBytes v1, OBytes v2 => slen v1 = slen v2
  | OReceipt _, OReceipt _ | OPayload _, OPayload _ | OFields _, OFields _ => True
  | o1, o2 => o1 = o2
  end.

Lemma same_shape_logged o1 o2 : same_shape o1 o2 →
  decision_word o1 = decision_word o2 ∧ released_bytes o1 = released_bytes o2.
Proof. destruct o1, o2; cbn; try done; intros E; try (by rewrite E); by simplify_eq. Qed.

Lemma audit_context_attribution st1 st2 r1 r2 :
  without_secrets r1 = without_secrets r2 → attribution st1 r1 = attribution st2 r2 →
  audit_context st1 r1 = audit_context st2 r2.
Proof.
  unfold attribution. destruct r1, r2; cbn [without_secrets request_token]; intros E; simplify_eq; try done;
    cbn [audit_context request_key];
    (destruct (registered st1 _) as [reg1|], (registered st2 _) as [reg2|]); cbn; intros H; simplify_eq; try done;
    congruence.
Qed.

(** One line of the log, whatever was asked. *)
Definition one_line (s : list Z) : Prop :=
  (byte_len s ≤ MAX_AUDIT_VALUE_BYTES)%Z ∧ Forall (λ c, is_control c = false) s.

Lemma sanitize_one_line s : one_line (sanitize s).
Proof. unfold one_line, sanitize. destruct (audit_value_safe (chars s)) as (H1 & H2 & _). by split. Qed.

Lemma dash_one_line : one_line (chars "-").
Proof. split; [by vm_compute|]. repeat constructor. Qed.

Lemma audit_context_one_line st r :
  one_line (au_key (audit_context st r)) ∧ ∀ s, au_session (audit_context st r) = Some s → one_line s.
Proof.
  destruct r; cbn [audit_context request_key]; try (destruct (registered st _)); cbn [au_key au_session];
    (split; [first [apply sanitize_one_line|apply dash_one_line]|]); intros s [= <-]; apply sanitize_one_line.
Qed.

(** C19: the log tells who got what, and nothing of what they got.  Two requests
    that differ in their tokens and receipts only, answered alike but for the
    bytes of the answer, leave the same event as long as their tokens are
    registered for the same session: so no byte of a secret, a receipt or a
    token reaches the log.  Every text in it is at most 256 bytes and free of
    control characters, so no caller can forge a second line.  And a secret
    that is handed out is accounted for: the event has its length and the
    request's key. *)
Theorem log_reveals_no_secret st1 st2 uid peer caller r1 r2 d1 d2 :
  without_secrets r1 = without_secrets r2 → attribution st1 r1 = attribution st2 r2 →
  same_shape (d_outcome d1) (d_outcome d2) → d_scope_kind d1 = d_scope_kind d2 →
  d_source d1 = d_source d2 → d_request_id d1 = d_request_id d2 →
  let e := log st1 uid peer caller r1 d1 in
  e = log st2 uid peer caller r2 d2 ∧
  one_line (e_key e) ∧ one_line (e_source e) ∧ (∀ s, e_session e = Some s → one_line s) ∧
  (∀ value, d_outcome d1 = OBytes value →
     e_released e = Some (slen value) ∧ e_decision e = "ok" ∧
     reply (d_outcome d1) = format_response (ROkBytes (slen value)) +:+ value) ∧
  (∀ key, request_key r1 = Some key → e_key e = sanitize key).
Proof.
  intros Hr Ha Ho Hs Hsrc Hid e. destruct (same_shape_logged _ _ Ho) as [H1 H2].
  destruct (audit_context_one_line st1 r1) as [K1 K2]. split_and!.
  - unfold e, log. by rewrite (audit_context_attribution _ _ _ _ Hr Ha), H1, H2, Hs, Hsrc, Hid.
  - done.
  - cbn. destruct (d_source d1); [apply sanitize_one_line|apply dash_one_line].
  - done.
  - intros value E. unfold e, log. cbn. by rewrite E.
  - intros key. destruct r1; cbn; try done; intros [= ->]; by destruct (registered st1 _).
Qed.

End audit.

(** Two releases of the demo's secret under different tokens of one session:
    the log cannot tell them apart, and has the length. *)
Definition demo_granted (value : string) : Decision :=
  {| d_outcome := OBytes value; d_scope_kind := Some VerifiedSession; d_source := Some "dotfiles"; d_request_id := Some 1%Z |}.

Definition other_token_hex : string := Eval vm_compute in encode "BBBBBBBBBBBBBBBBBBBBBBBBBBBBBBBB".

Definition demo_registered (token_hex : string) : State (P:=Z) :=
  (Broker.register (State_new "abc" "boot" demo_config demo_limits) token_hex "s" 2%Z).1.

Lemma log_reveals_no_secret_witness :
  let e := log Some (demo_registered demo_token_hex) 1000 6 6%Z (Get "K" (Some demo_token_hex) None None)
             (demo_granted "s3cret") in
  e = log Some (demo_registered other_token_hex) 1000 6 6%Z (Get "K" (Some other_token_hex) None None)
        (demo_granted "hunter") ∧
  e_released e = Some 6%Z ∧ e_session e = Some (chars "s").
Proof.
  destruct (log_reveals_no_secret Some (demo_registered demo_token_hex) (demo_registered other_token_hex) 1000 6 6%Z
    (Get "K" (Some demo_token_hex) None None) (Get "K" (Some other_token_hex) None None)
    (demo_granted "s3cret") (demo_granted "hunter") eq_refl eq_refl eq_refl eq_refl eq_refl eq_refl)
    as (H1 & _ & _ & _ & H2 & _).
  split_and!; [exact H1|by apply (H2 "s3cret")|by vm_compute].
Defined.
