(* ===== verification/Lanes.v ===== *)
(** The daemon's listening socket and connection lanes
    ([crates/secrets/src/server/listener.rs] and the rest of
    [crates/secrets/src/server.rs]): where the socket comes from, the four
    bounded queues with their pools of workers, what a connection at capacity
    is told, and the identity of an instance.

    Connections are numbered by the order of nothing but their names: any
    event may name any connection that is where the event needs it. *)

From stdpp Require Import prelude strings list gmap.
From Stdlib Require Import ZArith Lia Ascii.
From S2P Require Import Prelude Text Wire Request Secret Server.

Local Open Scope string_scope.

#[global] Instance ConnectionLane_eq_dec : EqDecision ConnectionLane.
Proof. solve_decision. Defined.

(** * The listening socket *)

(** The activation variables as [std::env::var] reads them, and which of them
    exist at all. *)
Record Activation : Type := {
  listen_fds : option string;
  listen_pid : option string;
  any_present : bool;
  own_pid : Z;
}.

Definition socket_activated (a : Activation) : bool :=
  is_some_and (λ v, bool_decide (v = "1")) (listen_fds a) &&
  is_some_and (λ pid, (pid =? own_pid a)%Z) (listen_pid a ≫= parse_unsigned u32_max).

(** What the system says of descriptor 3. *)
Record Fd3 : Type := {
  fstat_mode : option Z;
  is_stream : option bool;
  accepts_conn : option bool;
  bound_path : option (option string);
  node_at : string → option node;
}.

Inductive ListenError : Type :=
| SystemError
| NotSocketFd
| NotStream
| NotListening
| NoPath
| BadNode (e : node_error)
| InvalidActivation
| CannotRemove.

Definition owner_only (n : option node) (euid : Z) : result ListenError () :=
  match assert_owner_only n euid with Ok () => Ok () | Err e => Err (BadNode e) end.

Definition validate_activated_listener (f : Fd3) (euid : Z) : result ListenError () :=
  mode ← ok_or SystemError (fstat_mode f);
  if negb (Z.land mode S_IFSOCK =? S_IFSOCK)%Z then Err NotSocketFd else
  stream ← ok_or SystemError (is_stream f);
  if negb stream then Err NotStream else
  listening ← ok_or SystemError (accepts_conn f);
  if negb listening then Err NotListening else
  address ← ok_or SystemError (bound_path f);
  path ← ok_or NoPath address;
  owner_only (node_at f path) euid.

(** The socket's own directory: what removing the old node gives ([Ok] also
    when there was none), whether it can be bound, and the node then there for
    the umask it was bound under. *)
Record Place : Type := {
  removed : bool;
  binds : bool;
  bound_node : Z → option node;
  inherited_umask : Z;
}.

(** [bind_owner_only]: the process's umask afterwards comes last. *)
Definition bind_owner_only (p : Place) (euid : Z) : result ListenError () * Z :=
  let r := if binds p then owner_only (bound_node p 127) euid else Err SystemError in
  (r, inherited_umask p).

(** The socket that is served: the activated one, or one bound here. *)
Inductive Listening : Type := ActivatedFd | BoundHere.

Definition listener (a : Activation) (f : Fd3) (p : Place) (euid : Z) : result ListenError Listening :=
  if socket_activated a then (λ _, ActivatedFd) <$> validate_activated_listener f euid
  else if any_present a then Err InvalidActivation
  else if negb (removed p) then Err CannotRemove
  else (λ _, BoundHere) <$> (bind_owner_only p euid).1.

(** * Lanes and workers *)
Definition CONNECTION_WORKERS : nat := 8.
Definition FAST_CONNECTION_WORKERS : nat := 1.
Definition CONTROL_CONNECTION_WORKERS : nat := 1.
Definition SUBSCRIPTION_CONNECTION_WORKERS : nat := 1.
Definition CONNECTION_QUEUE_DEPTH : nat := 8.
Definition FAST_CONNECTION_QUEUE_DEPTH : nat := 8.
Definition CONTROL_CONNECTION_QUEUE_DEPTH : nat := 8.
Definition SUBSCRIPTION_CONNECTION_QUEUE_DEPTH : nat := 8.

Definition workers (l : ConnectionLane) : nat :=
  match l with
  | Main => CONNECTION_WORKERS
  | Fast => FAST_CONNECTION_WORKERS
  | Control => CONTROL_CONNECTION_WORKERS
  | Subscription => SUBSCRIPTION_CONNECTION_WORKERS
  end.

Definition depth (l : ConnectionLane) : nat :=
  match l with
  | Main => CONNECTION_QUEUE_DEPTH
  | Fast => FAST_CONNECTION_QUEUE_DEPTH
  | Control => CONTROL_CONNECTION_QUEUE_DEPTH
  | Subscription => SUBSCRIPTION_CONNECTION_QUEUE_DEPTH
  end.

Definition CONNECTION_CAPACITY_RESPONSE : string :=
  "ERR" +:+ String tab ("INTERNAL" +:+ String tab ("connection capacity reached" +:+ String newline "")).

(** [reject_complete_connection]: what is taken from the socket and sent to it
    without waiting.  [received]: the frame, none yet, or an error; [sent]: how
    much of the response was taken, if any. *)
Inductive Received : Type := GotFrame | WouldBlockRead | RecvError.

Definition reject_complete_connection (received : Received) (sent : option nat) : option string * bool :=
  match received with
  | RecvError => (None, false)
  | _ => match sent with
         | None => (None, false)
         | Some n => (Some (prefix_of n CONNECTION_CAPACITY_RESPONSE),
                      bool_decide (n = String.length CONNECTION_CAPACITY_RESPONSE))
         end
  end.

(** A lane: connections that wait, in order, and those a worker handles. *)
Record Lane : Type := { waiting : list nat; handling : gset nat }.

Record Pools : Type := {
  lane_of : ConnectionLane → Lane;
  finished : list nat;
  rejected : list (nat * option ConnectionLane);
  unread : list nat;
}.

Definition idle : Lane := {| waiting := []; handling := ∅ |}.

Definition pools_start : Pools := {| lane_of := λ _, idle; finished := []; rejected := []; unread := [] |}.

Definition set_lane (f : ConnectionLane → Lane) (l : ConnectionLane) (v : Lane) : ConnectionLane → Lane :=
  λ l', if bool_decide (l = l') then v else f l'.

(** What peeking at an accepted connection shows: an error, no bytes yet, or
    the bytes that have come. *)
Inductive Peek : Type := PeekError | NothingYet | Peeked (bytes : string).

(** [ready_request_lane] on the socket: its error, or the lane if there is one. *)
Definition peek_lane (k : Peek) : option (option ConnectionLane) :=
  match k with
  | PeekError => None
  | NothingYet => Some None
  | Peeked bytes => Some (ready_request_lane bytes)
  end.

(** [Accepts]: a connection and what peeking at it shows; [Takes]: a worker of
    a lane receives the next connection; [Returns]: its [handle] returns. *)
Inductive PEvent : Type :=
| Accepts (id : nat) (k : Peek)
| Takes (l : ConnectionLane)
| Returns (l : ConnectionLane) (id : nat).

Definition route (lane : option ConnectionLane) : ConnectionLane := default Main lane.

Definition pstep (p : Pools) (e : PEvent) : option Pools :=
  match e with
  | Accepts id k =>
      match peek_lane k with
      | None =>
          Some {| lane_of := lane_of p; finished := finished p; rejected := rejected p; unread := (unread p ++ [id])%list |}
      | Some lane =>
          let l := route lane in
          let q := lane_of p l in
          if (length (waiting q) <? depth l)%nat
          then Some {| lane_of := set_lane (lane_of p) l {| waiting := (waiting q ++ [id])%list; handling := handling q |};
                       finished := finished p; rejected := rejected p; unread := unread p |}
          else Some {| lane_of := lane_of p; finished := finished p; rejected := (rejected p ++ [(id, lane)])%list;
                       unread := unread p |}
      end
  | Takes l =>
      match waiting (lane_of p l) with
      | id :: rest =>
          if (size (handling (lane_of p l)) <? workers l)%nat
          then Some {| lane_of := set_lane (lane_of p) l {| waiting := rest; handling := handling (lane_of p l) ∪ {[id]} |};
                       finished := finished p; rejected := rejected p; unread := unread p |}
          else None
      | [] => None
      end
  | Returns l id =>
      if bool_decide (id ∈ handling (lane_of p l))
      then Some {| lane_of := set_lane (lane_of p) l
                     {| waiting := waiting (lane_of p l); handling := handling (lane_of p l) ∖ {[id]} |};
                   finished := (finished p ++ [id])%list; rejected := rejected p; unread := unread p |}
      else None
  end.

Fixpoint prun (p : Pools) (events : list PEvent) : option Pools :=
  match events with
  | [] => Some p
  | e :: rest => p' ← pstep p e; prun p' rest
  end.

(** * The instance *)

(** [random_instance_id], from the bytes read. *)
Definition random_instance_id (bytes : option string) : option string := encode <$> bytes.

(** * Lemmas *)
Lemma set_lane_eq f l v : set_lane f l v l = v.
Proof. unfold set_lane. by rewrite bool_decide_eq_true_2. Qed.

Lemma set_lane_ne f l l' v : l ≠ l' → set_lane f l v l' = f l'.
Proof. intros H. unfold set_lane. by rewrite bool_decide_eq_false_2. Qed.

(** The socket that is served is a listening stream socket of the owner
    alone, wherever it came from; and half an activation is refused. *)
Lemma listener_private a f p euid l : listener a f p euid = Ok l →
  match l with
  | ActivatedFd => ∃ path, bound_path f = Some (Some path) ∧ assert_owner_only (node_at f path) euid = Ok () ∧
                     is_stream f = Some true ∧ accepts_conn f = Some true
  | BoundHere => any_present a = false ∧ assert_owner_only (bound_node p 127) euid = Ok ()
  end.
Proof.
  unfold listener. destruct (socket_activated a).
  - unfold validate_activated_listener, owner_only. destruct (fstat_mode f); [|done]. cbn [ok_or mbind result_bind].
    destruct (negb _); [done|]. destruct (is_stream f) as [[]|]; try done. cbn [ok_or mbind result_bind negb].
    destruct (accepts_conn f) as [[]|]; try done. cbn [ok_or mbind result_bind negb].
    destruct (bound_path f) as [[path|]|]; try done. cbn [ok_or mbind result_bind].
    destruct (assert_owner_only (node_at f path) euid) as [[]|] eqn:E; [|done]. intros [= <-]. by exists path.
  - destruct (any_present a); [done|]. destruct (removed p); [|done]. cbn [negb]. unfold bind_owner_only, owner_only.
    destruct (binds p); [|done]. cbn [fst]. by destruct (assert_owner_only (bound_node p 127) euid) as [[]|]; [intros [= <-]|].
Qed.

(** Events that concern a lane. *)
Definition concerns (l : ConnectionLane) (e : PEvent) : bool :=
  match e with
  | Accepts _ k => is_some_and (λ lane, bool_decide (route lane = l)) (peek_lane k)
  | Takes l' | Returns l' _ => bool_decide (l' = l)
  end.

Definition lane_ok (p : Pools) : Prop := ∀ l,
  (length (waiting (lane_of p l)) <= depth l)%nat ∧ (size (handling (lane_of p l)) <= workers l)%nat.

Lemma pstep_ok p e p' : lane_ok p → pstep p e = Some p' → lane_ok p'.
Proof.
  intros Hp. destruct e as [id k|l|l id]; cbn [pstep]; [destruct (peek_lane k) as [lane|]|..].
  - destruct (Nat.ltb_spec (length (waiting (lane_of p (route lane)))) (depth (route lane))); intros [= <-]; [|done].
    intros l. cbn [lane_of]. destruct (decide (route lane = l)) as [<-|Hl]; [|by rewrite set_lane_ne].
    rewrite set_lane_eq. cbn [waiting handling]. rewrite length_app. cbn. specialize (Hp (route lane)). lia.
  - by intros [= <-].
  - destruct (waiting (lane_of p l)) as [|id rest] eqn:E; [done|].
    destruct (Nat.ltb_spec (size (handling (lane_of p l))) (workers l)); [|done]. intros [= <-].
    intros l'. cbn [lane_of]. destruct (decide (l = l')) as [<-|Hl]; [|by rewrite set_lane_ne].
    rewrite set_lane_eq. cbn [waiting handling]. specialize (Hp l) as [H1 H2]. rewrite E in H1. cbn in H1. split; [lia|].
    destruct (decide (id ∈ handling (lane_of p l))) as [Hi|Hi].
    + replace (handling (lane_of p l) ∪ {[id]}) with (handling (lane_of p l)) by set_solver. lia.
    + rewrite size_union, size_singleton by set_solver. lia.
  - case_bool_decide as Hi; [|done]. intros [= <-]. intros l'. cbn [lane_of].
    destruct (decide (l = l')) as [<-|Hl]; [|by rewrite set_lane_ne]. rewrite set_lane_eq. cbn [waiting handling].
    specialize (Hp l) as [H1 H2]. split; [done|]. rewrite size_difference by set_solver. lia.
Qed.

(** A step that does not concern a lane leaves it; one that does depends on
    it alone. *)
Lemma pstep_other p e p' l : concerns l e = false → pstep p e = Some p' → lane_of p' l = lane_of p l.
Proof.
  destruct e as [id k|l'|l' id]; cbn [concerns pstep]; intros Hc; [destruct (peek_lane k) as [lane|]; cbn [is_some_and] in Hc|..].
  - apply bool_decide_eq_false in Hc. destruct (_ <? _)%nat; intros [= <-]; [|done]. by apply set_lane_ne.
  - by intros [= <-].
  - apply bool_decide_eq_false in Hc. destruct (waiting (lane_of p l')); [done|]. destruct (_ <? _)%nat; [|done].
    intros [= <-]. by apply set_lane_ne.
  - apply bool_decide_eq_false in Hc. case_bool_decide; [|done]. intros [= <-]. by apply set_lane_ne.
Qed.

Lemma pstep_same p q e l p' : concerns l e = true → lane_of p l = lane_of q l → pstep p e = Some p' →
  ∃ q', pstep q e = Some q' ∧ lane_of p' l = lane_of q' l.
Proof.
  destruct e as [id k|l'|l' id]; cbn [concerns pstep]; intros Hc Hpq;
    [destruct (peek_lane k) as [lane|]; [cbn [is_some_and] in Hc|done]|..];
    apply bool_decide_eq_true in Hc; subst; rewrite Hpq.
  - destruct (_ <? _)%nat; intros [= <-]; (eexists; split; [done|]); cbn [lane_of]; [by rewrite !set_lane_eq|done].
  - destruct (waiting (lane_of q l)); [done|]. destruct (_ <? _)%nat; [|done]. intros [= <-].
    eexists. split; [done|]. cbn [lane_of]. by rewrite !set_lane_eq.
  - case_bool_decide; [|done]. intros [= <-]. eexists. split; [done|]. cbn [lane_of]. by rewrite !set_lane_eq.
Qed.

Lemma prun_lane p q events l p' : lane_of p l = lane_of q l → prun p events = Some p' →
  ∃ q', prun q (filter (λ e, concerns l e = true) events) = Some q' ∧ lane_of p' l = lane_of q' l.
Proof.
  revert p q. induction events as [|e events IH]; intros p q Hpq; cbn [prun]; [intros [= <-]; by exists q|].
  destruct (pstep p e) as [p1|] eqn:E; [|done]. cbn [mbind option_bind]. intros Hr. rewrite filter_cons.
  case_decide as Hc.
  - destruct (pstep_same p q e l p1 Hc Hpq E) as (q1 & E1 & H1). cbn [prun]. rewrite E1. cbn [mbind option_bind]. by eapply IH.
  - eapply IH; [|done]. rewrite (pstep_other p e p1 l); [done| |done]. by destruct (concerns l e).
Qed.

Lemma prun_ok p events p' : lane_ok p → prun p events = Some p' → lane_ok p'.
Proof.
  revert p. induction events as [|e events IH]; intros p Hp; cbn [prun]; [by intros [= <-]|].
  destruct (pstep p e) as [p1|] eqn:E; [|done]. cbn [mbind option_bind]. apply IH. by eapply pstep_ok.
Qed.

(** ** What a connection asks *)

(** The request a peeked connection shows: its first line, once that is
    complete. *)
Definition asks (k : Peek) : option Request :=
  match k with
  | Peeked bytes =>
      '(line, _) ← split_at_byte newline bytes;
      if (MAX_FRAME_BYTES <? slen line)%Z then None else
      match parse_request line with Ok r => Some r | Err _ => None end
  | _ => None
  end.

Definition is_control (r : Request) : bool := match r with Lock | Deny _ => true | _ => false end.

(** The events of the humans' controls: connections that show a LOCK or a DENY,
    and what the worker for them does. *)
Definition control_event (e : PEvent) : bool :=
  match e with
  | Accepts _ k => is_some_and is_control (asks k)
  | Takes l | Returns l _ => bool_decide (l = Control)
  end.

Lemma limit_covers_line line rest : (slen line <= MAX_FRAME_BYTES)%Z →
  ∃ rest', String.substring 0 FRAME_LIMIT (line +:+ String newline rest) = line +:+ String newline rest'.
Proof.
  intros Hl. assert (∀ n (a b : string), (String.length a <= n)%nat →
    String.substring 0 n (a +:+ b) = a +:+ String.substring 0 (n - String.length a) b) as Hs.
  { clear. intros n a. revert n. induction a as [|c a IH]; intros n b Hn; [cbn; by rewrite Nat.sub_0_r|].
    destruct n as [|n]; [cbn in Hn; lia|]. rewrite !append_cons. cbn [String.substring String.length Nat.sub].
    cbn in Hn. rewrite IH by lia. done. }
  assert (String.length line < FRAME_LIMIT)%nat as Hlt.
  { unfold slen, MAX_FRAME_BYTES in Hl. unfold FRAME_LIMIT. lia. }
  rewrite Hs by lia. destruct (FRAME_LIMIT - String.length line)%nat as [|k] eqn:E; [lia|].
  exists (String.substring 0 k rest). done.
Qed.

(** A request that is shown is peeked as what it is; without one there is no
    lane. *)
Lemma asks_lane k : peek_lane k ≠ None → peek_lane k = Some (request_lane <$> asks k).
Proof.
  destruct k as [| |bytes]; [done|done|]. intros _. cbn [peek_lane asks]. f_equal. unfold ready_request_lane.
  destruct (split_at_byte newline bytes) as [[line rest]|] eqn:Es.
  - apply split_at_byte_Some in Es as (r & -> & -> & Hn). cbn [mbind option_bind].
    destruct (Z.ltb_spec MAX_FRAME_BYTES (slen line)) as [Hlong|Hshort].
    + destruct (split_at_byte newline (String.substring 0 FRAME_LIMIT _)) as [[line' rest']|] eqn:E2; [|done].
      apply split_at_byte_Some in E2 as (r' & -> & Hs & Hn').
      destruct (substring_prefix FRAME_LIMIT (line +:+ String newline r)) as (t & Hp & _). rewrite Hs in Hp.
      assert (line' = line) as ->; [|destruct (Z.ltb_spec MAX_FRAME_BYTES (slen line)); [done|lia]].
      assert (split_at_byte newline (line +:+ String newline r) = Some (line, String newline r)) as H1
        by (by apply split_at_byte_append).
      assert (split_at_byte newline (line' +:+ String newline (r' +:+ t)) = Some (line', String newline (r' +:+ t))) as H2
        by (by apply split_at_byte_append).
      rewrite Hp, <-append_assoc, append_cons, H2 in H1. by simplify_eq.
    + destruct (limit_covers_line line r Hshort) as [rest' ->]. rewrite split_at_byte_append by done.
      destruct (Z.ltb_spec MAX_FRAME_BYTES (slen line)); [lia|]. by destruct (parse_request line).
  - cbn [mbind option_bind fmap option_fmap option_map].
    destruct (split_at_byte newline (String.substring 0 FRAME_LIMIT bytes)) as [[line' rest']|] eqn:E2; [|done].
    apply split_at_byte_Some in E2 as (r' & -> & Hs & Hn').
    destruct (substring_prefix FRAME_LIMIT bytes) as (t & Hp & _). rewrite Hs in Hp.
    rewrite Hp, <-append_assoc, append_cons, split_at_byte_append in Es by done. done.
Qed.

(** The controls have the lane of that name to themselves. *)
Lemma control_concerns e : concerns Control e = control_event e.
Proof.
  destruct e as [id k|l|l id]; [|done..]. cbn [concerns control_event].
  destruct k as [| |bytes]; [done|done|]. rewrite asks_lane by done. cbn [is_some_and].
  destruct (asks (Peeked bytes)) as [[]|]; reflexivity.
Qed.

(** C18: LOCK and DENY wait for nobody else.  In any history of the daemon's
    connections, what waits in the control lane and what its worker handles is
    what it is in the history of the connections that showed a complete LOCK or
    DENY when they were accepted and of that worker alone: connections that
    wait for the human, or that have sent nothing, however many, change nothing
    for them.  When the lane is idle, such a connection is handled at once;
    otherwise the lane's worker takes the one that waits longest as soon as it is
    free.  Every lane is as independent of the others, and none holds more
    than its queue and its workers.  This is about connections whose request
    line had come when they were accepted: one whose LOCK comes later was
    queued in the main lane. *)
Theorem lanes_isolated events p :
  prun pools_start events = Some p →
  (∃ q, prun pools_start (filter (λ e, control_event e = true) events) = Some q ∧ lane_of p Control = lane_of q Control) ∧
  (∀ id k r, asks k = Some r → is_control r = true →
     waiting (lane_of p Control) = [] → handling (lane_of p Control) = ∅ →
     ∃ p1 p2, pstep p (Accepts id k) = Some p1 ∧ pstep p1 (Takes Control) = Some p2 ∧ id ∈ handling (lane_of p2 Control)) ∧
  (∀ l, (∃ q, prun pools_start (filter (λ e, concerns l e = true) events) = Some q ∧ lane_of p l = lane_of q l) ∧
     (length (waiting (lane_of p l)) <= 8)%nat ∧ (size (handling (lane_of p l)) <= workers l)%nat ∧
     ∀ id rest, waiting (lane_of p l) = id :: rest → (size (handling (lane_of p l)) < workers l)%nat →
       ∃ p', pstep p (Takes l) = Some p' ∧ id ∈ handling (lane_of p' l) ∧ waiting (lane_of p' l) = rest) ∧
  (∀ id k, peek_lane k ≠ None → asks k = None → concerns Main (Accepts id k) = true).
Proof.
  intros Hr. split_and!.
  - destruct (prun_lane pools_start pools_start events Control p eq_refl Hr) as (q & Hq & Hl). exists q. split; [|done].
    rewrite <-Hq. f_equal. apply list_filter_iff. intros e. by rewrite control_concerns.
  - intros id k r Ha Hc Hw Hh. assert (peek_lane k = Some (Some Control)) as Hk.
    { rewrite asks_lane; [|by destruct k]. rewrite Ha. by destruct r. }
    cbn [pstep]. rewrite Hk. change (route (Some Control)) with Control. rewrite Hw. eexists _, _. split; [done|].
    cbn [pstep lane_of]. rewrite set_lane_eq. cbn [waiting app handling]. rewrite Hh, size_empty.
    split; [done|]. cbn [lane_of]. rewrite set_lane_eq. cbn [handling]. set_solver.
  - intros l. split; [by eapply prun_lane|].
    assert (lane_ok p) as Hok by (eapply prun_ok; [|exact Hr]; intros l'; cbn; rewrite size_empty; lia).
    destruct (Hok l) as [H1 H2]. split_and!; [by destruct l|done|]. intros id rest Hw Hh. cbn [pstep]. rewrite Hw.
    destruct (Nat.ltb_spec (size (handling (lane_of p l))) (workers l)); [|lia]. eexists. split; [done|].
    cbn [lane_of]. rewrite set_lane_eq. cbn. split; [set_solver|done].
  - intros id k Hk Ha. cbn [concerns]. rewrite asks_lane by done. by rewrite Ha.
Qed.

(** Sixteen connections that have sent nothing, and a [LOCK]. *)
Definition demo_connections : list PEvent :=
  ((λ i, Accepts i NothingYet) <$> seq 0 8) ++ (replicate 8 (Takes Main)) ++
  ((λ i, Accepts i NothingYet) <$> seq 8 8).

Lemma lanes_isolated_witness :
  ∃ p, prun pools_start demo_connections = Some p ∧ asks (Peeked ("LOCK" +:+ String newline "")) = Some Lock ∧
    ∃ p1 p2, pstep p (Accepts 99 (Peeked ("LOCK" +:+ String newline ""))) = Some p1 ∧
      pstep p1 (Takes Control) = Some p2 ∧ 99%nat ∈ handling (lane_of p2 Control).
Proof.
  destruct (prun pools_start demo_connections) as [p|] eqn:E; [|vm_compute in E; discriminate].
  assert (Hp : p = default pools_start (prun pools_start demo_connections)) by (rewrite E; reflexivity).
  destruct (lanes_isolated demo_connections p E) as (_ & H & _).
  exists p. split; [reflexivity|]. split; [vm_compute; reflexivity|].
  apply (H 99%nat _ Lock); [vm_compute; reflexivity|reflexivity|rewrite Hp; vm_compute; reflexivity..].
Defined.

(** An instance id is 32 hexadecimal digits and names its bytes. *)
Lemma instance_id_bytes bytes : String.length bytes = 16%nat →
  ∃ id, random_instance_id (Some bytes) = Some id ∧ slen id = 32%Z ∧ decode_exact id 16 = Some bytes.
Proof.
  intros H. exists (encode bytes). split; [done|]. pose proof (decode_exact_encode bytes) as Hd.
  rewrite encode_length. unfold slen in *. rewrite H in *. split; [lia|done].
Qed.
