(* ===== verification/Peers.v ===== *)
(** Who may connect: forward's configuration of its counterparts
    ([crates/forward/src/config.rs], [config/peers.rs]) and the checks every
    listener makes ([peer.rs]).

    An address is its value, as [std::net::IpAddr] keeps it.  The parser of
    address literals ([str::parse]) is a parameter: what is shown holds for
    whatever the strings of a configuration parse to. *)

From stdpp Require Import prelude strings list.
From Stdlib Require Import ZArith Lia.
From S2P Require Import Prelude Text.

Local Open Scope string_scope.

(** * Addresses

    Four octets, or eight 16-bit segments. *)
Inductive IpAddr : Type :=
| V4 (a b c d : Z)
| V6 (s0 s1 s2 s3 s4 s5 s6 s7 : Z).

#[global] Instance IpAddr_eq_dec : EqDecision IpAddr.
Proof. solve_decision. Defined.

(** An IPv4-mapped IPv6 address is the IPv4 address it maps. *)
Definition to_canonical (ip : IpAddr) : IpAddr :=
  match ip with
  | V6 0 0 0 0 0 65535 hi lo =>
      V4 (Z.shiftr hi 8) (Z.land hi 255) (Z.shiftr lo 8) (Z.land lo 255)
  | _ => ip
  end%Z.

Definition is_loopback (ip : IpAddr) : bool :=
  match ip with
  | V4 a _ _ _ => (a =? 127)%Z
  | V6 _ _ _ _ _ _ _ _ => bool_decide (ip = V6 0 0 0 0 0 0 0 1)
  end.

Definition is_unspecified (ip : IpAddr) : bool :=
  bool_decide (ip = V4 0 0 0 0) || bool_decide (ip = V6 0 0 0 0 0 0 0 0).

Definition is_multicast (ip : IpAddr) : bool :=
  match ip with
  | V4 a _ _ _ => (224 <=? a)%Z && (a <=? 239)%Z
  | V6 s0 _ _ _ _ _ _ _ => (Z.land s0 65280 =? 65280)%Z
  end.

Definition BROADCAST : IpAddr := V4 255 255 255 255.

(** * Configuration *)
Inductive Mode : Type := Allowlist | Auto.

Record Config : Type := {
  mode : Mode;
  opener : list string;
  notifier : list string;
  clipboard : list string;
  forward_ttl_secs : Z;
  listen : string;
  peer : string;
  peers : option (list string);
  bridge_port : Z;
  relay_port : Z;
  pcsc_port : Z;
  grant_port : Z;
  pulse_port : Z;
  allow : list string;
}.

Definition default_values : Config := {|
  mode := Allowlist; opener := ["xdg-open"]; notifier := []; clipboard := [];
  forward_ttl_secs := 300; listen := "127.0.0.1"; peer := ""; peers := None;
  bridge_port := 12801; relay_port := 12803; pcsc_port := 12804;
  grant_port := 12805; pulse_port := 12806; allow := [];
|}.

(** The errors the checks below return; reading and parsing the file are not
    modelled, so [Read] and [Parse] carry nothing. *)
Inductive ConfigError : Type :=
| ReadError
| ParseError
| Address (field value : string)
| PeerRequired
| PeerConflict
| EmptyPeers
| MultiplePeers
| DaemonOnlyPeers.

#[global] Instance ConfigError_eq_dec : EqDecision ConfigError.
Proof. solve_decision. Defined.

Definition is_multi_peer (cfg : Config) : bool := is_some (peers cfg).

Definition has_peers (cfg : Config) : bool := is_some (peers cfg) || negb (is_empty (peer cfg)).

Definition peer_values (cfg : Config) : result ConfigError (string * list string) :=
  match peers cfg with
  | Some values =>
      if negb (is_empty (peer cfg)) then Err PeerConflict else
      match values with [] => Err EmptyPeers | _ => Ok ("peers", values) end
  | None => if is_empty (peer cfg) then Ok ("peer", []) else Ok ("peer", [peer cfg])
  end.

Section parser.
Context (parse : string → option IpAddr).

Definition parse_ip (field value : string) : result ConfigError IpAddr :=
  ok_or (Address field value) (parse value).

Definition listen_ip (cfg : Config) : result ConfigError IpAddr :=
  to_canonical <$> parse_ip "listen" (listen cfg).

(** The free function of [config/peers.rs] that reads one configured peer. *)
Definition peer_ip_value (field value : string) : result ConfigError IpAddr :=
  ip ← to_canonical <$> parse_ip field value;
  if is_unspecified ip || is_multicast ip || bool_decide (ip = BROADCAST)
  then Err (Address field value) else Ok ip.

Fixpoint collect_peers (field : string) (acc : list IpAddr) (values : list string) :
    result ConfigError (list IpAddr) :=
  match values with
  | [] => Ok acc
  | value :: rest =>
      ip ← peer_ip_value field value;
      collect_peers field (if bool_decide (ip ∈ acc) then acc else (acc ++ [ip])%list) rest
  end.

Definition peer_ips (cfg : Config) : result ConfigError (list IpAddr) :=
  '(field, values) ← peer_values cfg;
  collect_peers field [] values.

Fixpoint admits_loop (field : string) (remote : IpAddr) (found : bool) (values : list string) : bool :=
  match values with
  | [] => found
  | value :: rest =>
      match peer_ip_value field value with
      | Err _ => false
      | Ok ip => admits_loop field remote (found || bool_decide (ip = to_canonical remote)) rest
      end
  end.

Definition admits_peer (cfg : Config) (remote : IpAddr) : bool :=
  match peer_values cfg with
  | Err _ => false
  | Ok (field, values) => admits_loop field remote false values
  end.

Fixpoint single_loop (field : string) (seen : option IpAddr) (multiple : bool) (values : list string) :
    result ConfigError (option IpAddr * bool) :=
  match values with
  | [] => Ok (seen, multiple)
  | value :: rest =>
      ip ← peer_ip_value field value;
      single_loop field (Some ip)
        (multiple || is_some_and (λ previous, negb (bool_decide (previous = ip))) seen) rest
  end.

Definition peer_ip (cfg : Config) : result ConfigError (option IpAddr) :=
  '(field, values) ← peer_values cfg;
  '(seen, multiple) ← single_loop field None false values;
  if multiple : bool then Err MultiplePeers else Ok seen.

Definition validate (cfg : Config) : result ConfigError () :=
  ip ← listen_ip cfg;
  if is_unspecified ip then Err (Address "listen" (listen cfg)) else
  ips ← peer_ips cfg;
  if negb (is_loopback ip) && (length ips =? 0)%nat then Err PeerRequired else Ok ().

Definition validate_devbox (cfg : Config) : result ConfigError () :=
  _ ← validate cfg;
  if is_multi_peer cfg then Err DaemonOnlyPeers else Ok ().

(** * Admission *)
Definition authorized_remote (cfg : Config) (remote : IpAddr) : bool := admits_peer cfg remote.

Definition authorized (cfg : Config) (remote : IpAddr) : bool :=
  (negb (is_multi_peer cfg) && is_loopback (to_canonical remote)) || authorized_remote cfg remote.

Definition authorized_sensitive (cfg : Config) (remote local : IpAddr) : bool :=
  authorized_remote cfg remote &&
  match listen_ip cfg with
  | Ok listen => bool_decide (to_canonical listen = to_canonical local)
  | Err _ => false
  end.

(** * Lemmas on the loops *)

(** The addresses of the configured values, in order and with repetitions. *)
Fixpoint read_values (field : string) (values : list string) : result ConfigError (list IpAddr) :=
  match values with
  | [] => Ok []
  | value :: rest =>
      ip ← peer_ip_value field value;
      ips ← read_values field rest;
      Ok (ip :: ips)
  end.

(** First occurrences, after those of [acc]. *)
Fixpoint dedup_onto (acc l : list IpAddr) : list IpAddr :=
  match l with
  | [] => acc
  | ip :: rest => dedup_onto (if bool_decide (ip ∈ acc) then acc else (acc ++ [ip])%list) rest
  end.

Lemma collect_peers_read field acc values :
  collect_peers field acc values = dedup_onto acc <$> read_values field values.
Proof.
  revert acc. induction values as [|v values IH]; intros acc; simpl; [done|].
  destruct (peer_ip_value field v) as [ip|]; simpl; [|done]. rewrite IH.
  by destruct (read_values field values).
Qed.

Lemma elem_of_dedup_onto ip acc l : ip ∈ dedup_onto acc l ↔ ip ∈ acc ∨ ip ∈ l.
Proof.
  revert acc. induction l as [|x l IH]; intros acc; simpl; [set_solver|].
  rewrite IH. case_bool; set_solver.
Qed.

Lemma dedup_onto_NoDup acc l : NoDup acc → NoDup (dedup_onto acc l).
Proof.
  revert acc. induction l as [|x l IH]; intros acc H; simpl; [done|].
  apply IH. case_bool; [done|]. apply NoDup_app. split_and!; [done| |apply NoDup_singleton].
  intros y Hy ->%list_elem_of_singleton. done.
Qed.

Lemma admits_loop_read field remote found values :
  admits_loop field remote found values =
  match read_values field values with
  | Err _ => false
  | Ok ips => found || bool_decide (to_canonical remote ∈ ips)
  end.
Proof.
  revert found. induction values as [|v values IH]; intros found; cbn [admits_loop read_values].
  - by rewrite bool_decide_eq_false_2, orb_false_r by apply not_elem_of_nil.
  - destruct (peer_ip_value field v) as [ip|]; simpl; [|done]. rewrite IH.
    destruct (read_values field values) as [ips|]; simpl; [|done].
    rewrite <-orb_assoc. f_equal. rewrite <-bool_decide_or. apply bool_decide_ext. set_solver.
Qed.

(** What [single_loop] remembers of the distinct addresses seen so far. *)
Definition remembers (acc : list IpAddr) (seen : option IpAddr) (multiple : bool) : Prop :=
  match acc with
  | [] => seen = None ∧ multiple = false
  | [ip] => seen = Some ip ∧ multiple = false
  | _ => multiple = true
  end.

Lemma remembers_step acc seen multiple ip :
  remembers acc seen multiple →
  remembers (if bool_decide (ip ∈ acc) then acc else (acc ++ [ip])%list) (Some ip)
    (multiple || is_some_and (λ previous, negb (bool_decide (previous = ip))) seen).
Proof.
  destruct acc as [|x [|y acc]]; cbn [remembers].
  - intros [-> ->]. by rewrite bool_decide_eq_false_2 by apply not_elem_of_nil.
  - intros [-> ->]. simpl. rewrite (bool_decide_ext (ip ∈ [x]) (x = ip)) by set_solver.
    case_bool; [by subst|done].
  - intros ->. by case_bool.
Qed.

Lemma single_loop_collect field acc seen multiple values :
  remembers acc seen multiple →
  match collect_peers field acc values, single_loop field seen multiple values with
  | Ok ips, Ok (seen', multiple') => remembers ips seen' multiple'
  | Err e, Err e' => e = e'
  | _, _ => False
  end.
Proof.
  revert acc seen multiple. induction values as [|v values IH]; intros acc seen multiple H; simpl; [done|].
  destruct (peer_ip_value field v) as [ip|]; simpl; [|done]. apply IH. by apply remembers_step.
Qed.

(** * Properties *)

(** The check of an inbound connection, which allocates no list, admits
    exactly the addresses of the configured peer list; a configuration with
    any malformed entry admits nobody. *)
Lemma admits_peer_spec cfg remote :
  admits_peer cfg remote =
  match peer_ips cfg with
  | Ok ips => bool_decide (to_canonical remote ∈ ips)
  | Err _ => false
  end.
Proof.
  unfold admits_peer, peer_ips. destruct (peer_values cfg) as [[field values]|]; simpl; [|done].
  rewrite admits_loop_read, collect_peers_read.
  destruct (read_values field values) as [ips|]; simpl; [|done].
  apply bool_decide_ext. rewrite elem_of_dedup_onto. set_solver.
Qed.

Lemma peer_ips_NoDup cfg ips : peer_ips cfg = Ok ips → NoDup ips.
Proof.
  unfold peer_ips. destruct (peer_values cfg) as [[field values]|]; simpl; [|done].
  rewrite collect_peers_read. destruct (read_values field values) as [l|]; simpl; [|done].
  intros [= <-]. apply dedup_onto_NoDup, NoDup_nil_2.
Qed.

(** An outbound operation has a destination exactly when the configured
    peers are one address, however often and in whatever notation it is
    written; none gives no destination and two different ones an error. *)
Lemma peer_ip_spec cfg :
  peer_ip cfg =
  match peer_ips cfg with
  | Err e => Err e
  | Ok [] => Ok None
  | Ok [ip] => Ok (Some ip)
  | Ok _ => Err MultiplePeers
  end.
Proof.
  unfold peer_ip, peer_ips. destruct (peer_values cfg) as [[field values]|]; simpl; [|done].
  pose proof (single_loop_collect field [] None false values (conj eq_refl eq_refl)) as H.
  destruct (collect_peers field [] values) as [ips|], (single_loop field None false values) as [[seen m]|];
    simpl; try done; [|by subst].
  destruct ips as [|x [|y ips]]; simpl in H; [| |by subst]; by destruct H as [-> ->].
Qed.

(** A validated configuration is closed.  Its listener is bound to one
    address; unless that is loopback some peer is configured; every address a
    non-sensitive listener serves is a configured peer or, without a peer
    list, loopback; and a sensitive listener serves configured peers only. *)
Lemma validated_admission cfg remote local :
  validate cfg = Ok () →
  (∃ ip ips, listen_ip cfg = Ok ip ∧ peer_ips cfg = Ok ips ∧ is_unspecified ip = false ∧
     (is_loopback ip = true ∨ ips ≠ []) ∧
     (authorized cfg remote = true →
        to_canonical remote ∈ ips ∨ (peers cfg = None ∧ is_loopback (to_canonical remote) = true)) ∧
     (authorized_sensitive cfg remote local = true →
        to_canonical remote ∈ ips ∧ to_canonical ip = to_canonical local)).
Proof.
  unfold validate. destruct (listen_ip cfg) as [ip|] eqn:El; simpl; [|done].
  destruct (is_unspecified ip) eqn:Eu; [done|].
  destruct (peer_ips cfg) as [ips|] eqn:Ep; simpl; [|done]. intros Hv. exists ip, ips.
  pose proof (admits_peer_spec cfg remote) as Ha. rewrite Ep in Ha.
  split_and!; [done..| | |].
  - destruct (is_loopback ip); [by left|]. right. by destruct ips.
  - unfold authorized, authorized_remote. rewrite Ha. intros [H|H]%orb_true_iff.
    + right. apply andb_true_iff in H as [H1 H2]. split; [|done]. unfold is_multi_peer in H1.
      by destruct (peers cfg).
    + left. by apply bool_decide_eq_true_1 in H.
  - unfold authorized_sensitive, authorized_remote. rewrite Ha, El. intros [H1 H2]%andb_true_iff.
    by apply bool_decide_eq_true_1 in H1, H2.
Qed.

End parser.

Definition demo_parse (s : string) : option IpAddr :=
  if bool_decide (s = "100.64.0.1") then Some (V4 100 64 0 1)
  else if bool_decide (s = "100.64.0.2") then Some (V4 100 64 0 2)
  else if bool_decide (s = "::ffff:100.64.0.2") then Some (V6 0 0 0 0 0 65535 25664 2)
  else None.

Definition demo_config : Config := {|
  mode := Allowlist; opener := []; notifier := []; clipboard := [];
  forward_ttl_secs := 300; listen := "100.64.0.1"; peer := "100.64.0.2"; peers := None;
  bridge_port := 12801; relay_port := 12803; pcsc_port := 12804;
  grant_port := 12805; pulse_port := 12806; allow := [];
|}.

Lemma validated_admission_witness :
  ∃ ip ips, listen_ip demo_parse demo_config = Ok ip ∧ peer_ips demo_parse demo_config = Ok ips ∧
    is_unspecified ip = false ∧ (is_loopback ip = true ∨ ips ≠ []) ∧
    (authorized demo_parse demo_config (V6 0 0 0 0 0 65535 25664 2) = true →
       to_canonical (V6 0 0 0 0 0 65535 25664 2) ∈ ips ∨
       (peers demo_config = None ∧ is_loopback (to_canonical (V6 0 0 0 0 0 65535 25664 2)) = true)) ∧
    (authorized_sensitive demo_parse demo_config (V6 0 0 0 0 0 65535 25664 2) (V4 100 64 0 1) = true →
       to_canonical (V6 0 0 0 0 0 65535 25664 2) ∈ ips ∧ to_canonical ip = to_canonical (V4 100 64 0 1)).
Proof. apply (validated_admission demo_parse demo_config). by vm_compute. Defined.
