(* ===== verification/Bridge.v ===== *)
(** The callback bridge of [forward serve]: which devbox loopback ports a
    remote peer can reach ([crates/forward/src/bridge/]).

    - [port_policy.rs]: the ports never armed or dialled ([globally_denied]);
    - [arm_request.rs], [listener.rs]: the two request lines ([line_loop]);
    - [holder.rs]: what a holder may hand back ([dial]);
    - [limit.rs]: the concurrency limit ([acquire]);
    - [armed.rs]: leases and holders, shared by arming and bridge threads.

    [Armed]'s methods drop their locks between a look-up, a liveness peek and
    the commit, so each is a thread whose steps are the sections between two
    lock operations; a run interleaves the steps of any number of threads.
    Messages that only go to the log are abbreviated or left out. *)

From stdpp Require Import prelude strings list gmap.
From Stdlib Require Import ZArith Lia Ascii.
From S2P Require Import Prelude Text Peers.

Local Open Scope string_scope.

(** * Port policy *)
Definition CHANNEL_PORT : Z := 12800.
Definition FILES_PORT : Z := 12802.

Definition service_ports (cfg : Config) : list Z :=
  [CHANNEL_PORT; FILES_PORT; bridge_port cfg; relay_port cfg; pcsc_port cfg; grant_port cfg; pulse_port cfg].

Definition is_dynamic_port (cfg : Config) (port : Z) : bool :=
  negb (port =? 0)%Z && negb (bool_decide (port ∈ service_ports cfg)).

Definition LOWEST_CALLBACK_PORT : Z := 1024.
Definition LETHAL_DEVELOPMENT_PORTS : list Z :=
  [2345; 2375; 2376; 3306; 5432; 5678; 6379; 8001; 9229]%Z.

Definition globally_denied (cfg : Config) (port : Z) : bool :=
  (port =? 0)%Z || (port <? LOWEST_CALLBACK_PORT)%Z ||
  bool_decide (port ∈ service_ports cfg) || bool_decide (port ∈ LETHAL_DEVELOPMENT_PORTS).

Definition can_arm (cfg : Config) (port : Z) : bool := negb (globally_denied cfg port).

Definition denied_port (cfg : Config) (listener_port port : Z) : bool :=
  globally_denied cfg port || (port =? listener_port)%Z.

(** * Request lines

    A script of one-byte reads: the clock before each and what the read did. *)
Inductive byte_read : Type := Got (c : ascii) | Closed | Interrupted | ReadFailed.

Definition MAX_LINE : nat := 64.

(** The loop of [read_request] and [read_port_with_timeout]: the line without
    its newline, [Some None] where the code returns [None], and [None] when the
    script has not ended it. *)
Fixpoint line_loop (deadline : Z) (line : string) (script : list (Z * byte_read)) : option (option string) :=
  if (MAX_LINE <=? String.length line)%nat then Some None else
  match script with
  | [] => None
  | (now, read) :: rest =>
      if (Time.duration_since deadline now =? 0)%Z then Some None else
      match read with
      | Closed | ReadFailed => Some None
      | Interrupted => line_loop deadline line rest
      | Got c => if bool_decide (c = newline) then Some (Some line)
                 else line_loop deadline (line +:+ String c "") rest
      end
  end.

(** [read_line] with a timeout of [timeout], then a parser of the line. *)
Definition read_with {A} (parse : string → option A) (timeout now : Z) (script : list (Z * byte_read)) :
    option (option A) :=
  match Time.checked_add now timeout with
  | None => Some None
  | Some deadline => (λ o, o ≫= parse) <$> line_loop deadline "" script
  end.

Definition ARM_REQUEST_TIMEOUT : Z := Time.from_secs 5.
Definition REQUEST_LINE_READ_TIMEOUT : Z := Time.from_secs 10.

Definition digits_only (field : string) : bool :=
  negb (is_empty field) && all_bytes is_ascii_digit field.

(** [number] at the width of its target type. *)
Definition number (max : Z) (field : string) : option Z :=
  if digits_only field then parse_unsigned max field else None.

Inductive ArmRequest : Type :=
| Arm (port ttl : Z)
| Hold (port : Z).

Definition parse_arm_request (line : string) : option ArmRequest :=
  text ← from_utf8 line;
  match split " "%char text with
  | ["ARM"; port; ttl] => p ← number u16_max port; t ← number u64_max ttl; Some (Arm p t)
  | ["HOLD"; port] => p ← number u16_max port; Some (Hold p)
  | _ => None
  end.

Definition read_request := read_with parse_arm_request ARM_REQUEST_TIMEOUT.

Definition parse_connect (line : string) : option Z :=
  text ← from_utf8 line;
  request ← strip_prefix text "CONNECT ";
  if digits_only request then parse_unsigned u16_max request else None.

Definition read_port := read_with parse_connect REQUEST_LINE_READ_TIMEOUT.

(** What [arm_one] and [hold] write. *)
Definition arm_line (port ttl : Z) : string :=
  "ARM " +:+ to_string port +:+ " " +:+ to_string ttl +:+ String newline "".

Definition hold_line (port : Z) : string := "HOLD " +:+ to_string port +:+ String newline "".

(** What the laptop's callback relay writes. *)
Definition connect_line (port : Z) : string := "CONNECT " +:+ to_string port +:+ String newline "".

(** * The concurrency limit *)
Definition MAX_CONCURRENT_CONNECTIONS : nat := 32.

Definition acquire (active : nat) : option nat :=
  if (active =? MAX_CONCURRENT_CONNECTIONS)%nat then None else Some (S active).

(** * Dialling through a holder *)
Inductive Dial : Type :=
| DialConnected (peer : IpAddr * Z)
| DialUnreachable
| DialGone (reason : string).

(** [stream_from]: [socket] is what [fdpass::connected_stream] makes of the
    descriptor, the address it is connected to or why it is not one. *)
Definition stream_from (socket : result string (IpAddr * Z)) (port : Z) : Dial :=
  match socket with
  | Err e => DialGone e
  | Ok (ip, peer_port) =>
      if is_loopback ip && (peer_port =? port)%Z then DialConnected (ip, peer_port)
      else DialGone "sent a socket connected elsewhere, not loopback port"
  end.

Definition DIALED : ascii := "+"%char.
Definition UNREACHABLE : ascii := "-"%char.

(** [Holder::dial]; [bounded] and [written] are whether the deadlines and the
    request went through, [answer] what [fdpass::receive] returns. *)
Definition dial (port : Z) (bounded written : bool)
    (answer : result string (ascii * option (result string (IpAddr * Z)))) : Dial :=
  if negb bounded then DialGone "could not be given a deadline" else
  if negb written then DialGone "did not take the request" else
  match answer with
  | Err _ => DialGone "did not answer"
  | Ok (byte, socket) =>
      if bool_decide (byte = DIALED) then
        match socket with
        | Some s => stream_from s port
        | None => DialGone "answered + without an attached socket"
        end
      else if bool_decide (byte = UNREACHABLE) then
        match socket with
        | None => DialUnreachable
        | Some _ => DialGone "answered - with an unexpected socket"
        end
      else DialGone "answered with a byte that is not a dial reply"
  end.

(** * Leases and holders *)

(** A holder is the identity of its control connection ([Arc::ptr_eq]). *)
Record Armed : Type := { ports : gmap Z Z; holders : gmap Z nat }.

Inductive output : Type :=
| OArm (accepted : bool)
| OHeld
| OUnsafe
| OBusy
| OVanished
| OHost (port at_time : Z)
| OThrough (port : Z) (holder : nat) (peer : IpAddr * Z)
| OUnarmed
| OFailedUpstream.

Inductive thread : Type :=
| ArmLook (port deadline : Z)
| ArmPeek (port deadline : Z) (holder : nat)
| ArmRelease (port deadline : Z) (holder : nat)
| ArmCommit (port deadline : Z)
| HoldLook (port : Z) (control : nat)
| HoldPeek (port : Z) (control holder : nat)
| HoldRelease (port : Z) (control holder : nat)
| ConnectLook (port : Z)
| ConnectDial (port : Z) (holder : nat)
| ConnectRelease (port : Z) (holder : nat)
| ConnectArmed (port : Z)
| ConnectHost (port at_time : Z)
| Finished (out : output).

(** What a step observes of the world: the clock, which holders' connections
    are at rest, whether the acknowledgement was written, how a holder answers
    a dial, and whether this host's loopback port accepts. *)
Record observation : Type := {
  now : Z;
  alive : nat → bool;
  acknowledged : bool;
  answers : nat → bool * bool * result string (ascii * option (result string (IpAddr * Z)));
  host_accepts : bool;
}.

Definition release (s : Armed) (port : Z) (holder : nat) : Armed :=
  if bool_decide (holders s !! port = Some holder)
  then {| ports := ports s; holders := delete port (holders s) |} else s.

(** [is_armed]: expired leases are dropped, then the port is looked up. *)
Definition prune (s : Armed) (now : Z) : Armed :=
  {| ports := filter (λ kv, (now < kv.2)%Z) (ports s); holders := holders s |}.

Definition arm_commit (s : Armed) (port deadline : Z) : Armed :=
  {| ports := <[port := match ports s !! port with
                        | Some entry => if (entry <? deadline)%Z then deadline else entry
                        | None => deadline
                        end]> (ports s);
     holders := holders s |}.

(** One step of a thread of [arm], [hold] or [connect]. *)
Definition thread_step (o : observation) (s : Armed) (t : thread) : Armed * thread :=
  match t with
  | ArmLook port deadline =>
      (s, match holders s !! port with
          | Some holder => ArmPeek port deadline holder
          | None => ArmCommit port deadline
          end)
  | ArmPeek port deadline holder =>
      (s, if alive o holder then Finished (OArm true) else ArmRelease port deadline holder)
  | ArmRelease port deadline holder => (release s port holder, ArmCommit port deadline)
  | ArmCommit port deadline =>
      match holders s !! port with
      | Some _ => (s, ArmLook port deadline)
      | None => (arm_commit s port deadline, Finished (OArm true))
      end
  | HoldLook port control =>
      match holders s !! port with
      | Some holder => (s, HoldPeek port control holder)
      | None =>
          if acknowledged o
          then ({| ports := delete port (ports s); holders := <[port := control]> (holders s) |},
                Finished OHeld)
          else (s, Finished OVanished)
      end
  | HoldPeek port control holder =>
      (s, if alive o holder then Finished OBusy else HoldRelease port control holder)
  | HoldRelease port control holder => (release s port holder, HoldLook port control)
  | ConnectLook port =>
      (s, match holders s !! port with
          | Some holder => ConnectDial port holder
          | None => ConnectArmed port
          end)
  | ConnectDial port holder =>
      let '(bounded, written, answer) := answers o holder in
      (s, match dial port bounded written answer with
          | DialConnected peer => Finished (OThrough port holder peer)
          | DialUnreachable => Finished OFailedUpstream
          | DialGone _ => ConnectRelease port holder
          end)
  | ConnectRelease port holder => (release s port holder, Finished OFailedUpstream)
  | ConnectArmed port =>
      let s' := prune s (now o) in
      (s', if is_some (ports s' !! port) then ConnectHost port (now o) else Finished OUnarmed)
  | ConnectHost port at_time =>
      (s, Finished (if host_accepts o then OHost port at_time else OFailedUpstream))
  | Finished out => (s, Finished out)
  end.

(** The entries of [arm] and [hold]. *)
Definition arm_start (cfg : Config) (now port ttl : Z) : thread :=
  if negb (can_arm cfg port) then Finished (OArm false) else
  match Time.checked_add now (Time.from_secs ttl) with
  | None => Finished (OArm false)
  | Some deadline => ArmLook port deadline
  end.

Definition hold_start (cfg : Config) (port : Z) (control : nat) : thread :=
  if negb (can_arm cfg port) then Finished OUnsafe else HoldLook port control.

(** * Bridge connections *)
Inductive bridge_answer : Type :=
| RefusedPeer
| RefusedGeneric
| RefusedDenied
| Dials (port : Z).

(** [listener.rs]'s [handle] up to [connect]; [remote] is the peer address. *)
Definition handle (parse : string → option IpAddr) (cfg : Config) (listener_port : Z)
    (remote : option IpAddr) (requested : option Z) : bridge_answer :=
  match remote with
  | None => RefusedGeneric
  | Some ip =>
      if negb (authorized parse cfg ip) then RefusedPeer else
      match requested with
      | None => RefusedGeneric
      | Some port => if denied_port cfg listener_port port then RefusedDenied else Dials port
      end
  end.

(** * Runs *)
Inductive event : Type :=
| EArm (at_time port ttl : Z)
| EHold (port : Z) (control : nat)
| EConnect (remote : option IpAddr) (requested : option Z)
| ERun (index : nat) (o : observation).

Record bridge : Type := { shared : Armed; threads : list thread }.

Definition bridge_new : bridge := {| shared := {| ports := ∅; holders := ∅ |}; threads := [] |}.

Section runs.
Context (parse : string → option IpAddr) (cfg : Config) (listener_port : Z).

Definition spawn (b : bridge) (t : thread) : bridge :=
  {| shared := shared b; threads := (threads b ++ [t])%list |}.

Definition bridge_step (b : bridge) (e : event) : bridge :=
  match e with
  | EArm at_time port ttl => spawn b (arm_start cfg at_time port ttl)
  | EHold port control => spawn b (hold_start cfg port control)
  | EConnect remote requested =>
      match handle parse cfg listener_port remote requested with
      | Dials port => spawn b (ConnectLook port)
      | _ => b
      end
  | ERun i o =>
      match threads b !! i with
      | None => b
      | Some t =>
          let '(s, t') := thread_step o (shared b) t in
          {| shared := s; threads := <[i := t']> (threads b) |}
      end
  end.

Definition bridge_run (l : list event) : bridge := fold_left bridge_step l bridge_new.

(** * Where routes come from

    [l] is the list of events so far. *)
Definition lease_from (l : list event) (port deadline : Z) : Prop :=
  ∃ at_time ttl, EArm at_time port ttl ∈ l ∧ can_arm cfg port = true ∧
    Time.checked_add at_time (Time.from_secs ttl) = Some deadline.

Definition held_from (l : list event) (port : Z) (control : nat) : Prop :=
  EHold port control ∈ l ∧ can_arm cfg port = true.

Definition asked_from (l : list event) (port : Z) : Prop :=
  ∃ remote, EConnect (Some remote) (Some port) ∈ l ∧
    authorized parse cfg remote = true ∧ denied_port cfg listener_port port = false.

Definition thread_ok (l : list event) (t : thread) : Prop :=
  match t with
  | ArmLook p d | ArmPeek p d _ | ArmRelease p d _ | ArmCommit p d => lease_from l p d
  | HoldLook p c | HoldPeek p c _ | HoldRelease p c _ => held_from l p c
  | ConnectLook p | ConnectArmed p | ConnectRelease p _ => asked_from l p
  | ConnectDial p h => asked_from l p ∧ held_from l p h
  | ConnectHost p t | Finished (OHost p t) => asked_from l p ∧ ∃ d, lease_from l p d ∧ (t < d)%Z
  | Finished (OThrough p h peer) =>
      asked_from l p ∧ held_from l p h ∧ is_loopback peer.1 = true ∧ peer.2 = p
  | Finished _ => True
  end.

Definition shared_ok (l : list event) (s : Armed) : Prop :=
  (∀ p d, ports s !! p = Some d → lease_from l p d) ∧
  (∀ p h, holders s !! p = Some h → held_from l p h) ∧
  (∀ p, is_Some (holders s !! p) → ports s !! p = None).

Definition bridge_ok (l : list event) (b : bridge) : Prop :=
  shared_ok l (shared b) ∧ Forall (thread_ok l) (threads b).

Section monotone.
Context (l l' : list event) (Hl : l ⊆ l').

Lemma lease_from_mono p d : lease_from l p d → lease_from l' p d.
Proof. intros (t & ttl & H & ?). exists t, ttl. auto. Qed.

Lemma held_from_mono p h : held_from l p h → held_from l' p h.
Proof. intros [??]. by split; auto. Qed.

Lemma asked_from_mono p : asked_from l p → asked_from l' p.
Proof. intros (r & H & ?). exists r. auto. Qed.

Lemma thread_ok_mono t : thread_ok l t → thread_ok l' t.
Proof.
  destruct t as [| | | | | | | | | | | |[]]; simpl;
    naive_solver eauto using lease_from_mono, held_from_mono, asked_from_mono.
Qed.

Lemma bridge_ok_mono b : bridge_ok l b → bridge_ok l' b.
Proof.
  intros [(Hp & Hh & Hx) Ht]. split; [split_and!|].
  - eauto using lease_from_mono.
  - eauto using held_from_mono.
  - done.
  - eapply Forall_impl; [done|]. apply thread_ok_mono.
Qed.

End monotone.

Lemma release_ok l s p h : shared_ok l s → shared_ok l (release s p h).
Proof.
  intros (Hp & Hh & Hx). unfold release. case_bool; [|done]. split_and!; simpl; [done| |].
  - intros p' h' [_ H]%lookup_delete_Some. by apply Hh.
  - intros p' [h' [_ H]%lookup_delete_Some]. apply Hx. by eexists.
Qed.

Lemma prune_ok l s t : shared_ok l s → shared_ok l (prune s t).
Proof.
  intros (Hp & Hh & Hx). split_and!; simpl; [|done|].
  - intros p d [H _]%map_lookup_filter_Some. by apply Hp.
  - intros p H. apply map_lookup_filter_None_2. left. by apply Hx.
Qed.

Lemma arm_commit_ok l s p d :
  lease_from l p d → holders s !! p = None → shared_ok l s → shared_ok l (arm_commit s p d).
Proof.
  intros Hd Hn (Hp & Hh & Hx). split_and!; simpl; [|done|].
  - intros p' d'. destruct (decide (p = p')) as [<-|Hne]; [|rewrite lookup_insert_ne by done; apply Hp].
    rewrite lookup_insert_eq. intros [= <-]. destruct (ports s !! p) eqn:E; [|done].
    case_bool; [done|]. by apply Hp.
  - intros p' [h' H]. destruct (decide (p = p')) as [<-|Hne]; [congruence|].
    rewrite lookup_insert_ne by done. apply Hx. by eexists.
Qed.

Lemma hold_commit_ok l s p c :
  held_from l p c → shared_ok l s →
  shared_ok l {| ports := delete p (ports s); holders := <[p := c]> (holders s) |}.
Proof.
  intros Hc (Hp & Hh & Hx). split_and!; simpl.
  - intros p' d' [_ H]%lookup_delete_Some. by apply Hp.
  - intros p' h'. destruct (decide (p = p')) as [<-|Hne].
    + rewrite lookup_insert_eq. by intros [= <-].
    + rewrite lookup_insert_ne by done. apply Hh.
  - intros p' [h' H]. destruct (decide (p = p')) as [<-|Hne]; [by rewrite lookup_delete_eq|].
    rewrite lookup_delete_ne by done. rewrite lookup_insert_ne in H by done. apply Hx. by eexists.
Qed.

Lemma dial_connected port bounded written answer peer :
  dial port bounded written answer = DialConnected peer → is_loopback peer.1 = true ∧ peer.2 = port.
Proof.
  unfold dial, stream_from. intros H. repeat case_match; simplify_eq; bool_to_prop; simpl.
  by split.
Qed.

Lemma thread_step_ok l o s t :
  shared_ok l s → thread_ok l t →
  shared_ok l (thread_step o s t).1 ∧ thread_ok l (thread_step o s t).2.
Proof.
  intros Hs Ht. pose proof Hs as (Hp & Hh & Hx).
  destruct t as [p d|p d h|p d h|p d|p c|p c h|p c h|p|p h|p h|p|p t|out]; simpl in *.
  - split; [done|]. by destruct (holders s !! p).
  - split; [done|]. by destruct (alive o h).
  - split; [by apply release_ok|done].
  - destruct (holders s !! p) eqn:E; simpl; [by split|]. split; [by apply arm_commit_ok|done].
  - destruct (holders s !! p) eqn:E; simpl; [by split|].
    destruct (acknowledged o); simpl; [|done]. split; [by apply hold_commit_ok|done].
  - split; [done|]. by destruct (alive o h).
  - split; [by apply release_ok|done].
  - split; [done|]. destruct (holders s !! p) as [h|] eqn:E; simpl; [|done]. split; [done|]. by apply Hh.
  - destruct (answers o h) as [[bounded written] answer]. simpl. split; [done|].
    destruct (dial p bounded written answer) as [peer| |] eqn:Ed; simpl; [|done|by destruct Ht].
    apply dial_connected in Ed. naive_solver.
  - split; [by apply release_ok|done].
  - split; [by apply prune_ok|].
    destruct (filter _ (ports s) !! p) as [d|] eqn:E; simpl; [|done]. split; [done|].
    apply map_lookup_filter_Some in E as [E Hd]. exists d. split; [by apply Hp|done].
  - split; [done|]. by destruct (host_accepts o).
  - done.
Qed.

Lemma start_ok l t b :
  bridge_ok l b → thread_ok l t → bridge_ok l (spawn b t).
Proof. intros [Hs Ht] H. split; [done|]. apply Forall_app. split; [done|]. by constructor. Qed.

Lemma bridge_step_ok l b e : bridge_ok l b → bridge_ok (l ++ [e]) (bridge_step b e).
Proof.
  intros Hb. apply (bridge_ok_mono l (l ++ [e])) in Hb; [|set_solver].
  destruct e as [t p ttl|p c|remote req|i o]; simpl.
  - apply start_ok; [done|]. unfold arm_start. case_bool; [done|].
    destruct (Time.checked_add _ _) as [d|] eqn:Ed; [|done]. simpl. exists t, ttl.
    split_and!; [set_solver|done|done].
  - apply start_ok; [done|]. unfold hold_start. case_bool; [done|]. split; [set_solver|done].
  - unfold handle. destruct remote as [ip|]; [|done]. case_bool; [done|].
    destruct req as [p|]; [|done]. case_bool; [done|]. apply start_ok; [done|]. exists ip.
    split_and!; [set_solver|done|done].
  - destruct Hb as [Hs Ht]. destruct (threads b !! i) as [t|] eqn:Ei; [|done].
    pose proof (thread_step_ok _ o (shared b) t Hs (Forall_lookup_1 _ _ _ _ Ht Ei)) as [H1 H2].
    destruct (thread_step o (shared b) t) as [s t']. split; [done|]. by apply Forall_insert.
Qed.

Lemma bridge_run_ok l : bridge_ok l (bridge_run l).
Proof.
  unfold bridge_run. induction l as [|e l IH] using rev_ind.
  - split; [|constructor]. split_and!; simpl.
    + by intros p d ?%lookup_empty_Some.
    + by intros p h ?%lookup_empty_Some.
    + done.
  - rewrite fold_left_app. by apply bridge_step_ok.
Qed.

(** C10: the bridge reaches only what a local process asked for.  In every
    interleaving of arming, holding and bridge threads, a connection that got
    through to a loopback port came from an authorized peer that asked for that
    port, the port is one the policy lets be armed, and either a local request
    armed it and its lease had not run out when the bridge looked, or a local
    process holds it and handed back a socket connected to that very port of
    its own loopback. *)
Theorem bridge_reaches_only_armed l i out :
  threads (bridge_run l) !! i = Some (Finished out) →
  (∀ port at_time, out = OHost port at_time →
     asked_from l port ∧ ∃ deadline, lease_from l port deadline ∧ (at_time < deadline)%Z) ∧
  (∀ port holder peer, out = OThrough port holder peer →
     asked_from l port ∧ held_from l port holder ∧ is_loopback peer.1 = true ∧ peer.2 = port).
Proof.
  intros Hi. destruct (bridge_run_ok l) as [_ Ht].
  pose proof (Forall_lookup_1 _ _ _ _ Ht Hi) as H.
  split; intros; subst out; exact H.
Qed.

(** C11: a held port has one route.  No interleaving leaves a lease under a
    held port, so that when its holder dies nothing reaches the host's own
    port of that number; and only ports the policy allows are ever leased or
    held. *)
Theorem held_port_has_one_route l port :
  let s := shared (bridge_run l) in
  (is_Some (holders s !! port) → ports s !! port = None) ∧
  (is_Some (holders s !! port) ∨ is_Some (ports s !! port) → can_arm cfg port = true).
Proof.
  destruct (bridge_run_ok l) as [(Hp & Hh & Hx) _]. split; [apply Hx|].
  intros [[h H]|[d H]]; [by apply Hh in H as [_ H]|by apply Hp in H as (? & ? & _ & H & _)].
Qed.

(** * A live holder is never displaced *)
Definition releasing (port : Z) (holder : nat) (t : thread) : Prop :=
  match t with
  | ArmRelease p _ h | HoldRelease p _ h | ConnectRelease p h => p = port ∧ h = holder
  | _ => False
  end.

Definition observes_live (port : Z) (holder : nat) (e : event) : Prop :=
  match e with
  | ERun _ o =>
      alive o holder = true ∧
      match answers o holder with
      | (bounded, written, answer) => ∀ reason, dial port bounded written answer ≠ DialGone reason
      end
  | _ => True
  end.

Definition keeps (port : Z) (holder : nat) (b : bridge) : Prop :=
  holders (shared b) !! port = Some holder ∧ Forall (λ t, ¬ releasing port holder t) (threads b).

Lemma release_keeps s p h port holder :
  holders s !! port = Some holder → ¬ (p = port ∧ h = holder) →
  holders (release s p h) !! port = Some holder.
Proof.
  intros H Hne. unfold release. case_bool; [|done]. simpl.
  rewrite lookup_delete_ne; [done|]. intros ->. naive_solver.
Qed.

Lemma thread_step_keeps port holder o s t i :
  holders s !! port = Some holder → ¬ releasing port holder t → observes_live port holder (ERun i o) →
  holders (thread_step o s t).1 !! port = Some holder ∧ ¬ releasing port holder (thread_step o s t).2.
Proof.
  intros Hs Ht [Ha Hd]. destruct t as [p d|p d h|p d h|p d|p c|p c h|p c h|p|p h|p h|p|p t|out]; simpl in *.
  - split; [done|]. destruct (holders s !! p); simpl; tauto.
  - split; [done|]. destruct (alive o h) eqn:E; simpl; [tauto|]. intros [-> ->]. congruence.
  - split; [by apply release_keeps|tauto].
  - destruct (holders s !! p); simpl; by split; [|tauto].
  - destruct (holders s !! p) eqn:E; simpl; [by split; [|tauto]|].
    destruct (acknowledged o); simpl; [|by split; [|tauto]].
    split; [|tauto]. rewrite lookup_insert_ne; [done|congruence].
  - split; [done|]. destruct (alive o h) eqn:E; simpl; [tauto|]. intros [-> ->]. congruence.
  - split; [by apply release_keeps|tauto].
  - split; [done|]. destruct (holders s !! p); simpl; tauto.
  - destruct (answers o h) as [[bounded written] answer] eqn:Ea. simpl. split; [done|].
    destruct (dial p bounded written answer) eqn:Ed; simpl; [tauto|tauto|].
    intros [-> ->]. rewrite Ea in Hd. by eapply Hd.
  - split; [by apply release_keeps|tauto].
  - split; [done|]. destruct (filter _ _ !! p); simpl; tauto.
  - split; [done|tauto].
  - split; [done|tauto].
Qed.

Lemma bridge_step_keeps port holder b e :
  keeps port holder b → observes_live port holder e → keeps port holder (bridge_step b e).
Proof.
  intros [Hs Ht] Ho.
  assert (∀ t, ¬ releasing port holder t → keeps port holder (spawn b t)) as Hspawn.
  { intros t H. split; [done|]. apply Forall_app. split; [done|]. by constructor. }
  destruct e as [t p ttl|p c|remote req|i o]; simpl.
  - apply Hspawn. unfold arm_start. repeat case_match; simpl; tauto.
  - apply Hspawn. unfold hold_start. case_match; simpl; tauto.
  - case_match; try done. apply Hspawn. simpl. tauto.
  - destruct (threads b !! i) as [t|] eqn:Ei; [|done].
    pose proof (thread_step_keeps port holder o (shared b) t i Hs (Forall_lookup_1 _ _ _ _ Ht Ei) Ho) as [H1 H2].
    destruct (thread_step o (shared b) t) as [s t']. split; [done|]. by apply Forall_insert.
Qed.

(** A live holder is never displaced.  While every look at the holder's
    connection finds it at rest and every dial it answers is answered within
    the protocol, it keeps its port through every interleaving. *)
Lemma live_holder_kept port holder l more :
  keeps port holder (bridge_run l) → Forall (observes_live port holder) more →
  keeps port holder (bridge_run (l ++ more)).
Proof.
  unfold bridge_run. rewrite fold_left_app. generalize (fold_left bridge_step l bridge_new) as b.
  intros b Hb Ho. revert b Hb. induction Ho as [|e more He Ho IH]; intros b Hb; simpl; [done|].
  apply IH. by apply bridge_step_keeps.
Qed.
End runs.

(** * Request lines *)

(** [delivers deadline script s]: before the deadline, the reads of [script]
    hand over the bytes of [s], with interruptions in between. *)
Inductive delivers (deadline : Z) : list (Z * byte_read) → string → Prop :=
| delivers_all rest : delivers deadline rest ""
| delivers_interrupted now rest s :
    (now < deadline)%Z → delivers deadline rest s → delivers deadline ((now, Interrupted) :: rest) s
| delivers_got now c rest s :
    (now < deadline)%Z → delivers deadline rest s → delivers deadline ((now, Got c) :: rest) (String c s).

Lemma line_loop_delivers deadline script acc line :
  delivers deadline script (line +:+ String newline "") → contains_byte newline line = false →
  (String.length acc + String.length line < MAX_LINE)%nat →
  line_loop deadline acc script = Some (Some (acc +:+ line)).
Proof.
  remember (line +:+ String newline "") as s eqn:Es. intros H. revert acc line Es.
  induction H as [rest|t rest s Ht H IH|t c rest s Ht H IH]; intros acc line Es Hl Hlen.
  - by destruct line.
  - cbn [line_loop]. destruct (Nat.leb_spec MAX_LINE (String.length acc)); [lia|].
    unfold Time.duration_since. destruct (Z.eqb_spec (Z.max (deadline - t) 0) 0); [lia|]. by apply IH.
  - cbn [line_loop]. destruct (Nat.leb_spec MAX_LINE (String.length acc)); [lia|].
    unfold Time.duration_since. destruct (Z.eqb_spec (Z.max (deadline - t) 0) 0); [lia|].
    destruct line as [|x line]; [change ("" +:+ String newline "") with (String newline "") in Es|
      rewrite append_cons in Es]; injection Es as -> Es.
    + rewrite bool_decide_eq_true_2 by done. by rewrite append_nil_r.
    + apply contains_byte_false in Hl. simpl in Hl. apply andb_true_iff in Hl as [Hx Hl].
      apply negb_true_iff in Hx. rewrite Hx.
      rewrite (IH (acc +:+ String x "") line); [|done|by apply contains_byte_false|].
      * by rewrite <-append_assoc.
      * rewrite length_append. simpl in *. lia.
Qed.

Lemma dec_digits_length fuel n acc : (String.length (dec_digits fuel n acc) <= fuel + String.length acc)%nat.
Proof.
  revert n acc. induction fuel as [|fuel IH]; intros n acc; simpl; [lia|].
  case_match; simpl; [lia|]. etrans; [apply IH|]. simpl. lia.
Qed.

Lemma to_string_length n : (String.length (to_string n) <= 20)%nat.
Proof. etrans; [apply dec_digits_length|]. simpl. lia. Qed.

Lemma digits_ascii s : all_bytes is_ascii_digit s = true → all_bytes is_ascii s = true.
Proof.
  apply all_bytes_impl. intros c. unfold is_ascii_digit, is_ascii, in_range. intros H.
  apply andb_true_iff in H as [??]. bool_to_prop. apply andb_true_iff. split; apply Z.leb_le; lia.
Qed.

Lemma digits_clean c s :
  is_ascii_digit c = false → all_bytes is_ascii_digit s = true → contains_byte c s = false.
Proof. intros. by apply (all_bytes_not_contains is_ascii_digit). Qed.

Lemma number_to_string max n : (0 <= n <= max)%Z → (max <= u64_max)%Z → number max (to_string n) = Some n.
Proof.
  intros. unfold number, digits_only.
  rewrite to_string_not_empty, to_string_digits by lia. by apply parse_unsigned_to_string.
Qed.

Lemma read_with_delivers {A} (parse : string → option A) timeout now script line :
  (now + timeout <= Time.instant_max)%Z →
  delivers (now + timeout) script (line +:+ String newline "") →
  contains_byte newline line = false → (String.length line < MAX_LINE)%nat →
  read_with parse timeout now script = Some (parse line).
Proof.
  intros Ht Hd Hl Hn. unfold read_with, Time.checked_add.
  destruct (Z.leb_spec (now + timeout) Time.instant_max); [|lia].
  by rewrite (line_loop_delivers _ _ "" line).
Qed.

Section lines.
Context (p t : Z) (Hp : (0 <= p <= u16_max)%Z) (Ht : (0 <= t <= u64_max)%Z).

Let Hdp : all_bytes is_ascii_digit (to_string p) = true.
Proof. apply to_string_digits. lia. Qed.

Let Hdt : all_bytes is_ascii_digit (to_string t) = true.
Proof. apply to_string_digits. lia. Qed.

Lemma number_port : number u16_max (to_string p) = Some p.
Proof. by apply number_to_string. Qed.

Lemma parse_arm_line : parse_arm_request ("ARM " +:+ to_string p +:+ " " +:+ to_string t) = Some (Arm p t).
Proof using Hp Ht Hdp Hdt.
  unfold parse_arm_request. rewrite from_utf8_ascii.
  2:{ rewrite !all_bytes_append. by rewrite !(digits_ascii (to_string _)) by done. }
  change ("ARM " +:+ to_string p +:+ " " +:+ to_string t)
    with ("ARM" +:+ String " " (to_string p +:+ String " " (to_string t))). cbn [mbind option_bind].
  rewrite split_append by done. rewrite split_append by by apply digits_clean.
  rewrite split_clean by by apply digits_clean.
  rewrite number_port, number_to_string by (done || lia). done.
Qed.

Lemma parse_hold_line : parse_arm_request ("HOLD " +:+ to_string p) = Some (Hold p).
Proof using Hp Hdp.
  unfold parse_arm_request. rewrite from_utf8_ascii.
  2:{ rewrite !all_bytes_append. by rewrite !(digits_ascii (to_string _)) by done. }
  change ("HOLD " +:+ to_string p) with ("HOLD" +:+ String " " (to_string p)). cbn [mbind option_bind].
  rewrite split_append by done. rewrite split_clean by by apply digits_clean.
  by rewrite number_port.
Qed.

Lemma parse_connect_line : parse_connect ("CONNECT " +:+ to_string p) = Some p.
Proof using Hp Hdp.
  unfold parse_connect. rewrite from_utf8_ascii.
  2:{ rewrite !all_bytes_append. by rewrite !(digits_ascii (to_string _)) by done. }
  cbn [mbind option_bind]. rewrite strip_prefix_append. cbn [mbind option_bind]. exact number_port.
Qed.

End lines.

(** The bridge's request lines arrive.  What [forward open], [forward
    port] and the laptop's relay write is read back by the bridge as the same
    ports and lifetime, however the bytes arrive within the time allowed and
    whatever follows the newline. *)
Lemma bridge_lines_roundtrip port ttl now arm hold connect :
  (0 <= port <= u16_max)%Z → (0 <= ttl <= u64_max)%Z →
  (now + REQUEST_LINE_READ_TIMEOUT <= Time.instant_max)%Z →
  delivers (now + ARM_REQUEST_TIMEOUT) arm (arm_line port ttl) →
  delivers (now + ARM_REQUEST_TIMEOUT) hold (hold_line port) →
  delivers (now + REQUEST_LINE_READ_TIMEOUT) connect (connect_line port) →
  read_request now arm = Some (Some (Arm port ttl)) ∧
  read_request now hold = Some (Some (Hold port)) ∧
  read_port now connect = Some (Some port).
Proof.
  intros Hp Ht Hn Ha Hh Hc. pose proof (to_string_length port). pose proof (to_string_length ttl).
  assert (contains_byte newline (to_string port) = false) as Hnp by (apply digits_clean; [done|apply to_string_digits; lia]).
  assert (contains_byte newline (to_string ttl) = false) as Hnt by (apply digits_clean; [done|apply to_string_digits; lia]).
  assert (ARM_REQUEST_TIMEOUT <= REQUEST_LINE_READ_TIMEOUT)%Z by done.
  split_and!.
  - rewrite <-(parse_arm_line port ttl) by done. apply read_with_delivers; [lia| | |].
    + unfold arm_line in Ha. by rewrite <-!append_assoc.
    + by rewrite !contains_byte_append, Hnp, Hnt.
    + rewrite !length_append. unfold MAX_LINE. simpl. lia.
  - rewrite <-(parse_hold_line port) by done. apply read_with_delivers; [lia| | |].
    + unfold hold_line in Hh. by rewrite <-!append_assoc.
    + by rewrite !contains_byte_append, Hnp.
    + rewrite !length_append. unfold MAX_LINE. simpl. lia.
  - rewrite <-(parse_connect_line port) by done. apply read_with_delivers; [lia| | |].
    + unfold connect_line in Hc. by rewrite <-!append_assoc.
    + by rewrite !contains_byte_append, Hnp.
    + rewrite !length_append. unfold MAX_LINE. simpl. lia.
Qed.

(** * One arming on its own *)
Fixpoint solo (n : nat) (o : observation) (s : Armed) (t : thread) : Armed * thread :=
  match n with
  | O => (s, t)
  | S n' => let '(s', t') := thread_step o s t in solo n' o s' t'
  end.

(** Arming ends and never shortens a lease.  Undisturbed, an arming of an
    allowed port is done after four steps and accepted: a live holder leaves
    everything as it was, otherwise the port is leased at least until the new
    deadline and at least until any deadline it already had. *)
Lemma arm_extends_lease o s port deadline :
  (solo 4 o s (ArmLook port deadline)).2 = Finished (OArm true) ∧
  let s' := (solo 4 o s (ArmLook port deadline)).1 in
  (∃ h, holders s !! port = Some h ∧ alive o h = true ∧ s' = s) ∨
  (holders s' !! port = None ∧ ∃ d, ports s' !! port = Some d ∧ (deadline <= d)%Z ∧
     ∀ old, ports s !! port = Some old → (old <= d)%Z).
Proof.
  assert (∀ s0, ports s0 = ports s → ∃ d, ports (arm_commit s0 port deadline) !! port = Some d ∧
    (deadline <= d)%Z ∧ ∀ old, ports s !! port = Some old → (old <= d)%Z) as Hc.
  { intros s0 Hs0. simpl. rewrite Hs0, lookup_insert_eq. eexists. split; [done|].
    destruct (ports s !! port) as [old|]; [case_bool|]; split; try lia; intros; simplify_eq; lia. }
  cbn [solo thread_step]. destruct (holders s !! port) as [h|] eqn:Eh; cbn [solo thread_step].
  - destruct (alive o h) eqn:Ea; cbn [solo thread_step fst snd].
    + split; [done|]. left. by exists h.
    + unfold release. rewrite bool_decide_eq_true_2 by done. cbn [holders].
      rewrite lookup_delete_eq. split; [done|]. right. cbn [fst]. split; [apply lookup_delete_eq|by apply Hc].
  - rewrite Eh. split; [done|]. right. split; [exact Eh|by apply Hc].
Qed.

(** * Examples *)
Definition no_literals (s : string) : option IpAddr := None.

Definition demo_observation (t : Z) : observation := {|
  now := t; alive := λ _, true; acknowledged := true;
  answers := λ _, (true, true, Ok (DIALED, Some (Ok (V4 127 0 0 1, 4000%Z)))); host_accepts := true;
|}.

(** Port 3000 is armed for a minute and reached; port 4000 is held by
    connection 9 and reached through it. *)
Definition demo_events : list event :=
  ([EArm 0 3000 60; EHold 4000 9] ++
   [ERun 0 (demo_observation 1); ERun 1 (demo_observation 2); ERun 0 (demo_observation 3)] ++
   [EConnect (Some (V4 127 0 0 1)) (Some 3000%Z); EConnect (Some (V4 127 0 0 1)) (Some 4000%Z)] ++
   [ERun 2 (demo_observation 4); ERun 3 (demo_observation 4); ERun 2 (demo_observation 5);
    ERun 3 (demo_observation 6); ERun 2 (demo_observation 7)])%list.

Lemma bridge_reaches_only_armed_witness :
  (asked_from no_literals default_values 12801 demo_events 3000 ∧
   ∃ deadline, lease_from default_values demo_events 3000 deadline ∧ (5 < deadline)%Z) ∧
  (asked_from no_literals default_values 12801 demo_events 4000 ∧
   held_from default_values demo_events 4000 9 ∧ is_loopback (V4 127 0 0 1) = true ∧ 4000%Z = 4000%Z).
Proof.
  split.
  - apply (bridge_reaches_only_armed no_literals default_values 12801 demo_events 2 (OHost 3000 5)); [|done].
    by vm_compute.
  - apply (bridge_reaches_only_armed no_literals default_values 12801 demo_events 3
      (OThrough 4000 9 (V4 127 0 0 1, 4000%Z))) with (peer := (V4 127 0 0 1, 4000%Z)); [|done].
    by vm_compute.
Defined.

Lemma live_holder_kept_witness :
  keeps 4000 9 (bridge_run no_literals default_values 12801
    (demo_events ++ [EArm 8 4000 5; EHold 4000 7; ERun 4 (demo_observation 8); ERun 5 (demo_observation 8);
                     ERun 4 (demo_observation 9); ERun 5 (demo_observation 9)])).
Proof.
  apply live_holder_kept.
  - split; [by vm_compute|]. vm_compute. repeat (constructor; [tauto|]). constructor.
  - repeat (constructor; [first [exact I|split; [done|by vm_compute]]|]). constructor.
Defined.

(** Every byte of a string, read one second into the request. *)
Definition at_once (s : string) : list (Z * byte_read) :=
  (λ c, (1%Z, Got c)) <$> String.list_ascii_of_string s.

Lemma at_once_delivers deadline s : (1 < deadline)%Z → delivers deadline (at_once s) s.
Proof. intros H. unfold at_once. induction s as [|c s IH]; by constructor. Qed.

Lemma bridge_lines_roundtrip_witness :
  read_request 0 (at_once (arm_line 3000 60)) = Some (Some (Arm 3000 60)) ∧
  read_request 0 (at_once (hold_line 3000)) = Some (Some (Hold 3000)) ∧
  read_port 0 (at_once (connect_line 3000)) = Some (Some 3000%Z).
Proof. apply bridge_lines_roundtrip; first [by apply at_once_delivers|by vm_compute]. Defined.
