(* ===== verification/BrowserGrants.v ===== *)
(** The registry of browser grants in [forward serve]
    ([crates/forward/src/browser/grant.rs], [grant/lifetime.rs] and
    [grant/pipes.rs]).

    A socket is a number; [closed] is the set of sockets that were shut down.
    Each operation takes all its locks before it looks and drops them after it
    changed the tables, so a run is a sequence of operations.  What ends a grant
    shuts its sockets only after it has dropped the locks, one call after the
    other: [endings] holds, for each ending, the calls it has still to make, and
    they interleave with everything else.  (Observing and invalidating the
    authority hold the authority's own lock meanwhile; that they keep insertions
    out until their calls are made is not used.)  [values()] of a
    hash map comes in some order; [map_to_list]'s stands for it, and nothing
    shown depends on it.  Zeroization is not modelled. *)

From stdpp Require Import prelude strings list gmap.
From Stdlib Require Import ZArith Lia.
From S2P Require Import Prelude Text Wire Request Containment.
Import Anchored.

Local Open Scope string_scope.
Local Open Scope list_scope.

Record Grant : Type := {
  session : string;
  anchor : AnchoredPeer;
  token : string;
  deadline : Z;
  endpoint_port : Z;
}.

Record GrantEntry : Type := { grant : Grant; control : nat }.

(** Pipes by grant: the pipe's id and its two sockets. *)
Notation PipeHandles := (list (Z * (nat * nat))) (only parsing).

Record Grants : Type := {
  grants : gmap Z GrantEntry;
  pipes : gmap Z PipeHandles;
  authority : option BrokerIdentity;
  next_id : Z;
  closed : gset nat;
  endings : list (list nat);
}.

Definition Grants_new : Grants :=
  {| grants := ∅; pipes := ∅; authority := None; next_id := 0; closed := ∅; endings := [] |}.

(** [AtomicU64::fetch_add] wraps around. *)
Definition fetch_add (n : Z) : Z := (n + 1) mod (u64_max + 1).

Definition insert (s : Grants) (g : Grant) (clone : option nat) : Grants * option Z :=
  match clone with
  | None => (s, None)
  | Some c =>
      ({| grants := <[next_id s := {| grant := g; control := c |}]> (grants s); pipes := pipes s;
          authority := authority s; next_id := fetch_add (next_id s); closed := closed s; endings := endings s |},
       Some (next_id s))
  end.

Definition insert_if_authority (s : Grants) (a : BrokerIdentity) (g : Grant) (clone : option nat) :
    Grants * option Z :=
  if bool_decide (authority s = Some a) then insert s g clone else (s, None).

(** [pipes::shutdown]: both sockets of every severed pipe, in order. *)
Definition handle_sockets (h : PipeHandles) : list nat := h ≫= (λ p, [p.2.1; p.2.2]).

Definition expire (s : Grants) (id : Z) : Grants :=
  let severed := default [] (pipes s !! id) in
  {| grants := delete id (grants s); pipes := delete id (pipes s);
     authority := authority s; next_id := next_id s; closed := closed s;
     endings := endings s ++
       [handle_sockets severed ++ match grants s !! id with Some entry => [control entry] | None => [] end] |}.

(** [drain_all], then the calls to come. *)
Definition drained_controls (s : Grants) : list nat := (λ kv, control kv.2) <$> map_to_list (grants s).

Definition drained_pipes (s : Grants) : PipeHandles :=
  (map_to_list (pipes s)) ≫= (λ kv, kv.2).

Definition revoke_all (s : Grants) : Grants :=
  {| grants := ∅; pipes := ∅; authority := authority s; next_id := next_id s; closed := closed s;
     endings := endings s ++ [handle_sockets (drained_pipes s) ++ drained_controls s] |}.

(** The next call of an ending shuts its socket down. *)
Definition shut (s : Grants) (k : nat) : Grants :=
  match endings s !! k with
  | Some (c :: rest) =>
      {| grants := grants s; pipes := pipes s; authority := authority s; next_id := next_id s;
         closed := {[c]} ∪ closed s; endings := <[k := rest]> (endings s) |}
  | _ => s
  end.

Definition set_authority (s : Grants) (a : option BrokerIdentity) : Grants :=
  {| grants := grants s; pipes := pipes s; authority := a; next_id := next_id s; closed := closed s;
     endings := endings s |}.

Definition observe_authority (s : Grants) (a : BrokerIdentity) : Grants * bool :=
  let changed := is_some_and (λ seen, negb (bool_decide (seen = a))) (authority s) in
  let s := set_authority s (Some a) in
  (if changed then revoke_all s else s, changed).

Definition invalidate_authority (s : Grants) : Grants := revoke_all (set_authority s None).

(** [live] reads, and ends an entry it finds past its deadline. *)
Definition live (s : Grants) (now id : Z) : Grants * option Grant :=
  match grants s !! id with
  | None => (s, None)
  | Some entry =>
      if (now <? deadline (grant entry))%Z then (s, Some (grant entry)) else (expire s id, None)
  end.

Definition snapshot_live (s : Grants) (now : Z) : list (string * Z) :=
  (λ e, (token (grant e), Z.max (Time.as_secs (Time.duration_since (deadline (grant e)) now)) 1))
    <$> retain (λ e, (now <? deadline (grant e))%Z) (snd <$> map_to_list (grants s)).

(** [process_start] and the process table are the kernel's. *)
Definition live_for_descendant (s : Grants) (process_start : Z → option Z)
    (lookup : Z → option Process) (now : Z) (caller : AnchoredPeer) : option (Z * Grant) :=
  if negb (bool_decide (process_start (ap_pid caller) = Some (ap_start caller))) then None else
  entry ← List.find (λ e, (now <? deadline (grant e))%Z &&
                          contains_with lookup (anchor (grant e)) (ap_pid caller))
            (snd <$> map_to_list (grants s));
  Some (endpoint_port (grant entry), grant entry).

(** [register_pipe] gives the guard [(grant_id, id)] or an error; [clones] are
    the duplicated sockets. *)
Definition register_pipe (s : Grants) (grant_id : Z) (clones : option (nat * nat)) :
    Grants * option (Z * Z) :=
  if negb (is_some (grants s !! grant_id)) then (s, None) else
  match clones with
  | None => (s, None)
  | Some handles =>
      ({| grants := grants s;
          pipes := <[grant_id := (default [] (pipes s !! grant_id) ++ [(next_id s, handles)])%list]> (pipes s);
          authority := authority s; next_id := fetch_add (next_id s); closed := closed s; endings := endings s |},
       Some (grant_id, next_id s))
  end.

(** [PipeGuard::drop]. *)
Definition drop_guard (s : Grants) (guard : Z * Z) : Grants :=
  match pipes s !! guard.1 with
  | None => s
  | Some entries =>
      {| grants := grants s;
         pipes := <[guard.1 := retain (λ e, negb (e.1 =? guard.2)%Z) entries]> (pipes s);
         authority := authority s; next_id := next_id s; closed := closed s; endings := endings s |}
  end.

(** * Runs *)
Inductive op : Type :=
| InsertIf (a : BrokerIdentity) (g : Grant) (clone : option nat)
| Observe (a : BrokerIdentity)
| Invalidate
| Live (now id : Z)
| Expire (id : Z)
| RegisterPipe (grant_id : Z) (clones : option (nat * nat))
| DropGuard (guard : Z * Z)
| Shutdown (k : nat).

Definition step (s : Grants) (o : op) : Grants :=
  match o with
  | InsertIf a g clone => (insert_if_authority s a g clone).1
  | Observe a => (observe_authority s a).1
  | Invalidate => invalidate_authority s
  | Live now id => (live s now id).1
  | Expire id => expire s id
  | RegisterPipe id clones => (register_pipe s id clones).1
  | DropGuard guard => drop_guard s guard
  | Shutdown k => shut s k
  end.

(** A whole call: the operation, then the shutdowns of the ending it began. *)
Definition call (s : Grants) (o : op) : Grants :=
  let k := length (endings s) in
  let s' := step s o in
  fold_left step (replicate (length (default [] (endings s' !! k))) (Shutdown k)) s'.

(** Every ending under way makes the calls it has left. *)
Definition settle (s : Grants) : Grants :=
  fold_left step (seq 0 (length (endings s)) ≫=
    λ k, replicate (length (default [] (endings s !! k))) (Shutdown k)) s.

Definition run (l : list op) : Grants := fold_left step l Grants_new.

(** * The registry's invariant

    Ids below [next_id] only, no grant without an authority, and a pipe only
    under a live grant.  [n] counts the ids handed out: at most one per
    operation, so the counter does not wrap within [u64_max] operations. *)
Definition registry_ok (n : nat) (s : Grants) : Prop :=
  (0 <= next_id s <= Z.of_nat n)%Z ∧
  (∀ id e, grants s !! id = Some e → (0 <= id < next_id s)%Z) ∧
  (authority s = None → grants s = ∅) ∧
  (∀ id h, pipes s !! id = Some h → is_Some (grants s !! id)).

Lemma fetch_add_small n : (0 <= n < u64_max)%Z → fetch_add n = (n + 1)%Z.
Proof. intros. unfold fetch_add. apply Z.mod_small. lia. Qed.

Lemma registry_ok_new : registry_ok 0 Grants_new.
Proof. split_and!; simpl; [lia|lia| |done|]; by intros ?? ?%lookup_empty_Some. Qed.

Lemma expire_ok n s id : registry_ok n s → registry_ok (S n) (expire s id).
Proof.
  intros (Hn & Hg & Ha & Hp). split_and!; simpl; [lia|lia| | |].
  - intros id' e [_ H]%lookup_delete_Some. eauto.
  - intros ->%Ha. apply delete_empty.
  - intros id' h [Hne H]%lookup_delete_Some. rewrite lookup_delete_ne by done. eauto.
Qed.

Lemma revoke_all_ok n s : registry_ok n s → registry_ok (S n) (revoke_all s).
Proof.
  intros (Hn & Hg & Ha & Hp). split_and!; simpl; [lia|lia| |done|]; by intros ?? ?%lookup_empty_Some.
Qed.

Lemma registry_ok_S n s : registry_ok n s → registry_ok (S n) s.
Proof. intros (Hn & H). split; [lia|done]. Qed.

Lemma insert_ok n s g clone :
  (Z.of_nat n < u64_max)%Z → authority s ≠ None → registry_ok n s → registry_ok (S n) (insert s g clone).1.
Proof.
  intros Hsmall Hauth (Hn & Hg & Ha & Hp). destruct clone as [c|]; [|by apply registry_ok_S].
  unfold insert. split_and!; simpl; try (rewrite fetch_add_small by lia); [lia|lia| |done|].
  - intros id e. destruct (decide (id = next_id s)) as [->|Hne]; [intros _; lia|].
    rewrite lookup_insert_ne by done. intros H%Hg. lia.
  - intros id h H. destruct (decide (id = next_id s)) as [->|Hne]; [rewrite lookup_insert_eq; by eexists|].
    rewrite lookup_insert_ne by done. eauto.
Qed.

Lemma register_pipe_ok n s id clones :
  (Z.of_nat n < u64_max)%Z → registry_ok n s → registry_ok (S n) (register_pipe s id clones).1.
Proof.
  intros Hsmall (Hn & Hg & Ha & Hp). unfold register_pipe.
  destruct (grants s !! id) as [e|] eqn:E; simpl; [|by apply registry_ok_S].
  destruct clones as [h|]; simpl; [|by apply registry_ok_S].
  split_and!; simpl; try (rewrite fetch_add_small by lia); [lia|lia| |done|].
  - intros id' e' H%Hg. lia.
  - intros id' h' H. destruct (decide (id = id')) as [<-|Hne]; [by eexists|].
    rewrite lookup_insert_ne in H by done. eauto.
Qed.

Lemma drop_guard_ok n s guard : registry_ok n s → registry_ok (S n) (drop_guard s guard).
Proof.
  intros (Hn & Hg & Ha & Hp). unfold drop_guard.
  destruct (pipes s !! guard.1) as [entries|] eqn:E; [|by apply registry_ok_S].
  split_and!; simpl; [lia|lia|done|done|].
  intros id' h' H. destruct (decide (guard.1 = id')) as [<-|Hne]; [eauto|].
  rewrite lookup_insert_ne in H by done. eauto.
Qed.

Lemma set_authority_ok n s a : registry_ok n s → registry_ok n (set_authority s (Some a)).
Proof. intros (Hn & Hg & Ha & Hp). split_and!; simpl; done || lia. Qed.

Lemma shut_frame s k :
  grants (shut s k) = grants s ∧ pipes (shut s k) = pipes s ∧ authority (shut s k) = authority s ∧
  next_id (shut s k) = next_id s.
Proof. unfold shut. by repeat case_match. Qed.

Lemma step_ok n s o : (Z.of_nat n < u64_max)%Z → registry_ok n s → registry_ok (S n) (step s o).
Proof.
  intros Hsmall H. destruct o as [a g clone|a| |t id|id|id clones|guard|k]; simpl.
  - unfold insert_if_authority. case_bool; [|by apply registry_ok_S]. apply insert_ok; [done|congruence|done].
  - unfold observe_authority. simpl. case_match; [by apply revoke_all_ok, set_authority_ok|].
    by apply registry_ok_S, set_authority_ok.
  - destruct H as (Hn & _). split_and!; simpl; [lia|lia| |done|]; by intros ?? ?%lookup_empty_Some.
  - unfold live. case_match; [|by apply registry_ok_S]. case_match; [by apply registry_ok_S|by apply expire_ok].
  - by apply expire_ok.
  - by apply register_pipe_ok.
  - by apply drop_guard_ok.
  - destruct (shut_frame s k) as (E1 & E2 & E3 & E4). unfold registry_ok. rewrite E1, E2, E3, E4.
    by apply registry_ok_S.
Qed.

Lemma run_ok l : (Z.of_nat (length l) <= u64_max)%Z → registry_ok (length l) (run l).
Proof.
  unfold run. induction l as [|o l IH] using rev_ind; [intros; apply registry_ok_new|].
  rewrite length_app, fold_left_app. simpl. intros Hl. rewrite Nat.add_1_r.
  apply step_ok; [lia|]. apply IH. lia.
Qed.

(** * Grants and the broker's authority *)

(** Where an entry of the registry comes from. *)
Lemma step_grants s o id e :
  (authority s = None → grants s = ∅) → grants (step s o) !! id = Some e →
  (grants s !! id = Some e ∧ authority (step s o) = authority s ∧ o ≠ Invalidate ∧
     ∀ b, o = Observe b → authority s = Some b) ∨
  (∃ a g c, o = InsertIf a g (Some c) ∧ authority s = Some a ∧ authority (step s o) = Some a ∧
     e = {| grant := g; control := c |} ∧ id = next_id s).
Proof.
  intros Ha. destruct o as [a g clone|a| |t i|i|i clones|guard|k]; simpl.
  - unfold insert_if_authority. case_bool; [|intros H; left; by split_and!].
    destruct clone as [c|]; simpl; [|intros H; left; by split_and!].
    destruct (decide (id = next_id s)) as [->|Hne].
    + rewrite lookup_insert_eq. intros [= <-]. right. by exists a, g, c.
    + rewrite lookup_insert_ne by done. intros H. left. by split_and!.
  - unfold observe_authority. destruct (authority s) as [b|] eqn:Eb; simpl.
    + case_bool; simpl; [by intros ?%lookup_empty_Some|]. intros H. left. subst b.
      split_and!; [done|done|done|]. by intros b [= ->].
    + rewrite Ha by done. by intros ?%lookup_empty_Some.
  - by intros ?%lookup_empty_Some.
  - unfold live. destruct (grants s !! i); [case_bool|]; simpl; intros H; left; [by split_and!| |by split_and!].
    apply lookup_delete_Some in H as [_ H]. by split_and!.
  - intros [_ H]%lookup_delete_Some. left. by split_and!.
  - unfold register_pipe. repeat case_match; simpl; intros; left; by split_and!.
  - unfold drop_guard. case_match; simpl; intros; left; by split_and!.
  - destruct (shut_frame s k) as (-> & _ & -> & _). intros. left. by split_and!.
Qed.

(** C9: no grant outlives the broker authority it was redeemed under.  Every
    grant in the registry was inserted under the authority that is observed
    now, and since then no other authority was observed and none was lost. *)
Theorem grants_follow_authority l id e :
  (Z.of_nat (length l) <= u64_max)%Z → grants (run l) !! id = Some e →
  ∃ pre a g c post,
    l = pre ++ InsertIf a g (Some c) :: post ∧ e = {| grant := g; control := c |} ∧
    authority (run l) = Some a ∧
    (∀ o, o ∈ post → o ≠ Invalidate ∧ ∀ b, o = Observe b → b = a).
Proof.
  induction l as [|o l IH] using rev_ind; [intros _ H; change (grants (run [])) with (∅ : gmap Z GrantEntry) in H; by apply lookup_empty_Some in H|].
  rewrite length_app. simpl. intros Hl. destruct (run_ok l) as (_ & _ & Ha & _); [lia|].
  assert (run (l ++ [o]) = step (run l) o) as -> by (unfold run; by rewrite fold_left_app).
  intros [(H & Hauth & Hni & Hobs)|(a & g & c & -> & _ & Hauth & -> & _)]%step_grants; [| |done].
  - destruct IH as (pre & a & g & c & post & -> & -> & Hcur & Hpost); [lia|done|].
    exists pre, a, g, c, (post ++ [o]). split_and!; [by rewrite <-app_assoc|done|congruence|].
    intros o' [?|Ho%list_elem_of_singleton]%elem_of_app; [by apply Hpost|]. subst o'.
    split; [done|]. intros b Hb%Hobs. congruence.
  - exists l, a, g, c, []. split_and!; [done|done|done|]. by intros o ?%not_elem_of_nil.
Qed.

(** * Every ending reaches both halves *)

(** A socket that was shut down, or that an ending under way is to shut. *)
Definition going (s : Grants) (c : nat) : Prop := c ∈ closed s ∨ ∃ cs, cs ∈ endings s ∧ c ∈ cs.

Lemma shut_head s k c rest : endings s !! k = Some (c :: rest) → c ∈ closed (shut s k).
Proof. intros E. unfold shut. rewrite E. cbn [closed]. set_solver. Qed.

Lemma shut_endings s k : endings (shut s k) = <[k := tail (default [] (endings s !! k))]> (endings s).
Proof.
  unfold shut. destruct (endings s !! k) as [[|c rest]|] eqn:E; cbn [endings default from_option id tail].
  - by rewrite list_insert_id.
  - done.
  - rewrite list_insert_ge; [done|]. by apply lookup_ge_None.
Qed.

Lemma shut_closed s k c : c ∈ closed s → c ∈ closed (shut s k).
Proof. unfold shut. repeat case_match; cbn [closed]; set_solver. Qed.

Lemma shut_going s k c : going s c → going (shut s k) c.
Proof.
  intros [H|(cs & Hcs & Hc)]; [left; by apply shut_closed|]. unfold going. rewrite shut_endings.
  apply list_elem_of_lookup in Hcs as [j Hj]. destruct (decide (k = j)) as [<-|Hne].
  - rewrite Hj. cbn [default from_option id]. destruct cs as [|d cs]; [by apply not_elem_of_nil in Hc|].
    apply elem_of_cons in Hc as [->|Hc]; [left; by eapply shut_head|right]. exists cs. split; [|done].
    apply list_elem_of_lookup. exists k. apply list_lookup_insert_eq. by eapply lookup_lt_Some.
  - right. exists cs. split; [|done]. apply list_elem_of_lookup. exists j. by rewrite list_lookup_insert_ne.
Qed.

Lemma going_same s s' c : closed s' = closed s → (∃ more, endings s' = endings s ++ more) → going s c → going s' c.
Proof.
  intros Hc [more He] [H|(cs & Hcs & Hin)]; [left; congruence|right]. exists cs. rewrite He. set_solver.
Qed.

(** An operation other than a shutdown shuts nothing and may begin an ending. *)
Lemma step_endings s o :
  (∃ k, o = Shutdown k) ∨ (closed (step s o) = closed s ∧ ∃ more, endings (step s o) = endings s ++ more).
Proof.
  destruct o as [a g clone|a| |t i|i|i clones|guard|k]; [right..|left; by exists k]; simpl.
  all: unfold insert_if_authority, insert, observe_authority, live, register_pipe, drop_guard.
  all: repeat case_match; simpl; split; try done; first [by eexists | exists []; by rewrite app_nil_r].
Qed.

Lemma step_going s o c : going s c → going (step s o) c.
Proof.
  destruct (step_endings s o) as [[k ->]|[H1 H2]]; [apply shut_going|by apply going_same].
Qed.

Lemma run_going s l c : going s c → going (fold_left step l s) c.
Proof. revert s. induction l as [|o l IH]; intros s H; simpl; [done|]. by apply IH, step_going. Qed.

Lemma step_closed s o c : c ∈ closed s → c ∈ closed (step s o).
Proof.
  intros H. destruct (step_endings s o) as [[k ->]|[-> _]]; [by apply shut_closed|done].
Qed.

Lemma run_closed s l c : c ∈ closed s → c ∈ closed (fold_left step l s).
Proof. revert s. induction l as [|o l IH]; intros s H; simpl; [done|]. by apply IH, step_closed. Qed.

(** The calls of one ending, made in a row. *)
Lemma shut_all s k n : (length (default [] (endings s !! k)) <= n)%nat →
  let s' := fold_left step (replicate n (Shutdown k)) s in
  endings s' = <[k := []]> (endings s) ∧ (∀ c, c ∈ default [] (endings s !! k) → c ∈ closed s').
Proof.
  revert s. induction n as [|n IH]; intros s Hn; simpl.
  - destruct (endings s !! k) as [[|c rest]|] eqn:E; cbn in Hn; [|lia|].
    + split; [by rewrite list_insert_id|]. intros c ?%not_elem_of_nil. done.
    + split; [|intros c ?%not_elem_of_nil; done]. rewrite list_insert_ge; [done|by apply lookup_ge_None].
  - assert (default [] (endings (shut s k) !! k) = tail (default [] (endings s !! k))) as Ht.
    { rewrite shut_endings. destruct (endings s !! k) as [cs|] eqn:E.
      - by rewrite list_lookup_insert_eq by (by eapply lookup_lt_Some).
      - rewrite list_insert_ge by (by apply lookup_ge_None). by rewrite E. }
    destruct (IH (shut s k)) as [H1 H2].
    { rewrite Ht. destruct (default [] (endings s !! k)); cbn in *; lia. }
    split; [by rewrite H1, shut_endings, list_insert_insert_eq|]. intros c Hc.
    destruct (endings s !! k) as [[|d rest]|] eqn:E; cbn [default from_option id] in Hc; try by apply not_elem_of_nil in Hc.
    apply elem_of_cons in Hc as [->|Hc]; [apply run_closed; by eapply shut_head|].
    apply H2. by rewrite Ht.
Qed.

Lemma shuts_frame s ks :
  let s' := fold_left step (Shutdown <$> ks) s in
  grants s' = grants s ∧ pipes s' = pipes s ∧ authority s' = authority s ∧ next_id s' = next_id s.
Proof.
  revert s. induction ks as [|k ks IH]; intros s; [done|]. cbn [fmap list_fmap fold_left].
  destruct (IH (step s (Shutdown k))) as (-> & -> & -> & ->). apply shut_frame.
Qed.

Lemma replicate_shutdowns n k : replicate n (Shutdown k) = Shutdown <$> replicate n k.
Proof. by rewrite fmap_replicate. Qed.

(** A whole call is its operation as far as the tables go. *)
Lemma call_frame s o :
  grants (call s o) = grants (step s o) ∧ pipes (call s o) = pipes (step s o) ∧
  authority (call s o) = authority (step s o) ∧ next_id (call s o) = next_id (step s o).
Proof. unfold call. rewrite replicate_shutdowns. apply shuts_frame. Qed.

Lemma call_grants s o : grants (call s o) = grants (step s o).
Proof. apply call_frame. Qed.

Lemma call_authority s o : authority (call s o) = authority (step s o).
Proof. apply call_frame. Qed.

Lemma call_closed s o c : c ∈ default [] (endings (step s o) !! length (endings s)) → c ∈ closed (call s o).
Proof. intros H. unfold call. by apply shut_all. Qed.

Lemma call_quiet s o : endings (step s o) = endings s → call s o = step s o.
Proof. intros E. unfold call. rewrite E. by rewrite lookup_ge_None_2. Qed.

(** Once every ending has made its calls, whatever was to be shut is. *)
Lemma settle_going s c : going s c → c ∈ closed (settle s).
Proof.
  unfold settle. intros [H|(cs & Hcs & Hc)]; [by apply run_closed|].
  apply list_elem_of_lookup in Hcs as [k Hk]. pose proof (lookup_lt_Some _ _ _ Hk) as Hlt.
  assert (∀ ks u, NoDup ks → k ∈ ks → endings u !! k = Some cs →
    c ∈ closed (fold_left step (ks ≫= λ j, replicate (length (default [] (endings s !! j))) (Shutdown j)) u)) as H.
  { induction ks as [|j ks IH]; intros u Hn Hin Hu; [by apply not_elem_of_nil in Hin|].
    apply NoDup_cons in Hn as [Hj Hn]. cbn [mbind list_bind]. rewrite fold_left_app.
    destruct (decide (j = k)) as [->|Hne].
    - apply run_closed. rewrite Hk. cbn [default from_option id].
      destruct (shut_all u k (length cs)) as [_ H]; [by rewrite Hu|]. apply H. by rewrite Hu.
    - apply IH; [done|by apply elem_of_cons in Hin as [->|]|]. rewrite <-Hu.
      generalize (length (default [] (endings s !! j))) as n. intros n. revert u Hu. clear -Hne.
      induction n as [|n IH]; intros u Hu; [done|]. cbn [replicate fold_left]. rewrite IH; cbn [step].
      + rewrite shut_endings. by rewrite list_lookup_insert_ne.
      + rewrite shut_endings. by rewrite list_lookup_insert_ne. }
  apply H; [apply NoDup_seq|apply elem_of_seq; lia|done].
Qed.

Lemma elem_of_drained_controls s id e : grants s !! id = Some e → control e ∈ drained_controls s.
Proof.
  intros H. apply list_elem_of_fmap. exists (id, e). split; [done|]. by apply elem_of_map_to_list.
Qed.

Lemma elem_of_handle_sockets h i (cl la : nat) c : (i, (cl, la)) ∈ h → c ∈ [cl; la] → c ∈ handle_sockets h.
Proof. intros H Hc. apply list_elem_of_bind. by exists (i, (cl, la)). Qed.

Lemma elem_of_drained_pipes s id h p : pipes s !! id = Some h → p ∈ h → p ∈ drained_pipes s.
Proof.
  intros H Hp. apply list_elem_of_bind. exists (id, h). split; [done|]. by apply elem_of_map_to_list.
Qed.

(** The ending a revocation begins has every grant's control channel. *)
Lemma revoke_all_going s id e : grants s !! id = Some e → going (revoke_all s) (control e).
Proof.
  intros H. right. eexists. split; [apply elem_of_app; right; by left|]. apply elem_of_app. right.
  by eapply elem_of_drained_controls.
Qed.

Lemma expire_going s id e : grants s !! id = Some e → going (expire s id) (control e).
Proof.
  intros H. right. eexists. split; [apply elem_of_app; right; by left|]. rewrite H. set_solver.
Qed.

(** An entry stays as it is or its control channel is going. *)
Lemma step_keeps_or_closes n s o id e :
  registry_ok n s → grants s !! id = Some e →
  grants (step s o) !! id = Some e ∨ going (step s o) (control e).
Proof.
  intros (_ & Hg & _) H. destruct o as [a g clone|a| |t i|i|i clones|guard|k]; simpl.
  - left. unfold insert_if_authority, insert. repeat case_match; simpl; [|done|done].
    rewrite lookup_insert_ne; [done|]. apply Hg in H. lia.
  - unfold observe_authority. simpl. case_match; [|by left]. right. by apply (revoke_all_going (set_authority s _) id).
  - right. by apply (revoke_all_going (set_authority s None) id).
  - unfold live. destruct (grants s !! i) as [e'|] eqn:Ei; [|by left]. case_match; [by left|]. simpl.
    destruct (decide (i = id)) as [->|Hne]; [right; by apply expire_going|].
    left. by rewrite lookup_delete_ne.
  - destruct (decide (i = id)) as [->|Hne]; [right; by apply expire_going|].
    left. by rewrite lookup_delete_ne.
  - left. unfold register_pipe. by repeat case_match.
  - left. unfold drop_guard. by repeat case_match.
  - left. by destruct (shut_frame s k) as (-> & _).
Qed.

Lemma fold_keeps_or_closes n s l id e :
  (Z.of_nat (n + length l) <= u64_max)%Z → registry_ok n s → grants s !! id = Some e →
  grants (fold_left step l s) !! id = Some e ∨ going (fold_left step l s) (control e).
Proof.
  revert n s. induction l as [|o l IH]; intros n s Hn Hs H; simpl in *; [by left|].
  destruct (step_keeps_or_closes n s o id e Hs H) as [H'|H']; [|right; by apply run_going].
  apply (IH (S n)); [lia|apply step_ok; [lia|done]|done].
Qed.

(** An ended grant's endpoint is told.  Whatever ends a grant, be it its
    deadline, a revocation or a changed authority, once the registry no longer
    holds it the control channel of its relay has been shut down, or is when
    the endings under way have made their calls. *)
Lemma ended_grant_closes_control pre a g c post :
  let s := run pre in
  let l := pre ++ InsertIf a g (Some c) :: post in
  (Z.of_nat (length l) <= u64_max)%Z → authority s = Some a →
  grants (run l) !! next_id s = None → c ∈ closed (settle (run l)).
Proof.
  intros s l Hl Ha. unfold l in *. rewrite length_app in Hl. simpl in Hl.
  assert (registry_ok (S (length pre)) (step s (InsertIf a g (Some c)))) as Hok.
  { apply step_ok; [lia|]. apply run_ok. lia. }
  assert (grants (step s (InsertIf a g (Some c))) !! next_id s = Some {| grant := g; control := c |}) as Hin.
  { simpl. unfold insert_if_authority. rewrite bool_decide_eq_true_2 by done. simpl. apply lookup_insert_eq. }
  assert (run (pre ++ InsertIf a g (Some c) :: post) = fold_left step post (step s (InsertIf a g (Some c)))) as ->.
  { unfold run, s. by rewrite fold_left_app. }
  intros Hnone. destruct (fold_keeps_or_closes (S (length pre)) _ post (next_id s) _ ltac:(lia) Hok Hin) as [H|H];
    [congruence|by apply settle_going].
Qed.

(** A registered pipe stays in the table, is going, or ended by itself. *)
Definition pipe_held (s : Grants) (gid pid : Z) (socks : nat * nat) : Prop :=
  ∃ h, pipes s !! gid = Some h ∧ (pid, socks) ∈ h.

Definition both_going (s : Grants) (socks : nat * nat) : Prop := going s socks.1 ∧ going s socks.2.

Lemma step_both_going s o socks : both_going s socks → both_going (step s o) socks.
Proof. intros [? ?]. split; by apply step_going. Qed.

Lemma ending_going s (calls : list nat) socks :
  (∀ c, c ∈ [socks.1; socks.2] → c ∈ calls) → calls ∈ endings s → both_going s socks.
Proof. intros H Hin. split; right; exists calls; (split; [done|]; apply H; set_solver). Qed.

Lemma expire_pipe s i gid pid socks :
  pipe_held s gid pid socks → pipe_held (expire s i) gid pid socks ∨ both_going (expire s i) socks.
Proof.
  intros (h & H & Hp). destruct socks as [cl la]. destruct (decide (i = gid)) as [->|Hne].
  - right. eapply ending_going; [|apply elem_of_app; right; by left]. intros c Hc. apply elem_of_app. left.
    rewrite H. by eapply elem_of_handle_sockets.
  - left. exists h. simpl. by rewrite lookup_delete_ne.
Qed.

Lemma revoke_pipe s gid pid socks : pipe_held s gid pid socks → both_going (revoke_all s) socks.
Proof.
  intros (h & H & Hp). destruct socks as [cl la]. eapply ending_going; [|apply elem_of_app; right; by left].
  intros c Hc. apply elem_of_app. left. eapply elem_of_handle_sockets; [|done]. by eapply elem_of_drained_pipes.
Qed.

Lemma step_pipe s o gid pid socks :
  pipe_held s gid pid socks →
  pipe_held (step s o) gid pid socks ∨ both_going (step s o) socks ∨ o = DropGuard (gid, pid).
Proof.
  intros Hh. destruct o as [a g clone|a| |t i|i|i clones|guard|k]; simpl.
  - left. unfold insert_if_authority, insert. by repeat case_match.
  - unfold observe_authority. simpl. case_match; [right; left; by apply (revoke_pipe (set_authority s (Some a)) gid pid)|by left].
  - right; left. by apply (revoke_pipe (set_authority s None) gid pid).
  - unfold live. case_match; [case_match|]; simpl; [by left| |by left].
    destruct (expire_pipe s i _ _ _ Hh); auto.
  - destruct (expire_pipe s i _ _ _ Hh); auto.
  - left. unfold register_pipe. repeat case_match; simpl; try done. destruct Hh as (h & H' & Hp).
    unfold pipe_held. simpl. destruct (decide (i = gid)) as [->|Hne].
    + rewrite lookup_insert_eq. eexists. split; [done|]. rewrite H'. simpl. set_solver.
    + rewrite lookup_insert_ne by done. by exists h.
  - destruct (decide (guard = (gid, pid))) as [->|Hg]; [by right; right|]. left.
    unfold drop_guard. destruct guard as [gi pi]. simpl. destruct (pipes s !! gi) as [entries|] eqn:E; [|done].
    destruct Hh as (h & H' & Hp). unfold pipe_held. simpl. destruct (decide (gi = gid)) as [->|Hne].
    + rewrite lookup_insert_eq. eexists. split; [done|]. apply elem_of_retain. simplify_eq.
      split; [done|]. simpl. destruct (Z.eqb_spec pid pi) as [->|]; done.
    + rewrite lookup_insert_ne by done. by exists h.
  - left. unfold pipe_held. by destruct (shut_frame s k) as (_ & -> & _).
Qed.

Lemma fold_pipe s l gid pid socks :
  pipe_held s gid pid socks →
  pipe_held (fold_left step l s) gid pid socks ∨ both_going (fold_left step l s) socks ∨
  DropGuard (gid, pid) ∈ l.
Proof.
  revert s. induction l as [|o l IH]; intros s H; simpl; [by left|].
  destruct (step_pipe s o gid pid socks H) as [H'|[[H1 H2]| -> ]].
  - destruct (IH _ H') as [?|[?|?]]; [by left|by right; left|right; right; by constructor].
  - right; left. split; by apply run_going.
  - right; right. constructor.
Qed.

(** An ended grant's sessions are cut.  A browser session established
    under a grant is registered with it; once the registry no longer holds the
    grant, both sockets of that session have been shut down when the endings
    under way have made their calls, unless the session had already ended by
    itself. *)
Lemma ended_grant_severs_pipes pre gid cl la post :
  let s := run pre in
  let l := pre ++ RegisterPipe gid (Some (cl, la)) :: post in
  (Z.of_nat (length l) <= u64_max)%Z → is_Some (grants s !! gid) →
  grants (run l) !! gid = None →
  {[cl; la]} ⊆ closed (settle (run l)) ∨ DropGuard (gid, next_id s) ∈ post.
Proof.
  intros s l Hl [e He]. unfold l in *. rewrite length_app in Hl. simpl in Hl.
  pose proof (run_ok (pre ++ RegisterPipe gid (Some (cl, la)) :: post)) as Hok.
  assert (run (pre ++ RegisterPipe gid (Some (cl, la)) :: post) =
    fold_left step post (step s (RegisterPipe gid (Some (cl, la))))) as Hrun.
  { unfold run, s. by rewrite fold_left_app. }
  rewrite Hrun in *. intros Hnone.
  assert (pipe_held (step s (RegisterPipe gid (Some (cl, la)))) gid (next_id s) (cl, la)) as Hh.
  { simpl. unfold register_pipe. rewrite He. simpl. eexists. split; [apply lookup_insert_eq|]. set_solver. }
  destruct (fold_pipe _ post _ _ _ Hh) as [(h & H & _)|[[H1 H2]|H]]; [| |by right].
  - destruct Hok as (_ & _ & _ & Hp); [rewrite length_app; simpl; lia|]. apply Hp in H as [? ?]. congruence.
  - left. intros x Hx. apply settle_going. cbn in *. set_solver.
Qed.

(** * Reading the registry *)

(** What the registry hands out is live.  [live] returns a grant only
    before its deadline and, failing that, leaves none behind under that id;
    the feed snapshot lists exactly the tokens of the live grants, each with
    at least a second; and a process finds a grant by descent only as the very
    process it claims to be, inside the subtree of a live grant's anchor. *)
Lemma registry_reads_live s now id start lookup caller :
  (∀ g, (live s now id).2 = Some g →
     (live s now id).1 = s ∧ (now < deadline g)%Z ∧ ∃ c, grants s !! id = Some {| grant := g; control := c |}) ∧
  ((live s now id).2 = None → grants (live s now id).1 !! id = None) ∧
  (∀ tok ttl, (tok, ttl) ∈ snapshot_live s now →
     (1 <= ttl)%Z ∧ ∃ i e, grants s !! i = Some e ∧ token (grant e) = tok ∧ (now < deadline (grant e))%Z) ∧
  (∀ i e, grants s !! i = Some e → (now < deadline (grant e))%Z →
     ∃ ttl, (token (grant e), ttl) ∈ snapshot_live s now) ∧
  (∀ port g, live_for_descendant s start lookup now caller = Some (port, g) →
     start (ap_pid caller) = Some (ap_start caller) ∧ (now < deadline g)%Z ∧ port = endpoint_port g ∧
     contains_with lookup (anchor g) (ap_pid caller) = true ∧ ∃ i c, grants s !! i = Some {| grant := g; control := c |}).
Proof.
  split_and!.
  - intros g. unfold live. destruct (grants s !! id) as [[g' c]|] eqn:E; simpl; [|done].
    case_bool; simpl; [|done]. intros [= ->]. split_and!; [done|done|by exists c].
  - unfold live. destruct (grants s !! id) as [[g' c]|] eqn:E; simpl; [|done].
    case_bool; simpl; [done|]. intros _. apply lookup_delete_eq.
  - intros tok ttl (e & [= -> ->] & He)%list_elem_of_fmap. apply elem_of_retain in He as [He Hd]. bool_to_prop.
    apply list_elem_of_fmap in He as ([i e'] & -> & He). apply elem_of_map_to_list in He.
    split; [lia|]. by exists i, e'.
  - intros i e He Hd. eexists. apply list_elem_of_fmap. exists e. split; [done|]. apply elem_of_retain.
    split; [|by apply Z.ltb_lt]. apply list_elem_of_fmap. exists (i, e). split; [done|]. by apply elem_of_map_to_list.
  - intros port g. unfold live_for_descendant. case_bool; [done|].
    destruct (List.find _ _) as [[g' c]|] eqn:E; simpl; [|done]. intros [= <- ->].
    apply find_Some in E as [He Hf]. apply andb_true_iff in Hf as [Hd Hc]. bool_to_prop.
    apply list_elem_of_fmap in He as ([i e'] & He' & He). simpl in He'. subst e'. apply elem_of_map_to_list in He.
    split_and!; [done|done|done|done|by exists i, c].
Qed.

(** * Examples *)
Definition demo_authority (epoch : Z) : BrokerIdentity :=
  {| bi_instance := "b"; bi_epoch := epoch; bi_socket := {| si_device := 1; si_inode := 2 |} |}.

Definition demo_grant : Grant :=
  {| session := "s"; anchor := {| ap_pid := 10; ap_start := 5 |}; token := "t"; deadline := 100; endpoint_port := 9000 |}.

Lemma grants_follow_authority_witness :
  ∃ pre a g c post,
    [Observe (demo_authority 1); InsertIf (demo_authority 1) demo_grant (Some 3); Live 5 0] =
      pre ++ InsertIf a g (Some c) :: post ∧ {| grant := demo_grant; control := 3 |} = {| grant := g; control := c |} ∧
    authority (run [Observe (demo_authority 1); InsertIf (demo_authority 1) demo_grant (Some 3); Live 5 0]) = Some a ∧
    (∀ o, o ∈ post → o ≠ Invalidate ∧ ∀ b, o = Observe b → b = a).
Proof. by apply (grants_follow_authority _ 0). Defined.

Lemma ended_grant_closes_control_witness :
  3 ∈ closed (settle (run ([Observe (demo_authority 1)] ++
    InsertIf (demo_authority 1) demo_grant (Some 3) :: [Observe (demo_authority 2)]))).
Proof. by apply ended_grant_closes_control. Defined.

Lemma ended_grant_severs_pipes_witness :
  {[4; 5]} ⊆ closed (settle (run ([Observe (demo_authority 1); InsertIf (demo_authority 1) demo_grant (Some 3)] ++
    RegisterPipe 0 (Some (4, 5)) :: [Live 100 0]))) ∨ DropGuard (0, 1)%Z ∈ [Live 100 0].
Proof.
  apply (ended_grant_severs_pipes [Observe (demo_authority 1); InsertIf (demo_authority 1) demo_grant (Some 3)]);
    [done|by eexists|done].
Defined.
