(* ===== verification/Policy.v ===== *)
(** Which URLs the laptop opens by itself, and how often
    ([crates/forward/src/policy.rs] and [ratelimit.rs]).

    A [url::Url] is what its accessors return: the host, the explicit or
    scheme-default port, the path and the whole text. *)

From stdpp Require Import prelude strings list.
From Stdlib Require Import ZArith Lia Ascii.
From S2P Require Import Prelude Text Peers.

Local Open Scope string_scope.

Record Url : Type := {
  host_str : option string;
  port_or_known_default : option Z;
  path : string;
  as_str : string;
}.

(** * The allowlist *)
Inductive Decision : Type := Open | Notify.

(** [str::find(']')] then the slices up to and after it. *)
Definition split_host_and_port (host_pattern : string) : string * option Z :=
  if starts_with host_pattern "[" then
    match split_at_byte "]"%char host_pattern with
    | None => (host_pattern, None)
    | Some (inside, rest) =>
        match strip_prefix rest "]:" with
        | None => (host_pattern, None)
        | Some port =>
            match parse_unsigned u16_max port with
            | Some p => (inside +:+ "]", Some p)
            | None => (host_pattern, None)
            end
        end
    end
  else
    match rsplit_once ":"%char host_pattern with
    | None => (host_pattern, None)
    | Some (host, port) =>
        match parse_unsigned u16_max port with
        | Some p => (host, Some p)
        | None => (host_pattern, None)
        end
    end.

Definition normalize_loopback_alias (host : string) : string :=
  if bool_decide (host = "127.0.0.1") || bool_decide (host = "[::1]") then "localhost" else host.

(** The loop over the two label iterators. *)
Fixpoint labels_match (pattern host : list string) : bool :=
  match pattern, host with
  | [], [] => true
  | p :: ps, h :: hs => (bool_decide (p = "*") || bool_decide (p = h)) && labels_match ps hs
  | _, _ => false
  end.

(** [str::trim_end_matches('/')]. *)
Fixpoint trim_end_slashes (s : string) : string :=
  match s with
  | EmptyString => EmptyString
  | String c s' =>
      match trim_end_slashes s' with
      | EmptyString => if bool_decide (c = "/"%char) then EmptyString else String c EmptyString
      | t => String c t
      end
  end.

Definition path_matches (path_prefix path : string) : bool :=
  let path_prefix := trim_end_slashes path_prefix in
  let prefix := "/" +:+ path_prefix in
  is_empty path_prefix || bool_decide (path = prefix) || starts_with path (prefix +:+ "/").

Definition allow_matches (pattern : string) (url : Url) : bool :=
  let '(host_pattern, path_prefix) :=
    match split_once "/" pattern with Some hp => hp | None => (pattern, "") end in
  let '(host_pattern, pattern_port) := split_host_and_port host_pattern in
  if is_some_and (λ port, negb (bool_decide (port_or_known_default url = Some port))) pattern_port then false else
  let host_pattern := map_bytes to_ascii_lowercase host_pattern in
  match host_str url with
  | None => false
  | Some host =>
      let host := normalize_loopback_alias (map_bytes to_ascii_lowercase host) in
      let host_pattern := normalize_loopback_alias host_pattern in
      if negb (labels_match (split "."%char host_pattern) (split "."%char host)) then false
      else path_matches path_prefix (path url)
  end.

(** The source's [decide]. *)
Definition policy_decide (cfg : Config) (url : Url) : Decision :=
  match mode cfg with
  | Auto => Open
  | Allowlist => if existsb (λ pattern, allow_matches pattern url) (allow cfg) then Open else Notify
  end.

(** * Rate limiting *)
Definition MAX_OPENS_PER_WINDOW : nat := 3.
Definition MAX_TRACKED_OPENS : nat := 64.
Definition OPEN_WINDOW : Z := Time.from_secs 2.

Inductive OpenDecision : Type := Permit | Drop (count : nat).

Record OpenedUrl : Type := { url : string; opened_at : Z; origin : option IpAddr }.

Definition same_open (u : string) (o : option IpAddr) (e : OpenedUrl) : bool :=
  bool_decide (origin e = o) && bool_decide (url e = u).

Definition recent (now : Z) (e : OpenedUrl) : bool := (Time.duration_since now (opened_at e) <? OPEN_WINDOW)%Z.

Definition record (entries : list OpenedUrl) (u : Url) (now : Z) (o : option IpAddr) :
    list OpenedUrl * OpenDecision :=
  let entries := retain (recent now) entries in
  let count := S (length (retain (same_open (as_str u) o) entries)) in
  if (MAX_OPENS_PER_WINDOW <? count)%nat then (entries, Drop count) else
  let entries := if (length entries =? MAX_TRACKED_OPENS)%nat then drop 1 entries else entries in
  ((entries ++ [{| url := as_str u; opened_at := now; origin := o |}])%list, Permit).

(** * What a pattern admits *)
Lemma labels_match_spec ps hs : labels_match ps hs = true ↔ Forall2 (λ p h, p = "*" ∨ p = h) ps hs.
Proof.
  revert hs. induction ps as [|p ps IH]; intros [|h hs]; simpl.
  - split; [constructor|done].
  - split; [done|]. by intros ?%Forall2_nil_cons_inv.
  - split; [done|]. by intros ?%Forall2_cons_nil_inv.
  - rewrite andb_true_iff, orb_true_iff, !bool_decide_eq_true, IH, Forall2_cons. done.
Qed.

Lemma starts_with_spec s p : starts_with s p = true ↔ ∃ r, s = p +:+ r.
Proof.
  unfold starts_with, is_some, is_some_and. split.
  - destruct (strip_prefix s p) as [r|] eqn:E; [|done]. intros _. exists r. by apply strip_prefix_Some.
  - intros [r ->]. by rewrite strip_prefix_append.
Qed.

Lemma path_matches_spec prefix p :
  path_matches prefix p = true ↔
  trim_end_slashes prefix = "" ∨ p = "/" +:+ trim_end_slashes prefix ∨
  ∃ rest, p = "/" +:+ trim_end_slashes prefix +:+ "/" +:+ rest.
Proof.
  unfold path_matches. rewrite !orb_true_iff, bool_decide_eq_true, starts_with_spec.
  assert (is_empty (trim_end_slashes prefix) = true ↔ trim_end_slashes prefix = "") as ->.
  { by destruct (trim_end_slashes prefix). }
  split; [intros [[?|?]|[r ->]]|intros [?|[?|[r ->]]]]; auto.
  - right; right. exists r. by rewrite <-!append_assoc.
  - right. exists r. by rewrite <-!append_assoc.
Qed.

(** What an allowlist entry lets open.  A pattern matches only URLs with
    a host that has exactly the pattern's labels up to loopback aliases and
    letter case, each label equal or under a star, so a star never spans two
    labels or none; whose port is the pattern's, where it names one; and whose
    path is the pattern's or continues it after a slash, never mid-segment. *)
Lemma allow_matches_spec pattern u :
  let '(authority, prefix) := match split_once "/" pattern with Some hp => hp | None => (pattern, "") end in
  let '(host, port) := split_host_and_port authority in
  allow_matches pattern u = true ↔
  (∀ p, port = Some p → port_or_known_default u = Some p) ∧
  (∃ h, host_str u = Some h ∧
     Forall2 (λ l l', l = "*" ∨ l = l')
       (split "."%char (normalize_loopback_alias (map_bytes to_ascii_lowercase host)))
       (split "."%char (normalize_loopback_alias (map_bytes to_ascii_lowercase h)))) ∧
  (trim_end_slashes prefix = "" ∨ path u = "/" +:+ trim_end_slashes prefix ∨
   ∃ rest, path u = "/" +:+ trim_end_slashes prefix +:+ "/" +:+ rest).
Proof.
  unfold allow_matches.
  destruct (match split_once "/" pattern with Some hp => hp | None => (pattern, "") end) as [authority prefix].
  destruct (split_host_and_port authority) as [host port].
  destruct (is_some_and _ port) eqn:Ep.
  { split; [done|]. intros (H & _). destruct port as [p|]; [|done]. simpl in Ep. bool_to_prop. by destruct Ep; apply H. }
  destruct (host_str u) as [h|].
  2:{ split; [done|]. by intros (_ & (h & ? & _) & _). }
  rewrite <-path_matches_spec. setoid_rewrite <-labels_match_spec.
  destruct (labels_match _ _) eqn:El; simpl.
  - split; [|by intros (_ & _ & ?)]. intros H. split_and!; [|by exists h|done].
    intros p ->. simpl in Ep. by bool_to_prop.
  - split; [done|]. intros (_ & (h' & [= <-] & H) & _). congruence.
Qed.

(** * What the limiter permits *)
Definition opened (u : Url) (now : Z) (o : option IpAddr) : OpenedUrl :=
  {| url := as_str u; opened_at := now; origin := o |}.

Definition request : Type := Url * Z * option IpAddr.

(** The limiter over a sequence of requests, with the permitted opens so far. *)
Definition limiter_step (st : list OpenedUrl * list OpenedUrl) (r : request) : list OpenedUrl * list OpenedUrl :=
  let '(u, now, o) := r in
  match record st.1 u now o with
  | (entries, Permit) => (entries, (st.2 ++ [opened u now o])%list)
  | (entries, Drop _) => (entries, st.2)
  end.

Definition limiter_run (l : list request) : list OpenedUrl * list OpenedUrl := fold_left limiter_step l ([], []).

Definition req_time (r : request) : Z := r.1.2.

(** Requests come in the order of the clock. *)
Fixpoint ordered (t : Z) (l : list request) : Prop :=
  match l with [] => True | r :: rest => (t <= req_time r)%Z ∧ ordered (req_time r) rest end.

(** Nothing evicted so far: the table is the recent part of the history, and
    no open of the history is above the limit. *)
Definition within_rate (hist : list OpenedUrl) : Prop :=
  ∀ pre x post, hist = (pre ++ x :: post)%list →
    (length (retain (λ e, same_open (url x) (origin x) e && recent (opened_at x) e) (pre ++ [x])) <= MAX_OPENS_PER_WINDOW)%nat.

Definition limiter_ok (n : nat) (t : Z) (st : list OpenedUrl * list OpenedUrl) : Prop :=
  st.1 = retain (recent t) st.2 ∧ (length st.2 <= n)%nat ∧
  Forall (λ e, (opened_at e <= t)%Z) st.2 ∧ within_rate st.2.

Lemma recent_mono t t' e : (t <= t')%Z → recent t' e = true → recent t e = true.
Proof. unfold recent, Time.duration_since. rewrite !Z.ltb_lt. lia. Qed.

Lemma retain_retain {A} (p q : A → bool) l : retain p (retain q l) = retain (λ x, p x && q x) l.
Proof.
  unfold retain. induction l as [|x l IH]; simpl; [done|].
  destruct (q x); simpl; [destruct (p x); simpl; by rewrite IH|by rewrite andb_false_r].
Qed.

Lemma retain_ext {A} (p q : A → bool) l : (∀ x, p x = q x) → retain p l = retain q l.
Proof. intros H. unfold retain. induction l as [|x l IH]; simpl; [done|]. rewrite H. by rewrite IH. Qed.

Lemma retain_recent t t' l : (t <= t')%Z → retain (recent t') (retain (recent t) l) = retain (recent t') l.
Proof.
  intros H. rewrite retain_retain. apply retain_ext. intros x.
  destruct (recent t' x) eqn:E; [|done]. by rewrite (recent_mono t t').
Qed.

Lemma recent_now u t o : recent t (opened u t o) = true.
Proof. unfold recent, Time.duration_since. apply Z.ltb_lt. simpl. rewrite Z.sub_diag. done. Qed.

Lemma within_rate_snoc hist x :
  within_rate hist →
  (length (retain (λ e, same_open (url x) (origin x) e && recent (opened_at x) e) (hist ++ [x])) <= MAX_OPENS_PER_WINDOW)%nat →
  within_rate (hist ++ [x])%list.
Proof.
  intros Hw Hx pre y post E. destruct post as [|z post _] using rev_ind.
  - apply app_inj_tail in E as [-> ->]. done.
  - rewrite app_comm_cons, app_assoc in E. apply app_inj_tail in E as [-> _]. by eapply Hw.
Qed.

Lemma limiter_step_ok n t st r :
  (n < MAX_TRACKED_OPENS)%nat → (t <= req_time r)%Z → limiter_ok n t st →
  limiter_ok (S n) (req_time r) (limiter_step st r).
Proof.
  intros Hn Ht (He & Hl & Ho & Hw). destruct r as [[u now] o], st as [entries hist]. simpl in *. subst entries.
  unfold record. unfold req_time in *. simpl in *. rewrite retain_recent by done.
  set (kept := retain (recent now) hist).
  assert (length kept <= n)%nat by (etrans; [apply retain_length|done]).
  assert (Forall (λ e, (opened_at e <= now)%Z) hist) as Ho'.
  { eapply Forall_impl; [exact Ho|]. simpl. lia. }
  destruct (Nat.ltb_spec MAX_OPENS_PER_WINDOW (S (length (retain (same_open (as_str u) o) kept)))) as [Hc|Hc].
  { split_and!; simpl; [done|lia|done|done]. }
  destruct (Nat.eqb_spec (length kept) MAX_TRACKED_OPENS); [lia|]. split_and!; simpl.
  - rewrite retain_app. f_equal. unfold retain. simpl. by rewrite recent_now.
  - rewrite length_app. simpl. lia.
  - apply Forall_app. split; [done|]. constructor; [simpl; lia|done].
  - apply within_rate_snoc; [done|]. simpl. rewrite retain_app, length_app.
    etrans; [|exact Hc]. rewrite <-Nat.add_1_r. apply Nat.add_le_mono.
    + unfold kept. by rewrite retain_retain.
    + etrans; [apply retain_length|done].
Qed.

Lemma limiter_run_ok l n t st :
  (n + length l <= MAX_TRACKED_OPENS)%nat → ordered t l → limiter_ok n t st →
  ∃ t' n', limiter_ok n' t' (fold_left limiter_step l st).
Proof.
  revert n t st. induction l as [|r l IH]; intros n t st Hn Ho Hs; simpl in *; [by eauto|].
  destruct Ho as [Ht Ho]. apply (IH (S n) (req_time r)); [lia|done|]. apply (limiter_step_ok n t); [lia|done|done].
Qed.

(** The rate of one URL from one peer.  Among the opens permitted for any
    sequence of up to 64 requests, each is at most the third of its URL from
    its peer within two seconds. *)
Lemma opens_within_rate t l :
  (length l <= MAX_TRACKED_OPENS)%nat → ordered t l → within_rate (limiter_run l).2.
Proof.
  intros Hl Ho. destruct (limiter_run_ok l 0 t ([], [])) as (t' & n' & _ & _ & _ & H); [done|done| |exact H].
  split_and!; [done|done|constructor|]. by intros [|??] ??.
Qed.

Lemma retain_and {A} (p q : A → bool) l : retain p (retain q l) = retain q (retain p l).
Proof. rewrite !retain_retain. apply retain_ext. intros x. apply andb_comm. Qed.

(** Peers do not share a limit, and the table is bounded.  Whether an
    open is permitted depends only on the tracked opens of its own peer, and
    the table never tracks more than 64. *)
Lemma limiter_isolates entries u now o :
  (record entries u now o).2 = (record (retain (λ e, bool_decide (origin e = o)) entries) u now o).2 ∧
  ((length entries <= MAX_TRACKED_OPENS)%nat →
   (length (record entries u now o).1 <= MAX_TRACKED_OPENS)%nat).
Proof.
  split.
  - unfold record.
    assert (∀ l, retain (same_open (as_str u) o) (retain (λ e, bool_decide (origin e = o)) l)
      = retain (same_open (as_str u) o) l) as Hs.
    { intros l. rewrite retain_retain. apply retain_ext. intros x. unfold same_open.
      by destruct (bool_decide (origin x = o)); rewrite ?andb_true_r. }
    rewrite (retain_and (recent now)), Hs. by case_match.
  - intros Hl. unfold record. pose proof (retain_length (recent now) entries).
    case_match; simpl; [lia|]. rewrite length_app. simpl.
    destruct (Nat.eqb_spec (length (retain (recent now) entries)) MAX_TRACKED_OPENS) as [E|E].
    + rewrite length_drop, E. done.
    + unfold MAX_TRACKED_OPENS in *. lia.
Qed.

Definition demo_url : Url :=
  {| host_str := Some "example.com"; port_or_known_default := Some 443%Z; path := "/a"; as_str := "https://example.com/a" |}.

Lemma opens_within_rate_witness :
  within_rate (limiter_run (replicate 5 (demo_url, 7%Z, None))).2 ∧
  length (limiter_run (replicate 5 (demo_url, 7%Z, None))).2 = 3%nat.
Proof.
  split; [|by vm_compute]. apply (opens_within_rate 0); [by vm_compute; lia|]. vm_compute. by repeat split.
Defined.

Lemma limiter_isolates_witness :
  (length (record [] demo_url 7 None).1 <= MAX_TRACKED_OPENS)%nat.
Proof. apply limiter_isolates. apply le_0_n. Defined.
