(* ===== verification/Leases.v ===== *)
(** The laptop's callback leases: which loopback port is served, for which
    devbox bridge and until when ([crates/forward/src/callback.rs],
    [callback/lease.rs], [callback/listener.rs]).

    [Leases] is the map behind the mutex together with the stop flags its
    leases, listeners and callers share: an [Arc<AtomicBool>] is an index into
    [flags], so that aliasing is explicit.  A call of [serve_on] is a thread
    whose steps are its system calls and critical sections; an accept loop is
    another.  A run interleaves any number of both with the reaper and the
    clock.  What the kernel answers to a bind or a thread creation is part of
    the event; the one fact used of it is that two listeners of this process
    are never bound to the same address and port.  A panic aborts the process
    (the release profile), so it has no next state. *)

From stdpp Require Import prelude strings list gmap.
From Stdlib Require Import ZArith Lia.
From S2P Require Import Prelude Text Peers Bridge.

(** * Leases *)
Record SocketAddr : Type := { ip : IpAddr; sport : Z }.

#[global] Instance SocketAddr_eq_dec : EqDecision SocketAddr.
Proof. solve_decision. Defined.

Record Lease : Type := {
  owner : SocketAddr;
  deadline : Z;
  listeners : Z;
  stop : nat;
}.

Record Leases : Type := { inner : gmap Z Lease; flags : list bool }.

Inductive Refresh : Type :=
| Live
| Releasing
| Absent
| Owned (addr : SocketAddr).

Definition new : Leases := {| inner := ∅; flags := [] |}.

(** [stop.load] and [stop.store(true)]. *)
Definition load (l : Leases) (s : nat) : bool := default false (flags l !! s).

Definition store (l : Leases) (s : nat) : Leases :=
  {| inner := inner l; flags := <[s := true]> (flags l) |}.

Definition with_inner (l : Leases) (m : gmap Z Lease) : Leases :=
  {| inner := m; flags := flags l |}.

Definition with_deadline (lease : Lease) (d : Z) : Lease :=
  {| owner := owner lease; deadline := d; listeners := listeners lease; stop := stop lease |}.

Definition with_listeners (lease : Lease) (n : Z) : Lease :=
  {| owner := owner lease; deadline := deadline lease; listeners := n; stop := stop lease |}.

(** [None] is the panic of [Instant + Duration]. *)
Definition refresh (now : Z) (l : Leases) (port : Z) (who : SocketAddr) (ttl : Z) :
    option (Leases * Refresh) :=
  match inner l !! port with
  | Some lease =>
      if load l (stop lease) then Some (l, Releasing) else
      if negb (bool_decide (owner lease = who)) then Some (l, Owned (owner lease)) else
      d ← Time.checked_add now ttl;
      if (deadline lease <? d)%Z
      then Some (with_inner l (<[port := with_deadline lease d]> (inner l)), Live)
      else Some (l, Live)
  | None => Some (l, Absent)
  end.

Definition insert (now : Z) (l : Leases) (port : Z) (who : SocketAddr) (ttl : Z) (s : nat) (n : Z) :
    option Leases :=
  let l1 := match inner l !! port with
            | Some replaced => store l (stop replaced)
            | None => l
            end in
  d ← Time.checked_add now ttl;
  Some (with_inner l1 (<[port := {| owner := who; deadline := d; listeners := n; stop := s |}]> (inner l1))).

(** [listeners -= 1] wraps at the width of [usize]. *)
Definition usize_pred (n : Z) : Z := ((n - 1) mod (u64_max + 1))%Z.

Definition release (l : Leases) (port : Z) (s : nat) : Leases * bool :=
  match inner l !! port with
  | Some lease =>
      if bool_decide (stop lease = s) then
        let n := usize_pred (listeners lease) in
        if (n =? 0)%Z
        then (store (with_inner l (delete port (inner l))) (stop lease), true)
        else (with_inner l (<[port := with_listeners lease n]> (inner l)), false)
      else (l, false)
  | None => (l, false)
  end.

(** The reaper's pass: the flags of every lease whose deadline has passed. *)
Definition expire (now : Z) (l : Leases) : Leases :=
  foldr (λ (kv : Z * Lease) acc, if (deadline kv.2 <=? now)%Z then store acc (stop kv.2) else acc)
    l (map_to_list (inner l)).

(** [Arc::new(AtomicBool::new(false))]: the next index. *)
Definition fresh_stop (l : Leases) : Leases * nat :=
  ({| inner := inner l; flags := (flags l ++ [false])%list |}, length (flags l)).

(** * Serving a port *)
(** An [io::Error]: the one kind the code tells apart, or another error's number. *)
Inductive IoKind : Type := AddrInUse | OtherIo (errno : Z).

Inductive ServeError : Type :=
| NoPeer (port : Z)
| OwnedError (port : Z) (addr : SocketAddr)
| TooMany
| Reserved (port : Z)
| Bind (port : Z) (source : IoKind)
| Unnamed (source : IoKind)
| NotStarted (port : Z).

#[global] Instance IoKind_eq_dec : EqDecision IoKind.
Proof. solve_decision. Defined.
#[global] Instance ServeError_eq_dec : EqDecision ServeError.
Proof. solve_decision. Defined.

Inductive Family : Type := Ipv4 | Ipv6.

#[global] Instance Family_eq_dec : EqDecision Family.
Proof. solve_decision. Defined.

(** Where a call of [serve_on] stands: the operation it does next, with the
    locals it will use. *)
Inductive Stage : Type :=
| Refreshing
| Waiting
| BindingV4
| BindingV6 (bound : Z)
| Inserting (bound : Z) (v6 : bool)
| SpawningV4 (bound : Z) (s : nat) (v6 : bool)
| ReleasingV4 (bound : Z) (s : nat) (v6 : bool)
| DroppingV6 (bound : Z) (s : nat)
| SpawningV6 (bound : Z) (s : nat)
| ReleasingV6 (bound : Z) (s : nat) (r : result ServeError Z)
| Finished (r : result ServeError Z).

Record Call : Type := { port : Z; bridge : SocketAddr; ttl : Z; stage : Stage }.

Definition at_stage (c : Call) (g : Stage) : Call :=
  {| port := port c; bridge := bridge c; ttl := ttl c; stage := g |}.

(** An accept loop's thread: running, past the loop with its listener dropped,
    or gone. *)
Inductive Status : Type := Running | Dropped | Gone.

Record Listener : Type :=
  { family : Family; lport : Z; lbridge : SocketAddr; lstop : nat; status : Status }.

Definition with_status (t : Listener) (g : Status) : Listener :=
  {| family := family t; lport := lport t; lbridge := lbridge t; lstop := lstop t; status := g |}.

(** What the kernel answers to the operation a call does next. *)
Inductive Answer : Type :=
| Proceed
| BindOk (bound : Z)
| BindErr (e : IoKind)
| BindUnnamed (e : IoKind)
| SpawnOk
| SpawnErr.

(** The first statements of [serve_on]: the owner is the configured peer's
    bridge, and port 0 skips the look at the existing lease. *)
Definition serve_on (parse : string → option IpAddr) (cfg : Config) (p : Z) (d : Z) : Call :=
  match peer_ip parse cfg with
  | Ok (Some peer) =>
      {| port := p; bridge := {| ip := peer; sport := bridge_port cfg |}; ttl := d;
         stage := if (p =? 0)%Z then BindingV4 else Refreshing |}
  | _ => {| port := p; bridge := {| ip := Peers.V4 0 0 0 0; sport := 0 |}; ttl := d;
            stage := Finished (Err (NoPeer p)) |}
  end.

Definition loop_thread (f : Family) (bound : Z) (c : Call) (s : nat) : Listener :=
  {| family := f; lport := bound; lbridge := bridge c; lstop := s; status := Running |}.

(** One step of a call.  [free] tells which addresses this process has not
    bound.  [None]: the answer does not fit the operation, the condition of
    the wait does not hold, or the process aborted. *)
Definition serve_step (now : Z) (free : Family → Z → bool) (l : Leases) (c : Call) (a : Answer) :
    option (Leases * Call * option Listener) :=
  match stage c, a with
  | Refreshing, Proceed =>
      '(l', r) ← refresh now l (port c) (bridge c) (ttl c);
      Some (l', at_stage c (match r with
                            | Live => Finished (Ok (port c))
                            | Owned addr => Finished (Err (OwnedError (port c) addr))
                            | Releasing => Waiting
                            | Absent => BindingV4
                            end), None)
  | Waiting, Proceed =>
      if bool_decide (inner l !! port c = None) then Some (l, at_stage c BindingV4, None) else None
  | BindingV4, BindOk bound =>
      if (1 <=? bound)%Z && (bound <=? u16_max)%Z && ((port c =? 0)%Z || (bound =? port c)%Z) && free Ipv4 bound
      then Some (l, at_stage c (BindingV6 bound), None) else None
  | BindingV4, BindErr e => Some (l, at_stage c (Finished (Err (Bind (port c) e))), None)
  | BindingV4, BindUnnamed e => Some (l, at_stage c (Finished (Err (Unnamed e))), None)
  | BindingV6 bound, BindOk bound' =>
      if (bound' =? bound)%Z && free Ipv6 bound
      then Some (l, at_stage c (Inserting bound true), None) else None
  | BindingV6 bound, BindErr AddrInUse =>
      Some (l, at_stage c (Finished (Err (Bind bound AddrInUse))), None)
  | BindingV6 bound, BindErr (OtherIo _) => Some (l, at_stage c (Inserting bound false), None)
  | Inserting bound v6, Proceed =>
      let '(l0, s) := fresh_stop l in
      l' ← insert now l0 bound (bridge c) (ttl c) s (if v6 then 2 else 1);
      Some (l', at_stage c (SpawningV4 bound s v6), None)
  | SpawningV4 bound s v6, SpawnOk =>
      Some (l, at_stage c (if v6 then SpawningV6 bound s else Finished (Ok bound)),
            Some (loop_thread Ipv4 bound c s))
  | SpawningV4 bound s v6, SpawnErr => Some (l, at_stage c (ReleasingV4 bound s v6), None)
  | ReleasingV4 bound s v6, Proceed =>
      Some ((release l bound s).1,
            at_stage c (if v6 then DroppingV6 bound s else Finished (Err (NotStarted bound))), None)
  | DroppingV6 bound s, Proceed =>
      Some (l, at_stage c (ReleasingV6 bound s (Err (NotStarted bound))), None)
  | SpawningV6 bound s, SpawnOk =>
      Some (l, at_stage c (Finished (Ok bound)), Some (loop_thread Ipv6 bound c s))
  | SpawningV6 bound s, SpawnErr => Some (l, at_stage c (ReleasingV6 bound s (Ok bound)), None)
  | ReleasingV6 bound s r, Proceed => Some ((release l bound s).1, at_stage c (Finished r), None)
  | _, _ => None
  end.

(** One step of an accept loop: the test of the flag at the loop's head, which
    ends it; an accepted connection, handed to a relay for the bridge; nothing
    to accept; a failing accept, which stops the lease; and, once the listener
    is dropped, the release. *)
Inductive LoopEvent : Type := SeeStop | Accepted | WouldBlock | AcceptFailed | ReleaseLoop.

Definition loop_step (l : Leases) (t : Listener) (e : LoopEvent) :
    option (Leases * Listener * option (SocketAddr * Z)) :=
  match status t, e with
  | Running, SeeStop => if load l (lstop t) then Some (l, with_status t Dropped, None) else None
  | Running, Accepted => Some (l, t, Some (lbridge t, lport t))
  | Running, WouldBlock => Some (l, t, None)
  | Running, AcceptFailed => Some (store l (lstop t), with_status t Dropped, None)
  | Dropped, ReleaseLoop => Some ((release l (lport t) (lstop t)).1, with_status t Gone, None)
  | _, _ => None
  end.

(** * The daemon's threads *)
Record State : Type := {
  now : Z;
  leases : Leases;
  calls : list Call;
  loops : list Listener;
  relayed : list (SocketAddr * Z);
}.

Inductive Event : Type :=
| EServe (cfg : Config) (p d : Z)
| ECall (i : nat) (a : Answer)
| ELoop (j : nat) (e : LoopEvent)
| EExpire
| ETime (d : Z).

(** The addresses a call or a loop holds a bound listener for. *)
Definition held (g : Family) (b : Z) (f : Family) (p : Z) : nat :=
  if bool_decide (g = f) && (b =? p)%Z then 1 else 0.

Definition call_holds (f : Family) (p : Z) (c : Call) : nat :=
  match stage c with
  | BindingV6 b => held Ipv4 b f p
  | Inserting b v6 | SpawningV4 b _ v6 => held Ipv4 b f p + (if v6 then held Ipv6 b f p else 0)
  | ReleasingV4 b _ v6 => if v6 then held Ipv6 b f p else 0
  | DroppingV6 b _ | SpawningV6 b _ => held Ipv6 b f p
  | _ => 0
  end.

Definition loop_holds (f : Family) (p : Z) (t : Listener) : nat :=
  match status t with Running => held (family t) (lport t) f p | _ => 0 end.

Definition total {A} (f : A → nat) (l : list A) : nat := sum_list (f <$> l).

Definition holders (st : State) (f : Family) (p : Z) : nat :=
  total (call_holds f p) (calls st) + total (loop_holds f p) (loops st).

Definition is_free (st : State) (f : Family) (p : Z) : bool := (holders st f p =? 0).

Section run.
Context (parse : string → option IpAddr).

Definition step (st : State) (e : Event) : option State :=
  match e with
  | EServe cfg p d =>
      Some {| now := now st; leases := leases st; calls := calls st ++ [serve_on parse cfg p d];
              loops := loops st; relayed := relayed st |}
  | ECall i a =>
      c ← calls st !! i;
      '(l, c', spawned) ← serve_step (now st) (is_free st) (leases st) c a;
      Some {| now := now st; leases := l; calls := <[i := c']> (calls st);
              loops := loops st ++ option_list spawned; relayed := relayed st |}
  | ELoop j e =>
      t ← loops st !! j;
      '(l, t', out) ← loop_step (leases st) t e;
      Some {| now := now st; leases := l; calls := calls st; loops := <[j := t']> (loops st);
              relayed := relayed st ++ option_list out |}
  | EExpire =>
      Some {| now := now st; leases := expire (now st) (leases st); calls := calls st;
              loops := loops st; relayed := relayed st |}
  | ETime d =>
      if (0 <=? d)%Z then
        Some {| now := now st + d; leases := leases st; calls := calls st;
                loops := loops st; relayed := relayed st |}
      else None
  end.

Fixpoint run (st : State) (events : list Event) : option State :=
  match events with
  | [] => Some st
  | e :: rest => st' ← step st e; run st' rest
  end.

End run.

Definition start (t : Z) : State :=
  {| now := t; leases := new; calls := []; loops := []; relayed := [] |}.

(** * Counting *)

Lemma total_app {A} (f : A → nat) l1 l2 : total f (l1 ++ l2) = total f l1 + total f l2.
Proof. unfold total. rewrite fmap_app. induction (f <$> l1); simpl in *; lia. Qed.

Lemma total_insert {A} (f : A → nat) l i x y :
  l !! i = Some x → total f (<[i := y]> l) + f x = total f l + f y.
Proof.
  revert i. unfold total. induction l as [|z l IH]; intros [|i] H; simplify_eq/=; [lia|].
  specialize (IH i H). lia.
Qed.

Lemma total_lookup {A} (f : A → nat) l i x : l !! i = Some x → f x ≤ total f l.
Proof.
  revert i. unfold total. induction l as [|z l IH]; intros [|i] H; simplify_eq/=; [lia|].
  specialize (IH i H). lia.
Qed.

Lemma total_lookup_2 {A} (f : A → nat) l i j x y :
  i ≠ j → l !! i = Some x → l !! j = Some y → f x + f y ≤ total f l.
Proof.
  revert i j. unfold total. induction l as [|z l IH]; intros [|i] [|j] Hij Hi Hj; simplify_eq/=.
  - pose proof (total_lookup f l j y Hj) as H. unfold total in H. lia.
  - pose proof (total_lookup f l i x Hi) as H. unfold total in H. lia.
  - specialize (IH i j ltac:(lia) Hi Hj). lia.
Qed.

(** * Flags *)
Lemma load_store l s s' : load (store l s) s' = true ↔ (s' = s ∧ s < length (flags l)) ∨ load l s' = true.
Proof.
  unfold load, store. simpl. destruct (decide (s' = s)) as [->|Hne].
  - destruct (decide (s < length (flags l))) as [Hlt|Hge].
    + rewrite list_lookup_insert_eq by done. naive_solver.
    + rewrite list_insert_ge by lia. naive_solver.
  - rewrite list_lookup_insert_ne by done. naive_solver.
Qed.

Lemma store_length l s : length (flags (store l s)) = length (flags l).
Proof. apply length_insert. Qed.

Lemma store_mono l s s' : load l s' = true → load (store l s) s' = true.
Proof. intros H. apply load_store. by right. Qed.

(** * The map and its outstanding listeners

    [tok p s] counts the listeners of port [p] whose stop flag is [s] and which
    have not released yet.  [leases_ok] ties the map to that count. *)
Record leases_ok (l : Leases) (tok : Z → nat → nat) : Prop := {
  ok_count : ∀ p lease, inner l !! p = Some lease →
    listeners lease = Z.of_nat (tok p (stop lease)) ∧ 1 ≤ tok p (stop lease) ≤ 2;
  ok_alloc : ∀ p lease, inner l !! p = Some lease → stop lease < length (flags l);
  ok_unique : ∀ p1 p2 l1 l2, inner l !! p1 = Some l1 → inner l !! p2 = Some l2 →
    stop l1 = stop l2 → p1 = p2;
  ok_fresh : ∀ p s, length (flags l) ≤ s → tok p s = 0;
}.

(** A listener of port [p] with flag [s] relaying to [b] is either told to
    stop or is a listener of the lease on record, whose owner is [b]. *)
Definition owned (l : Leases) (p : Z) (s : nat) (b : SocketAddr) : Prop :=
  load l s = true ∨ ∃ lease, inner l !! p = Some lease ∧ stop lease = s ∧ owner lease = b.

Definition at1 (p : Z) (s : nat) (p' : Z) (s' : nat) : nat :=
  if (p =? p')%Z && (s =? s')%nat then 1 else 0.

Lemma at1_same p s : at1 p s p s = 1.
Proof. unfold at1. by rewrite Z.eqb_refl, Nat.eqb_refl. Qed.

Lemma at1_other p s p' s' : p ≠ p' ∨ s ≠ s' → at1 p s p' s' = 0.
Proof. unfold at1. intros H. destruct (Z.eqb_spec p p'), (Nat.eqb_spec s s'); naive_solver. Qed.

Lemma leases_ok_ext l tok tok' : (∀ p s, tok' p s = tok p s) → leases_ok l tok → leases_ok l tok'.
Proof. intros E [H1 H2 H3 H4]. split; intros; rewrite ?E; eauto. Qed.

Lemma leases_ok_store l tok s : leases_ok l tok → leases_ok (store l s) tok.
Proof. intros [H1 H2 H3 H4]. split; intros *; rewrite ?store_length; eauto. Qed.

Lemma owned_store l s p s' b : owned l p s' b → owned (store l s) p s' b.
Proof. intros [H|H]; [left; by apply store_mono|by right]. Qed.

(** Changing a lease without touching its owner or flag. *)
Lemma owned_update l p lease lease' p' s b :
  inner l !! p = Some lease → stop lease' = stop lease → owner lease' = owner lease →
  owned l p' s b → owned (with_inner l (<[p := lease']> (inner l))) p' s b.
Proof.
  intros H Hs Ho [Hl|(x & Hx & <- & <-)]; [by left|right]. simpl.
  destruct (decide (p' = p)) as [->|Hne].
  - rewrite lookup_insert_eq. exists lease'. simplify_eq. naive_solver.
  - rewrite lookup_insert_ne by done. eauto.
Qed.

Lemma leases_ok_update l tok tok' p lease lease' :
  inner l !! p = Some lease → stop lease' = stop lease →
  listeners lease' = Z.of_nat (tok' p (stop lease)) → 1 ≤ tok' p (stop lease) ≤ 2 →
  (∀ p' s', p' ≠ p → tok' p' s' = tok p' s') → (∀ p' s', tok' p' s' ≤ tok p' s') →
  leases_ok l tok → leases_ok (with_inner l (<[p := lease']> (inner l))) tok'.
Proof.
  intros H Hs Hn Hb Ht Hle [H1 H2 H3 H4].
  assert (∀ q x, <[p := lease']> (inner l) !! q = Some x →
    ∃ y, inner l !! q = Some y ∧ stop y = stop x ∧ (q = p ∧ x = lease' ∨ q ≠ p ∧ x = y)) as Hinv.
  { intros q x. destruct (decide (q = p)) as [->|Hne].
    - rewrite lookup_insert_eq. intros [= <-]. naive_solver.
    - rewrite lookup_insert_ne by done. eauto 6. }
  split; simpl.
  - intros q x Hx. apply Hinv in Hx as (y & Hy & Hsy & [[-> ->]|[Hne ->]]).
    + rewrite Hs. naive_solver.
    + rewrite Ht by done. eauto.
  - intros q x Hx. apply Hinv in Hx as (y & Hy & <- & _). eauto.
  - intros q1 q2 x1 x2 Hx1 Hx2 E. apply Hinv in Hx1 as (y1 & Hy1 & E1 & _), Hx2 as (y2 & Hy2 & E2 & _).
    eapply H3; [done..|congruence].
  - intros q s Hlen. specialize (Hle q s). rewrite H4 in Hle by done. lia.
Qed.

Lemma leases_ok_delete l tok tok' p s :
  (∀ p' s', p' ≠ p → tok' p' s' = tok p' s') → (∀ p' s', tok' p' s' ≤ tok p' s') →
  leases_ok l tok → leases_ok (store (with_inner l (delete p (inner l))) s) tok'.
Proof.
  intros Ht Hle [H1 H2 H3 H4]. apply leases_ok_store.
  split; simpl.
  - intros q x [Hne Hx]%lookup_delete_Some. rewrite Ht by done. eauto.
  - intros q x [Hne Hx]%lookup_delete_Some. eauto.
  - intros q1 q2 x1 x2 [? Hx1]%lookup_delete_Some [? Hx2]%lookup_delete_Some. eauto.
  - intros q s' Hlen. specialize (Hle q s'). rewrite H4 in Hle by done. lia.
Qed.

(** ** Refreshing *)
Lemma refresh_inv now l p b d l' r :
  refresh now l p b d = Some (l', r) →
  l' = l ∨ ∃ lease d', inner l !! p = Some lease ∧ (deadline lease < d')%Z ∧ owner lease = b ∧
    load l (stop lease) = false ∧
    l' = with_inner l (<[p := with_deadline lease d']> (inner l)).
Proof.
  unfold refresh. destruct (inner l !! p) as [lease|] eqn:E; [|naive_solver].
  destruct (load l (stop lease)) eqn:El; [naive_solver|].
  case_bool; [naive_solver|].
  destruct (Time.checked_add now d) as [d'|]; simpl; [|done].
  case_bool; intros [= <- <-]; [right|by left]. eauto 10.
Qed.

Lemma refresh_ok now l p b d l' r tok :
  refresh now l p b d = Some (l', r) → leases_ok l tok → leases_ok l' tok.
Proof.
  intros [->|(lease & d' & Hl & _ & _ & _ & ->)]%refresh_inv Hok; [done|].
  destruct (ok_count _ _ Hok _ _ Hl) as [Hn Hb]. by eapply leases_ok_update.
Qed.

Lemma refresh_owned now l p b d l' r p' s' b' :
  refresh now l p b d = Some (l', r) → owned l p' s' b' → owned l' p' s' b'.
Proof.
  intros [->|(lease & d' & Hl & _ & _ & _ & ->)]%refresh_inv; [done|]. by eapply owned_update.
Qed.

(** ** Releasing *)
(** A release takes one listener off the count, and removes the lease exactly
    when it was the last. *)
Lemma release_cases l tok p s :
  leases_ok l tok →
  (∃ lease, inner l !! p = Some lease ∧ stop lease = s ∧
     ((tok p s = 1 ∧ release l p s = (store (with_inner l (delete p (inner l))) s, true)) ∨
      (tok p s = 2 ∧ release l p s = (with_inner l (<[p := with_listeners lease 1]> (inner l)), false)))) ∨
  ((∀ lease, inner l !! p = Some lease → stop lease ≠ s) ∧ release l p s = (l, false)).
Proof.
  intros Hok. unfold release. destruct (inner l !! p) as [lease|] eqn:E; [|right; naive_solver].
  case_bool; [|right; naive_solver]. left. exists lease. split_and!; [done..|]. subst s.
  destruct (ok_count _ _ Hok _ _ E) as [-> Hb].
  assert (tok p (stop lease) = 1 ∨ tok p (stop lease) = 2) as [->| ->] by lia; [left|right]; done.
Qed.

Lemma release_owned l tok p s p' s' b :
  leases_ok l tok → owned l p' s' b → owned (release l p s).1 p' s' b.
Proof.
  intros Hok Ho. destruct (release_cases l tok p s Hok) as [(lease & Hl & <- & [[E ->]|[E ->]])|[Hno ->]]; simpl; [| |done].
  - destruct Ho as [Ho|(x & Hx & <- & <-)]; [left; by apply store_mono|].
    destruct (decide (p' = p)) as [->|Hne].
    + left. simplify_eq. apply load_store. left. split; [done|]. simpl. by eapply ok_alloc.
    + right. exists x. simpl. rewrite lookup_delete_ne by done. done.
  - by eapply owned_update.
Qed.

Section release.
Context (l : Leases) (tok tok' : Z → nat → nat) (p : Z) (s : nat).
Context (Hok : leases_ok l tok) (Htok : ∀ p' s', tok' p' s' + at1 p s p' s' = tok p' s').

Lemma lease_release_ok : leases_ok (release l p s).1 tok'.
Proof.
  assert (∀ p' s', tok' p' s' ≤ tok p' s') as Hle by (intros p' s'; specialize (Htok p' s'); lia).
  assert (∀ p' s', p' ≠ p ∨ s' ≠ s → tok' p' s' = tok p' s') as Hne.
  { intros p' s' H. specialize (Htok p' s'). rewrite at1_other in Htok by naive_solver. lia. }
  pose proof (Htok p s) as Hps. rewrite at1_same in Hps.
  destruct (release_cases l tok p s Hok) as [(lease & Hl & <- & [[E ->]|[E ->]])|[Hno ->]]; simpl.
  - apply (leases_ok_delete l tok); [naive_solver|done|done].
  - apply (leases_ok_update l tok tok' p lease); [done|done| | |naive_solver|done|done]; simpl; lia.
  - destruct Hok as [H1 H2 H3 H4]. split; [|done|done|].
    + intros q x Hx. rewrite Hne; [eauto|]. destruct (decide (q = p)) as [->|]; eauto.
    + intros q s' Hlen. specialize (Hle q s'). rewrite H4 in Hle by done. lia.
Qed.

End release.

(** ** Inserting *)
Lemma insert_inv now l p b d s n l' :
  insert now l p b d s n = Some l' →
  ∃ dl l1, l1 = match inner l !! p with Some x => store l (stop x) | None => l end ∧
    l' = with_inner l1 (<[p := {| owner := b; deadline := dl; listeners := n; stop := s |}]> (inner l)).
Proof.
  unfold insert. destruct (Time.checked_add now d) as [dl|]; simpl; [|done]. intros [= <-].
  exists dl. destruct (inner l !! p); eauto.
Qed.

Section insert.
Context (now : Z) (l l' : Leases) (tok tok' : Z → nat → nat) (p : Z) (b : SocketAddr) (d : Z) (k : nat).
Let s := (fresh_stop l).2.
Context (Hok : leases_ok l tok) (Hk : 1 ≤ k ≤ 2).
Context (Htok : ∀ p' s', tok' p' s' = tok p' s' + k * at1 p s p' s').
Context (Hins : insert now (fresh_stop l).1 p b d s (Z.of_nat k) = Some l').

Lemma load_fresh s' : load l s' = true → load (fresh_stop l).1 s' = true.
Proof.
  unfold load. simpl. intros H.
  destruct (flags l !! s') as [v|] eqn:E; simpl in H; [|done]. by rewrite (lookup_app_l_Some _ _ _ _ E).
Qed.

Lemma insert_lookup q x : inner l' !! q = Some x →
  (q = p ∧ stop x = s ∧ owner x = b ∧ listeners x = Z.of_nat k) ∨ (q ≠ p ∧ inner l !! q = Some x).
Proof.
  apply insert_inv in Hins as (dl & l1 & _ & ->). simpl.
  rewrite lookup_insert_Some. intros [[<- <-]|[Hne Hx]]; [left|right]; auto.
Qed.

Lemma insert_flags : length (flags l') = S (length (flags l)).
Proof.
  apply insert_inv in Hins as (dl & l1 & -> & ->). simpl.
  destruct (inner l !! p); [rewrite store_length|]; simpl; rewrite length_app; simpl; lia.
Qed.

Lemma lease_insert_ok : leases_ok l' tok'.
Proof.
  destruct Hok as [H1 H2 H3 H4]. assert (s = length (flags l)) as Es by done.
  assert (∀ q x, inner l !! q = Some x → stop x ≠ s) as Hnew.
  { intros q x Hx%H2. lia. }
  split.
  - intros q x [(-> & -> & _ & ->)|[Hne Hx]]%insert_lookup.
    + rewrite Htok, at1_same, (H4 p s) by lia. lia.
    + rewrite Htok, at1_other, Nat.mul_0_r, Nat.add_0_r by (left; done). eauto.
  - intros q x [(-> & -> & _)|[_ Hx%H2]]%insert_lookup; rewrite insert_flags; lia.
  - intros q1 q2 x1 x2 [(-> & E1 & _)|[_ Hx1]]%insert_lookup [(-> & E2 & _)|[_ Hx2]]%insert_lookup E;
      [done| | |by eauto]; exfalso; [apply (Hnew _ _ Hx2)|apply (Hnew _ _ Hx1)]; congruence.
  - intros q s' Hlen. rewrite insert_flags in Hlen. rewrite Htok, H4, at1_other by lia. lia.
Qed.

Lemma insert_owned p' s' b' : owned l p' s' b' → owned l' p' s' b'.
Proof.
  intros Ho. apply insert_inv in Hins as (dl & l1 & El & ->). simpl in El.
  destruct Ho as [Ho|(x & Hx & <- & <-)].
  - left. change (load l1 s' = true). apply load_fresh in Ho.
    subst l1. destruct (inner l !! p); [by apply store_mono|done].
  - destruct (decide (p' = p)) as [->|Hne].
    + left. change (load l1 (stop x) = true). rewrite Hx in El. subst l1. apply load_store. left.
      split; [done|]. simpl. rewrite length_app. simpl. pose proof (ok_alloc _ _ Hok _ _ Hx). lia.
    + right. exists x. simpl. by rewrite lookup_insert_ne by done.
Qed.

Lemma insert_owned_new : owned l' p s b.
Proof.
  right. pose proof Hins as (dl & l1 & _ & ->)%insert_inv. simpl. rewrite lookup_insert_eq. by eexists.
Qed.

End insert.

(** ** Expiring *)
Lemma expire_spec now l :
  inner (expire now l) = inner l ∧ length (flags (expire now l)) = length (flags l) ∧
  ∀ s, load (expire now l) s = true →
    load l s = true ∨ ∃ p lease, inner l !! p = Some lease ∧ stop lease = s ∧ (deadline lease <= now)%Z.
Proof.
  unfold expire. assert (∀ p lease, (p, lease) ∈ map_to_list (inner l) → inner l !! p = Some lease) as Hin.
  { intros p lease. by rewrite elem_of_map_to_list. }
  revert Hin. induction (map_to_list (inner l)) as [|[p lease] rest IH]; intros Hin; simpl; [naive_solver|].
  destruct IH as (Hi & Hf & Hs); [intros; apply Hin; by right|].
  case_bool; [|done]. split_and!; [done|by rewrite store_length|].
  intros s [[-> _]|H]%load_store; [right|by apply Hs]. exists p, lease. split_and!; [|done|done].
  apply Hin. by left.
Qed.

Lemma expire_mono now l s : load l s = true → load (expire now l) s = true.
Proof.
  intros H. unfold expire. induction (map_to_list (inner l)) as [|[p lease] rest IH]; simpl; [done|].
  case_bool; [by apply store_mono|done].
Qed.

(** The reaper raises the flag of every lease past its deadline. *)
Lemma expire_raises now l tok p lease :
  leases_ok l tok → inner l !! p = Some lease → (deadline lease <= now)%Z →
  load (expire now l) (stop lease) = true.
Proof.
  intros Hok Hl Hd. pose proof (ok_alloc _ _ Hok _ _ Hl) as Ha.
  apply elem_of_map_to_list in Hl. unfold expire.
  assert (∀ rest, length (flags (foldr (λ (kv : Z * Lease) acc, if (deadline kv.2 <=? now)%Z
      then store acc (stop kv.2) else acc) l rest))
    = length (flags l)) as Hlen.
  { induction rest as [|[q x] rest IH]; simpl; [done|]. case_bool; [by rewrite store_length|done]. }
  induction (map_to_list (inner l)) as [|[q x] rest IH]; simpl; [by apply not_elem_of_nil in Hl|].
  apply elem_of_cons in Hl as [[= <- <-]|Hl].
  - rewrite (proj2 (Z.leb_le _ _) Hd). apply load_store. left. by rewrite Hlen.
  - case_bool; [apply store_mono|]; by apply IH.
Qed.

Lemma lease_expire_ok now l tok : leases_ok l tok → leases_ok (expire now l) tok.
Proof.
  destruct (expire_spec now l) as (Hi & Hf & _). intros [H1 H2 H3 H4].
  split; intros *; rewrite ?Hi, ?Hf; eauto.
Qed.

Lemma expire_owned now l p s b : owned l p s b → owned (expire now l) p s b.
Proof.
  destruct (expire_spec now l) as (Hi & _ & _).
  intros [H|H]; [left; by apply expire_mono|right; by rewrite Hi].
Qed.

(** * The invariant of the daemon *)

(** The listeners a call or a loop still has to release. *)
Definition call_token (c : Call) : option (Z * nat * nat) :=
  match stage c with
  | SpawningV4 b s v6 | ReleasingV4 b s v6 => Some (b, s, if v6 then 2 else 1)
  | DroppingV6 b s | SpawningV6 b s | ReleasingV6 b s _ => Some (b, s, 1)
  | _ => None
  end.

Definition call_tokens (p : Z) (s : nat) (c : Call) : nat :=
  match call_token c with Some (b, s', k) => k * at1 b s' p s | None => 0 end.

Definition loop_tokens (p : Z) (s : nat) (t : Listener) : nat :=
  match status t with Gone => 0 | _ => at1 (lport t) (lstop t) p s end.

Definition tokens (st : State) (p : Z) (s : nat) : nat :=
  total (call_tokens p s) (calls st) + total (loop_tokens p s) (loops st).

Record inv (st : State) : Prop := {
  inv_exclusive : ∀ f p, holders st f p ≤ 1;
  inv_leases : leases_ok (leases st) (tokens st);
  inv_calls : ∀ i c p s k, calls st !! i = Some c → call_token c = Some (p, s, k) →
    owned (leases st) p s (bridge c);
  inv_loops : ∀ j t, loops st !! j = Some t → status t ≠ Gone →
    owned (leases st) (lport t) (lstop t) (lbridge t);
}.

Lemma daemon_inv_start t : inv (start t).
Proof.
  split; simpl; [by intros f p; unfold holders, total; simpl; lia| |intros i; by rewrite lookup_nil|intros j; by rewrite lookup_nil].
  split; simpl; [by intros p x; rewrite lookup_empty..| |done].
  intros p1 p2 l1 l2. by rewrite lookup_empty.
Qed.

(** What one call step does to the map, to the holding of addresses and to
    the outstanding listeners. *)
Definition spawned_by (f : Listener → nat) (o : option Listener) : nat :=
  match o with Some t => f t | None => 0 end.

Lemma at_stage_bridge c g : bridge (at_stage c g) = bridge c.
Proof. done. Qed.

Ltac serve_cases c a H :=
  unfold serve_step in H; destruct (stage c) eqn:Hstage, a as [|b'|[]|e'| |]; simplify_eq/=; try done;
  repeat match goal with
  | H : mbind _ (refresh _ _ _ _ _) = Some _ |- _ => apply bind_Some in H as ([] & ? & ?)
  | H : mbind _ (insert _ _ _ _ _ _ _) = Some _ |- _ => apply bind_Some in H as (? & ? & ?)
  | H : (if ?b then Some _ else None) = Some _ |- _ => destruct b eqn:?; [|done]
  end; simplify_eq/=; bool_to_prop; subst.

Lemma held_free (free : Family → Z → bool) g b f p : free g b = true → held g b f p = 0 ∨ free f p = true.
Proof. unfold held. intros H. case_bool; [right; by subst|by left]. Qed.

Lemma held_le g b f p : held g b f p ≤ 1.
Proof. unfold held. case_bool; lia. Qed.

Lemma serve_step_holds now free l c a l' c' o f p :
  serve_step now free l c a = Some (l', c', o) →
  call_holds f p c' + spawned_by (loop_holds f p) o ≤ call_holds f p c ∨
  (free f p = true ∧ call_holds f p c' + spawned_by (loop_holds f p) o ≤ call_holds f p c + 1).
Proof.
  intros H. unfold call_holds, loop_holds. serve_cases c a H;
    try match goal with
    | H : free ?g ?b = true |- _ => destruct (held_free free g b f p H)
    end;
    try match goal with |- context [held Ipv6 ?b f p] => pose proof (held_le Ipv6 b f p) end;
    try match goal with |- context [held Ipv4 ?b f p] => pose proof (held_le Ipv4 b f p) end;
    repeat case_match; simplify_eq/=; try (left; lia); right; (split; [done|lia]).
Qed.

Lemma serve_step_bridge now free l c a l' c' o :
  serve_step now free l c a = Some (l', c', o) → bridge c' = bridge c.
Proof. intros H. serve_cases c a H; done. Qed.

Section serve_step.
Context (now : Z) (free : Family → Z → bool) (l l' : Leases) (c c' : Call) (a : Answer) (o : option Listener).
Context (rest : Z → nat → nat).
Context (Hstep : serve_step now free l c a = Some (l', c', o)).
Context (Hok : leases_ok l (λ p s, rest p s + call_tokens p s c)).

Lemma serve_step_ok : leases_ok l' (λ p s, rest p s + call_tokens p s c' + spawned_by (loop_tokens p s) o).
Proof.
  pose proof Hok as Hl. unfold call_tokens, call_token, loop_tokens in *. pose proof Hstep as H. serve_cases c a H.
  all: try match goal with v6 : bool |- _ => destruct v6 end; simpl in *.
  all: first
    [ eapply leases_ok_ext, Hl; intros p s'; simpl; repeat case_match; simplify_eq/=; lia
    | eapply refresh_ok; [done|]; eapply leases_ok_ext, Hl; intros p s'; simpl;
      repeat case_match; simplify_eq/=; lia
    | eapply lease_release_ok; [exact Hl|]; intros p s'; simpl; lia
    | eapply (lease_insert_ok now l _ _ _ _ _ _ 2); [exact Hl|lia| |eassumption]; intros p s'; simpl; lia
    | eapply (lease_insert_ok now l _ _ _ _ _ _ 1); [exact Hl|lia| |eassumption]; intros p s'; simpl; lia ].
Qed.

Lemma serve_step_owned p s b : owned l p s b → owned l' p s b.
Proof.
  pose proof Hok as Hl. pose proof Hstep as H. serve_cases c a H; try done.
  - intros Ho. by eapply refresh_owned.
  - destruct v6; intros Ho;
      [eapply (insert_owned now l _ _ _ _ _ 2)|eapply (insert_owned now l _ _ _ _ _ 1)]; eauto with lia.
  - intros Ho. by eapply release_owned.
  - intros Ho. by eapply release_owned.
Qed.

Lemma serve_step_owned_call p s k :
  (∀ p' s' k', call_token c = Some (p', s', k') → owned l p' s' (bridge c)) →
  call_token c' = Some (p, s, k) → owned l' p s (bridge c').
Proof.
  intros Hc. rewrite (serve_step_bridge _ _ _ _ _ _ _ _ Hstep). intros Hc'.
  destruct (call_token c) as [[[p' s'] k']|] eqn:Et.
  - apply serve_step_owned. cut (p' = p ∧ s' = s); [intros [-> ->]; eauto|].
    clear Hc Hok. unfold call_token in *. pose proof Hstep as H. serve_cases c a H; repeat case_match; by simplify_eq/=.
  - assert (∃ v6, stage c = Inserting p v6 ∧ s = (fresh_stop l).2 ∧
      insert now (fresh_stop l).1 p (bridge c) (ttl c) s (if v6 then 2 else 1) = Some l') as (v6 & _ & -> & Hi).
    { clear Hc Hok. unfold call_token in *. pose proof Hstep as H.
      serve_cases c a H; repeat case_match; simplify_eq/=; eauto. }
    destruct v6; [eapply (insert_owned_new now l l' p _ _ 2)|eapply (insert_owned_new now l l' p _ _ 1)]; exact Hi.
Qed.

Lemma serve_step_owned_spawned t :
  (∀ p' s' k', call_token c = Some (p', s', k') → owned l p' s' (bridge c)) →
  o = Some t → status t = Running ∧ owned l' (lport t) (lstop t) (lbridge t).
Proof.
  intros Hc ->. unfold call_token in *. pose proof Hstep as H. serve_cases c a H; split; try done; eapply Hc; done.
Qed.

End serve_step.

Section loop_step.
Context (l l' : Leases) (t t' : Listener) (e : LoopEvent) (out : option (SocketAddr * Z)).
Context (Hstep : loop_step l t e = Some (l', t', out)).

Lemma loop_step_same :
  lport t' = lport t ∧ lstop t' = lstop t ∧ lbridge t' = lbridge t ∧ family t' = family t ∧
  status t ≠ Gone ∧ (∀ f p, loop_holds f p t' ≤ loop_holds f p t).
Proof.
  unfold loop_step, loop_holds in *. destruct (status t) eqn:Es, e; simplify_eq/=; repeat case_bool; simplify_eq/=;
    rewrite ?Es; naive_solver lia.
Qed.

Lemma loop_step_ok (rest : Z → nat → nat) :
  leases_ok l (λ p s, rest p s + loop_tokens p s t) → leases_ok l' (λ p s, rest p s + loop_tokens p s t').
Proof.
  intros Hok. unfold loop_step, loop_tokens in *.
  destruct (status t) eqn:Es, e; simplify_eq/=; repeat case_bool; simplify_eq/=; rewrite ?Es; try done.
  - by apply leases_ok_store.
  - eapply lease_release_ok; [exact Hok|]. intros p s. simpl. lia.
Qed.

Lemma loop_step_owned (rest : Z → nat → nat) p s b :
  leases_ok l (λ p s, rest p s + loop_tokens p s t) → owned l p s b → owned l' p s b.
Proof.
  intros Hok Ho. unfold loop_step in Hstep.
  destruct (status t) eqn:Es, e; simplify_eq/=; repeat case_bool; simplify_eq/=; try done.
  - by apply owned_store.
  - by eapply release_owned.
Qed.

End loop_step.

Lemma serve_on_idle parse cfg p d :
  call_token (serve_on parse cfg p d) = None ∧ ∀ f q, call_holds f q (serve_on parse cfg p d) = 0.
Proof.
  unfold serve_on, call_token, call_holds. destruct (peer_ip parse cfg) as [[]|]; simpl; by repeat case_match.
Qed.

(** The counts of a state in which call [i], or loop [j], is taken apart. *)
Lemma tokens_call st i c p s :
  calls st !! i = Some c →
  tokens st p s = (tokens st p s - call_tokens p s c) + call_tokens p s c.
Proof. intros H. unfold tokens. pose proof (total_lookup (call_tokens p s) _ _ _ H). lia. Qed.

Lemma tokens_loop st j t p s :
  loops st !! j = Some t →
  tokens st p s = (tokens st p s - loop_tokens p s t) + loop_tokens p s t.
Proof. intros H. unfold tokens. pose proof (total_lookup (loop_tokens p s) _ _ _ H). lia. Qed.

Lemma total_option_list {A} (f : A → nat) o :
  total f (option_list o) = match o with Some x => f x | None => 0 end.
Proof. destruct o; unfold total; simpl; lia. Qed.

Lemma inv_call st i c a l' c' o :
  inv st → calls st !! i = Some c →
  serve_step (now st) (is_free st) (leases st) c a = Some (l', c', o) →
  inv {| now := now st; leases := l'; calls := <[i := c']> (calls st);
         loops := loops st ++ option_list o; relayed := relayed st |}.
Proof.
  intros [Hx Hl Hc Ht] Hi Hs.
  assert (leases_ok (leases st) (λ p s, (tokens st p s - call_tokens p s c) + call_tokens p s c)) as Hl'.
  { eapply leases_ok_ext, Hl. intros p s. by rewrite <-(tokens_call st i). }
  split; simpl.
  - intros f p. specialize (Hx f p). unfold holders in *. simpl. rewrite total_app, total_option_list.
    pose proof (total_insert (call_holds f p) _ _ _ c' Hi) as E.
    destruct (serve_step_holds _ _ _ _ _ _ _ _ f p Hs) as [?|[Hf%Nat.eqb_eq ?]];
      unfold holders, spawned_by in *; lia.
  - eapply leases_ok_ext; [|exact (serve_step_ok _ _ _ _ _ _ _ _ _ Hs Hl')].
    intros p s. unfold tokens. simpl. rewrite total_app, total_option_list.
    pose proof (total_insert (call_tokens p s) _ _ _ c' Hi) as E.
    pose proof (total_lookup (call_tokens p s) _ _ _ Hi). unfold spawned_by. lia.
  - intros i' x p s k Hx' Hk. apply list_lookup_insert_Some in Hx' as [(-> & <- & _)|[Hne Hx']].
    + eapply (serve_step_owned_call _ _ _ _ _ _ _ _ _ Hs Hl'); eauto.
    + eapply (serve_step_owned _ _ _ _ _ _ _ _ _ Hs Hl'); eauto.
  - intros j t [Hj|[_ Hj]]%lookup_app_Some Hg.
    + eapply (serve_step_owned _ _ _ _ _ _ _ _ _ Hs Hl'); eauto.
    + destruct o as [t'|]; simpl in Hj; [|by rewrite lookup_nil in Hj].
      apply list_lookup_singleton_Some in Hj as [_ <-].
      by eapply (serve_step_owned_spawned _ _ _ _ _ _ _ _ _ Hs Hl'); [eauto|].
Qed.

Lemma inv_loop st j t e l' t' out rel :
  inv st → loops st !! j = Some t → loop_step (leases st) t e = Some (l', t', out) →
  inv {| now := now st; leases := l'; calls := calls st; loops := <[j := t']> (loops st); relayed := rel |}.
Proof.
  intros [Hx Hl Hc Ht] Hj Hs.
  assert (leases_ok (leases st) (λ p s, (tokens st p s - loop_tokens p s t) + loop_tokens p s t)) as Hl'.
  { eapply leases_ok_ext, Hl. intros p s. by rewrite <-(tokens_loop st j). }
  destruct (loop_step_same _ _ _ _ _ _ Hs) as (Ep & Es & Eb & _ & Hg & Hh).
  split; simpl.
  - intros f p. specialize (Hx f p). specialize (Hh f p). unfold holders in *. simpl.
    pose proof (total_insert (loop_holds f p) _ _ _ t' Hj). lia.
  - eapply leases_ok_ext; [|exact (loop_step_ok _ _ _ _ _ _ Hs _ Hl')].
    intros p s. unfold tokens. simpl. pose proof (total_insert (loop_tokens p s) _ _ _ t' Hj).
    pose proof (total_lookup (loop_tokens p s) _ _ _ Hj). lia.
  - intros i c p s k Hi Hk. eapply (loop_step_owned _ _ _ _ _ _ Hs); [exact Hl'|eauto].
  - intros j' x Hj' Hx'. apply list_lookup_insert_Some in Hj' as [(-> & <- & _)|[Hne Hj']].
    + rewrite Ep, Es, Eb. eapply (loop_step_owned _ _ _ _ _ _ Hs); [exact Hl'|eauto].
    + eapply (loop_step_owned _ _ _ _ _ _ Hs); [exact Hl'|eauto].
Qed.

(** * Runs *)
Section runs.
Context (parse : string → option IpAddr).

Lemma daemon_inv_step st e st' : inv st → step parse st e = Some st' → inv st'.
Proof.
  intros Hinv H. destruct e as [cfg p d|i a|j e| |d]; simpl in H.
  - simplify_eq. destruct Hinv as [Hx Hl Hc Ht]. destruct (serve_on_idle parse cfg p d) as [Et Eh]. split; simpl.
    + intros f q. specialize (Hx f q). unfold holders in *. simpl. rewrite total_app.
      unfold total at 2. simpl. rewrite Eh. lia.
    + eapply leases_ok_ext, Hl. intros q s. unfold tokens. simpl. rewrite total_app. unfold total at 2. simpl.
      unfold call_tokens at 2. rewrite Et. lia.
    + intros i c q s k [Hi|[_ Hi]]%lookup_app_Some Hk; [eauto|].
      apply list_lookup_singleton_Some in Hi as [_ <-]. congruence.
    + done.
  - apply bind_Some in H as (c & Hi & H). apply bind_Some in H as ([[l' c'] o] & Hs & [= <-]). by eapply inv_call.
  - apply bind_Some in H as (t & Hj & H). apply bind_Some in H as ([[l' t'] o] & Hs & [= <-]). by eapply inv_loop.
  - simplify_eq. destruct Hinv as [Hx Hl Hc Ht]. split; simpl; [done|by apply lease_expire_ok| |];
      intros; apply expire_owned; eauto.
  - case_bool; [|done]. simplify_eq. by destruct Hinv as [Hx Hl Hc Ht]; split.
Qed.

Lemma daemon_inv_run st events st' : inv st → run parse st events = Some st' → inv st'.
Proof.
  revert st. induction events as [|e events IH]; intros st Hinv H; simplify_eq/=; [done|].
  apply bind_Some in H as (st1 & H1 & H). eapply IH; [|done]. by eapply daemon_inv_step.
Qed.

Lemma inv_reachable t events st : run parse (start t) events = Some st → inv st.
Proof. apply daemon_inv_run, daemon_inv_start. Qed.

(** Listener [j] accepts connections on IPv4 loopback and has not been told to
    stop. *)
Definition serving (st : State) (j : nat) (t : Listener) : Prop :=
  loops st !! j = Some t ∧ family t = Ipv4 ∧ status t = Running ∧ load (leases st) (lstop t) = false.

Lemma serving_lease st j t : inv st → serving st j t →
  ∃ lease, inner (leases st) !! lport t = Some lease ∧ stop lease = lstop t ∧ owner lease = lbridge t.
Proof.
  intros Hinv (Hj & _ & Hr & Hl). destruct (inv_loops _ Hinv _ _ Hj) as [?|?]; [by rewrite Hr|congruence|done].
Qed.

Lemma serving_counts st j t : serving st j t →
  loop_holds Ipv4 (lport t) t = 1 ∧ loop_tokens (lport t) (lstop t) t = 1.
Proof.
  intros (_ & Hf & Hr & _). unfold loop_holds, loop_tokens, held. rewrite Hr, Hf, at1_same, Z.eqb_refl. done.
Qed.

(** While a listener serves, no other thread holds its address, so none is
    about to insert a lease for its port, and no release is the last. *)
Lemma serving_no_insert st j t i c v6 :
  inv st → serving st j t → calls st !! i = Some c → stage c = Inserting (lport t) v6 → False.
Proof.
  intros Hinv Hs Hi Hc. pose proof (inv_exclusive _ Hinv Ipv4 (lport t)) as Hx. unfold holders in Hx.
  pose proof (total_lookup (call_holds Ipv4 (lport t)) _ _ _ Hi) as H1.
  pose proof (total_lookup (loop_holds Ipv4 (lport t)) _ _ _ (proj1 Hs)) as H2.
  rewrite (proj1 (serving_counts _ _ _ Hs)) in H2.
  assert (1 ≤ call_holds Ipv4 (lport t) c); [|lia].
  unfold call_holds, held. rewrite Hc, Z.eqb_refl. simpl. lia.
Qed.

Lemma serving_tokens_call st j t i c :
  serving st j t → calls st !! i = Some c → call_tokens (lport t) (lstop t) c ≠ 0 →
  2 ≤ tokens st (lport t) (lstop t).
Proof.
  intros Hs Hi Hc. unfold tokens.
  pose proof (total_lookup (call_tokens (lport t) (lstop t)) _ _ _ Hi).
  pose proof (total_lookup (loop_tokens (lport t) (lstop t)) _ _ _ (proj1 Hs)) as H2.
  rewrite (proj2 (serving_counts _ _ _ Hs)) in H2. lia.
Qed.

Lemma serving_tokens_loop st j t j' t' :
  serving st j t → loops st !! j' = Some t' → status t' = Dropped →
  lport t' = lport t → lstop t' = lstop t → 2 ≤ tokens st (lport t) (lstop t).
Proof.
  intros Hs Hj' Hd Ep Es. unfold tokens. destruct (decide (j = j')) as [<-|Hne].
  { destruct Hs as (Hj & _ & Hr & _). congruence. }
  pose proof (total_lookup_2 (loop_tokens (lport t) (lstop t)) _ _ _ _ _ Hne (proj1 Hs) Hj') as H2.
  rewrite (proj2 (serving_counts _ _ _ Hs)) in H2. revert H2.
  unfold loop_tokens at 1. rewrite Hd, Ep, Es, at1_same. lia.
Qed.

(** How a lease and its flag may change: it is kept by its owner, and its
    deadline only grows. *)
Definition kept (l l' : Leases) (p : Z) (lease : Lease) : Prop :=
  ∃ lease', inner l' !! p = Some lease' ∧ owner lease' = owner lease ∧ stop lease' = stop lease ∧
    (deadline lease <= deadline lease')%Z.

Lemma kept_refl l l' p lease : inner l !! p = Some lease → inner l' = inner l → kept l l' p lease.
Proof. intros H E. exists lease. rewrite E. split_and!; [done..|lia]. Qed.

Lemma release_kept l tok p lease p' s' :
  leases_ok l tok → inner l !! p = Some lease → (p' = p → s' = stop lease → 2 ≤ tok p (stop lease)) →
  kept l (release l p' s').1 p lease ∧
  (load (release l p' s').1 (stop lease) = true → load l (stop lease) = true).
Proof.
  intros Hok Hl Ht.
  destruct (release_cases l tok p' s' Hok) as [(x & Hx & <- & [[E ->]|[E ->]])|[Hno ->]]; simpl.
  - assert (p' ≠ p). { intros ->. simplify_eq. specialize (Ht eq_refl eq_refl). lia. }
    split.
    + exists lease. simpl. rewrite lookup_delete_ne by done. split_and!; [done..|lia].
    + intros [[Es _]|?]%load_store; [|done]. by destruct (ok_unique _ _ Hok _ _ _ _ Hl Hx Es).
  - split; [|done]. destruct (decide (p' = p)) as [->|Hne].
    + assert (x = lease) as -> by congruence. exists (with_listeners lease 1). simpl. rewrite lookup_insert_eq. split_and!; [done..|simpl; lia].
    + exists lease. simpl. rewrite lookup_insert_ne by done. split_and!; [done..|lia].
  - split; [|done]. by apply (kept_refl l).
Qed.

Lemma refresh_kept now l p lease p' b d l' r :
  refresh now l p' b d = Some (l', r) → inner l !! p = Some lease →
  kept l l' p lease ∧ flags l' = flags l.
Proof.
  intros [->|(x & d' & Hx & Hd & _ & _ & ->)]%refresh_inv Hl; [split; [by apply (kept_refl l)|done]|].
  split; [|done]. destruct (decide (p' = p)) as [->|Hne].
  - assert (x = lease) as -> by congruence. exists (with_deadline lease d'). simpl. rewrite lookup_insert_eq. split_and!; [done..|simpl; lia].
  - exists lease. simpl. rewrite lookup_insert_ne by done. split_and!; [done..|lia].
Qed.

Lemma insert_kept now l tok p lease p' b d n l' :
  leases_ok l tok → inner l !! p = Some lease → p' ≠ p → load l (stop lease) = false →
  insert now (fresh_stop l).1 p' b d (fresh_stop l).2 n = Some l' →
  kept l l' p lease ∧ load l' (stop lease) = false.
Proof.
  intros Hok Hl Hne Hf (dl & l1 & El & ->)%insert_inv. split.
  - exists lease. simpl. rewrite lookup_insert_ne by done. split_and!; [done..|lia].
  - change (load l1 (stop lease) = false). pose proof (ok_alloc _ _ Hok _ _ Hl) as Ha.
    assert (load (fresh_stop l).1 (stop lease) = false) as Hf'.
    { unfold load in *. simpl. by rewrite lookup_app_l by done. }
    subst l1. simpl. destruct (inner l !! p') as [x|] eqn:Hx; [|done].
    apply not_true_iff_false. intros [[Es _]|Ht]%load_store; [|by unfold fresh_stop in Hf'; simpl in Hf'; congruence].
    by destruct (ok_unique _ _ Hok _ _ _ _ Hl Hx Es).
Qed.

(** A failed accept of a loop sharing the flag, or the reaper after the
    deadline, is all that stops a serving listener. *)
Definition ends (st : State) (e : Event) (lease : Lease) : Prop :=
  (e = EExpire ∧ (deadline lease <= now st)%Z) ∨
  ∃ j' t', e = ELoop j' AcceptFailed ∧ loops st !! j' = Some t' ∧ lstop t' = stop lease.

Lemma serving_step st j t lease e st' :
  inv st → serving st j t → inner (leases st) !! lport t = Some lease → stop lease = lstop t →
  step parse st e = Some st' →
  kept (leases st) (leases st') (lport t) lease ∧
  (load (leases st') (lstop t) = true → ends st e lease).
Proof.
  intros Hinv Hs Hl Es H. pose proof (inv_leases _ Hinv) as Hok. pose proof Hs as (_ & _ & _ & Hf).
  rewrite <-Es in Hf |- *. destruct e as [cfg p d|i a|j' e| |d]; simpl in H.
  - simplify_eq/=. split; [by eapply kept_refl|congruence].
  - apply bind_Some in H as (c & Hi & H). apply bind_Some in H as ([[l' c'] o] & Hstep & [= <-]). simpl.
    assert (∀ k, call_token c = Some (lport t, stop lease, S k) → 2 ≤ tokens st (lport t) (stop lease)) as Htok.
    { intros k Hk. rewrite Es in *. eapply serving_tokens_call; [done..|].
      unfold call_tokens. rewrite Hk, at1_same. lia. }
    serve_cases c a Hstep; try (split; [by eapply kept_refl|congruence]).
    + destruct (refresh_kept _ _ _ _ _ _ _ _ _ H Hl) as [Hk Efl]. split; [done|]. unfold load in *. congruence.
    + destruct (decide (bound = lport t)) as [->|Hne]; [by exfalso; eapply serving_no_insert|].
      eapply insert_kept in H as [? ?]; [|done..]. split; [done|congruence].
    + destruct (release_kept _ _ _ _ bound s Hok Hl) as [? Hr]; [|split; [done|by rewrite Hf in Hr; intros ?%Hr]].
      intros -> ->. eapply (Htok (if v6 then 1 else 0)). unfold call_token. rewrite Hstage. by destruct v6.
    + destruct (release_kept _ _ _ _ bound s Hok Hl) as [? Hr]; [|split; [done|by rewrite Hf in Hr; intros ?%Hr]].
      intros -> ->. eapply (Htok 0). unfold call_token. by rewrite Hstage.
  - apply bind_Some in H as (t' & Hj' & H). apply bind_Some in H as ([[l' t''] o] & Hstep & [= <-]). simpl.
    unfold loop_step in Hstep. destruct (status t') eqn:Est, e; simplify_eq/=; repeat case_bool; simplify_eq/=;
      try (split; [by eapply kept_refl|congruence]).
    + split; [by eapply kept_refl|]. intros [[E _]|?]%load_store; [|congruence]. right. eauto 10.
    + destruct (release_kept _ _ _ _ (lport t') (lstop t') Hok Hl) as [? Hr];
        [|split; [done|by rewrite Hf in Hr; intros ?%Hr]].
      intros Ep Es'. rewrite Es in *. by eapply serving_tokens_loop.
  - simplify_eq/=. destruct (expire_spec (now st) (leases st)) as (Ei & _ & Hx).
    split; [by eapply kept_refl|]. intros [?|(p & x & Hx' & E & Hd)]%Hx; [congruence|].
    left. split; [done|]. assert (p = lport t) as -> by (by eapply ok_unique). by simplify_eq.
  - case_bool; [|done]. simplify_eq/=. split; [by eapply kept_refl|congruence].
Qed.

Lemma serving_stays st j t e st' :
  inv st → serving st j t → step parse st e = Some st' →
  load (leases st') (lstop t) = false → serving st' j t.
Proof.
  intros Hinv Hs H Hf'. pose proof (serving_lease _ _ _ Hinv Hs) as (lease & Hl & Es & _).
  destruct Hs as (Hj & Hfam & Hr & Hf). split_and!; [|done..].
  destruct e as [cfg p d|i a|j' e| |d]; simpl in H; [by simplify_eq| | |by simplify_eq|by case_bool; simplify_eq].
  - apply bind_Some in H as (c & Hi & H). apply bind_Some in H as ([[l' c'] o] & Hstep & [= <-]).
    simpl. by apply lookup_app_l_Some.
  - apply bind_Some in H as (t' & Hj' & H). apply bind_Some in H as ([[l' t''] o] & Hstep & [= <-]). simpl in *.
    destruct (decide (j' = j)) as [->|Hne]; [|by rewrite list_lookup_insert_ne].
    assert (t' = t) as -> by congruence. rewrite list_lookup_insert_eq by (by eapply lookup_lt_Some).
    unfold loop_step in Hstep. rewrite Hr in Hstep.
    destruct e; try rewrite Hf in Hstep; simplify_eq/=; try done.
    exfalso. revert Hf'. apply not_false_iff_true, load_store. left. split; [done|].
    rewrite <-Es. eapply ok_alloc; [apply (inv_leases _ Hinv)|done].
Qed.

(** A call for another bridge on a served port ends with the owner's address
    and changes nothing. *)
Lemma foreign_refused st j t i c :
  inv st → serving st j t → calls st !! i = Some c → stage c = Refreshing →
  port c = lport t → bridge c ≠ lbridge t →
  step parse st (ECall i Proceed) = Some {|
    now := now st; leases := leases st;
    calls := <[i := at_stage c (Finished (Err (OwnedError (port c) (lbridge t))))]> (calls st);
    loops := loops st; relayed := relayed st |}.
Proof.
  intros Hinv Hs Hi Hc Hp Hb. pose proof (serving_lease _ _ _ Hinv Hs) as (lease & Hl & Es & Eo).
  destruct Hs as (_ & _ & _ & Hf). simpl. rewrite Hi. simpl. unfold serve_step. rewrite Hc.
  unfold refresh. rewrite Hp, Hl, Es, Hf, Eo, bool_decide_eq_false_2 by congruence. simpl.
  by rewrite app_nil_r.
Qed.

(** C12: a callback port that a devbox's listener serves stays with that
    devbox.  From any state of a run in which a listener serves the port, along
    any further interleaving, either the listener still serves it, the lease on
    record is still that bridge's with a deadline no earlier than before, and
    a call of [serve_on] for another bridge is refused naming the owner and
    changes nothing; or at some point the reaper met the deadline of that
    bridge's lease, or accepting on one of its own listeners failed. *)
Theorem served_port_kept t0 events st j t lease later st' :
  run parse (start t0) events = Some st → serving st j t →
  inner (leases st) !! lport t = Some lease →
  run parse st later = Some st' →
  (serving st' j t ∧ owner lease = lbridge t ∧ kept (leases st) (leases st') (lport t) lease ∧
   ∀ i c, calls st' !! i = Some c → stage c = Refreshing → port c = lport t → bridge c ≠ lbridge t →
     step parse st' (ECall i Proceed) = Some {|
       now := now st'; leases := leases st';
       calls := <[i := at_stage c (Finished (Err (OwnedError (port c) (lbridge t))))]> (calls st');
       loops := loops st'; relayed := relayed st' |}) ∨
  (∃ before e after mid lease', later = before ++ e :: after ∧ run parse st before = Some mid ∧
     inner (leases mid) !! lport t = Some lease' ∧ owner lease' = lbridge t ∧ ends mid e lease').
Proof.
  intros Hinv%inv_reachable Hs Hl Hrun.
  revert st lease Hinv Hs Hl Hrun. induction later as [|e later IH]; intros st lease Hinv Hs Hl Hrun.
  - simplify_eq/=. pose proof (serving_lease _ _ _ Hinv Hs) as (x & Hx & Es & Eo). left.
    assert (x = lease) as -> by congruence. split_and!; [done|done|by eapply kept_refl|].
    intros. by eapply foreign_refused.
  - simpl in Hrun. apply bind_Some in Hrun as (st1 & H1 & Hrun).
    pose proof (serving_lease _ _ _ Hinv Hs) as (x & Hx & Es & Eo). assert (x = lease) as -> by congruence.
    destruct (serving_step _ _ _ _ _ _ Hinv Hs Hl Es H1) as [(lease1 & Hl1 & Ho1 & _ & Hd1) Hends].
    destruct (load (leases st1) (lstop t)) eqn:Hf.
    { right. exists [], e, later, st, lease. naive_solver. }
    pose proof (serving_stays _ _ _ _ _ Hinv Hs H1 Hf) as Hs1. pose proof (daemon_inv_step _ _ _ Hinv H1) as Hinv1.
    destruct (IH st1 lease1 Hinv1 Hs1 Hl1 Hrun) as [(? & ? & (x & ? & ? & ? & ?) & ?)|(bf & e' & af & mid & x & -> & Hm & Hr)].
    + left. split_and!; [done|congruence| |done]. exists x. split_and!; [done|congruence| |lia].
      destruct (serving_lease _ _ _ Hinv1 Hs1) as (y & Hy & Ey & _). congruence.
    + right. exists (e :: bf), e', af, mid, x. simpl. rewrite H1. split_and!; [done|done|apply Hr..].
Qed.

(** A lease counts its listeners.  In every reachable state the count kept
    with a lease is the number of listeners of that lease that a thread still
    runs or has yet to release, one or two, so the decrement of a release
    never wraps and the lease is removed by its last listener and no other;
    and no address is bound twice. *)
Lemma lease_counts_listeners t0 events st :
  run parse (start t0) events = Some st →
  (∀ p lease, inner (leases st) !! p = Some lease →
     listeners lease = Z.of_nat (tokens st p (stop lease)) ∧ 1 ≤ tokens st p (stop lease) ≤ 2 ∧
     (snd (release (leases st) p (stop lease)) = true ↔ tokens st p (stop lease) = 1)) ∧
  (∀ f p, holders st f p ≤ 1).
Proof.
  intros Hinv%inv_reachable. split; [|apply (inv_exclusive _ Hinv)].
  intros p lease Hl. pose proof (inv_leases _ Hinv) as Hok. destruct (ok_count _ _ Hok _ _ Hl) as [Hn Hb].
  split_and!; [done|lia|lia|].
  destruct (release_cases _ _ p (stop lease) Hok) as [(x & Hx & Es & [[E ->]|[E ->]])|[Hno _]]; simpl.
  - by rewrite E.
  - by rewrite E.
  - by destruct (Hno _ Hl).
Qed.

(** ** Release

    The steps the holders of a lease's listeners still have before them. *)
Definition call_work (p : Z) (s : nat) (c : Call) : nat :=
  match call_token c with
  | Some (b, s', _) =>
      at1 b s' p s *
      match stage c with
      | SpawningV4 _ _ true => 6
      | SpawningV4 _ _ false | ReleasingV4 _ _ true | SpawningV6 _ _ => 3
      | DroppingV6 _ _ => 2
      | _ => 1
      end
  | None => 0
  end.

Definition loop_work (p : Z) (s : nat) (t : Listener) : nat :=
  at1 (lport t) (lstop t) p s * match status t with Running => 2 | Dropped => 1 | Gone => 0 end.

Definition work (st : State) (p : Z) (s : nat) : nat :=
  total (call_work p s) (calls st) + total (loop_work p s) (loops st).

Lemma total_le {A} (f g : A → nat) l : (∀ x, f x ≤ g x) → total f l ≤ total g l.
Proof. intros H. unfold total. induction l as [|x l IH]; cbn in *; [lia|]. specialize (H x). lia. Qed.

Lemma total_pos {A} (f : A → nat) l : 1 ≤ total f l → ∃ i x, l !! i = Some x ∧ 1 ≤ f x.
Proof.
  unfold total. induction l as [|x l IH]; cbn in *; [lia|]. intros H. destruct (decide (1 ≤ f x)).
  - by exists 0, x.
  - destruct IH as (i & y & Hi & Hy); [lia|]. by exists (S i), y.
Qed.

Lemma total_mul {A} (f : A → nat) k l : total (λ x, k * f x) l = k * total f l.
Proof. unfold total. induction l as [|x l IH]; cbn in *; [lia|]. rewrite IH. lia. Qed.

Lemma work_bound st p s : work st p s ≤ 3 * tokens st p s.
Proof.
  unfold work, tokens. rewrite Nat.mul_add_distr_l, <-!total_mul. apply Nat.add_le_mono; apply total_le.
  - intros c. unfold call_work, call_tokens, call_token. destruct (stage c); repeat case_match; simplify_eq/=; lia.
  - intros t. unfold loop_work, loop_tokens. destruct (status t); lia.
Qed.

Lemma work_pos st p s : tokens st p s ≤ 2 * work st p s.
Proof.
  unfold work, tokens. rewrite Nat.mul_add_distr_l, <-!total_mul. apply Nat.add_le_mono; apply total_le.
  - intros c. unfold call_work, call_tokens, call_token. destruct (stage c); repeat case_match; simplify_eq/=; lia.
  - intros t. unfold loop_work, loop_tokens. destruct (status t); lia.
Qed.

Definition is_thread_step (e : Event) : bool :=
  match e with ECall _ _ | ELoop _ _ => true | _ => false end.

(** The answer a call waits for when nothing goes wrong. *)
Definition answer_of (g : Stage) : Answer :=
  match g with SpawningV4 _ _ _ | SpawningV6 _ _ => SpawnOk | _ => Proceed end.

(** What is left of a lease after a step of one of its holders. *)
Definition released_or_less (st st' : State) (p : Z) (s : nat) : Prop :=
  inner (leases st') !! p = None ∨
  ((∃ lease, inner (leases st') !! p = Some lease ∧ stop lease = s) ∧
   load (leases st') s = true ∧ work st' p s < work st p s).

Lemma release_stays l tok p lease :
  leases_ok l tok → inner l !! p = Some lease → load l (stop lease) = true →
  inner (release l p (stop lease)).1 !! p = None ∨
  ((∃ lease', inner (release l p (stop lease)).1 !! p = Some lease' ∧ stop lease' = stop lease) ∧
   load (release l p (stop lease)).1 (stop lease) = true).
Proof.
  intros Hok Hl Hf. destruct (release_cases l tok p (stop lease) Hok) as [(x & Hx & Es & [[E ->]|[E ->]])|[Hno _]].
  - left. simpl. apply lookup_delete_eq.
  - right. simpl. rewrite lookup_insert_eq. split; [eexists; split; [done|by simplify_eq]|done].
  - by destruct (Hno _ Hl).
Qed.

Lemma call_progress st i c p lease :
  inv st → inner (leases st) !! p = Some lease → load (leases st) (stop lease) = true →
  calls st !! i = Some c → 1 ≤ call_tokens p (stop lease) c →
  ∃ st', step parse st (ECall i (answer_of (stage c))) = Some st' ∧ released_or_less st st' p (stop lease).
Proof.
  intros Hinv Hl Hf Hi Ht. pose proof (inv_leases _ Hinv) as Hok.
  assert (∃ k, call_token c = Some (p, stop lease, k)) as [k Hk].
  { unfold call_tokens in Ht. destruct (call_token c) as [[[b s] k]|]; [|lia]. exists k. revert Ht. unfold at1.
    destruct (Z.eqb_spec b p), (Nat.eqb_spec s (stop lease)); simpl; subst; [done|lia..]. }
  pose proof (release_stays _ _ _ _ Hok Hl Hf) as Hrel.
  assert (∀ c' l' o, serve_step (now st) (is_free st) (leases st) c (answer_of (stage c)) = Some (l', c', o) →
    step parse st (ECall i (answer_of (stage c))) = Some {| now := now st; leases := l'; calls := <[i := c']> (calls st);
              loops := loops st ++ option_list o; relayed := relayed st |}) as Hstep.
  { intros c' l' o E. simpl. by rewrite Hi; simpl; rewrite E. }
  assert (∀ c' l' o, call_work p (stop lease) c' + total (loop_work p (stop lease)) (option_list o)
      < call_work p (stop lease) c → work {| now := now st; leases := l'; calls := <[i := c']> (calls st);
              loops := loops st ++ option_list o; relayed := relayed st |} p (stop lease) < work st p (stop lease)) as Hw.
  { intros c' l' o E. unfold work. simpl. rewrite total_app.
    pose proof (total_insert (call_work p (stop lease)) _ _ _ c' Hi). lia. }
  unfold serve_step, call_token in *. destruct (stage c) eqn:Hstage; simplify_eq/=;
    (eexists; split; [by apply Hstep|]); unfold released_or_less; cbn [leases].
  all: try (destruct Hrel as [Hn|[Hy Hfl]]; [by left|right; split; [done|split; [done|]]]).
  all: try (right; split; [by exists lease|split; [done|]]).
  all: apply Hw; unfold call_work, call_token, loop_work, total; simpl; rewrite Hstage; simpl;
    try destruct v6; simpl; rewrite ?at1_same; lia.
Qed.

Lemma loop_progress st j t p lease :
  inv st → inner (leases st) !! p = Some lease → load (leases st) (stop lease) = true →
  loops st !! j = Some t → 1 ≤ loop_tokens p (stop lease) t →
  ∃ e st', step parse st (ELoop j e) = Some st' ∧ released_or_less st st' p (stop lease).
Proof.
  intros Hinv Hl Hf Hj Ht. pose proof (inv_leases _ Hinv) as Hok.
  assert (status t ≠ Gone ∧ lport t = p ∧ lstop t = stop lease) as (Hg & Ep & Es).
  { unfold loop_tokens, at1 in Ht. destruct (status t); [..|lia];
      destruct (Z.eqb_spec (lport t) p), (Nat.eqb_spec (lstop t) (stop lease)); simpl in Ht; lia || done. }
  pose proof (release_stays _ _ _ _ Hok Hl Hf) as Hrel.
  assert (∀ e l' t', loop_step (leases st) t e = Some (l', t', None) →
    loop_work p (stop lease) t' < loop_work p (stop lease) t →
    (inner l' !! p = None ∨ (∃ x, inner l' !! p = Some x ∧ stop x = stop lease) ∧ load l' (stop lease) = true) →
    ∃ e st', step parse st (ELoop j e) = Some st' ∧ released_or_less st st' p (stop lease)) as Hdo.
  { intros e l' t' E Hw Hr. exists e. simpl. rewrite Hj. simpl. rewrite E. simpl. eexists. split; [done|].
    unfold released_or_less, work. simpl. pose proof (total_insert (loop_work p (stop lease)) _ _ _ t' Hj).
    destruct Hr as [Hr|[Hr Hr']]; [by left|right]. split; [done|split; [done|lia]]. }
  destruct (status t) eqn:Est; [| |done].
  - apply (Hdo SeeStop (leases st) (with_status t Dropped)).
    + unfold loop_step. by rewrite Est, Es, Hf.
    + unfold loop_work. simpl. rewrite Est, Ep, Es, at1_same. lia.
    + right. split; [by exists lease|done].
  - apply (Hdo ReleaseLoop (release (leases st) p (stop lease)).1 (with_status t Gone)).
    + unfold loop_step. by rewrite Est, Es, Ep.
    + unfold loop_work. simpl. rewrite Est, Ep, Es, at1_same. lia.
    + done.
Qed.

Lemma stopped_progress st p lease :
  inv st → inner (leases st) !! p = Some lease → load (leases st) (stop lease) = true →
  ∃ e st', is_thread_step e = true ∧ step parse st e = Some st' ∧ released_or_less st st' p (stop lease).
Proof.
  intros Hinv Hl Hf. pose proof (ok_count _ _ (inv_leases _ Hinv) _ _ Hl) as [_ [Ht _]]. unfold tokens in Ht.
  destruct (decide (1 ≤ total (call_tokens p (stop lease)) (calls st))) as [Hc|Hc].
  - destruct (total_pos _ _ Hc) as (i & c & Hi & Hc').
    destruct (call_progress st i c p lease) as (st' & ? & ?); [done..|]. by exists (ECall i (answer_of (stage c))), st'.
  - destruct (total_pos (loop_tokens p (stop lease)) (loops st)) as (j & t & Hj & Ht'); [lia|].
    destruct (loop_progress st j t p lease) as (e & st' & ? & ?); [done..|]. by exists (ELoop j e), st'.
Qed.

(** A port whose lease was told to stop becomes free again, so a caller
    waiting for it is not kept forever: from every reachable state at most six
    steps, all of the threads that hold its listeners, remove the lease. *)
Lemma stopped_port_released t0 events st p lease :
  run parse (start t0) events = Some st →
  inner (leases st) !! p = Some lease → load (leases st) (stop lease) = true →
  ∃ later st', run parse st later = Some st' ∧ forallb is_thread_step later = true ∧
    length later ≤ 6 ∧ inner (leases st') !! p = None.
Proof.
  intros Hinv%inv_reachable Hl Hf.
  assert (work st p (stop lease) ≤ 6) as Hw.
  { pose proof (work_bound st p (stop lease)). pose proof (ok_count _ _ (inv_leases _ Hinv) _ _ Hl). lia. }
  revert Hw. generalize 6 as n. intros n. revert st lease Hinv Hl Hf.
  induction n as [|n IH]; intros st lease Hinv Hl Hf Hn.
  { pose proof (work_pos st p (stop lease)). pose proof (ok_count _ _ (inv_leases _ Hinv) _ _ Hl). lia. }
  destruct (stopped_progress st p lease Hinv Hl Hf) as (e & st1 & He & H1 & [Hr|((x & Hx & Es) & Hf1 & Hw)]).
  - exists [e], st1. simpl. rewrite H1, He. simpl. split_and!; [done..|lia|done].
  - destruct (IH st1 x) as (later & st2 & H2 & Hth & Hlen & Hr);
      [by eapply daemon_inv_step|done|by rewrite Es|rewrite Es; lia|].
    exists (e :: later), st2. simpl. rewrite H1, He. simpl. split_and!; [done..|lia|done].
Qed.

End runs.

(** * A run

    One devbox's bridge gets port 8400 on both families; another devbox then
    asks for the same port. *)
Definition demo_serve : list Event :=
  [EServe demo_config 8400 (Time.from_secs 300); ECall 0 Proceed; ECall 0 (BindOk 8400);
   ECall 0 (BindOk 8400); ECall 0 Proceed; ECall 0 SpawnOk; ECall 0 SpawnOk; ELoop 0 Accepted].

Definition other_config : Config := {|
  mode := Allowlist; opener := []; notifier := []; clipboard := [];
  forward_ttl_secs := 300; listen := "100.64.0.1"; peer := "100.64.0.1"; peers := None;
  bridge_port := 12801; relay_port := 12803; pcsc_port := 12804;
  grant_port := 12805; pulse_port := 12806; allow := [];
|}.

Definition demo_later : list Event :=
  [ETime (Time.from_secs 1); EServe other_config 8400 (Time.from_secs 300); EExpire; ECall 1 Proceed].

Definition demo_stop : list Event := [ETime (Time.from_secs 300); EExpire].

Definition demo_state (events : list Event) : State := default (start 0) (run demo_parse (start 0) events).

Definition demo_owner : SocketAddr := {| ip := Peers.V4 100 64 0 2; sport := 12801 |}.

Definition demo_listener : Listener :=
  {| family := Ipv4; lport := 8400; lbridge := demo_owner; lstop := 0; status := Running |}.

Definition demo_lease : Lease :=
  {| owner := demo_owner; deadline := Time.from_secs 300; listeners := 2; stop := 0 |}.

Lemma served_port_kept_witness :
  (stage <$> calls (demo_state (demo_serve ++ demo_later)) !! 1 = Some (Finished (Err (OwnedError 8400 demo_owner)))) ∧
  (serving (demo_state (demo_serve ++ demo_later)) 0 demo_listener ∨
   ∃ before e after mid lease', demo_later = before ++ e :: after ∧
     run demo_parse (demo_state demo_serve) before = Some mid ∧
     inner (leases mid) !! 8400%Z = Some lease' ∧ ends mid e lease').
Proof.
  split; [by vm_compute|].
  destruct (served_port_kept demo_parse 0 demo_serve (demo_state demo_serve) 0 demo_listener demo_lease
    demo_later (demo_state (demo_serve ++ demo_later))) as [[H _]|(b & e & a & m & x & H1 & H2 & H3 & _ & H4)];
    [by vm_compute|by vm_compute|by vm_compute|by vm_compute|by left|right].
  by exists b, e, a, m, x.
Defined.

Lemma lease_counts_listeners_witness :
  tokens (demo_state demo_serve) 8400 0 = 2 ∧ listeners demo_lease = 2%Z ∧
  ∀ f p, holders (demo_state demo_serve) f p ≤ 1.
Proof.
  split; [by vm_compute|]. split; [done|].
  apply (lease_counts_listeners demo_parse 0 demo_serve). by vm_compute.
Defined.

Lemma stopped_port_released_witness :
  ∃ later st', run demo_parse (demo_state (demo_serve ++ demo_stop)) later = Some st' ∧
    forallb is_thread_step later = true ∧ length later ≤ 6 ∧ inner (leases st') !! 8400%Z = None.
Proof.
  apply (stopped_port_released demo_parse 0 (demo_serve ++ demo_stop) _ 8400 demo_lease); by vm_compute.
Defined.
