(* ===== verification/Daemon.v ===== *)
(** The URL channel between a devbox and the laptop's daemon, both ends
    ([crates/forward/src/daemon.rs], [daemon/origin.rs],
    [daemon/notification.rs], [request.rs], [localhost.rs],
    [bridge/ports.rs], [send.rs], [port.rs], [opener.rs]).

    A [url::Url] is what its accessors return and [Url::parse] is a parameter,
    as are the address parser and printer.  Serving a port is a
    state-passing function [serve] that the daemon's handlers call; its own
    threads are the subject of [Leases].  Output to the log is left out. *)

From stdpp Require Import prelude strings list gmap.
From Stdlib Require Import ZArith Lia Ascii.
From S2P Require Import Prelude Text Peers Bridge Policy Leases.

Local Open Scope string_scope.

(** * URLs *)
Record WebUrl : Type := {
  scheme : string;
  base : Policy.Url;
  explicit_port : option Z;
  query_pairs : list (string * string);
}.

Definition url_text (u : WebUrl) : string := as_str (base u).

Definition MAX_DYNAMIC_FORWARDS : nat := 4.

(** * Requests *)
Inductive DaemonRequest : Type :=
| OpenUrl (u : WebUrl)
| HoldPort (port secs : Z).

Definition MAX_URL_BYTES : nat := 8192.
Definition READ_TIMEOUT : Z := Time.from_secs 5.

(** What one [fill_buf] of the request's reader gives. *)
Inductive fill : Type :=
| Filled (chunk : string)
| EndOfStream
| TimedOutFill
| FillFailed.

(** [read_line]: each turn takes what one read left in the buffer, up to the
    newline and never past the limit.  [Some None] is a refusal, [None] an
    unfinished script. *)
Fixpoint read_url_line (started : Z) (bytes : string) (script : list (Z * fill)) : option (option string) :=
  if ends_with bytes (String newline "") then Some (Some bytes) else
  if (MAX_URL_BYTES <=? String.length bytes)%nat then Some None else
  match script with
  | [] => None
  | (now, f) :: rest =>
      if (READ_TIMEOUT <=? Time.duration_since now started)%Z then Some None else
      match f with
      | Filled "" | EndOfStream | TimedOutFill | FillFailed => Some None
      | Filled chunk =>
          let limit := Nat.min (MAX_URL_BYTES - String.length bytes) (String.length chunk) in
          read_url_line started (bytes +:+ through_newline (prefix_of limit chunk)) rest
      end
  end.

(** [parse_hold]: the digits test of each field and the parse at its width are
    [Bridge.number]; both fields are tested before either is parsed, which
    makes no difference to an [Option]. *)
Definition parse_hold (fields : string) : option DaemonRequest :=
  '(port, secs) ← split_once " " fields;
  p ← number u16_max port;
  t ← number u64_max secs;
  Some (HoldPort p t).

(** * Outcomes *)
Inductive Outcome : Type := Opened | Notified.

#[global] Instance Outcome_eq_dec : EqDecision Outcome.
Proof. solve_decision. Defined.

Definition as_wire (o : Outcome) : string :=
  match o with Opened => "opened" | Notified => "notified" end.

Definition from_wire (line : string) : option Outcome :=
  let line := str_trim line in
  if bool_decide (line = "opened") then Some Opened
  else if bool_decide (line = "notified") then Some Notified
  else None.

(** * Notification

    How the notifier's process ended: its status and output, the timeout, or
    an error of starting or waiting for it. *)
Inductive WaitResult : Type :=
| Exited (success : bool) (stdout : string)
| TimedOutWait
| WaitError.

(** Output with an invalid byte has a replacement character, which no trimming
    removes. *)
Definition notify_with_approval (r : WaitResult) : bool :=
  match r with
  | Exited true stdout =>
      match from_utf8 stdout with Some s => bool_decide (str_trim s = "default") | None => false end
  | _ => false
  end.

(** The commands the daemon's handlers run, as a log: an opener, a configured
    notifier, [notify-send], and the clipboard's command with what is written
    to it. *)
Inductive effect : Type :=
| OpenerStarted (program : string) (arguments : list string)
| NotifierRun (program : string) (arguments : list string)
| NotifySent (arguments : list string)
| ClipboardRun (program : string) (arguments : list string) (input : string).

#[global] Instance effect_eq_dec : EqDecision effect.
Proof. solve_decision. Defined.

(** What the clipboard's command met: whether it started, whether its input was
    written, and its status unless waiting failed. *)
Record Clipboard : Type := { clip_started : bool; clip_written : bool; clip_exit : option bool }.

Definition copy_url (cfg : Config) (u : WebUrl) (c : Clipboard) : list effect * bool :=
  match clipboard cfg with
  | [] => ([], false)
  | program :: arguments =>
      if negb (clip_started c) then ([], false) else
      ([ClipboardRun program arguments (url_text u)],
       match clip_written c, clip_exit c with true, Some true => true | _, _ => false end)
  end.

(** The dash is U+2014. *)
Definition em_dash : string := String (char_of 226) (String (char_of 128) (String (char_of 148) "")).

Definition notify_builtin (cfg : Config) (u : WebUrl) (c : Clipboard) : list effect :=
  let '(ran, copied) := copy_url cfg u c in
  let summary := "forward: not in allowlist " +:+ em_dash +:+
                 (if copied : bool then " URL copied" else " URL not copied") in
  (ran ++ [NotifySent ["--app-name=forward"; "--urgency=critical"; summary; url_text u]])%list.

Record Notifying : Type := { answered : WaitResult; clip : Clipboard }.

Definition notify_url (cfg : Config) (u : WebUrl) (n : Notifying) : list effect * bool :=
  match notifier cfg with
  | [] => (notify_builtin cfg u (clip n), false)
  | program :: arguments =>
      ([NotifierRun program (arguments ++ [url_text u])%list], notify_with_approval (answered n))
  end.

(** The polls of [run_command]: the status once the child exited, a clock
    reading while it has not, or an error; then what killing it and collecting
    its output gave. *)
Inductive poll : Type := Finished (success : bool) | StillRunning (now : Z) | PollError.

Record Reaped : Type := { killed : bool; collected : option string }.

Fixpoint run_command (deadline : Z) (end_ : Reaped) (script : list poll) : option WaitResult :=
  match script with
  | [] => None
  | Finished success :: _ =>
      Some (match collected end_ with Some out => Exited success out | None => WaitError end)
  | StillRunning now :: rest =>
      if (deadline <=? now)%Z then
        Some (match collected end_ with
              | Some _ => if killed end_ then TimedOutWait else WaitError
              | None => WaitError
              end)
      else run_command deadline end_ rest
  | PollError :: _ => Some WaitError
  end.

Definition NOTIFIER_APPROVAL_TIMEOUT : Z := Time.from_secs 300.
Definition OUTCOME_TIMEOUT : Z := Time.from_secs 10.
Definition MAX_HOLD : Z := Time.from_secs 600.

(** [url_host] for an address's text: IPv6 literals are bracketed. *)
Definition url_host (is_v6 : string → bool) (host : string) : string :=
  if is_v6 host then "[" +:+ host +:+ "]" else host.

Section daemon.
Context (parse : string → option IpAddr) (show_ip : IpAddr → string).
Context (show_addr : SocketAddr → string) (show_io : IoKind → string).
Context (parse_url : string → option WebUrl).

Definition is_v6_literal (s : string) : bool :=
  match parse s with Some (Peers.V6 _ _ _ _ _ _ _ _) => true | _ => false end.

(** * Ports of a URL *)
Definition loopback_port (u : WebUrl) : option Z :=
  host ← host_str (base u);
  if bool_decide (host = "localhost") || bool_decide (host = "127.0.0.1") || bool_decide (host = "[::1]")
  then explicit_port u else None.

Definition redirect_port (kv : string * string) : option Z :=
  if bool_decide (kv.1 = "redirect_uri") then parse_url kv.2 ≫= loopback_port else None.

Fixpoint push_ports (ports : list Z) (pairs : list (string * string)) : list Z :=
  match pairs with
  | [] => ports
  | kv :: rest =>
      push_ports (match redirect_port kv with
                  | Some p => if bool_decide (p ∈ ports) then ports else (ports ++ [p])%list
                  | None => ports
                  end) rest
  end.

Definition forward_ports (u : WebUrl) : list Z :=
  push_ports (match loopback_port u with Some p => [p] | None => [] end) (query_pairs u).

Definition callback_ports (cfg : Config) (u : WebUrl) : list Z :=
  let ports := retain (is_dynamic_port cfg) (forward_ports u) in
  if (MAX_DYNAMIC_FORWARDS <? length ports)%nat then take MAX_DYNAMIC_FORWARDS ports else ports.

(** * The request's line *)
Definition parse_request_line (bytes : string) : option DaemonRequest :=
  line ← from_utf8 bytes;
  let line := str_trim line in
  match strip_prefix line "HOLD " with
  | Some hold => parse_hold hold
  | None =>
      u ← parse_url line;
      if bool_decide (scheme u = "http") || bool_decide (scheme u = "https") then Some (OpenUrl u) else None
  end.

Definition read_daemon_request (started : Z) (script : list (Z * fill)) : option (option DaemonRequest) :=
  (λ o, o ≫= parse_request_line) <$> read_url_line started "" script.

(** * The configuration of one connection *)
Definition origin_config (cfg : Config) (from : IpAddr) : Config :=
  if is_multi_peer cfg then
    let p := show_ip (to_canonical from) in
    {| mode := mode cfg; opener := opener cfg; notifier := notifier cfg; clipboard := clipboard cfg;
       forward_ttl_secs := forward_ttl_secs cfg; listen := listen cfg; peer := p; peers := None;
       bridge_port := bridge_port cfg; relay_port := relay_port cfg; pcsc_port := pcsc_port cfg;
       grant_port := grant_port cfg; pulse_port := pulse_port cfg;
       allow := (allow cfg ++ [url_host is_v6_literal p +:+ ":" +:+ to_string FILES_PORT])%list |}
  else cfg.

(** * Serving the ports of a URL

    [serve] is [serve_on] as its callers see it.  The ports asked for are
    returned with the result. *)
Definition serve_fn (S : Type) : Type := S → Z → Z → S * result ServeError Z.

Section serve.
Context {S : Type} (serve : serve_fn S).

Fixpoint forward_loop (cfg : Config) (strict : bool) (s : S) (asked : list Z) (forwarded : nat) (ports : list Z) :
    S * list Z * result ServeError () :=
  match ports with
  | [] => (s, asked, Ok ())
  | p :: rest =>
      if negb (is_dynamic_port cfg p) then
        if strict then (s, asked, Err (Reserved p)) else forward_loop cfg strict s asked forwarded rest
      else if (forwarded =? MAX_DYNAMIC_FORWARDS)%nat then forward_loop cfg strict s asked forwarded rest
      else
        let '(s', r) := serve s p (Time.from_secs (forward_ttl_secs cfg)) in
        let asked := (asked ++ [p])%list in
        match r with
        | Err (OwnedError q addr) => (s', asked, Err (OwnedError q addr))
        | Err e => if strict then (s', asked, Err e)
                   else forward_loop cfg strict s' asked (Datatypes.S forwarded) rest
        | Ok _ => forward_loop cfg strict s' asked (Datatypes.S forwarded) rest
        end
  end.

Definition forward_url (cfg : Config) (u : WebUrl) (s : S) (strict : bool) : S * list Z * result ServeError () :=
  let ports := forward_ports u in
  if strict && (MAX_DYNAMIC_FORWARDS <? length ports)%nat then (s, [], Err TooMany)
  else forward_loop cfg strict s [] 0 ports.

(** [ServeError]'s text. *)
Definition serve_error_text (e : ServeError) : string :=
  match e with
  | NoPeer p => "no literal peer address; not serving callback port " +:+ to_string p
  | OwnedError p a => "callback port " +:+ to_string p +:+ " is already owned by peer bridge " +:+ show_addr a
  | TooMany => "callback URL requires more than 4 forwarded ports"
  | Reserved p => "callback port " +:+ to_string p +:+ " is reserved by forward"
  | Bind p e => "cannot serve callback port " +:+ to_string p +:+ ": " +:+ show_io e
  | Unnamed e => "cannot determine callback port: " +:+ show_io e
  | NotStarted p => "could not start serving callback port " +:+ to_string p
  end.

(** * Handlers *)
Definition hold (cfg : Config) (s : S) (p secs : Z) : S * string :=
  if negb (is_dynamic_port cfg p)
  then (s, "refused port " +:+ to_string p +:+ " is one of forward's own on the laptop")
  else
    let '(s', r) := serve s p (Z.min (Time.from_secs secs) MAX_HOLD) in
    (s', match r with Ok _ => "held" | Err e => "refused " +:+ serve_error_text e end).

(** What the connection handlers share, with the commands they ran. *)
Record DState : Type := { served : S; opens : list OpenedUrl; effects : list effect }.

Definition open_url (cfg : Config) (u : WebUrl) (started : bool) (d : DState) : DState :=
  match opener cfg with
  | [] => d
  | program :: arguments =>
      if started then
        {| served := served d; opens := opens d;
           effects := (effects d ++ [OpenerStarted program (arguments ++ [url_text u])])%list |}
      else d
  end.

(** [open_permitted_url]; [spawned] is whether the opener's process starts. *)
Definition open_permitted_url (cfg : Config) (u : WebUrl) (now : Z) (spawned : bool) (d : DState) : DState :=
  let from := match peer_ip parse cfg with Ok o => o | Err _ => None end in
  let '(entries, decision) := record (opens d) (base u) now from in
  let d' := {| served := served d; opens := entries; effects := effects d |} in
  match decision with
  | Permit => open_url cfg u spawned d'
  | Drop _ => d'
  end.

(** The rest of [handle_connection] once the request is read: the line written
    to the sender, if any. *)
Definition handle_request (cfg : Config) (strict : bool) (now : Z) (spawned : bool) (approval : Notifying)
    (d : DState) (r : option DaemonRequest) : DState * option string :=
  match r with
  | None => (d, None)
  | Some (HoldPort p secs) =>
      let '(s', reply) := hold cfg (served d) p secs in
      ({| served := s'; opens := opens d; effects := effects d |}, Some reply)
  | Some (OpenUrl u) =>
      let '(s', _, r) := forward_url cfg u (served d) strict in
      let d := {| served := s'; opens := opens d; effects := effects d |} in
      match r with
      | Err e => (d, Some ("refused " +:+ serve_error_text e))
      | Ok () =>
          let '(d, outcome) :=
            match policy_decide cfg (base u) with
            | Open => (open_permitted_url cfg u now spawned d, Opened)
            | Notify =>
                let '(ran, permitted) := notify_url cfg u approval in
                let d := {| served := served d; opens := opens d; effects := (effects d ++ ran)%list |} in
                if permitted : bool then (open_permitted_url cfg u now spawned d, Opened)
                else (d, Notified)
            end in
          (d, Some (as_wire outcome))
      end
  end.

(** One accepted connection, from the admission check on. *)
Definition handle_connection (cfg : Config) (remote : IpAddr) (started now : Z) (script : list (Z * fill))
    (spawned : bool) (approval : Notifying) (d : DState) : option (DState * option string) :=
  if negb (authorized parse cfg remote) then Some (d, None) else
  handle_request (origin_config cfg remote) (is_multi_peer cfg) now spawned approval d
    <$> read_daemon_request started script.

(** What [listener.incoming] gives [run], and what the connection's thread then
    meets; [None] for the address when there is no peer address. *)
Record Accepted : Type := {
  from_addr : option IpAddr;
  thread_starts : bool;
  read_started : Z;
  opened_at : Z;
  bytes_in : list (Z * fill);
  opener_starts : bool;
  notifying : Notifying;
}.

Inductive incoming : Type := AcceptError | Connected (c : Accepted).

(** A turn of [run]'s loop; the handlers' use of what they share is taken one
    connection at a time. *)
Definition accept (cfg : Config) (d : DState) (i : incoming) : option DState :=
  match i with
  | AcceptError => Some d
  | Connected c =>
      match from_addr c with
      | None => Some d
      | Some remote =>
          if negb (authorized parse cfg remote) then Some d else
          if negb (thread_starts c) then Some d else
          fst <$> handle_connection cfg remote (read_started c) (opened_at c) (bytes_in c) (opener_starts c) (notifying c) d
      end
  end.

Fixpoint run (cfg : Config) (d : DState) (conns : list incoming) : option DState :=
  match conns with
  | [] => Some d
  | i :: rest => accept cfg d i ≫= λ d', run cfg d' rest
  end.

End serve.

(** * The sender *)
Inductive SendError : Type :=
| ConfigErr (e : ConfigError)
| Unreachable (target : SocketAddr)
| SendIo
| RefusedUrl (target : SocketAddr) (reason : string)
| Unreported (target : SocketAddr) (u : string)
| HoldUnanswered (target : SocketAddr).

Inductive HoldReply : Type := Held | RefusedHold (reason : string).

(** What happened on the connection: no connection, a failing write or read
    (an answer later than [OUTCOME_TIMEOUT] is one), or the answer's line. *)
Inductive exchange : Type := NoConnect | IoFailed | Answered (line : string).

Definition request (cfg : Config) (channel_port : Z) (x : exchange) : result SendError (SocketAddr * string) :=
  match peer_ip parse cfg with
  | Err e => Err (ConfigErr e)
  | Ok o =>
      let target := {| ip := default (Peers.V4 127 0 0 1) o; sport := channel_port |} in
      match x with
      | NoConnect => Err (Unreachable target)
      | IoFailed => Err SendIo
      | Answered line => Ok (target, line)
      end
  end.

Definition url_line (u : WebUrl) : string := url_text u +:+ String newline "".
Definition hold_request_line (port secs : Z) : string :=
  "HOLD " +:+ to_string port +:+ " " +:+ to_string secs +:+ String newline "".

Definition send_url (cfg : Config) (u : WebUrl) (channel_port : Z) (x : exchange) : result SendError Outcome :=
  '(target, line) ← request cfg channel_port x;
  match strip_prefix (str_trim line) "refused " with
  | Some reason => Err (RefusedUrl target reason)
  | None => ok_or (Unreported target (url_text u)) (from_wire line)
  end.

Definition send_hold (cfg : Config) (channel_port : Z) (x : exchange) : result SendError HoldReply :=
  '(target, line) ← request cfg channel_port x;
  let line := str_trim line in
  if bool_decide (line = "held") then Ok Held else
  ok_or (HoldUnanswered target) (RefusedHold <$> strip_prefix line "refused ").

(** * [forward open] and [forward port] *)
Inductive OpenError : Type :=
| OpenerReentry
| TargetErr
| SendErr (e : SendError)
| NotAllowlisted.

(** The URL handed back to the caller, if any, and the result.  [target] is
    what the argument names; arming its ports ([arm_for_url]) never fails the
    command. *)
Definition open_target (cfg : Config) (target : option WebUrl) (channel_port : Z) (reentry : bool) (x : exchange) :
    option string * result OpenError () :=
  if reentry then (None, Err OpenerReentry) else
  match target with
  | None => (None, Err TargetErr)
  | Some u =>
      match send_url cfg u channel_port x with
      | Err e => (Some (url_text u), Err (SendErr e))
      | Ok Opened => (None, Ok ())
      | Ok Notified => (Some (url_text u), Err NotAllowlisted)
      end
  end.

Inductive PortError : Type :=
| SendFailed (e : SendError)
| LaptopRefused (port : Z) (reason : string).

Definition RENEW_EVERY : Z := Time.from_secs 60.
Definition LAPTOP_LEASE_SECS : Z := 3 * Time.as_secs RENEW_EVERY.

Definition renew (cfg : Config) (port channel_port : Z) (x : exchange) : result PortError () :=
  match send_hold cfg channel_port x with
  | Ok Held => Ok ()
  | Ok (RefusedHold reason) => Err (LaptopRefused port reason)
  | Err e => Err (SendFailed e)
  end.

(** One turn of the renewal loop over the held ports: the ports now failing,
    and those whose state changed, with what is reported. *)
Fixpoint renew_round (cfg : Config) (channel_port : Z) (failing : gset Z) (ports : list (Z * exchange)) :
    gset Z * list (Z * bool) :=
  match ports with
  | [] => (failing, [])
  | (p, x) :: rest =>
      let '(failing', report) :=
        match renew cfg p channel_port x with
        | Ok () => (failing ∖ {[p]}, if bool_decide (p ∈ failing) then [(p, true)] else [])
        | Err _ => ({[p]} ∪ failing, if bool_decide (p ∈ failing) then [] else [(p, false)])
        end in
      let '(failing', reports) := renew_round cfg channel_port failing' rest in
      (failing', (report ++ reports)%list)
  end.

Definition unique_ports (ports : list Z) : list Z :=
  foldl (λ acc p, if bool_decide (p ∈ acc) then acc else (acc ++ [p])%list) [] ports.

End daemon.

(** * Reading a line *)

(** Where a newline lies in two pieces of text. *)
Lemma append_newline_cases c more line rest :
  c +:+ more = line +:+ String newline rest →
  (∃ r, c = line +:+ String newline r) ∨ (∃ l3, line = c +:+ l3 ∧ more = l3 +:+ String newline rest).
Proof.
  revert line. induction c as [|d c IH]; intros line H.
  - right. by exists line.
  - destruct line as [|e line].
    + injection H as -> _. left. by exists c.
    + rewrite !append_cons in H. injection H as -> H. destruct (IH _ H) as [[r ->]|(l3 & -> & ->)]; [left|right].
      * by exists r.
      * by exists l3.
Qed.

Lemma clean_not_ends s : contains_byte newline s = false → ends_with s (String newline "") = false.
Proof.
  intros H. unfold ends_with. destruct (strip_suffix s (String newline "")) as [r|] eqn:E; [|done].
  apply strip_suffix_Some in E as ->. rewrite contains_byte_append in H. by apply orb_false_iff in H as [_ H].
Qed.

Lemma ends_with_line s : ends_with (s +:+ String newline "") (String newline "") = true.
Proof. unfold ends_with. by rewrite strip_suffix_append. Qed.

(** Bytes that arrive in time, in any pieces. *)
Definition arrives (started : Z) (script : list (Z * fill)) (text : string) : Prop :=
  ∃ chunks, script = (λ tc, (tc.1, Filled tc.2)) <$> chunks ∧
    Forall (λ tc, tc.2 ≠ "" ∧ (Time.duration_since tc.1 started < READ_TIMEOUT)%Z) chunks ∧
    text = foldr (λ tc s, tc.2 +:+ s) "" chunks.

Lemma read_url_line_delivers started script bytes line rest :
  (String.length (bytes +:+ line) < MAX_URL_BYTES)%nat → contains_byte newline (bytes +:+ line) = false →
  arrives started script (line +:+ String newline rest) →
  read_url_line started bytes script = Some (Some (bytes +:+ line +:+ String newline "")).
Proof.
  intros Hlen Hc (chunks & -> & Hall & E). revert bytes line Hlen Hc E.
  induction chunks as [|[now c] chunks IH]; intros bytes line Hlen Hc E; cbn [fmap list_fmap read_url_line fst snd].
  { simpl in E. by destruct line. }
  apply Forall_cons in Hall as [[Hne Ht] Hall]. simpl in Hne, Ht, E.
  pose proof Hc as Hc'. rewrite contains_byte_append in Hc'. apply orb_false_iff in Hc' as [Hb Hl].
  rewrite clean_not_ends by done. rewrite length_append in Hlen.
  rewrite (proj2 (Nat.leb_gt _ _)) by lia. rewrite (proj2 (Z.leb_gt _ _)) by lia.
  destruct c as [|d c]; [done|]. set (ch := String d c) in *.
  destruct (append_newline_cases ch _ line rest (eq_sym E)) as [[r Er]|(l3 & -> & E3)].
  - rewrite Er. destruct (prefix_of_through (Nat.min (MAX_URL_BYTES - String.length bytes)
      (String.length (line +:+ String newline r))) line r) as [r' ->].
    { rewrite length_append. simpl. lia. }
    rewrite through_newline_line by done.
    destruct chunks; cbn [fmap list_fmap read_url_line]; by rewrite append_assoc, ends_with_line.
  - rewrite length_append in Hlen. rewrite contains_byte_append in Hl. apply orb_false_iff in Hl as [Hch Hl3].
    rewrite prefix_of_all by lia. rewrite through_newline_clean by done.
    rewrite (IH Hall (bytes +:+ ch) l3); [by rewrite !append_assoc| | |done].
    + rewrite !length_append. lia.
    + by rewrite <-append_assoc.
Qed.

(** * Theorems of the channel *)
Section channel.
Context (parse : string → option IpAddr) (show_ip : IpAddr → string).
Context (show_addr : SocketAddr → string) (show_io : IoKind → string).
Context (parse_url : string → option WebUrl).

Lemma to_canonical_idem a : to_canonical (to_canonical a) = to_canonical a.
Proof.
  destruct a as [|s0 s1 s2 s3 s4 s5 s6 s7]; [done|].
  destruct (decide ((s0, s1, s2, s3, s4, s5) = (0, 0, 0, 0, 0, 65535)%Z)) as [[= -> -> -> -> -> ->]|Hne]; [done|].
  assert (to_canonical (Peers.V6 s0 s1 s2 s3 s4 s5 s6 s7) = Peers.V6 s0 s1 s2 s3 s4 s5 s6 s7) as ->; [|].
  { clear parse show_ip. simpl. repeat case_match; naive_solver. }
  clear parse show_ip. simpl. repeat case_match; naive_solver.
Qed.

Lemma read_values_checked field values ips x :
  read_values parse field values = Ok ips → x ∈ ips →
  to_canonical x = x ∧ is_unspecified x || is_multicast x || bool_decide (x = BROADCAST) = false.
Proof.
  revert ips. induction values as [|v values IH]; intros ips; simpl.
  - intros [= <-] ?%not_elem_of_nil. done.
  - destruct (peer_ip_value parse field v) as [y|] eqn:E; simpl; [|done].
    destruct (read_values parse field values) as [l|]; simpl; [|done].
    intros [= <-] [->|Hx]%elem_of_cons; [|by eapply IH].
    revert E. unfold peer_ip_value. destruct (parse_ip parse field v) as [z|]; simpl; [|done].
    destruct (is_unspecified (to_canonical z) || is_multicast (to_canonical z) || _) eqn:Hc; [done|]. intros [= <-].
    split; [apply to_canonical_idem|done].
Qed.

Lemma admitted_checked cfg remote :
  admits_peer parse cfg remote = true →
  is_unspecified (to_canonical remote) || is_multicast (to_canonical remote)
    || bool_decide (to_canonical remote = BROADCAST) = false.
Proof.
  rewrite admits_peer_spec. unfold peer_ips. destruct (peer_values cfg) as [[field values]|]; simpl; [|done].
  rewrite collect_peers_read. destruct (read_values parse field values) as [ips|] eqn:E; simpl; [|done].
  intros H. bool_to_prop. apply elem_of_dedup_onto in H as [?%not_elem_of_nil|H]; [done|].
  by eapply read_values_checked.
Qed.

(** Callbacks return to the machine that sent the URL.  On a laptop with
    several devboxes, every port the daemon serves for a connection is leased
    to the bridge of the address that connection came from, whatever the other
    configured peers are, and never fails for want of an address.  Printing the
    address and parsing it back is assumed to give it again. *)
Lemma callbacks_follow_sender cfg remote p d :
  parse (show_ip (to_canonical remote)) = Some (to_canonical remote) → parse "" = None →
  is_multi_peer cfg = true → authorized parse cfg remote = true →
  bridge (serve_on parse (origin_config parse show_ip cfg remote) p d)
    = {| ip := to_canonical remote; sport := bridge_port cfg |} ∧
  stage (serve_on parse (origin_config parse show_ip cfg remote) p d)
    = (if (p =? 0)%Z then BindingV4 else Refreshing).
Proof.
  intros Hshow Hempty Hm Ha. unfold authorized in Ha. rewrite Hm in Ha. simpl in Ha.
  apply admitted_checked in Ha.
  assert (peer_ip parse (origin_config parse show_ip cfg remote) = Ok (Some (to_canonical remote))) as E.
  { unfold origin_config, peer_ip, peer_values. rewrite Hm. simpl.
    destruct (is_empty (show_ip (to_canonical remote))) eqn:Ee.
    { destruct (show_ip (to_canonical remote)); [congruence|done]. }
    simpl. unfold peer_ip_value, parse_ip. rewrite Hshow. simpl. by rewrite to_canonical_idem, Ha. }
  unfold serve_on. rewrite E. unfold origin_config. rewrite Hm. split; [done|]. by destruct (p =? 0)%Z.
Qed.

(** ** Ports *)
Section ports.
Context {S : Type} (serve : serve_fn S) (cfg : Config).

Lemma forward_loop_asked strict s asked n ports :
  (n <= MAX_DYNAMIC_FORWARDS)%nat →
  let '(_, asked', r) := forward_loop serve cfg strict s asked n ports in
  let all := take (MAX_DYNAMIC_FORWARDS - n) (retain (is_dynamic_port cfg) ports) in
  ∃ new, asked' = (asked ++ new)%list ∧ new `prefix_of` all ∧ (r = Ok () → new = all).
Proof.
  revert s asked n. induction ports as [|p ports IH]; intros s asked n Hle; cbn [forward_loop].
  { exists []. rewrite app_nil_r. unfold retain. simpl. rewrite take_nil. split_and!; [done|by exists []|done]. }
  assert (∀ (o : S * list Z * result ServeError ()) l,
    (let '(_, asked', r) := o in ∃ new, asked' = ((asked ++ [p]) ++ new)%list ∧ new `prefix_of` l ∧ (r = Ok () → new = l)) →
    let '(_, asked', r) := o in ∃ new, asked' = (asked ++ new)%list ∧ new `prefix_of` (p :: l) ∧ (r = Ok () → new = p :: l))
    as Hcons.
  { intros [[s1 asked1] r1] l (new & -> & Hp & Hr). exists (p :: new). rewrite <-app_assoc. split_and!; [done|by apply prefix_cons|].
    intros ->%Hr. done. }
  unfold retain. cbn [List.filter]. destruct (is_dynamic_port cfg p) eqn:Ed; cbn [negb].
  - destruct (Nat.eqb_spec n MAX_DYNAMIC_FORWARDS) as [->|Hn].
    { specialize (IH s asked MAX_DYNAMIC_FORWARDS Hle). rewrite Nat.sub_diag in *. exact IH. }
    assert (MAX_DYNAMIC_FORWARDS - n = Datatypes.S (MAX_DYNAMIC_FORWARDS - Datatypes.S n))%nat as -> by lia.
    cbn [take]. destruct (serve s p _) as [s' r]. apply Hcons.
    specialize (IH s' (asked ++ [p])%list (Datatypes.S n) ltac:(lia)).
    assert (∀ e : ServeError, ∃ new, (asked ++ [p])%list = ((asked ++ [p]) ++ new)%list ∧
      new `prefix_of` take (MAX_DYNAMIC_FORWARDS - Datatypes.S n) (List.filter (is_dynamic_port cfg) ports) ∧
      (Err e = Ok () → new = take (MAX_DYNAMIC_FORWARDS - Datatypes.S n) (List.filter (is_dynamic_port cfg) ports)))
      as Hstop.
    { intros e. exists []. rewrite app_nil_r. split_and!; [done|apply prefix_nil|done]. }
    destruct r as [q|[]]; [exact IH|destruct strict; (apply Hstop || exact IH)..].
  - destruct strict; [|by apply IH]. exists []. rewrite app_nil_r. split_and!; [done|apply prefix_nil|done].
Qed.

Lemma callback_ports_take u :
  callback_ports parse_url cfg u = take MAX_DYNAMIC_FORWARDS (retain (is_dynamic_port cfg) (forward_ports parse_url u)).
Proof.
  unfold callback_ports. case_bool; [done|]. rewrite take_ge; [done|]. by apply Nat.ltb_ge.
Qed.

(** C30: both ends agree on a URL's callback ports.  The ports the laptop asks
    to be served are, in order, a prefix of those the devbox armed for the
    same URL and service ports, and all of them when the URL is not refused,
    whatever serving each of them gave; so at most four. *)
Theorem laptop_serves_armed_ports u s strict :
  let '(_, asked, r) := forward_url parse_url serve cfg u s strict in
  asked `prefix_of` callback_ports parse_url cfg u ∧
  (r = Ok () → asked = callback_ports parse_url cfg u) ∧
  (length asked <= MAX_DYNAMIC_FORWARDS)%nat.
Proof.
  unfold forward_url. destruct (strict && _).
  { split_and!; [apply prefix_nil|done|simpl; lia]. }
  rewrite callback_ports_take.
  pose proof (forward_loop_asked strict s [] 0 (forward_ports parse_url u) ltac:(lia)) as H.
  destruct (forward_loop serve cfg strict s [] 0 (forward_ports parse_url u)) as [[s' asked] r].
  destruct H as (new & -> & Hp & Hr). rewrite Nat.sub_0_r in *. split_and!; [done|done|].
  etrans; [by apply prefix_length|]. rewrite length_take. lia.
Qed.

End ports.

(** ** Openers

    What allows the opener to be started for a URL: the policy, or the approval
    of a notifier that ended by itself with the word [default]. *)
Definition is_opener (e : effect) : bool := match e with OpenerStarted _ _ => true | _ => false end.

Definition approved (cfg : Config) (n : Notifying) : Prop :=
  notifier cfg ≠ [] ∧ ∃ out, answered n = Exited true out ∧ str_trim out = "default".

Lemma notify_url_no_opener cfg u n : List.filter is_opener (notify_url cfg u n).1 = [].
Proof.
  unfold notify_url, notify_builtin, copy_url. destruct (notifier cfg); [|done].
  destruct (clipboard cfg); [done|]. by destruct (clip_started (clip n)).
Qed.

(** The built-in notifier says that the URL was copied exactly when a
    configured clipboard command took all of it and succeeded, and never
    approves. *)
Lemma notify_builtin_honest cfg u n : notifier cfg = [] →
  (notify_url cfg u n).2 = false ∧
  ((copy_url cfg u (clip n)).2 = true ↔
   clipboard cfg ≠ [] ∧ clip_started (clip n) = true ∧ clip_written (clip n) = true ∧ clip_exit (clip n) = Some true).
Proof.
  intros E. unfold notify_url, copy_url. rewrite E. destruct (clipboard cfg) as [|x l]; [naive_solver|].
  destruct (clip n) as [[] [] [[]|]]; naive_solver.
Qed.

Lemma notify_url_approved cfg u n : (notify_url cfg u n).2 = true → approved cfg n.
Proof.
  unfold notify_url, notify_with_approval, approved. destruct (notifier cfg) as [|x l] eqn:E; [done|]. cbn [snd].
  destruct (answered n) as [[] out| |]; try done. unfold from_utf8. case_bool; [|done]. intros H. bool_to_prop.
  split; [done|]. eauto.
Qed.

Lemma parse_request_scheme line u :
  parse_request_line parse_url line = Some (OpenUrl u) → scheme u = "http" ∨ scheme u = "https".
Proof.
  unfold parse_request_line. destruct (from_utf8 line) as [t|]; simpl; [|done].
  destruct (strip_prefix (str_trim t) "HOLD ") as [h|].
  - unfold parse_hold. destruct (split_once " " h) as [[a b]|]; simpl; [|done].
    destruct (number u16_max a); simpl; [|done]. by destruct (number u64_max b).
  - destruct (parse_url (str_trim t)) as [v|]; simpl; [|done]. case_bool; [|done].
    intros [= <-]. destruct Hb; bool_to_prop; auto.
Qed.

Lemma read_request_scheme started script u :
  read_daemon_request parse_url started script = Some (Some (OpenUrl u)) → scheme u = "http" ∨ scheme u = "https".
Proof.
  unfold read_daemon_request. destruct (read_url_line started "" script) as [[line|]|]; simpl; [|done..].
  intros [= H]. by eapply parse_request_scheme.
Qed.

Section openers.
Context {S : Type} (serve : serve_fn S).

(** One more opener, for this URL and as the rate limit permits; or none. *)
Definition opens_at_most (cfg : Config) (u : WebUrl) (now : Z) (d d' : DState (S := S)) : Prop :=
  effects d' = effects d ∨
  ∃ program arguments, effects d' = (effects d ++ [OpenerStarted program (arguments ++ [url_text u])])%list ∧
    opener cfg = program :: arguments ∧
    (record (opens d) (base u) now (match peer_ip parse cfg with Ok o => o | Err _ => None end)).2 = Permit.

Lemma open_permitted_url_effects cfg u now spawned (d : DState (S := S)) :
  opens_at_most cfg u now d (open_permitted_url parse cfg u now spawned d).
Proof.
  unfold open_permitted_url, opens_at_most.
  destruct (record _ _ _ _) as [entries [|count]] eqn:E; [|by left].
  unfold open_url. simpl. destruct (opener cfg) as [|program arguments]; [by left|].
  destruct spawned; [right|by left]. by exists program, arguments.
Qed.

(** When a connection makes the daemon start an opener, the connection came
    from an authorized address, its line was an http or https URL, every
    callback port of the URL was asked for without a refusal, and either the
    policy opens the URL or a configured notifier approved it; the opener is
    the configured one with this URL as its last argument, it is the only one,
    and the rate limit permitted it. *)
Lemma connection_opener cfg remote started now script spawned approval d d' reply :
  handle_connection parse show_ip show_addr show_io parse_url serve cfg remote started now script spawned approval d
    = Some (d', reply) →
  List.filter is_opener (effects d') ≠ List.filter is_opener (effects d) →
  let cfg' := origin_config parse show_ip cfg remote in
  authorized parse cfg remote = true ∧
  ∃ u program arguments,
    read_daemon_request parse_url started script = Some (Some (OpenUrl u)) ∧
    (scheme u = "http" ∨ scheme u = "https") ∧
    (forward_url parse_url serve cfg' u (served d) (is_multi_peer cfg)).2 = Ok () ∧
    (policy_decide cfg' (base u) = Open ∨ approved cfg' approval) ∧
    opener cfg' = program :: arguments ∧
    List.filter is_opener (effects d') =
      (List.filter is_opener (effects d) ++ [OpenerStarted program (arguments ++ [url_text u])])%list ∧
    (record (opens d) (base u) now (match peer_ip parse cfg' with Ok o => o | Err _ => None end)).2 = Permit ∧
    reply = Some (as_wire Opened).
Proof.
  unfold handle_connection. destruct (authorized parse cfg remote) eqn:Ha; simpl; [|by intros [= <- <-]].
  destruct (read_daemon_request parse_url started script) as [r|] eqn:Er; simpl; [|done].
  set (cfg' := origin_config parse show_ip cfg remote). intros [= H] Hne. split; [done|].
  destruct r as [[u|p secs]|]; simpl in H; [| |by simplify_eq].
  2: { destruct (hold _ _ _ _ _ _ _) as [s' rep]. by simplify_eq. }
  destruct (forward_url parse_url serve cfg' u (served d) (is_multi_peer cfg)) as [[s' asked] [[]|e]] eqn:Ef;
    [|by simplify_eq].
  pose proof (read_request_scheme _ _ _ Er) as Hs.
  pose proof (notify_url_no_opener cfg' u approval) as Hran.
  destruct (policy_decide cfg' (base u)) eqn:Ep; [|destruct (notify_url cfg' u approval) as [ran []] eqn:En; cbn [fst] in Hran]; simplify_eq.
  - destruct (open_permitted_url_effects cfg' u now spawned {| served := s'; opens := opens d; effects := effects d |})
      as [E|(program & arguments & E & Ho & Hr)]; simpl in E; [by rewrite E in Hne|].
    exists u, program, arguments. rewrite E, Ef, List.filter_app. split_and!; auto.
  - destruct (open_permitted_url_effects cfg' u now spawned
      {| served := s'; opens := opens d; effects := (effects d ++ ran)%list |})
      as [E|(program & arguments & E & Ho & Hr)]; simpl in E.
    { rewrite E, List.filter_app, Hran, app_nil_r in Hne. done. }
    exists u, program, arguments. rewrite E, Ef, !List.filter_app, Hran, app_nil_r.
    assert (approved cfg' approval) by (apply (notify_url_approved _ u); by rewrite En).
    split_and!; auto.
  - simpl in Hne. rewrite List.filter_app, Hran, app_nil_r in Hne. done.
Qed.

(** Why an opener was started: a connection of the run, and what was shared
    when it was handled. *)
Definition allowed_by (cfg : Config) (c : Accepted) (e : effect) : Prop :=
  ∃ remote u program arguments d0,
    let cfg' := origin_config parse show_ip cfg remote in
    from_addr c = Some remote ∧ authorized parse cfg remote = true ∧
    read_daemon_request parse_url (read_started c) (bytes_in c) = Some (Some (OpenUrl u)) ∧
    (scheme u = "http" ∨ scheme u = "https") ∧
    (forward_url parse_url serve cfg' u (served d0) (is_multi_peer cfg)).2 = Ok () ∧
    (policy_decide cfg' (base u) = Open ∨ approved cfg' (notifying c)) ∧
    (record (opens d0) (base u) (opened_at c) (match peer_ip parse cfg' with Ok o => o | Err _ => None end)).2 = Permit ∧
    opener cfg' = program :: arguments ∧ e = OpenerStarted program (arguments ++ [url_text u]).

(** One turn starts at most one opener, for its connection. *)
Lemma accept_opener cfg d i d' :
  accept parse show_ip show_addr show_io parse_url serve cfg d i = Some d' →
  List.filter is_opener (effects d') = List.filter is_opener (effects d) ∨
  ∃ c e, i = Connected c ∧ allowed_by cfg c e ∧
    List.filter is_opener (effects d') = (List.filter is_opener (effects d) ++ [e])%list.
Proof.
  destruct i as [|c]; cbn [accept]; [intros [= <-]; by left|].
  destruct (from_addr c) as [remote|] eqn:Ea; [|intros [= <-]; by left].
  destruct (authorized parse cfg remote) eqn:Hauth; cbn [negb]; [|intros [= <-]; by left].
  destruct (thread_starts c); cbn [negb]; [|intros [= <-]; by left].
  destruct (handle_connection _ _ _ _ _ _ _ _ _ _ _ _ _ _) as [[d1 reply]|] eqn:Eh; [|done]. intros [= <-].
  destruct (decide (List.filter is_opener (effects d1) = List.filter is_opener (effects d))) as [|Hne]; [by left|right].
  apply connection_opener in Eh as (H1 & u & program & arguments & H2 & H3 & H4 & H5 & H6 & H7 & H8 & _); [|done].
  exists c, (OpenerStarted program (arguments ++ [url_text u])). split_and!; [done| |done].
  exists remote, u, program, arguments, d. by split_and!.
Qed.

(** Nothing opens by itself.  Over any run of the daemon's accept loop, it
    starts at most one opener per connection, and every opener it started is
    owed to one of the connections: that connection came from an authorized
    address, its line was an http or https URL, every callback port of the
    URL was asked for without a refusal, either the policy opens the URL or a
    configured notifier approved it, the rate limit permitted it, and the
    command is the configured opener with this URL as its last argument. *)
Lemma opener_only_when_allowed cfg conns d d' :
  run parse show_ip show_addr show_io parse_url serve cfg d conns = Some d' →
  ∃ started, List.filter is_opener (effects d') = (List.filter is_opener (effects d) ++ started)%list ∧
    (length started ≤ length conns)%nat ∧
    ∀ e, e ∈ started → ∃ c, Connected c ∈ conns ∧ allowed_by cfg c e.
Proof.
  revert d. induction conns as [|i conns IH]; intros d; cbn [run].
  { intros [= <-]. exists []. rewrite app_nil_r. split_and!; [done|simpl; lia|]. by intros e ?%elem_of_nil. }
  destruct (accept _ _ _ _ _ _ _ _ _) as [d1|] eqn:Ea; [|done].
  intros (started & -> & Hl & Hs)%IH.
  assert (∀ e, e ∈ started → ∃ c, Connected c ∈ i :: conns ∧ allowed_by cfg c e) as Hin.
  { intros e (c & ? & ?)%Hs. exists c. split; [by right|done]. }
  destruct (accept_opener _ _ _ _ Ea) as [->|(c & e0 & -> & Hc & ->)].
  - exists started. split_and!; [done|simpl; lia|done].
  - exists (e0 :: started). rewrite <-app_assoc. split_and!; [done|simpl; lia|].
    intros e [->|He]%elem_of_cons; [|by apply Hin]. exists c. split; [by left|done].
Qed.

End openers.

(** ** What the sender learns *)
Context (show_addr_tight : ∀ a, tight (show_addr a) = true) (show_io_tight : ∀ e, tight (show_io e) = true).

(** The port an error names, as the code builds it. *)
Definition error_port (e : ServeError) : Z :=
  match e with
  | NoPeer p | OwnedError p _ | Reserved p | Bind p _ | NotStarted p => p
  | TooMany | Unnamed _ => 0
  end.

Lemma serve_error_tight e : (0 <= error_port e)%Z → tight (serve_error_text show_addr show_io e) = true.
Proof.
  intros H. destruct e; cbn [serve_error_text error_port] in *; try done.
  - apply tight_append; [done|]. by apply tight_to_string.
  - rewrite !append_assoc. apply (tight_append "c" _ (show_addr addr)); done.
  - rewrite !append_assoc. apply (tight_ends "c" _ " is reserved by forward"); done.
  - rewrite !append_assoc. apply (tight_append "c" _ (show_io source)); done.
  - by apply tight_append.
  - by apply tight_append, tight_to_string.
Qed.

Lemma refused_reply text : tight text = true →
  strip_prefix (str_trim (("refused " +:+ text) +:+ String newline "")) "refused " = Some text.
Proof. intros H. rewrite str_trim_line by (by apply tight_append). apply strip_prefix_append. Qed.

Lemma hold_request_read port secs started script rest :
  (0 <= port <= u16_max)%Z → (0 <= secs <= u64_max)%Z →
  arrives started script (hold_request_line port secs +:+ rest) →
  read_daemon_request parse_url started script = Some (Some (HoldPort port secs)).
Proof.
  intros Hp Hs Ha. pose proof (to_string_digits port ltac:(lia)) as Dp. pose proof (to_string_digits secs ltac:(lia)) as Ds.
  set (line := "HOLD " +:+ to_string port +:+ " " +:+ to_string secs).
  assert (all_bytes is_ascii line = true ∧ contains_byte newline line = false) as [Hasc Hnl].
  { subst line. rewrite !all_bytes_append, !contains_byte_append.
    rewrite (digits_ascii _ Dp), (digits_ascii _ Ds), (digits_clean newline _ eq_refl Dp), (digits_clean newline _ eq_refl Ds).
    done. }
  assert (tight line = true) as Ht.
  { subst line. rewrite !append_assoc. apply (tight_append "H"); [done|]. apply tight_to_string. lia. }
  assert (hold_request_line port secs +:+ rest = line +:+ String newline rest) as El.
  { unfold hold_request_line. subst line. rewrite <-!append_assoc. done. }
  rewrite El in Ha. unfold read_daemon_request. rewrite (read_url_line_delivers started script "" line rest); [|..|done].
  - change ("" +:+ line +:+ String newline "") with (line +:+ String newline "").
    cbn [fmap option_fmap option_map mbind option_bind]. unfold parse_request_line.
    rewrite from_utf8_ascii by (by rewrite all_bytes_append, Hasc).
    cbn [mbind option_bind]. rewrite str_trim_line by done. subst line. rewrite strip_prefix_append.
    unfold parse_hold. change " " with (String " "%char "") at 1.
    change (to_string port +:+ " " +:+ to_string secs) with (to_string port +:+ String " "%char (to_string secs)).
    rewrite split_once_char by (by apply digits_clean).
    cbn [mbind option_bind]. rewrite (number_to_string u16_max port), (number_to_string u64_max secs); [done|lia..|done].
  - change ("" +:+ line) with line. subst line. rewrite !length_append. simpl.
    pose proof (to_string_length port). pose proof (to_string_length secs).
    apply Nat.lt_le_trans with 100; [lia|]. apply Nat.leb_le. by vm_compute.
  - done.
Qed.

Lemma send_hold_answer sender channel target line :
  request parse sender channel (Answered "") = Ok (target, "") →
  send_hold parse sender channel (Answered line) =
  if bool_decide (str_trim line = "held") then Ok Held
  else ok_or (HoldUnanswered target) (RefusedHold <$> strip_prefix (str_trim line) "refused ").
Proof.
  unfold send_hold, request. destruct (peer_ip parse sender) as [o|]; [|done]. intros [= ->]. done.
Qed.

Lemma send_hold_refused sender channel target text :
  request parse sender channel (Answered "") = Ok (target, "") → tight text = true →
  send_hold parse sender channel (Answered (("refused " +:+ text) +:+ String newline "")) = Ok (RefusedHold text).
Proof.
  intros Hr Ht. rewrite (send_hold_answer _ _ _ _ Hr), refused_reply by done.
  rewrite str_trim_line by (by apply tight_append). by rewrite bool_decide_eq_false_2.
Qed.

(** A hold request and its answer survive the channel.  The line the
    devbox writes, cut into any pieces that arrive in time and whatever
    follows it, is read as that port and time; and what the devbox makes of
    the daemon's reply is held exactly when the laptop serves the port, and
    otherwise the laptop's reason word for word. *)
Lemma hold_roundtrip {S} (serve : serve_fn S) cfg s port secs started script rest sender channel target :
  (0 <= port <= u16_max)%Z → (0 <= secs <= u64_max)%Z →
  arrives started script (hold_request_line port secs +:+ rest) →
  request parse sender channel (Answered "") = Ok (target, "") →
  (∀ e, (serve s port (Z.min (Time.from_secs secs) MAX_HOLD)).2 = Err e → (0 <= error_port e)%Z) →
  read_daemon_request parse_url started script = Some (Some (HoldPort port secs)) ∧
  send_hold parse sender channel
    (Answered ((hold show_addr show_io serve cfg s port secs).2 +:+ String newline "")) =
  Ok (if is_dynamic_port cfg port then
        match (serve s port (Z.min (Time.from_secs secs) MAX_HOLD)).2 with
        | Ok _ => Held
        | Err e => RefusedHold (serve_error_text show_addr show_io e)
        end
      else RefusedHold ("port " +:+ to_string port +:+ " is one of forward's own on the laptop")).
Proof.
  intros Hp Hs Ha Hr He. split; [by eapply hold_request_read|].
  unfold hold. destruct (is_dynamic_port cfg port); cbn [negb].
  - destruct (serve s port _) as [s' [q|e]] eqn:Eserve; cbn [snd].
    + rewrite (send_hold_answer _ _ _ _ Hr), str_trim_line by done. done.
    + apply (send_hold_refused _ _ target); [done|]. apply serve_error_tight. by apply He.
  - cbn [snd]. change ("refused port " +:+ ?x) with ("refused " +:+ ("port " +:+ x)).
    apply (send_hold_refused _ _ target); [done|].
    rewrite append_assoc. apply (tight_ends "p"); done.
Qed.

Lemma send_url_answer sender channel target u line :
  request parse sender channel (Answered "") = Ok (target, "") →
  send_url parse sender u channel (Answered line) =
  match strip_prefix (str_trim line) "refused " with
  | Some reason => Err (RefusedUrl target reason)
  | None => ok_or (Unreported target (url_text u)) (from_wire line)
  end.
Proof.
  unfold send_url, request. destruct (peer_ip parse sender) as [o|]; [|done]. intros [= ->]. done.
Qed.

Lemma send_url_outcome sender channel target u o :
  request parse sender channel (Answered "") = Ok (target, "") →
  send_url parse sender u channel (Answered (as_wire o +:+ String newline "")) = Ok o.
Proof. intros Hr. rewrite (send_url_answer _ _ _ _ _ Hr). by destruct o; vm_compute. Qed.

(** The sender learns what the daemon decided.  Every URL request is
    answered, and the devbox reads the answer as a refusal with the daemon's
    reason exactly when a callback port was refused, as opened when the policy
    opens the URL or a notifier approved it, and as notified otherwise; never
    as unreported. *)
Lemma sender_learns_outcome {S} (serve : serve_fn S) cfg strict now spawned approval d u sender channel target :
  request parse sender channel (Answered "") = Ok (target, "") →
  (∀ e, (forward_url parse_url serve cfg u (served d) strict).2 = Err e → (0 <= error_port e)%Z) →
  ∃ line,
    (handle_request parse show_addr show_io parse_url serve cfg strict now spawned approval d (Some (OpenUrl u))).2
      = Some line ∧
    send_url parse sender u channel (Answered (line +:+ String newline "")) =
    match (forward_url parse_url serve cfg u (served d) strict).2 with
    | Err e => Err (RefusedUrl target (serve_error_text show_addr show_io e))
    | Ok () =>
        Ok (match policy_decide cfg (base u) with
            | Open => Opened
            | Notify => if (notify_url cfg u approval).2 then Opened else Notified
            end)
    end.
Proof.
  intros Hr He. unfold handle_request.
  destruct (forward_url parse_url serve cfg u (served d) strict) as [[s' asked] [[]|e]]; cbn [snd] in *.
  - destruct (policy_decide cfg (base u)); [|destruct (notify_url cfg u approval) as [ran []]]; cbn [snd];
      (eexists; split; [done|by eapply send_url_outcome]).
  - eexists. split; [done|]. rewrite (send_url_answer _ _ _ _ _ Hr), refused_reply; [done|].
    apply serve_error_tight. by apply He.
Qed.

End channel.

(** A command that did not open the URL says so and hands the URL back; one
    that succeeded was told it opened. *)
Lemma open_target_result parse cfg u channel x :
  open_target parse cfg (Some u) channel false x = (None, Ok ()) ∧
    (∃ line, x = Answered line ∧ from_wire line = Some Opened) ∨
  ∃ e, open_target parse cfg (Some u) channel false x = (Some (url_text u), Err e).
Proof.
  unfold open_target. destruct (send_url parse cfg u channel x) as [[|]|e] eqn:E; [left|right; eauto..].
  split; [done|]. revert E. unfold send_url, request. destruct (peer_ip parse cfg); [|done].
  destruct x as [| |line]; [done..|]. cbn [mbind result_bind].
  destruct (strip_prefix (str_trim line) "refused "); [done|].
  destruct (from_wire line) as [[]|] eqn:Ef; simpl; [eauto|done..].
Qed.

(** A renewed laptop lease outlives two missed renewals, and the daemon's cap
    does not shorten it. *)
Lemma laptop_lease_spans_renewals :
  (Z.min (Time.from_secs LAPTOP_LEASE_SECS) MAX_HOLD = 3 * RENEW_EVERY)%Z.
Proof. by vm_compute. Qed.

(** * Instances

    A laptop with two devboxes, a printer for the addresses of the
    configuration, and a URL library that knows three URLs. *)
Definition demo_show_ip (a : IpAddr) : string :=
  match a with
  | Peers.V4 100 64 0 1 => "100.64.0.1"
  | Peers.V4 100 64 0 2 => "100.64.0.2"
  | _ => "elsewhere"
  end%Z.

Definition laptop_config : Config := {|
  mode := Allowlist; opener := ["/usr/bin/xdg-open"]; notifier := ["ask"]; clipboard := [];
  forward_ttl_secs := 300; listen := "127.0.0.1"; peer := ""; peers := Some ["100.64.0.1"; "100.64.0.2"];
  bridge_port := 12801; relay_port := 12803; pcsc_port := 12804;
  grant_port := 12805; pulse_port := 12806; allow := ["example.com"];
|}.

Definition demo_url (host : string) (p : option Z) (pairs : list (string * string)) (text : string) : WebUrl := {|
  scheme := "https"; explicit_port := p; query_pairs := pairs;
  base := {| host_str := Some host; port_or_known_default := Some (default 443%Z p); path := "/"; as_str := text |};
|}.

Definition login_url : WebUrl :=
  demo_url "example.com" None [("redirect_uri", "http://localhost:8400/")] "https://example.com/".
Definition callback_url : WebUrl := demo_url "localhost" (Some 8400%Z) [] "http://localhost:8400/".

Definition demo_parse_url (s : string) : option WebUrl :=
  if bool_decide (s = url_text login_url) then Some login_url
  else if bool_decide (s = url_text callback_url) then Some callback_url
  else None.

Definition demo_serve_fn : serve_fn (list Z) := λ s p _, ((s ++ [p])%list, Ok p).

Definition demo_script (text : string) : list (Z * fill) := [(0%Z, Filled text)].

Lemma callbacks_follow_sender_witness :
  bridge (serve_on demo_parse (origin_config demo_parse demo_show_ip laptop_config (Peers.V6 0 0 0 0 0 65535 25664 2)) 8400 1)
    = {| ip := Peers.V4 100 64 0 2; sport := 12801 |}.
Proof.
  apply (callbacks_follow_sender demo_parse demo_show_ip laptop_config (Peers.V6 0 0 0 0 0 65535 25664 2)); by vm_compute.
Defined.

Definition demo_daemon : DState (S := list Z) := {| served := []; opens := []; effects := [] |}.

Definition asked (r : WaitResult) : Notifying :=
  {| answered := r; clip := {| clip_started := true; clip_written := true; clip_exit := Some true |} |}.

Definition demo_handle (text : string) (approval : Notifying) (d : DState (S := list Z)) :=
  handle_connection demo_parse demo_show_ip (λ _, "a") (λ _, "e") demo_parse_url demo_serve_fn
    laptop_config (Peers.V4 100 64 0 2) 0 0 (demo_script text) true approval d.

Definition demo_conn (text : string) (r : WaitResult) : incoming :=
  Connected {| from_addr := Some (Peers.V4 100 64 0 2); thread_starts := true; read_started := 0; opened_at := 0;
               bytes_in := demo_script text; opener_starts := true; notifying := asked r |}.

(** A callback URL that its notifier approved, and a stranger's. *)
Lemma opener_only_when_allowed_witness :
  let stranger := Connected {| from_addr := Some (Peers.V4 10 0 0 9); thread_starts := true; read_started := 0;
    opened_at := 0; bytes_in := demo_script (url_line login_url); opener_starts := true; notifying := asked TimedOutWait |} in
  let conns := [stranger; demo_conn (url_line callback_url) (Exited true "default")] in
  ∃ d' started,
    run demo_parse demo_show_ip (λ _, "a") (λ _, "e") demo_parse_url demo_serve_fn laptop_config demo_daemon conns = Some d' ∧
    List.filter is_opener (effects d') = started ∧ length started = 1 ∧
    ∀ e, e ∈ started → ∃ c, Connected c ∈ conns ∧
      allowed_by demo_parse demo_show_ip demo_parse_url demo_serve_fn laptop_config c e.
Proof.
  intros stranger conns.
  destruct (run demo_parse demo_show_ip (λ _, "a") (λ _, "e") demo_parse_url demo_serve_fn laptop_config demo_daemon conns)
    as [d'|] eqn:E; [|by vm_compute in E].
  destruct (opener_only_when_allowed demo_parse demo_show_ip (λ _, "a") (λ _, "e") demo_parse_url demo_serve_fn
    laptop_config conns demo_daemon d' E) as (started & H1 & _ & H2).
  exists d', started. split_and!; [done|by rewrite H1| |done].
  vm_compute in E. injection E as <-. vm_compute in H1. by rewrite <-H1.
Defined.

Lemma hold_roundtrip_witness :
  read_daemon_request demo_parse_url 0 (demo_script (hold_request_line 5173 180)) = Some (Some (HoldPort 5173 180)).
Proof.
  apply (hold_roundtrip demo_parse (λ _, "a") (λ _, "e") demo_parse_url (λ _, eq_refl) (λ _, eq_refl)
    demo_serve_fn laptop_config [] 5173 180 0 (demo_script (hold_request_line 5173 180)) "" demo_config 12800
    {| ip := Peers.V4 100 64 0 2; sport := 12800 |}).
  - by vm_compute.
  - by vm_compute.
  - exists [(0%Z, hold_request_line 5173 180)]. split_and!; [done| |done]. by constructor.
  - by vm_compute.
  - intros e. vm_compute. done.
Defined.

Lemma sender_learns_outcome_witness :
  ∃ line,
    (handle_request demo_parse (λ _, "a") (λ _, "e") demo_parse_url demo_serve_fn laptop_config true 0 true
      (asked TimedOutWait) demo_daemon (Some (OpenUrl login_url))).2 = Some line ∧
    send_url demo_parse demo_config login_url 12800 (Answered (line +:+ String newline "")) = Ok Opened.
Proof.
  apply (sender_learns_outcome demo_parse (λ _, "a") (λ _, "e") demo_parse_url (λ _, eq_refl) (λ _, eq_refl)
    demo_serve_fn laptop_config true 0 true (asked TimedOutWait) demo_daemon login_url demo_config 12800
    {| ip := Peers.V4 100 64 0 2; sport := 12800 |}).
  - by vm_compute.
  - intros e. vm_compute. done.
Defined.

(** An answer of [opened] does not mean a browser was started.  The fourth
    request for one URL within two seconds is dropped by the rate limit, no
    opener runs for it, and the devbox is told it opened. *)
Lemma opened_without_opener :
  let again (o : option (DState (S := list Z) * option string)) :=
    o ≫= λ dr, demo_handle (url_line login_url) (asked TimedOutWait) dr.1 in
  let third := again (again (demo_handle (url_line login_url) (asked TimedOutWait) demo_daemon)) in
  snd <$> again third = Some (Some (as_wire Opened)) ∧
  (effects ∘ fst) <$> again third = (effects ∘ fst) <$> third.
Proof. by vm_compute. Qed.
