(* ===== verification/Handlers.v ===== *)
(** The daemon's connection handlers on their threads, in every interleaving
    ([crates/forward/src/daemon.rs], [daemon/origin.rs]).

    [Daemon] has what one handler does from end to end; here a handler is a
    thread that stops wherever it could lose the processor: after the request
    is read, between two calls that serve a port, around the notifier, which
    may wait for minutes, around the mutex of the opens, and before the opener
    is spawned.  Serving one port is one step; what happens inside it is the
    subject of [Leases].  The clock is the monotonic one, read under the
    mutex. *)

From stdpp Require Import prelude strings list gmap.
From Stdlib Require Import ZArith Lia Ascii.
From S2P Require Import Prelude Text Peers Bridge Policy Leases Daemon.

Local Open Scope string_scope.

Section handlers.
Context (parse : string → option IpAddr) (show_ip : IpAddr → string).
Context (show_addr : SocketAddr → string) (show_io : IoKind → string).
Context (parse_url : string → option WebUrl).
Context {S : Type} (serve : serve_fn S) (cfg : Config).

(** Where a handler stands. *)
Inductive Hpc : Type :=
| HRead
| HHold (port secs : Z)
| HPorts (u : WebUrl) (forwarded : nat) (rest : list Z)
| HDecide (u : WebUrl)
| HNotify (u : WebUrl)
| HRecord (u : WebUrl)
| HOpen (u : WebUrl)
| HDone (reply : option string).

(** A handler: its connection and address, where it stands, and the ports it
    has asked to be served. *)
Record Handler : Type := { h_conn : Accepted; h_from : IpAddr; h_pc : Hpc; h_asked : list Z }.

Definition goto (h : Handler) (pc : Hpc) : Handler :=
  {| h_conn := h_conn h; h_from := h_from h; h_pc := pc; h_asked := h_asked h |}.

Definition asking (h : Handler) (p : Z) : Handler :=
  {| h_conn := h_conn h; h_from := h_from h; h_pc := h_pc h; h_asked := (h_asked h ++ [p])%list |}.

(** The configuration the handler was given. *)
Definition h_cfg (h : Handler) : Config := origin_config parse show_ip cfg (h_from h).

Definition refusing (e : ServeError) : Hpc := HDone (Some ("refused " +:+ serve_error_text show_addr show_io e)).

(** [forward_url], up to its first port. *)
Definition begin_ports (u : WebUrl) : Hpc :=
  let ports := forward_ports parse_url u in
  if is_multi_peer cfg && (MAX_DYNAMIC_FORWARDS <? length ports)%nat then refusing TooMany else HPorts u 0 ports.

(** A turn of its loop. *)
Definition ports_step (h : Handler) (d : DState (S:=S)) (u : WebUrl) (forwarded : nat) (ports : list Z) :
    Handler * DState (S:=S) :=
  let c := h_cfg h in let strict := is_multi_peer cfg in
  match ports with
  | [] => (goto h (HDecide u), d)
  | p :: rest =>
      if negb (is_dynamic_port c p) then
        (goto h (if strict then refusing (Reserved p) else HPorts u forwarded rest), d)
      else if (forwarded =? MAX_DYNAMIC_FORWARDS)%nat then (goto h (HPorts u forwarded rest), d)
      else
        let '(s', r) := serve (served d) p (Time.from_secs (forward_ttl_secs c)) in
        let d := {| served := s'; opens := opens d; effects := effects d |} in
        let h := asking h p in
        (goto h (match r with
                 | Err (OwnedError q a) => refusing (OwnedError q a)
                 | Err e => if strict then refusing e else HPorts u (Datatypes.S forwarded) rest
                 | Ok _ => HPorts u (Datatypes.S forwarded) rest
                 end), d)
  end.

Definition open_request (h : Handler) (u : WebUrl) (now : Z) : Policy.request :=
  (base u, now, match peer_ip parse (h_cfg h) with Ok o => o | Err _ => None end).

(** One step of a handler at the instant [now]. *)
Definition handler_step (h : Handler) (now : Z) (d : DState (S:=S)) : Handler * DState (S:=S) :=
  let c := h_cfg h in
  match h_pc h with
  | HRead =>
      (match read_daemon_request parse_url (read_started (h_conn h)) (bytes_in (h_conn h)) with
       | None => h
       | Some None => goto h (HDone None)
       | Some (Some (HoldPort p secs)) => goto h (HHold p secs)
       | Some (Some (OpenUrl u)) => goto h (begin_ports u)
       end, d)
  | HHold p secs =>
      let '(s', reply) := hold show_addr show_io serve c (served d) p secs in
      (goto h (HDone (Some reply)), {| served := s'; opens := opens d; effects := effects d |})
  | HPorts u forwarded ports => ports_step h d u forwarded ports
  | HDecide u =>
      (goto h (match policy_decide c (base u) with Open => HRecord u | Notify => HNotify u end), d)
  | HNotify u =>
      let '(ran, permitted) := notify_url c u (notifying (h_conn h)) in
      (goto h (if permitted : bool then HRecord u else HDone (Some (as_wire Notified))),
       {| served := served d; opens := opens d; effects := (effects d ++ ran)%list |})
  | HRecord u =>
      let '(b, t, o) := open_request h u now in
      let '(entries, decision) := record (opens d) b t o in
      (goto h (match decision with Permit => HOpen u | Drop _ => HDone (Some (as_wire Opened)) end),
       {| served := served d; opens := entries; effects := effects d |})
  | HOpen u => (goto h (HDone (Some (as_wire Opened))), open_url c u (opener_starts (h_conn h)) d)
  | HDone _ => (h, d)
  end.

(** * The daemon *)

(** The handlers started so far, what they share, the clock, and the opens
    requested and openers started in their order, with the handler's number. *)
Record Daemons : Type := {
  hs : list Handler;
  shared : DState (S:=S);
  clock : Z;
  asks : list (nat * Policy.request * OpenDecision);
  starts : list (nat * effect);
}.

Definition Daemons_new (s : S) (t : Z) : Daemons :=
  {| hs := []; shared := {| served := s; opens := []; effects := [] |}; clock := t; asks := []; starts := [] |}.

Inductive daction : Type :=
| DAccept (i : incoming)
| DRun (i : nat) (elapsed : nat).

(** What a step of handler [i] asked of the limiter and started. *)
Definition asked_now (h : Handler) (now : Z) (d : DState (S:=S)) : list (Policy.request * OpenDecision) :=
  match h_pc h with
  | HRecord u => let '(b, t, o) := open_request h u now in [((b, t, o), (record (opens d) b t o).2)]
  | _ => []
  end.

Definition started_now (h : Handler) : list effect :=
  match h_pc h with
  | HOpen u =>
      match opener (h_cfg h), opener_starts (h_conn h) with
      | program :: arguments, true => [OpenerStarted program (arguments ++ [url_text u])%list]
      | _, _ => []
      end
  | _ => []
  end.

Definition dstep (x : Daemons) (a : daction) : Daemons :=
  match a with
  | DAccept AcceptError => x
  | DAccept (Connected c) =>
      match from_addr c with
      | None => x
      | Some remote =>
          if negb (authorized parse cfg remote) then x else
          if negb (thread_starts c) then x else
          {| hs := (hs x ++ [{| h_conn := c; h_from := remote; h_pc := HRead; h_asked := [] |}])%list;
             shared := shared x; clock := clock x; asks := asks x; starts := starts x |}
      end
  | DRun i elapsed =>
      match hs x !! i with
      | None => x
      | Some h =>
          let now := (clock x + Z.of_nat elapsed)%Z in
          let '(h', d) := handler_step h now (shared x) in
          {| hs := <[i := h']> (hs x); shared := d; clock := now;
             asks := (asks x ++ ((λ r, (i, r.1, r.2)) <$> asked_now h now (shared x)))%list;
             starts := (starts x ++ (pair i <$> started_now h))%list |}
      end
  end.

Definition drun (x : Daemons) (l : list daction) : Daemons := fold_left dstep l x.

(** * A handler by itself

    A handler that no other interrupts does what [Daemon.handle_connection]
    says. *)
Section alone.
Context (now : Z).

Definition alone (x y : Handler * DState (S:=S)) : Prop := handler_step x.1 now x.2 = y.

Lemma alone_once h d h' d' : handler_step h now d = (h', d') → rtc alone (h, d) (h', d').
Proof. intros H. by apply rtc_once. Qed.

Lemma alone_ports u ports h d n :
  let '(s', asked, r) := forward_loop serve (h_cfg h) (is_multi_peer cfg) (served d) (h_asked h) n ports in
  let d' := {| served := s'; opens := opens d; effects := effects d |} in
  let h' pc := {| h_conn := h_conn h; h_from := h_from h; h_pc := pc; h_asked := asked |} in
  rtc alone (goto h (HPorts u n ports), d)
    (h' (match r with Ok () => HDecide u | Err e => refusing e end), d').
Proof.
  revert h d n. induction ports as [|p ports IH]; intros h d n; cbn [forward_loop].
  { apply alone_once. by destruct d. }
  assert (∀ y, rtc alone (ports_step h d u n (p :: ports)) y → rtc alone (goto h (HPorts u n (p :: ports)), d) y) as Hs.
  { intros y Hy. by eapply rtc_l; [|exact Hy]. }
  unfold ports_step in Hs. destruct (is_dynamic_port (h_cfg h) p); cbn [negb] in *.
  2: { destruct (is_multi_peer cfg) eqn:Em; [apply Hs; by destruct d, h|].
       specialize (IH h d n). destruct (forward_loop _ _ _ _ _ _ _) as [[s' asked] r]. by apply Hs. }
  destruct (n =? MAX_DYNAMIC_FORWARDS)%nat.
  { specialize (IH h d n). destruct (forward_loop _ _ _ _ _ _ _) as [[s' asked] r]. by apply Hs. }
  destruct (serve (served d) p _) as [s1 r1].
  specialize (IH (asking h p) {| served := s1; opens := opens d; effects := effects d |} (Datatypes.S n)).
  change (h_cfg (asking h p)) with (h_cfg h) in IH. cbn [served asking h_asked] in IH.
  destruct r1 as [q|e].
  - destruct (forward_loop _ _ _ _ _ _ _) as [[s' asked] r]. by apply Hs.
  - destruct (forward_loop _ _ _ _ _ _ _) as [[s' asked] r], e; try (by apply Hs); destruct (is_multi_peer cfg); by apply Hs.
Qed.

Definition ends (x : Handler * DState (S:=S)) (d' : DState (S:=S)) (reply : option string) : Prop :=
  ∃ h', h_pc h' = HDone reply ∧ rtc alone x (h', d').

Lemma ends_step x d' reply : ends (handler_step x.1 now x.2) d' reply → ends x d' reply.
Proof. intros (h' & Hp & Hr). exists h'. split; [done|]. by eapply rtc_l. Qed.

Lemma ends_rtc x y d' reply : rtc alone x y → ends y d' reply → ends x d' reply.
Proof. intros Hx (h' & Hp & Hr). exists h'. split; [done|]. by etrans. Qed.

Lemma ends_done h d reply : h_pc h = HDone reply → ends (h, d) d reply.
Proof. intros H. exists h. split; [done|]. apply rtc_refl. Qed.

Lemma ends_record h d u :
  ends (goto h (HRecord u), d) (open_permitted_url parse (h_cfg h) u now (opener_starts (h_conn h)) d)
    (Some (as_wire Opened)).
Proof.
  apply ends_step. cbn [handler_step goto h_pc open_request fst snd]. change (h_cfg (goto h (HRecord u))) with (h_cfg h).
  unfold open_permitted_url. destruct (record _ _ _ _) as [entries [|count]]; [|by apply ends_done].
  apply ends_step. by apply ends_done.
Qed.

Lemma ends_decide h d u :
  let '(d', outcome) :=
    match policy_decide (h_cfg h) (base u) with
    | Open => (open_permitted_url parse (h_cfg h) u now (opener_starts (h_conn h)) d, Opened)
    | Notify =>
        let '(ran, permitted) := notify_url (h_cfg h) u (notifying (h_conn h)) in
        let d := {| served := served d; opens := opens d; effects := (effects d ++ ran)%list |} in
        if permitted : bool then (open_permitted_url parse (h_cfg h) u now (opener_starts (h_conn h)) d, Opened)
        else (d, Notified)
    end in
  ends (goto h (HDecide u), d) d' (Some (as_wire outcome)).
Proof.
  pose proof (ends_step (goto h (HDecide u), d)) as Hs. cbn [handler_step goto h_pc fst snd] in Hs.
  change (h_cfg (goto h (HDecide u))) with (h_cfg h) in Hs. destruct (policy_decide (h_cfg h) (base u)).
  - apply Hs. apply (ends_record h d u).
  - pose proof (ends_step (goto h (HNotify u), d)) as Hn. cbn [handler_step goto h_pc fst snd h_conn] in Hn.
    change (h_cfg (goto h (HNotify u))) with (h_cfg h) in Hn.
    destruct (notify_url (h_cfg h) u (notifying (h_conn h))) as [ran [|]]; apply Hs, Hn.
    + apply (ends_record h {| served := served d; opens := opens d; effects := (effects d ++ ran)%list |} u).
    + by apply ends_done.
Qed.

(** Uninterrupted, a handler ends where the daemon's one-piece handler does,
    with the same reply. *)
Lemma handler_alone c remote d d' reply :
  authorized parse cfg remote = true →
  handle_connection parse show_ip show_addr show_io parse_url serve cfg remote (read_started c) now (bytes_in c)
    (opener_starts c) (notifying c) d = Some (d', reply) →
  ends ({| h_conn := c; h_from := remote; h_pc := HRead; h_asked := [] |}, d) d' reply.
Proof.
  intros Ha. unfold handle_connection. rewrite Ha. cbn [negb]. set (h := Build_Handler c remote HRead []).
  pose proof (ends_step (h, d)) as Hs. cbn [handler_step h h_pc fst snd h_conn] in Hs. fold h in Hs.
  destruct (read_daemon_request parse_url (read_started c) (bytes_in c)) as [r|]; [|done].
  cbn [fmap option_fmap option_map]. intros [= E]. destruct r as [[u|p secs]|]; cbn [handle_request] in E.
  - assert (∀ d' reply, ends (goto h (begin_ports u), d) d' reply → ends (h, d) d' reply) as Hs' by (intros; by apply Hs).
    unfold forward_url in E. unfold begin_ports in Hs'. destruct (is_multi_peer cfg && _) eqn:Em.
    + injection E as <- <-. apply Hs'. destruct d. by apply ends_done.
    + pose proof (alone_ports u (forward_ports parse_url u) h d 0) as Hp.
      change (h_cfg h) with (origin_config parse show_ip cfg remote) in Hp. change (h_asked h) with (@nil Z) in Hp.
      destruct (forward_loop _ _ _ _ _ _ _) as [[s1 asked] [[]|e]].
      * set (h1 := {| h_conn := c; h_from := remote; h_pc := HRead; h_asked := asked |}).
        pose proof (ends_decide h1 {| served := s1; opens := opens d; effects := effects d |} u) as Hd.
        change (h_cfg h1) with (origin_config parse show_ip cfg remote) in Hd. cbn [h1 h_conn] in Hd.
        cbn [served opens effects] in E, Hd.
        apply Hs'. eapply ends_rtc; [exact Hp|].
        destruct (policy_decide _ _); [injection E as <- <-; exact Hd|].
        destruct (notify_url _ _ _) as [ran [|]]; injection E as <- <-; exact Hd.
      * injection E as <- <-. apply Hs'. eapply ends_rtc; [exact Hp|]. by apply ends_done.
  - apply Hs. pose proof (ends_step (goto h (HHold p secs), d)) as Hh. cbn [handler_step goto h_pc fst snd] in Hh.
    change (h_cfg (goto h (HHold p secs))) with (origin_config parse show_ip cfg remote) in Hh.
    destruct (hold _ _ _ _ _ _ _) as [s1 rep]. injection E as <- <-. apply Hh. by apply ends_done.
  - injection E as <- <-. apply Hs. by apply ends_done.
Qed.
End alone.

(** * What a handler may do *)

(** The URL the handler read, with all its callback ports asked for. *)
Definition wants (h : Handler) (u : WebUrl) : Prop :=
  read_daemon_request parse_url (read_started (h_conn h)) (bytes_in (h_conn h)) = Some (Some (OpenUrl u)).

Definition owed (h : Handler) (u : WebUrl) : Prop :=
  wants h u ∧ h_asked h = callback_ports parse_url (h_cfg h) u.

Definition allowed (h : Handler) (u : WebUrl) : Prop :=
  owed h u ∧ (policy_decide (h_cfg h) (base u) = Open ∨ approved (h_cfg h) (notifying (h_conn h))).

Notation ask_log := (list (nat * Policy.request * OpenDecision)) (only parsing).

Definition askers (l : ask_log) : list nat := (λ a, a.1.1) <$> l.

Definition permitted (l : ask_log) : list OpenedUrl :=
  omap (λ a, match a.2 with Permit => let '(u, t, o) := a.1.2 in Some (opened u t o) | Drop _ => None end) l.

Definition before_asking (pc : Hpc) : bool := match pc with HOpen _ | HDone _ => false | _ => true end.

Definition pc_fine (asks : ask_log) (i : nat) (h : Handler) : Prop :=
  match h_pc h with
  | HRead => h_asked h = []
  | HHold _ _ | HDone _ => True
  | HPorts u n rest =>
      wants h u ∧ (n ≤ MAX_DYNAMIC_FORWARDS)%nat ∧
      (h_asked h ++ take (MAX_DYNAMIC_FORWARDS - n) (retain (is_dynamic_port (h_cfg h)) rest))%list
        = callback_ports parse_url (h_cfg h) u
  | HDecide u | HNotify u => owed h u
  | HRecord u => allowed h u
  | HOpen u => allowed h u ∧ ∃ now, (i, open_request h u now, Permit) ∈ asks
  end.

Definition handler_ok (asks : ask_log) (i : nat) (h : Handler) : Prop :=
  authorized parse cfg (h_from h) = true ∧ pc_fine asks i h ∧ (before_asking (h_pc h) = true → i ∉ askers asks).

(** A started opener is owed to its handler, which has ended. *)
Definition start_ok (x : Daemons) (i : nat) (e : effect) : Prop :=
  ∃ h u program arguments now reply,
    hs x !! i = Some h ∧ h_pc h = HDone reply ∧ authorized parse cfg (h_from h) = true ∧ allowed h u ∧
    (i, open_request h u now, Permit) ∈ asks x ∧
    opener (h_cfg h) = program :: arguments ∧ e = OpenerStarted program (arguments ++ [url_text u])%list.

Record dinv (t : Z) (x : Daemons) : Prop := {
  di_handlers : ∀ i h, hs x !! i = Some h → handler_ok (asks x) i h;
  di_askers : NoDup (askers (asks x)) ∧ ∀ i, i ∈ askers (asks x) → (i < length (hs x))%nat;
  di_starts : NoDup (starts x).*1 ∧ ∀ i e, (i, e) ∈ starts x → start_ok x i e;
  di_effects : List.filter is_opener (effects (shared x)) = (starts x).*2;
  di_limiter : limiter_run (asks x).*1.*2 = (opens (shared x), permitted (asks x));
  di_clock : (t ≤ clock x)%Z ∧ ∀ a, a ∈ asks x → (req_time a.1.2 ≤ clock x)%Z;
  di_ordered : ordered t (asks x).*1.*2;
}.

(** What a step of a handler leaves of it. *)
Lemma step_same h now d h' d' :
  handler_step h now d = (h', d') → h_conn h' = h_conn h ∧ h_from h' = h_from h.
Proof.
  unfold handler_step, ports_step. destruct (h_pc h); repeat (case_match; simplify_eq/=); intros; by simplify_eq/=.
Qed.

Lemma begin_ports_fine log i h u :
  wants h u → h_asked h = [] → pc_fine log i (goto h (begin_ports u)).
Proof.
  intros Hw Ha. unfold begin_ports. destruct (is_multi_peer cfg && _); [done|].
  split_and!; [exact Hw|unfold MAX_DYNAMIC_FORWARDS; lia|]. change (h_cfg (goto h _)) with (h_cfg h).
  change (h_asked (goto h _)) with (h_asked h). rewrite Ha, callback_ports_take. by rewrite Nat.sub_0_r.
Qed.

Lemma ports_fine log i h d u n ports h' d' :
  h_pc h = HPorts u n ports → pc_fine log i h → ports_step h d u n ports = (h', d') → pc_fine log i h'.
Proof.
  unfold pc_fine at 1. intros -> (Hw & Hn & Ha). unfold ports_step. destruct ports as [|p ports].
  { intros [= <- <-]. unfold pc_fine. cbn [goto h_pc]. split; [exact Hw|]. unfold retain in Ha. simpl in Ha.
    by rewrite take_nil, app_nil_r in Ha. }
  unfold retain in Ha. cbn [List.filter] in Ha. fold (retain (is_dynamic_port (h_cfg h)) ports) in Ha.
  destruct (is_dynamic_port (h_cfg h) p); cbn [negb].
  2: { intros [= <- <-]. destruct (is_multi_peer cfg); [done|]. by split_and!. }
  destruct (Nat.eqb_spec n MAX_DYNAMIC_FORWARDS) as [->|Hne].
  { intros [= <- <-]. rewrite Nat.sub_diag in Ha. split_and!; [done|done|]. rewrite Nat.sub_diag. exact Ha. }
  assert (pc_fine log i (goto (asking h p) (HPorts u (Datatypes.S n) ports))) as Hgo.
  { split_and!; [exact Hw|lia|]. cbn [goto asking h_asked]. change (h_cfg (goto _ _)) with (h_cfg h).
    replace (MAX_DYNAMIC_FORWARDS - n)%nat with (Datatypes.S (MAX_DYNAMIC_FORWARDS - Datatypes.S n)) in Ha by lia.
    cbn [take] in Ha. by rewrite <-app_assoc. }
  destruct (serve _ _ _) as [s1 [q|e]]; intros [= <- <-]; [done|].
  destruct e; try done; destruct (is_multi_peer cfg); done.
Qed.

(** A step keeps its handler fine, given what it asked of the limiter. *)
Lemma step_fine log i h now d h' d' :
  handler_ok log i h → handler_step h now d = (h', d') →
  let log' := (log ++ ((λ r, (i, r.1, r.2)) <$> asked_now h now d))%list in
  pc_fine log' i h' ∧ (before_asking (h_pc h') = true → before_asking (h_pc h) = true ∧ asked_now h now d = []).
Proof.
  intros (_ & Hf & _) E. unfold asked_now. revert E. unfold handler_step.
  destruct (h_pc h) as [|p secs|u n ports|u|u|u|u|reply] eqn:Ep; cbn zeta; rewrite ?fmap_nil, ?app_nil_r.
  - unfold pc_fine in Hf. rewrite Ep in Hf. intros E. split; [|done].
    destruct (read_daemon_request _ _ _) as [[[u|p secs]|]|] eqn:Er; injection E as <- <-; try done.
    + by apply begin_ports_fine.
    + unfold pc_fine. by rewrite Ep.
  - destruct (hold _ _ _ _ _ _ _) as [s1 rep]. intros [= <- <-]. by split.
  - intros E. split; [by eapply ports_fine|done].
  - unfold pc_fine in Hf. rewrite Ep in Hf. intros [= <- <-]. split; [|done]. unfold pc_fine. cbn [goto h_pc].
    destruct (policy_decide _ _) eqn:Epd; [|exact Hf]. split; [exact Hf|by left].
  - unfold pc_fine in Hf. rewrite Ep in Hf. pose proof (notify_url_approved (h_cfg h) u (notifying (h_conn h))) as Happ.
    destruct (notify_url _ _ _) as [ran [|]]; intros [= <- <-]; [|done]. split; [|done].
    split; [exact Hf|right; by apply Happ].
  - unfold pc_fine in Hf. rewrite Ep in Hf. unfold open_request. set (o := match peer_ip _ _ with Ok o => o | Err _ => None end).
    destruct (record (opens d) (base u) now o) as [entries [|count]] eqn:Er; intros [= <- <-]; [|by split].
    split; [|done]. unfold pc_fine. cbn [goto h_pc]. split; [exact Hf|]. exists now. apply elem_of_app. right.
    cbn [fmap list_fmap fst snd]. rewrite ?Er. left.
  - intros [= <- <-]. by split.
  - intros [= <- <-]. unfold pc_fine. by rewrite Ep.
Qed.

Lemma pc_fine_more log more i h : pc_fine log i h → pc_fine (log ++ more)%list i h.
Proof.
  unfold pc_fine. destruct (h_pc h); try done. intros [Ha (t & Ht)]. split; [done|]. exists t. apply elem_of_app. by left.
Qed.

(** What a step does to what is shared. *)
Lemma step_effects h now d h' d' :
  handler_step h now d = (h', d') →
  List.filter is_opener (effects d') = (List.filter is_opener (effects d) ++ started_now h)%list ∧
  (started_now h ≠ [] → ∃ reply, h_pc h' = HDone reply).
Proof.
  intros E. unfold started_now. revert E. unfold handler_step.
  destruct (h_pc h) as [|p secs|u n ports|u|u|u|u|reply] eqn:Ep; rewrite ?app_nil_r.
  - by intros [= <- <-].
  - destruct (hold _ _ _ _ _ _ _) as [s1 rep]. by intros [= <- <-].
  - unfold ports_step. destruct ports as [|p ports]; [by intros [= <- <-]|].
    repeat (case_match; simplify_eq/=); intros; simplify_eq/=; done.
  - by intros [= <- <-].
  - pose proof (notify_url_no_opener (h_cfg h) u (notifying (h_conn h))) as Hn.
    destruct (notify_url _ _ _) as [ran permitted]. intros [= <- <-]. cbn [effects fst] in *. rewrite List.filter_app, Hn.
    by rewrite app_nil_r.
  - unfold open_request. destruct (record _ _ _ _) as [entries dec]. by intros [= <- <-].
  - intros [= <- <-]. unfold open_url. destruct (opener (h_cfg h)) as [|program arguments]; [by rewrite app_nil_r|].
    destruct (opener_starts (h_conn h)); [|by rewrite app_nil_r]. cbn [effects]. rewrite List.filter_app. split; [done|]. by eexists.
  - by intros [= <- <-].
Qed.

Lemma step_opens (i : nat) h now d h' d' hist :
  handler_step h now d = (h', d') →
  fold_left limiter_step (asked_now h now d).*1 (opens d, hist) =
    (opens d', hist ++ permitted ((λ r, (i, r.1, r.2)) <$> asked_now h now d))%list.
Proof.
  intros E. unfold asked_now. revert E. unfold handler_step, permitted.
  destruct (h_pc h) as [|p secs|u n ports|u|u|u|u|reply] eqn:Ep; simpl; rewrite ?app_nil_r.
  - by intros [= <- <-].
  - destruct (hold _ _ _ _ _ _ _) as [s1 rep]. by intros [= <- <-].
  - unfold ports_step. destruct ports as [|p ports]; [by intros [= <- <-]|].
    repeat (case_match; simplify_eq/=); intros; simplify_eq/=; done.
  - by intros [= <- <-].
  - destruct (notify_url _ _ _) as [ran permit]. by intros [= <- <-].
  - destruct (record _ _ _ _) as [entries [|count]]; intros [= <- <-]; simpl; [done|by rewrite app_nil_r].
  - intros [= <- <-]. unfold open_url. by repeat case_match.
  - by intros [= <- <-].
Qed.

Lemma asked_now_times h now d r : r ∈ asked_now h now d → req_time r.1 = now.
Proof.
  unfold asked_now. destruct (h_pc h); try by intros ?%not_elem_of_nil. unfold open_request.
  intros Hr%list_elem_of_singleton. by subst r.
Qed.

Lemma asked_now_once h now d :
  (length (asked_now h now d) ≤ 1)%nat ∧ (asked_now h now d ≠ [] → before_asking (h_pc h) = true).
Proof. unfold asked_now. destruct (h_pc h); simpl; split; try done; lia. Qed.

Lemma ordered_app t t' l l' :
  (t ≤ t')%Z → ordered t l → (∀ r, r ∈ l → (req_time r ≤ t')%Z) →
  (ordered t' l') → ordered t (l ++ l')%list.
Proof.
  revert t. induction l as [|r l IH]; intros t Ht Ho Hr Hl; simpl in *.
  - destruct l' as [|r' l']; simpl in *; [done|]. destruct Hl. split; [lia|done].
  - destruct Ho as [Hto Ho]. split; [done|]. apply IH; [apply Hr; left|done| |done]. intros r' Hr'. apply Hr. by right.
Qed.

(** ** Every step *)
Lemma dinv_new s t : dinv t (Daemons_new s t).
Proof.
  split; simpl; try done.
  - split; [apply NoDup_nil_2|by intros i ?%not_elem_of_nil].
  - split; [apply NoDup_nil_2|by intros i e ?%not_elem_of_nil].
  - split; [done|]. by intros a ?%not_elem_of_nil.
Qed.

Lemma start_ok_mono x x' i e :
  (∀ h reply, hs x !! i = Some h → h_pc h = HDone reply → hs x' !! i = Some h) →
  (∀ a, a ∈ asks x → a ∈ asks x') → start_ok x i e → start_ok x' i e.
Proof.
  intros Hh Ha (h & u & program & arguments & now & reply & H1 & H2 & H3 & H4 & H5 & H6 & H7).
  exists h, u, program, arguments, now, reply. split_and!; eauto.
Qed.

Lemma dinv_accept t x i : dinv t x → dinv t (dstep x (DAccept i)).
Proof.
  intros H. destruct i as [|c]; [done|]. cbn [dstep]. destruct (from_addr c) as [remote|]; [|done].
  destruct (authorized parse cfg remote) eqn:Ha; cbn [negb]; [|done]. destruct (thread_starts c); cbn [negb]; [|done].
  destruct H as [Hh [Hk1 Hk2] [Hs1 Hs2] He Hl Hc Ho]. split; cbn [hs shared clock asks starts]; try done.
  - intros i h [Hi|[Hi Hh']]%lookup_app_Some; [by apply Hh|]. apply list_lookup_singleton_Some in Hh' as [Hi0 <-].
    split_and!; [done|done|]. intros _ ?%Hk2. lia.
  - split; [done|]. intros i Hi%Hk2. rewrite length_app. lia.
  - split; [done|]. intros i e Hie. eapply start_ok_mono; [| |by apply Hs2]; [|done]. cbn [hs].
    intros h reply Hi _. by apply lookup_app_l_Some.
Qed.

Lemma askers_app (l : ask_log) i (r : list (Policy.request * OpenDecision)) :
  askers (l ++ ((λ r, (i, r.1, r.2)) <$> r))%list = (askers l ++ replicate (length r) i)%list.
Proof.
  unfold askers. rewrite fmap_app, <-list_fmap_compose. f_equal. induction r as [|a r IH]; [done|]. simpl. by rewrite <-IH.
Qed.

Section one_step.
Context (t : Z) (x : Daemons) (i : nat) (now : Z) (h h' : Handler) (d' : DState (S:=S)).
Context (H : dinv t x) (Hi : hs x !! i = Some h) (Hnow : (clock x ≤ now)%Z).
Context (E : handler_step h now (shared x) = (h', d')).

Let new := (λ r : Policy.request * OpenDecision, (i, r.1, r.2)) <$> asked_now h now (shared x).
Let x' := {| hs := <[i := h']> (hs x); shared := d'; clock := now; asks := (asks x ++ new)%list;
             starts := (starts x ++ (pair i <$> started_now h))%list |}.

Lemma run_handlers j k : hs x' !! j = Some k → handler_ok (asks x') j k.
Proof.
  destruct H as [Hh _ _ _ _ _ _]. pose proof (Hh i h Hi) as Hok.
  destruct (step_same _ _ _ _ _ E) as [_ Ef]. destruct (step_fine (asks x) i h now (shared x) h' d' Hok E) as [Hf Hb].
  cbn [x' hs asks]. intros [(-> & -> & _)|[Hne Hj]]%list_lookup_insert_Some.
  - destruct Hok as (Ha & _ & Hn). split_and!; [by rewrite Ef|exact Hf|]. intros [Hb1 Hb2]%Hb. unfold new. rewrite Hb2.
    rewrite fmap_nil, app_nil_r. by apply Hn.
  - destruct (Hh j k Hj) as (Ha & Hp & Hn). split_and!; [done|by apply pc_fine_more|]. intros Hbj.
    unfold new. rewrite askers_app. intros [?|Hr]%elem_of_app; [by apply Hn|]. by apply elem_of_replicate in Hr as [-> _].
Qed.

Lemma run_askers : NoDup (askers (asks x')) ∧ ∀ j, j ∈ askers (asks x') → (j < length (hs x'))%nat.
Proof.
  destruct H as [Hh [Hn Hk] _ _ _ _ _]. destruct (Hh i h Hi) as (_ & _ & Hb).
  destruct (asked_now_once h now (shared x)) as [Hle Hne]. apply lookup_lt_Some in Hi as Hlt.
  cbn [x' hs asks]. unfold new. rewrite askers_app, length_insert. split.
  - destruct (asked_now h now (shared x)) as [|r [|]]; simpl in *; [by rewrite app_nil_r| |lia].
    apply NoDup_app. split_and!; [done| |apply NoDup_singleton].
    intros j Hj ->%list_elem_of_singleton. by apply Hb; [apply Hne|].
  - intros j [?|[-> _]%elem_of_replicate]%elem_of_app; [by apply Hk|done].
Qed.

Lemma started_now_spec e :
  e ∈ started_now h → ∃ u program arguments, h_pc h = HOpen u ∧ h' = goto h (HDone (Some (as_wire Opened))) ∧
    opener (h_cfg h) = program :: arguments ∧ e = OpenerStarted program (arguments ++ [url_text u])%list.
Proof.
  unfold started_now. revert E. unfold handler_step. destruct (h_pc h) as [| | | | | |u|]; try by intros _ ?%not_elem_of_nil.
  intros [= <- _]. destruct (opener (h_cfg h)) as [|program arguments]; [by intros ?%not_elem_of_nil|].
  destruct (opener_starts (h_conn h)); [|by intros ?%not_elem_of_nil]. intros ->%list_elem_of_singleton.
  by exists u, program, arguments.
Qed.

Lemma run_starts : NoDup (starts x').*1 ∧ ∀ j e, (j, e) ∈ starts x' → start_ok x' j e.
Proof.
  destruct H as [Hh _ [Hn Hs] _ _ _ _]. destruct (Hh i h Hi) as (Ha & Hp & _). apply lookup_lt_Some in Hi as Hlt. split.
  - cbn [x' starts]. rewrite fmap_app. apply NoDup_app. split_and!; [done| |].
    + intros j ([j' e] & -> & Hje)%list_elem_of_fmap Hin. apply list_elem_of_fmap in Hin as ([j2 e2] & Hj & Hin).
      cbn [fst] in Hj. subst j2. apply list_elem_of_fmap in Hin as (e3 & [= -> ->] & He). cbn [fst] in *.
      destruct (started_now_spec _ He) as (u & _ & _ & Ho & _). destruct (Hs _ _ Hje) as (k & ? & ? & ? & ? & reply & Hk & Hd & _).
      rewrite Hi in Hk. simplify_eq. congruence.
    + unfold started_now. destruct (h_pc h); try apply NoDup_nil_2. repeat case_match; try apply NoDup_nil_2. apply NoDup_singleton.
  - cbn [x' starts]. intros j e [Hje|(e0 & [= -> ->] & He)%list_elem_of_fmap]%elem_of_app.
    + eapply start_ok_mono; [| |by apply Hs]; cbn [x' hs asks].
      * intros k reply Hk Hd. destruct (decide (j = i)) as [->|Hne]; [|by rewrite list_lookup_insert_ne].
        rewrite Hi in Hk. injection Hk as <-. rewrite list_lookup_insert_eq by done.
        revert E. unfold handler_step. rewrite Hd. by intros [= <- _].
      * intros a Ha'. apply elem_of_app. by left.
    + destruct (started_now_spec _ He) as (u & program & arguments & Ho & Eh & Hop & ->).
      unfold pc_fine in Hp. rewrite Ho in Hp. destruct Hp as [Hal (ti & Ht)].
      exists h', u, program, arguments, ti, (Some (as_wire Opened)). rewrite Eh.
      split_and!; [cbn [x' hs]; by rewrite Eh, list_lookup_insert_eq|done|exact Ha|exact Hal| |exact Hop|done].
      cbn [x' asks]. apply elem_of_app. left. exact Ht.
Qed.

Lemma dinv_run : dinv t x'.
Proof.
  split; [exact run_handlers|exact run_askers|exact run_starts|..]; destruct H as [Hh _ _ He Hl [Ht Hc] Hor]; cbn [x' shared asks starts clock].
  - destruct (step_effects _ _ _ _ _ E) as [-> _]. rewrite fmap_app, He. f_equal.
    rewrite <-list_fmap_compose. symmetry. by apply list_fmap_id.
  - unfold limiter_run in *. rewrite !fmap_app, fold_left_app, Hl. unfold new. rewrite <-!list_fmap_compose.
    pose proof (step_opens i h now (shared x) h' d' (permitted (asks x)) E) as Hso. unfold permitted in *. rewrite omap_app.
    exact Hso.
  - split; [lia|]. intros a [Ha%Hc|(r & -> & Hr)%list_elem_of_fmap]%elem_of_app; [lia|]. apply asked_now_times in Hr. simpl. lia.
  - rewrite !fmap_app. apply (ordered_app t (clock x)); [done|done| |].
    + intros r (y & -> & (z & -> & Hz)%list_elem_of_fmap)%list_elem_of_fmap. by apply Hc.
    + unfold new. rewrite <-!list_fmap_compose. pose proof (asked_now_times h now (shared x)) as Hti.
      destruct (asked_now_once h now (shared x)) as [Hle _].
      destruct (asked_now h now (shared x)) as [|r [|]]; simpl in *; [done| |lia]. rewrite (Hti r) by left. lia.
Qed.
End one_step.

Lemma dinv_step t x a : dinv t x → dinv t (dstep x a).
Proof.
  intros H. destruct a as [i|i elapsed]; [by apply dinv_accept|]. cbn [dstep].
  destruct (hs x !! i) as [h|] eqn:Hi; [|done]. destruct (handler_step h _ (shared x)) as [h' d'] eqn:E.
  apply dinv_run; done || lia.
Qed.

Lemma dinv_drun t x l : dinv t x → dinv t (drun x l).
Proof. revert x. induction l as [|a l IH]; intros x H; [done|]. by apply IH, dinv_step. Qed.

(** C13: nothing opens by itself, however the handlers' threads interleave.
    Over any run of the daemon with any number of connections handled at once,
    no handler starts more than one opener, and every opener that was started
    is owed to one handler: its connection came from an authorized address, its
    line was an http or https URL, every callback port of the URL had been
    asked for by then, the policy opens the URL or a configured notifier
    approved it, the limiter permitted the very open it asked for under the
    mutex, and the command is the configured opener with this URL last.  What
    the limiter permitted, in the order of the mutex, keeps its rate for as many
    requests as it tracks. *)
Theorem handlers_open_only_allowed s t l :
  let x := drun (Daemons_new s t) l in
  List.filter is_opener (effects (shared x)) = (starts x).*2 ∧ NoDup (starts x).*1 ∧ NoDup (askers (asks x)) ∧
  (∀ i e, (i, e) ∈ starts x →
     ∃ h u program arguments now,
       hs x !! i = Some h ∧ authorized parse cfg (h_from h) = true ∧ wants h u ∧
       (scheme u = "http" ∨ scheme u = "https") ∧ h_asked h = callback_ports parse_url (h_cfg h) u ∧
       (policy_decide (h_cfg h) (base u) = Open ∨ approved (h_cfg h) (notifying (h_conn h))) ∧
       (i, open_request h u now, Permit) ∈ asks x ∧
       opener (h_cfg h) = program :: arguments ∧ e = OpenerStarted program (arguments ++ [url_text u])%list) ∧
  ((length (asks x) ≤ MAX_TRACKED_OPENS)%nat → within_rate (permitted (asks x))).
Proof.
  intros x. destruct (dinv_drun t (Daemons_new s t) l (dinv_new s t)) as [Hh [Hk _] [Hn Hs] He Hl _ Ho]. fold x in Hh, Hk, Hn, Hs, He, Hl, Ho.
  split_and!; [done|done|done| |].
  - intros i e (h & u & program & arguments & now & reply & H1 & _ & H3 & [[H4 H5] H6] & H7 & H8 & H9)%Hs.
    exists h, u, program, arguments, now. split_and!; try done. by eapply read_request_scheme.
  - intros Hle. pose proof (opens_within_rate t (asks x).*1.*2) as Hw. rewrite Hl in Hw. apply Hw; [|done].
    by rewrite !length_fmap.
Qed.
End handlers.

(** * Instances

    A stranger, and two devboxes whose URLs are handled at once: one the policy
    opens, one its notifier approves. *)
Definition at_once : list daction :=
  let conn from text r := DAccept (Connected {| from_addr := Some from; thread_starts := true; read_started := 0;
    Daemon.opened_at := 0; bytes_in := demo_script text; opener_starts := true; notifying := asked r |}) in
  (conn (Peers.V4 10 0 0 9) (url_line login_url) TimedOutWait
   :: conn (Peers.V4 100 64 0 1) (url_line login_url) TimedOutWait
   :: conn (Peers.V4 100 64 0 2) (url_line callback_url) (Exited true "default")
   :: mjoin (replicate 8 [DRun 0 5; DRun 1 7]))%list.

Definition at_once_run : Daemons (S := list Z) :=
  drun demo_parse demo_show_ip (λ _, "a") (λ _, "e") demo_parse_url demo_serve_fn laptop_config (Daemons_new [] 0) at_once.

Lemma handlers_open_only_allowed_witness :
  (starts at_once_run).*1 = [0%nat; 1%nat] ∧ NoDup (starts at_once_run).*1 ∧ within_rate (permitted (asks at_once_run)).
Proof.
  destruct (handlers_open_only_allowed demo_parse demo_show_ip (λ _, "a") (λ _, "e") demo_parse_url demo_serve_fn
    laptop_config [] 0 at_once) as (_ & H & _ & _ & Hr).
  split; [by vm_compute|]. split; [exact H|]. apply Hr. vm_compute. lia.
Defined.
