(* ===== verification/Feed.v ===== *)
(** The browser grant feed and the laptop's relay: how a token granted on the
    devbox comes to be accepted on the laptop, and for how long
    ([crates/forward/src/browser.rs], [browser/feed.rs], [feed/client.rs],
    [feed/reaper.rs], [browser/push.rs], [browser/token.rs],
    [crates/hygiene/src/clock.rs]).

    Boot time is a number of nanoseconds since boot, a domain of its own: no
    definition here mixes it with an [Instant].  What a socket delivers is an
    argument of each step. *)

From stdpp Require Import prelude strings list gmap.
From Stdlib Require Import ZArith Lia Ascii.
From S2P Require Import Prelude Text Peers Bridge BrowserGrants.

Local Open Scope string_scope.

(** * Boot time *)
Module BootTime.

Inductive ClockError : Type := Read | Negative.

(** [clock_gettime] failed, or its two components. *)
Definition now (reading : option (Z * Z)) : result ClockError Z :=
  match reading with
  | None => Err Read
  | Some (sec, nsec) =>
      if (sec <? 0)%Z then Err Negative else
      if (nsec <? 0)%Z then Err Negative else Ok (sec * Time.nanos_per_sec + nsec)%Z
  end.

Definition checked_add (t d : Z) : option Z :=
  if (t + d <=? Time.duration_max)%Z then Some (t + d)%Z else None.

Definition saturating_duration_since (t earlier : Z) : Z := Z.max (t - earlier) 0.

End BootTime.

(** [hygiene::constant_time_eq]: equality, in time that depends on the lengths
    only. *)
Definition constant_time_eq (left right : string) : bool := bool_decide (left = right).

(** * The laptop's tokens *)
Definition MAX_LIVE_TOKENS : nat := 64.
Definition LEASE : Z := Time.from_secs (5 * 60).
Definition LONGEST_TTL : Z := Time.from_secs (12 * 60 * 60).

Record TokenEntry : Type := { etoken : string; edeadline : Z }.
Record Inner : Type := { entries : list TokenEntry; connected : bool }.

Definition no_tokens : Inner := {| entries := []; connected := false |}.

#[global] Instance IpAddr_countable : Countable IpAddr.
Proof.
  refine (inj_countable'
    (λ a, match a with
          | Peers.V4 a b c d => inl (a, b, c, d)
          | Peers.V6 a b c d e f g h => inr (a, b, c, d, e, f, g, h)
          end)
    (λ x, match x with
          | inl (a, b, c, d) => Peers.V4 a b c d
          | inr (a, b, c, d, e, f, g, h) => Peers.V6 a b c d e f g h
          end) _).
  by intros [].
Defined.

(** [inner] is the cache of a laptop with one devbox; [peers] holds one per
    devbox address. *)
Record RelayTokens : Type := { shared : Inner; peer_states : gmap IpAddr Inner }.

Definition new : RelayTokens := {| shared := no_tokens; peer_states := ∅ |}.

(** Which cache a clone of [RelayTokens] works on. *)
Inductive handle : Type := Shared | ForPeer (canonical : IpAddr).

#[global] Instance handle_eq_dec : EqDecision handle.
Proof. solve_decision. Defined.

Definition for_peer (peer : IpAddr) : handle := ForPeer (to_canonical peer).

Definition cache (t : RelayTokens) (h : handle) : Inner :=
  match h with
  | Shared => shared t
  | ForPeer a => default no_tokens (peer_states t !! a)
  end.

Definition with_cache (t : RelayTokens) (h : handle) (i : Inner) : RelayTokens :=
  match h with
  | Shared => {| shared := i; peer_states := peer_states t |}
  | ForPeer a => {| shared := shared t; peer_states := <[a := i]> (peer_states t) |}
  end.

Definition clamp_wire_ttl (ttl : Z) : Z := Z.min ttl LONGEST_TTL.

Definition fresh (now : Z) (e : TokenEntry) : bool := (now <? edeadline e)%Z.

Definition insert_until (i : Inner) (tok : string) (deadline now : Z) : Inner :=
  let l := retain (fresh now) (entries i) in
  let l := retain (λ e, negb (constant_time_eq (etoken e) tok)) l in
  let l := if (length l =? MAX_LIVE_TOKENS)%nat then drop 1 l else l in
  {| entries := (l ++ [{| etoken := tok; edeadline := deadline |}])%list; connected := connected i |}.

(** [insert], without the schedule of the reaper. *)
Definition insert_token (i : Inner) (now : Z) (tok : string) (ttl : Z) : Inner :=
  match BootTime.checked_add now (Z.min (clamp_wire_ttl ttl) LEASE) with
  | None => i
  | Some deadline => insert_until i tok deadline now
  end.

Definition reap_expired_at (i : Inner) (now : Z) : Inner :=
  {| entries := retain (fresh now) (entries i); connected := connected i |}.

Definition accepts_at (i : Inner) (presented : string) (now : Z) : Inner * bool :=
  let i := reap_expired_at i now in
  (i, foldl (λ accepted e, accepted || constant_time_eq (etoken e) presented) false (entries i)).

Definition next_deadline (i : Inner) : option Z :=
  foldr (λ e m, Some (match m with Some d => Z.min (edeadline e) d | None => edeadline e end)) None (entries i).

Definition set_connected (i : Inner) (b : bool) : Inner := {| entries := entries i; connected := b |}.

(** * The feed's lines *)
Definition MAX_FEED_LINE : nat := 128.

(** What [push] writes. *)
Definition token_line (tok : string) (ttl_secs : Z) : string :=
  "TOKEN " +:+ tok +:+ " " +:+ to_string ttl_secs +:+ String newline "".

Definition parse_token_line (line : string) : option (string * Z) :=
  rest ← strip_prefix line "TOKEN ";
  '(tok, ttl) ← split_once " " rest;
  if is_empty tok || contains_byte " "%char tok then None else
  ttl ← parse_unsigned u64_max ttl;
  if (ttl =? 0)%Z then None
  else Some (tok, Time.as_secs (clamp_wire_ttl (Time.from_secs ttl))).

(** [trim_end_matches(['\r', '\n'])]. *)
Fixpoint trim_end_crlf (s : string) : string :=
  match s with
  | EmptyString => EmptyString
  | String c s' =>
      match trim_end_crlf s' with
      | EmptyString => if bool_decide (c = newline) || bool_decide (c = carriage_return)
                       then EmptyString else String c EmptyString
      | t => String c t
      end
  end.

(** * The client *)
Definition RECONNECT_BACKOFF : Z := Time.from_secs 5.
Definition OUTAGE_RECONNECT_BACKOFF : Z := Time.from_secs 60.
Definition MAX_UNHEALTHY_FEED : Z := Time.from_secs 30.
Definition MIN_USEFUL_FEED_LIFETIME : Z := MAX_UNHEALTHY_FEED.

(** [ReconnectBudget] and [AcceptBudget]: since when the channel fails. *)
Notation Budget := (option Z).

Definition failed_at (limit : Z) (b : Budget) (now : Z) : Budget * bool :=
  let since := default now b in
  (Some since, (limit <=? Time.duration_since now since)%Z).

Definition restored_if_long_lived (b : Budget) (connected_at now : Z) : Budget :=
  if (MIN_USEFUL_FEED_LIFETIME <=? Time.duration_since now connected_at)%Z then None else b.

Definition next_backoff (b : Budget) (in_outage : bool) (now : Z) : Budget * bool * Z :=
  let '(b', exhausted) := failed_at MAX_UNHEALTHY_FEED b now in
  if exhausted then (b', true, OUTAGE_RECONNECT_BACKOFF) else (b', false, RECONNECT_BACKOFF).

(** One turn of [run_once]: the [Instant] at which it asks how long the feed
    has lived, the boot time of an insertion, what the bounded read gave and
    whether the acknowledgement is written. *)
Inductive feed_read : Type := GotBytes (raw : string) | EndOfFeed | FeedReadFailed.

Record turn : Type := { at_ : Z; boot : Z; got : feed_read; ack_ok : bool }.

Inductive FeedEnd : Type := FeedClosed | FeedFailed | Malformed | AckFailed.

(** Bytes that are not UTF-8 make [read_line] fail. *)
Definition feed_line (g : feed_read) : option (option string) :=
  match g with
  | GotBytes "" | EndOfFeed => Some None
  | GotBytes raw => Some <$> from_utf8 raw
  | FeedReadFailed => None
  end.

Fixpoint run_once (connected_at : Z) (i : Inner) (b : Budget) (turns : list turn) :
    Inner * Budget * option FeedEnd :=
  match turns with
  | [] => (i, b, None)
  | t :: rest =>
      let back_off e := (i, restored_if_long_lived b connected_at (at_ t), Some e) in
      match feed_line (got t) with
      | None => back_off FeedFailed
      | Some None => back_off FeedClosed
      | Some (Some line) =>
          match parse_token_line (trim_end_crlf line) with
          | None => back_off Malformed
          | Some (tok, ttl) =>
              let i := insert_token i (boot t) tok (Time.from_secs ttl) in
              if ack_ok t then run_once connected_at i None rest else (i, None, Some AckFailed)
          end
      end
  end.

(** [client_loop]'s turn after the greeting was written: attached, then
    detached when the feed ends. *)
Definition client_turn (connected_at : Z) (i : Inner) (b : Budget) (in_outage : bool) (turns : list turn) (now : Z) :
    Inner * Budget * bool * Z :=
  let '(i, b, _) := run_once connected_at (set_connected i true) b turns in
  let '(b, in_outage, wait) := next_backoff b in_outage now in
  (set_connected i false, b, in_outage, wait).

(** * The devbox side *)

(** The attached stream, and the streams shut down. *)
Record FeedSlot : Type := { attached : option nat; shut : list nat }.

Definition attach (s : FeedSlot) (stream : nat) : FeedSlot :=
  {| attached := Some stream; shut := (shut s ++ option_list (attached s))%list |}.

(** What the stream did with a line: an I/O error, or the three bytes read. *)
Definition push (s : FeedSlot) (ack : option string) : FeedSlot * bool :=
  match attached s with
  | None => (s, false)
  | Some stream =>
      if bool_decide (ack = Some ("OK" +:+ String newline "")) then (s, true)
      else ({| attached := None; shut := (shut s ++ [stream])%list |}, false)
  end.

(** [push_live]: the lines written, until one is not acknowledged. *)
Fixpoint push_live (s : FeedSlot) (live : list (string * Z)) (acks : list (option string)) :
    FeedSlot * list string :=
  match live with
  | [] => (s, [])
  | (tok, secs) :: rest =>
      if is_some (attached s) then
        let '(s', ok) := push s (default None (head acks)) in
        if ok then
          let '(s'', written) := push_live s' rest (tail acks) in
          (s'', token_line tok secs :: written)
        else (s', [token_line tok secs])
      else (s, [])
  end.

Definition str_trim_end (s : string) : string := trim_loop strip_space_end (String.length s) s.

Section listener.
Context (parse : string → option IpAddr).

(** [attach_if_feed] up to the push: the greeting is what one bounded line
    read gave, [None] when it failed. *)
Definition attach_if_feed (cfg : Config) (remote local : IpAddr) (s : FeedSlot) (stream : nat)
    (greeting : option string) : FeedSlot * bool :=
  if negb (authorized_sensitive parse cfg remote local) then (s, false) else
  match greeting with
  | None => (s, false)
  | Some raw =>
      match from_utf8 raw with
      | None => (s, false)
      | Some line =>
          if is_empty line || negb (bool_decide (str_trim_end line = "FEED")) then (s, false)
          else (attach s stream, true)
      end
  end.

(** * The relay's request *)
Definition MAX_REQUEST_LINE : nat := 128.
Definition RELAY_PREFIX : string := "RELAY ".

(** The loop over positions: [continue] after an interrupted read goes on with
    the next position. *)
Fixpoint token_loop (deadline : Z) (positions : list nat) (tok : string) (script : list (Z * byte_read)) :
    option (option string) :=
  match positions with
  | [] => Some None
  | position :: positions' =>
      match script with
      | [] => None
      | (now, read) :: script' =>
          if (Time.duration_since deadline now =? 0)%Z then Some None else
          match read with
          | Closed | ReadFailed => Some None
          | Interrupted => token_loop deadline positions' tok script'
          | Got received =>
              match String.get position RELAY_PREFIX with
              | Some expected =>
                  if bool_decide (received = expected) then token_loop deadline positions' tok script' else Some None
              | None =>
                  if bool_decide (received = newline) then Some (Some tok)
                  else token_loop deadline positions' (tok +:+ String received "") script'
              end
          end
      end
  end.

Definition read_relay_token (now timeout : Z) (script : list (Z * byte_read)) : option (option string) :=
  match Time.checked_add now timeout with
  | None => Some None
  | Some deadline => token_loop deadline (seq 0 MAX_REQUEST_LINE) "" script
  end.

(** ** Handling a connection *)
Inductive RelayReply : Type :=
| PeerRefusal
| FeedRefusal
| TokenUpstreamHealthy
| TokenUpstreamDown
| GenericRefusal
| Relayed.

(** What the upstream's status endpoint answered, if it could be asked. *)
Fixpoint has_window (pat s : string) : bool :=
  starts_with s pat || match s with EmptyString => false | String _ s' => has_window pat s' end.

Definition token_refusal (status : option string) : RelayReply :=
  match status with
  | Some line => if has_window " 200" line then TokenUpstreamHealthy else TokenUpstreamDown
  | None => TokenUpstreamDown
  end.

Definition scope_of (cfg : Config) (remote : IpAddr) : handle :=
  if is_multi_peer cfg then for_peer remote else Shared.

(** [for_peer] makes the peer's cache when there is none. *)
Definition handle_from (cfg : Config) (t : RelayTokens) (remote local : IpAddr) (presented : option string)
    (now : Z) (status : option string) (upstream : bool) : RelayTokens * RelayReply :=
  if negb (authorized_sensitive parse cfg remote local) then (t, PeerRefusal) else
  let h := scope_of cfg remote in
  let '(i, accepted) :=
    match presented with
    | Some p => accepts_at (cache t h) p now
    | None => (cache t h, false)
    end in
  let t := with_cache t h i in
  if negb accepted then
    if negb (connected i) then (t, FeedRefusal) else (t, token_refusal status)
  else if upstream then (t, Relayed) else (t, GenericRefusal).

End listener.

(** * The laptop's events

    Lines that arrive on the feed of a devbox, relay connections, the reaper
    and the connection flag, in any order. *)
Inductive LEvent : Type :=
| LTurn (peer : IpAddr) (t : turn)
| LRelay (remote local : IpAddr) (presented : option string) (now : Z) (status : option string) (upstream : bool)
| LReap (peer : IpAddr) (now : Z)
| LConnected (peer : IpAddr) (b : bool).

Section laptop.
Context (parse : string → option IpAddr) (cfg : Config).

Definition on_cache (t : RelayTokens) (peer : IpAddr) (f : Inner → Inner) : RelayTokens :=
  with_cache t (scope_of cfg peer) (f (cache t (scope_of cfg peer))).

Definition lstep (t : RelayTokens) (e : LEvent) : RelayTokens :=
  match e with
  | LTurn peer tn => on_cache t peer (λ i, (run_once 0 i None [tn]).1.1)
  | LRelay remote local presented now status upstream =>
      (handle_from parse cfg t remote local presented now status upstream).1
  | LReap peer now => on_cache t peer (λ i, reap_expired_at i now)
  | LConnected peer b => on_cache t peer (λ i, set_connected i b)
  end.

Definition lrun (t : RelayTokens) (events : list LEvent) : RelayTokens := foldl lstep t events.

(** ** The cache *)
Lemma cache_with_eq t h i : cache (with_cache t h i) h = i.
Proof. destruct h; simpl; [done|]. by rewrite lookup_insert_eq. Qed.

Lemma cache_with_ne t h h' i : h ≠ h' → cache (with_cache t h i) h' = cache t h'.
Proof. destruct h, h'; simpl; intros H; [done..|]. rewrite lookup_insert_ne; [done|congruence]. Qed.

Lemma cache_with t h h' i e :
  e ∈ entries (cache (with_cache t h i) h') → (h = h' ∧ e ∈ entries i) ∨ e ∈ entries (cache t h').
Proof.
  destruct (decide (h = h')) as [->|Hne]; [rewrite cache_with_eq; auto|]. rewrite cache_with_ne by done. auto.
Qed.

Lemma foldl_or {A} (p : A → bool) l b : foldl (λ acc x, acc || p x) b l = b || existsb p l.
Proof. revert b. induction l as [|x l IH]; intros b; simpl; [by rewrite orb_false_r|]. by rewrite IH, orb_assoc. Qed.

(** Comparing every live token without stopping is membership among the live
    ones. *)
Lemma accepts_at_spec i p now :
  (accepts_at i p now).2 = true ↔ ∃ e, e ∈ entries i ∧ (now < edeadline e)%Z ∧ etoken e = p.
Proof.
  unfold accepts_at, constant_time_eq. simpl. rewrite foldl_or. simpl. rewrite existsb_exists. split.
  - intros (e & He & Hp). apply list_elem_of_In, elem_of_retain in He as [He Hf]. unfold fresh in Hf. bool_to_prop. eauto.
  - intros (e & He & Hd & Hp). exists e. rewrite <-list_elem_of_In. unfold retain, reap_expired_at; simpl.
    split; [|by rewrite bool_decide_eq_true_2]. apply elem_of_retain. split; [done|]. by apply Z.ltb_lt.
Qed.

Lemma insert_token_entries i now tok ttl e :
  e ∈ entries (insert_token i now tok ttl) →
  e ∈ entries i ∨ (etoken e = tok ∧ edeadline e = (now + Z.min (clamp_wire_ttl ttl) LEASE)%Z).
Proof.
  unfold insert_token, BootTime.checked_add. case_bool; [|auto]. unfold insert_until. simpl.
  intros [He|He]%elem_of_app; [left|right].
  - assert (∀ l : list TokenEntry, e ∈ (if (length l =? MAX_LIVE_TOKENS)%nat then drop 1 l else l) → e ∈ l) as Hdrop.
    { intros l. case_bool; [|done]. intros H. rewrite <-(take_drop 1 l). apply elem_of_app. by right. }
    apply Hdrop, elem_of_retain in He as [He _]. by apply elem_of_retain in He as [He _].
  - apply list_elem_of_singleton in He as ->. done.
Qed.

(** What a feed turn says: a token and its time. *)
Definition turn_token (tn : turn) : option (string * Z) :=
  match feed_line (got tn) with
  | Some (Some line) => parse_token_line (trim_end_crlf line)
  | _ => None
  end.

Lemma run_once_turn i tn :
  (run_once 0 i None [tn]).1.1 =
  match turn_token tn with
  | Some (tok, ttl) => insert_token i (boot tn) tok (Time.from_secs ttl)
  | None => i
  end.
Proof.
  unfold turn_token. simpl. destruct (feed_line (got tn)) as [[line|]|]; [|done..].
  destruct (parse_token_line _) as [[tok ttl]|]; [|done]. by destruct (ack_ok tn).
Qed.

(** The entry was fed by a line of a devbox in this scope. *)
Definition fed_by (events : list LEvent) (h : handle) (e : TokenEntry) : Prop :=
  ∃ peer tn ttl, LTurn peer tn ∈ events ∧ scope_of cfg peer = h ∧ turn_token tn = Some (etoken e, ttl) ∧
    (edeadline e <= boot tn + Z.min (Time.from_secs ttl) LEASE)%Z.

Lemma fed_by_mono events ev h e : fed_by events h e → fed_by (events ++ [ev])%list h e.
Proof. intros (peer & tn & ttl & Hin & H). exists peer, tn, ttl. split; [apply elem_of_app; by left|done]. Qed.

Lemma handle_from_entries t remote local presented now status upstream h e :
  e ∈ entries (cache (handle_from parse cfg t remote local presented now status upstream).1 h) →
  e ∈ entries (cache t h).
Proof.
  unfold handle_from. case_bool; [done|]. destruct presented as [p|]; simpl.
  - intros H. assert (e ∈ entries (cache (with_cache t (scope_of cfg remote)
      (reap_expired_at (cache t (scope_of cfg remote)) now)) h)) as H'.
    { revert H. by repeat case_bool. }
    apply cache_with in H' as [[<- He]|He]; [|done]. by apply elem_of_retain in He as [He _].
  - intros H. assert (e ∈ entries (cache (with_cache t (scope_of cfg remote) (cache t (scope_of cfg remote))) h)) as H'.
    { revert H. by repeat case_bool. }
    apply cache_with in H' as [[<- He]|He]; done.
Qed.

Lemma lrun_fed events h e : e ∈ entries (cache (lrun new events) h) → fed_by events h e.
Proof.
  induction events as [|ev events IH] using rev_ind.
  - intros H. exfalso. destruct h; simpl in H; [|rewrite lookup_empty in H]; by apply not_elem_of_nil in H.
  - unfold lrun. rewrite foldl_app. cbn [foldl]. fold (lrun new events).
    destruct ev as [peer tn|? ? ? ? ? ?|peer now|peer b]; cbn [lstep]; unfold on_cache.
    + rewrite run_once_turn. intros [[<- He]|He]%cache_with; [|by apply fed_by_mono, IH].
      destruct (turn_token tn) as [[tok ttl]|] eqn:Et; [|by apply fed_by_mono, IH].
      apply insert_token_entries in He as [He|[Htok Hd]]; [by apply fed_by_mono, IH|].
      exists peer, tn, ttl. split_and!; [apply elem_of_app; right; by left|done|by rewrite Htok|].
      rewrite Hd. unfold clamp_wire_ttl. lia.
    + intros He. apply fed_by_mono, IH. by eapply handle_from_entries.
    + intros [[<- He]|He]%cache_with; [|by apply fed_by_mono, IH].
      apply elem_of_retain in He as [He _]. by apply fed_by_mono, IH.
    + intros [[<- He]|He]%cache_with; by apply fed_by_mono, IH.
Qed.

(** C7: the laptop relays only under a grant its devbox fed.  In any history
    of feed lines, connections and expiry, a connection is relayed only if its
    address may use the channel and the token it presents came, as it stands,
    on the feed of that same devbox, less than its announced time and less
    than five minutes before. *)
Theorem relay_needs_fed_token events remote local presented now status upstream t' :
  handle_from parse cfg (lrun new events) remote local presented now status upstream = (t', Relayed) →
  authorized_sensitive parse cfg remote local = true ∧
  ∃ p peer tn ttl, presented = Some p ∧ LTurn peer tn ∈ events ∧ turn_token tn = Some (p, ttl) ∧
    (is_multi_peer cfg = true → to_canonical peer = to_canonical remote) ∧
    (now < boot tn + Z.min (Time.from_secs ttl) LEASE)%Z.
Proof.
  unfold handle_from. destruct (authorized_sensitive parse cfg remote local); cbn [negb]; [|done].
  destruct presented as [p|]; [|unfold token_refusal; simpl; intros; repeat case_match; simplify_eq].
  intros H. split; [done|].
  destruct (accepts_at (cache (lrun new events) (scope_of cfg remote)) p now) as [i acc] eqn:E.
  assert (acc = true) as ->.
  { destruct acc; [done|]. simpl in H. unfold token_refusal in H. repeat case_match; simplify_eq. }
  pose proof (accepts_at_spec (cache (lrun new events) (scope_of cfg remote)) p now) as Hs. rewrite E in Hs.
  destruct (proj1 Hs eq_refl) as (e & He & Hd & <-).
  apply lrun_fed in He as (peer & tn & ttl & Hin & Hscope & Ht & Hle).
  exists (etoken e), peer, tn, ttl. split_and!; [done|done|done| |lia].
  intros Hm. unfold scope_of in Hscope. rewrite Hm in Hscope. by injection Hscope.
Qed.

End laptop.

(** * Lines *)
Lemma trim_end_crlf_keep s c :
  last_byte s = Some c → c ≠ newline → c ≠ carriage_return → trim_end_crlf s = s.
Proof.
  intros Hl Hn Hr. induction s as [|d s IH]; [done|]. cbn [trim_end_crlf]. destruct s as [|e s].
  - injection Hl as ->. simpl. by rewrite !bool_decide_eq_false_2.
  - rewrite IH by done. done.
Qed.

Lemma trim_end_crlf_newline s : trim_end_crlf (s +:+ String newline "") = trim_end_crlf s.
Proof. induction s as [|c s IH]; [done|]. rewrite append_cons. cbn [trim_end_crlf]. by rewrite IH. Qed.

Lemma digits_last s : is_empty s = false → all_bytes is_ascii_digit s = true →
  ∃ c, last_byte s = Some c ∧ is_ascii_digit c = true.
Proof.
  induction s as [|c s IH]; [done|]. intros _ H. simpl in H. apply andb_true_iff in H as [Hc Hs].
  destruct s as [|d s]; [by exists c|]. by apply IH.
Qed.

(** The tokens a devbox mints: base64, so neither space nor line end. *)
Definition clean_token (tok : string) : Prop :=
  is_empty tok = false ∧ all_bytes is_ascii tok = true ∧ contains_byte " "%char tok = false ∧
  contains_byte newline tok = false ∧ (String.length tok <= 100)%nat.

Lemma as_secs_clamp ttl :
  (1 <= ttl)%Z → Time.as_secs (clamp_wire_ttl (Time.from_secs ttl)) = Z.min ttl (12 * 60 * 60).
Proof.
  intros H. unfold Time.as_secs, clamp_wire_ttl, LONGEST_TTL, Time.from_secs.
  rewrite Z.mul_min_distr_nonneg_r by done. by rewrite Z.div_mul.
Qed.

Lemma parse_token_line_spec tok ttl :
  clean_token tok → (1 <= ttl <= u64_max)%Z →
  parse_token_line (trim_end_crlf (token_line tok ttl)) = Some (tok, Z.min ttl (12 * 60 * 60)).
Proof.
  intros (He & Ha & Hs & Hn & Hlen) Ht. pose proof (to_string_digits ttl ltac:(lia)) as Dt.
  destruct (digits_last _ (to_string_not_empty ttl) Dt) as (c & Hc & Hcd).
  assert (token_line tok ttl = ("TOKEN " +:+ tok +:+ " " +:+ to_string ttl) +:+ String newline "") as ->.
  { unfold token_line. by rewrite <-!append_assoc. }
  rewrite trim_end_crlf_newline. rewrite (trim_end_crlf_keep _ c).
  - unfold parse_token_line. rewrite strip_prefix_append. cbn [mbind option_bind].
    change (tok +:+ " " +:+ to_string ttl) with (tok +:+ String " "%char (to_string ttl)).
    change " " with (String " "%char "") at 1. rewrite split_once_char by done. cbn [mbind option_bind].
    rewrite He, Hs. cbn [orb]. rewrite parse_unsigned_to_string by lia. cbn [mbind option_bind].
    destruct (Z.eqb_spec ttl 0); [lia|]. rewrite as_secs_clamp by lia. done.
  - rewrite !append_assoc, last_byte_app_r; [done|]. by intros E; rewrite E in Hc.
  - by intros ->.
  - by intros ->.
Qed.

Lemma turn_token_line tok ttl a b ok :
  clean_token tok → (1 <= ttl <= u64_max)%Z →
  turn_token {| at_ := a; boot := b; got := GotBytes (token_line tok ttl); ack_ok := ok |}
    = Some (tok, Z.min ttl (12 * 60 * 60)).
Proof.
  intros Hc Ht. pose proof Hc as (He & Ha & Hs & Hn & Hlen).
  assert (from_utf8 (token_line tok ttl) = Some (token_line tok ttl)) as Hu.
  { apply from_utf8_ascii. unfold token_line. pose proof (digits_ascii _ (to_string_digits ttl ltac:(lia))) as Hd.
    by rewrite !all_bytes_append, Ha, Hd. }
  rewrite <-(parse_token_line_spec tok ttl) by done. unfold turn_token, feed_line. cbn [got].
  destruct (token_line tok ttl) eqn:E; [done|]. by rewrite Hu.
Qed.

(** What the devbox pushes, the laptop registers.  A pushed line fits the
    client's bounded read and is parsed to the same token with its time cut at
    twelve hours, so no live grant's push is taken for a malformed line. *)
Lemma token_line_roundtrip tok ttl a b ok :
  clean_token tok → (1 <= ttl <= u64_max)%Z →
  (String.length (token_line tok ttl) <= MAX_FEED_LINE)%nat ∧
  turn_token {| at_ := a; boot := b; got := GotBytes (token_line tok ttl); ack_ok := ok |}
    = Some (tok, Z.min ttl (12 * 60 * 60)).
Proof.
  intros Hc Ht. split; [|by apply turn_token_line]. destruct Hc as (_ & _ & _ & _ & Hlen).
  unfold token_line. rewrite !length_append. pose proof (to_string_length ttl). simpl. unfold MAX_FEED_LINE. lia.
Qed.

(** * Lifetimes *)

(** A token is accepted exactly until its deadline.  Whatever else the
    cache holds, right after a token is registered it is accepted at a time if
    and only if that time is before its announced time, or five minutes,
    whichever is less. *)
Lemma fed_token_accepted_until i now tok ttl later :
  (0 <= ttl)%Z → (now + LEASE <= Time.duration_max)%Z →
  (accepts_at (insert_token i now tok ttl) tok later).2 = bool_decide (later < now + Z.min ttl LEASE)%Z.
Proof.
  intros Ht Hmax. assert (Z.min (clamp_wire_ttl ttl) LEASE = Z.min ttl LEASE) as Emin.
  { unfold clamp_wire_ttl. assert (LEASE <= LONGEST_TTL)%Z by done. lia. }
  unfold insert_token, BootTime.checked_add. rewrite Emin.
  destruct (Z.leb_spec (now + Z.min ttl LEASE) Time.duration_max); [|lia].
  apply eq_iff_eq_true. rewrite bool_decide_eq_true, accepts_at_spec. unfold insert_until. simpl. split.
  - intros (e & [He|He]%elem_of_app & Hd & Hp).
    + assert (e ∈ retain (λ e, negb (constant_time_eq (etoken e) tok)) (retain (fresh now) (entries i))) as He'.
      { revert He. case_bool; [|done]. intros He. rewrite <-(take_drop 1). apply elem_of_app. by right. }
      apply elem_of_retain in He' as [_ Hne]. unfold constant_time_eq in Hne. bool_to_prop. done.
    + by apply list_elem_of_singleton in He as ->.
  - intros Hd. eexists. split; [apply elem_of_app; right; by apply list_elem_of_singleton|done].
Qed.


(** * Bounds of the cache *)
Definition cache_ok (i : Inner) : Prop :=
  (length (entries i) <= MAX_LIVE_TOKENS)%nat ∧ NoDup (etoken <$> entries i).

Lemma retain_cache_ok (p : TokenEntry → bool) l b :
  cache_ok {| entries := l; connected := b |} → cache_ok {| entries := retain p l; connected := b |}.
Proof.
  unfold cache_ok. simpl. intros [Hl Hn]. split; [etrans; [apply retain_length|done]|].
  eapply sublist_NoDup; [exact Hn|]. apply fmap_sublist, retain_sublist.
Qed.

Lemma insert_token_cache_ok i now tok ttl : cache_ok i → cache_ok (insert_token i now tok ttl).
Proof.
  intros Hok. unfold insert_token. destruct (BootTime.checked_add _ _) as [d|]; [|done].
  unfold insert_until. destruct i as [l c]. simpl. apply (retain_cache_ok (fresh now)) in Hok.
  apply (retain_cache_ok (λ e, negb (constant_time_eq (etoken e) tok))) in Hok as [Hl Hn]. simpl in Hl, Hn.
  assert (∀ e, e ∈ retain (λ e, negb (constant_time_eq (etoken e) tok)) (retain (fresh now) l) → etoken e ≠ tok) as Hne.
  { intros e [_ He]%elem_of_retain. unfold constant_time_eq in He. by bool_to_prop. }
  revert Hl Hn Hne. generalize (retain (λ e, negb (constant_time_eq (etoken e) tok)) (retain (fresh now) l)) as k.
  intros k Hl Hn Hne. unfold cache_ok. simpl. rewrite length_app, fmap_app.
  assert (∀ k', sublist k' k → (length k' < MAX_LIVE_TOKENS)%nat →
    (length k' + 1 <= MAX_LIVE_TOKENS)%nat ∧ NoDup (etoken <$> (k' ++ [{| etoken := tok; edeadline := d |}])%list)) as Hk.
  { intros k' Hs Hlt. split; [lia|]. rewrite fmap_app. apply NoDup_app. split_and!.
    - eapply sublist_NoDup; [exact Hn|]. by apply fmap_sublist.
    - intros x (e & -> & He)%list_elem_of_fmap Hx%list_elem_of_singleton. simpl in Hx.
      eapply (Hne e); [|done]. by eapply elem_of_sublist.
    - apply NoDup_singleton. }
  rewrite <-fmap_app. destruct (Nat.eqb_spec (length k) MAX_LIVE_TOKENS) as [E|E].
  - apply Hk; [apply sublist_drop|]. rewrite length_drop. unfold MAX_LIVE_TOKENS in *. lia.
  - apply Hk; [done|]. lia.
Qed.

(** * The expiry worker

    The timer is armed after every insertion and after every pass, each time
    under one lock with the deadline it reads; between, the thread that
    inserted, or the worker that woke, still has to arm it. *)
Record ReaperState : Type := {
  rinner : Inner;
  timer : option Z;
  arming : nat;
  worker : option bool;
}.

(** [worker]: waiting on the timer, woken, or past the pass and about to arm. *)
Inductive REvent : Type :=
| RInsert (now : Z) (tok : string) (ttl : Z)
| RArm
| RFire (now : Z)
| RReap (now : Z)
| RRearm
| RAccept (presented : string) (now : Z).

Definition rstep (s : ReaperState) (e : REvent) : option ReaperState :=
  match e with
  | RInsert now tok ttl =>
      match BootTime.checked_add now (Z.min (clamp_wire_ttl ttl) LEASE) with
      | None => Some s
      | Some d => Some {| rinner := insert_until (rinner s) tok d now; timer := timer s;
                          arming := S (arming s); worker := worker s |}
      end
  | RArm =>
      match arming s with
      | O => None
      | S n => Some {| rinner := rinner s; timer := next_deadline (rinner s); arming := n; worker := worker s |}
      end
  | RFire now =>
      match timer s, worker s with
      | Some d, None => if (d <=? now)%Z
                        then Some {| rinner := rinner s; timer := None; arming := arming s; worker := Some false |}
                        else None
      | _, _ => None
      end
  | RReap now =>
      match worker s with
      | Some false => Some {| rinner := reap_expired_at (rinner s) now; timer := timer s;
                              arming := arming s; worker := Some true |}
      | _ => None
      end
  | RRearm =>
      match worker s with
      | Some true => Some {| rinner := rinner s; timer := next_deadline (rinner s); arming := arming s; worker := None |}
      | _ => None
      end
  | RAccept presented now =>
      Some {| rinner := (accepts_at (rinner s) presented now).1; timer := timer s;
              arming := arming s; worker := worker s |}
  end.

Fixpoint rrun (s : ReaperState) (events : list REvent) : option ReaperState :=
  match events with
  | [] => Some s
  | e :: rest => s' ← rstep s e; rrun s' rest
  end.

Definition rstart : ReaperState := {| rinner := no_tokens; timer := None; arming := 0; worker := None |}.

Lemma next_deadline_le i e : e ∈ entries i → ∃ d, next_deadline i = Some d ∧ (d <= edeadline e)%Z.
Proof.
  unfold next_deadline. induction (entries i) as [|x l IH]; [by intros ?%not_elem_of_nil|].
  intros [->|He]%elem_of_cons; simpl.
  - eexists. split; [done|]. case_match; lia.
  - destruct (IH He) as (d & -> & Hd). eexists. split; [done|]. lia.
Qed.

Definition reaper_ok (s : ReaperState) : Prop :=
  arming s = 0 → worker s = None → ∀ e, e ∈ entries (rinner s) → ∃ d, timer s = Some d ∧ (d <= edeadline e)%Z.

Lemma rstep_ok s e s' : reaper_ok s → rstep s e = Some s' → reaper_ok s'.
Proof.
  intros Hok H. destruct e as [now tok ttl| |now|now| |presented now]; simpl in H.
  - destruct (BootTime.checked_add _ _); simplify_eq; [|done]. done.
  - destruct (arming s) eqn:Ea; simplify_eq. intros _ _ x Hx. by apply next_deadline_le.
  - destruct (timer s) as [d|], (worker s); simplify_eq. case_bool; by simplify_eq.
  - destruct (worker s) as [[]|]; by simplify_eq.
  - destruct (worker s) as [[]|]; simplify_eq. intros _ _ x Hx. by apply next_deadline_le.
  - simplify_eq. intros Ha Hw x Hx. simpl in *. apply elem_of_retain in Hx as [Hx _]. by apply Hok.
Qed.

(** No token is forgotten by the expiry worker.  In every interleaving of
    insertions, checks and the worker's passes, when no insertion still has to
    arm the timer and the worker waits, the timer is set no later than the
    deadline of any token in memory. *)
Lemma reaper_covers_tokens events s e :
  rrun rstart events = Some s → arming s = 0 → worker s = None → e ∈ entries (rinner s) →
  ∃ d, timer s = Some d ∧ (d <= edeadline e)%Z.
Proof.
  intros H. assert (reaper_ok s) as Hok; [|by intros; apply Hok].
  assert (reaper_ok rstart) as H0 by (by intros _ _ x ?%not_elem_of_nil).
  revert H0 H. generalize rstart as s0. induction events as [|ev events IH]; intros s0 H0 H; simplify_eq/=; [done|].
  apply bind_Some in H as (s1 & H1 & H). eapply IH, H. by eapply rstep_ok.
Qed.

(** * The slot *)

(** A grant counts as delivered only on the laptop's word.  A push reports
    success exactly when a feed is attached and answered with the three bytes
    of the acknowledgement; any other outcome on an attached feed shuts that
    connection down and empties the slot, and only an authorized peer's
    connection that greeted with FEED ever fills it, shutting the one it
    replaces. *)
Lemma feed_slot_contract parse cfg remote local s stream greeting ack :
  ((push s ack).2 = true ↔ is_some (attached s) = true ∧ ack = Some ("OK" +:+ String newline "")) ∧
  ((push s ack).2 = false → attached (push s ack).1 = None ∧
     ∀ old, attached s = Some old → old ∈ shut (push s ack).1) ∧
  let '(s', ok) := attach_if_feed parse cfg remote local s stream greeting in
  (ok = false → s' = s) ∧
  (ok = true → authorized_sensitive parse cfg remote local = true ∧ attached s' = Some stream ∧
     (∃ line, greeting = Some line ∧ str_trim_end line = "FEED") ∧
     ∀ old, attached s = Some old → old ∈ shut s').
Proof.
  split_and!.
  - unfold push. destruct (attached s); simpl; [|naive_solver]. case_bool; simpl; naive_solver.
  - unfold push. destruct (attached s) as [old|] eqn:E; simpl; [|by rewrite E; naive_solver].
    case_bool; simpl; [done|]. intros _. split; [done|]. intros ? [= <-]. apply elem_of_app. right. by left.
  - unfold attach_if_feed. destruct (authorized_sensitive parse cfg remote local); simpl; [|done].
    destruct greeting as [raw|]; [|done]. unfold from_utf8. destruct (valid_utf8 raw); [|done].
    destruct (is_empty raw || _) eqn:E; [done|]. bool_to_prop.
    split; [done|]. intros _. split_and!; [done|done|by exists raw|].
    intros old Ho. simpl. rewrite Ho. apply elem_of_app. right. by left.
Qed.

(** * Reading the relay token *)
Fixpoint script_of (now : Z) (s : string) : list (Z * byte_read) :=
  match s with EmptyString => [] | String c s' => (now, Got c) :: script_of now s' end.

Lemma token_loop_reads deadline now start acc tok rest :
  (now < deadline)%Z → (String.length RELAY_PREFIX <= start)%nat → contains_byte newline tok = false →
  (start + String.length tok < MAX_REQUEST_LINE)%nat →
  token_loop deadline (seq start (MAX_REQUEST_LINE - start)) acc
    (script_of now (tok +:+ String newline rest)) = Some (Some (acc +:+ tok)).
Proof.
  intros Hd. revert start acc. induction tok as [|c tok IH]; intros start acc Hs Hn Hl.
  - change ("" +:+ String newline rest) with (String newline rest).
    destruct (MAX_REQUEST_LINE - start) as [|k] eqn:Ek; [simpl in Hl; lia|]. cbn [seq token_loop script_of].
    rewrite append_nil_r. unfold Time.duration_since. destruct (Z.eqb_spec (Z.max (deadline - now) 0) 0); [lia|].
    assert (String.get start RELAY_PREFIX = None) as ->.
    { do 6 (destruct start as [|start]; [simpl in Hs; lia|]). done. }
    done.
  - rewrite append_cons. simpl in Hl. destruct (MAX_REQUEST_LINE - start) as [|k] eqn:Ek; [lia|].
    cbn [seq token_loop script_of]. unfold Time.duration_since.
    destruct (Z.eqb_spec (Z.max (deadline - now) 0) 0); [lia|].
    assert (String.get start RELAY_PREFIX = None) as ->.
    { do 6 (destruct start as [|start]; [simpl in Hs; lia|]). done. }
    apply contains_byte_false in Hn. simpl in Hn. apply andb_true_iff in Hn as [Hc Hn].
    apply negb_true_iff in Hc. rewrite Hc. replace k with (MAX_REQUEST_LINE - S start)%nat by lia.
    rewrite IH; [|lia|by apply contains_byte_false|lia]. by rewrite <-append_assoc, append_cons.
Qed.

Lemma relay_line_read now timeout at_ tok rest :
  (now + timeout <= Time.instant_max)%Z → (at_ < now + timeout)%Z →
  contains_byte newline tok = false → (String.length tok <= 121)%nat →
  read_relay_token now timeout (script_of at_ (RELAY_PREFIX +:+ tok +:+ String newline rest)) = Some (Some tok).
Proof.
  intros Ht Hd Hn Hl. unfold read_relay_token, Time.checked_add.
  destruct (Z.leb_spec (now + timeout) Time.instant_max); [|lia].
  assert (Time.duration_since (now + timeout) at_ =? 0 = false)%Z as Hz.
  { unfold Time.duration_since. apply Z.eqb_neq. lia. }
  assert (∃ l, seq 0 MAX_REQUEST_LINE = 0 :: 1 :: 2 :: 3 :: 4 :: 5 :: l ∧ l = seq 6 (MAX_REQUEST_LINE - 6)) as (l & -> & El).
  { eexists. split; reflexivity. }
  change (RELAY_PREFIX +:+ ?x) with (String "R" (String "E" (String "L" (String "A" (String "Y" (String " " x)))))).
  cbn [script_of token_loop]. rewrite !Hz. unfold RELAY_PREFIX at 1 2 3 4 5 6. cbn [String.get].
  rewrite !bool_decide_eq_true_2 by done.
  rewrite El. apply (token_loop_reads _ _ 6 "" tok rest); [done|simpl; lia|done|]. unfold MAX_REQUEST_LINE. lia.
Qed.

(** The relay's bearer is read as it was sent.  A request line that
    arrives in time without an interrupted read gives its token, for every
    token of at most 121 bytes without a line end; but when the first read is
    interrupted by a signal the rest of the line is compared against the wrong
    position of the prefix, and the same request is refused. *)
Lemma relay_token_read now timeout at_ tok rest :
  (now + timeout <= Time.instant_max)%Z → (at_ < now + timeout)%Z →
  contains_byte newline tok = false → (String.length tok <= 121)%nat →
  let line := script_of at_ (RELAY_PREFIX +:+ tok +:+ String newline rest) in
  read_relay_token now timeout line = Some (Some tok) ∧
  read_relay_token now timeout ((at_, Interrupted) :: line) = Some None.
Proof.
  intros Ht Hd Hn Hl line. split; [by apply relay_line_read|].
  unfold read_relay_token, Time.checked_add. destruct (Z.leb_spec (now + timeout) Time.instant_max); [|lia].
  assert (Time.duration_since (now + timeout) at_ =? 0 = false)%Z as Hz.
  { unfold Time.duration_since. apply Z.eqb_neq. lia. }
  assert (∃ l, seq 0 MAX_REQUEST_LINE = 0 :: 1 :: l) as (l & ->) by (eexists; reflexivity).
  subst line. change (RELAY_PREFIX +:+ ?x) with (String "R" (String "E" (String "L" (String "A" (String "Y" (String " " x)))))).
  cbn [script_of token_loop]. rewrite !Hz. done.
Qed.

Lemma lrun_cache_ok parse cfg events h : cache_ok (cache (lrun parse cfg new events) h).
Proof.
  assert (∀ t hh i, (∀ h, cache_ok (cache t h)) → cache_ok i → ∀ h, cache_ok (cache (with_cache t hh i) h)) as Hw.
  { intros t hh i Ht Hi h'. destruct (decide (hh = h')) as [->|Hne]; [by rewrite cache_with_eq|].
    by rewrite cache_with_ne. }
  assert (∀ i now, cache_ok i → cache_ok (reap_expired_at i now)) as Hr.
  { intros [l c] now Hi. by apply (retain_cache_ok (fresh now)). }
  revert h. induction events as [|ev events IH] using rev_ind.
  - intros []; simpl; [|rewrite lookup_empty]; (split; [simpl; lia|by constructor]).
  - unfold lrun. rewrite foldl_app. cbn [foldl]. fold (lrun parse cfg new events).
    destruct ev as [peer tn|remote local presented now status up|peer now|peer b]; cbn [lstep]; unfold on_cache.
    + apply Hw; [done|]. rewrite run_once_turn. destruct (turn_token tn) as [[tok ttl]|]; [|done].
      by apply insert_token_cache_ok.
    + unfold handle_from. destruct (authorized_sensitive parse cfg remote local); cbn [negb]; [|done].
      destruct presented as [p|]; simpl; repeat case_match; simpl; apply Hw; auto.
    + apply Hw; auto.
    + apply Hw; [done|]. split; apply IH.
Qed.

(** * Instances *)
Definition demo_token : string := "c2VjcmV0".

Definition demo_turn : turn :=
  {| at_ := 0; boot := Time.from_secs 10; got := GotBytes (token_line demo_token 3600); ack_ok := true |}.

Definition demo_peer : IpAddr := Peers.V6 0 0 0 0 0 65535 25664 2.

Lemma relay_needs_fed_token_witness :
  ∃ p peer tn ttl, Some demo_token = Some p ∧ LTurn peer tn ∈ [LConnected demo_peer true; LTurn demo_peer demo_turn] ∧
    turn_token tn = Some (p, ttl) ∧ (Time.from_secs 300 < boot tn + Z.min (Time.from_secs ttl) LEASE)%Z.
Proof.
  destruct (relay_needs_fed_token demo_parse demo_config [LConnected demo_peer true; LTurn demo_peer demo_turn]
    demo_peer (Peers.V4 100 64 0 1) (Some demo_token) (Time.from_secs 300) None true
    (handle_from demo_parse demo_config
      (lrun demo_parse demo_config new [LConnected demo_peer true; LTurn demo_peer demo_turn])
      demo_peer (Peers.V4 100 64 0 1) (Some demo_token) (Time.from_secs 300) None true).1)
    as (_ & p & peer & tn & ttl & H1 & H2 & H3 & _ & H4).
  - by vm_compute.
  - by exists p, peer, tn, ttl.
Defined.

Lemma token_line_roundtrip_witness :
  (String.length (token_line demo_token 3600) <= MAX_FEED_LINE)%nat ∧ turn_token demo_turn = Some (demo_token, 3600%Z).
Proof. apply (token_line_roundtrip demo_token 3600); [|by vm_compute]. repeat split. simpl. lia. Defined.

Lemma fed_token_accepted_until_witness :
  (accepts_at (insert_token no_tokens 7 demo_token (Time.from_secs 3600)) demo_token 8).2 = true ∧
  (accepts_at (insert_token no_tokens 7 demo_token (Time.from_secs 3600)) demo_token (7 + LEASE)).2 = false.
Proof.
  rewrite !fed_token_accepted_until by (by vm_compute). by vm_compute.
Defined.

Lemma reaper_covers_tokens_witness :
  ∃ d, timer (default rstart (rrun rstart [RInsert 5 demo_token LEASE; RArm])) = Some d ∧ (d <= 5 + LEASE)%Z.
Proof.
  apply (reaper_covers_tokens [RInsert 5 demo_token LEASE; RArm] _ {| etoken := demo_token; edeadline := 5 + LEASE |});
    [by vm_compute|done|done|]. by left.
Defined.

Lemma relay_token_read_witness :
  read_relay_token 0 (Time.from_secs 10) (script_of 1 ("RELAY " +:+ demo_token +:+ String newline "")) = Some (Some demo_token).
Proof.
  apply (relay_token_read 0 (Time.from_secs 10) 1 demo_token ""); [by vm_compute|by vm_compute|done|simpl; lia].
Defined.

Definition demo_grants : Grants :=
  BrowserGrants.run [Observe (demo_authority 1); InsertIf (demo_authority 1) demo_grant (Some 3)].

