(* ===== verification/Transport.v ===== *)
(** The browser side of the broker's protocol: how [forward] reaches the
    broker, what it makes of its answers, and how it follows the broker's
    authority ([crates/forward/src/secretsd.rs], [secretsd/transport.rs],
    [secretsd/validation.rs], [browser/subscription.rs]).

    A connection is what dialling it showed: whether it connected, the uid the
    kernel reports and the socket node's identity.  The reply on it is the
    result of the shared client's [request_on], modelled in [Wire]. *)

From stdpp Require Import prelude strings list gmap.
From Stdlib Require Import ZArith Lia Ascii.
From S2P Require Import Prelude Text Wire Request Containment Bridge BrowserGrants.

Local Open Scope string_scope.

(** * Error mapping *)
Inductive Verb : Type :=
| VAuthorize (cap : string)
| VRedeem
| VHello.

Definition map_code (code : string) (verb : Verb) : BrokerError :=
  if bool_decide (code = "UNKNOWN_OP") then UnknownOpError else
  match verb with
  | VAuthorize cap =>
      if bool_decide (code = "DENIED") then DeniedError else
      if bool_decide (code = "TIMEOUT") then TimeoutError else
      if bool_decide (code = "YUBIKEY_UNREACHABLE") then YubikeyUnreachableError else
      if bool_decide (code = "TOO_MANY_PENDING") then TooManyPendingError else
      if bool_decide (code = "NOT_HUMAN_KEY") || bool_decide (code = "AMBIGUOUS_KEY")
      then NotProvisioned cap (map_bytes to_ascii_uppercase cap) else
      if bool_decide (code = "NO_SCOPE") || bool_decide (code = "UNKNOWN_TOKEN")
         || bool_decide (code = "FOREIGN_CALLER") || bool_decide (code = "AGENT_TTY")
      then NoScopeError
      else Protocol "unrecognized broker error"
  | VRedeem => if bool_decide (code = "DENIED") then ReceiptRejected else Protocol "unrecognized broker error"
  | VHello => Protocol "unrecognized broker error"
  end.

(** [show] is an [io::Error]'s text. *)
Definition map_error (show : ErrorKind → string) (error : ClientError) (path : string) (verb : Verb) : BrokerError :=
  match error with
  | Io kind => Connect path (show kind)
  | ApprovalTimeout =>
      match verb with
      | VAuthorize _ => TimeoutError
      | VRedeem => Protocol "redeem timed out"
      | VHello => Protocol "HELLO timed out"
      end
  | VersionHandshake => Protocol ("broker did not confirm protocol version " +:+ to_string PROTOCOL_VERSION)
  | Broker code => map_code (wire code) verb
  | InvalidRequest | InvalidResponse => Protocol "malformed broker exchange"
  | TokenFile => Protocol "session token file is not valid UTF-8"
  end.

(** * Connections *)
Record Dial : Type := {
  connected : result string ();
  peer_uid : option Z;
  node : option SocketIdentity;
}.

Definition connect_verified (path : string) (euid : Z) (d : Dial) : result BrokerError SocketIdentity :=
  match Transport.connected d with
  | Err source => Err (Connect path source)
  | Ok () =>
      match peer_uid d with
      | None => Err (UntrustedPeer path)
      | Some uid =>
          if negb (same_user uid euid) then Err (UntrustedPeer path) else
          ok_or (UntrustedPeer path) (node d)
      end
  end.

(** A reply as [request_on] returns it. *)
Notation Reply := (result ClientError BrokerResponse).

Section client.
Context (show : ErrorKind → string) (path : string) (euid : Z).

(** Two connections: a version handshake, then the request. *)
Definition call_with_socket (verb : Verb) (d1 : Dial) (hello : Reply) (d2 : Dial) (reply : Reply) :
    result BrokerError (string * SocketIdentity) :=
  _ ← connect_verified path euid d1;
  _ ← match hello_check hello with Ok f => Ok f | Err e => Err (map_error show e path VHello) end;
  socket ← connect_verified path euid d2;
  match reply with
  | Ok RespOk => Ok ("", socket)
  | Ok (RespFields fields) => Ok (fields, socket)
  | Ok (RespBytes _) => Err (Protocol "broker returned a payload to a capability verb")
  | Err e => Err (map_error show e path verb)
  end.

Definition broker_identity (d : Dial) (hello : Reply) : result BrokerError BrokerIdentity :=
  socket ← connect_verified path euid d;
  fields ← match hello_check hello with Ok f => Ok f | Err e => Err (map_error show e path VHello) end;
  let no_instance := Protocol "broker HELLO reply has no usable instance" in
  let no_epoch := Protocol "broker HELLO reply has no usable epoch" in
  instance ← match hello_required fields "instance" with Ok i => Ok i | Err _ => Err no_instance end;
  if negb (valid_field instance) then Err no_instance else
  epoch ← match hello_required fields "epoch" with Ok e => Ok e | Err _ => Err no_epoch end;
  n ← ok_or no_epoch (parse_unsigned u64_max epoch);
  Ok {| bi_instance := instance; bi_epoch := n; bi_socket := socket |}.

(** * The verbs *)
Definition CAP_BROWSER : string := "browser".

Definition redeem_frame (receipt cap : string) : string :=
  "REDEEM" +:+ String tab "receipt=" +:+ receipt +:+ String tab "cap=" +:+ cap.

(** The frame sent, if the arguments pass, and the result. *)
Definition redeem (receipt cap : string) (d1 : Dial) (hello : Reply) (d2 : Dial) (reply : Reply) :
    option string * result BrokerError RedeemedGrant :=
  if negb (valid_hex_bytes receipt 64) then (None, Err (Protocol "receipt is not lowercase ASCII hex")) else
  if negb (valid_field cap) then (None, Err (Protocol "redeem request contains an invalid capability")) else
  (Some (redeem_frame receipt cap),
   '(fields, socket) ← call_with_socket VRedeem d1 hello d2 reply;
   redeemed_cap fields cap socket).

(** [read_token_file] on a file's bytes. *)
Definition read_token_file (bytes : option string) : result ClientError string :=
  match bytes with
  | None => Err TokenFile
  | Some b =>
      match from_utf8 b with
      | None => Err TokenFile
      | Some v => if negb (is_empty v) && bool_decide (str_trim v = v) then Ok v else Err TokenFile
      end
  end.

(** [session_token]: the variable's file, if it is set and exists. *)
Definition session_token (variable : bool) (exists_ : bool) (bytes : option string) :
    result BrokerError (option string) :=
  if negb variable then Ok None else
  if negb exists_ then Ok None else
  match read_token_file bytes with
  | Err _ => Err (Protocol "session token file is unreadable or malformed")
  | Ok token => if valid_field token then Ok (Some token)
                else Err (Protocol "session token contains an invalid field")
  end.

Definition authorize (cap : string) (token : result BrokerError (option string)) (tty : option string)
    (d1 : Dial) (hello : Reply) (d2 : Dial) (reply : Reply) : result BrokerError string :=
  token ← token;
  frame ← authorize_request cap token tty;
  '(fields, _) ← call_with_socket (VAuthorize cap) d1 hello d2 reply;
  authorized_receipt fields.

(** [subscribe]: the connection, then its timeouts and the verb's line. *)
Definition subscribe (d : Dial) (written : result string ()) : result BrokerError SocketIdentity :=
  socket ← connect_verified path euid d;
  match written with
  | Ok () => Ok socket
  | Err source => Err (Connect path source)
  end.

(** * The subscription *)
Definition MAX_EPOCH_LINE : nat := 64.

Inductive SubscriptionFailure : Type :=
| Initial (e : BrokerError)
| Attached (e : BrokerError).

(** One read of the subscription: bytes, or the error's text. *)
Inductive sub_read : Type := SubBytes (raw : string) | SubFailed (source : string).

Fixpoint subscription_loop (g : Grants) (socket : SocketIdentity) (reads : list sub_read) :
    Grants * option SubscriptionFailure :=
  match reads with
  | [] => (g, None)
  | SubFailed source :: _ => (g, Some (Attached (Connect path source)))
  | SubBytes raw :: rest =>
      if is_empty raw then (g, Some (Attached SubscriptionClosed)) else
      match from_utf8 raw with
      | None => (g, Some (Attached (Connect path "stream did not contain valid UTF-8")))
      | Some line =>
          if bool_decide (line = SUBSCRIBER_CAPACITY_RESPONSE) then (g, Some (Attached SubscriberCapacity)) else
          match parse_authority_event line with
          | None => (g, Some (Attached (Protocol "malformed broker subscription event")))
          | Some (instance, epoch) =>
              subscription_loop
                (call g (Observe {| bi_instance := instance; bi_epoch := epoch; bi_socket := socket |}))
                socket rest
          end
      end
  end.

(** [run_once]; [None] while it is attached and waiting. *)
Definition subscription_run_once (g : Grants) (identity : result BrokerError BrokerIdentity)
    (subscribed : result BrokerError SocketIdentity) (reads : list sub_read) :
    Grants * option SubscriptionFailure :=
  match identity with
  | Err e => (g, Some (Initial e))
  | Ok i =>
      let g := (call g (Observe i)) in
      match subscribed with
      | Err e => (g, Some (Initial e))
      | Ok socket => subscription_loop g socket reads
      end
  end.

End client.

(** ** The worker *)
Record Timing : Type := {
  reconnect_backoff : Z;
  outage_reconnect_backoff : Z;
  max_unhealthy : Z;
  read_timeout : Z;
}.

Definition STANDARD : Timing := {|
  reconnect_backoff := Time.from_secs 5;
  outage_reconnect_backoff := Time.from_secs 60;
  max_unhealthy := Time.from_secs 30;
  read_timeout := Time.from_secs 30;
|}.

Definition is_connect (e : BrokerError) : bool := match e with Connect _ _ => true | _ => false end.

(** What the worker does with a failed attempt: the registry, since when the
    broker is out of reach, whether that was reported, and the pause. *)
Definition worker_failure (timing : Timing) (g : Grants) (since : option Z) (in_outage : bool)
    (failure : SubscriptionFailure) (now : Z) : Grants * option Z * bool * Z :=
  match failure with
  | Attached _ => (call g Invalidate, None, false, reconnect_backoff timing)
  | Initial e =>
      if negb (is_connect e) then (call g Invalidate, None, false, reconnect_backoff timing) else
      let start := default now since in
      if (max_unhealthy timing <=? Time.duration_since now start)%Z
      then (call g Invalidate, Some start, true, outage_reconnect_backoff timing)
      else (g, Some start, false, reconnect_backoff timing)
  end.

(** One turn of [worker]: what the other threads did to the registry since the
    last, what [stopped] answers before and after the attempt, what the
    attempt met, and the instant after it. *)
Record Attempt : Type := {
  others : list op;
  stop_before : bool;
  asked_identity : result BrokerError BrokerIdentity;
  subscribed : result BrokerError SocketIdentity;
  events : list sub_read;
  stop_after : bool;
  failed_now : Z;
}.

Record Worker : Type := { registry : Grants; unhealthy_since : option Z; in_outage : bool }.

Inductive WorkerState : Type := Retrying | Listening | Stopped.

(** [run_once] only returns with a failure: without one it is listening. *)
Definition worker_turn (path : string) (timing : Timing) (w : Worker) (a : Attempt) : Worker * WorkerState :=
  let g := fold_left BrowserGrants.step (others a) (registry w) in
  let keep g := {| registry := g; unhealthy_since := unhealthy_since w; in_outage := in_outage w |} in
  if stop_before a then (keep g, Stopped) else
  let '(g, failure) := subscription_run_once path g (asked_identity a) (subscribed a) (events a) in
  match failure with
  | None => (keep g, Listening)
  | Some failure =>
      if stop_after a then (keep g, Stopped) else
      let '(g, since, out, _) := worker_failure timing g (unhealthy_since w) (in_outage w) failure (failed_now a) in
      ({| registry := g; unhealthy_since := since; in_outage := out |}, Retrying)
  end.

Fixpoint worker (path : string) (timing : Timing) (w : Worker) (attempts : list Attempt) : Worker * WorkerState :=
  match attempts with
  | [] => (w, Retrying)
  | a :: rest =>
      match worker_turn path timing w a with
      | (w', Retrying) => worker path timing w' rest
      | (w', end_) => (w', end_)
      end
  end.

(** * What a redemption brings *)
Lemma redeem_frame_render receipt cap :
  redeem_frame receipt cap = render "REDEEM" [("receipt", receipt); ("cap", cap)].
Proof. unfold redeem_frame. simpl. unfold part. simpl. by rewrite <-!append_assoc. Qed.

Lemma valid_hex_text v n : valid_hex_bytes v n = true →
  slen v = n ∧ all_bytes is_ascii v = true ∧ contains_byte tab v = false.
Proof.
  unfold valid_hex_bytes. intros [Hl Ha]%andb_true_iff. bool_to_prop. split; [done|]. split.
  - revert Ha. apply all_bytes_impl. intros c. unfold is_ascii_digit, is_ascii, in_range. intros H.
    apply andb_true_iff. split; apply Z.leb_le; bool_to_prop; destruct H; bool_to_prop; lia.
  - by eapply all_bytes_not_contains, Ha.
Qed.

Lemma parse_redeem_frame receipt :
  valid_hex_bytes receipt 64 = true → parse_request (redeem_frame receipt CAP_BROWSER) = Ok (Redeem receipt CAP_BROWSER).
Proof.
  intros (Hl & Ha & Ht)%valid_hex_text. rewrite redeem_frame_render, parse_request_render.
  - done.
  - done.
  - done.
  - repeat constructor; simpl; try done.
  - simpl. apply (bool_decide_unpack _). by vm_compute.
  - rewrite <-redeem_frame_render. unfold redeem_frame. by rewrite !all_bytes_append, Ha.
  - rewrite <-redeem_frame_render. unfold redeem_frame. rewrite !slen_append, Hl. by vm_compute.
Qed.

Lemma token_line_text t : all_bytes token_text t = true → all_bytes line_text t = true.
Proof. apply all_bytes_impl. intros c. unfold token_text, line_text. intros [-> _]%andb_true_iff. done. Qed.

Lemma digits_line_text n : (0 <= n)%Z → all_bytes line_text (to_string n) = true.
Proof.
  intros H. pose proof (to_string_digits n H) as Hd. revert Hd. apply all_bytes_impl. intros c.
  unfold is_ascii_digit, line_text, is_ascii_graphic, in_range. intros Hc. bool_to_prop.
  apply orb_true_iff. left. apply andb_true_iff. split; apply Z.leb_le; lia.
Qed.

Section redemption.
Context (show : ErrorKind → string) (path : string) (euid : Z).
Context (d1 d2 : Dial) (hello : Reply) (f : string) (s1 socket : SocketIdentity).
Context (H1 : connect_verified path euid d1 = Ok s1) (Hh : hello_check hello = Ok f).
Context (H2 : connect_verified path euid d2 = Ok socket).

Lemma call_reaches verb reply :
  call_with_socket show path euid verb d1 hello d2 reply =
  match reply with
  | Ok RespOk => Ok ("", socket)
  | Ok (RespFields fields) => Ok (fields, socket)
  | Ok (RespBytes _) => Err (Protocol "broker returned a payload to a capability verb")
  | Err e => Err (map_error show e path verb)
  end.
Proof. unfold call_with_socket. rewrite H1. simpl. rewrite Hh. simpl. by rewrite H2. Qed.

(** C14: a receipt is redeemed for exactly what the broker answers.  The frame
    sent for a receipt reads at the broker as that receipt and capability; the
    broker's success line comes back as its instance, epoch and lifetime
    together with the identity of the socket that carried the reply; and a
    refusal comes back as the error its code names, a denial as a rejected
    receipt. *)
Theorem redeem_end_to_end receipt instance epoch ttl code message :
  valid_hex_bytes receipt 64 = true → instance ≠ "" → all_bytes token_text instance = true →
  (0 <= epoch <= u64_max)%Z → (1 <= ttl <= u64_max)%Z → all_bytes message_text message = true →
  let result r := redeem show path euid receipt CAP_BROWSER d1 hello d2 (parse_response (format_response r)) in
  (∀ r, ∃ frame, (result r).1 = Some frame ∧ parse_request frame = Ok (Redeem receipt CAP_BROWSER)) ∧
  (result (ROkFields (redeemed_reply CAP_BROWSER instance epoch ttl))).2 =
    Ok {| rg_authority := {| bi_instance := instance; bi_epoch := epoch; bi_socket := socket |}; rg_ttl_secs := ttl |} ∧
  (result (RFailed code message)).2 = Err (map_code (wire code) VRedeem) ∧
  map_code (wire Denied) VRedeem = ReceiptRejected.
Proof.
  intros Hr Hine Hi He Ht Hm result.
  assert (∀ r, (result r).2 = '(fields, socket) ← call_with_socket show path euid VRedeem d1 hello d2
    (parse_response (format_response r)); redeemed_cap fields CAP_BROWSER socket) as E.
  { intros r. unfold result, redeem. by rewrite Hr. }
  split_and!.
  - intros r. unfold result, redeem. rewrite Hr. eexists. split; [done|]. by apply parse_redeem_frame.
  - rewrite E, call_reaches.
    assert (parse_response (format_response (ROkFields (redeemed_reply CAP_BROWSER instance epoch ttl)))
      = Ok (RespFields (redeemed_reply CAP_BROWSER instance epoch ttl))) as ->.
    { rewrite <-(append_nil_r (format_response _)). apply response_answers. constructor; [|done].
      unfold redeemed_reply. by rewrite !all_bytes_append, (token_line_text _ Hi), !digits_line_text by lia. }
    cbn [mbind result_bind]. rewrite redeemed_reply_roundtrip by (done || lia).
    by destruct (Z.ltb_spec 0 ttl); [|lia].
  - rewrite E, call_reaches.
    assert (parse_response (format_response (RFailed code message)) = Err (Broker code)) as ->; [|done].
    rewrite <-(append_nil_r (format_response _)). apply response_answers. by constructor.
  - done.
Qed.
End redemption.

(** * Following the broker's authority *)

(** Every grant ended: none recorded, and its control channel closed. *)
Definition all_ended (g g' : Grants) : Prop :=
  grants g' = ∅ ∧ ∀ id e, grants g !! id = Some e → control e ∈ closed g'.

Lemma call_revokes g a o : step g o = revoke_all (set_authority g a) → all_ended g (call g o) ∧ authority (call g o) = a.
Proof.
  intros E. destruct (call_frame g o) as (Hg & _ & Ha & _). rewrite E in Hg, Ha. split; [|by rewrite Ha].
  split; [by rewrite Hg|]. intros id e H. apply call_closed. rewrite E. cbn [revoke_all endings set_authority].
  rewrite list_lookup_middle by done. cbn. apply elem_of_app. right.
  by apply (elem_of_drained_controls (set_authority g a) id).
Qed.

Lemma invalidate_ended g : authority (call g Invalidate) = None ∧ all_ended g (call g Invalidate).
Proof. destruct (call_revokes g None Invalidate eq_refl) as [? ?]. done. Qed.

(** Losing the broker ends every grant.  Whatever a failed attempt of the
    subscription was, afterwards either no grant is left, no authority is
    recorded and every control channel is closed, or the broker merely could
    not be reached and has been out of reach for less than the grace period. *)
Lemma subscription_fails_closed timing g since in_outage failure now :
  let '(g', since', _, _) := worker_failure timing g since in_outage failure now in
  (authority g' = None ∧ all_ended g g') ∨
  (g' = g ∧ since' = Some (default now since) ∧ (∃ path source, failure = Initial (Connect path source)) ∧
   (Time.duration_since now (default now since) < max_unhealthy timing)%Z).
Proof.
  unfold worker_failure. destruct failure as [e|e]; [|left; apply invalidate_ended].
  destruct e; cbn [is_connect negb]; try (left; apply invalidate_ended).
  destruct (Z.leb_spec (max_unhealthy timing) (Time.duration_since now (default now since))).
  - left. apply invalidate_ended.
  - right. eauto 10.
Qed.

(** An attempt that could not connect. *)
Definition unreachable (a : Attempt) : Prop :=
  ∃ path source, asked_identity a = Err (Connect path source).

Lemma worker_app path timing w l1 l2 :
  worker path timing w (l1 ++ l2) =
  match worker path timing w l1 with (w', Retrying) => worker path timing w' l2 | r => r end.
Proof.
  revert w. induction l1 as [|a l1 IH]; intros w; [done|]. cbn [app worker].
  destruct (worker_turn path timing w a) as [w' []]; [apply IH|done|done].
Qed.

(** The outage's begin is never later than the last attempt. *)
Lemma worker_turn_since path timing w a w' T :
  worker_turn path timing w a = (w', Retrying) → (failed_now a ≤ T)%Z →
  (∀ t, unhealthy_since w = Some t → (t ≤ T)%Z) → ∀ t, unhealthy_since w' = Some t → (t ≤ T)%Z.
Proof.
  unfold worker_turn. destruct (stop_before a); [done|]. destruct (subscription_run_once _ _ _ _ _) as [g [f|]]; [|done].
  destruct (stop_after a); [done|]. intros H HT Hw t.
  assert (default (failed_now a) (unhealthy_since w) ≤ T)%Z by (destruct (unhealthy_since w); naive_solver).
  revert H. unfold worker_failure. destruct f as [e|e]; [destruct (is_connect e); cbn [negb]|].
  - destruct (_ <=? _)%Z; intros [= <-]; simpl; by intros [= <-].
  - by intros [= <-].
  - by intros [= <-].
Qed.

Lemma worker_since path timing l : ∀ w w' T,
  worker path timing w l = (w', Retrying) → Forall (λ a, failed_now a ≤ T)%Z l →
  (∀ t, unhealthy_since w = Some t → (t ≤ T)%Z) → ∀ t, unhealthy_since w' = Some t → (t ≤ T)%Z.
Proof.
  induction l as [|a l IH]; intros w w' T; cbn [worker]; [by intros [= <-]|].
  destruct (worker_turn path timing w a) as [w1 []] eqn:E; [|done|done]. intros H [Ha Hl]%Forall_cons Hw.
  eapply IH; [done|done|]. by eapply worker_turn_since.
Qed.

(** An unreachable attempt keeps the outage's begin, and ends everything once
    the grace period is over. *)
Lemma unreachable_turn path timing w a w' :
  unreachable a → worker_turn path timing w a = (w', Retrying) →
  let since := default (failed_now a) (unhealthy_since w) in
  unhealthy_since w' = Some since ∧
  ((since + max_unhealthy timing ≤ failed_now a)%Z → (0 < max_unhealthy timing)%Z →
   grants (registry w') = ∅ ∧ authority (registry w') = None).
Proof.
  intros (p & source & E). unfold worker_turn. destruct (stop_before a); [done|].
  unfold subscription_run_once. rewrite E. destruct (stop_after a); [done|].
  unfold worker_failure. cbn [is_connect negb]. unfold Time.duration_since.
  destruct (Z.leb_spec (max_unhealthy timing)
    (Z.max (failed_now a - default (failed_now a) (unhealthy_since w)) 0)); intros [= <-]; cbn [unhealthy_since registry].
  - split; [done|]. intros _ _. destruct (invalidate_ended (fold_left BrowserGrants.step (others a) (registry w))) as (? & ? & _). done.
  - split; [done|]. intros. exfalso. lia.
Qed.

Lemma unreachable_run path timing l : ∀ w w' s,
  Forall unreachable l → worker path timing w l = (w', Retrying) → unhealthy_since w = Some s →
  unhealthy_since w' = Some s.
Proof.
  induction l as [|a l IH]; intros w w' s; cbn [worker]; [by intros _ [= <-]|].
  intros [Ha Hl]%Forall_cons. destruct (worker_turn path timing w a) as [w1 []] eqn:E; [|done|done]. intros H Hs.
  apply unreachable_turn in E as [E _]; [|done]. rewrite Hs in E. by eapply IH.
Qed.

(** C15: an outage of the broker ends every browser grant within the grace
    period.  However the subscription went before, and whatever the other
    threads did to the registry in between, once the broker could not be
    reached from one attempt to another thirty seconds or more later, the
    registry is left with no grant and no authority. *)
Theorem outage_ends_grants path l a0 mid a1 w w' :
  Forall (λ a, failed_now a ≤ failed_now a0)%Z l → (∀ t, unhealthy_since w = Some t → (t ≤ failed_now a0)%Z) →
  Forall unreachable (a0 :: mid ++ [a1]) → (failed_now a0 + Time.from_secs 30 ≤ failed_now a1)%Z →
  worker path STANDARD w (l ++ a0 :: mid ++ [a1]) = (w', Retrying) →
  grants (registry w') = ∅ ∧ authority (registry w') = None.
Proof.
  intros Hl Hw [H0 [Hm [H1 _]%Forall_cons]%Forall_app]%Forall_cons Ht.
  rewrite worker_app. destruct (worker path STANDARD w l) as [wl []] eqn:El; [|done|done].
  cbn [worker]. destruct (worker_turn path STANDARD wl a0) as [w0 []] eqn:E0; [|done|done].
  rewrite worker_app. destruct (worker path STANDARD w0 mid) as [wm []] eqn:Em; [|done|done].
  cbn [worker]. destruct (worker_turn path STANDARD wm a1) as [w1 []] eqn:E1; [|done|done]. intros [= <-].
  pose proof (worker_since path STANDARD l w wl (failed_now a0) El Hl Hw) as Hs.
  apply unreachable_turn in E0 as [E0 _]; [|done].
  pose proof (unreachable_run path STANDARD mid w0 wm _ Hm Em E0) as Es.
  apply unreachable_turn in E1 as [_ E1]; [|done]. rewrite Es in E1. apply E1; [|done]. simpl.
  assert (default (failed_now a0) (unhealthy_since wl) ≤ failed_now a0)%Z.
  { destruct (unhealthy_since wl) as [t|]; simpl; [by apply Hs|lia]. }
  lia.
Qed.

Lemma event_bounded instance epoch rest :
  all_bytes is_ascii_graphic instance = true → (0 <= epoch)%Z →
  (String.length instance + String.length (to_string epoch) <= 47)%nat →
  bounded_line MAX_EPOCH_LINE (authority_event instance epoch +:+ rest) = authority_event instance epoch.
Proof.
  intros Hg He Hl.
  assert (∀ r, authority_event instance epoch +:+ r
    = ("EPOCH " +:+ to_string epoch +:+ " instance=" +:+ instance) +:+ String newline r) as E.
  { intros r. unfold authority_event. by rewrite <-!append_assoc. }
  rewrite E, bounded_line_line.
  - by rewrite <-E, append_nil_r.
  - rewrite !contains_byte_append, (digits_clean newline _ eq_refl (to_string_digits epoch He)).
    by rewrite (all_bytes_not_contains is_ascii_graphic newline instance eq_refl Hg).
  - rewrite !length_append. simpl. unfold MAX_EPOCH_LINE. lia.
Qed.

Lemma event_utf8 instance epoch :
  all_bytes is_ascii_graphic instance = true → (0 <= epoch)%Z →
  from_utf8 (authority_event instance epoch) = Some (authority_event instance epoch).
Proof.
  intros Hg He. apply from_utf8_ascii. unfold authority_event.
  rewrite !all_bytes_append, (digits_ascii _ (to_string_digits epoch He)).
  rewrite (all_bytes_impl is_ascii_graphic is_ascii instance); [done| |done].
  intros c. unfold is_ascii_graphic, is_ascii, in_range. intros Hc. bool_to_prop.
  apply andb_true_iff. split; apply Z.leb_le; lia.
Qed.

(** A lock reaches the browser.  The event the broker publishes passes the
    subscriber's 64-byte read whole, and reading it records exactly the
    broker's instance and epoch with the socket that carried it; if that is
    not the authority on record, every grant ends and its control channel is
    closed, and otherwise nothing changes. *)
Lemma lock_event_ends_grants path g a instance epoch socket rest :
  is_empty instance = false → all_bytes is_ascii_graphic instance = true → (0 <= epoch <= u64_max)%Z →
  (String.length instance + String.length (to_string epoch) <= 47)%nat →
  authority g = Some a →
  let event := bounded_line MAX_EPOCH_LINE (authority_event instance epoch +:+ rest) in
  let seen := {| bi_instance := instance; bi_epoch := epoch; bi_socket := socket |} in
  let '(g', failure) := subscription_loop path g socket [SubBytes event] in
  failure = None ∧ authority g' = Some seen ∧ (seen ≠ a → all_ended g g') ∧ (seen = a → grants g' = grants g).
Proof.
  intros Hi Hg He Hl Ha event seen. subst event. rewrite event_bounded by (done || lia).
  cbn [subscription_loop]. rewrite event_utf8 by (done || lia).
  replace (is_empty (authority_event instance epoch)) with false by done.
  rewrite authority_event_roundtrip by done.
  replace (bool_decide (authority_event instance epoch = SUBSCRIBER_CAPACITY_RESPONSE)) with false.
  2: { symmetry. apply bool_decide_eq_false_2. unfold authority_event. done. }
  fold seen. destruct (decide (a = seen)) as [->|Hne].
  - assert (step g (Observe seen) = set_authority g (Some seen)) as E.
    { cbn [step]. unfold observe_authority. rewrite Ha. cbn [is_some_and]. by rewrite bool_decide_eq_true_2. }
    rewrite call_quiet by (by rewrite E). rewrite E. done.
  - assert (step g (Observe seen) = revoke_all (set_authority g (Some seen))) as E.
    { cbn [step]. unfold observe_authority. rewrite Ha. cbn [is_some_and]. by rewrite bool_decide_eq_false_2. }
    destruct (call_revokes g (Some seen) (Observe seen) E) as [H1 H2]. by split_and!.
Qed.

(** * Instances *)
Definition demo_dial : Dial :=
  {| Transport.connected := Ok (); peer_uid := Some 1000%Z; node := Some {| si_device := 1; si_inode := 2 |} |}.

Definition demo_receipt : string := "00112233445566778899aabbccddeeff00112233445566778899aabbccddeeff".

Definition demo_hello : Reply := Ok (RespFields "version=4 instance=b epoch=1").

Lemma redeem_end_to_end_witness :
  (redeem (λ _, "io") "/run/secretsd.sock" 1000 demo_receipt CAP_BROWSER demo_dial demo_hello demo_dial
    (parse_response (format_response (ROkFields (redeemed_reply CAP_BROWSER "b" 1 600))))).2 =
  Ok {| rg_authority := demo_authority 1; rg_ttl_secs := 600 |}.
Proof.
  destruct (redeem_end_to_end (λ _, "io") "/run/secretsd.sock" 1000 demo_dial demo_dial demo_hello
    "version=4 instance=b epoch=1" {| si_device := 1; si_inode := 2 |} {| si_device := 1; si_inode := 2 |}
    eq_refl eq_refl eq_refl demo_receipt "b" 1 600 Denied "no") as (_ & H & _);
    [by vm_compute|done|done|by vm_compute|by vm_compute|done|].
  exact H.
Defined.

Lemma lock_event_ends_grants_witness :
  grants (subscription_loop "/run/secretsd.sock"
    (BrowserGrants.run [Observe (demo_authority 1); InsertIf (demo_authority 1) demo_grant (Some 3)])
    {| si_device := 1; si_inode := 2 |} [SubBytes (bounded_line MAX_EPOCH_LINE (authority_event "b" 2 +:+ ""))]).1 = ∅.
Proof.
  pose proof (lock_event_ends_grants "/run/secretsd.sock"
    (BrowserGrants.run [Observe (demo_authority 1); InsertIf (demo_authority 1) demo_grant (Some 3)])
    (demo_authority 1) "b" 2 {| si_device := 1; si_inode := 2 |} "" eq_refl eq_refl ltac:(by vm_compute)
    ltac:(by vm_compute; lia) eq_refl) as H. cbv zeta in H.
  destruct (subscription_loop _ _ _ _) as [g' fl] eqn:E. apply H. by vm_compute.
Defined.

(** A broker that goes away for 35 seconds while a grant is live. *)
Definition demo_attempt (before : list op) (now : Z) : Attempt := {|
  others := before; stop_before := false; asked_identity := Err (Connect "/run/secretsd.sock" "io");
  subscribed := Err SubscriptionClosed; events := []; stop_after := false; failed_now := now;
|}.

Definition demo_worker : Worker := {| registry := Grants_new; unhealthy_since := None; in_outage := false |}.

Lemma outage_ends_grants_witness :
  let granted := [Observe (demo_authority 1); InsertIf (demo_authority 1) demo_grant (Some 3)] in
  let first := demo_attempt granted (Time.from_secs 100) in
  let second := demo_attempt [] (Time.from_secs 135) in
  grants (registry (worker "/run/secretsd.sock" STANDARD demo_worker [first]).1) ≠ ∅ ∧
  grants (registry (worker "/run/secretsd.sock" STANDARD demo_worker [first; second]).1) = ∅.
Proof.
  intros granted first second. split; [by vm_compute|].
  destruct (worker "/run/secretsd.sock" STANDARD demo_worker [first; second]) as [w' st] eqn:E.
  assert (st = Retrying) as -> by (vm_compute in E; by injection E as _ <-).
  destruct (outage_ends_grants "/run/secretsd.sock" [] first [] second demo_worker w') as [H _];
    [done|done| |by vm_compute|exact E|exact H].
  repeat constructor; by eexists _, _.
Defined.
