(* ===== verification/Ceremony.v ===== *)
(** The grant ceremony of [forward browser grant], both ends
    ([crates/forward/src/browser/request/], [crates/forward/src/grant.rs]).

    One request on the grant socket is a function of what its calls return:
    the receipt's redemption, the broker's identity at each check, the minted
    token, the laptop's acknowledgement, the clock.  The registry is the one
    of [BrowserGrants], the feed's slot the one of [Feed]; since other threads
    work on the registry meanwhile, it enters as it is when the grant is
    recorded. *)

From stdpp Require Import prelude strings list gmap.
From Stdlib Require Import ZArith Lia Ascii.
From S2P Require Import Prelude Text Wire Request Containment Peers Bridge BrowserGrants Feed Transport.

Import Anchored.

Local Open Scope string_scope.

(** * The request's line *)
Definition MAX_GRANT_LINE : nat := 128.

(** [read_line]: a line that ends with the stream, or fills the buffer, is
    taken as it is. *)
Fixpoint grant_line_loop (deadline : Z) (line : string) (script : list (Z * byte_read)) : option (option string) :=
  if (MAX_GRANT_LINE <=? String.length line)%nat then Some (Some line) else
  match script with
  | [] => None
  | (now, read) :: rest =>
      if (Time.duration_since deadline now =? 0)%Z then Some None else
      match read with
      | Closed => Some (Some line)
      | ReadFailed => Some None
      | Bridge.Interrupted => grant_line_loop deadline line rest
      | Got c => if bool_decide (c = newline) then Some (Some line)
                 else grant_line_loop deadline (line +:+ String c "") rest
      end
  end.

Fixpoint pop_cr (s : string) : string :=
  match s with
  | EmptyString => EmptyString
  | String c s' =>
      match pop_cr s' with
      | EmptyString => if bool_decide (c = carriage_return) then EmptyString else String c EmptyString
      | t => String c t
      end
  end.

Definition read_grant_line (now timeout : Z) (script : list (Z * byte_read)) : option (option string) :=
  match Time.checked_add now timeout with
  | None => Some None
  | Some deadline => (λ o : option string, pop_cr <$> o) <$> grant_line_loop deadline "" script
  end.

Definition LONGEST_TTL_SECS : Z := 12 * 60 * 60.

Definition is_lower_hex (c : ascii) : bool := is_ascii_digit c || in_range 97 102 c.

Definition parse_grant (line : string) : option (Z * string * Z) :=
  text ← from_utf8 line;
  text ← strip_prefix text "GRANT ";
  match split " "%char text with
  | [ttl; receipt; port] =>
      ttl ← parse_unsigned u64_max ttl;
      port ← parse_unsigned u16_max port;
      if (ttl =? 0)%Z || (LONGEST_TTL_SECS <? ttl)%Z || (port =? 0)%Z || negb (slen receipt =? 64)%Z
         || negb (all_bytes is_lower_hex receipt)
      then None else Some (ttl, receipt, port)
  | _ => None
  end.

(** * Answers *)
Definition line (s : string) : string := s +:+ String newline "".

Definition answer_status (g : Grants) (process_start : Z → option Z) (lookup : Z → option Process)
    (caller : option AnchoredPeer) (now later : Z) : string :=
  match caller ≫= live_for_descendant g process_start lookup now with
  | Some (port, gr) =>
      line ("LIVE " +:+ to_string port +:+ " " +:+ to_string (Time.as_secs (Time.duration_since (deadline gr) later)))
  | None => line "NONE"
  end.

Definition answer_probe (anchor : option AnchoredPeer) (upstream : option IpAddr) : string :=
  if negb (is_some anchor) then line "REFUSED ANCHOR"
  else if negb (is_some upstream) then line "REFUSED UPSTREAM"
  else line "OK".

(** * The ceremony *)

(** What the calls of one ceremony return, in the order they are made. *)
Record Calls : Type := {
  label : option string;
  redeemed : result BrokerError RedeemedGrant;
  minted : option string;
  identity1 : result BrokerError BrokerIdentity;
  ack : option string;
  identity2 : result BrokerError BrokerIdentity;
  now : Z;
  clone : option nat;
  reply_written : bool;
}.

Definition authority_is_current (current : result BrokerError BrokerIdentity) (a : BrokerIdentity) : bool :=
  match current with Ok c => bool_decide (c = a) | Err _ => false end.

(** The reply, the slot and registry afterwards, the grant's id if its control
    channel is handed on, and whether the receipt was spent. *)
Record Answer : Type := {
  said : string;
  slot' : FeedSlot;
  grants' : Grants;
  granted : option Z;
  spent : bool;
}.

(** [Instant + Duration] for at most twelve hours. *)
Definition answer (pid : Z) (anchor : option AnchoredPeer) (upstream : option IpAddr)
    (request : Z * string * Z) (slot : FeedSlot) (g : Grants) (c : Calls) : Answer :=
  let '(ttl, receipt, endpoint_port) := request in
  let refuse why slot spent := {| said := line why; slot' := slot; grants' := g; granted := None; spent := spent |} in
  match anchor with
  | None => refuse "REFUSED ANCHOR" slot false
  | Some a =>
  match upstream with
  | None => refuse "REFUSED UPSTREAM" slot false
  | Some _ =>
      let session := default ("pid " +:+ to_string pid) (label c) in
      match redeemed c with
      | Err _ => refuse "REFUSED RECEIPT" slot true
      | Ok r =>
          let ttl := Z.min ttl (rg_ttl_secs r) in
          match minted c with
          | None => refuse "REFUSED" slot true
          | Some tok =>
              if negb (authority_is_current (identity1 c) (rg_authority r)) then refuse "REFUSED" slot true else
              let '(slot, delivered) := push slot (ack c) in
              if negb delivered then refuse "REFUSED LAPTOP" slot true else
              if negb (authority_is_current (identity2 c) (rg_authority r)) then refuse "REFUSED" slot true else
              let dl := (now c + Time.from_secs ttl)%Z in
              let '(g', id) := insert_if_authority g (rg_authority r)
                {| session := session; BrowserGrants.anchor := a; token := tok; deadline := dl;
                   BrowserGrants.endpoint_port := endpoint_port |} (clone c) in
              match id with
              | None => {| said := line "REFUSED"; slot' := slot; grants' := g'; granted := None; spent := true |}
              | Some i =>
                  if reply_written c
                  then {| said := line "OK"; slot' := slot; grants' := g'; granted := Some i; spent := true |}
                  else {| said := ""; slot' := slot; grants' := call g' (Expire i); granted := None; spent := true |}
              end
          end
      end
  end end.

(** [handle] once the line is read: the answer of each request. *)
Inductive Handled : Type :=
| Said (text : string)
| Ceremony (a : Answer).

Definition handle_grant (pid : option Z) (anchor_for : Z → option AnchoredPeer) (upstream : option IpAddr)
    (process_start : Z → option Z) (lookup : Z → option Process)
    (read : option string) (slot : FeedSlot) (g : Grants) (c : Calls) (later : Z) : Handled :=
  match pid with
  | None => Said (line "REFUSED")
  | Some pid =>
      let anchor := anchor_for pid in
      match read with
      | None => Said (line "REFUSED")
      | Some text =>
          if bool_decide (text = "STATUS") then Said (answer_status g process_start lookup anchor (now c) later) else
          if bool_decide (text = "PROBE") then Said (answer_probe anchor upstream) else
          match parse_grant text with
          | None => Said (line "REFUSED")
          | Some request => Ceremony (answer pid anchor upstream request slot g c)
          end
      end
  end.

(** * The client *)
Inductive GrantStatus : Type :=
| StatusUnreachable
| StatusNone
| StatusLive (port remaining_secs : Z).

Inductive RequestFailure : Type := Unreachable | Refused (reason : string).

Inductive ProbeOutcome : Type := ProbeUnreachable | ProbeRefused (reason : string) | Grantable.

Definition grant_line (ttl_secs : Z) (receipt : string) (endpoint_port : Z) : string :=
  line ("GRANT " +:+ to_string ttl_secs +:+ " " +:+ receipt +:+ " " +:+ to_string endpoint_port).

(** [None]: nothing answered in time. *)
Definition probe (reply : option string) : ProbeOutcome :=
  match reply with
  | None => ProbeUnreachable
  | Some r =>
      let r := str_trim_end r in
      if bool_decide (r = "OK") then Grantable else
      match strip_prefix r "REFUSED" with
      | Some reason => ProbeRefused (str_trim reason)
      | None => ProbeUnreachable
      end
  end.

(** The reply as the byte reader returns it, without its line end. *)
Definition request_grant (reply : option string) : result RequestFailure () :=
  match reply with
  | None => Err Unreachable
  | Some r =>
      if bool_decide (r = "OK") then Ok () else
      match from_utf8 r with
      | None => Err Unreachable
      | Some r =>
          match strip_prefix r "REFUSED" with
          | Some reason => Err (Refused (str_trim reason))
          | None => Err Unreachable
          end
      end
  end.

Definition parse_status (reply : string) : GrantStatus :=
  if bool_decide (reply = "NONE") then StatusNone else
  match strip_prefix reply "LIVE " with
  | None => StatusUnreachable
  | Some rest =>
      match ('(port, secs) ← split_once " " rest;
             p ← parse_unsigned u16_max port; s ← parse_unsigned u64_max secs; Some (p, s)) with
      | Some (p, s) => StatusLive p s
      | None => StatusUnreachable
      end
  end.

Definition status (reply : option string) : GrantStatus :=
  match reply with
  | None => StatusUnreachable
  | Some r => parse_status (str_trim_end r)
  end.

(** * [forward browser grant] *)
Inductive GrantOutcome : Type :=
| InvalidTtl
| NoServe
| RefusedFor (reason : string)
| NotAnchored
| NoEndpoint
| NotAuthorized (e : BrokerError)
| Serving (port : Z).

(** The outcome, and whether the broker was asked for a touch. *)
Definition grant_command (ttl : string) (probed : option string) (anchor : option AnchoredPeer)
    (endpoint : option Z) (authorized : result BrokerError string)
    (requested : Z → string → Z → option string) : GrantOutcome * bool :=
  match parse_ttl ttl with
  | None => (InvalidTtl, false)
  | Some ttl_secs =>
      match probe probed with
      | ProbeUnreachable => (NoServe, false)
      | ProbeRefused reason => (RefusedFor reason, false)
      | Grantable =>
          match anchor with
          | None => (NotAnchored, false)
          | Some _ =>
              match endpoint with
              | None => (NoEndpoint, false)
              | Some port =>
                  match authorized with
                  | Err e => (NotAuthorized e, true)
                  | Ok receipt =>
                      match request_grant (requested ttl_secs receipt port) with
                      | Ok () => (Serving port, true)
                      | Err Unreachable => (NoServe, true)
                      | Err (Refused reason) => (RefusedFor reason, true)
                      end
                  end
              end
          end
      end
  end.

(** * What a grant needs *)

(** C5: a grant is recorded only after everything agreed.  When a ceremony ends
    with a grant, the caller was anchored and a laptop is configured, the
    broker redeemed the receipt, the broker still was that same authority both
    before and after the laptop acknowledged the token, and it is the
    authority on record; the grant is new, holds the minted token, and lasts
    as long as was asked or as the broker allows, whichever is less.  Every
    other ending leaves the recorded grants as they were, and without anchor or
    laptop the receipt is not even spent. *)
Theorem grant_needs_agreement pid anchor upstream ttl receipt port slot g c :
  grants g !! next_id g = None →
  let a := answer pid anchor upstream (ttl, receipt, port) slot g c in
  (∀ id, granted a = Some id →
     ∃ who r tok control,
       anchor = Some who ∧ is_some upstream = true ∧ redeemed c = Ok r ∧ minted c = Some tok ∧
       identity1 c = Ok (rg_authority r) ∧ identity2 c = Ok (rg_authority r) ∧
       authority g = Some (rg_authority r) ∧ (push slot (ack c)).2 = true ∧ clone c = Some control ∧
       id = next_id g ∧ said a = line "OK" ∧
       grants (grants' a) = <[id := {| grant := {| session := default ("pid " +:+ to_string pid) (label c);
          BrowserGrants.anchor := who; token := tok;
          deadline := now c + Time.from_secs (Z.min ttl (rg_ttl_secs r));
          BrowserGrants.endpoint_port := port |}; control := control |}]> (grants g)) ∧
  (granted a = None → grants (grants' a) = grants g) ∧
  (spent a = false ↔ anchor = None ∨ upstream = None).
Proof.
  intros Hfresh. unfold answer, authority_is_current.
  destruct anchor as [who|]; [|naive_solver]. destruct upstream as [up|]; [|naive_solver].
  destruct (redeemed c) as [r|] eqn:Er; [|naive_solver]. destruct (minted c) as [tok|]; [|naive_solver].
  destruct (identity1 c) as [i1|]; [|naive_solver]. case_bool; [naive_solver|].
  destruct (push slot (ack c)) as [slot1 ok] eqn:Ep. destruct ok; [|naive_solver].
  destruct (identity2 c) as [i2|]; [|naive_solver]. cbn [negb]. case_bool; [naive_solver|].
  unfold insert_if_authority. destruct (decide (authority g = Some (rg_authority r))) as [Ha|Ha].
  - rewrite bool_decide_eq_true_2 by done. unfold insert. destruct (clone c) as [control|]; [|naive_solver].
    destruct (reply_written c); cbn [granted grants' said spent].
    + split_and!; [|done|naive_solver]. intros id [= <-]. exists who, r, tok, control. subst. done.
    + split_and!; [done| |naive_solver]. intros _. rewrite call_grants. cbn. by rewrite delete_insert_id.
  - rewrite bool_decide_eq_false_2 by done. naive_solver.
Qed.

(** * Lines between the ends *)
Lemma grant_line_loop_delivers deadline script acc text :
  delivers deadline script (text +:+ String newline "") → contains_byte newline text = false →
  (String.length acc + String.length text < MAX_GRANT_LINE)%nat →
  grant_line_loop deadline acc script = Some (Some (acc +:+ text)).
Proof.
  remember (text +:+ String newline "") as s eqn:Es. intros H. revert acc text Es.
  induction H as [rest|t rest s Ht H IH|t c rest s Ht H IH]; intros acc text Es Hl Hlen.
  - by destruct text.
  - cbn [grant_line_loop]. destruct (Nat.leb_spec MAX_GRANT_LINE (String.length acc)); [lia|].
    unfold Time.duration_since. destruct (Z.eqb_spec (Z.max (deadline - t) 0) 0); [lia|]. by apply IH.
  - cbn [grant_line_loop]. destruct (Nat.leb_spec MAX_GRANT_LINE (String.length acc)); [lia|].
    unfold Time.duration_since. destruct (Z.eqb_spec (Z.max (deadline - t) 0) 0); [lia|].
    destruct text as [|x text].
    + change ("" +:+ String newline "") with (String newline "") in Es. injection Es as -> ->.
      rewrite bool_decide_eq_true_2 by done. by rewrite append_nil_r.
    + rewrite append_cons in Es. injection Es as -> ->.
      apply contains_byte_false in Hl. simpl in Hl. apply andb_true_iff in Hl as [Hx Hl].
      apply negb_true_iff in Hx. rewrite Hx. simpl in Hlen. rewrite (IH _ text); [|done|by apply contains_byte_false|].
      * by rewrite <-append_assoc, append_cons.
      * rewrite length_append. simpl. lia.
Qed.

Lemma pop_cr_keep s c : last_byte s = Some c → c ≠ carriage_return → pop_cr s = s.
Proof.
  intros Hl Hr. induction s as [|d s IH]; [done|]. cbn [pop_cr]. destruct s as [|e s].
  - injection Hl as ->. simpl. by rewrite bool_decide_eq_false_2.
  - by rewrite IH.
Qed.

Lemma lower_hex_receipt receipt : valid_hex_bytes receipt 64 = true →
  slen receipt = 64%Z ∧ all_bytes is_lower_hex receipt = true ∧ all_bytes is_ascii receipt = true ∧
  contains_byte " "%char receipt = false ∧ contains_byte newline receipt = false.
Proof.
  intros H. pose proof (valid_hex_text _ _ H) as (Hl & Ha & _). unfold valid_hex_bytes in H.
  apply andb_true_iff in H as [_ Hh]. split_and!; [done|done|done|..]; by eapply all_bytes_not_contains, Hh.
Qed.

(** What the daemon makes of a grant line, for any lifetime of a [u64]. *)
Lemma parse_grant_line ttl receipt port :
  (1 <= ttl <= u64_max)%Z → valid_hex_bytes receipt 64 = true → (1 <= port <= u16_max)%Z →
  parse_grant ("GRANT " +:+ to_string ttl +:+ " " +:+ receipt +:+ " " +:+ to_string port) =
  if (ttl <=? LONGEST_TTL_SECS)%Z then Some (ttl, receipt, port) else None.
Proof.
  intros Ht Hr Hp. pose proof (lower_hex_receipt _ Hr) as (Hl & Hx & Ha & Hs & _).
  pose proof (to_string_digits ttl ltac:(lia)) as Dt. pose proof (to_string_digits port ltac:(lia)) as Dp.
  unfold parse_grant. rewrite from_utf8_ascii.
  2: { by rewrite !all_bytes_append, (digits_ascii _ Dt), (digits_ascii _ Dp), Ha. }
  cbn [mbind option_bind]. rewrite strip_prefix_append. cbn [mbind option_bind].
  change (to_string ttl +:+ " " +:+ receipt +:+ " " +:+ to_string port) with
    (to_string ttl +:+ String " "%char (receipt +:+ String " "%char (to_string port))).
  rewrite !split_append, split_clean; [|by apply digits_clean|done|by apply digits_clean].
  rewrite (parse_unsigned_to_string u64_max ttl), (parse_unsigned_to_string u16_max port);
    [|unfold u16_max, u64_max in *; lia..]. cbn [mbind option_bind]. rewrite Hl, Hx. destruct (Z.eqb_spec ttl 0), (Z.eqb_spec port 0); [lia..|]. cbn [orb negb Z.eqb].
  destruct (Z.ltb_spec LONGEST_TTL_SECS ttl), (Z.leb_spec ttl LONGEST_TTL_SECS); done || lia.
Qed.

Lemma read_grant_line_delivers now timeout script ttl receipt port :
  (now + timeout <= Time.instant_max)%Z → (1 <= ttl <= u64_max)%Z → valid_hex_bytes receipt 64 = true →
  (1 <= port <= u16_max)%Z → delivers (now + timeout) script (grant_line ttl receipt port) →
  read_grant_line now timeout script =
  Some (Some ("GRANT " +:+ to_string ttl +:+ " " +:+ receipt +:+ " " +:+ to_string port)).
Proof.
  intros Hn Ht Hr Hp Hd. pose proof (lower_hex_receipt _ Hr) as (Hl & _ & _ & _ & Hnl).
  pose proof (to_string_digits ttl ltac:(lia)) as Dt. pose proof (to_string_digits port ltac:(lia)) as Dp.
  unfold read_grant_line, Time.checked_add. destruct (Z.leb_spec (now + timeout) Time.instant_max); [|lia].
  unfold grant_line, line in Hd. rewrite (grant_line_loop_delivers _ _ "" _ Hd).
  - destruct (digits_last _ (to_string_not_empty port) Dp) as (c & Hc & Hcd).
    change ("" +:+ ?x) with x. cbn [fmap option_fmap option_map]. rewrite (pop_cr_keep _ c); [done| |by intros ->].
    rewrite !append_assoc, last_byte_app_r; [done|]. by intros E; rewrite E in Hc.
  - rewrite !contains_byte_append, Hnl, (digits_clean newline _ eq_refl Dt), (digits_clean newline _ eq_refl Dp). done.
  - rewrite !length_append. simpl. pose proof (to_string_length ttl). pose proof (to_string_length port).
    unfold slen in Hl. unfold MAX_GRANT_LINE. lia.
Qed.

(** A grant request arrives as it was made.  The line the command writes
    for a receipt, a port and a lifetime of up to twelve hours, however it is
    delivered before the deadline, is read by the daemon as exactly those
    three. *)
Lemma grant_request_roundtrip now timeout script ttl receipt port :
  (now + timeout <= Time.instant_max)%Z → (1 <= ttl <= LONGEST_TTL_SECS)%Z →
  valid_hex_bytes receipt 64 = true → (1 <= port <= u16_max)%Z →
  delivers (now + timeout) script (grant_line ttl receipt port) →
  ∃ text, read_grant_line now timeout script = Some (Some text) ∧ parse_grant text = Some (ttl, receipt, port).
Proof.
  intros Hn Ht Hr Hp Hd. assert (ttl <= u64_max)%Z by (unfold LONGEST_TTL_SECS, u64_max in *; lia).
  eexists. split; [apply (read_grant_line_delivers now timeout script ttl receipt port); done || lia|].
  rewrite parse_grant_line by (done || lia).
  by destruct (Z.leb_spec ttl LONGEST_TTL_SECS); [|lia].
Qed.

Lemma str_trim_end_line s : tight s = true → str_trim_end (line s) = s.
Proof.
  intros Ht. unfold str_trim_end, line. rewrite length_append. simpl. rewrite Nat.add_1_r. cbn [trim_loop].
  rewrite tight_append_newline by done. by apply trim_loop_stop, strip_space_end_tight.
Qed.

(** The probe predicts the ceremony.  The probe asks for a touch exactly
    when neither the anchor nor the laptop would refuse; when it refuses, the
    ceremony for the same caller refuses with the same words, does not spend
    the receipt and changes nothing; and when the probe passes, the ceremony
    never refuses with those words. *)
Lemma probe_predicts_ceremony pid anchor upstream request slot g c :
  let a := answer pid anchor upstream request slot g c in
  match probe (Some (answer_probe anchor upstream)) with
  | Grantable => spent a = true ∧ said a ≠ line "REFUSED ANCHOR" ∧ said a ≠ line "REFUSED UPSTREAM"
  | ProbeRefused reason =>
      said a = line ("REFUSED " +:+ reason) ∧ spent a = false ∧ grants' a = g ∧ slot' a = slot
  | ProbeUnreachable => False
  end.
Proof.
  destruct request as [[ttl receipt] port]. unfold answer_probe, probe.
  destruct anchor as [who|]; [|by vm_compute]. destruct upstream as [up|]; [|by vm_compute].
  cbn [is_some is_some_and negb]. rewrite str_trim_end_line by done. rewrite bool_decide_eq_true_2 by done.
  unfold answer. repeat case_match; simpl; done.
Qed.

(** The status a session reads is the registry's.  What the daemon answers
    to STATUS is understood by the command as the port and whole seconds left
    of the grant the caller descends from, or as none; never as unreachable. *)
Lemma status_roundtrip g process_start lookup caller now later :
  (∀ id e, grants g !! id = Some e →
     (0 <= BrowserGrants.endpoint_port (grant e) <= u16_max)%Z ∧ (deadline (grant e) - later <= Time.from_secs u64_max)%Z) →
  status (Some (answer_status g process_start lookup caller now later)) =
  match caller ≫= live_for_descendant g process_start lookup now with
  | Some (port, gr) => StatusLive port (Time.as_secs (Time.duration_since (deadline gr) later))
  | None => StatusNone
  end.
Proof.
  intros Hg. unfold answer_status, status.
  destruct (caller ≫= live_for_descendant g process_start lookup now) as [[port gr]|] eqn:E; [|by vm_compute].
  apply bind_Some in E as (who & -> & E).
  destruct (proj2 (proj2 (proj2 (proj2 (registry_reads_live g now 0 process_start lookup who)))) port gr E)
    as (_ & _ & -> & _ & id & ctl & Hid).
  destruct (Hg _ _ Hid) as [Hp Hd]. simpl in Hp, Hd.
  set (secs := Time.as_secs (Time.duration_since (deadline gr) later)).
  assert (0 <= secs <= u64_max)%Z as Hs.
  { subst secs. unfold Time.as_secs, Time.duration_since, Time.from_secs in *.
    split; [apply Z.div_pos; [lia|done]|]. apply Z.div_le_upper_bound; [done|].
    rewrite Z.mul_comm. apply Z.max_lub; [done|]. assert (0 < Time.nanos_per_sec)%Z by done. unfold u64_max. lia. }
  pose proof (to_string_digits (BrowserGrants.endpoint_port gr) ltac:(lia)) as Dp.
  pose proof (to_string_digits secs ltac:(lia)) as Ds.
  rewrite str_trim_end_line.
  2: { rewrite !append_assoc. apply (tight_append "L"); [done|]. apply tight_to_string. lia. }
  unfold parse_status. rewrite bool_decide_eq_false_2 by done. rewrite strip_prefix_append.
  change (to_string (BrowserGrants.endpoint_port gr) +:+ " " +:+ to_string secs) with
    (to_string (BrowserGrants.endpoint_port gr) +:+ String " "%char (to_string secs)).
  change " " with (String " "%char "") at 1. rewrite split_once_char by (by apply digits_clean). cbn [mbind option_bind].
  rewrite (parse_unsigned_to_string u16_max), (parse_unsigned_to_string u64_max);
    [done|unfold u16_max, u64_max in *; lia..].
Qed.

(** The daemon's reply line to a grant request, as the client reads it. *)
Definition ask_daemon (pid : Z) (anchor_for : Z → option AnchoredPeer) (upstream : option IpAddr)
    (process_start : Z → option Z) (lookup : Z → option Process) (slot : FeedSlot) (g : Grants) (c : Calls) (later : Z)
    (ttl : Z) (receipt : string) (port : Z) : option string :=
  let text := "GRANT " +:+ to_string ttl +:+ " " +:+ receipt +:+ " " +:+ to_string port in
  match handle_grant (Some pid) anchor_for upstream process_start lookup (Some text) slot g c later with
  | Said s => strip_suffix s (String newline "")
  | Ceremony a => strip_suffix (said a) (String newline "")
  end.

(** A lifetime over twelve hours costs a touch for nothing.  The command
    accepts it, the daemon's probe passes and the broker is asked for a touch;
    then the daemon cannot parse the request and refuses it, whatever its
    state, without a reason word. *)
Lemma long_ttl_wastes_touch ttl ttl_secs receipt port pid anchor_for who up process_start lookup slot g c later :
  parse_ttl ttl = Some ttl_secs → (LONGEST_TTL_SECS < ttl_secs <= u64_max)%Z →
  valid_hex_bytes receipt 64 = true → (1 <= port <= u16_max)%Z → anchor_for pid = Some who →
  grant_command ttl (Some (answer_probe (anchor_for pid) (Some up))) (anchor_for pid) (Some port) (Ok receipt)
    (ask_daemon pid anchor_for (Some up) process_start lookup slot g c later) = (RefusedFor "", true).
Proof.
  intros Hp Ht Hr Hport Ha. unfold grant_command. rewrite Hp, Ha.
  change (probe (Some (answer_probe (Some who) (Some up)))) with Grantable. cbn iota.
  assert (ask_daemon pid anchor_for (Some up) process_start lookup slot g c later ttl_secs receipt port
    = Some "REFUSED") as ->; [|by vm_compute].
  unfold ask_daemon, handle_grant. rewrite !bool_decide_eq_false_2 by done.
  rewrite parse_grant_line by (done || unfold LONGEST_TTL_SECS in *; lia).
  by destruct (Z.leb_spec ttl_secs LONGEST_TTL_SECS); [lia|].
Qed.

(** * Instances *)
Definition demo_anchor : AnchoredPeer := {| ap_pid := 10; ap_start := 5 |}.

Definition demo_registry : Grants := BrowserGrants.run [Observe (demo_authority 1)].

Definition demo_calls : Calls := {|
  label := None; redeemed := Ok {| rg_authority := demo_authority 1; rg_ttl_secs := 600 |};
  minted := Some "dG9rZW4"; identity1 := Ok (demo_authority 1); ack := Some (line "OK");
  identity2 := Ok (demo_authority 1); now := 0; clone := Some 3; reply_written := true;
|}.

Definition demo_slot : FeedSlot := {| attached := Some 1; shut := [] |}.

Definition demo_answer : Answer :=
  answer 10 (Some demo_anchor) (Some (Peers.V4 100 64 0 2)) (3600, demo_receipt, 9000)%Z demo_slot demo_registry demo_calls.

Lemma grant_needs_agreement_witness :
  granted demo_answer = Some 0%Z ∧
  ∃ r, redeemed demo_calls = Ok r ∧ authority demo_registry = Some (rg_authority r).
Proof.
  split; [by vm_compute|].
  destruct (grant_needs_agreement 10 (Some demo_anchor) (Some (Peers.V4 100 64 0 2)) 3600 demo_receipt 9000 demo_slot
    demo_registry demo_calls) as [H _]; [by vm_compute|].
  destruct (H 0%Z) as (who & r & tok & ctl & _ & _ & Hr & _ & _ & _ & Ha & _); [by vm_compute|]. by exists r.
Defined.

Lemma grant_request_roundtrip_witness :
  ∃ text, read_grant_line 0 (Time.from_secs 5) (script_of 1 (grant_line 1800 demo_receipt 9000)) = Some (Some text) ∧
    parse_grant text = Some (1800%Z, demo_receipt, 9000%Z).
Proof.
  apply (grant_request_roundtrip 0 (Time.from_secs 5) (script_of 1 (grant_line 1800 demo_receipt 9000)));
    [by vm_compute..|].
  vm_compute. repeat (constructor; [done|]). constructor.
Defined.

Lemma status_roundtrip_witness :
  status (Some (answer_status (grants' demo_answer) (λ _, Some 5%Z) (λ _, None) None 0 0)) = StatusNone.
Proof.
  apply (status_roundtrip (grants' demo_answer) (λ _, Some 5%Z) (λ _, None) None 0 0).
  intros id e H. assert (grants (grants' demo_answer) = {[0%Z := {| grant := {| session := "pid 10"; BrowserGrants.anchor := demo_anchor;
    token := "dG9rZW4"; deadline := Time.from_secs 600; BrowserGrants.endpoint_port := 9000 |}; control := 3 |}]}) as E by (by vm_compute).
  rewrite E in H. apply lookup_singleton_Some in H as [_ <-]. by vm_compute.
Defined.

Lemma long_ttl_wastes_touch_witness :
  grant_command "13h" (Some (answer_probe (Some demo_anchor) (Some (Peers.V4 100 64 0 2)))) (Some demo_anchor) (Some 9000%Z)
    (Ok demo_receipt)
    (ask_daemon 10 (λ _, Some demo_anchor) (Some (Peers.V4 100 64 0 2)) (λ _, None) (λ _, None) demo_slot demo_registry
      demo_calls 0) = (RefusedFor "", true).
Proof.
  apply (long_ttl_wastes_touch "13h" (13 * 3600) demo_receipt 9000 10 (λ _, Some demo_anchor) demo_anchor); by vm_compute.
Defined.
