(* ===== verification/EndToEnd.v ===== *)
(** A browser grant from the touch to the last byte: the broker of [System],
    its subscribers and the registry of [forward serve] as one system.

    The broker runs on; [forward serve] redeems receipts with it for one
    ceremony at a time, follows its authority over a subscription whose bytes
    are on their way until they are read, and loses the connection when either
    side fails or the broker restarts.  Every call crosses the wire as the text
    the broker prints and the client parses ([Request], [Wire], [Server],
    [Transport]). *)

From stdpp Require Import prelude strings list gmap.
From Stdlib Require Import ZArith Lia Ascii.
From S2P Require Import Prelude Text Wire Request Secret Containment Store Grants Requests Receipts Broker System Server.
From S2P Require Import Ledger Peers Bridge BrowserGrants Feed Transport Ceremony.

Local Open Scope string_scope.

(** * The broker's identity *)

(** [random_instance_id]: sixteen bytes of the random device in lower-case
    hexadecimal; [None] is the read error. *)
Definition random_instance_id (urandom : option string) : option string :=
  bytes ← urandom;
  if (String.length bytes <? 16)%nat then None else Some (encode (prefix_of 16 bytes)).

Definition instance_ok (i : string) : Prop := String.length i = 32 ∧ all_bytes token_text i = true.

Lemma prefix_of_length n s : (n ≤ String.length s)%nat → String.length (prefix_of n s) = n.
Proof. revert s. induction n as [|n IH]; intros [|c s] H; simpl in *; [done..|lia|]. rewrite IH; lia. Qed.

Lemma random_instance_ok urandom i : random_instance_id urandom = Some i → instance_ok i.
Proof.
  unfold random_instance_id. destruct urandom as [bytes|]; [|done]. cbn [mbind option_bind].
  destruct (Nat.ltb_spec (String.length bytes) 16) as [|H]; [done|].
  intros <-%(inj Some). split.
  - pose proof (encode_length (prefix_of 16 bytes)) as He. unfold slen in He. rewrite prefix_of_length in He by lia. lia.
  - eapply all_bytes_impl; [|apply encode_hexdigits]. intros c. unfold token_text, is_ascii_hexdigit, is_ascii_digit,
      is_ascii_graphic, in_range. intros Hc. apply andb_true_iff. split; [lia|]. apply negb_true_iff, bool_decide_eq_false_2.
    intros ->. by vm_compute in Hc.
Qed.

Lemma instance_ok_graphic i : instance_ok i →
  is_empty i = false ∧ i ≠ "" ∧ contains_byte " "%char i = false ∧ all_bytes is_ascii_graphic i = true.
Proof. intros [Hl [Hs Hg]%token_text_spec]. by destruct i. Qed.

Lemma dec_digits_bound k fuel n acc :
  (0 ≤ n < 10 ^ Z.of_nat (S k))%Z → (String.length (dec_digits fuel n acc) ≤ S k + String.length acc)%nat.
Proof.
  revert fuel n acc. induction k as [|k IH]; intros [|fuel] n acc Hn; cbn [dec_digits]; try lia.
  - rewrite Z.div_small by lia. simpl. lia.
  - destruct (_ =? 0)%Z; [simpl; lia|]. etrans; [apply IH|simpl; lia].
    rewrite Nat2Z.inj_succ, Z.pow_succ_r in Hn by lia. split; [apply Z.div_pos; lia|]. apply Z.div_lt_upper_bound; lia.
Qed.

Definition epoch_ok (e : Z) : Prop := (0 ≤ e < 10 ^ 15)%Z.

Lemma epoch_u64 e : epoch_ok e → (0 ≤ e ≤ u64_max)%Z.
Proof. unfold epoch_ok, u64_max. lia. Qed.

Lemma epoch_length e : epoch_ok e → (String.length (to_string e) ≤ 15)%nat.
Proof. intros H. etrans; [apply (dec_digits_bound 14); exact H|]. simpl. lia. Qed.

(** * Calls across the wire *)
Section calls.
Context {P : Type} (show : ErrorKind → string) (path : string) (euid : Z).
Implicit Types (st : State (P:=P)) (b : Sys (P:=P)).

(** A frame that reaches the broker is parsed, served in its section and
    answered; the client parses what was written back.  A request that waits
    for an approval is not answered in this section. *)
Definition serve_frame (w : World (P:=P)) (b : Sys) (caller : P) (frame : string) : Sys * Reply :=
  match frame_request frame with
  | None => (b, parse_response (Server.reply (OFailed BadRequest "invalid request frame")))
  | Some r =>
      (System.step b (ARequest w caller r),
       match (dispatch_now w (s_state b) caller r).2 with
       | Some d => parse_response (Server.reply (d_outcome d))
       | None => Err ApprovalTimeout
       end)
  end.

(** [broker_identity] as asked of the running broker; [answered] is whether the
    reply came back. *)
Definition ask_identity (w : World (P:=P)) (b : Sys) (caller : P) (d : Dial) (answered : bool) (lost : ErrorKind) :
    result BrokerError BrokerIdentity :=
  broker_identity show path euid d
    (if answered then (serve_frame w b caller (line hello_request)).2 else Err (Io lost)).

(** [redeem] as asked of the running broker.  The frame reaches it when the
    arguments pass, both connections stand and the handshake succeeded; then
    [answered] is whether the reply came back. *)
Definition redeem_reaches (d1 d2 : Dial) (hello : Reply) : bool :=
  match connect_verified path euid d1, hello_check hello, connect_verified path euid d2 with
  | Ok _, Ok _, Ok _ => true
  | _, _, _ => false
  end.

Definition ask_redeem (w : World (P:=P)) (b : Sys) (caller : P) (receipt : string) (d1 d2 : Dial) (hello : Reply)
    (answered : bool) (lost : ErrorKind) : Sys * result BrokerError RedeemedGrant :=
  let call reply := redeem show path euid receipt CAP_BROWSER d1 hello d2 reply in
  match (call (Err (Io lost))).1 with
  | Some frame =>
      if redeem_reaches d1 d2 hello then
        let '(b', reply) := serve_frame w b caller (line frame) in
        (b', (call (if answered then reply else Err (Io lost))).2)
      else (b, (call (Err (Io lost))).2)
  | None => (b, (call (Err (Io lost))).2)
  end.

(** The broker's answers as the client reads them. *)
Lemma answered_fields fields :
  all_bytes line_text fields = true → starts_with fields "len=" = false →
  parse_response (Server.reply (OFields fields)) = Ok (RespFields fields).
Proof.
  intros. unfold Server.reply. rewrite <-(append_nil_r (format_response _)). apply response_answers. by constructor.
Qed.

Lemma answered_failure code message :
  all_bytes message_text message = true → parse_response (Server.reply (OFailed code message)) = Err (Broker code).
Proof.
  intros. unfold Server.reply. rewrite <-(append_nil_r (format_response _)). apply response_answers. by constructor.
Qed.

Definition hello_fields st : string :=
  "version=" +:+ to_string PROTOCOL_VERSION +:+ " instance=" +:+ st_instance st +:+ " epoch=" +:+ to_string (st_lock_epoch st).

Lemma hello_fields_split st :
  instance_ok (st_instance st) → epoch_ok (st_lock_epoch st) →
  split " "%char (hello_fields st) =
  part <$> [("version", to_string PROTOCOL_VERSION); ("instance", st_instance st); ("epoch", to_string (st_lock_epoch st))].
Proof.
  intros (_ & _ & Hi & _)%instance_ok_graphic [He _].
  pose proof (digits_no_space _ (to_string_digits (st_lock_epoch st) He)).
  replace (hello_fields st) with (("version=" +:+ to_string PROTOCOL_VERSION) +:+ String " "%char
    (("instance=" +:+ st_instance st) +:+ String " "%char ("epoch=" +:+ to_string (st_lock_epoch st))))
    by (unfold hello_fields; by rewrite <-!append_assoc).
  rewrite !split_append by (done || by apply contains_space_cons).
  by rewrite split_clean by by apply contains_space_cons.
Qed.

Lemma required_part name v value rest k :
  contains_byte "="%char k = false →
  required_field name value (part (k, v) :: rest) =
  if bool_decide (k = name) then
    if is_empty v || is_some value then Err InvalidResponse else required_field name (Some v) rest
  else required_field name value rest.
Proof. intros Hk. cbn [required_field]. by rewrite split_part. Qed.

Lemma graphic_valid_field i : is_empty i = false → all_bytes is_ascii_graphic i = true → valid_field i = true.
Proof.
  intros Hne Hg. unfold valid_field, any_byte. rewrite negb_involutive, Hne. simpl. apply andb_true_iff.
  split; revert Hg; apply all_bytes_impl; intros c; unfold is_ascii_graphic, is_ascii_control, is_ascii, in_range; lia.
Qed.

Lemma hello_identity st d socket :
  instance_ok (st_instance st) → epoch_ok (st_lock_epoch st) → connect_verified path euid d = Ok socket →
  broker_identity show path euid d (Ok (RespFields (hello_fields st))) =
  Ok {| bi_instance := st_instance st; bi_epoch := st_lock_epoch st; bi_socket := socket |}.
Proof.
  intros Hi He Hd. pose proof (instance_ok_graphic _ Hi) as (Hne & _ & Hsp & Hg).
  assert (hello_check (Ok (RespFields (hello_fields st))) = Ok (hello_fields st)) as Hh.
  { unfold hello_check. cbn [mbind result_bind]. by rewrite (hello_fields_split st Hi He). }
  unfold broker_identity. rewrite Hd. cbn [mbind result_bind]. rewrite Hh. cbn [mbind result_bind].
  unfold hello_required. rewrite (hello_fields_split st Hi He), !fmap_cons.
  rewrite !required_part by done.
  repeat match goal with |- context [bool_decide (?a = ?b)] =>
    let v := eval vm_compute in (bool_decide (a = b)) in change (bool_decide (a = b)) with v end.
  rewrite Hne, to_string_not_empty. cbn [orb is_some is_some_and required_field fmap list_fmap ok_or mbind result_bind].
  rewrite graphic_valid_field by done. cbn [negb].
  by rewrite parse_unsigned_to_string by (pose proof (epoch_u64 _ He); lia).
Qed.

Lemma redeem_outcome st hex cap now :
  let o := d_outcome (Broker.redeem st hex cap now).2 in
  (∃ fields, o = OFields fields) ∨ (∃ code message, o = OFailed code message ∧ all_bytes message_text message = true).
Proof.
  unfold Broker.redeem. repeat (case_match; simplify_eq/=); try (left; by eexists); right; eexists _, _; by split.
Qed.

Lemma hello_fields_line st :
  instance_ok (st_instance st) → epoch_ok (st_lock_epoch st) → all_bytes line_text (hello_fields st) = true.
Proof.
  intros [_ Hi] [He _]. unfold hello_fields. by rewrite !all_bytes_append, (token_line_text _ Hi), !digits_line_text by (done || lia).
Qed.

Lemma hello_frame : frame_request (line hello_request) = Some (Hello PROTOCOL_VERSION).
Proof. by vm_compute. Qed.

(** What HELLO brings back is the broker as it is. *)
Lemma ask_identity_current w b caller d answered lost i :
  instance_ok (st_instance (s_state b)) → epoch_ok (st_lock_epoch (s_state b)) →
  ask_identity w b caller d answered lost = Ok i →
  bi_instance i = st_instance (s_state b) ∧ bi_epoch i = st_lock_epoch (s_state b).
Proof.
  intros Hi He. unfold ask_identity.
  destruct (connect_verified path euid d) as [socket|e] eqn:Hd.
  2: { unfold broker_identity. by rewrite Hd. }
  destruct answered; [|unfold broker_identity; by rewrite Hd].
  unfold serve_frame. rewrite hello_frame. cbn [dispatch_now snd].
  change (d_outcome (hello (s_state b) PROTOCOL_VERSION)) with (OFields (hello_fields (s_state b))).
  rewrite answered_fields by (done || by apply hello_fields_line).
  rewrite (hello_identity _ _ socket) by done. by intros [= <-].
Qed.

Lemma redeem_frame_request receipt :
  valid_hex_bytes receipt 64 = true →
  frame_request (line (redeem_frame receipt CAP_BROWSER)) = Some (Redeem receipt CAP_BROWSER).
Proof.
  intros H. unfold line. rewrite frame_request_line, parse_redeem_frame by done.
  destruct (Z.leb_spec (slen (redeem_frame receipt CAP_BROWSER)) MAX_FRAME_BYTES) as [|Hl]; [done|].
  apply valid_hex_text in H as [Hs _]. unfold redeem_frame in Hl. rewrite !slen_append, Hs in Hl. by vm_compute in Hl.
Qed.

(** What a redemption brings back is the broker as it is, and a receipt less. *)
Lemma ask_redeem_current w b caller receipt d1 d2 hello answered lost b' res :
  instance_ok (st_instance (s_state b)) → epoch_ok (st_lock_epoch (s_state b)) →
  receipts_wf (st_receipts (s_state b)) →
  ask_redeem w b caller receipt d1 d2 hello answered lost = (b', res) →
  (b' = b ∧ (∃ e, res = Err e)) ∨
  (∃ a, is_lock a = false ∧ b' = System.step b a ∧ s_history b' = s_history b ∧
   ∀ r, res = Ok r →
     bi_instance (rg_authority r) = st_instance (s_state b) ∧ bi_epoch (rg_authority r) = st_lock_epoch (s_state b) ∧
     (held CAP_BROWSER (s_state b') < held CAP_BROWSER (s_state b))%nat).
Proof.
  intros Hi He Hw. unfold ask_redeem, redeem_reaches.
  destruct (valid_hex_bytes receipt 64) eqn:Hr.
  2: { unfold redeem. rewrite Hr. cbn [negb fst snd]. intros [= <- <-]. left. eauto. }
  unfold redeem. rewrite Hr. change (valid_field CAP_BROWSER) with true. cbn [negb fst snd].
  destruct (connect_verified path euid d1) as [s1|e1] eqn:E1.
  2: { intros [= <- <-]. left. split; [done|]. unfold call_with_socket. rewrite E1. simpl. eauto. }
  destruct (hello_check hello) as [f|e2] eqn:E2.
  2: { intros [= <- <-]. left. split; [done|]. unfold call_with_socket. rewrite E1. simpl. rewrite E2. simpl. eauto. }
  destruct (connect_verified path euid d2) as [socket|e3] eqn:E3.
  2: { intros [= <- <-]. left. split; [done|]. unfold call_with_socket. rewrite E1. simpl. rewrite E2. simpl. rewrite E3.
       simpl. eauto. }
  unfold serve_frame. rewrite redeem_frame_request by done. intros [= <- <-]. right.
  exists (ARequest w caller (Redeem receipt CAP_BROWSER)). split_and!; [done|done| |].
  { simpl. by destruct (Broker.redeem _ _ _ _). }
  intros r. rewrite (call_reaches show path euid d1 d2 hello f s1 socket E1 E2 E3). destruct answered; [|done].
  destruct (redeem_held CAP_BROWSER (s_state b) receipt CAP_BROWSER (w_clock w 0) Hw) as (_ & _ & Hp).
  pose proof (redeem_outcome (s_state b) receipt CAP_BROWSER (w_clock w 0)) as Ho. simpl.
  destruct (Broker.redeem _ _ _ _) as [st' d]. cbn [fst snd] in *. destruct Ho as [[fields Ho]|(code & message & Ho & Hm)].
  - destruct (Hp fields eq_refl Ho) as (Hlt & ttl & Httl & ->). rewrite Ho.
    pose proof (proj2 Hi) as Hti. pose proof (epoch_u64 _ He). rewrite answered_fields.
    2: { unfold redeemed_reply. by rewrite !all_bytes_append, (token_line_text _ Hti), !digits_line_text by lia. }
    2: done.
    cbn [mbind result_bind]. rewrite redeemed_reply_reads; try done; [|by apply instance_ok_graphic in Hi as (_ & ? & _)].
    destruct (ok_or _ _) as [t|]; [|done]. cbn [mbind result_bind]. by intros [= <-].
  - rewrite Ho, answered_failure by done. done.
Qed.
End calls.

(** * The bytes of a subscription *)

(** The bytes left after the first [n]. *)
Fixpoint skip (n : nat) (s : string) : string :=
  match n, s with
  | S n', String _ s' => skip n' s'
  | _, _ => s
  end.

(** What a write that fell short of [text] left on the wire. *)
Definition partial (cut : nat) (text : string) : string := prefix_of (Nat.min cut (String.length text - 1)) text.

Fixpoint events_text (evs : list (string * Z)) : string :=
  match evs with [] => "" | e :: evs => authority_event e.1 e.2 +:+ events_text evs end.

Definition event_ok (e : string * Z) : Prop := instance_ok e.1 ∧ epoch_ok e.2.

Definition seen (socket : SocketIdentity) (e : string * Z) : BrokerIdentity :=
  {| bi_instance := e.1; bi_epoch := e.2; bi_socket := socket |}.

(** What may follow the whole events: a line cut short, or the refusal. *)
Definition tail_ok (t : string) : Prop := contains_byte newline t = false ∨ t = SUBSCRIBER_CAPACITY_RESPONSE.

Lemma skip_append a b : skip (String.length a) (a +:+ b) = b.
Proof. induction a as [|c a IH]; [done|]. rewrite append_cons. exact IH. Qed.

Lemma events_text_snoc evs e : events_text (evs ++ [e]) = events_text evs +:+ authority_event e.1 e.2.
Proof.
  induction evs as [|x evs IH]; simpl; [by rewrite append_nil_r|]. by rewrite IH, append_assoc.
Qed.

Lemma partial_clean cut body :
  contains_byte newline body = false → contains_byte newline (partial cut (body +:+ String newline "")) = false.
Proof.
  intros H. unfold partial. rewrite length_append. simpl.
  assert (∀ n, (n ≤ String.length body)%nat → contains_byte newline (prefix_of n (body +:+ String newline "")) = false) as Hp.
  { revert H. rewrite contains_byte_false. induction body as [|c body IH]; intros Hb n Hn; [by destruct n; [|simpl in Hn; lia]|].
    destruct n as [|n]; [done|]. cbn [all_bytes] in Hb. apply andb_true_iff in Hb as [Hc Hb]. simpl in Hn.
    specialize (IH Hb n ltac:(lia)). rewrite append_cons. cbn [prefix_of]. rewrite contains_byte_false in *.
    cbn [all_bytes]. by rewrite Hc. }
  apply Hp. lia.
Qed.

Lemma event_body e : event_ok e → ∃ body,
  authority_event e.1 e.2 = body +:+ String newline "" ∧ contains_byte newline body = false.
Proof.
  intros [(_ & _ & _ & Hg)%instance_ok_graphic [He _]]. exists ("EPOCH " +:+ to_string e.2 +:+ " instance=" +:+ e.1).
  split; [unfold authority_event; by rewrite <-!append_assoc|].
  rewrite !contains_byte_append, (digits_clean newline _ eq_refl (to_string_digits _ He)).
  by rewrite (all_bytes_not_contains is_ascii_graphic newline _ eq_refl Hg).
Qed.

Lemma read_event path g socket e rest :
  event_ok e →
  bounded_line MAX_EPOCH_LINE (authority_event e.1 e.2 +:+ rest) = authority_event e.1 e.2 ∧
  subscription_loop path g socket [SubBytes (authority_event e.1 e.2)] = (call g (Observe (seen socket e)), None).
Proof.
  intros [Hi He]. pose proof (instance_ok_graphic _ Hi) as (Hne & _ & _ & Hg). destruct Hi as [Hl _].
  pose proof (epoch_length _ He). pose proof (epoch_u64 _ He). split; [apply event_bounded; done || lia|].
  cbn [subscription_loop]. rewrite event_utf8 by (done || lia).
  replace (is_empty (authority_event e.1 e.2)) with false by done.
  rewrite bool_decide_eq_false_2 by done. by rewrite authority_event_roundtrip.
Qed.

Lemma parse_needs_newline l : contains_byte newline l = false → parse_authority_event l = None.
Proof.
  intros H. unfold parse_authority_event. destruct (strip_prefix l "EPOCH ") as [body|] eqn:E1; [|done].
  apply strip_prefix_Some in E1 as ->. cbn [mbind option_bind].
  destruct (split_once " instance=" body) as [[ep i]|] eqn:E2; [|done]. apply split_once_Some in E2 as ->. cbn [mbind option_bind].
  destruct (strip_suffix i (String newline "")) as [i'|] eqn:E3; [|done]. apply strip_suffix_Some in E3 as ->.
  rewrite !contains_byte_append in H. by rewrite !orb_true_r in H.
Qed.

Lemma read_tail path g socket t :
  tail_ok t → ∃ e, subscription_loop path g socket [SubBytes (bounded_line MAX_EPOCH_LINE t)] = (g, Some (Attached e)).
Proof.
  intros [H| ->]; [|by eexists]. assert (contains_byte newline (prefix_of MAX_EPOCH_LINE t) = false) as Hp.
  { destruct (prefix_of_prefix MAX_EPOCH_LINE t) as [r Hr]. rewrite Hr in H at 1. rewrite contains_byte_append in H.
    by apply orb_false_iff in H as [? _]. }
  unfold bounded_line. rewrite through_newline_clean by done. cbn [subscription_loop].
  destruct (is_empty _); [by eexists|]. destruct (from_utf8 _) as [l|] eqn:El; [|by eexists].
  unfold from_utf8 in El. destruct (valid_utf8 _); [|done]. injection El as <-.
  case_bool_decide; [by eexists|]. rewrite parse_needs_newline by done. by eexists.
Qed.

(** * The whole system *)

(** The subscription [forward serve] reads: which of the broker's streams it
    is, the socket it was dialled on, and the bytes written to it and not yet
    read. *)
Record Link : Type := { l_stream : nat; l_socket : SocketIdentity; l_unread : string }.

(** Where the subscription worker stands in [run_once]. *)
Inductive Phase : Type :=
| Dialing
| Greeting (identity : result BrokerError BrokerIdentity)
| Greeted
| Following (l : Link).

(** A ceremony between its redemption and its end. *)
Record Flight : Type := {
  f_pid : Z; f_anchor : Anchored.AnchoredPeer; f_upstream : IpAddr; f_request : Z * string * Z;
  f_redeemed : result BrokerError RedeemedGrant;
}.

Section whole.
Context {P : Type} (show : ErrorKind → string) (path : string) (euid : Z).

(** The broker with its subscriber hub and the number its next stream gets;
    whether a LOCK has yet to publish; the worker and the registry of
    [forward serve]; and the redemption of the ceremony in progress (requests
    on the grant socket are served one at a time). *)
Record Whole : Type := {
  x_broker : Sys (P:=P);
  x_hub : list (Subscriber (P:=P));
  x_next : nat;
  x_behind : bool;
  x_side : Worker;
  x_phase : Phase;
  x_flight : option Flight;
}.

Definition x_grants (x : Whole) : BrowserGrants.Grants := registry (x_side x).

Definition set_broker (x : Whole) (b : Sys) (behind : bool) : Whole :=
  {| x_broker := b; x_hub := x_hub x; x_next := x_next x; x_behind := behind; x_side := x_side x;
     x_phase := x_phase x; x_flight := x_flight x |}.

Definition set_hub (x : Whole) (hub : list (Subscriber (P:=P))) (next : nat) (behind : bool) (phase : Phase) : Whole :=
  {| x_broker := x_broker x; x_hub := hub; x_next := next; x_behind := behind; x_side := x_side x;
     x_phase := phase; x_flight := x_flight x |}.

Definition set_side (x : Whole) (side : Worker) (phase : Phase) : Whole :=
  {| x_broker := x_broker x; x_hub := x_hub x; x_next := x_next x; x_behind := x_behind x; x_side := side;
     x_phase := phase; x_flight := x_flight x |}.

Definition set_registry_of (side : Worker) (g : BrowserGrants.Grants) : Worker :=
  {| registry := g; unhealthy_since := unhealthy_since side; in_outage := in_outage side |}.

Definition set_flight (x : Whole) (side : Worker) (flight : option Flight) : Whole :=
  {| x_broker := x_broker x; x_hub := x_hub x; x_next := x_next x; x_behind := x_behind x; x_side := side;
     x_phase := x_phase x; x_flight := flight |}.

Definition current_event (b : Sys (P:=P)) : string :=
  authority_event (st_instance (s_state b)) (st_lock_epoch (s_state b)).

Definition attached_to (hub : list (Subscriber (P:=P))) (l : Link) : bool := bool_decide (l_stream l ∈ s_stream <$> hub).

Definition receive (l : Link) (text : string) : Link :=
  {| l_stream := l_stream l; l_socket := l_socket l; l_unread := l_unread l +:+ text |}.

(** A run of [forward serve] begins with an empty registry. *)
Definition Whole_new (instance boot : string) (config : Broker.Config) (l : QueueLimits) : Whole :=
  {| x_broker := Sys_new instance boot config l; x_hub := []; x_next := 0; x_behind := false;
     x_side := {| registry := Grants_new; unhealthy_since := None; in_outage := false |};
     x_phase := Dialing; x_flight := None |}.

(** ** Moves

    A publication reads the authority and writes it under the hub's mutex; a
    LOCK that falls in between publishes for itself afterwards, so the two are
    one move.  So are dialling for the subscription and the broker's attaching
    it: until then the client waits in its first read. *)
Inductive move : Type :=
(* the broker: any section of any thread, a publication, a restart, and a
   subscriber of another process or of an earlier connection *)
| MBroker (a : System.action (P:=P))
| MPublish (pid : P → option Z) (writes : nat → bool) (cut : nat)
| MRestart (urandom : option string) (boot : string) (config : Broker.Config) (l : QueueLimits)
| MAttach (pid : P → option Z) (writes : nat → bool) (nonblocking : bool) (peer : P)
(* the subscription worker: HELLO, what it makes of it, SUBSCRIBE, a read *)
| MHello (w : World (P:=P)) (caller : P) (d : Dial) (answered : bool) (lost : ErrorKind)
| MGreet (now : Z)
| MSubscribe (d : Dial) (written : result string ()) (pid : P → option Z) (writes : nat → bool)
    (nonblocking : bool) (peer : P) (refusing : bool) (cut : nat) (now : Z)
| MRead (failed : option string) (now : Z)
(* the grant socket: a redemption, the rest of its ceremony *)
| MRedeem (pid : Z) (anchor : option Anchored.AnchoredPeer) (upstream : option IpAddr) (request : Z * string * Z)
    (w : World (P:=P)) (caller : P) (d1 d2 : Dial) (hello : Reply) (answered : bool) (lost : ErrorKind)
| MAnswer (slot : FeedSlot) (calls : Calls)
(* deadlines, pipes and their ends *)
| MLive (now id : Z)
| MExpire (id : Z)
| MPipe (grant_id : Z) (clones : option (nat * nat))
| MDrop (guard : Z * Z).

(** The worker's answer to a failure: [run_once] starts over. *)
Definition fail_over (x : Whole) (g : BrowserGrants.Grants) (f : SubscriptionFailure) (now : Z) : Whole :=
  let '(g, since, out, _) := worker_failure STANDARD g (unhealthy_since (x_side x)) (in_outage (x_side x)) f now in
  set_side x {| registry := g; unhealthy_since := since; in_outage := out |} Dialing.

(** A read that finds nothing waits while the broker holds the stream, and
    finds its end once the broker has let go of it. *)
Definition read_link (x : Whole) (l : Link) (failed : option string) (now : Z) : Whole :=
  let g := x_grants x in
  match failed with
  | Some source => let '(g, f) := subscription_loop path g (l_socket l) [SubFailed source] in
                   match f with Some f => fail_over x g f now | None => x end
  | None =>
      if is_empty (l_unread l) && attached_to (x_hub x) l then x else
      let raw := bounded_line MAX_EPOCH_LINE (l_unread l) in
      match subscription_loop path g (l_socket l) [SubBytes raw] with
      | (g, Some f) => fail_over x g f now
      | (g, None) =>
          set_side x (set_registry_of (x_side x) g)
            (Following {| l_stream := l_stream l; l_socket := l_socket l;
                          l_unread := skip (String.length raw) (l_unread l) |})
      end
  end.

(** What the publication leaves on our stream: the event, the start of it if
    the write fell short and the broker let go, or nothing. *)
Definition published_to (b : Sys (P:=P)) (hub hub' : list (Subscriber (P:=P))) (cut : nat) (l : Link) : Link :=
  if attached_to hub' l then receive l (current_event b)
  else if attached_to hub l then receive l (partial cut (current_event b)) else l.

Definition with_redemption (c : Calls) (r : result BrokerError RedeemedGrant) : Calls :=
  {| label := label c; redeemed := r; Ceremony.minted := Ceremony.minted c; identity1 := identity1 c; ack := ack c;
     identity2 := identity2 c; now := now c; clone := clone c; reply_written := reply_written c |}.

Definition set_grants_of (x : Whole) (g : BrowserGrants.Grants) : Whole :=
  set_flight x (set_registry_of (x_side x) g) (x_flight x).

Definition advance (x : Whole) (m : move) : Whole :=
  let b := x_broker x in
  match m with
  | MBroker a => set_broker x (System.step b a) (x_behind x || is_lock a)
  | MPublish pid writes cut =>
      let hub := publish_current pid writes (st_lock_epoch (s_state b)) (x_hub x) in
      set_hub x hub (x_next x) false
        (match x_phase x with Following l => Following (published_to b (x_hub x) hub cut l) | p => p end)
  | MRestart urandom boot config limits =>
      match random_instance_id urandom with
      | None => x
      | Some instance =>
          {| x_broker := Sys_new instance boot config limits; x_hub := []; x_next := x_next x; x_behind := false;
             x_side := x_side x; x_phase := x_phase x; x_flight := x_flight x |}
      end
  | MAttach pid writes nonblocking peer =>
      set_hub x (Server.attach pid writes nonblocking (st_lock_epoch (s_state b)) (x_hub x) (x_next x) peer).1
        (S (x_next x)) (x_behind x) (x_phase x)
  | MHello w caller d answered lost =>
      match x_phase x with
      | Dialing => set_side x (x_side x) (Greeting (ask_identity show path euid w b caller d answered lost))
      | _ => x
      end
  | MGreet now =>
      match x_phase x with
      | Greeting (Err e) => fail_over x (x_grants x) (Initial e) now
      | Greeting (Ok i) => set_side x (set_registry_of (x_side x) (call (x_grants x) (Observe i))) Greeted
      | _ => x
      end
  | MSubscribe d written pid writes nonblocking peer refusing cut now =>
      match x_phase x with
      | Greeted =>
          match subscribe path euid d written with
          | Err e => fail_over x (x_grants x) (Initial e) now
          | Ok socket =>
              let '(hub, end_) := Server.attach pid writes nonblocking (st_lock_epoch (s_state b)) (x_hub x) (x_next x) peer in
              let text := match end_ with
                          | Server.Attached => current_event b
                          | AtCapacity => SUBSCRIBER_CAPACITY_RESPONSE
                          | AttachError => partial cut (if refusing then SUBSCRIBER_CAPACITY_RESPONSE else current_event b)
                          end in
              set_hub x hub (S (x_next x)) (x_behind x)
                (Following {| l_stream := x_next x; l_socket := socket; l_unread := text |})
          end
      | _ => x
      end
  | MRead failed now => match x_phase x with Following l => read_link x l failed now | _ => x end
  | MRedeem pid anchor upstream request w caller d1 d2 hello answered lost =>
      match x_flight x, anchor, upstream with
      | None, Some who, Some up =>
          let '(b', r) := ask_redeem show path euid w b caller request.1.2 d1 d2 hello answered lost in
          set_flight (set_broker x b' (x_behind x)) (x_side x)
            (Some {| f_pid := pid; f_anchor := who; f_upstream := up; f_request := request; f_redeemed := r |})
      | _, _, _ => x
      end
  | MAnswer slot calls =>
      match x_flight x with
      | None => x
      | Some f =>
          let a := answer (f_pid f) (Some (f_anchor f)) (Some (f_upstream f)) (f_request f) slot (x_grants x)
                     (with_redemption calls (f_redeemed f)) in
          set_flight x (set_registry_of (x_side x) (grants' a)) None
      end
  | MLive now id => set_grants_of x (call (x_grants x) (Live now id))
  | MExpire id => set_grants_of x (call (x_grants x) (Expire id))
  | MPipe id clones => set_grants_of x (call (x_grants x) (RegisterPipe id clones))
  | MDrop guard => set_grants_of x (call (x_grants x) (DropGuard guard))
  end.

Definition play (x : Whole) (l : list move) : Whole := fold_left advance l x.

(** The subscription has caught up: the broker holds the stream, nothing is
    unread and no LOCK is still to be published. *)
Definition caught_up (x : Whole) : bool :=
  match x_phase x with
  | Following l => is_empty (l_unread l) && attached_to (x_hub x) l && negb (x_behind x)
  | _ => false
  end.

(** The instances a run restarts the broker with. *)
Definition restarts (l : list move) : list string :=
  omap (λ m, match m with MRestart u _ _ _ => random_instance_id u | _ => None end) l.
End whole.

(** * What the registry keeps *)

(** No grant without an authority, no pipe without a grant. *)
Definition tidy (g : BrowserGrants.Grants) : Prop :=
  (authority g = None → grants g = ∅) ∧ ∀ id, is_Some (pipes g !! id) → is_Some (grants g !! id).

Lemma tidy_expire g id : tidy g → tidy (expire g id).
Proof.
  intros [Ha Hp]. split; simpl; [intros ->%Ha; apply delete_empty|].
  intros i [h [Hne H]%lookup_delete_Some]. rewrite lookup_delete_ne by done. apply Hp. by exists h.
Qed.

Lemma tidy_revoke g : tidy (revoke_all g).
Proof. split; simpl; [done|]. intros i [h H]. by apply lookup_empty_Some in H. Qed.

Lemma tidy_step g o : tidy g → tidy (BrowserGrants.step g o).
Proof.
  intros H. pose proof H as [Ha Hp]. destruct o as [a gr clone|a| |t i|i|i clones|guard|k]; simpl.
  - unfold insert_if_authority. case_bool_decide as E; [|done]. destruct clone as [c|]; [|done]. split; simpl; [congruence|].
    intros i Hi. destruct (decide (i = next_id g)) as [->|Hne]; [rewrite lookup_insert_eq; by eexists|].
    rewrite lookup_insert_ne by done. by apply Hp.
  - unfold observe_authority. cbn [fst]. case_match; [apply tidy_revoke|]. by split; simpl.
  - apply tidy_revoke.
  - unfold live. case_match; [case_match; [done|by apply tidy_expire]|done].
  - by apply tidy_expire.
  - unfold register_pipe. destruct (grants g !! i) as [e|] eqn:E; [|done]. simpl. destruct clones as [hs|]; [|done].
    split; simpl; [done|]. intros j Hj. destruct (decide (i = j)) as [<-|Hne]; [by eexists|].
    rewrite lookup_insert_ne in Hj by done. by apply Hp.
  - unfold drop_guard. destruct (pipes g !! guard.1) as [es|] eqn:E; [|done]. split; simpl; [done|].
    intros j Hj. destruct (decide (guard.1 = j)) as [<-|Hne]; [apply Hp; by eexists|].
    rewrite lookup_insert_ne in Hj by done. by apply Hp.
  - unfold tidy. by destruct (shut_frame g k) as (-> & -> & -> & _).
Qed.

Lemma tidy_call g o : tidy g → tidy (call g o).
Proof. intros H%(tidy_step g o). unfold tidy. by destruct (call_frame g o) as (-> & -> & -> & _). Qed.

Lemma observed g a : authority (call g (Observe a)) = Some a.
Proof.
  rewrite call_authority. cbn [BrowserGrants.step].
  unfold observe_authority. cbn [fst]. by destruct (is_some_and _ _).
Qed.

Section counting.
Context {P : Type}.
Implicit Types (b : Sys (P:=P)).

Definition instance_of b : string := st_instance (s_state b).
Definition epoch_of b : Z := st_lock_epoch (s_state b).

Definition is_current b (a : BrokerIdentity) : bool :=
  bool_decide (bi_instance a = instance_of b) && (bi_epoch a =? epoch_of b)%Z.

(** Grants under the broker's present authority, and a redemption of it that
    is on its way to the registry. *)
Definition live_count b (g : BrowserGrants.Grants) : nat :=
  match authority g with Some a => if is_current b a then base.size (grants g) else 0 | None => 0 end.

Definition redeemed_count b (r : result BrokerError RedeemedGrant) : nat :=
  match r with Ok r => if is_current b (rg_authority r) then 1 else 0 | Err _ => 0 end.

Definition flight_count b (f : option Flight) : nat :=
  match f with Some f => redeemed_count b (f_redeemed f) | None => 0 end.

Definition inserts (o : op) : bool := match o with InsertIf _ _ _ => true | _ => false end.

Lemma live_count_expire b g id : (live_count b (expire g id) ≤ live_count b g)%nat.
Proof.
  unfold live_count. simpl. destruct (authority g) as [a|]; [|done]. destruct (is_current b a); [|done].
  rewrite map_size_delete. case_match; simpl; lia.
Qed.

Lemma live_count_revoke b g : live_count b (revoke_all g) = 0%nat.
Proof. unfold live_count. simpl. repeat case_match; done. Qed.

Lemma live_count_step b g o :
  tidy g → inserts o = false → (live_count b (BrowserGrants.step g o) ≤ live_count b g)%nat.
Proof.
  intros [Ha _] Ho. destruct o as [a gr clone|a| |t i|i|i clones|guard|k]; [done| | | | | | |]; cbn [BrowserGrants.step].
  - unfold observe_authority. cbn [fst]. destruct (authority g) as [a'|] eqn:E; simpl.
    + case_bool_decide; simpl; [|rewrite live_count_revoke; lia]. unfold live_count. simpl. rewrite E. subst. done.
    + unfold live_count. simpl. rewrite Ha, map_size_empty by done. destruct (is_current b a); lia.
  - unfold invalidate_authority. rewrite live_count_revoke. lia.
  - unfold live. case_match; [case_match; [done|apply live_count_expire]|done].
  - apply live_count_expire.
  - unfold register_pipe. by repeat case_match.
  - unfold drop_guard. by case_match.
  - unfold live_count. by destruct (shut_frame g k) as (-> & _ & -> & _).
Qed.

Lemma live_count_call b g o :
  tidy g → inserts o = false → (live_count b (call g o) ≤ live_count b g)%nat.
Proof.
  intros Hg Ho. etransitivity; [|by apply (live_count_step b g o)].
  unfold live_count. by rewrite call_grants, call_authority.
Qed.

Lemma live_count_insert b g a gr clone :
  (live_count b (insert_if_authority g a gr clone).1 ≤ live_count b g + (if is_current b a then 1 else 0))%nat.
Proof.
  unfold insert_if_authority. case_bool_decide as E; [|cbn [fst]; lia]. destruct clone as [c|]; [|cbn [BrowserGrants.insert fst]; lia].
  unfold live_count. simpl. rewrite E. destruct (is_current b a); [|done]. rewrite map_size_insert.
  case_match; simpl; lia.
Qed.

(** A ceremony's end adds at most the grant it redeemed. *)
Lemma answer_count b pid anchor upstream request slot g c :
  tidy g →
  let g' := grants' (answer pid anchor upstream request slot g c) in
  tidy g' ∧ authority g' = authority g ∧ (live_count b g' ≤ live_count b g + redeemed_count b (redeemed c))%nat.
Proof.
  intros Hg g'. assert (g' = g ∨ ∃ r gr id, redeemed c = Ok r ∧
    let gi := BrowserGrants.step g (InsertIf (rg_authority r) gr (clone c)) in g' = gi ∨ g' = call gi (Expire id)) as Hc.
  { subst g'. unfold answer. destruct request as [[ttl receipt] port]. destruct anchor as [who|]; [|by left].
    destruct upstream as [up|]; [|by left]. destruct (redeemed c) as [r|]; [|by left]. destruct (Ceremony.minted c) as [tok|]; [|by left].
    destruct (negb _); [by left|]. destruct (push slot (ack c)) as [slot1 []]; cbn [negb]; [|by left].
    destruct (negb _); [by left|]. right. exists r.
    match goal with |- context [insert_if_authority g _ ?gr _] => set (new := gr) end.
    exists new. cbn [BrowserGrants.step]. destruct (insert_if_authority g _ new _) as [gi [i|]]; cbn [fst].
    - exists i. split; [done|]. destruct (reply_written c); [by left|by right].
    - exists 0%Z. split; [done|]. by left. }
  destruct Hc as [->|(r & gr & id & -> & Hc)]; [split_and!; [done|done|lia]|].
  pose proof (tidy_step g (InsertIf (rg_authority r) gr (clone c)) Hg) as Ht.
  pose proof (live_count_insert b g (rg_authority r) gr (clone c)) as Hl.
  assert (authority (BrowserGrants.step g (InsertIf (rg_authority r) gr (clone c))) = authority g) as Ha.
  { simpl. unfold insert_if_authority, insert. by repeat case_match. }
  change (insert_if_authority _ _ _ _).1 with (BrowserGrants.step g (InsertIf (rg_authority r) gr (clone c))) in Hl.
  cbn [redeemed_count]. cbn zeta in Hc. set (gi := BrowserGrants.step _ _) in *. destruct Hc as [->| ->].
  - split_and!; [done|done|lia].
  - pose proof (live_count_call b gi (Expire id) Ht eq_refl). split_and!; [by apply tidy_call| |lia].
    by rewrite call_authority.
Qed.

(** ** Authorities the broker has had *)

(** [used] are the instances so far; an authority of the present one is not
    ahead of it. *)
Definition known (used : list string) b (a : BrokerIdentity) : Prop :=
  bi_instance a ∈ used ∧ (bi_instance a = instance_of b → (bi_epoch a ≤ epoch_of b)%Z).

(** The broker moved on: within its instance, or to one not used before. *)
Definition moved (used : list string) b (used' : list string) b' : Prop :=
  used ⊆ used' ∧
  ((instance_of b' = instance_of b ∧ (epoch_of b ≤ epoch_of b')%Z) ∨ instance_of b' ∉ used).

Definition moved_past (used : list string) b b' : Prop :=
  (instance_of b' = instance_of b ∧ (epoch_of b < epoch_of b')%Z) ∨ instance_of b' ∉ used.

Lemma known_moved used b used' b' a : moved used b used' b' → known used b a → known used' b' a.
Proof.
  intros [Hu Hm] [Hi He]. split; [by apply Hu|]. intros Heq. destruct Hm as [[Hs Hle]|Hn]; [|congruence].
  etrans; [apply He; congruence|done].
Qed.

Lemma moved_past_stale used b b' a : moved_past used b b' → known used b a → is_current b' a = false.
Proof.
  intros Hm [Hi He]. unfold is_current. apply andb_false_iff. destruct Hm as [[Hs Hlt]|Hn].
  - destruct (decide (bi_instance a = instance_of b)) as [E|E].
    + right. apply Z.eqb_neq. specialize (He E). lia.
    + left. apply bool_decide_eq_false_2. congruence.
  - left. apply bool_decide_eq_false_2. congruence.
Qed.

Lemma counts_stale used b b' g f :
  moved_past used b b' → (∀ a, authority g = Some a → known used b a) →
  (∀ x r, f = Some x → f_redeemed x = Ok r → known used b (rg_authority r)) →
  live_count b' g = 0%nat ∧ flight_count b' f = 0%nat.
Proof.
  intros Hm Hg Hf. split.
  - unfold live_count. destruct (authority g) as [a|]; [|done]. by rewrite (moved_past_stale used b b' a Hm (Hg a eq_refl)).
  - destruct f as [x|]; [|done]. simpl. destruct (f_redeemed x) as [r|] eqn:E; [|done]. simpl.
    by rewrite (moved_past_stale used b b' _ Hm (Hf x r eq_refl E)).
Qed.

Lemma counts_same b b' g f :
  instance_of b' = instance_of b → epoch_of b' = epoch_of b →
  live_count b' g = live_count b g ∧ flight_count b' f = flight_count b f.
Proof. intros Hi He. unfold live_count, flight_count, redeemed_count, is_current. by rewrite Hi, He. Qed.
End counting.

(** * The invariant *)
Section invariant.
Context {P : Type} (show : ErrorKind → string) (path : string) (euid : Z).
Implicit Types (b : Sys (P:=P)) (x : Whole (P:=P)).

Definition current_pair b : string * Z := (instance_of b, epoch_of b).

(** The bytes of our stream are whole events of authorities the broker had,
    then perhaps a torn line; while the broker holds the stream nothing is
    torn, and once no LOCK waits to be published the last of them, or else
    what the registry has on record, is the broker's present authority. *)
Definition link_ok (used : list string) x (l : Link) : Prop :=
  (l_stream l < x_next x)%nat ∧
  ∃ evs t,
    l_unread l = events_text evs +:+ t ∧
    Forall (λ e, event_ok e ∧ known used (x_broker x) (seen (l_socket l) e)) evs ∧
    tail_ok t ∧
    (attached_to (x_hub x) l = true →
       t = "" ∧
       (x_behind x = false →
          match last evs with
          | Some e => e = current_pair (x_broker x)
          | None => authority (x_grants x) = Some (seen (l_socket l) (current_pair (x_broker x)))
          end)).

Definition phase_ok (used : list string) x : Prop :=
  match x_phase x with
  | Greeting (Ok i) => known used (x_broker x) i
  | Following l => link_ok used x l
  | _ => True
  end.

Record winv (used : list string) (n : Z) x : Prop := {
  wi_sys : System.Inv n (x_broker x);
  wi_instance : instance_ok (instance_of (x_broker x)) ∧ instance_of (x_broker x) ∈ used;
  wi_receipts : receipts_wf (st_receipts (s_state (x_broker x)));
  wi_tidy : tidy (x_grants x);
  wi_authority : ∀ a, authority (x_grants x) = Some a → known used (x_broker x) a;
  wi_flight : ∀ f r, x_flight x = Some f → f_redeemed f = Ok r → known used (x_broker x) (rg_authority r);
  wi_phase : phase_ok used x;
  wi_hub : ∀ s, s ∈ x_hub x → (s_stream s < x_next x)%nat;
  wi_ledger : (live_count (x_broker x) (x_grants x) + flight_count (x_broker x) (x_flight x)
                 + held CAP_BROWSER (s_state (x_broker x))
               ≤ length (touches CAP_BROWSER (s_history (x_broker x))))%nat;
}.

Lemma winv_epoch used n x : winv used n x → (n < 10 ^ 15)%Z → epoch_ok (epoch_of (x_broker x)).
Proof. intros [Hs _ _ _ _ _ _ _ _] Hn. destruct (inv_epoch _ _ Hs). unfold epoch_ok, epoch_of. lia. Qed.

Lemma winv_event used n x : winv used n x → (n < 10 ^ 15)%Z → event_ok (current_pair (x_broker x)).
Proof. intros H Hn. split; simpl; [apply (wi_instance _ _ _ H)|by eapply winv_epoch]. Qed.

Lemma winv_current used n x socket : winv used n x → known used (x_broker x) (seen socket (current_pair (x_broker x))).
Proof. intros H. split; simpl; [apply (wi_instance _ _ _ H)|done]. Qed.

Lemma Inv_mono n n' b : System.Inv n b → (n ≤ n')%Z → System.Inv n' b.
Proof. intros [? ? ? ? [? ?] ? ? ? ? ?] Hn. split; try done; lia. Qed.

(** ** The broker's moves *)
Lemma link_moved used x used' b' hub' behind' l :
  moved used (x_broker x) used' b' →
  (∀ s, s ∈ s_stream <$> hub' → s ∈ s_stream <$> x_hub x) →
  (attached_to hub' l = true → behind' = false →
     x_behind x = false ∧ current_pair b' = current_pair (x_broker x)) →
  link_ok used x l →
  link_ok used' {| x_broker := b'; x_hub := hub'; x_next := x_next x; x_behind := behind'; x_side := x_side x;
                   x_phase := x_phase x; x_flight := x_flight x |} l.
Proof.
  intros Hm Hh Hb [Hn (evs & t & Hu & He & Ht & Hl)]. split; [done|]. exists evs, t. split_and!; [done| |done|].
  - eapply Forall_impl; [exact He|]. intros e [? ?]. split; [done|]. by eapply known_moved.
  - cbn [x_hub x_behind x_broker]. intros Ha. assert (attached_to (x_hub x) l = true) as Ha'.
    { unfold attached_to in *. apply bool_decide_eq_true in Ha. apply bool_decide_eq_true. by apply Hh. }
    destruct (Hl Ha') as [Ht' Hl']. split; [done|]. intros Hbf. destruct (Hb Ha Hbf) as [Hb1 Hb2].
    rewrite Hb2. by apply Hl'.
Qed.

Lemma phase_moved used x used' b' hub' behind' :
  moved used (x_broker x) used' b' →
  (∀ s, s ∈ s_stream <$> hub' → s ∈ s_stream <$> x_hub x) →
  (∀ l, attached_to hub' l = true → behind' = false →
     x_behind x = false ∧ current_pair b' = current_pair (x_broker x)) →
  phase_ok used x →
  phase_ok used' {| x_broker := b'; x_hub := hub'; x_next := x_next x; x_behind := behind'; x_side := x_side x;
                    x_phase := x_phase x; x_flight := x_flight x |}.
Proof.
  intros Hm Hh Hb. unfold phase_ok. cbn [x_phase x_broker]. destruct (x_phase x) as [|[i|e]| |l]; try done.
  - intros H. by eapply known_moved.
  - intros H. by eapply link_moved; [|done|apply Hb|].
Qed.

Lemma moved_step used b a : (epoch_of b < u64_max)%Z → moved used b used (System.step b a).
Proof.
  intros He. split; [done|]. left. unfold instance_of, epoch_of in *. rewrite step_instance. split; [done|].
  destruct (is_lock a) eqn:E; [|by rewrite step_epoch]. destruct a as [w c r| | | |]; try done. destruct r; try done.
  rewrite lock_epoch by done. lia.
Qed.

Lemma winv_section used n x a :
  winv used n x → (n + 1 < 10 ^ 15)%Z → is_lock a = false →
  winv used (n + 1) (set_broker x (System.step (x_broker x) a) (x_behind x)) ∧
  System.Inv (n + 1) (System.step (x_broker x) a).
Proof.
  intros [Hs Hi Hr Ht Ha Hf Hp Hh Hl] Hn Hk.
  assert (n + 1 < u64_max)%Z as Hn' by (unfold u64_max; lia). pose proof (inv_step _ _ a Hs Hn') as Hs'. split; [|done].
  pose proof (step_instance (x_broker x) a) as Ei. pose proof (step_epoch (x_broker x) a Hk) as Ee.
  destruct (step_ledger CAP_BROWSER (x_broker x) a Hk Hr) as [Hr' Hl'].
  assert (moved used (x_broker x) used (System.step (x_broker x) a)) as Hm.
  { apply moved_step. destruct (inv_epoch _ _ Hs). unfold epoch_of. lia. }
  split; cbn [set_broker x_broker x_hub x_next x_behind x_side x_phase x_flight x_grants]; try done.
  - unfold instance_of in *. by rewrite Ei.
  - intros a' Ha'. eapply known_moved; [done|by apply Ha].
  - intros f r Hfl Hr0. eapply known_moved; [done|by eapply Hf].
  - apply phase_moved with used; auto. intros l _ Hb. split; [done|]. unfold current_pair, instance_of, epoch_of. congruence.
  - destruct (counts_same (x_broker x) (System.step (x_broker x) a) (x_grants x) (x_flight x) Ei Ee) as [E1 E2].
    unfold x_grants in *. cbn [x_side set_broker]. rewrite E1, E2. lia.
Qed.

Lemma winv_lock used n x w caller :
  winv used n x → (n + 1 < 10 ^ 15)%Z →
  winv used (n + 1) (set_broker x (System.step (x_broker x) (ARequest w caller Lock)) true).
Proof.
  intros [Hs Hi Hr Ht Ha Hf Hp Hh Hl] Hn. set (a := ARequest w caller Lock).
  assert (n + 1 < u64_max)%Z as Hn' by (unfold u64_max; lia). pose proof (inv_step _ _ a Hs Hn') as Hs'.
  pose proof (step_instance (x_broker x) a) as Ei.
  destruct (lock_ledger CAP_BROWSER (x_broker x) w caller) as [Er Et]. fold a in Er, Et.
  destruct (inv_epoch _ _ Hs) as [He1 He2].
  assert (epoch_of (x_broker x) < u64_max)%Z as Heb by (unfold epoch_of; lia).
  pose proof (moved_step used (x_broker x) a Heb) as Hm.
  assert (moved_past used (x_broker x) (System.step (x_broker x) a)) as Hmp.
  { left. split; [exact Ei|]. unfold epoch_of, a in *. rewrite lock_epoch by done. lia. }
  destruct (counts_stale used (x_broker x) _ (x_grants x) (x_flight x) Hmp Ha Hf) as [E1 E2].
  split; cbn [set_broker x_broker x_hub x_next x_behind x_side x_phase x_flight]; try done.
  - unfold instance_of in *. by rewrite Ei.
  - rewrite Er. apply receipts_empty_wf.
  - intros a' Ha'. eapply known_moved; [done|by apply Ha].
  - intros f r Hfl Hr0. eapply known_moved; [done|by eapply Hf].
  - apply phase_moved with used; auto. done.
  - unfold x_grants in *. cbn [x_side set_broker]. rewrite E1, E2, Et. unfold held. rewrite Er. done.
Qed.

Lemma winv_set_hub used n x hub next behind phase :
  winv used n x → (∀ s, s ∈ hub → (s_stream s < next)%nat) →
  phase_ok used (set_hub x hub next behind phase) → winv used (n + 1) (set_hub x hub next behind phase).
Proof. intros [Hs Hi Hr Ht Ha Hf Hp Hh Hl] Hh' Hp'. split; try done. eapply Inv_mono; [done|lia]. Qed.

Lemma publish_streams pid writes epoch (hub : list (Subscriber (P:=P))) s :
  s ∈ s_stream <$> publish_current pid writes epoch hub → s ∈ s_stream <$> hub.
Proof.
  unfold publish_current. rewrite <-list_fmap_compose. intros (y & -> & [Hy _]%elem_of_retain)%list_elem_of_fmap.
  apply list_elem_of_fmap. by exists y.
Qed.

Lemma attach_streams pid writes nonblocking epoch (hub : list (Subscriber (P:=P))) stream peer s :
  s ∈ s_stream <$> (Server.attach pid writes nonblocking epoch hub stream peer).1 → s ∈ s_stream <$> hub ∨ s = stream.
Proof.
  assert (∀ f s, s ∈ s_stream <$> retain f hub → s ∈ s_stream <$> hub) as Hr.
  { intros f s' (y & -> & [Hy _]%elem_of_retain)%list_elem_of_fmap. apply list_elem_of_fmap. by exists y. }
  unfold Server.attach. destruct nonblocking; cbn [negb]; [|simpl; by left].
  case_match; [simpl; intros ?%Hr; by left|]. destruct (writes stream); simpl; [|intros ?%Hr; by left].
  rewrite fmap_app. intros [?%Hr|Hs]%elem_of_app; [by left|]. right. by apply list_elem_of_singleton in Hs.
Qed.

Lemma attach_result pid writes nonblocking epoch (hub : list (Subscriber (P:=P))) stream peer :
  stream ∉ s_stream <$> hub →
  stream ∈ s_stream <$> (Server.attach pid writes nonblocking epoch hub stream peer).1 →
  (Server.attach pid writes nonblocking epoch hub stream peer).2 = Server.Attached.
Proof.
  intros Hn. assert (∀ f, stream ∉ s_stream <$> retain f hub) as Hr.
  { intros f (y & E & [Hy _]%elem_of_retain)%list_elem_of_fmap. apply Hn, list_elem_of_fmap. by exists y. }
  unfold Server.attach. destruct nonblocking; cbn [negb]; [|simpl; by intros ?%Hn].
  case_match; [simpl; by intros ?%Hr|]. destruct (writes stream); simpl; [done|by intros ?%Hr].
Qed.

Lemma stream_below (hub : list (Subscriber (P:=P))) next :
  (∀ s, s ∈ hub → (s_stream s < next)%nat) ↔ (∀ i, i ∈ s_stream <$> hub → (i < next)%nat).
Proof.
  split; [intros H i (s & -> & Hs)%list_elem_of_fmap; by apply H|].
  intros H s Hs. apply H, list_elem_of_fmap. by exists s.
Qed.

Lemma event_partial_ok e cut : event_ok e → tail_ok (partial cut (authority_event e.1 e.2)).
Proof. intros (body & -> & Hb)%event_body. left. by apply partial_clean. Qed.

Lemma winv_publish used n x pid writes cut :
  winv used n x → (n + 1 < 10 ^ 15)%Z → winv used (n + 1) (advance show path euid x (MPublish pid writes cut)).
Proof.
  intros H Hn. cbn [advance]. set (hub := publish_current _ _ _ _).
  assert (∀ s, s ∈ s_stream <$> hub → s ∈ s_stream <$> x_hub x) as Hsub by (intros s; apply publish_streams).
  pose proof (wi_hub _ _ _ H) as Hh. rewrite stream_below in Hh.
  pose proof (wi_phase _ _ _ H) as Hp. pose proof (winv_event _ _ _ H ltac:(lia)) as He.
  apply winv_set_hub; [done|apply stream_below; auto|].
  unfold phase_ok in *. cbn [x_phase set_hub]. destruct (x_phase x) as [|[i|e]| |l]; try done.
  destruct Hp as [Hx (evs & t & Hu & Hev & Ht & Hl)]. unfold published_to.
  assert (∀ text, attached_to hub (receive l text) = attached_to hub l) as Hatt by done.
  destruct (attached_to hub l) eqn:Ea.
  - assert (attached_to (x_hub x) l = true) as Ea'.
    { unfold attached_to in *. apply bool_decide_eq_true in Ea. apply bool_decide_eq_true. auto. }
    destruct (Hl Ea') as [-> _]. split; [done|]. exists (evs ++ [current_pair (x_broker x)])%list, "".
    split_and!; [..|by left|].
    + cbn [receive l_unread]. rewrite Hu, events_text_snoc, !append_nil_r. done.
    + apply Forall_app. split; [done|]. constructor; [|done]. split; [done|]. apply (winv_current _ _ _ _ H).
    + intros _. split; [done|]. intros _. by rewrite last_snoc.
  - destruct (attached_to (x_hub x) l) eqn:Ea'.
    + destruct (Hl eq_refl) as [-> _]. split; [done|]. exists evs, (partial cut (current_event (x_broker x))).
      split_and!; [..|].
      * cbn [receive l_unread]. by rewrite Hu, append_nil_r.
      * done.
      * exact (event_partial_ok _ _ He).
      * cbn [x_hub set_hub]. by rewrite Hatt.
    + split; [done|]. exists evs, t. split_and!; [done|done|done|]. cbn [x_hub set_hub]. by rewrite Ea.
Qed.

Lemma winv_attach used n x pid writes nonblocking peer :
  winv used n x → winv used (n + 1) (advance show path euid x (MAttach pid writes nonblocking peer)).
Proof.
  intros H. cbn [advance]. set (hub := (Server.attach _ _ _ _ _ _ _).1).
  assert (∀ s, s ∈ s_stream <$> hub → s ∈ s_stream <$> x_hub x ∨ s = x_next x) as Hsub by (intros s; apply attach_streams).
  pose proof (wi_hub _ _ _ H) as Hh. rewrite stream_below in Hh.
  pose proof (wi_phase _ _ _ H) as Hp.
  apply winv_set_hub; [done| |].
  { apply stream_below. intros i [Hi%Hh| ->]%Hsub; lia. }
  unfold phase_ok in *. cbn [x_phase set_hub]. destruct (x_phase x) as [|[i|e]| |l]; try done.
  destruct Hp as [Hx (evs & t & Hu & Hev & Ht & Hl)]. split; [cbn [x_next set_hub]; lia|]. exists evs, t. split_and!; [done..|].
  cbn [x_hub set_hub x_behind x_broker]. intros Ha. apply Hl. unfold attached_to in *. apply bool_decide_eq_true in Ha.
  apply bool_decide_eq_true. apply Hsub in Ha as [?|Ha]; [done|lia].
Qed.

Lemma winv_restart used n x instance boot config limits :
  winv used n x → (0 ≤ n)%Z → instance_ok instance → instance ∉ used →
  winv (instance :: used) (n + 1)
    {| x_broker := Sys_new instance boot config limits; x_hub := []; x_next := x_next x; x_behind := false;
       x_side := x_side x; x_phase := x_phase x; x_flight := x_flight x |}.
Proof.
  intros [Hs Hi Hr Ht Ha Hf Hp Hh Hl] Hn Hok Hnew. set (b' := Sys_new instance boot config limits).
  assert (moved used (x_broker x) (instance :: used) b') as Hm by (split; [set_solver|by right]).
  assert (moved_past used (x_broker x) b') as Hmp by by right.
  destruct (counts_stale used (x_broker x) b' (x_grants x) (x_flight x) Hmp Ha Hf) as [E1 E2].
  split; cbn [x_broker x_hub x_next x_behind x_side x_phase x_flight]; try done.
  - eapply Inv_mono; [apply inv_new|lia].
  - split; [done|]. left.
  - apply receipts_empty_wf.
  - intros a' Ha'. eapply known_moved; [done|by apply Ha].
  - intros f r Hfl Hr0. eapply known_moved; [done|by eapply Hf].
  - apply phase_moved with used; [done|by intros s ?%not_elem_of_nil| |done].
    intros l Hatt. by apply bool_decide_eq_true, not_elem_of_nil in Hatt.
  - by intros s ?%not_elem_of_nil.
  - unfold x_grants in *. cbn [x_side]. rewrite E1, E2. done.
Qed.

(** ** The moves of [forward serve] *)
Lemma winv_set_side used n x side phase :
  winv used n x → tidy (registry side) →
  (authority (registry side) = authority (x_grants x) ∨
   ∀ a, authority (registry side) = Some a → known used (x_broker x) a) →
  (live_count (x_broker x) (registry side) ≤ live_count (x_broker x) (x_grants x))%nat →
  phase_ok used (set_side x side phase) → winv used (n + 1) (set_side x side phase).
Proof.
  intros [Hs Hi Hr Ht Ha Hf Hp Hh Hl] Ht' Ha' Hl' Hp'.
  split; cbn [x_broker x_hub x_next x_behind x_side x_phase x_flight set_side]; try done.
  - eapply Inv_mono; [done|lia].
  - intros a E. destruct Ha' as [E'|Ha']; [|by apply Ha']. apply Ha. by rewrite <-E'.
  - unfold x_grants in *. cbn [x_side set_side]. lia.
Qed.

(** A registry operation other than a ceremony's, under any phase in which the
    record of the authority is not relied upon. *)
Lemma winv_side_op used n x o since out phase :
  winv used n x → inserts o = false → (∀ a, o = Observe a → known used (x_broker x) a) →
  phase_ok used (set_side x {| registry := call (x_grants x) o; unhealthy_since := since; in_outage := out |} phase) →
  winv used (n + 1)
    (set_side x {| registry := call (x_grants x) o; unhealthy_since := since; in_outage := out |} phase).
Proof.
  intros H Ho Hk Hp. pose proof (wi_tidy _ _ _ H) as Ht.
  apply winv_set_side; [done|by apply tidy_call| |by apply live_count_call|done]. cbn [registry].
  destruct o as [a gr clone|a| |t i|i|i clones|guard|k]; [done| | |left; rewrite call_authority; cbn [BrowserGrants.step]..].
  - right. intros a'. rewrite observed. intros [= <-]. by apply Hk.
  - right. intros a'. by rewrite call_authority.
  - unfold live. by repeat case_match.
  - done.
  - unfold register_pipe. by repeat case_match.
  - unfold drop_guard. by repeat case_match.
  - apply shut_frame.
Qed.

Lemma winv_mono used n x : winv used n x → winv used (n + 1) x.
Proof. intros [Hs Hi Hr Ht Ha Hf Hp Hh Hl]. split; try done. eapply Inv_mono; [done|lia]. Qed.

Lemma winv_fail_over used n x f now : winv used n x → winv used (n + 1) (fail_over x (x_grants x) f now).
Proof.
  intros H. unfold fail_over.
  assert (∀ since out, winv used (n + 1)
    (set_side x {| registry := x_grants x; unhealthy_since := since; in_outage := out |} Dialing)) as Hk.
  { intros since out. apply winv_set_side; [done|apply H|by left|done|done]. }
  assert (∀ since out, winv used (n + 1)
    (set_side x {| registry := call (x_grants x) Invalidate; unhealthy_since := since; in_outage := out |} Dialing)) as Hi.
  { intros since out. by apply (winv_side_op used n x Invalidate since out Dialing). }
  unfold worker_failure. destruct f as [e|e]; [|apply Hi]. destruct (is_connect e); cbn [negb]; [|apply Hi].
  destruct (_ <=? _)%Z; [apply Hi|apply Hk].
Qed.

(** Operations that leave the authority alone may happen in any phase. *)
Lemma winv_registry used n x o :
  winv used n x → inserts o = false → authority (BrowserGrants.step (x_grants x) o) = authority (x_grants x) →
  (∀ a, o ≠ Observe a) →
  winv used (n + 1) (set_grants_of x (call (x_grants x) o)).
Proof.
  intros H Ho Ha Hno. pose proof (wi_phase _ _ _ H) as Hp.
  change (set_grants_of x (call (x_grants x) o)) with
    (set_side x (set_registry_of (x_side x) (call (x_grants x) o)) (x_phase x)).
  apply winv_side_op; [done|done|by intros a ?%Hno|].
  unfold phase_ok, link_ok, x_grants in *. cbn [x_phase set_side x_side registry x_broker x_next x_hub x_behind] in *. by rewrite call_authority, Ha.
Qed.

Lemma winv_hello used n x w caller d answered lost :
  winv used n x → (n + 1 < 10 ^ 15)%Z → winv used (n + 1) (advance show path euid x (MHello w caller d answered lost)).
Proof.
  intros H Hn. cbn [advance]. destruct (x_phase x) eqn:Ep; try by apply winv_mono.
  apply winv_set_side; [done|apply H|by left|done|]. unfold phase_ok. cbn [x_phase set_side x_broker].
  destruct (ask_identity _ _ _ _ _ _ _ _ _) as [i|] eqn:E; [|done].
  apply ask_identity_current in E as [Ei Ee]; [|apply (wi_instance _ _ _ H)|apply (winv_epoch _ _ _ H); lia].
  split; [rewrite Ei; apply (wi_instance _ _ _ H)|]. intros _. unfold epoch_of. lia.
Qed.

Lemma winv_greet used n x now : winv used n x → winv used (n + 1) (advance show path euid x (MGreet now)).
Proof.
  intros H. pose proof (wi_phase _ _ _ H) as Hp. unfold phase_ok in Hp. cbn [advance].
  destruct (x_phase x) as [|[i|e]| |l]; try by apply winv_mono.
  - apply (winv_side_op used n x (Observe i) (unhealthy_since (x_side x)) (in_outage (x_side x)) Greeted); [done|done| |done].
    by intros a [= <-].
  - by apply winv_fail_over.
Qed.

Lemma winv_subscribe used n x d written pid writes nonblocking peer refusing cut now :
  winv used n x → (n + 1 < 10 ^ 15)%Z →
  winv used (n + 1) (advance show path euid x (MSubscribe d written pid writes nonblocking peer refusing cut now)).
Proof.
  intros H Hn. cbn [advance]. destruct (x_phase x) eqn:Ep; try by apply winv_mono.
  destruct (subscribe _ _ _ _) as [socket|e]; [|by apply winv_fail_over].
  pose proof (wi_hub _ _ _ H) as Hh. rewrite stream_below in Hh.
  pose proof (winv_event _ _ _ H ltac:(lia)) as He. pose proof (winv_current _ _ _ socket H) as Hk.
  pose proof (attach_streams pid writes nonblocking (st_lock_epoch (s_state (x_broker x))) (x_hub x) (x_next x) peer) as Hsub.
  pose proof (attach_result pid writes nonblocking (st_lock_epoch (s_state (x_broker x))) (x_hub x) (x_next x) peer) as Hres.
  destruct (Server.attach _ _ _ _ _ _ _) as [hub end_]. cbn [fst snd] in *.
  assert (x_next x ∈ s_stream <$> hub → end_ = Server.Attached) as Hend by (apply Hres; intros ?%Hh; lia).
  apply winv_set_hub; [done| |].
  { apply stream_below. intros i [Hi%Hh| ->]%Hsub; lia. }
  unfold phase_ok. cbn [x_phase set_hub]. split; [cbn [l_stream x_next set_hub]; lia|]. cbn [x_hub x_broker x_behind set_hub l_unread l_socket].
  unfold attached_to. cbn [l_stream]. destruct end_.
  - exists [current_pair (x_broker x)], "". split_and!; [cbn [events_text]; by rewrite !append_nil_r| |by left|].
    + by apply Forall_singleton.
    + intros _. by split.
  - exists [], SUBSCRIBER_CAPACITY_RESPONSE. split_and!; [done|done|by right|]. by intros ?%bool_decide_eq_true%Hend.
  - eexists [], _. split_and!; [done|done| |by intros ?%bool_decide_eq_true%Hend].
    destruct refusing; [|exact (event_partial_ok _ _ He)]. left. by apply (partial_clean cut "ERR SUBSCRIBER_CAPACITY").
Qed.

Lemma winv_read used n x failed now : winv used n x → winv used (n + 1) (advance show path euid x (MRead failed now)).
Proof.
  intros H. pose proof (wi_phase _ _ _ H) as Hp. unfold phase_ok in Hp. cbn [advance].
  destruct (x_phase x) as [|?| |l] eqn:Ep; try by apply winv_mono.
  destruct Hp as [Hx (evs & t & Hu & Hev & Ht & Hl)]. unfold read_link.
  destruct failed as [source|]; [by apply winv_fail_over|].
  destruct (is_empty (l_unread l) && attached_to (x_hub x) l) eqn:Ew; [by apply winv_mono|].
  destruct evs as [|e evs].
  - rewrite Hu. change (events_text [] +:+ t) with t. destruct (read_tail path (x_grants x) (l_socket l) t Ht) as [f ->].
    by apply winv_fail_over.
  - rewrite Hu. cbn [events_text]. rewrite <-append_assoc. apply Forall_cons in Hev as [[Hok Hk] Hev].
    destruct (read_event path (x_grants x) (l_socket l) e (events_text evs +:+ t) Hok) as [-> ->]. rewrite skip_append.
    apply (winv_side_op used n x (Observe (seen (l_socket l) e))); [done|done|by intros a [= <-]|].
    unfold phase_ok. cbn [x_phase set_side]. split; [done|]. exists evs, t. split_and!; [done|done|done|].
    cbn [x_hub x_broker x_behind set_side]. intros Ha. destruct (Hl Ha) as [Ht' Hl']. split; [done|]. intros Hb. specialize (Hl' Hb).
    destruct evs as [|e' evs].
    2: { rewrite last_cons_cons in Hl'. destruct (last (e' :: evs)) eqn:E; [done|]. by apply last_None in E. }
    simpl in Hl'. subst e. exact (observed (x_grants x) _).
Qed.

Lemma winv_set_flight used n x side flight :
  winv used n x → tidy (registry side) → authority (registry side) = authority (x_grants x) →
  (∀ f r, flight = Some f → f_redeemed f = Ok r → known used (x_broker x) (rg_authority r)) →
  (live_count (x_broker x) (registry side) + flight_count (x_broker x) flight + held CAP_BROWSER (s_state (x_broker x))
     ≤ length (touches CAP_BROWSER (s_history (x_broker x))))%nat →
  winv used n (set_flight x side flight).
Proof.
  intros [Hs Hi Hr Ht Ha Hf Hp Hh Hl] Ht' Ha' Hf' Hl'. split; try done.
  - unfold x_grants in *. cbn [x_side set_flight]. by rewrite Ha'.
  - unfold phase_ok, link_ok, x_grants in *. cbn [x_phase x_side x_broker x_next x_hub x_behind set_flight] in *. by rewrite Ha'.
Qed.

Lemma winv_redeem used n x pid anchor upstream request w caller d1 d2 hello answered lost :
  winv used n x → (n + 1 < 10 ^ 15)%Z →
  winv used (n + 1) (advance show path euid x (MRedeem pid anchor upstream request w caller d1 d2 hello answered lost)).
Proof.
  intros H Hn. cbn [advance]. destruct (x_flight x) eqn:Ef; [by apply winv_mono|].
  destruct anchor as [who|]; [|by apply winv_mono]. destruct upstream as [up|]; [|by apply winv_mono].
  destruct (ask_redeem _ _ _ _ _ _ _ _ _ _ _ _) as [b' res] eqn:E. pose proof (wi_ledger _ _ _ H) as Hl. rewrite Ef in Hl. cbn [flight_count] in Hl.
  apply ask_redeem_current in E; [|apply (wi_instance _ _ _ H)|apply (winv_epoch _ _ _ H); lia|apply H].
  destruct E as [[-> [e ->]]|(a & Ha & -> & Eh & Hr)].
  - apply winv_set_flight; [|apply H|done|by intros f r [= <-]|exact Hl].
    change (set_broker x (x_broker x) (x_behind x)) with
      {| x_broker := x_broker x; x_hub := x_hub x; x_next := x_next x; x_behind := x_behind x; x_side := x_side x;
         x_phase := x_phase x; x_flight := x_flight x |}. apply winv_mono. by destruct x.
  - destruct (winv_section used n x a H Hn Ha) as [H' _].
    pose proof (step_instance (x_broker x) a) as Ei. pose proof (step_epoch (x_broker x) a Ha) as Ee.
    apply winv_set_flight; [done|apply H|done| |].
    + intros f r [= <-] E. cbn [f_redeemed] in E. destruct (Hr r E) as (Hi1 & He1 & _). cbn [x_broker set_broker].
      split; [rewrite Hi1; apply (wi_instance _ _ _ H)|]. intros _. unfold epoch_of. lia.
    + cbn [x_broker set_broker flight_count f_redeemed]. rewrite Eh.
      destruct (counts_same (x_broker x) (System.step (x_broker x) a) (x_grants x) None Ei Ee) as [E1 _].
      unfold x_grants in *. rewrite E1. destruct res as [r|]; cbn [redeemed_count].
      * destruct (Hr r eq_refl) as (_ & _ & Hlt). destruct (is_current _ _); lia.
      * pose proof (wi_ledger _ _ _ H') as Hl'. unfold x_grants in *. cbn [x_broker set_broker x_flight x_side] in Hl'.
        rewrite Eh, E1, Ef in Hl'. cbn [flight_count] in Hl'. lia.
Qed.

Lemma winv_answer used n x slot calls :
  winv used n x → winv used (n + 1) (advance show path euid x (MAnswer slot calls)).
Proof.
  intros H. cbn [advance]. apply winv_mono in H. destruct (x_flight x) as [f|] eqn:Ef; [|done].
  destruct (answer_count (x_broker x) (f_pid f) (Some (f_anchor f)) (Some (f_upstream f)) (f_request f) slot (x_grants x)
    (with_redemption calls (f_redeemed f)) (wi_tidy _ _ _ H)) as (Ht & Ha & Hl). cbn [with_redemption redeemed] in Hl.
  pose proof (wi_ledger _ _ _ H) as Hl0. rewrite Ef in Hl0. cbn [flight_count] in Hl0.
  apply winv_set_flight; [done|exact Ht|exact Ha|done|]. cbn [flight_count registry set_registry_of]. lia.
Qed.

(** ** Every move *)
Lemma winv_advance used n x m :
  winv used n x → (0 ≤ n)%Z → (n + 1 < 10 ^ 15)%Z → (∀ i, i ∈ restarts [m] → i ∉ used) →
  winv (restarts [m] ++ used)%list (n + 1) (advance show path euid x m).
Proof.
  intros H H0 Hn Hfresh. destruct m; try change (restarts [_] ++ used)%list with used.
  - cbn [advance]. destruct (is_lock a) eqn:Ea; [|rewrite orb_false_r; by apply winv_section].
    destruct a as [w c r| | | |]; try done. destruct r; try done. rewrite orb_true_r. by apply winv_lock.
  - by apply winv_publish.
  - cbn [advance]. unfold restarts in *. cbn [omap list_omap] in *.
    destruct (random_instance_id urandom) as [instance|] eqn:E; [|by apply winv_mono].
    apply winv_restart; [done|done|by eapply random_instance_ok|]. apply Hfresh. left.
  - by apply winv_attach.
  - by apply winv_hello.
  - by apply winv_greet.
  - by apply winv_subscribe.
  - by apply winv_read.
  - by apply winv_redeem.
  - by apply winv_answer.
  - apply (winv_registry used n x (Live now id)); try done. simpl. unfold live. by repeat case_match.
  - by apply (winv_registry used n x (Expire id)).
  - apply (winv_registry used n x (RegisterPipe grant_id clones)); try done. simpl. unfold register_pipe. by repeat case_match.
  - apply (winv_registry used n x (DropGuard guard)); try done. simpl. unfold drop_guard. by repeat case_match.
Qed.

Lemma winv_play used n x l :
  winv used n x → (0 ≤ n)%Z → (n + Z.of_nat (length l) < 10 ^ 15)%Z → NoDup (restarts l ++ used)%list →
  ∃ used', winv used' (n + Z.of_nat (length l)) (play show path euid x l).
Proof.
  revert used n x. induction l as [|m l IH]; intros used n x H H0 Hn Hd.
  { exists used. by rewrite Z.add_0_r. }
  change (restarts (m :: l)) with (restarts ([m] ++ l)%list) in Hd. unfold restarts in Hd. rewrite omap_app in Hd.
  fold (restarts (P:=P) [m]) (restarts (P:=P) l) in Hd. cbn [length] in *.
  replace (n + Z.of_nat (S (length l)))%Z with ((n + 1) + Z.of_nat (length l))%Z by lia.
  apply (IH (restarts [m] ++ used)%list (n + 1)%Z); [|lia|lia|].
  - apply winv_advance; [done|done|lia|]. intros i Hi Hu.
    rewrite <-app_assoc, NoDup_app in Hd. destruct Hd as (_ & Hd & _). by apply (Hd i Hi), elem_of_app; right.
  - rewrite <-app_assoc in Hd. by rewrite (Permutation_app_swap_app (restarts l)).
Qed.

Lemma winv_new instance boot config l :
  instance_ok instance → winv [instance] 0 (Whole_new (P:=P) instance boot config l).
Proof.
  intros H. split; try done.
  - apply inv_new.
  - split; [done|]. left.
  - apply receipts_empty_wf.
  - split; [done|]. intros i [h Hi]. by apply (lookup_empty_Some (M:=gmap Z) i h) in Hi.
  - by intros s ?%not_elem_of_nil.
Qed.

(** ** What it gives *)

(** The registry is covered by [ids]: no more grants than ids, and with none
    left neither a grant nor a session through one. *)
Definition covered (ids : list RequestId) (g : BrowserGrants.Grants) : Prop :=
  (base.size (grants g) ≤ length ids)%nat ∧ (ids = [] → grants g = ∅ ∧ pipes g = ∅).

Lemma tidy_empty g : tidy g → grants g = ∅ → pipes g = ∅.
Proof.
  intros [_ Hp] Hg. apply map_empty. intros i. destruct (pipes g !! i) as [h|] eqn:E; [|done].
  destruct (Hp i) as [e He]; [by eexists|]. by rewrite Hg, lookup_empty in He.
Qed.

Lemma covered_invalidate ids g : covered ids (call g Invalidate).
Proof.
  unfold covered. destruct (call_frame g Invalidate) as (-> & -> & _). cbn [BrowserGrants.step].
  split; [|done]. change (grants _) with (∅ : gmap Z GrantEntry). rewrite map_size_empty. lia.
Qed.

Lemma caught_up_covered used n x :
  winv used n x → caught_up x = true → covered (touches CAP_BROWSER (s_history (x_broker x))) (x_grants x).
Proof.
  intros H. unfold caught_up. pose proof (wi_phase _ _ _ H) as Hp. unfold phase_ok in Hp.
  destruct (x_phase x) as [| | |l]; try done. intros [[Hu Ha]%andb_true_iff Hb]%andb_true_iff.
  apply negb_true_iff in Hb. destruct Hp as [_ (evs & t & Hun & _ & _ & Hl)]. destruct (Hl Ha) as [-> Hl']. specialize (Hl' Hb).
  assert (evs = []) as ->. { destruct evs as [|e evs]; [done|]. by rewrite Hun in Hu. }
  simpl in Hl'. pose proof (wi_ledger _ _ _ H) as Hc. unfold live_count in Hc. rewrite Hl' in Hc.
  assert (is_current (x_broker x) (seen (l_socket l) (current_pair (x_broker x))) = true) as Ec.
  { unfold is_current. simpl. rewrite bool_decide_eq_true_2, Z.eqb_refl by done. done. }
  rewrite Ec in Hc. split; [lia|]. intros E. rewrite E in Hc. simpl in Hc.
  assert (grants (x_grants x) = ∅) as Hg by (apply map_size_empty_inv; lia).
  split; [done|]. by apply tidy_empty; [apply H|].
Qed.

(** Reading on catches up, or finds the stream's end and ends everything. *)
Lemma catch_up now N : ∀ used n x l,
  winv used n x → x_phase x = Following l → x_behind x = false → (String.length (l_unread l) ≤ N)%nat →
  ∃ k, (k ≤ S N)%nat ∧
    let x' := play show path euid x (replicate k (MRead None now)) in
    x_broker x' = x_broker x ∧
    covered (touches CAP_BROWSER (s_history (x_broker x))) (x_grants x').
Proof.
  induction N as [N IH] using lt_wf_ind. intros used n x l H Ep Hb Hlen.
  pose proof (wi_phase _ _ _ H) as Hp. unfold phase_ok in Hp. rewrite Ep in Hp.
  destruct Hp as [Hx (evs & t & Hu & Hev & Ht & Hl)].
  destruct (is_empty (l_unread l) && attached_to (x_hub x) l) eqn:Ew.
  { exists 0%nat. split; [lia|]. split; [done|]. apply (caught_up_covered used n); [done|].
    change (caught_up x = true). unfold caught_up. by rewrite Ep, Ew, Hb. }
  destruct evs as [|e evs].
  - exists 1%nat. split; [lia|]. cbn [replicate play fold_left advance]. rewrite Ep. unfold read_link. rewrite Ew, Hu.
    change (events_text [] +:+ t) with t. destruct (read_tail path (x_grants x) (l_socket l) t Ht) as [f ->].
    split; [done|]. apply covered_invalidate.
  - pose proof (winv_read used n x None now H) as H'. apply Forall_cons in Hev as [[Hok _] _].
    destruct (read_event path (x_grants x) (l_socket l) e (events_text evs +:+ t) Hok) as [Er Eo].
    cbn [advance] in H'. rewrite Ep in H'. unfold read_link in H'. rewrite Ew, Hu in H'. cbn [events_text] in H'.
    rewrite <-append_assoc, Er, Eo, skip_append in H'.
    set (l' := {| l_stream := l_stream l; l_socket := l_socket l; l_unread := events_text evs +:+ t |}) in *.
    assert (String.length (l_unread l') < String.length (l_unread l))%nat as Hlt.
    { change (l_unread l') with (events_text evs +:+ t). rewrite Hu. cbn [events_text]. rewrite <-append_assoc, (length_append (authority_event e.1 e.2)).
      destruct (event_body e Hok) as (body & -> & _). rewrite !length_append. simpl. lia. }
    destruct (IH (String.length (l_unread l')) ltac:(lia) used (n + 1)%Z _ l' H' eq_refl Hb ltac:(lia)) as (k & Hk & Hbr & Hc).
    exists (S k). split; [lia|]. cbn [replicate play fold_left advance]. rewrite Ep. unfold read_link. rewrite Ew, Hu. cbn [events_text].
    rewrite <-append_assoc, Er, Eo, skip_append. exact (conj Hbr Hc).
Qed.
End invariant.

(** C4: a browser grant never outlives or outnumbers the touches it was given
    for.  Take the broker, its subscriber hub, the subscription worker, the
    grant socket and the registry as one system, in any interleaving, with
    calls and events crossing the wire as text, torn writes, lost replies,
    reconnections and restarts of the broker under new instances.  Then the
    grants for the browser capability that [forward serve] holds once its
    subscription has caught up are at most as many as the distinct requests
    whose capability key was decrypted by a touch since the broker's last
    LOCK, so after a LOCK with no touch since there is no grant and no session;
    and a subscription that is attached always gets there by reading: after at
    most one read per unread byte and one more, it has caught up or has found
    its end, and in both cases the registry is covered. *)
Theorem grants_backed_by_touches {P} show path euid urandom instance boot config limits (l : list (move (P:=P))) :
  random_instance_id urandom = Some instance →
  (Z.of_nat (length l) < 10 ^ 15)%Z → NoDup (restarts l ++ [instance])%list →
  let x := play show path euid (Whole_new instance boot config limits) l in
  let h := s_history (x_broker x) in
  let ids := touches CAP_BROWSER h in
  NoDup ids ∧
  (∀ id, id ∈ ids → ∃ scope value, EInstall id scope (key_name CAP_BROWSER) value ∈ since_lock h) ∧
  (caught_up x = true → covered ids (x_grants x)) ∧
  (∀ lk now, x_phase x = Following lk → x_behind x = false →
     ∃ k, (k ≤ S (String.length (l_unread lk)))%nat ∧
       let x' := play show path euid x (replicate k (MRead None now)) in
       x_broker x' = x_broker x ∧ covered ids (x_grants x')).
Proof.
  intros Hi Hn Hd x h ids. apply random_instance_ok in Hi.
  destruct (winv_play show path euid [instance] 0 (Whole_new instance boot config limits) l) as [used H];
    [by apply winv_new|done|lia|done|]. fold x in H.
  destruct (touches_ok CAP_BROWSER h (inv_history _ _ (wi_sys _ _ _ H))) as [Hnd Hin].
  split_and!; [done|done|by eapply caught_up_covered|].
  intros lk now Hp Hb. by eapply catch_up.
Qed.

(** * Instances *)

(** A session is authorized for the browser, [forward serve] attaches, redeems
    the receipt and records the grant; then the human locks. *)
Definition demo_urandom : option string := Some "0123456789abcdef".
Definition demo_instance : string := Eval vm_compute in default "" (random_instance_id demo_urandom).
Definition demo_peer (seen : BrokerIdentity) : Calls := {|
  label := None; redeemed := Err ReceiptRejected; Ceremony.minted := Some "dG9rZW4"; identity1 := Ok seen;
  ack := Some (line "OK"); identity2 := Ok seen; now := 0; clone := Some 3; reply_written := true |}.
Definition demo_identity : BrokerIdentity :=
  {| bi_instance := demo_instance; bi_epoch := 0; bi_socket := {| si_device := 1; si_inode := 2 |} |}.

Definition demo_moves : list (move (P:=Z)) :=
  (MBroker <$> cap_actions) ++
  [MHello (cap_world 100) 6%Z demo_dial true OtherKind; MGreet 101;
   MSubscribe demo_dial (Ok ()) (λ p, Some p) (λ _, true) true 6%Z false 0 102; MRead None 103;
   MRedeem 10 (Some demo_anchor) (Some (Peers.V4 100 64 0 2)) (3600, demo_hex, 9000)%Z (cap_world 104) 6%Z
     demo_dial demo_dial demo_hello true OtherKind;
   MAnswer demo_slot (demo_peer demo_identity)].

Definition demo_locked : list (move (P:=Z)) :=
  (demo_moves ++ [MBroker (ARequest (cap_world 110) 2%Z Lock); MPublish (λ p, Some p) (λ _, true) 0])%list.

Definition demo_play (l : list (move (P:=Z))) : Whole (P:=Z) :=
  play (λ _, "io") "/run/secretsd.sock" 1000 (Whole_new demo_instance "boot" System.demo_config demo_limits) l.
Lemma grants_backed_by_touches_witness :
  (base.size (grants (x_grants (demo_play demo_moves))) = 1%nat ∧ covered [1%Z] (x_grants (demo_play demo_moves))) ∧
  ∃ k, grants (x_grants (play (λ _, "io") "/run/secretsd.sock" 1000 (demo_play demo_locked) (replicate k (MRead None 120)))) = ∅.
Proof.
  split.
  - split; [by vm_compute|].
    destruct (grants_backed_by_touches (λ _, "io") "/run/secretsd.sock" 1000 demo_urandom demo_instance "boot"
      System.demo_config demo_limits demo_moves) as (_ & _ & H & _); [by vm_compute|by vm_compute| |].
    { apply (bool_decide_unpack _). by vm_compute. }
    apply H. by vm_compute.
  - destruct (grants_backed_by_touches (λ _, "io") "/run/secretsd.sock" 1000 demo_urandom demo_instance "boot"
      System.demo_config demo_limits demo_locked) as (_ & _ & _ & H); [by vm_compute|by vm_compute| |].
    { apply (bool_decide_unpack _). by vm_compute. }
    destruct (H {| l_stream := 0; l_socket := {| si_device := 1; si_inode := 2 |};
      l_unread := authority_event demo_instance 1 |} 120%Z) as (k & _ & _ & _ & Hk); [by vm_compute|by vm_compute|].
    exists k. apply Hk. by vm_compute.
Defined.
