(* ===== verification/Paths.v ===== *)
(** Paths as [std::path] reads them on Unix: components, joining, the last
    name and its extension.  A path is its bytes. *)

From stdpp Require Import prelude strings list.
From Stdlib Require Import ZArith Lia Ascii.
From S2P Require Import Prelude Text.

Local Open Scope string_scope.

Definition slash : ascii := "/"%char.

Inductive Component : Type :=
| RootDir
| CurDir
| ParentDir
| Normal (name : string).

#[global] Instance Component_eq_dec : EqDecision Component.
Proof. solve_decision. Defined.

Definition is_absolute (p : string) : bool := starts_with p "/".

(** A piece between slashes: empty ones and [.] say nothing. *)
Definition component_of (piece : string) : option Component :=
  if bool_decide (piece = "") || bool_decide (piece = ".") then None
  else if bool_decide (piece = "..") then Some ParentDir else Some (Normal piece).

(** [Path::components]: a leading [.] of a relative path is kept. *)
Definition components (p : string) : list Component :=
  if is_absolute p then RootDir :: omap component_of (split slash p)
  else match split slash p with
       | "." :: rest => CurDir :: omap component_of rest
       | pieces => omap component_of pieces
       end.

(** [Path::join]. *)
Definition join (base p : string) : string :=
  if is_absolute p then p
  else match last_byte base with
       | None => p
       | Some c => if bool_decide (c = slash) then base +:+ p else base +:+ "/" +:+ p
       end.

(** [Path::file_name]. *)
Definition path_file_name (p : string) : option string :=
  match last (components p) with Some (Normal name) => Some name | _ => None end.

(** [Path::extension]: nothing for [..], for a name without a dot and for a
    name whose only dot is its first byte. *)
Definition extension (p : string) : option string :=
  name ← path_file_name p;
  if bool_decide (name = "..") then None else
  '(before, after) ← rsplit_once "."%char name;
  if is_empty before then None else Some after.

(** * Facts *)
Lemma is_absolute_cons p : is_absolute p = true → ∃ q, p = String slash q.
Proof.
  unfold is_absolute, starts_with, is_some, is_some_and. destruct p as [|c p]; [done|].
  simpl. case_bool_decide; [|done]. subst. by eexists.
Qed.

Lemma is_absolute_slash q : is_absolute (String slash q) = true.
Proof. by destruct q. Qed.

Lemma split_app_sep d a b : split d (a +:+ String d b) = (split d a ++ split d b)%list.
Proof.
  induction a as [|c a IH]; simpl; [by rewrite bool_decide_eq_true_2|].
  rewrite IH. case_bool_decide; [done|].
  destruct (split d a) eqn:E; [by apply split_ne_nil in E|]. done.
Qed.

Lemma split_absolute p : split slash (String slash p) = "" :: split slash p.
Proof. done. Qed.

Lemma last_byte_None s : last_byte s = None → s = "".
Proof. by induction s as [|c [|d s] IH]; [|done|intros H%IH]. Qed.

(** What is added to an absolute path is added to its components. *)
Lemma components_join base p :
  is_absolute base = true → is_absolute p = false →
  components (join base p) = (components base ++ omap component_of (split slash p))%list.
Proof.
  intros Hb Hp. unfold join. rewrite Hp. destruct (is_absolute_cons _ Hb) as [q ->].
  destruct (last_byte (String slash q)) as [c|] eqn:El.
  2: { discriminate (last_byte_None _ El). }
  case_bool_decide as Hc.
  - subst c. apply last_byte_split in El as [s' Hs]. rewrite Hs.
    rewrite <-append_assoc, append_cons. change ("" +:+ p) with p.
    assert (is_absolute (s' +:+ String slash p) = true ∧ is_absolute (s' +:+ String slash "") = true) as [H1 H2].
    { destruct s' as [|d s']; [|injection Hs as <- _]; split; apply is_absolute_slash. }
    unfold components. rewrite H1, H2, !split_app_sep, !omap_app. simpl.
    by rewrite app_nil_r.
  - unfold components at 1 2. rewrite Hb.
    replace (is_absolute _) with true by (symmetry; apply is_absolute_slash).
    change (String slash q +:+ "/" +:+ p) with (String slash q +:+ String slash p).
    by rewrite split_app_sep, omap_app.
Qed.

Lemma is_absolute_join base p : is_absolute base = true → is_absolute (join base p) = true.
Proof.
  intros Hb. unfold join. destruct (is_absolute p) eqn:Hp; [done|].
  destruct (is_absolute_cons _ Hb) as [q ->].
  destruct (last_byte _) eqn:El; [case_bool_decide; apply is_absolute_slash|].
  discriminate (last_byte_None _ El).
Qed.

Lemma omap_component_of_not (l : list string) c : c ∈ omap component_of l → c ≠ CurDir ∧ c ≠ RootDir.
Proof.
  rewrite list_elem_of_omap. intros (x & _ & H). unfold component_of in H.
  repeat case_bool; simplify_eq; done.
Qed.
