(* ===== verification/Preview.v ===== *)
(** The file preview server of a devbox and the links to it
    ([crates/forward/src/serve.rs], [serve/security.rs],
    [serve/file_handler.rs], [render.rs], [target.rs]).

    The crates [percent_encoding], [url], [comrak], [mime_guess] and
    [tiny_http] are parameters; what the links rely on of the first two is
    stated as [percent_laws] and [url_laws].  The file system is a record of
    functions, so a reply is a function of the request and the file system. *)

From stdpp Require Import prelude strings list sorting.
From Stdlib Require Import ZArith Lia Ascii.
From S2P Require Import Prelude Text Paths Secret Store Peers Bridge Policy Leases Daemon.

Local Open Scope string_scope.

(** * Text *)
(** [str::replace] of one ASCII character. *)
Fixpoint replace (c : ascii) (by_ s : string) : string :=
  match s with
  | EmptyString => EmptyString
  | String d s' => (if bool_decide (d = c) then by_ else String d "") +:+ replace c by_ s'
  end.

Definition escape_html (value : string) : string :=
  replace squote "&#39;" (replace dquote "&quot;" (replace ">"%char "&gt;"
    (replace "<"%char "&lt;" (replace "&"%char "&amp;" value)))).

Definition MARKDOWN_HEAD : string := quoted "<!DOCTYPE html>
<html lang='en'>
<head>
    <meta charset='utf-8'>
    <meta name='viewport' content='width=device-width, initial-scale=1'>
    <title>".

Definition MARKDOWN_STYLE : string := quoted "</title>
    <link rel='stylesheet'
          href='https://cdn.jsdelivr.net/npm/github-markdown-css@5/github-markdown-dark.css'>
    <link rel='stylesheet'
          href='https://cdn.jsdelivr.net/gh/highlightjs/cdn-release@11/build/styles/github-dark.min.css'>
    <style>
        body {
            background: #0d1117;
            padding: 2rem;
            display: flex;
            justify-content: center;
        }
        .markdown-body {
            max-width: 980px;
            width: 100%;
            padding: 2rem;
        }
    </style>
</head>
<body>
    <article class='markdown-body'>
".

Definition MARKDOWN_TAIL : string := "    </article>
</body>
</html>".

(** * Percent-encoding sets *)
Definition CONTROLS (c : ascii) : bool := in_range 0 31 c || in_range 127 127 c.

Definition PATH_SEGMENT (c : ascii) : bool :=
  CONTROLS c ||
  bool_decide (c ∈ [" "%char; dquote; "#"%char; "%"%char; "<"%char; ">"%char; "?"%char; "\"%char; "`"%char;
                    "{"%char; "}"%char]).

Definition NON_ALPHANUMERIC (c : ascii) : bool := is_ascii c && negb (is_ascii_alphanumeric c).

(** * Requests, replies and the file system *)
Inductive Method : Type := Get | Head | OtherMethod.

Record HttpRequest : Type := {
  method : Method;
  target : string;
  remote : option IpAddr;
  req_headers : list (string * string);
}.

Record Reply : Type := {
  status : Z;
  content_type : string;
  body : string;
  headers : list (string * string);
}.

Definition reply (status : Z) (content_type body : string) : Reply :=
  {| status := status; content_type := content_type; body := body; headers := [] |}.

Definition with_header (r : Reply) (h : string * string) : Reply :=
  {| status := status r; content_type := content_type r; body := body r; headers := (headers r ++ [h])%list |}.

Definition HTML_CONTENT_TYPE : string := "text/html; charset=utf-8".
Definition TEXT_CONTENT_TYPE : string := "text/plain; charset=utf-8".
Definition HEALTH_PATH : string := "/.well-known/forward/health".
Definition HEALTH_BODY : string := "forward preview healthy" +:+ String newline "".
Definition MAX_FILE_SIZE : Z := 64 * 1024 * 1024.

Definition line (s : string) : string := s +:+ String newline "".

Definition RESPONSE_SECURITY_HEADERS : list (string * string) := [
  ("Content-Security-Policy",
   "sandbox; default-src 'none'; img-src 'self' data:; style-src 'self' 'unsafe-inline' https://cdn.jsdelivr.net; font-src https://cdn.jsdelivr.net");
  ("X-Content-Type-Options", "nosniff");
  ("Cross-Origin-Resource-Policy", "same-origin");
  ("Referrer-Policy", "no-referrer")].

Inductive FsError : Type := FsNotFound | FsOther.

Inductive Metadata : Type := IsDir | IsFile (len : Z) | IsOther.

(** One item of a directory being read: it may fail, and so may its type. *)
Inductive DirItem : Type :=
| BadEntry
| BadType (name : string)
| Entry (is_dir : bool) (name : string).

Record preview_fs : Type := {
  metadata : string → result FsError Metadata;
  read_file : string → result FsError string;
  list_dir : string → option (list DirItem);
}.

(** * Host header *)
Definition lower (s : string) : string := map_bytes to_ascii_lowercase s.

Definition is_port (s : string) : bool := is_some (parse_unsigned u16_max s).

Definition host_part (value : string) : option string :=
  match strip_prefix value "[" with
  | Some rest =>
      '(host, tail) ← split_once "]" rest;
      if is_empty tail || is_some_and is_port (strip_prefix tail ":") then Some host else None
  | None =>
      match split_once ":" value with
      | Some (host, port) => if is_port port then Some host else None
      | None => Some value
      end
  end.

(** * Directory listings *)
Definition entry_le (a b : bool * string) : Prop :=
  match a.1, b.1 with
  | true, false => True
  | false, true => False
  | _, _ => str_lt b.2 a.2 = false
  end.

#[global] Instance entry_le_dec : RelDecision entry_le.
Proof. intros [[] x] [[] y]; unfold entry_le; simpl; apply _. Defined.

Fixpoint collect_entries (items : list DirItem) : option (list (bool * string)) :=
  match items with
  | [] => Some []
  | BadEntry :: _ | BadType _ :: _ => None
  | Entry d name :: rest => es ← collect_entries rest; Some ((d, name) :: es)
  end.

Lemma str_lt_asym x y : str_lt x y = true → str_lt y x = true → False.
Proof.
  revert y. induction x as [|c x IH]; intros [|d y]; simpl; try done.
  intros [H|[H H']%andb_true_iff]%orb_true_iff [G|[G G']%andb_true_iff]%orb_true_iff; bool_to_prop;
    try lia; by eapply IH.
Qed.

Lemma entry_le_total : Total entry_le.
Proof.
  intros [[] x] [[] y]; unfold entry_le; simpl; auto;
    destruct (str_lt y x) eqn:E1, (str_lt x y) eqn:E2; auto; by destruct (str_lt_asym _ _ E1 E2).
Qed.

Section preview.
Context (parse : string → option IpAddr).
Context (percent_encode : (ascii → bool) → string → string) (percent_decode : string → string).
Context (parse_http : string → option (string * list (string * string))).
Context (markdown_to_html : string → string) (mime_guess : string → option string).
Context (header_from_bytes : string → string → option (string * string)).

(** * Who is answered *)
Definition loopback_health_probe (r : HttpRequest) : bool :=
  bool_decide (target r = HEALTH_PATH) && is_some_and (λ ip, is_loopback (to_canonical ip)) (remote r).

Definition peer_allowed (cfg : Config) (r : HttpRequest) : bool :=
  loopback_health_probe r || is_some_and (authorized_remote parse cfg) (remote r).

Definition host_value_allowed (cfg : Config) (value : option string) : bool :=
  match value with
  | None => false
  | Some value =>
      match host_part (lower value) with
      | None => false
      | Some host =>
          bool_decide (host = lower (listen cfg)) ||
          (match listen_ip parse cfg with Ok ip => is_loopback ip | Err _ => false end &&
           bool_decide (host ∈ ["localhost"; "127.0.0.1"; "::1"]))
      end
  end.

Definition host_header (r : HttpRequest) : option string :=
  snd <$> List.find (λ h, bool_decide (lower h.1 = "host")) (req_headers r).

Definition host_allowed (cfg : Config) (r : HttpRequest) : bool :=
  loopback_health_probe r || host_value_allowed cfg (host_header r).

(** * What is answered *)
Definition request_path (r : HttpRequest) : option (string * bool) :=
  '(path, pairs) ← parse_http ("http://forward.invalid/" +:+ target r);
  encoded ← strip_prefix path "/";
  let p := percent_decode encoded in
  if negb (is_absolute p) then None
  else Some (p, existsb (λ kv, bool_decide (kv = ("raw", "1"))) pairs).

(** [render::encode_path], for the links of a listing. *)
Definition render_encode_path (p : string) : string :=
  concat_sep "/" (percent_encode NON_ALPHANUMERIC <$> split slash p).

Definition markdown_reply (p source : string) : Reply :=
  let title := from_utf8_lossy (default p (path_file_name p)) in
  reply 200 HTML_CONTENT_TYPE
    (MARKDOWN_HEAD +:+ escape_html title +:+ MARKDOWN_STYLE +:+ markdown_to_html (from_utf8_lossy source) +:+
     String newline "" +:+ MARKDOWN_TAIL).

Definition is_markdown (p : string) : bool :=
  is_some_and (λ e, valid_utf8 e && bool_decide (lower e = "md")) (extension p).

Definition file_content_type (p : string) : string :=
  match mime_guess p with
  | None => TEXT_CONTENT_TYPE
  | Some essence => if starts_with essence "text/" then essence +:+ "; charset=utf-8" else essence
  end.

Definition file_reply (fs : preview_fs) (p : string) (raw : bool) (size : Z) : Reply :=
  if (MAX_FILE_SIZE <? size)%Z then reply 413 TEXT_CONTENT_TYPE (line "Payload Too Large") else
  match read_file fs p with
  | Err FsNotFound => reply 404 TEXT_CONTENT_TYPE (line "Not Found")
  | Err FsOther => reply 500 TEXT_CONTENT_TYPE (line "Internal Server Error")
  | Ok body =>
      if is_markdown p
      then if raw then reply 200 TEXT_CONTENT_TYPE body else markdown_reply p body
      else reply 200 (file_content_type p) body
  end.

Definition LISTING_HEAD : string :=
  quoted "<!DOCTYPE html><html><head><meta charset='utf-8'><title>Index</title></head><body><ul>".
Definition LISTING_TAIL : string := "</ul></body></html>".

Definition listing_item (dir : string) (e : bool * string) : string :=
  quoted "<li><a href='" +:+ render_encode_path (join dir e.2) +:+ quoted "'>" +:+
  escape_html (from_utf8_lossy e.2) +:+ (if e.1 then "/" else "") +:+ "</a></li>".

Definition directory_reply (fs : preview_fs) (p : string) : option Reply :=
  items ← list_dir fs p;
  entries ← collect_entries items;
  Some (reply 200 HTML_CONTENT_TYPE
          (foldl (λ document e, document +:+ listing_item p e) LISTING_HEAD (merge_sort entry_le entries) +:+
           LISTING_TAIL)).

Definition respond (cfg : Config) (fs : preview_fs) (r : HttpRequest) : Reply :=
  if negb (peer_allowed cfg r) then reply 403 TEXT_CONTENT_TYPE (line "Forbidden") else
  match method r with
  | OtherMethod =>
      let refusal := reply 405 TEXT_CONTENT_TYPE (line "Method Not Allowed") in
      match header_from_bytes "Allow" "GET, HEAD" with
      | Some h => with_header refusal h
      | None => refusal
      end
  | Get | Head =>
      if negb (host_allowed cfg r) then reply 403 TEXT_CONTENT_TYPE (line "Forbidden") else
      if bool_decide (target r = HEALTH_PATH) then reply 200 TEXT_CONTENT_TYPE HEALTH_BODY else
      match request_path r with
      | None => reply 400 TEXT_CONTENT_TYPE (line "Bad Request")
      | Some (p, raw) =>
          match metadata fs p with
          | Ok IsDir => default (reply 500 TEXT_CONTENT_TYPE (line "Internal Server Error")) (directory_reply fs p)
          | Ok (IsFile len) => file_reply fs p raw len
          | Ok IsOther => reply 404 TEXT_CONTENT_TYPE (line "Not Found")
          | Err FsNotFound => reply 404 TEXT_CONTENT_TYPE (line "Not Found")
          | Err FsOther => reply 500 TEXT_CONTENT_TYPE (line "Internal Server Error")
          end
      end
  end.

(** [Reply::into_response]: the headers of the response, in order. *)
Definition into_response (r : Reply) : list (string * string) :=
  let add hs h := match h with Some h => (hs ++ [h])%list | None => hs end in
  let security := foldl (λ hs h, add hs (header_from_bytes h.1 h.2)) [] RESPONSE_SECURITY_HEADERS in
  (add security (header_from_bytes "Content-Type" (content_type r)) ++ headers r)%list.

(** * Links *)
Inductive TargetError : Type :=
| TargetNotFound (path : string)
| Invalid (message : string)
| UnsupportedScheme (scheme : string).

(** [target::encode_path]. *)
Definition component_text (c : Component) : option string :=
  match c with
  | RootDir => None
  | CurDir => Some "."
  | ParentDir => Some ".."
  | Normal name => Some name
  end.

Definition target_encode_path (p : string) : string :=
  concat_sep "/" (percent_encode PATH_SEGMENT <$> omap component_text (components p)).

Definition preview_text (host : string) (files_port : Z) (abs : string) : string :=
  "http://" +:+ url_host (is_v6_literal parse) host +:+ ":" +:+ to_string files_port +:+ "/" +:+
  target_encode_path abs.

(** A parsed URL as [to_url] uses it. *)
Record TargetUrl : Type := {
  t_text : string;
  cannot_be_a_base : bool;
  t_scheme : string;
  to_file_path : option string;
  t_fragment : option string;
}.

Section to_url.
Context (url_parse : string → result string TargetUrl) (set_fragment : TargetUrl → option string → TargetUrl).
Context (canonicalize : string → result (FsError * string) string) (display : string → string).

Definition canonical_preview (host : string) (files_port : Z) (path : string) (fragment : option string) :
    result TargetError TargetUrl :=
  match canonicalize path with
  | Err (FsNotFound, _) => Err (TargetNotFound (display path))
  | Err (FsOther, e) => Err (Invalid (display path +:+ ": " +:+ e))
  | Ok abs =>
      match url_parse (preview_text host files_port abs) with
      | Err e => Err (Invalid e)
      | Ok preview => Ok (set_fragment preview fragment)
      end
  end.

Definition to_url (arg host : string) (files_port : Z) : result TargetError TargetUrl :=
  match url_parse arg with
  | Err _ => canonical_preview host files_port arg None
  | Ok url =>
      if cannot_be_a_base url then Err (UnsupportedScheme (t_scheme url)) else
      if negb (bool_decide (t_scheme url = "file")) then Ok url else
      match to_file_path url with
      | None => Err (Invalid (arg +:+ " is not a local file URL"))
      | Some path => canonical_preview host files_port path (t_fragment url)
      end
  end.

End to_url.

(** * Who can read a file *)

(** The tail of a [Host] value: nothing, or a port. *)
Definition port_tail (tail : string) : Prop :=
  tail = "" ∨ ∃ port, tail = ":" +:+ port ∧ is_port port = true.

(** A [Host] value that names the listener: its address, bracketed or not, or
    on a loopback listener a loopback name, with or without a port. *)
Definition names_listener (cfg : Config) (value : string) : Prop :=
  ∃ host tail,
    (lower value = host +:+ tail ∨ lower value = "[" +:+ host +:+ "]" +:+ tail) ∧ port_tail tail ∧
    (host = lower (listen cfg) ∨
     (host ∈ ["localhost"; "127.0.0.1"; "::1"] ∧ ∃ ip, listen_ip parse cfg = Ok ip ∧ is_loopback ip = true)).

Lemma host_part_form value host :
  host_part value = Some host →
  ∃ tail, (value = host +:+ tail ∨ value = "[" +:+ host +:+ "]" +:+ tail) ∧ port_tail tail.
Proof.
  unfold host_part. destruct (strip_prefix value "[") as [rest|] eqn:Ep.
  - apply strip_prefix_Some in Ep as ->. destruct (split_once "]" rest) as [[h tail]|] eqn:Es; [|done].
    apply split_once_Some in Es as ->. simpl. case_bool; [|done]. intros [= ->]. exists tail.
    split; [by right|]. destruct Hb as [Hb|Hb].
    + left. by destruct tail.
    + destruct (strip_prefix tail ":") as [port|] eqn:Et; [|done]. apply strip_prefix_Some in Et. right. eauto.
  - destruct (split_once ":" value) as [[h port]|] eqn:Es.
    + apply split_once_Some in Es. case_bool; [|done]. intros [= ->]. exists (":" +:+ port).
      split; [by left|]. right. eauto.
    + intros [= ->]. exists "". split; [left; by rewrite append_nil_r|by left].
Qed.

Lemma host_value_allowed_names cfg value :
  host_value_allowed cfg (Some value) = true → names_listener cfg value.
Proof.
  unfold host_value_allowed. destruct (host_part (lower value)) as [host|] eqn:Eh; [|done].
  destruct (host_part_form _ _ Eh) as (tail & Hform & Htail). intros H. exists host, tail.
  split; [done|]. split; [done|]. apply orb_true_iff in H as [H|H]; [left; by bool_to_prop|right].
  apply andb_true_iff in H as [H1 H2]. apply bool_decide_eq_true in H2. split; [done|].
  destruct (listen_ip parse cfg) as [ip|]; [|done]. eauto.
Qed.

(** C32: only the configured peer reads files.  A reply that depends on what is
    on disk was given to a request from a configured counterpart, with the
    method GET or HEAD, for something else than the health path, and with a
    [Host] header that names the listener, so a page that rebinds its name to
    this address is refused. *)
Theorem preview_needs_peer cfg r fs1 fs2 :
  respond cfg fs1 r ≠ respond cfg fs2 r →
  (∃ ip, remote r = Some ip ∧ authorized_remote parse cfg ip = true) ∧
  method r ≠ OtherMethod ∧ target r ≠ HEALTH_PATH ∧
  ∃ value, host_header r = Some value ∧ names_listener cfg value.
Proof.
  unfold respond. intros H. destruct (peer_allowed cfg r) eqn:Ep; [|done].
  assert (method r ≠ OtherMethod) as Hm by (intros E; by rewrite E in H).
  assert (negb (host_allowed cfg r) = false ∧ bool_decide (target r = HEALTH_PATH) = false) as [Hh Ht].
  { clear Ep. destruct (method r), (negb (host_allowed cfg r)), (bool_decide _); done. }
  assert (loopback_health_probe r = false) as Hl by (unfold loopback_health_probe; by rewrite Ht).
  unfold peer_allowed in Ep. unfold host_allowed in Hh. rewrite Hl in Ep, Hh. cbn [orb] in Ep, Hh.
  split; [|split; [done|]; split; [by apply bool_decide_eq_false in Ht|]].
  - destruct (remote r) as [ip|]; [|done]. eauto.
  - apply negb_false_iff in Hh. destruct (host_header r) as [v|]; [|done].
    eauto using host_value_allowed_names.
Qed.

(** * Nothing in a name becomes markup *)
Definition escape_char (c : ascii) : string :=
  if bool_decide (c = "&"%char) then "&amp;" else if bool_decide (c = "<"%char) then "&lt;"
  else if bool_decide (c = ">"%char) then "&gt;" else if bool_decide (c = dquote) then "&quot;"
  else if bool_decide (c = squote) then "&#39;" else String c "".

Fixpoint concat_map (f : ascii → string) (s : string) : string :=
  match s with EmptyString => EmptyString | String c s' => f c +:+ concat_map f s' end.

Lemma replace_append c b s t : replace c b (s +:+ t) = replace c b s +:+ replace c b t.
Proof. induction s as [|d s IH]; simpl; [done|]. by rewrite IH, append_assoc. Qed.

(** The five passes are one: no pass touches what an earlier one wrote. *)
Lemma escape_html_once s : escape_html s = concat_map escape_char s.
Proof.
  induction s as [|c s IH]; [done|]. rewrite <-(append_nil_r s) at 1.
  replace (String c (s +:+ "")) with (String c "" +:+ s) by (simpl; by rewrite append_nil_r).
  unfold escape_html in *. rewrite !replace_append, IH. cbn [concat_map]. f_equal.
  unfold escape_char. repeat (case_bool_decide; [by subst|]).
  assert (∀ d b, d ≠ c → replace d b (String c "") = String c "") as R
    by (intros d b Hd; simpl; by rewrite bool_decide_eq_false_2).
  by rewrite !R.
Qed.

(** The characters that end text or an attribute in HTML. *)
Definition is_markup (c : ascii) : bool :=
  bool_decide (c ∈ ["<"%char; ">"%char; dquote; squote]).

Fixpoint markup (s : string) : nat :=
  match s with EmptyString => 0 | String c s' => (if is_markup c then 1 else 0) + markup s' end.

Lemma markup_append s t : markup (s +:+ t) = (markup s + markup t)%nat.
Proof. induction s as [|c s IH]; simpl; [done|]. rewrite IH. lia. Qed.

Lemma escape_html_markup s : markup (escape_html s) = 0%nat.
Proof.
  rewrite escape_html_once. induction s as [|c s IH]; [done|]. cbn [concat_map].
  rewrite markup_append, IH, Nat.add_0_r. unfold escape_char. repeat (case_bool_decide; [done|]).
  simpl. unfold is_markup. rewrite bool_decide_eq_false_2; [done|].
  rewrite !not_elem_of_cons. split_and!; try done. apply not_elem_of_nil.
Qed.

(** * Percent-encoding *)
Definition hex_upper (n : Z) : ascii := to_ascii_uppercase (hex_digit n).

Definition escaped (c : ascii) : string :=
  String "%" (String (hex_upper (Z.shiftr (code c) 4)) (String (hex_upper (Z.land (code c) 15)) "")).

(** The documented behaviour of [percent_encode] and [percent_decode]: bytes of
    the set and bytes outside ASCII are escaped, a valid escape is read back,
    every other byte stands for itself. *)
Record percent_laws : Prop := {
  encode_nil set : percent_encode set "" = "";
  encode_cons set c s : percent_encode set (String c s) =
    (if set c || negb (is_ascii c) then escaped c else String c "") +:+ percent_encode set s;
  decode_nil : percent_decode "" = "";
  decode_escape h l x y s : to_digit 16 h = Some x → to_digit 16 l = Some y →
    percent_decode (String "%" (String h (String l s))) = String (char_of (16 * x + y)) (percent_decode s);
  decode_plain c s : c ≠ "%"%char → percent_decode (String c s) = String c (percent_decode s);
}.

(** The documented behaviour of [Url::parse] on an [http] URL whose path holds
    only path characters and no dot segment, escaped or not: the path is kept,
    up to escapes, and there is no query. *)
Definition path_text (c : ascii) : bool :=
  is_ascii_graphic c && negb (bool_decide (c ∈ [dquote; "#"%char; "<"%char; ">"%char; "?"%char; "\"%char; "`"%char;
                                                  "{"%char; "}"%char])).

Definition no_dot_segments (t : string) : Prop :=
  Forall (λ seg, percent_decode seg ≠ "." ∧ percent_decode seg ≠ "..") (split slash t).

Definition url_laws : Prop := ∀ t, all_bytes path_text t = true → no_dot_segments t →
  ∃ q, parse_http ("http://forward.invalid/" +:+ t) = Some ("/" +:+ q, []) ∧ percent_decode q = percent_decode t.

Lemma escaped_digits c :
  to_digit 16 (hex_upper (Z.shiftr (code c) 4)) = Some (Z.shiftr (code c) 4) ∧
  to_digit 16 (hex_upper (Z.land (code c) 15)) = Some (Z.land (code c) 15) ∧
  char_of (16 * Z.shiftr (code c) 4 + Z.land (code c) 15) = c ∧
  all_bytes (λ d, path_text d && negb (is_markup d) && negb (bool_decide (d = slash))) (escaped c) = true.
Proof. destruct c as [[] [] [] [] [] [] [] []]; vm_compute; done. Qed.

Section laws.
Context (Hpc : percent_laws).

Lemma decode_encode set s t :
  set "%"%char = true → percent_decode (percent_encode set s +:+ t) = s +:+ percent_decode t.
Proof using Hpc.
  intros Hp. induction s as [|c s IH]; [by rewrite (encode_nil Hpc)|].
  rewrite (encode_cons Hpc), <-append_assoc. destruct (set c || negb (is_ascii c)) eqn:Es.
  - destruct (escaped_digits c) as (H1 & H2 & H3 & _). unfold escaped. rewrite !append_cons.
    change ("" +:+ ?x) with x. rewrite (decode_escape Hpc _ _ _ _ _ H1 H2), H3, IH. done.
  - rewrite append_cons. change ("" +:+ ?x) with x. rewrite (decode_plain Hpc), IH; [done|].
    intros ->. by rewrite Hp in Es.
Qed.

Lemma decode_slash s : percent_decode (String slash s) = String slash (percent_decode s).
Proof using Hpc. by apply (decode_plain Hpc). Qed.

Lemma decode_encode_id set s : set "%"%char = true → percent_decode (percent_encode set s) = s.
Proof using Hpc.
  intros Hp. rewrite <-(append_nil_r (percent_encode set s)), decode_encode; [|done].
  by rewrite (decode_nil Hpc), append_nil_r.
Qed.

(** Encoded segments joined by slashes decode to the segments joined. *)
Lemma decode_joined set l t :
  set "%"%char = true →
  percent_decode (concat_sep "/" (percent_encode set <$> l) +:+ t) = concat_sep "/" l +:+ percent_decode t.
Proof using Hpc.
  intros Hp. induction l as [|w l IH]; [done|]. destruct l as [|w' l]; [by apply decode_encode|].
  cbn [fmap list_fmap concat_sep] in *. rewrite <-!append_assoc, decode_encode by done. f_equal.
  rewrite !(append_cons slash). change ("" +:+ ?x) with x. rewrite decode_slash. f_equal. apply IH.
Qed.

Lemma encode_all p set s :
  (∀ c, set c || negb (is_ascii c) = false → p c = true) →
  (∀ d, path_text d && negb (is_markup d) && negb (bool_decide (d = slash)) = true → p d = true) →
  all_bytes p (percent_encode set s) = true.
Proof using Hpc.
  intros H1 H2. induction s as [|c s IH]; [by rewrite (encode_nil Hpc)|].
  rewrite (encode_cons Hpc), all_bytes_append, IH, andb_true_r.
  destruct (set c || negb (is_ascii c)) eqn:Es.
  - eapply all_bytes_impl; [apply H2|]. apply escaped_digits.
  - simpl. by rewrite H1.
Qed.

End laws.

(** * Listings *)
Lemma markup_none s : all_bytes (λ c, negb (is_markup c)) s = true → markup s = 0%nat.
Proof.
  induction s as [|c s IH]; [done|]. simpl. intros [Hc Hs]%andb_true_iff.
  apply negb_true_iff in Hc. rewrite Hc. by apply IH.
Qed.

Lemma concat_sep_all p sep l :
  all_bytes p sep = true → Forall (λ w, all_bytes p w = true) l → all_bytes p (concat_sep sep l) = true.
Proof.
  intros Hs. induction 1 as [|w l Hw Hl IH]; [done|]. destruct l as [|w' l]; [done|].
  cbn [concat_sep] in *. by rewrite !all_bytes_append, Hw, Hs, IH.
Qed.

Lemma foldl_items (f : bool * string → string) start l :
  foldl (λ document e, document +:+ f e) start l = start +:+ concat_sep "" (f <$> l).
Proof.
  revert start. induction l as [|e l IH]; intros start; [symmetry; apply append_nil_r|].
  cbn [foldl fmap list_fmap]. rewrite IH, <-append_assoc. f_equal.
  destruct l as [|e' l]; [apply append_nil_r|]. done.
Qed.

Lemma markup_concat (l : list string) k :
  Forall (λ w, markup w = k) l → markup (concat_sep "" l) = (length l * k)%nat.
Proof.
  induction 1 as [|w l Hw Hl IH]; [done|]. destruct l as [|w' l]; [simpl; lia|].
  cbn [concat_sep length] in *. rewrite markup_append, markup_append, IH, Hw. simpl. lia.
Qed.

Section listings.
Context (Hpc : percent_laws).

Lemma render_markup p : markup (render_encode_path p) = 0%nat.
Proof using Hpc.
  apply markup_none, concat_sep_all; [by vm_compute|]. apply Forall_fmap, Forall_true. intros w.
  apply (encode_all Hpc).
  - intros c [Hc Ha]%orb_false_iff. unfold NON_ALPHANUMERIC in Hc. apply negb_false_iff in Ha.
    rewrite Ha in Hc. simpl in Hc. apply negb_false_iff in Hc. revert Hc.
    destruct c as [[] [] [] [] [] [] [] []]; by vm_compute.
  - by intros d [[_ Hd]%andb_true_iff _]%andb_true_iff.
Qed.

Lemma split_join d s : concat_sep (String d "") (split d s) = s.
Proof.
  induction s as [|c s IH]; [done|]. simpl. case_bool_decide as Hc.
  - subst. destruct (split d s) as [|w ws] eqn:E; [by apply split_ne_nil in E|].
    cbn [concat_sep]. change ("" +:+ ?x) with x. rewrite append_cons. change ("" +:+ ?x) with x. by f_equal.
  - destruct (split d s) as [|w ws] eqn:E; [by apply split_ne_nil in E|].
    destruct ws as [|w' ws]; cbn [concat_sep] in *; [by f_equal|]. rewrite append_cons. by f_equal.
Qed.

Lemma decode_render p : percent_decode (render_encode_path p) = p.
Proof using Hpc.
  unfold render_encode_path. rewrite <-(append_nil_r (concat_sep _ _)), (decode_joined Hpc); [|by vm_compute].
  by rewrite (decode_nil Hpc), append_nil_r, (split_join slash).
Qed.

(** A listing says what is in the directory and nothing else.  Its items
    are the directory's entries, directories first and then by name; each
    link decodes to the entry's path; and however the entries are named, the
    document holds exactly the template's markup characters, so no file name
    becomes markup or leaves its attribute. *)
Lemma listing_is_safe fs p r :
  directory_reply fs p = Some r →
  ∃ items entries shown,
    list_dir fs p = Some items ∧ collect_entries items = Some entries ∧
    shown ≡ₚ entries ∧ Sorted entry_le shown ∧
    body r = LISTING_HEAD +:+ concat_sep "" (listing_item p <$> shown) +:+ LISTING_TAIL ∧
    markup (body r) = (markup LISTING_HEAD + length entries * 10 + markup LISTING_TAIL)%nat ∧
    Forall (λ e, percent_decode (render_encode_path (join p e.2)) = join p e.2) shown.
Proof using Hpc.
  unfold directory_reply. destruct (list_dir fs p) as [items|]; [|done]. simpl.
  destruct (collect_entries items) as [entries|] eqn:Ee; [|done]. simpl. intros [= <-].
  exists items, entries, (merge_sort entry_le entries).
  pose proof (merge_sort_Permutation entry_le entries) as Hperm.
  split_and!; [done..| | | | |].
  - done.
  - apply Sorted_merge_sort, entry_le_total.
  - simpl. by rewrite foldl_items, append_assoc.
  - cbn [body reply]. rewrite foldl_items, !markup_append, (markup_concat _ 10).
    + by rewrite length_fmap, Hperm.
    + apply Forall_fmap, Forall_true. intros [d name]. unfold listing_item, compose. cbn [fst snd].
      rewrite !markup_append, render_markup, escape_html_markup. by destruct d; vm_compute.
  - apply Forall_true. intros e. apply decode_render.
Qed.

End listings.

(** * Links lead back *)

(** The names of a canonical path below the root. *)
Definition canonical_name (n : string) : Prop := n ≠ "" ∧ n ≠ "." ∧ n ≠ ".." ∧ contains_byte slash n = false.

Definition path_of (names : list string) : string := String slash (concat_sep "/" names).

Lemma split_names names :
  names ≠ [] → Forall (λ n, contains_byte slash n = false) names → split slash (concat_sep "/" names) = names.
Proof.
  intros Hne Hn. induction Hn as [|n names Hn Hns IH]; [done|].
  destruct names as [|m names]; [by apply split_clean|].
  change (concat_sep "/" (n :: m :: names)) with (n +:+ String slash (concat_sep "/" (m :: names))).
  rewrite split_app_sep, split_clean by done. by rewrite IH.
Qed.

Lemma path_of_components names :
  names ≠ [] → Forall canonical_name names → components (path_of names) = RootDir :: (Normal <$> names).
Proof.
  intros Hne Hn. unfold components, path_of. rewrite is_absolute_slash. f_equal.
  rewrite split_absolute, split_names; [|done|].
  2: { eapply Forall_impl; [done|]. by intros n (_ & _ & _ & H). }
  cbn [omap list_omap]. change (component_of "") with (@None Component). cbv iota.
  clear Hne. induction Hn as [|n names (H1 & H2 & H3 & _) _ IH]; [done|].
  cbn [omap list_omap fmap list_fmap]. unfold component_of at 1.
  rewrite !bool_decide_eq_false_2 by done. cbn [orb]. by rewrite IH.
Qed.

Lemma component_names names : omap component_text (RootDir :: (Normal <$> names)) = names.
Proof. cbn [omap list_omap component_text]. induction names as [|n l IH]; [done|]. cbn. by rewrite IH. Qed.

Lemma target_link names :
  names ≠ [] → Forall canonical_name names →
  target_encode_path (path_of names) = concat_sep "/" (percent_encode PATH_SEGMENT <$> names).
Proof. intros. unfold target_encode_path. by rewrite path_of_components, component_names. Qed.

Section links.
Context (Hpc : percent_laws) (Hurl : url_laws).

Lemma render_link names :
  names ≠ [] → Forall canonical_name names →
  render_encode_path (path_of names) = String slash (concat_sep "/" (percent_encode NON_ALPHANUMERIC <$> names)).
Proof using Hpc.
  intros Hne Hn. unfold render_encode_path, path_of. rewrite split_absolute, split_names; [|done|].
  - rewrite fmap_cons, (encode_nil Hpc). by destruct names.
  - eapply Forall_impl; [done|]. by intros n (_ & _ & _ & H).
Qed.

(** A set that leaves only path characters and escapes the escape. *)
Definition link_set (set : ascii → bool) : Prop :=
  set "%"%char = true ∧ ∀ c, set c || negb (is_ascii c) = false → c ≠ slash → path_text c = true.

Lemma link_sets : link_set PATH_SEGMENT ∧ link_set NON_ALPHANUMERIC.
Proof.
  split; (split; [by vm_compute|]); intros c; destruct c as [[] [] [] [] [] [] [] []]; by vm_compute.
Qed.

Lemma encode_no_slash set n :
  link_set set → contains_byte slash n = false →
  all_bytes path_text (percent_encode set n) = true ∧ contains_byte slash (percent_encode set n) = false.
Proof using Hpc.
  intros [_ Hset] Hn. induction n as [|c n IH]; [by rewrite (encode_nil Hpc)|].
  unfold contains_byte, any_byte in *. cbn [all_bytes] in Hn.
  apply negb_false_iff, andb_true_iff in Hn as [Hc Hn].
  destruct IH as [IH1 IH2]; [by apply negb_false_iff|]. apply negb_false_iff in IH2.
  rewrite (encode_cons Hpc), !all_bytes_append, IH1, IH2, !andb_true_r, negb_false_iff.
  destruct (set c || negb (is_ascii c)) eqn:Es.
  - destruct (escaped_digits c) as (_ & _ & _ & He).
    split; (eapply all_bytes_impl; [|exact He]); intros d [[H1 _]%andb_true_iff H2]%andb_true_iff; done.
  - cbn [all_bytes]. rewrite andb_true_r. split; [|by rewrite Hc].
    apply Hset; [done|]. intros ->. by rewrite bool_decide_eq_true_2 in Hc.
Qed.

Lemma encoded_clean set names :
  link_set set → Forall canonical_name names →
  Forall (λ w, contains_byte slash w = false) (percent_encode set <$> names) ∧
  Forall (λ w, all_bytes path_text w = true) (percent_encode set <$> names).
Proof using Hpc.
  intros Hset Hn. rewrite !Forall_fmap. split; (eapply Forall_impl; [exact Hn|]);
    intros n (_ & _ & _ & Hs); by apply encode_no_slash.
Qed.

(** A request whose target is path text asks for the path it decodes to. *)
Lemma text_path t names m ip hs :
  all_bytes path_text t = true → no_dot_segments t → percent_decode t = concat_sep "/" names →
  request_path {| method := m; target := String slash t; remote := ip; req_headers := hs |} = Some (path_of names, false).
Proof using Hpc Hurl.
  intros Ht Hd Hdec.
  destruct (Hurl (String slash t)) as (q & Hq & Hq').
  { cbn [all_bytes]. apply andb_true_iff. by split; [vm_compute|]. }
  { unfold no_dot_segments. rewrite split_absolute. constructor; [by rewrite (decode_nil Hpc)|done]. }
  unfold request_path. cbn [target].
  rewrite Hq. cbn [mbind option_bind]. rewrite strip_prefix_append. cbn [mbind option_bind].
  assert (percent_decode q = path_of names) as -> by (by rewrite Hq', (decode_slash Hpc), Hdec).
  unfold path_of. rewrite is_absolute_slash. done.
Qed.

Lemma encoded_text set names :
  link_set set → names ≠ [] → Forall canonical_name names →
  let t := concat_sep "/" (percent_encode set <$> names) in
  all_bytes path_text t = true ∧ no_dot_segments t ∧ percent_decode t = concat_sep "/" names.
Proof using Hpc.
  intros Hset Hne Hn. destruct (encoded_clean set names Hset Hn) as [Hsl Htext]. cbv zeta. split_and!.
  - by apply concat_sep_all.
  - unfold no_dot_segments. rewrite split_names; [|by destruct names|done]. apply Forall_fmap.
    eapply Forall_impl; [exact Hn|]. intros n (_ & H2 & H3 & _). unfold compose.
    rewrite (decode_encode_id Hpc) by apply Hset. done.
  - rewrite <-(append_nil_r (concat_sep _ (percent_encode set <$> names))), (decode_joined Hpc) by apply Hset.
    by rewrite (decode_nil Hpc), append_nil_r.
Qed.

(** A link with either encoding, followed, asks for the path it was made of. *)
Lemma link_path set names m ip hs :
  link_set set → names ≠ [] → Forall canonical_name names →
  request_path {| method := m; target := String slash (concat_sep "/" (percent_encode set <$> names));
                  remote := ip; req_headers := hs |} = Some (path_of names, false).
Proof using Hpc Hurl.
  intros Hset Hne Hn. destruct (encoded_text set names Hset Hne Hn) as (H1 & H2 & H3). by apply text_path.
Qed.

(** * The host of a link *)
Definition v4_text (c : ascii) : bool := is_ascii_digit c || bool_decide (c = "."%char).
Definition v6_text (c : ascii) : bool :=
  is_ascii_hexdigit c || bool_decide (c = ":"%char) || bool_decide (c = "."%char).

(** Address literals hold digits, dots and, for IPv6, colons. *)
Definition literal_laws : Prop := ∀ s,
  match parse s with
  | Some (Peers.V4 _ _ _ _) => all_bytes v4_text s = true
  | Some (Peers.V6 _ _ _ _ _ _ _ _) => all_bytes v6_text s = true
  | None => True
  end.

Lemma lower_append s t : lower (s +:+ t) = lower s +:+ lower t.
Proof. induction s as [|c s IH]; [done|]. unfold lower in *. simpl. by rewrite IH. Qed.

Lemma lower_digits s : all_bytes is_ascii_digit s = true → lower s = s.
Proof.
  intros H. apply map_bytes_id. revert H. apply all_bytes_impl. intros c.
  destruct c as [[] [] [] [] [] [] [] []]; by vm_compute.
Qed.

Lemma lower_lacks (p : ascii → bool) d s :
  (∀ c, p c = true → to_ascii_lowercase c ≠ d) → all_bytes p s = true → contains_byte d (lower s) = false.
Proof.
  intros Hp Hs. apply contains_byte_false. unfold lower. rewrite all_bytes_map. revert Hs. apply all_bytes_impl.
  intros c Hc. apply negb_true_iff, bool_decide_eq_false_2. by apply Hp.
Qed.

Lemma host_of_link cfg port :
  literal_laws → (∃ ip, listen_ip parse cfg = Ok ip) → (0 <= port <= u16_max)%Z →
  host_value_allowed cfg (Some (url_host (is_v6_literal parse) (listen cfg) +:+ ":" +:+ to_string port)) = true.
Proof.
  intros Hlit [ip Hip] Hport. unfold host_value_allowed.
  assert (is_port (to_string port) = true) as Hp.
  { unfold is_port. by rewrite parse_unsigned_to_string. }
  assert (host_part (lower (url_host (is_v6_literal parse) (listen cfg) +:+ ":" +:+ to_string port)) =
          Some (lower (listen cfg))) as ->; [|by rewrite bool_decide_eq_true_2].
  rewrite !lower_append, (lower_digits (to_string port)) by (apply to_string_digits; lia).
  unfold listen_ip, parse_ip in Hip. specialize (Hlit (listen cfg)). unfold url_host, is_v6_literal.
  destruct (parse (listen cfg)) as [[]|]; [| |done].
  - unfold host_part. change (lower ":" +:+ ?x) with (String ":" x). rewrite (split_once_char ":"%char).
    2: { eapply lower_lacks, Hlit. intros ch. destruct ch as [[] [] [] [] [] [] [] []]; by vm_compute. }
    rewrite Hp. destruct (strip_prefix _ "[") as [rest|] eqn:E; [exfalso|done].
    apply strip_prefix_Some in E.
    assert (contains_byte "["%char (lower (listen cfg)) = false) as Hb.
    { eapply lower_lacks, Hlit. intros ch. destruct ch as [[] [] [] [] [] [] [] []]; by vm_compute. }
    destruct (lower (listen cfg)) as [|ch s]; [done|]. simpl in E. by simplify_eq.
  - rewrite !lower_append. unfold host_part.
    change (lower "[") with "[". change (lower "]") with "]". change (lower ":") with ":".
    rewrite <-!append_assoc, strip_prefix_append. change ("]" +:+ ?x) with (String "]" x). rewrite (split_once_char "]"%char).
    2: { eapply lower_lacks, Hlit. intros ch. destruct ch as [[] [] [] [] [] [] [] []]; by vm_compute. }
    cbn [mbind option_bind]. rewrite strip_prefix_append. cbn [is_some_and]. by rewrite Hp, orb_true_r.
Qed.

(** ** The URL of a link *)
Section target_url.
Context (url_parse : string → result string TargetUrl) (set_fragment : TargetUrl → option string → TargetUrl).
Context (canonicalize : string → result (FsError * string) string) (display : string → string).

(** The documented behaviour of the URL library on what [to_url] gives it.
    [canonical] are the hosts that are written as they are given: addresses in
    the form a URL has them.  The path keeps its text up to escapes; [http]'s
    own port would be dropped; a fragment is added behind a ["#"]. *)
Record link_laws (canonical : string → Prop) : Prop := {
  parse_keeps host port t :
    canonical host → (0 <= port <= u16_max)%Z → port ≠ 80%Z → all_bytes path_text t = true → no_dot_segments t →
    ∃ u t', url_parse ("http://" +:+ host +:+ ":" +:+ to_string port +:+ "/" +:+ t) = Ok u ∧
      t_text u = "http://" +:+ host +:+ ":" +:+ to_string port +:+ "/" +:+ t' ∧ t_fragment u = None ∧
      all_bytes path_text t' = true ∧ no_dot_segments t' ∧ percent_decode t' = percent_decode t;
  fragment_added u f : t_fragment u = None →
    t_text (set_fragment u f) = t_text u ∨ ∃ f', t_text (set_fragment u f) = t_text u +:+ "#" +:+ f';
}.

(** The argument names a local file: as a path, or as a file URL. *)
Definition names_file (arg p : string) : Prop :=
  ((∃ e, url_parse arg = Err e) ∧ p = arg) ∨
  (∃ url, url_parse arg = Ok url ∧ cannot_be_a_base url = false ∧ t_scheme url = "file" ∧ to_file_path url = Some p).

Lemma to_url_preview arg p abs host port :
  names_file arg p → canonicalize p = Ok abs →
  ∃ fragment, to_url url_parse set_fragment canonicalize display arg host port =
    match url_parse (preview_text host port abs) with
    | Err e => Err (Invalid e)
    | Ok preview => Ok (set_fragment preview fragment)
    end.
Proof.
  unfold to_url, canonical_preview. intros [[[e He] ->]|(url & Hu & Hb & Hf & Hp)] Hc.
  - exists None. by rewrite He, Hc.
  - exists (t_fragment url). rewrite Hu, Hb, bool_decide_eq_true_2 by done. cbn [negb]. by rewrite Hp, Hc.
Qed.

(** The URL [to_url] makes for a canonical path. *)
Lemma to_url_text canonical arg p names host port :
  link_laws canonical → canonical (url_host (is_v6_literal parse) host) → (0 <= port <= u16_max)%Z → port ≠ 80%Z →
  names_file arg p → canonicalize p = Ok (path_of names) → names ≠ [] → Forall canonical_name names →
  ∃ u t tail, to_url url_parse set_fragment canonicalize display arg host port = Ok u ∧
    t_text u = "http://" +:+ (url_host (is_v6_literal parse) host +:+ ":" +:+ to_string port) +:+ String slash t +:+ tail ∧
    (tail = "" ∨ ∃ f, tail = "#" +:+ f) ∧
    all_bytes path_text t = true ∧ no_dot_segments t ∧ percent_decode t = concat_sep "/" names.
Proof using Hpc.
  intros Hlaws Hcan Hport H80 Harg Hc Hne Hn. destruct (to_url_preview arg p _ host port Harg Hc) as [fragment ->].
  destruct link_sets as [Hps _]. destruct (encoded_text PATH_SEGMENT names Hps Hne Hn) as (H1 & H2 & H3).
  destruct (parse_keeps _ Hlaws _ port _ Hcan Hport H80 H1 H2) as (u & t' & Hu & Ht & Hf & H4 & H5 & H6).
  unfold preview_text. rewrite target_link by done. rewrite Hu. exists (set_fragment u fragment), t'.
  destruct (fragment_added _ Hlaws u fragment Hf) as [Hs|[f Hs]]; rewrite Hs, Ht.
  - exists "". split_and!; try done; [|by left|by rewrite H6]. by rewrite append_nil_r, <-!append_assoc.
  - exists ("#" +:+ f). split_and!; try done; [|by right; exists f|by rewrite H6]. by rewrite <-!append_assoc.
Qed.


End target_url.

End links.

(** The documented behaviour of [Header::from_bytes]: ASCII is taken as it is. *)
Definition header_laws : Prop := ∀ name value, all_bytes is_ascii name && all_bytes is_ascii value = true →
  header_from_bytes name value = Some (name, value).

Lemma headers_kept acc hs :
  header_laws → Forall (λ h, all_bytes is_ascii h.1 && all_bytes is_ascii h.2 = true) hs →
  foldl (λ l h, match header_from_bytes h.1 h.2 with Some h => (l ++ [h])%list | None => l end) acc hs =
  (acc ++ hs)%list.
Proof.
  intros H Hs. revert acc. induction Hs as [|[n v] hs Hh _ IH]; intros acc; [symmetry; apply app_nil_r|].
  cbn [foldl]. rewrite (H _ _ Hh), IH, <-app_assoc. done.
Qed.

(** Every response is sandboxed.  Whatever is answered, file, listing or
    refusal, the response opens with the four headers that sandbox it. *)
Lemma responses_sandboxed cfg fs r :
  header_laws → ∃ rest, into_response (respond cfg fs r) = (RESPONSE_SECURITY_HEADERS ++ rest)%list.
Proof.
  intros H. unfold into_response. cbv zeta. rewrite (headers_kept [] _ H).
  2: { unfold RESPONSE_SECURITY_HEADERS. repeat constructor. }
  cbn [app]. destruct (header_from_bytes "Content-Type" _); [|by eexists].
  rewrite <-app_assoc. by eexists.
Qed.

End preview.

(** * Witnesses *)
Fixpoint demo_encode (set : ascii → bool) (s : string) : string :=
  match s with
  | EmptyString => EmptyString
  | String c s' => (if set c || negb (is_ascii c) then escaped c else String c "") +:+ demo_encode set s'
  end.

Fixpoint demo_decode (s : string) : string :=
  match s with
  | EmptyString => EmptyString
  | String c s' =>
      if bool_decide (c = "%"%char) then
        match s' with
        | String h (String l rest) =>
            match to_digit 16 h, to_digit 16 l with
            | Some x, Some y => String (char_of (16 * x + y)) (demo_decode rest)
            | _, _ => String c (demo_decode s')
            end
        | _ => String c (demo_decode s')
        end
      else String c (demo_decode s')
  end.

Lemma demo_percent_laws : percent_laws demo_encode demo_decode.
Proof.
  split; [done..| |].
  - intros h l x y s Hx Hy. cbn [demo_decode]. by rewrite Hx, Hy.
  - intros c s Hc. cbn [demo_decode]. by rewrite bool_decide_eq_false_2.
Qed.

Definition demo_http (s : string) : option (string * list (string * string)) :=
  t ← strip_prefix s "http://forward.invalid/"; Some ("/" +:+ t, []).

Lemma demo_url_laws : url_laws demo_decode demo_http.
Proof. intros t _ _. exists t. split; [|done]. unfold demo_http. by rewrite strip_prefix_append. Qed.

Lemma demo_literal_laws : literal_laws demo_parse.
Proof. intros s. unfold demo_parse. repeat (case_bool_decide; [by subst; vm_compute|]). done. Qed.

Definition demo_names : list string := ["home"; "me"; "a b.txt"].

Definition demo_disk (content : string) : preview_fs := {|
  metadata := λ p, if bool_decide (p = path_of demo_names) then Ok (IsFile (slen content))
                   else if bool_decide (p = "/home/me") then Ok IsDir else Err FsNotFound;
  read_file := λ p, if bool_decide (p = path_of demo_names) then Ok content else Err FsNotFound;
  list_dir := λ p, if bool_decide (p = "/home/me") then Some [Entry false "<b>"; Entry true "z"] else None;
|}.

Definition demo_respond : Config → preview_fs → HttpRequest → Reply :=
  respond demo_parse demo_encode demo_decode demo_http (λ s, s) (λ _, None) (λ n v, Some (n, v)).

Definition demo_http_request : HttpRequest := {|
  method := Get; target := "/home/me/a%20b.txt"; remote := Some (V4 100 64 0 2);
  req_headers := [("host", "100.64.0.1:12802")];
|}.

Lemma preview_needs_peer_witness :
  (∃ ip, remote demo_http_request = Some ip ∧ authorized_remote demo_parse demo_config ip = true) ∧
  method demo_http_request ≠ OtherMethod ∧ target demo_http_request ≠ HEALTH_PATH ∧
  ∃ value, host_header demo_http_request = Some value ∧ names_listener demo_parse demo_config value.
Proof.
  apply (preview_needs_peer demo_parse demo_encode demo_decode demo_http (λ s, s) (λ _, None)
           (λ n v, Some (n, v)) demo_config demo_http_request (demo_disk "x") (demo_disk "y")).
  by vm_compute.
Defined.

Lemma listing_is_safe_witness :
  ∃ r items entries shown,
    directory_reply demo_encode (demo_disk "x") "/home/me" = Some r ∧
    list_dir (demo_disk "x") "/home/me" = Some items ∧ collect_entries items = Some entries ∧
    shown ≡ₚ entries ∧ Sorted entry_le shown ∧
    body r = LISTING_HEAD +:+ concat_sep "" (listing_item demo_encode "/home/me" <$> shown) +:+ LISTING_TAIL ∧
    markup (body r) = (markup LISTING_HEAD + length entries * 10 + markup LISTING_TAIL)%nat ∧
    Forall (λ e, demo_decode (render_encode_path demo_encode (join "/home/me" e.2)) = join "/home/me" e.2) shown.
Proof.
  destruct (directory_reply demo_encode (demo_disk "x") "/home/me") as [r|] eqn:E; [|by vm_compute in E].
  destruct (listing_is_safe demo_encode demo_decode demo_percent_laws _ _ _ E) as (items & entries & shown & H).
  exists r, items, entries, shown. exact (conj eq_refl H).
Defined.

(** A URL library that takes [http] URLs as they are. *)
Definition demo_url_parse (s : string) : result string TargetUrl :=
  if starts_with s "http://"
  then Ok {| t_text := s; cannot_be_a_base := false; t_scheme := "http"; to_file_path := None; t_fragment := None |}
  else Err "relative URL without a base".

Definition demo_set_fragment (u : TargetUrl) (f : option string) : TargetUrl :=
  {| t_text := t_text u +:+ match f with None => "" | Some f => "#" +:+ f end;
     cannot_be_a_base := cannot_be_a_base u; t_scheme := t_scheme u; to_file_path := to_file_path u; t_fragment := f |}.

Lemma demo_link_laws : link_laws demo_decode demo_url_parse demo_set_fragment (λ _, True).
Proof.
  split.
  - intros host port t _ _ _ Ht Hd. unfold demo_url_parse, starts_with. rewrite strip_prefix_append. cbn [is_some].
    by eexists _, t.
  - intros u [f|] _; cbn [t_text demo_set_fragment]; [right; by exists f|left; apply append_nil_r].
Qed.


Lemma responses_sandboxed_witness :
  ∃ rest, into_response (λ n v, Some (n, v)) (demo_respond demo_config (demo_disk "x") demo_http_request) =
          (RESPONSE_SECURITY_HEADERS ++ rest)%list.
Proof.
  apply (responses_sandboxed demo_parse demo_encode demo_decode demo_http (λ s, s) (λ _, None) (λ n v, Some (n, v))).
  by intros name value _.
Defined.
