(* ===== verification/Sockets.v ===== *)
(** Fixed-path sockets, inherited descriptors and the owner of a loopback
    connection ([crates/forward/src/socket.rs], [browser/relay/spawn.rs],
    [browser/peer/socket.rs]).

    What a system call sees at a path may change between two calls, so [bind]
    takes the state of the path at each of its calls.  A process's descriptors
    are a finite map; the tables of [/proc] are the text the kernel prints. *)

From stdpp Require Import prelude strings list gmap.
From Stdlib Require Import ZArith Lia Ascii.
From S2P Require Import Prelude Text Secret Paths.

Local Open Scope string_scope.

(** * Binding a socket at a fixed path *)
Module Bind.

(** What is at the path.  Connecting to a file that is not a socket is refused
    just as connecting to a socket nobody serves. *)
Inductive PathState : Type := Absent | Stale | Served | NonSocket | DanglingLink | Forbidden.

#[global] Instance PathState_eq_dec : EqDecision PathState.
Proof. solve_decision. Defined.

Inductive IoError : Type := AddrInUse | ConnectionRefused | NotFound | Denied.

#[global] Instance IoError_eq_dec : EqDecision IoError.
Proof. solve_decision. Defined.

Definition connect (p : PathState) : result IoError () :=
  match p with
  | Served => Ok ()
  | Stale | NonSocket => Err ConnectionRefused
  | Absent | DanglingLink => Err NotFound
  | Forbidden => Err Denied
  end.

(** [symlink_metadata], as far as [is_socket] reads it. *)
Definition lstat (p : PathState) : result IoError bool :=
  match p with
  | Stale | Served => Ok true
  | NonSocket | DanglingLink => Ok false
  | Absent => Err NotFound
  | Forbidden => Err Denied
  end.

Definition remove_file (p : PathState) : result IoError () :=
  match p with Absent => Err NotFound | Forbidden => Err Denied | _ => Ok () end.

Definition path_is_socket (p : PathState) (original_error : IoError) : result IoError bool :=
  match lstat p with
  | Ok true => Ok true
  | Ok false => Err original_error
  | Err NotFound => Ok false
  | Err e => Err e
  end.

(** The state of the path at each call, in the order of the calls. *)
Record Seen : Type := {
  at_connect : PathState;
  at_lstat : PathState;
  at_reconnect : PathState;
  at_relstat : PathState;
  at_unlink : PathState;
  at_bind : PathState;
}.

(** The result and what was unlinked on the way, if anything. *)
Definition remove_stale_socket (s : Seen) (initial_error : IoError) : result IoError () * option PathState :=
  match path_is_socket (at_lstat s) initial_error with
  | Err e => (Err e, None)
  | Ok false => (Ok (), None)
  | Ok true =>
      match connect (at_reconnect s) with
      | Ok () => (Err AddrInUse, None)
      | Err ConnectionRefused =>
          match path_is_socket (at_relstat s) ConnectionRefused with
          | Err e => (Err e, None)
          | Ok false => (Ok (), None)
          | Ok true =>
              match remove_file (at_unlink s) with
              | Ok () => (Ok (), Some (at_unlink s))
              | Err NotFound => (Ok (), None)
              | Err e => (Err e, None)
              end
          end
      | Err NotFound => (Ok (), None)
      | Err e => (Err e, None)
      end
  end.

(** The mode of the new socket under a [umask], which is put back. *)
Definition created_mode (umask : Z) : Z := Z.land 511 (Z.lnot umask).

Definition bind_listener (umask : Z) (p : PathState) : result IoError Z * Z :=
  (match p with Absent => Ok (created_mode 127) | Forbidden => Err Denied | _ => Err AddrInUse end, umask).

(** The result is the mode of the bound socket; with it the process's [umask]
    and what was unlinked. *)
Definition bind (umask : Z) (s : Seen) : result IoError Z * Z * option PathState :=
  match connect (at_connect s) with
  | Ok () => (Err AddrInUse, umask, None)
  | Err ConnectionRefused =>
      match remove_stale_socket s ConnectionRefused with
      | (Err e, gone) => (Err e, umask, gone)
      | (Ok (), gone) => (bind_listener umask (at_bind s), gone)
      end
  | Err NotFound =>
      match lstat (at_lstat s) with
      | Err NotFound => (bind_listener umask (at_bind s), None)
      | Ok _ => (Err NotFound, umask, None)
      | Err e => (Err e, umask, None)
      end
  | Err e => (Err e, umask, None)
  end.

(** A path nobody else touches: what is there stays, except that it is gone
    once unlinked. *)
Definition alone (p : PathState) : Seen := {|
  at_connect := p; at_lstat := p; at_reconnect := p; at_relstat := p; at_unlink := p;
  at_bind := match p with Stale => Absent | _ => p end;
|}.

(** [bind] unlinks by [remove_stale_socket] only, which looks and connects
    again before. *)
Lemma bind_unlinks umask s gone : (bind umask s).2 = Some gone →
  connect (at_connect s) = Err ConnectionRefused ∧ (remove_stale_socket s ConnectionRefused).2 = Some gone.
Proof.
  unfold bind. destruct (connect (at_connect s)) as [[]|[]]; try done.
  - by destruct (remove_stale_socket s ConnectionRefused) as [[[]|] x].
  - by destruct (lstat (at_lstat s)) as [|[]].
Qed.

Lemma path_is_socket_true p e : path_is_socket p e = Ok true → lstat p = Ok true.
Proof. unfold path_is_socket. by destruct (lstat p) as [[]|[]]. Qed.

Lemma remove_stale_unlinks s gone : (remove_stale_socket s ConnectionRefused).2 = Some gone →
  lstat (at_lstat s) = Ok true ∧ connect (at_reconnect s) = Err ConnectionRefused ∧ lstat (at_relstat s) = Ok true ∧
  (at_reconnect s = at_relstat s → at_relstat s = at_unlink s → gone = Stale).
Proof.
  unfold remove_stale_socket. destruct (path_is_socket (at_lstat s) _) as [[]|] eqn:E1; try done.
  destruct (connect (at_reconnect s)) as [[]|[]] eqn:E2; try done.
  destruct (path_is_socket (at_relstat s) _) as [[]|] eqn:E3; try done.
  destruct (remove_file (at_unlink s)) as [[]|[]]; try done. intros [= <-].
  apply path_is_socket_true in E1, E3. split_and!; [done..|]. intros H1 <-. rewrite H1 in E2. by destruct (at_relstat s).
Qed.

(** A working predecessor keeps its socket.  Whatever happens at the path
    meanwhile, something is unlinked only after two refused connections and
    two looks that found a socket, the last right before; so if the path did
    not change since the second connection, what was unlinked is a socket
    nobody serves.  On a path nobody else touches the outcome is determined:
    absent or stale is bound with mode 0600, served is left and reported in
    use, anything else is left.  The umask is as before in every case. *)
Lemma bind_spares_served umask s :
  (bind umask s).1.2 = umask ∧
  (∀ gone, (bind umask s).2 = Some gone →
     connect (at_connect s) = Err ConnectionRefused ∧ lstat (at_lstat s) = Ok true ∧
     connect (at_reconnect s) = Err ConnectionRefused ∧ lstat (at_relstat s) = Ok true ∧
     (at_reconnect s = at_relstat s → at_relstat s = at_unlink s → gone = Stale)) ∧
  (∀ p, bind umask (alone p) =
     (match p with
      | Absent | Stale => Ok 384%Z
      | Served => Err AddrInUse
      | NonSocket => Err ConnectionRefused
      | DanglingLink => Err NotFound
      | Forbidden => Err Denied
      end, umask, match p with Stale => Some Stale | _ => None end)).
Proof.
  split_and!; [| |by intros []].
  - unfold bind. destruct (connect (at_connect s)) as [[]|[]]; [done|done| | |done].
    + by destruct (remove_stale_socket s _) as [[[]|] gone].
    + by destruct (lstat (at_lstat s)) as [|[]].
  - intros gone H. apply bind_unlinks in H as [E H]. by apply remove_stale_unlinks in H as (H1 & H2 & H3 & H4).
Qed.

End Bind.

(** * Placing the descriptors of the relay child *)
Module Place.

(** A descriptor: the open file it stands for and its close-on-exec flag. *)
Record Fd : Type := { file : nat; cloexec : bool }.

Notation table := (gmap Z Fd).

Definition LISTENER_FD : Z := 3.
Definition CONTROL_FD : Z := 4.
Definition STAGING_FD : Z := CONTROL_FD + 1.

(** The lowest unused descriptor from [from] on, below the process's limit. *)
Definition lowest_free (t : table) (from limit : Z) : option Z :=
  List.find (λ fd, negb (is_some (t !! fd))) (seqZ from (limit - from)).

(** [fcntl(fd, F_DUPFD_CLOEXEC, STAGING_FD)]. *)
Definition stage (limit : Z) (t : table) (fd : Z) : option (table * Z) :=
  d ← t !! fd;
  n ← lowest_free t STAGING_FD limit;
  Some (<[n := {| file := file d; cloexec := true |}]> t, n).

(** [dup2]: nothing for equal numbers, and otherwise without the flag. *)
Definition dup2 (t : table) (from to : Z) : option table :=
  d ← t !! from;
  Some (if bool_decide (from = to) then t else <[to := {| file := file d; cloexec := false |}]> t).

Definition place (limit : Z) (t : table) (listener_fd control_fd : Z) : option table :=
  '(t, staged_listener) ← stage limit t listener_fd;
  '(t, staged_control) ← stage limit t control_fd;
  t ← dup2 t staged_listener LISTENER_FD;
  dup2 t staged_control CONTROL_FD.

(** What [exec] leaves open. *)
Definition exec (t : table) : table := filter (λ kv, cloexec kv.2 = false) t.

(** ** What the relay inherited *)
Inductive SockType : Type := Stream | OtherType.
Inductive Family : Type := Inet | Inet6 | Unix | OtherFamily.

(** What [getsockopt] and [getsockname] answer for a file; [None] where they
    fail, as they do on anything but a socket. *)
Record Sock : Type := { sock_type : option SockType; accept_conn : option bool; sock_family : option Family }.

Inductive RelayError : Type := Inherited (fd : Z).

Section inherited.
Context (sock : nat → Sock) (t : table).

Definition is_stream (d : Fd) : bool := match sock_type (sock (file d)) with Some Stream => true | _ => false end.

Definition family (fd : Z) : option Family := t !! fd ≫= λ d, sock_family (sock (file d)).

Definition is_endpoint_listener (fd : Z) : bool :=
  match t !! fd with
  | Some d =>
      is_stream d && (match accept_conn (sock (file d)) with Some true => true | _ => false end) &&
      match family fd with Some (Inet | Inet6) => true | _ => false end
  | None => false
  end.

Definition is_control_channel (fd : Z) : bool :=
  match t !! fd with
  | Some d => is_stream d && match family fd with Some Unix => true | _ => false end
  | None => false
  end.

(** [inherited]: the files of the listener and of the control channel. *)
Definition inherited : result RelayError (nat * nat) :=
  if negb (is_endpoint_listener LISTENER_FD) then Err (Inherited LISTENER_FD) else
  if negb (is_control_channel CONTROL_FD) then Err (Inherited CONTROL_FD) else
  match t !! LISTENER_FD, t !! CONTROL_FD with
  | Some l, Some c => Ok (file l, file c)
  | _, _ => Err (Inherited LISTENER_FD)
  end.
End inherited.

Lemma lowest_free_spec t from limit n :
  lowest_free t from limit = Some n → (from <= n)%Z ∧ t !! n = None.
Proof.
  intros [Hn Hf]%find_Some. apply elem_of_seqZ in Hn. split; [lia|].
  apply negb_true_iff in Hf. unfold is_some, is_some_and in Hf. by destruct (t !! n).
Qed.

(** The relay inherits its two sockets.  Whatever numbers the listener and
    the control channel have, even each other's places, after [place] and
    [exec] descriptor 3 is the listener and 4 the control channel; every other
    descriptor that survives the [exec] is one that would have survived before,
    so no staged copy leaks. *)
Lemma place_inherits limit t lfd cfd lf cf t' :
  t !! lfd = Some lf → t !! cfd = Some cf → place limit t lfd cfd = Some t' →
  exec t' !! LISTENER_FD = Some {| file := file lf; cloexec := false |} ∧
  exec t' !! CONTROL_FD = Some {| file := file cf; cloexec := false |} ∧
  ∀ fd d, fd ≠ LISTENER_FD → fd ≠ CONTROL_FD → exec t' !! fd = Some d ↔ exec t !! fd = Some d.
Proof.
  intros Hl Hc. unfold place, stage. rewrite Hl. simpl.
  destruct (lowest_free t STAGING_FD limit) as [n|] eqn:En; [|done]. simpl.
  apply lowest_free_spec in En as [Hn Htn]. unfold STAGING_FD, CONTROL_FD in Hn.
  assert (n ≠ cfd) as Hnc by (intros ->; congruence).
  rewrite lookup_insert_ne, Hc by done. simpl.
  destruct (lowest_free _ STAGING_FD limit) as [m|] eqn:Em; [|done]. simpl.
  apply lowest_free_spec in Em as [Hm Htm]. unfold STAGING_FD, CONTROL_FD in Hm.
  assert (m ≠ n) as Hmn by (intros ->; by rewrite lookup_insert_eq in Htm).
  rewrite lookup_insert_ne in Htm by done.
  unfold dup2. rewrite lookup_insert_ne, lookup_insert_eq by done. simpl.
  unfold LISTENER_FD, CONTROL_FD. rewrite (bool_decide_eq_false_2 (n = 3%Z)) by lia.
  rewrite lookup_insert_ne, lookup_insert_eq by lia. simpl.
  rewrite (bool_decide_eq_false_2 (m = 4%Z)) by lia. intros [= <-]. unfold exec. split_and!.
  - apply map_lookup_filter_Some. split; [|done]. by rewrite lookup_insert_ne, lookup_insert_eq by lia.
  - apply map_lookup_filter_Some. split; [|done]. by rewrite lookup_insert_eq.
  - intros fd d H3 H4. rewrite !map_lookup_filter_Some. rewrite !(lookup_insert_ne _ 4%Z), !(lookup_insert_ne _ 3%Z) by done.
    destruct (decide (fd = m)) as [->|Hfm].
    { rewrite lookup_insert_eq. split; [intros [[= <-] [=]]|intros [H _]; congruence]. }
    rewrite lookup_insert_ne by done. destruct (decide (fd = n)) as [->|Hfn].
    { rewrite lookup_insert_eq. split; [intros [[= <-] [=]]|intros [H _]; congruence]. }
    by rewrite lookup_insert_ne.
Qed.

(** A relay serves on a listening TCP socket and takes orders on a Unix one, or
    not at all; and the two sockets the grant passes are the two it takes, even
    when each had the other's number. *)
Lemma inherited_sound sock t l c :
  inherited sock t = Ok (l, c) →
  accept_conn (sock l) = Some true ∧ (sock_family (sock l) = Some Inet ∨ sock_family (sock l) = Some Inet6) ∧
  sock_family (sock c) = Some Unix ∧ sock_type (sock l) = Some Stream ∧ sock_type (sock c) = Some Stream.
Proof.
  unfold inherited, is_endpoint_listener, is_control_channel, family, is_stream.
  destruct (t !! LISTENER_FD) as [dl|]; [|done]. destruct (t !! CONTROL_FD) as [dc|]; simpl; [|by case_match].
  destruct (sock (file dl)) as [[[]|] [[]|] [[]|]] eqn:El; simpl; try done;
    destruct (sock (file dc)) as [[[]|] ac [[]|]] eqn:Ec; simpl; try done; intros [= <- <-]; rewrite El, Ec; simpl; auto 10.
Qed.

Lemma relay_inherits limit t lfd cfd lf cf t' sock :
  t !! lfd = Some lf → t !! cfd = Some cf → place limit t lfd cfd = Some t' →
  sock (file lf) = {| sock_type := Some Stream; accept_conn := Some true; sock_family := Some Inet |} →
  sock (file cf) = {| sock_type := Some Stream; accept_conn := Some false; sock_family := Some Unix |} →
  inherited sock (exec t') = Ok (file lf, file cf).
Proof.
  intros Hl Hc Hp Sl Sc. destruct (place_inherits limit t lfd cfd lf cf t' Hl Hc Hp) as (H1 & H2 & _).
  unfold inherited, is_endpoint_listener, is_control_channel, family, is_stream. rewrite H1, H2. simpl. by rewrite Sl, Sc.
Qed.

(** The two descriptors on each other's places. *)
Definition demo_table : table := {[ 3 := {| file := 7; cloexec := true |}; 4 := {| file := 8; cloexec := true |} ]}%Z.

Lemma place_inherits_witness :
  ∃ t', place 1024 demo_table 4 3 = Some t' ∧
    exec t' !! LISTENER_FD = Some {| file := 8; cloexec := false |} ∧
    exec t' !! CONTROL_FD = Some {| file := 7; cloexec := false |} ∧
    ∀ fd d, fd ≠ LISTENER_FD → fd ≠ CONTROL_FD → exec t' !! fd = Some d ↔ exec demo_table !! fd = Some d.
Proof.
  destruct (place 1024 demo_table 4 3) as [t'|] eqn:E; [|by vm_compute in E]. exists t'. split; [done|].
  by apply (place_inherits 1024 demo_table 4 3 {| file := 8; cloexec := true |} {| file := 7; cloexec := true |}).
Defined.

End Place.

(** * The process that owns a loopback connection *)
Module Owner.

Record SocketAddrV4 : Type := { o0 : Z; o1 : Z; o2 : Z; o3 : Z; port : Z }.

#[global] Instance SocketAddrV4_eq_dec : EqDecision SocketAddrV4.
Proof. solve_decision. Defined.

(** [{:0width$X}] of a number that fits. *)
Definition hex_upper (n : Z) : ascii := to_ascii_uppercase (hex_digit n).

Fixpoint hex_pad (width : nat) (n : Z) (acc : string) : string :=
  match width with
  | O => acc
  | S width => hex_pad width (n / 16) (String (hex_upper (n mod 16)) acc)
  end.

Definition from_le_bytes (a : SocketAddrV4) : Z := (o0 a + 256 * (o1 a + 256 * (o2 a + 256 * o3 a)))%Z.

Definition endpoint (a : SocketAddrV4) : string :=
  hex_pad 8 (from_le_bytes a) "" +:+ ":" +:+ hex_pad 4 (port a) "".

(** One line of [/proc/net/tcp]; the closure of [find_map]. *)
Definition inode_of_line (want_local want_remote line : string) : option string :=
  let fields := drop 1 (split_whitespace line) in
  found_local ← head fields;
  found_remote ← head (drop 1 fields);
  if negb (bool_decide (found_local = want_local)) || negb (bool_decide (found_remote = want_remote)) then None
  else drop 2 fields !! 6%nat.

Definition inode_for (table : option string) (peer local : SocketAddrV4) : option string :=
  text ← table;
  first_some (inode_of_line (endpoint peer) (endpoint local)) (drop 1 (str_lines text)).

(** An entry of [/proc]: its name, if it is text, and the links of its [fd]
    directory, if that can be read; a link that cannot be read is [None]. *)
Record ProcEntry : Type := { name : option string; descriptors : option (list (option string)) }.

Definition holds_link (target : string) (e : ProcEntry) : option Z :=
  pid ← name e ≫= parse_unsigned u32_max;
  links ← descriptors e;
  if existsb (is_some_and (λ link, bool_decide (components link = components target))) links
  then Some pid else None.

Definition pid_for_inode (proc : option (list ProcEntry)) (inode : string) : option Z :=
  entries ← proc; first_some (holds_link ("socket:[" +:+ inode +:+ "]")) entries.

Definition pid_for_connection (table : option string) (proc : option (list ProcEntry)) (peer local : SocketAddrV4) :
    option Z :=
  inode ← inode_for table peer local; pid_for_inode proc inode.

(** ** The table as the kernel prints it *)
Record Row : Type := {
  sl : string;
  local_address : SocketAddrV4;
  rem_address : SocketAddrV4;
  state : list string;
  inode : string;
  others : list string;
}.

(** The number of the line, the two addresses, six words, the inode, others. *)
Definition row_words (r : Row) : list string :=
  (sl r :: endpoint (local_address r) :: endpoint (rem_address r) :: state r ++ inode r :: others r)%list.

Definition valid_addr (a : SocketAddrV4) : Prop :=
  (0 <= o0 a < 256 ∧ 0 <= o1 a < 256 ∧ 0 <= o2 a < 256 ∧ 0 <= o3 a < 256 ∧ 0 <= port a <= u16_max)%Z.

(** The text of a table: a heading and a line per row. *)
Definition prints (text heading : string) (lines : list string) (rows : list Row) : Prop :=
  str_lines text = heading :: lines ∧
  Forall2 (λ l r, split_whitespace l = row_words r ∧ length (state r) = 6%nat ∧
                  valid_addr (local_address r) ∧ valid_addr (rem_address r)) lines rows.

(** ** Endpoints determine addresses *)
Lemma hex_upper_inj n m : (0 <= n < 16)%Z → (0 <= m < 16)%Z → hex_upper n = hex_upper m → n = m.
Proof.
  intros Hn Hm.
  assert (∀ k, (0 <= k < 16)%Z → to_digit 16 (hex_upper k) = Some k) as H.
  { intros k Hk. assert (k ∈ seqZ 0 16) as Hin by (apply elem_of_seqZ; lia).
    clear Hk. revert k Hin. apply Forall_forall. repeat constructor. }
  intros E. pose proof (H n Hn) as E1. rewrite E, H in E1 by done. by simplify_eq.
Qed.

Lemma hex_pad_acc w n acc : hex_pad w n acc = hex_pad w n "" +:+ acc.
Proof.
  revert n acc. induction w as [|w IH]; intros n acc; [done|]. cbn [hex_pad].
  rewrite IH, (IH _ (String _ "")), <-append_assoc. done.
Qed.

Lemma hex_pad_length w n acc : String.length (hex_pad w n acc) = (w + String.length acc)%nat.
Proof. revert n acc. induction w as [|w IH]; intros n acc; [done|]. cbn [hex_pad]. rewrite IH. simpl. lia. Qed.

Lemma append_inj s t u v :
  String.length s = String.length t → s +:+ u = t +:+ v → s = t ∧ u = v.
Proof.
  revert t. induction s as [|c s IH]; intros [|d t]; simpl; try done. intros [=Hl] [= -> H].
  by destruct (IH _ Hl H) as [-> ->].
Qed.

Lemma hex_pad_inj w n m : (0 <= n < 16 ^ Z.of_nat w)%Z → (0 <= m < 16 ^ Z.of_nat w)%Z →
  hex_pad w n "" = hex_pad w m "" → n = m.
Proof.
  revert n m. induction w as [|w IH]; intros n m; [simpl; lia|].
  rewrite Nat2Z.inj_succ, Z.pow_succ_r by lia. intros Hn Hm. cbn [hex_pad].
  rewrite (hex_pad_acc w (n / 16)), (hex_pad_acc w (m / 16)).
  intros [E1 [= E2]]%append_inj; [|by rewrite !hex_pad_length].
  apply IH in E1; [|split; [apply Z.div_pos; lia|apply Z.div_lt_upper_bound; lia]..].
  apply hex_upper_inj in E2; [|apply Z.mod_pos_bound; lia..].
  rewrite (Z.div_mod n 16), (Z.div_mod m 16) by lia. by rewrite E1, E2.
Qed.

Lemma endpoint_inj a b : valid_addr a → valid_addr b → endpoint a = endpoint b → a = b.
Proof.
  intros Ha Hb. unfold endpoint. intros [E1 E2]%append_inj; [|by rewrite !hex_pad_length].
  apply append_inj in E2 as [_ E2]; [|done]. unfold valid_addr, u16_max in *.
  apply hex_pad_inj in E1; [|unfold from_le_bytes; simpl; lia..].
  apply hex_pad_inj in E2; [|simpl; lia..].
  destruct a as [a0 a1 a2 a3 p], b as [b0 b1 b2 b3 q]. unfold from_le_bytes in E1. simpl in *.
  assert (a0 = b0) by lia. assert (a1 = b1) by lia. assert (a2 = b2) by lia. assert (a3 = b3) by lia. by subst.
Qed.

Definition row_is (peer local : SocketAddrV4) (r : Row) : bool :=
  bool_decide (local_address r = peer) && bool_decide (rem_address r = local).

Lemma inode_of_row peer local l r :
  valid_addr peer → valid_addr local → split_whitespace l = row_words r → length (state r) = 6%nat →
  valid_addr (local_address r) → valid_addr (rem_address r) →
  inode_of_line (endpoint peer) (endpoint local) l = if row_is peer local r then Some (inode r) else None.
Proof.
  intros Hp Hl Hw H6 Hvl Hvr. unfold inode_of_line, row_is. rewrite Hw. unfold row_words.
  cbn [drop head mbind option_bind].
  assert (∀ a b, valid_addr a → valid_addr b → bool_decide (endpoint a = endpoint b) = bool_decide (a = b)) as E.
  { intros a b Ha Hb. apply bool_decide_ext. split; [by apply endpoint_inj|by intros ->]. }
  rewrite !E by done. destruct (bool_decide _), (bool_decide _); try done. cbn [negb orb andb].
  rewrite drop_0, lookup_app_r by lia. by rewrite H6.
Qed.

Lemma first_some_Some {A B} (f : A → option B) l y : first_some f l = Some y → ∃ x, x ∈ l ∧ f x = Some y.
Proof.
  induction l as [|x l IH]; [done|]. cbn [first_some]. destruct (f x) eqn:E.
  - intros [= ->]. exists x. split; [constructor|done].
  - intros (x' & ? & ?)%IH. exists x'. split; [by constructor|done].
Qed.

Lemma inode_for_rows text heading lines rows peer local :
  prints text heading lines rows → valid_addr peer → valid_addr local →
  inode_for (Some text) peer local = inode <$> List.find (row_is peer local) rows.
Proof.
  intros [Ht Hr] Hp Hl. unfold inode_for. cbn [mbind option_bind]. rewrite Ht. clear Ht.
  change (drop 1 (heading :: lines)) with lines.
  induction Hr as [|l r lines rows (Hw & H6 & Hvl & Hvr) _ IH]; [done|].
  cbn [first_some List.find]. rewrite (inode_of_row peer local l r) by done.
  destruct (row_is peer local r); [done|]. exact IH.
Qed.

(** A connection is attributed to a process that holds it.  On a table as
    the kernel prints it the inode is that of the first socket whose own
    address is the client's and whose peer is the endpoint, no other socket
    can stand in for it, and the process found is one with a descriptor for
    that inode. *)
Lemma connection_owner text heading lines rows proc peer local :
  prints text heading lines rows → valid_addr peer → valid_addr local →
  (∀ r, List.find (row_is peer local) rows = Some r →
     inode_for (Some text) peer local = Some (inode r) ∧
     local_address r = peer ∧ rem_address r = local) ∧
  (List.find (row_is peer local) rows = None → pid_for_connection (Some text) proc peer local = None) ∧
  ∀ pid, pid_for_connection (Some text) proc peer local = Some pid →
    ∃ r entries e n links link,
      r ∈ rows ∧ local_address r = peer ∧ rem_address r = local ∧
      proc = Some entries ∧ e ∈ entries ∧ name e = Some n ∧ parse_unsigned u32_max n = Some pid ∧
      descriptors e = Some links ∧ Some link ∈ links ∧
      components link = components ("socket:[" +:+ inode r +:+ "]").
Proof.
  intros Ht Hp Hl. pose proof (inode_for_rows _ _ _ _ _ _ Ht Hp Hl) as Hi.
  assert (∀ r, List.find (row_is peer local) rows = Some r →
            r ∈ rows ∧ local_address r = peer ∧ rem_address r = local) as Hrow.
  { intros r [Hr Hm]%find_Some. unfold row_is in Hm. by bool_to_prop. }
  split_and!.
  - intros r Hr. rewrite Hi, Hr. by destruct (Hrow r Hr) as (_ & ? & ?).
  - intros Hn. unfold pid_for_connection. by rewrite Hi, Hn.
  - intros pid. unfold pid_for_connection. rewrite Hi.
    destruct (List.find _ rows) as [r|]; [|done]. cbn [fmap option_fmap option_map mbind option_bind].
    destruct (Hrow r eq_refl) as (Hr & H1 & H2). unfold pid_for_inode.
    destruct proc as [entries|]; [|done]. cbn [mbind option_bind].
    intros (e & He & Hh)%first_some_Some. unfold holds_link in Hh.
    destruct (name e) as [n|] eqn:En; [|done]. cbn [mbind option_bind] in Hh.
    destruct (parse_unsigned u32_max n) as [q|] eqn:Eq; [|done]. cbn [mbind option_bind] in Hh.
    destruct (descriptors e) as [links|] eqn:Ed; [|done]. cbn [mbind option_bind] in Hh.
    destruct (existsb _ links) eqn:Ex; [|done]. simplify_eq.
    apply existsb_elem in Ex as ([link|] & Hlk & Hc); [|done]. cbn [is_some_and] in Hc.
    apply bool_decide_eq_true in Hc. by exists r, entries, e, n, links, link.
Qed.

Definition client_addr : SocketAddrV4 := {| o0 := 127; o1 := 0; o2 := 0; o3 := 1; port := 40000 |}.
Definition server_addr : SocketAddrV4 := {| o0 := 127; o1 := 0; o2 := 0; o3 := 1; port := 9222 |}.

Definition demo_row (l r : SocketAddrV4) (ino : string) : Row := {|
  sl := "0:"; local_address := l; rem_address := r;
  state := ["01"; "00000000:00000000"; "00:00000000"; "00000000"; "1000"; "0"]; inode := ino; others := ["1"] |}.

Definition demo_rows : list Row := [demo_row server_addr client_addr "111"; demo_row client_addr server_addr "222"].

Definition demo_table : string :=
  foldr (λ r s, concat_sep " " (row_words r) +:+ String newline s) "" demo_rows.

Definition demo_tcp : string := "sl local_address rem_address" +:+ String newline demo_table.

Definition demo_proc : list ProcEntry :=
  [{| name := Some "self"; descriptors := Some [] |}; {| name := Some "7"; descriptors := None |};
   {| name := Some "42"; descriptors := Some [Some "/dev/null"; None; Some "socket:[222]"] |}].

Lemma connection_owner_witness :
  (∀ r, List.find (row_is client_addr server_addr) demo_rows = Some r →
     inode_for (Some demo_tcp) client_addr server_addr = Some (inode r) ∧
     local_address r = client_addr ∧ rem_address r = server_addr) ∧
  pid_for_connection (Some demo_tcp) (Some demo_proc) client_addr server_addr = Some 42%Z ∧
  ∃ r entries e n links link,
      r ∈ demo_rows ∧ local_address r = client_addr ∧ rem_address r = server_addr ∧
      Some demo_proc = Some entries ∧ e ∈ entries ∧ name e = Some n ∧ parse_unsigned u32_max n = Some 42%Z ∧
      descriptors e = Some links ∧ Some link ∈ links ∧
      components link = components ("socket:[" +:+ inode r +:+ "]").
Proof.
  destruct (connection_owner demo_tcp "sl local_address rem_address"
    ((λ r, concat_sep " " (row_words r)) <$> demo_rows) demo_rows (Some demo_proc) client_addr server_addr)
    as (H1 & _ & H3).
  - split; [by vm_compute|]. repeat constructor; by vm_compute.
  - repeat constructor; by vm_compute.
  - repeat constructor; by vm_compute.
  - split; [exact H1|]. assert (pid_for_connection (Some demo_tcp) (Some demo_proc) client_addr server_addr = Some 42%Z)
      as E by (by vm_compute). split; [exact E|]. by apply H3.
Defined.

End Owner.
