(* ===== verification/Relay.v ===== *)
(** A browser grant's endpoint and its sessions: handing a socket over
    ([crates/forward/src/fdpass.rs]), the relay in the caller's namespace
    ([browser/relay.rs]), the control channel in [forward serve]
    ([browser/request/server/control.rs]) and the pipes it opens
    ([pipe.rs], [refusal.rs]).

    A socket is a number, as in [BrowserGrants]; a duplicated descriptor is the
    same socket, so it has the same number.  [relay_one] runs in its own
    thread: it is cut at every call that blocks or takes the registry's locks,
    and a run interleaves the control loop, the sessions and any other use of
    the registry. *)

From stdpp Require Import prelude strings list gmap.
From Stdlib Require Import ZArith Lia Ascii.
From S2P Require Import Prelude Text Wire Request Containment Peers Bridge Leases Feed Sockets BrowserGrants.
Import Anchored.

Local Open Scope string_scope.

(** * Handing a socket over *)
Module Fdpass.

(** What [recvmsg] gives: an error, or the count and value of the byte, whether
    the control data was truncated, and the descriptors, unless reading the
    control messages fails. *)
Inductive Recv : Type :=
| RInterrupted
| RError (errno : Z)
| RMessage (bytes : nat) (message : ascii) (truncated : bool) (cmsgs : option (list nat)).

Inductive RecvError : Type := Errno (errno : Z) | BadControl | UnexpectedEof | Truncated.

(** The answer and the descriptors closed on the way. *)
Definition received (bytes : nat) (message : ascii) (truncated : bool) (fds : list nat) :
    result RecvError (ascii * option nat) * list nat :=
  if (bytes =? 0)%nat then (Err UnexpectedEof, fds)
  else if truncated then (Err Truncated, fds)
  else (Ok (message, head fds), drop 1 fds).

Fixpoint receive (script : list Recv) : option (result RecvError (ascii * option nat) * list nat) :=
  match script with
  | [] => None
  | RInterrupted :: rest => receive rest
  | RError e :: _ => Some (Err (Errno e), [])
  | RMessage _ _ _ None :: _ => Some (Err BadControl, [])
  | RMessage bytes message truncated (Some fds) :: _ => Some (received bytes message truncated fds)
  end.

(** What the kernel says of a descriptor. *)
Inductive SockType : Type := Stream | OtherSock.

Record Descriptor : Type := {
  fd : nat;
  sock_type : option SockType;
  peer_addr : option SocketAddr;
}.

Inductive StreamError : Type := NotStream | NotSocket | NotConnected.

Definition connected_stream (d : Descriptor) : result StreamError (nat * SocketAddr) :=
  match sock_type d with
  | Some Stream => match peer_addr d with Some a => Ok (fd d, a) | None => Err NotConnected end
  | Some OtherSock => Err NotStream
  | None => Err NotSocket
  end.

End Fdpass.
Import Fdpass.

(** * The relay in the caller's namespace *)
Definition CONNECTION : ascii := "+"%char.
Definition SESSION_REFUSAL : string := "REFUSED SESSION" +:+ String newline "".

(** The two addresses of an accepted connection, when they are IPv4. *)
Record Conn : Type := { c_fd : nat; c_peer : option Owner.SocketAddrV4; c_local : option Owner.SocketAddrV4 }.

Section relay.
Context (resolver : Owner.SocketAddrV4 → Owner.SocketAddrV4 → option Z) (lookup : Z → option Process).

Definition admits (anchor : AnchoredPeer) (c : Conn) : bool :=
  match c_peer c, c_local c with
  | Some peer, Some local => is_some_and (contains_with lookup anchor) (resolver peer local)
  | _, _ => false
  end.

(** The watcher's read ends, then [ended] is set; the accept loop is woken by
    the connection the watcher makes, or by any other. *)
Inductive RelayEvent : Type :=
| ControlReadable
| Incoming (c : option Conn) (sent : bool).

Record RelayState : Type := {
  ended : bool;
  running : bool;
  handed : list Conn;
  refused : list Conn;
}.

Definition relay_start : RelayState := {| ended := false; running := true; handed := []; refused := [] |}.

Definition relay_step (anchor : AnchoredPeer) (s : RelayState) (e : RelayEvent) : RelayState :=
  match e with
  | ControlReadable => {| ended := true; running := running s; handed := handed s; refused := refused s |}
  | Incoming c sent =>
      if negb (running s) then s else
      if ended s then {| ended := true; running := false; handed := handed s; refused := refused s |} else
      match c with
      | None => s
      | Some c =>
          if negb (admits anchor c)
          then {| ended := ended s; running := true; handed := handed s; refused := (refused s ++ [c])%list |}
          else if sent
          then {| ended := ended s; running := true; handed := (handed s ++ [c])%list; refused := refused s |}
          else {| ended := ended s; running := false; handed := handed s; refused := refused s |}
      end
  end.

Definition relay_run (anchor : AnchoredPeer) (s : RelayState) (events : list RelayEvent) : RelayState :=
  foldl (relay_step anchor) s events.

End relay.

(** * The control channel *)
Definition GENERIC_REFUSAL : string := "REFUSED" +:+ String newline "".
Definition BUSY_REFUSAL : string := "REFUSED BUSY" +:+ String newline "".
Definition UNGRANTED_REFUSAL : string := "REFUSED UNGRANTED" +:+ String newline "".

Definition relay_line (token : string) : string := "RELAY " +:+ token +:+ String newline "".

(** Where a session's thread is in [relay_one]. *)
Inductive Sess : Type :=
| Fresh (d : Descriptor)
| Granted (stream : nat) (tok : string)
| Dialled (stream laptop : nat) (tok : string)
| Wrote (stream laptop : nat)
| Timed (stream laptop : nat)
| Piping (stream laptop : nat) (guard : Z * Z)
| Over.

(** What the environment answers a session at its next call. *)
Inductive SessAnswer : Type :=
| ANow (now : Z)
| ADial (laptop : option nat)
| AWrite (written : option nat)
| ATimeouts (ok : bool)
| ARegister (cloned : bool)
| AEnd.

Record CState : Type := {
  reg : Grants;
  serving : bool;
  sess : list Sess;
  sent : list (nat * string);
}.

Definition is_over (s : Sess) : bool := match s with Over => true | _ => false end.

(** The permits held: one per session that is not over. *)
Definition active (st : CState) : nat := length (List.filter (λ s, negb (is_over s)) (sess st)).

(** One step of [relay_one]: the registry, where the thread is then, and the
    bytes written.  [write_all] that fails has written a prefix. *)
Definition sess_step (g : Grants) (id : Z) (s : Sess) (a : SessAnswer) :
    option (Grants * Sess * list (nat * string)) :=
  match s, a with
  | Fresh d, ANow now =>
      match connected_stream d with
      | Err _ => Some (g, Over, [])
      | Ok (stream, peer) =>
          if negb (is_loopback (ip peer)) then Some (g, Over, []) else
          match live g now id with
          | (g, None) => Some (g, Over, [(stream, UNGRANTED_REFUSAL)])
          | (g, Some grant) => Some (g, Granted stream (token grant), [])
          end
      end
  | Granted stream tok, ADial None => Some (g, Over, [(stream, GENERIC_REFUSAL)])
  | Granted stream tok, ADial (Some laptop) => Some (g, Dialled stream laptop tok, [])
  | Dialled stream laptop tok, AWrite None => Some (g, Wrote stream laptop, [(laptop, relay_line tok)])
  | Dialled stream laptop tok, AWrite (Some n) =>
      Some (g, Over, [(laptop, prefix_of n (relay_line tok)); (stream, GENERIC_REFUSAL)])
  | Wrote stream laptop, ATimeouts ok => Some (g, if ok then Timed stream laptop else Over, [])
  | Timed stream laptop, ARegister cloned =>
      match register_pipe g id (if cloned then Some (stream, laptop) else None) with
      | (g, Some guard) => Some (g, Piping stream laptop guard, [])
      | (g, None) => Some (g, Over, [(stream, UNGRANTED_REFUSAL)])
      end
  | Piping stream laptop guard, AEnd => Some (drop_guard g guard, Over, [])
  | _, _ => None
  end.

(** [busy]. *)
Definition busy (d : Descriptor) : list (nat * string) :=
  match connected_stream d with Ok (stream, _) => [(stream, BUSY_REFUSAL)] | Err _ => [] end.

(** One turn of the loop of [serve]: what [receive] returned, with what the
    kernel says of the descriptor it returned. *)
Definition control_step (id : Z) (st : CState) (message : result RecvError (ascii * option Descriptor)) : CState :=
  match message with
  | Ok (m, Some d) =>
      if bool_decide (m = CONNECTION) then
        match acquire (active st) with
        | None => {| reg := reg st; serving := true; sess := sess st; sent := (sent st ++ busy d)%list |}
        | Some _ => {| reg := reg st; serving := true; sess := (sess st ++ [Fresh d])%list; sent := sent st |}
        end
      else {| reg := expire (reg st) id; serving := false; sess := sess st; sent := sent st |}
  | _ => {| reg := expire (reg st) id; serving := false; sess := sess st; sent := sent st |}
  end.

Inductive CEvent : Type :=
| EUnbounded (ok : bool)
| EControl (message : result RecvError (ascii * option Descriptor))
| ESession (i : nat) (a : SessAnswer)
| ERegistry (o : op).

(** Others use the registry as they please, except for this grant's guards. *)
Definition foreign (id : Z) (o : op) : bool :=
  match o with DropGuard guard => negb (guard.1 =? id)%Z | _ => true end.

Definition cstep (id : Z) (st : CState) (e : CEvent) : option CState :=
  match e with
  | EUnbounded ok =>
      if negb (serving st) then None else
      Some (if ok then st else {| reg := expire (reg st) id; serving := false; sess := sess st; sent := sent st |})
  | EControl m => if negb (serving st) then None else Some (control_step id st m)
  | ESession i a =>
      s ← sess st !! i;
      '(g, s', out) ← sess_step (reg st) id s a;
      Some {| reg := g; serving := serving st; sess := <[i := s']> (sess st); sent := (sent st ++ out)%list |}
  | ERegistry o =>
      if foreign id o
      then Some {| reg := step (reg st) o; serving := serving st; sess := sess st; sent := sent st |}
      else None
  end.

Fixpoint crun (id : Z) (st : CState) (events : list CEvent) : option CState :=
  match events with
  | [] => Some st
  | e :: rest => st' ← cstep id st e; crun id st' rest
  end.

Definition cstart (g : Grants) : CState := {| reg := g; serving := true; sess := []; sent := [] |}.

(** * What a use of the registry leaves of a grant and its sessions *)

(** A session's pipe can be cut: the registry holds it, or its sockets have
    been shut or are about to be. *)
Definition covered (id : Z) (g : Grants) (pid : Z) (socks : nat * nat) : Prop :=
  pipe_held g id pid socks ∨ both_going g socks.

Lemma step_next_id n g o :
  (Z.of_nat n < u64_max)%Z → registry_ok n g → (next_id g <= next_id (step g o))%Z.
Proof.
  intros Hn (Hb & _). assert (next_id g <= fetch_add (next_id g))%Z as Hf by (rewrite fetch_add_small by lia; lia).
  destruct o; simpl; unfold insert_if_authority, insert, observe_authority, live, register_pipe, drop_guard;
    repeat case_match; simpl; try lia; try done. by destruct (shut_frame g k) as (_ & _ & _ & ->).
Qed.

Lemma step_grant_kept n g o id e :
  registry_ok n g → (id < next_id g)%Z → grants (step g o) !! id = Some e → grants g !! id = Some e.
Proof.
  intros (_ & _ & Ha & _) Hid [(H & _)|(a & gr & c & _ & _ & _ & _ & ->)]%step_grants; [done|lia|done].
Qed.

Lemma step_covered g o id pid socks :
  covered id g pid socks → covered id (step g o) pid socks ∨ o = DropGuard (id, pid).
Proof.
  intros [H|H].
  - destruct (step_pipe g o id pid socks H) as [?|[?|?]]; [by left; left|by left; right|by right].
  - left. right. by apply step_both_going.
Qed.

(** * The invariant of a run *)
Definition sess_ok (id : Z) (tok : string) (g : Grants) (s : Sess) : Prop :=
  match s with
  | Granted _ t | Dialled _ _ t => t = tok
  | Piping stream laptop guard =>
      guard.1 = id ∧ (guard.2 < next_id g)%Z ∧ covered id g guard.2 (stream, laptop)
  | _ => True
  end.

Definition guard_of (s : Sess) : option (Z * Z) := match s with Piping _ _ guard => Some guard | _ => None end.

Definition sent_ok (tok : string) (x : nat * string) : Prop :=
  x.2 ∈ [GENERIC_REFUSAL; BUSY_REFUSAL; UNGRANTED_REFUSAL] ∨ ∃ n, x.2 = prefix_of n (relay_line tok).

Record cinv (n : nat) (id : Z) (tok : string) (st : CState) : Prop := {
  ci_ok : registry_ok n (reg st);
  ci_id : (id < next_id (reg st))%Z;
  ci_tok : ∀ e, grants (reg st) !! id = Some e → token (grant e) = tok;
  ci_gone : serving st = false → grants (reg st) !! id = None;
  ci_sess : ∀ i s, sess st !! i = Some s → sess_ok id tok (reg st) s;
  ci_guards : ∀ i j s t q, sess st !! i = Some s → sess st !! j = Some t →
    guard_of s = Some q → guard_of t = Some q → i = j;
  ci_sent : Forall (sent_ok tok) (sent st);
  ci_active : (active st <= MAX_CONCURRENT_CONNECTIONS)%nat;
}.

(** A use of the registry that drops no guard of a running session. *)
Lemma cinv_registry n id tok st o :
  (Z.of_nat n < u64_max)%Z → cinv n id tok st →
  (∀ i s, sess st !! i = Some s → guard_of s = None ∨ ∀ q, guard_of s = Some q → o ≠ DropGuard q) →
  cinv (S n) id tok {| reg := step (reg st) o; serving := serving st; sess := sess st; sent := sent st |}.
Proof.
  intros Hn [Hok Hid Htok Hgone Hsess Hguards Hsent Hact] Hother.
  pose proof (step_next_id n _ o Hn Hok) as Hnext.
  split; cbn [reg serving sess sent]; [by apply step_ok|lia| | | |done|done|done].
  - intros e He. eapply Htok, step_grant_kept; [done|lia|done].
  - intros Hs. destruct (grants (step (reg st) o) !! id) as [e|] eqn:E; [|done].
    eapply step_grant_kept in E; [|done|lia]. by rewrite Hgone in E.
  - intros i s Hi. pose proof (Hsess i s Hi) as H. destruct s as [| | | | |stream laptop [gid pid]|]; try done.
    destruct H as (H1 & H2 & H3). simpl in *. subst gid. split; [done|]. split; [lia|].
    destruct (step_covered _ o _ _ _ H3) as [?|Ho]; [done|].
    destruct (Hother i _ Hi) as [[=]|Hne]. exfalso. by eapply Hne.
Qed.

Lemma cinv_weaken n id tok st : cinv n id tok st → cinv (S n) id tok st.
Proof. intros []. split; try done. by apply registry_ok_S. Qed.

Lemma filter_insert_le {A} (p : A → bool) l i x y :
  l !! i = Some x → p x = true → (length (List.filter p (<[i := y]> l)) <= length (List.filter p l))%nat.
Proof.
  revert i. induction l as [|z l IH]; intros [|i]; simpl; try done.
  - intros [= ->] Hx. rewrite Hx. destruct (p y); simpl; lia.
  - intros Hi Hx. specialize (IH i Hi Hx). destruct (p z); simpl; lia.
Qed.

(** A session moves on, and what it wrote is recorded. *)
Lemma cinv_replace n id tok st i s s' out :
  cinv n id tok st → sess st !! i = Some s → is_over s = false → sess_ok id tok (reg st) s' →
  (∀ j t q, sess st !! j = Some t → j ≠ i → guard_of s' = Some q → guard_of t ≠ Some q) →
  Forall (sent_ok tok) out →
  cinv n id tok {| reg := reg st; serving := serving st; sess := <[i := s']> (sess st);
                   sent := (sent st ++ out)%list |}.
Proof.
  intros [Hok Hid Htok Hgone Hsess Hguards Hsent Hact] Hi Ho Hs' Hg Hout.
  split; cbn [reg serving sess sent]; try done.
  - intros j t. destruct (decide (i = j)) as [<-|Hne].
    + rewrite list_lookup_insert_eq by (by eapply lookup_lt_Some). by intros [= <-].
    + rewrite list_lookup_insert_ne by done. apply Hsess.
  - intros j k t u q Hj Hk Ht Hu. pose proof (lookup_lt_Some _ _ _ Hi) as Hlt.
    destruct (decide (i = j)) as [<-|Hne], (decide (i = k)) as [<-|Hnk]; [done|..].
    + rewrite list_lookup_insert_eq in Hj by done. rewrite list_lookup_insert_ne in Hk by done. simplify_eq.
      exfalso. by eapply (Hg k).
    + rewrite list_lookup_insert_eq in Hk by done. rewrite list_lookup_insert_ne in Hj by done. simplify_eq.
      exfalso. by eapply (Hg j).
    + rewrite list_lookup_insert_ne in Hj, Hk by done. by eapply Hguards.
  - by apply Forall_app.
  - unfold active in *. cbn [sess]. etrans; [eapply filter_insert_le; [done|by rewrite Ho]|done].
Qed.

Lemma refusals_ok tok stream (r : string) :
  r ∈ [GENERIC_REFUSAL; BUSY_REFUSAL; UNGRANTED_REFUSAL] → Forall (sent_ok tok) [(stream, r)].
Proof. intros. constructor; [by left|done]. Qed.

Lemma prefix_full (s : string) : prefix_of (String.length s) s = s.
Proof. by apply prefix_of_all. Qed.

(** A session moves on without the registry. *)
Lemma cinv_move n id tok st i s s' out :
  cinv n id tok st → sess st !! i = Some s → is_over s = false → sess_ok id tok (reg st) s' → guard_of s' = None →
  Forall (sent_ok tok) out →
  cinv (S n) id tok {| reg := reg st; serving := serving st; sess := <[i := s']> (sess st);
                       sent := (sent st ++ out)%list |}.
Proof.
  intros Hinv Hi Ho Hs Hg Hout. apply cinv_weaken. eapply cinv_replace; try done.
  intros j t q _ _ Hq. by rewrite Hg in Hq.
Qed.

(** A session moves on by a use of the registry that drops no guard. *)
Lemma cinv_call n id tok st i s o s' out :
  (Z.of_nat n < u64_max)%Z → cinv n id tok st → sess st !! i = Some s → is_over s = false →
  (∀ q, o ≠ DropGuard q) → sess_ok id tok (step (reg st) o) s' →
  (∀ j t q, sess st !! j = Some t → guard_of s' = Some q → guard_of t ≠ Some q) →
  Forall (sent_ok tok) out →
  cinv (S n) id tok {| reg := step (reg st) o; serving := serving st; sess := <[i := s']> (sess st);
                       sent := (sent st ++ out)%list |}.
Proof.
  intros Hn Hinv Hi Hov Ho Hs Hg Hout.
  apply (cinv_replace (S n) id tok {| reg := step (reg st) o; serving := serving st; sess := sess st; sent := sent st |}
           i s s' out); try done; [|intros j t q Hj _; by eapply Hg].
  apply cinv_registry; [done|done|]. intros j u Hj. right. intros q _. apply Ho.
Qed.

Lemma live_token n id tok st now g gr :
  cinv n id tok st → live (reg st) now id = (g, Some gr) → token gr = tok.
Proof.
  intros Hinv. unfold live. destruct (grants (reg st) !! id) as [[gr' c]|] eqn:Eg; [|done].
  simpl. case_match; [|done]. intros [= _ <-]. by apply (ci_tok _ _ _ _ Hinv) in Eg.
Qed.

(** A session registers its pipe, or is refused. *)
Lemma cinv_register n id tok st i stream laptop (cl : bool) g guard :
  (Z.of_nat n < u64_max)%Z → cinv n id tok st → sess st !! i = Some (Timed stream laptop) →
  register_pipe (reg st) id (if cl then Some (stream, laptop) else None) = (g, guard) →
  cinv (S n) id tok
    {| reg := g; serving := serving st;
       sess := <[i := match guard with Some q => Piping stream laptop q | None => Over end]> (sess st);
       sent := (sent st ++ match guard with Some _ => [] | None => [(stream, UNGRANTED_REFUSAL)] end)%list |}.
Proof.
  intros Hn Hinv Hi E.
  pose proof (cinv_call n id tok st i _ (RegisterPipe id (if cl then Some (stream, laptop) else None))
    (match guard with Some q => Piping stream laptop q | None => Over end)
    (match guard with Some _ => [] | None => [(stream, UNGRANTED_REFUSAL)] end) Hn Hinv Hi eq_refl ltac:(done)) as H.
  cbn [step] in H. rewrite E in H. cbn [fst] in H. unfold register_pipe in E.
  destruct (negb (is_some (grants (reg st) !! id))); [|destruct cl]; simplify_eq; apply H; try done;
    try (apply refusals_ok; set_solver).
  - destruct (ci_ok _ _ _ _ Hinv) as (Hb & _). simpl. rewrite fetch_add_small by lia.
    split; [done|]. split; [lia|]. left. eexists. split; [apply lookup_insert_eq|]. set_solver.
  - intros j u q Hj [= <-] Hu. pose proof (ci_sess _ _ _ _ Hinv j u Hj) as Hok.
    destruct u; simpl in *; try done. simplify_eq. simpl in Hok. lia.
Qed.

(** A session ends and drops its guard, which is no other session's. *)
Lemma cinv_end n id tok st i stream laptop guard :
  (Z.of_nat n < u64_max)%Z → cinv n id tok st → sess st !! i = Some (Piping stream laptop guard) →
  cinv (S n) id tok {| reg := drop_guard (reg st) guard; serving := serving st; sess := <[i := Over]> (sess st);
                       sent := (sent st ++ [])%list |}.
Proof.
  intros Hn Hinv Hi.
  pose proof (cinv_replace n id tok st i (Piping stream laptop guard) Over [] Hinv Hi eq_refl I
    ltac:(done) ltac:(done)) as H.
  apply (cinv_registry n id tok _ (DropGuard guard)) in H; [done|done|].
  cbn [sess]. intros j u Hj. right. intros q Hq [= <-].
  destruct (decide (i = j)) as [<-|Hne].
  - rewrite list_lookup_insert_eq in Hj by (by eapply lookup_lt_Some). by simplify_eq.
  - rewrite list_lookup_insert_ne in Hj by done. apply Hne.
    by eapply (ci_guards _ _ _ _ Hinv).
Qed.

Lemma cinv_session n id tok st i a st' :
  (Z.of_nat n < u64_max)%Z → cinv n id tok st → cstep id st (ESession i a) = Some st' → cinv (S n) id tok st'.
Proof.
  intros Hn Hinv. cbn [cstep]. destruct (sess st !! i) as [s|] eqn:Hi; [|done]. cbn [mbind option_bind].
  destruct (sess_step (reg st) id s a) as [[[g s'] out]|] eqn:E; [|done]. cbn [mbind option_bind].
  intros [= <-]. pose proof (ci_sess _ _ _ _ Hinv i s Hi) as Hs.
  destruct s as [d|stream t|stream laptop t|stream laptop|stream laptop|stream laptop guard|], a as [now|l|w|ok|cl|];
    try done; simpl in E.
  - destruct (connected_stream d) as [[stream peer]|]; [|simplify_eq; by eapply cinv_move].
    destruct (is_loopback (ip peer)); cbn [negb] in E; [|simplify_eq; by eapply cinv_move].
    destruct (live (reg st) now id) as [g' [gr|]] eqn:El; simplify_eq;
      (replace g with (step (reg st) (Live now id)) by (simpl; by rewrite El)); eapply cinv_call; try done.
    + by eapply live_token.
    + apply refusals_ok. set_solver.
  - destruct l as [l|]; simplify_eq; eapply cinv_move; try done. apply refusals_ok. set_solver.
  - simpl in Hs. subst t. destruct w as [w|]; simplify_eq; eapply cinv_move; try done.
    + constructor; [right; by exists w|]. apply refusals_ok. set_solver.
    + constructor; [right; exists (String.length (relay_line tok)); simpl; by rewrite prefix_full|done].
  - simplify_eq. by destruct ok; eapply cinv_move.
  - destruct (register_pipe _ _ _) as [g' guard] eqn:Er.
    pose proof (cinv_register n id tok st i stream laptop cl g' guard Hn Hinv Hi Er).
    by destruct guard; simplify_eq.
  - simplify_eq. by eapply cinv_end.
Qed.

(** The control channel ends: the grant goes with it. *)
Lemma cinv_close n id tok st :
  (Z.of_nat n < u64_max)%Z → cinv n id tok st →
  cinv (S n) id tok {| reg := expire (reg st) id; serving := false; sess := sess st; sent := sent st |}.
Proof.
  intros Hn Hinv. apply (cinv_registry n id tok st (Expire id)) in Hinv; [|done|intros; by right].
  destruct Hinv. split; try done. intros _. simpl. apply lookup_delete_eq.
Qed.

Lemma cinv_push n id tok st d :
  cinv n id tok st → (active st < MAX_CONCURRENT_CONNECTIONS)%nat →
  cinv n id tok {| reg := reg st; serving := serving st; sess := (sess st ++ [Fresh d])%list; sent := sent st |}.
Proof.
  intros [Hok Hid Htok Hgone Hsess Hguards Hsent Hact] Hlt. split; cbn [reg serving sess sent]; try done.
  - intros i s [H|[_ [_ <-]%list_lookup_singleton_Some]]%lookup_app_Some; [by eapply Hsess|done].
  - intros i j s t q [Hi|[_ [_ <-]%list_lookup_singleton_Some]]%lookup_app_Some
      [Hj|[_ [_ <-]%list_lookup_singleton_Some]]%lookup_app_Some Hs Ht; try done. by eapply Hguards.
  - unfold active in *. cbn [sess]. rewrite List.filter_app, length_app. simpl. lia.
Qed.

Lemma cinv_step n id tok st e st' :
  (Z.of_nat n < u64_max)%Z → cinv n id tok st → cstep id st e = Some st' → cinv (S n) id tok st'.
Proof.
  intros Hn Hinv. destruct e as [ok|m|i a|o].
  - cbn [cstep]. destruct (serving st) eqn:Es; [|done]. intros [= <-].
    destruct ok; [by apply cinv_weaken|by apply cinv_close].
  - cbn [cstep]. destruct (serving st) eqn:Es; [|done]. intros [= <-]. unfold control_step.
    destruct m as [[m [d|]]|]; try by apply cinv_close. case_bool; [|by apply cinv_close].
    unfold acquire. destruct (Nat.eqb_spec (active st) MAX_CONCURRENT_CONNECTIONS) as [Ea|Ea].
    + apply cinv_weaken. destruct Hinv as [Hok Hid Htok Hgone Hsess Hguards Hsent Hact].
      split; cbn [reg serving sess sent]; try done. apply Forall_app. split; [done|].
      unfold busy. destruct (connected_stream d) as [[stream ?]|]; [|done]. apply refusals_ok. set_solver.
    + apply cinv_weaken. pose proof (cinv_push n id tok st d Hinv) as H. rewrite Es in H. apply H.
      pose proof (ci_active _ _ _ _ Hinv). lia.
  - by apply cinv_session.
  - cbn [cstep]. destruct (foreign id o) eqn:Ef; [|done]. intros [= <-]. apply cinv_registry; [done|done|].
    intros i s Hi. destruct s as [| | | | |stream laptop guard|]; try by left. right. intros q [= <-] ->.
    destruct (ci_sess _ _ _ _ Hinv i _ Hi) as (Hg & _). simpl in Ef. rewrite Hg, Z.eqb_refl in Ef. done.
Qed.

Lemma cinv_run n id tok st events st' :
  (Z.of_nat (n + length events) <= u64_max)%Z → cinv n id tok st → crun id st events = Some st' →
  cinv (n + length events) id tok st'.
Proof.
  revert n st. induction events as [|e events IH]; intros n st Hn Hinv; cbn [crun].
  - intros [= <-]. by rewrite Nat.add_0_r.
  - destruct (cstep id st e) as [st1|] eqn:E; [|done]. cbn [mbind option_bind]. intros H. simpl in Hn.
    eapply (IH (S n)) in H; [|lia|eapply cinv_step; [|done..]; lia].
    simpl. by rewrite Nat.add_succ_r.
Qed.

Lemma cinv_start pre id e :
  (Z.of_nat (length pre) <= u64_max)%Z → grants (run pre) !! id = Some e →
  cinv (length pre) id (token (grant e)) (cstart (run pre)).
Proof.
  intros Hl He. pose proof (run_ok pre Hl) as Hok. pose proof Hok as (_ & Hg & _).
  split; cbn [reg serving sess sent cstart]; try done.
  - apply Hg in He. lia.
  - intros e' He'. by simplify_eq.
  - unfold active. simpl. lia.
Qed.

(** C6: no session outlives its grant.  While the control loop, the sessions
    and every other user of the registry interleave, the shutdown calls of each
    ending included: a session that is piping has its pipe in the registry, or
    each of its two sockets has been shut or is among the calls that an ending
    under way has still to make.  Once the registry no longer holds the grant,
    for whatever reason, it is the latter; it stays so whatever is done to the
    registry; and when the endings have made their calls, both sockets are shut.
    The end of the control channel takes the grant from the registry; and at
    most 32 sessions are open. *)
Theorem session_ends_with_grant pre id e events st :
  (Z.of_nat (length pre + length events) <= u64_max)%Z →
  grants (run pre) !! id = Some e → crun id (cstart (run pre)) events = Some st →
  (serving st = false → grants (reg st) !! id = None) ∧ (active st <= 32)%nat ∧
  ∀ i stream laptop guard, sess st !! i = Some (Piping stream laptop guard) →
    (pipe_held (reg st) id guard.2 (stream, laptop) ∨ both_going (reg st) (stream, laptop)) ∧
    (grants (reg st) !! id = None →
       both_going (reg st) (stream, laptop) ∧
       ∀ ops, let later := fold_left step ops (reg st) in
         both_going later (stream, laptop) ∧ {[stream; laptop]} ⊆ closed (settle later)).
Proof.
  intros Hl He Hrun. pose proof (cinv_start pre id e ltac:(lia) He) as H0.
  pose proof (cinv_run _ _ _ _ _ _ Hl H0 Hrun) as H.
  split; [apply (ci_gone _ _ _ _ H)|]. split; [apply (ci_active _ _ _ _ H)|].
  intros i stream laptop guard Hi. destruct (ci_sess _ _ _ _ H i _ Hi) as (_ & _ & Hc).
  split; [done|]. intros Hn. destruct Hc as [(h & Hp & _)|Hc].
  { destruct (ci_ok _ _ _ _ H) as (_ & _ & _ & Hpipes). apply Hpipes in Hp as [? Hp]. congruence. }
  split; [done|]. intros ops later. destruct Hc as [H1 H2]. apply (run_going _ ops) in H1, H2.
  split; [done|]. cbn in H1, H2. intros x Hx. apply settle_going. set_solver.
Qed.

(** The laptop is asked with the grant's own token.  Whatever a grant's
    sessions write is one of the three refusals or the request line with the
    token of that grant, in whole or cut short by a failed write; and the
    whole line is read by the laptop's relay as exactly that token. *)
Lemma sessions_present_grant_token pre id e events st now timeout at_ :
  (Z.of_nat (length pre + length events) <= u64_max)%Z →
  grants (run pre) !! id = Some e → crun id (cstart (run pre)) events = Some st →
  contains_byte newline (token (grant e)) = false → (String.length (token (grant e)) <= 121)%nat →
  (now + timeout <= Time.instant_max)%Z → (at_ < now + timeout)%Z →
  Forall (λ x, x.2 ∈ [GENERIC_REFUSAL; BUSY_REFUSAL; UNGRANTED_REFUSAL] ∨
               ∃ n, x.2 = prefix_of n (relay_line (token (grant e)))) (sent st) ∧
  read_relay_token now timeout (script_of at_ (relay_line (token (grant e)))) = Some (Some (token (grant e))).
Proof.
  intros Hl He Hrun Hnl Hlen Hmax Hat. split.
  - pose proof (cinv_start pre id e ltac:(lia) He) as H0. apply (ci_sent _ _ _ _ (cinv_run _ _ _ _ _ _ Hl H0 Hrun)).
  - by apply relay_line_read.
Qed.

(** * The relay hands over only its own *)
Section admission.
Context (resolver : Owner.SocketAddrV4 → Owner.SocketAddrV4 → option Z) (lookup : Z → option Process).

Lemma relay_handed anchor s events :
  Forall (λ c, admits resolver lookup anchor c = true) (handed s) →
  Forall (λ c, admits resolver lookup anchor c = true) (handed (relay_run resolver lookup anchor s events)).
Proof.
  revert s. induction events as [|e events IH]; intros s Hs; [done|]. apply IH.
  destruct e as [|c sent]; [done|]. unfold relay_step. repeat case_match; try done.
  simpl. apply Forall_app. split; [done|]. constructor; [|done]. by apply negb_false_iff.
Qed.

Lemma relay_ended anchor s events :
  ended s = true →
  handed (relay_run resolver lookup anchor s events) = handed s ∧
  ended (relay_run resolver lookup anchor s events) = true ∧
  (running (relay_run resolver lookup anchor s events) = true → ∀ c sent, Incoming c sent ∉ events).
Proof.
  revert s. induction events as [|e events IH]; intros s Hs.
  { split_and!; [done|done|]. intros _ c sent. apply not_elem_of_nil. }
  change (relay_run resolver lookup anchor s (e :: events))
    with (relay_run resolver lookup anchor (relay_step resolver lookup anchor s e) events).
  assert (ended (relay_step resolver lookup anchor s e) = true ∧
          handed (relay_step resolver lookup anchor s e) = handed s ∧
          (∀ c sent, e = Incoming c sent → running (relay_step resolver lookup anchor s e) = false)) as (H1 & H2 & H3).
  { destruct e as [|c sent]; [done|]. unfold relay_step. rewrite Hs. by destruct (running s) eqn:Er. }
  destruct (IH _ H1) as (Hh & He & Hr). rewrite <-H2. split_and!; [done|done|].
  intros Hrun c sent [E|Hin]%elem_of_cons; [|by eapply Hr].
  assert (∀ t evs, running t = false → running (relay_run resolver lookup anchor t evs) = false) as Hstop.
  { clear. intros t evs. revert t. induction evs as [|e evs IH]; intros t Ht; [done|]. apply IH.
    destruct e; [done|]. unfold relay_step. by rewrite Ht. }
  rewrite Hstop in Hrun; [done|]. by eapply H3.
Qed.

(** Only the session's own processes reach the browser.  Every connection
    the relay hands over was resolved to a process in the subtree of the
    grant's anchor, whose identity is that of the very process the grant was
    given to; from the moment the control channel ends nothing more is handed
    over, and the next connection, whoever makes it, ends the relay. *)
Lemma relay_hands_over_own anchor events pre post :
  (∀ c, c ∈ handed (relay_run resolver lookup anchor relay_start events) →
     ∃ peer local pid pr n,
       c_peer c = Some peer ∧ c_local c = Some local ∧ resolver peer local = Some pid ∧
       lookup (ap_pid anchor) = Some pr ∧ start pr = ap_start anchor ∧
       (n < MAX_ANCESTRY_HOPS)%nat ∧ anchored_chain lookup n pid (ap_pid anchor)) ∧
  (events = (pre ++ ControlReadable :: post)%list →
     handed (relay_run resolver lookup anchor relay_start events) =
       handed (relay_run resolver lookup anchor relay_start pre) ∧
     (running (relay_run resolver lookup anchor relay_start events) = true → ∀ c sent, Incoming c sent ∉ post)).
Proof.
  split.
  - intros c Hc. pose proof (relay_handed anchor relay_start events (Forall_nil_2 _)) as H.
    rewrite Forall_forall in H. specialize (H c Hc). unfold admits in H.
    destruct (c_peer c) as [peer|], (c_local c) as [local|]; try done.
    destruct (resolver peer local) as [pid|] eqn:Er; [|done]. cbn [is_some_and] in H.
    apply contains_with_spec in H as (pr & n & H1 & H2 & H3 & H4). by exists peer, local, pid, pr, n.
  - intros ->. unfold relay_run. rewrite foldl_app. cbn [foldl].
    set (s := foldl (relay_step resolver lookup anchor) relay_start pre).
    destruct (relay_ended anchor (relay_step resolver lookup anchor s ControlReadable) post eq_refl) as (H1 & _ & H3).
    split; [exact H1|exact H3].
Qed.

End admission.

(** * Pipes *)
Module Pipe.

Inductive Dir : Type := Outbound | Inbound.

Record Socket : Type := { shut_read : bool; shut_write : bool }.

Definition open_socket : Socket := {| shut_read := false; shut_write := false |}.
Definition shut_socket : Socket := {| shut_read := true; shut_write := true |}.

(** A direction: still copying, or what its [half] returned. *)
Inductive Half : Type := Copying | Returned (r : result Z ()).

Record Pipe : Type := {
  left : Socket;
  right : Socket;
  outbound : Half;
  inbound : Half;
  delivered : list (Dir * string);
}.

(** What [copy] meets next in a direction. *)
Inductive PipeEvent : Type := Copied (chunk : string) | Eof | Failed (errno : Z).

Definition from (p : Pipe) (d : Dir) : Socket := match d with Outbound => left p | Inbound => right p end.
Definition to (p : Pipe) (d : Dir) : Socket := match d with Outbound => right p | Inbound => left p end.
Definition half_of (p : Pipe) (d : Dir) : Half := match d with Outbound => outbound p | Inbound => inbound p end.

Definition set_half (p : Pipe) (d : Dir) (h : Half) : Pipe :=
  match d with
  | Outbound => {| left := left p; right := right p; outbound := h; inbound := inbound p; delivered := delivered p |}
  | Inbound => {| left := left p; right := right p; outbound := outbound p; inbound := h; delivered := delivered p |}
  end.

(** [Shutdown::Write] on the destination of a direction. *)
Definition shut_destination (p : Pipe) (d : Dir) : Pipe :=
  let shut s := {| shut_read := shut_read s; shut_write := true |} in
  match d with
  | Outbound => {| left := left p; right := shut (right p); outbound := outbound p; inbound := inbound p; delivered := delivered p |}
  | Inbound => {| left := shut (left p); right := right p; outbound := outbound p; inbound := inbound p; delivered := delivered p |}
  end.

(** [Shutdown::Both] on both. *)
Definition shut_both (p : Pipe) : Pipe :=
  {| left := shut_socket; right := shut_socket; outbound := outbound p; inbound := inbound p; delivered := delivered p |}.

(** One step of [half]; a read after [Shutdown::Read] ends, a write after
    [Shutdown::Write] fails, so only an open way carries bytes. *)
Definition half_step (p : Pipe) (d : Dir) (e : PipeEvent) : option Pipe :=
  match half_of p d with
  | Returned _ => None
  | Copying =>
      match e with
      | Copied chunk =>
          if shut_read (from p d) || shut_write (to p d) then None
          else Some {| left := left p; right := right p; outbound := outbound p; inbound := inbound p;
                       delivered := (delivered p ++ [(d, chunk)])%list |}
      | Eof => Some (set_half (shut_destination p d) d (Returned (Ok ())))
      | Failed errno => Some (set_half (shut_both p) d (Returned (Err errno)))
      end
  end.

(** [bidirectional]'s result, once both directions returned. *)
Definition bidirectional (p : Pipe) : option (result Z ()) :=
  match outbound p, inbound p with
  | Returned out, Returned inn => Some (match out with Ok () => inn | Err e => Err e end)
  | _, _ => None
  end.

Definition fresh_pipe : Pipe :=
  {| left := open_socket; right := open_socket; outbound := Copying; inbound := Copying; delivered := [] |}.

Fixpoint pipe_run (p : Pipe) (events : list (Dir * PipeEvent)) : option Pipe :=
  match events with
  | [] => Some p
  | (d, e) :: rest => p' ← half_step p d e; pipe_run p' rest
  end.

Definition failed (h : Half) : bool := match h with Returned (Err _) => true | _ => false end.
Definition returned (h : Half) : bool := match h with Copying => false | _ => true end.

(** Either something failed and everything is shut, or exactly the finished
    directions' destinations are half-closed. *)
Definition pipe_ok (p : Pipe) : Prop :=
  if failed (outbound p) || failed (inbound p) then left p = shut_socket ∧ right p = shut_socket
  else left p = {| shut_read := false; shut_write := returned (inbound p) |} ∧
       right p = {| shut_read := false; shut_write := returned (outbound p) |}.

Lemma half_step_ok p d e p' : pipe_ok p → half_step p d e = Some p' → pipe_ok p'.
Proof.
  unfold half_step, pipe_ok. destruct p as [l r ob ib del], d; simpl.
  - destruct ob as [|[]]; try done. simpl. destruct e; simpl.
    + intros H. destruct (shut_read l || shut_write r); [done|]. by intros [= <-].
    + destruct (failed ib) eqn:Ef; simpl; intros [-> ->] [= <-]; simpl; by rewrite Ef.
    + intros _ [= <-]. done.
  - destruct ib as [|[]]; try done. simpl. rewrite !orb_false_r. destruct e; simpl.
    + intros H. destruct (shut_read r || shut_write l); [done|]. intros [= <-]. simpl. by rewrite orb_false_r.
    + destruct (failed ob) eqn:Ef; simpl; intros [-> ->] [= <-]; simpl; by rewrite Ef.
    + intros _ [= <-]. simpl. by rewrite orb_true_r.
Qed.

Lemma pipe_run_ok p events p' : pipe_ok p → pipe_run p events = Some p' → pipe_ok p'.
Proof.
  revert p. induction events as [|[d e] events IH]; intros p Hp; cbn [pipe_run]; [by intros [= <-]|].
  destruct (half_step p d e) as [q|] eqn:E; [|done]. cbn [mbind option_bind]. apply IH. by eapply half_step_ok.
Qed.

(** An end closes one way, a failure closes both.  When one direction has
    reached its end and nothing failed, the other still carries bytes, so an
    answer to a finished request arrives; when a direction failed, no byte
    passes any more in the other, which ends instead of waiting; and an error
    of either direction is reported, that of the outbound one first. *)
Lemma pipe_half_close events p d d' chunk :
  pipe_run fresh_pipe events = Some p → d ≠ d' →
  (half_of p d = Returned (Ok ()) → half_of p d' = Copying →
     shut_write (to p d) = true ∧ is_Some (half_step p d' (Copied chunk))) ∧
  (failed (half_of p d) = true → half_step p d' (Copied chunk) = None ∧ left p = shut_socket ∧ right p = shut_socket) ∧
  (∀ r, bidirectional p = Some r →
     (r = Ok () ↔ failed (outbound p) = false ∧ failed (inbound p) = false) ∧
     (∀ e, outbound p = Returned (Err e) → r = Err e)).
Proof.
  intros Hr Hd. pose proof (pipe_run_ok fresh_pipe events p ltac:(done) Hr) as Hok. unfold pipe_ok in Hok.
  split_and!.
  - destruct d, d'; try done; simpl; intros H1 H2; rewrite H1, H2 in Hok; simpl in Hok; destruct Hok as [Hl Hrt];
      unfold half_step; simpl; rewrite H2, Hl, Hrt; simpl; by split; [|eexists].
  - intros Hf. assert (left p = shut_socket ∧ right p = shut_socket) as [Hl Hrt].
    { destruct d; simpl in Hf; rewrite Hf in Hok; by rewrite ?orb_true_r in Hok. }
    split; [|done]. unfold half_step. destruct (half_of p d'); [|done]. by destruct d'; simpl; rewrite Hl, Hrt.
  - intros r. unfold bidirectional. destruct (outbound p) as [|[[]|e1]], (inbound p) as [|[[]|e2]]; try done;
      intros [= <-]; simpl; split; naive_solver.
Qed.

Lemma pipe_half_close_witness :
  ∃ p, pipe_run fresh_pipe [(Outbound, Copied "GET /"); (Outbound, Eof)] = Some p ∧
    shut_write (to p Outbound) = true ∧ is_Some (half_step p Inbound (Copied "200 OK")).
Proof.
  eexists. split; [reflexivity|].
  apply (pipe_half_close [(Outbound, Copied "GET /"); (Outbound, Eof)] _ Outbound Inbound "200 OK" eq_refl); done.
Defined.

End Pipe.

(** Every descriptor a message carried is handed on or closed. *)
Lemma receive_keeps_one bytes message truncated fds r closed_ :
  received bytes message truncated fds = (r, closed_) →
  match r with
  | Ok (m, Some f) => m = message ∧ fds = f :: closed_
  | Ok (m, None) => m = message ∧ fds = [] ∧ closed_ = []
  | Err _ => closed_ = fds
  end.
Proof.
  unfold received. case_match; [by intros [= <- <-]|]. destruct truncated; [by intros [= <- <-]|].
  intros [= <- <-]. by destruct fds.
Qed.

(** * Instances *)
Definition demo_ops : list op := [Observe (demo_authority 1); InsertIf (demo_authority 1) demo_grant (Some 3%nat)].

Definition demo_descriptor : Descriptor :=
  {| fd := 4; sock_type := Some Stream; peer_addr := Some {| ip := Peers.V4 127 0 0 1; sport := 40000 |} |}.

Definition demo_session : list CEvent :=
  [EUnbounded true; EControl (Ok (CONNECTION, Some demo_descriptor)); ESession 0 (ANow 5); ESession 0 (ADial (Some 5%nat));
   ESession 0 (AWrite None); ESession 0 (ATimeouts true); ESession 0 (ARegister true);
   ERegistry (Observe (demo_authority 2))].

Definition demo_control : CState := default (cstart Grants_new) (crun 0 (cstart (run demo_ops)) demo_session).

(** The broker is locked while the session pipes: its sockets are two calls
    away, and stay so while another grant is redeemed. *)
Lemma session_ends_with_grant_witness :
  sess demo_control !! 0%nat = Some (Piping 4 5 (0, 1)%Z) ∧
  closed (reg demo_control) = ∅ ∧ endings (reg demo_control) = [[4; 5; 3]]%nat ∧
  {[4%nat; 5%nat]} ⊆ closed (settle (fold_left step [InsertIf (demo_authority 2) demo_grant (Some 6%nat)] (reg demo_control))).
Proof.
  split; [by vm_compute|]. split; [by vm_compute|]. split; [by vm_compute|].
  destruct (session_ends_with_grant demo_ops 0 {| grant := demo_grant; control := 3 |} demo_session demo_control)
    as (_ & _ & H); [by vm_compute..|].
  destruct (H 0%nat 4%nat 5%nat (0, 1)%Z) as [_ Hc]; [by vm_compute|].
  destruct Hc as [_ Hc]; [by vm_compute|]. apply Hc.
Defined.

Lemma sessions_present_grant_token_witness :
  Forall (λ x, x.2 ∈ [GENERIC_REFUSAL; BUSY_REFUSAL; UNGRANTED_REFUSAL] ∨ ∃ n, x.2 = prefix_of n (relay_line "t"))
    (sent demo_control) ∧
  read_relay_token 0 10 (script_of 5 (relay_line "t")) = Some (Some "t").
Proof.
  apply (sessions_present_grant_token demo_ops 0 {| grant := demo_grant; control := 3 |} demo_session demo_control 0 10 5);
    try (by vm_compute). simpl. lia.
Defined.
