(* ===== verification/Setup.v ===== *)
(** Starting the broker: its source roots ([crates/secrets/src/config.rs]), its
    settings and entry point ([daemon.rs]), process hardening
    ([crates/hygiene/src/hardening.rs]) and where its socket is
    ([SocketPath] of [crates/proto/src/client.rs]).

    The environment is a function from names to bytes.  The TOML parser and
    the conversion of one table ([try_into] of a struct that denies unknown
    fields) are the crate's: the first is a parameter, of the second only the
    message.  System calls are what they return. *)

From stdpp Require Import prelude strings list.
From Stdlib Require Import ZArith Lia Ascii.
From S2P Require Import Prelude Text Paths Store Requests.

Local Open Scope string_scope.

(** * Source roots *)
Record SourceRoot : Type := { root_name : string; root_path : string }.

Definition agent_files (r : SourceRoot) : string * string :=
  (join (root_path r) "secrets.local.env", join (root_path r) "secrets.env").

Definition human_dir (r : SourceRoot) : string := join (root_path r) "secrets.human.d".

Inductive ReadError : Type := ReadNotFound | ReadOther (message : string).

Inductive ConfigError : Type :=
| Missing (path : string)
| ReadFailed (path : string) (e : ReadError)
| Toml (message : string)
| BadRootName (name : string)
| RelativePath (path : string)
| DuplicatePath (first second : string)
| NoRoots
| RootNotDirectory (name path config : string)
| NoHome.

(** A TOML value, as far as the configuration looks at it. *)
Inductive Value : Type :=
| VTable (entries : list (string * Value))
| VString (s : string)
| VArray (items : list Value)
| VOther.

Definition environment : Type := string → option string.

Definition environment_path (env : environment) (name : string) : option string :=
  match env name with Some v => if is_empty v then None else Some v | None => None end.

Definition home_path (env : environment) : result ConfigError string :=
  home ← ok_or NoHome (environment_path env "HOME");
  if is_absolute home then Ok home else Err NoHome.

Definition config_path (env : environment) : result ConfigError string :=
  match environment_path env "SECRETSD_CONFIG" with
  | Some path => Ok path
  | None =>
      match environment_path env "XDG_CONFIG_HOME" with
      | Some path => Ok (join path "secretsd/config.toml")
      | None => home ← home_path env; Ok (join home ".config/secretsd/config.toml")
      end
  end.

Definition root_name_first (c : ascii) : bool := is_ascii_lowercase c.
Definition root_name_rest (c : ascii) : bool :=
  is_ascii_lowercase c || is_ascii_digit c || bool_decide (c = "-"%char).

Definition is_root_name (name : string) : bool :=
  match name with
  | EmptyString => false
  | String first rest => root_name_first first && all_bytes root_name_rest rest
  end.

(** [trim_start_matches('/')]. *)
Fixpoint trim_slashes (s : string) : string :=
  match s with
  | String c s' => if bool_decide (c = slash) then trim_slashes s' else s
  | EmptyString => EmptyString
  end.

Definition expand (raw home : string) : string :=
  if bool_decide (raw = "~") then home
  else match strip_prefix raw "~/" with
       | Some path => join home (trim_slashes path)
       | None => raw
       end.

Definition is_parent (c : Component) : bool := bool_decide (c = ParentDir).

Definition resolve_path (raw home : string) : result ConfigError string :=
  let path := expand raw home in
  if is_absolute path && negb (existsb is_parent (components path)) then Ok path else Err (RelativePath raw).

Section parse.
Context (parse_toml : string → result string (list (string * Value))) (raw_error : Value → string).

(** [value.try_into::<RawSource>()]: a table with the string [path] alone, or,
    as derived deserializers take a struct's fields in sequence too, an array of
    that one string. *)
Definition raw_source (v : Value) : result string string :=
  match v with
  | VTable [(k, VString path)] => if bool_decide (k = "path") then Ok path else Err (raw_error v)
  | VArray [VString path] => Ok path
  | _ => Err (raw_error v)
  end.

(** The loop over the declared roots.  [paths] is the map from resolved paths,
    compared by components, to the names that have them. *)
Fixpoint parse_roots (home : string) (paths : list (list Component * string)) (entries : list (string * Value)) :
    result ConfigError (list SourceRoot) :=
  match entries with
  | [] => Ok []
  | (name, value) :: rest =>
      if negb (is_root_name name) then Err (BadRootName name) else
      match raw_source value with
      | Err e => Err (Toml e)
      | Ok raw =>
          path ← resolve_path raw home;
          match List.find (λ kv, bool_decide (kv.1 = components path)) paths with
          | Some (_, first) => Err (DuplicatePath first name)
          | None =>
              roots ← parse_roots home ((components path, name) :: paths) rest;
              Ok ({| root_name := name; root_path := path |} :: roots)
          end
      end
  end.

Definition parse (text home : string) : result ConfigError (list SourceRoot) :=
  if negb (is_absolute home) then Err NoHome else
  match parse_toml text with
  | Err e => Err (Toml e)
  | Ok document =>
      match document with
      | [(k, source)] =>
          if negb (bool_decide (k = "source")) then Err (Toml "config must contain a top-level source table") else
          match source with
          | VTable [] => Err NoRoots
          | VTable entries => parse_roots home [] entries
          | _ => Err (Toml "top-level source must be a table")
          end
      | _ => Err (Toml "config must contain exactly one top-level source table")
      end
  end.

Definition load (env : environment) (read_to_string : string → result ReadError string) (is_dir : string → bool) :
    result ConfigError (list SourceRoot) :=
  home ← home_path env;
  config ← config_path env;
  match read_to_string config with
  | Err ReadNotFound => Err (Missing config)
  | Err e => Err (ReadFailed config e)
  | Ok text =>
      roots ← parse text home;
      match List.find (λ r, negb (is_dir (root_path r))) roots with
      | Some r => Err (RootNotDirectory (root_name r) (root_path r) config)
      | None => Ok roots
      end
  end.

End parse.

(** * Where the socket is *)
Definition SocketPath_resolve (override runtime_dir : option string) (uid : Z) : string :=
  match override, runtime_dir with
  | Some path, _ => path
  | None, Some directory =>
      if is_empty directory then "/run/user/" +:+ to_string uid +:+ "/secretsd.sock" else join directory "secretsd.sock"
  | None, None => "/run/user/" +:+ to_string uid +:+ "/secretsd.sock"
  end.

(** [std::env::var(name).ok()]: a value that is text. *)
Definition env_var (env : environment) (name : string) : option string := v ← env name; from_utf8 v.

(** [BrokerClient::from_environment]. *)
Definition client_socket (env : environment) (uid : Z) : string :=
  SocketPath_resolve (env_var env "SECRETSD_SOCK") (env_var env "XDG_RUNTIME_DIR") uid.

(** * The daemon's settings *)
Inductive TouchPolicy : Type := Cached | Always.

#[global] Instance TouchPolicy_eq_dec : EqDecision TouchPolicy.
Proof. solve_decision. Defined.

Record DaemonConfig : Type := {
  socket_path : string;
  human_sources : list HumanSource;
  sops_bin : string;
  pcsc_socket : option string;
  yubikey_probe_argv : list string;
  yubikey_probe_timeout : Z;
  touch_policy : TouchPolicy;
  max_grant : Z;
  max_requested_grant : Z;
  d_cooldown : Z;
  request_ttl : Z;
  max_pending : Z;
}.

Definition daemon_var (env : environment) (name : string) : option string :=
  match env_var env name with Some v => if is_empty v then None else Some v | None => None end.

Definition argv (env : environment) (name : string) : list string := default [] (split_whitespace <$> daemon_var env name).

Definition secs (env : environment) (name : string) (fallback : Z) : Z :=
  Time.from_secs (default fallback (daemon_var env name ≫= parse_unsigned u64_max)).

Inductive StartError : Type :=
| InvalidSources (e : ConfigError)
| InvalidInput (message : string).

Definition requested_grant_error : string := "SECRETSD_MAX_REQUESTED_GRANT_SECS must be a number of seconds".

Definition max_requested (env : environment) : result StartError Z :=
  match env "SECRETSD_MAX_REQUESTED_GRANT_SECS" with
  | None => Ok (Time.from_secs (24 * 3600))
  | Some raw =>
      match from_utf8 raw ≫= parse_unsigned u64_max with
      | Some n => Ok (Time.from_secs n)
      | None => Err (InvalidInput requested_grant_error)
      end
  end.

Definition touch_policy_of (env : environment) : result StartError TouchPolicy :=
  match daemon_var env "SECRETSD_TOUCH_POLICY" with
  | None => Ok Cached
  | Some v =>
      if bool_decide (v = "cached") then Ok Cached else if bool_decide (v = "always") then Ok Always
      else Err (InvalidInput "SECRETSD_TOUCH_POLICY must be cached (default) or always")
  end.

(** The sources are loaded first, so their error comes first. *)
Definition from_env (sources : result ConfigError (list SourceRoot)) (env : environment) (uid : Z) :
    result StartError DaemonConfig :=
  match sources with
  | Err e => Err (InvalidSources e)
  | Ok roots =>
      requested ← max_requested env;
      policy ← touch_policy_of env;
      Ok {|
        socket_path := SocketPath_resolve (daemon_var env "SECRETSD_SOCKET") (daemon_var env "XDG_RUNTIME_DIR") uid;
        human_sources := (λ r, {| hs_label := root_name r; hs_dir := human_dir r |}) <$> roots;
        sops_bin := default "sops" (daemon_var env "SECRETSD_SOPS_BIN");
        pcsc_socket := daemon_var env "PCSCLITE_CSOCK_NAME";
        yubikey_probe_argv := argv env "SECRETSD_YUBIKEY_PROBE_CMD";
        yubikey_probe_timeout := secs env "SECRETSD_YUBIKEY_PROBE_TIMEOUT_SECS" 2;
        touch_policy := policy;
        max_grant := secs env "SECRETSD_MAX_GRANT_SECS" 43200;
        max_requested_grant := requested;
        d_cooldown := secs env "SECRETSD_COOLDOWN_SECS" 16;
        request_ttl := secs env "SECRETSD_REQUEST_TTL_SECS" 90;
        max_pending := default 3%Z (daemon_var env "SECRETSD_MAX_PENDING" ≫= parse_unsigned u64_max);
      |}
  end.

Definition cooldown_error : string :=
  "SECRETSD_COOLDOWN_SECS must exceed the 15s PIV touch cache; a shorter cooldown is safe only with SECRETSD_TOUCH_POLICY=always hardware".

Definition validate (c : DaemonConfig) : result StartError () :=
  if bool_decide (touch_policy c = Cached) && (d_cooldown c <=? Time.from_secs 15)%Z
  then Err (InvalidInput cooldown_error) else Ok ().

(** The queue the server starts with. *)
Definition queue_limits (c : DaemonConfig) : QueueLimits :=
  {| cooldown := d_cooldown c; ttl := request_ttl c; max_pending_per_scope := max_pending c |}.

(** * Hardening *)
Inductive MemlockPolicy : Type := Require | Optional.

Inductive HardeningError : Type :=
| MemlockLimit (errno : Z)
| InsufficientMemlock (soft hard : Z)
| Memlock (errno : Z)
| Dumpable (errno : Z)
| CoreLimit (errno : Z).

Definition MIN_MEMLOCK_BYTES : Z := 512 * 1024 * 1024.
Definition RLIM_INFINITY : Z := u64_max.

Definition validate_memlock_limits (soft hard : Z) : result HardeningError () :=
  if ((soft =? RLIM_INFINITY) || (MIN_MEMLOCK_BYTES <=? soft))%Z &&
     ((hard =? RLIM_INFINITY) || (MIN_MEMLOCK_BYTES <=? hard))%Z
  then Ok () else Err (InsufficientMemlock soft hard).

(** The system calls and what the process is like after them. *)
Record Kernel : Type := {
  set_dumpable : result Z ();
  set_core_limit : result Z ();
  get_memlock : result Z (Z * Z);
  mlockall : result Z ();
}.

Record Process : Type := { dumpable : bool; core_limited : bool; locked : bool }.

Definition apply_no_core_dumps (k : Kernel) (p : Process) : Process * result HardeningError () :=
  match set_dumpable k with
  | Err e => (p, Err (Dumpable e))
  | Ok () =>
      let p := {| dumpable := false; core_limited := core_limited p; locked := locked p |} in
      match set_core_limit k with
      | Err e => (p, Err (CoreLimit e))
      | Ok () => ({| dumpable := false; core_limited := true; locked := locked p |}, Ok ())
      end
  end.

Definition validate_memlock_limit (k : Kernel) : result HardeningError () :=
  match get_memlock k with
  | Err e => Err (MemlockLimit e)
  | Ok (soft, hard) => validate_memlock_limits soft hard
  end.

Definition tolerate (policy : MemlockPolicy) (e : HardeningError) : result HardeningError () :=
  match policy with Require => Err e | Optional => Ok () end.

Definition apply (k : Kernel) (policy : MemlockPolicy) (p : Process) : Process * result HardeningError () :=
  match apply_no_core_dumps k p with
  | (p, Err e) => (p, Err e)
  | (p, Ok ()) =>
      match validate_memlock_limit k with
      | Err e => (p, tolerate policy e)
      | Ok () =>
          match mlockall k with
          | Ok () => ({| dumpable := dumpable p; core_limited := core_limited p; locked := true |}, Ok ())
          | Err e => (p, tolerate policy (Memlock e))
          end
      end
  end.

Definition memlock_policy (env : environment) : result string MemlockPolicy :=
  match env "SECRETSD_MEMLOCK" with
  | None => Ok Require
  | Some v =>
      if bool_decide (v = "require") then Ok Require else if bool_decide (v = "optional") then Ok Optional
      else Err "SECRETSD_MEMLOCK must be require (default) or optional"
  end.

(** [serve_main], up to the call of [server::serve]: the process and the
    configuration it serves with, if it gets there. *)
Definition serve_main (k : Kernel) (env : environment) (sources : result ConfigError (list SourceRoot)) (uid : Z)
    (p : Process) : Process * option DaemonConfig :=
  match memlock_policy env with
  | Err _ => (p, None)
  | Ok policy =>
      match apply k policy p with
      | (p, Err _) => (p, None)
      | (p, Ok ()) =>
          match from_env sources env uid with
          | Err _ => (p, None)
          | Ok c => match validate c with Err _ => (p, None) | Ok () => (p, Some c) end
          end
      end
  end.

(** * Parsed roots *)

(** What every configured list of roots satisfies. *)
Record roots_ok (roots : list SourceRoot) : Prop := {
  ro_some : roots ≠ [];
  ro_names : Forall (λ r, is_root_name (root_name r) = true) roots;
  ro_absolute : Forall (λ r, is_absolute (root_path r) = true) roots;
  ro_no_parent : Forall (λ r, ParentDir ∉ components (root_path r)) roots;
  ro_distinct : NoDup ((λ r, components (root_path r)) <$> roots);
}.

Lemma resolve_path_ok raw home p :
  resolve_path raw home = Ok p → p = expand raw home ∧ is_absolute p = true ∧ ParentDir ∉ components p.
Proof.
  unfold resolve_path. destruct (is_absolute _ && _) eqn:Hb; [|done]. intros [= <-]. apply andb_true_iff in Hb as [Ha Hp].
  split_and!; [done|done|]. apply negb_true_iff in Hp. intros Hin. rewrite existsb_false in Hp.
  specialize (Hp _ Hin). by vm_compute in Hp.
Qed.

Section parsed.
Context (parse_toml : string → result string (list (string * Value))) (raw_error : Value → string).

Lemma parse_roots_ok home paths entries roots :
  parse_roots raw_error home paths entries = Ok roots →
  root_name <$> roots = entries.*1 ∧
  Forall (λ r, is_root_name (root_name r) = true ∧ is_absolute (root_path r) = true ∧
               ParentDir ∉ components (root_path r) ∧ components (root_path r) ∉ paths.*1) roots ∧
  NoDup ((λ r, components (root_path r)) <$> roots).
Proof.
  revert paths roots. induction entries as [|[name v] entries IH]; intros paths roots; cbn [parse_roots].
  { intros [= <-]. split_and!; [done|done|constructor]. }
  destruct (is_root_name name) eqn:En; [|done]. cbn [negb]. destruct (raw_source raw_error v) as [raw|]; [|done].
  destruct (resolve_path raw home) as [path|] eqn:Er; [|done]. cbn [mbind result_bind].
  apply resolve_path_ok in Er as (_ & Ha & Hp).
  destruct (List.find _ paths) as [[? first]|] eqn:Ef; [done|]. pose proof (proj1 (find_None _ _) Ef) as Hnone. clear Ef.
  assert (components path ∉ paths.*1) as Hnew.
  { intros ([k f] & Hk & Hin)%list_elem_of_fmap. specialize (Hnone _ Hin). simpl in *.
    by rewrite bool_decide_eq_true_2 in Hnone. }
  destruct (parse_roots raw_error home _ entries) as [rest|] eqn:E; [|done]. cbn [mbind result_bind]. intros [= <-].
  destruct (IH _ _ E) as (Hn & Hf & Hd). split_and!.
  - cbn [fmap list_fmap]. by rewrite Hn.
  - constructor; [done|]. eapply Forall_impl; [exact Hf|]. intros r (H1 & H2 & H3 & H4).
    split_and!; [done..|]. cbn [fmap list_fmap] in H4. by apply not_elem_of_cons in H4 as [_ H4].
  - cbn [fmap list_fmap]. constructor; [|done]. intros (r & Hr & Hin)%list_elem_of_fmap.
    rewrite Forall_forall in Hf. destruct (Hf r Hin) as (_ & _ & _ & H). apply H.
    cbn [fmap list_fmap]. rewrite <-Hr. by constructor.
Qed.

(** C40: a parsed configuration is well-formed.  Whatever the file says, a list
    of roots comes out only non-empty, with names of the grammar in the order
    of the file, absolute paths without a parent segment, no two of them the
    same directory by components; and the files of a root are one name below
    it. *)
Theorem parsed_sources_wellformed text home roots :
  parse parse_toml raw_error text home = Ok roots →
  roots_ok roots ∧
  (∃ entries, parse_toml text = Ok [("source", VTable entries)] ∧ root_name <$> roots = entries.*1) ∧
  Forall (λ r, components (human_dir r) = (components (root_path r) ++ [Normal "secrets.human.d"])%list ∧
               components (agent_files r).1 = (components (root_path r) ++ [Normal "secrets.local.env"])%list ∧
               components (agent_files r).2 = (components (root_path r) ++ [Normal "secrets.env"])%list) roots.
Proof.
  unfold parse. destruct (is_absolute home); [|done]. cbn [negb]. destruct (parse_toml text) as [doc|] eqn:Ed; [|done].
  destruct doc as [|[k source] [|? ?]]; try done. case_bool; [done|]. subst k.
  destruct source as [entries| | |]; try done. destruct entries as [|e entries]; [done|].
  intros (Hn & Hf & Hd)%parse_roots_ok. split_and!.
  - split; [by destruct roots| | | |done]; (eapply Forall_impl; [exact Hf|]); by intros r (? & ? & ? & ?).
  - by eexists.
  - eapply Forall_impl; [exact Hf|]. intros r (_ & Ha & _ & _).
    unfold human_dir, agent_files. cbn [fst snd]. rewrite !components_join by done. split_and!; done.
Qed.

End parsed.

(** * A started daemon *)
Lemma mark_decrypting_waits q i now q' g :
  mark_decrypting q i now = (q', Some g) →
  ∀ last, last_finished q = Some last → (now < last ∨ last + cooldown (limits q) <= now)%Z.
Proof.
  unfold mark_decrypting. destruct (cooling q now) eqn:Ec; [by rewrite orb_true_r|].
  intros _ last Hl. unfold cooling in Ec. rewrite Hl in Ec. cbn [is_some_and] in Ec.
  unfold Time.checked_duration_since in Ec. destruct (Z.leb_spec last now); cbn [is_some_and] in Ec; [|by left].
  bool_to_prop. right. lia.
Qed.

Lemma apply_hardens k policy p p' :
  apply k policy p = (p', Ok ()) →
  dumpable p' = false ∧ core_limited p' = true ∧ (locked p' = true ∨ policy = Optional).
Proof.
  unfold apply, apply_no_core_dumps. destruct (set_dumpable k) as [[]|]; [|done].
  destruct (set_core_limit k) as [[]|]; [|done].
  destruct (validate_memlock_limit k) as [[]|e]; [destruct (mlockall k) as [[]|e]|]; unfold tolerate;
    destruct policy; intros [= <-]; auto.
Qed.

(** C25: the daemon serves only when it is safe to.  If start-up gets as far as
    serving, core dumps are off for this process and its children; its memory
    is locked unless the operator allowed otherwise by name; every source is
    the human directory of a configured root; a ceiling on requested lifetimes
    that the operator set is the one in force, never the default; and the
    touch that opened the hardware's cache cannot pay for a second decrypt:
    unless every decrypt needs its own touch, no queue with these limits starts
    one within 15 seconds after the last one ended. *)
Theorem daemon_starts_guarded k env sources uid p p' c :
  serve_main k env sources uid p = (p', Some c) →
  dumpable p' = false ∧ core_limited p' = true ∧
  (locked p' = true ∨ env "SECRETSD_MEMLOCK" = Some "optional") ∧
  (∃ roots, sources = Ok roots ∧
     human_sources c = (λ r, {| hs_label := root_name r; hs_dir := human_dir r |}) <$> roots) ∧
  (∀ raw, env "SECRETSD_MAX_REQUESTED_GRANT_SECS" = Some raw →
     ∃ n, from_utf8 raw ≫= parse_unsigned u64_max = Some n ∧ max_requested_grant c = Time.from_secs n) ∧
  (touch_policy c = Cached → ∀ q i now q' g last,
     limits q = queue_limits c → mark_decrypting q i now = (q', Some g) → last_finished q = Some last →
     (now < last ∨ last + Time.from_secs 15 < now)%Z).
Proof.
  unfold serve_main. destruct (memlock_policy env) as [policy|] eqn:Em; [|done].
  destruct (apply k policy p) as [p1 [[]|]] eqn:Ea; [|done].
  destruct (from_env sources env uid) as [c'|] eqn:Ec; [|done].
  destruct (validate c') as [[]|] eqn:Ev; [|done]. intros [= <- <-].
  pose proof (apply_hardens _ _ _ _ Ea) as (H1 & H2 & H3). split_and!; [done|done| | | |].
  - destruct H3 as [?| ->]; [by left|right]. unfold memlock_policy in Em.
    destruct (env "SECRETSD_MEMLOCK"); [|done]. repeat case_bool; simplify_eq; done.
  - unfold from_env in Ec. destruct sources as [roots|]; [|done]. exists roots. split; [done|].
    destruct (max_requested env); [|done]. destruct (touch_policy_of env); [|done].
    cbn [mbind result_bind] in Ec. by injection Ec as <-.
  - intros raw Hraw. unfold from_env in Ec. destruct sources as [roots|]; [|done].
    unfold max_requested in Ec. rewrite Hraw in Ec.
    destruct (from_utf8 raw ≫= parse_unsigned u64_max) as [n|]; [|done]. exists n. split; [done|].
    cbn [mbind result_bind] in Ec. destruct (touch_policy_of env); [|done].
    cbn [mbind result_bind] in Ec. by injection Ec as <-.
  - intros Ht q i now q' g last Hl Hm Hlast. pose proof (mark_decrypting_waits _ _ _ _ _ Hm last Hlast) as [?|H]; [by left|].
    right. rewrite Hl in H. cbn [queue_limits cooldown] in H. unfold validate in Ev.
    rewrite bool_decide_eq_true_2 in Ev by done. cbn [andb] in Ev.
    destruct (Z.leb_spec (d_cooldown c') (Time.from_secs 15)); [done|]. lia.
Qed.

(** * The socket of the daemon and of its clients *)
Definition daemon_socket (env : environment) (uid : Z) : string :=
  SocketPath_resolve (daemon_var env "SECRETSD_SOCKET") (daemon_var env "XDG_RUNTIME_DIR") uid.

(** Clients find the daemon unless a path was set.  Without an override
    both derive the same path, from whatever the runtime directory's variable
    holds; but the daemon reads its override from SECRETSD_SOCKET and clients
    theirs from SECRETSD_SOCK, so a daemon moved with the one is looked for at
    the old place, and an empty SECRETSD_SOCK sends clients to an empty path. *)
Lemma socket_agreement env uid :
  (daemon_var env "SECRETSD_SOCKET" = None → env_var env "SECRETSD_SOCK" = None →
     daemon_socket env uid = client_socket env uid) ∧
  (∀ path, daemon_var env "SECRETSD_SOCKET" = Some path → env_var env "SECRETSD_SOCK" = None →
     daemon_socket env uid = path ∧
     client_socket env uid = client_socket (λ name, if bool_decide (name = "SECRETSD_SOCKET") then None else env name) uid) ∧
  (env "SECRETSD_SOCK" = Some "" → client_socket env uid = "").
Proof.
  unfold daemon_socket, client_socket. split_and!.
  - intros -> ->. unfold daemon_var. destruct (env_var env "XDG_RUNTIME_DIR") as [d|]; [|done].
    destruct d as [|ch d]; done.
  - intros path -> Hs. split; [done|]. rewrite Hs.
    assert (∀ name, name ≠ "SECRETSD_SOCKET" →
      env_var (λ name, if bool_decide (name = "SECRETSD_SOCKET") then None else env name) name = env_var env name) as E.
    { intros name Hn. unfold env_var. by rewrite bool_decide_eq_false_2. }
    by rewrite !E, Hs.
  - intros H. unfold env_var. by rewrite H.
Qed.

(** * Instances *)
Definition demo_toml (text : string) : result string (list (string * Value)) :=
  if bool_decide (text = "demo")
  then Ok [("source", VTable [("dotfiles", VTable [("path", VString "~/dotfiles")]);
                              ("work-1", VTable [("path", VString "/srv/work")])])]
  else Err "no".

Lemma parsed_sources_wellformed_witness :
  ∃ roots, parse demo_toml (λ _, "bad") "demo" "/home/me" = Ok roots ∧
    roots_ok roots ∧
    (∃ entries, demo_toml "demo" = Ok [("source", VTable entries)] ∧ root_name <$> roots = entries.*1) ∧
    Forall (λ r, components (human_dir r) = (components (root_path r) ++ [Normal "secrets.human.d"])%list ∧
                 components (agent_files r).1 = (components (root_path r) ++ [Normal "secrets.local.env"])%list ∧
                 components (agent_files r).2 = (components (root_path r) ++ [Normal "secrets.env"])%list) roots.
Proof.
  destruct (parse demo_toml (λ _, "bad") "demo" "/home/me") as [roots|] eqn:E; [|by vm_compute in E].
  exists roots. split; [done|]. by apply (parsed_sources_wellformed demo_toml (λ _, "bad") "demo" "/home/me").
Defined.

(** The same directory spelled differently, and a parent segment. *)
Example duplicate_by_components :
  parse_roots (λ _, "bad") "/home/me" []
    [("a", VTable [("path", VString "~/x")]); ("b", VTable [("path", VString "/home//me/./x/")])] =
  Err (DuplicatePath "a" "b").
Proof. by vm_compute. Qed.

Example parent_refused : resolve_path "~/../you" "/home/me" = Err (RelativePath "~/../you").
Proof. by vm_compute. Qed.

Definition demo_kernel : Kernel :=
  {| set_dumpable := Ok (); set_core_limit := Ok (); get_memlock := Ok (RLIM_INFINITY, RLIM_INFINITY); mlockall := Ok () |}.

Definition demo_env : environment := λ name,
  if bool_decide (name = "SECRETSD_MAX_REQUESTED_GRANT_SECS") then Some "600" else None.

Definition demo_process : Process := {| dumpable := true; core_limited := false; locked := false |}.

Definition demo_roots : list SourceRoot := [{| root_name := "dotfiles"; root_path := "/home/me/dotfiles" |}].

Lemma daemon_starts_guarded_witness :
  ∃ p' c, serve_main demo_kernel demo_env (Ok demo_roots) 1000 demo_process = (p', Some c) ∧
    dumpable p' = false ∧ core_limited p' = true ∧ locked p' = true ∧
    max_requested_grant c = Time.from_secs 600 ∧
    ∀ q i now q' g last,
      limits q = queue_limits c → mark_decrypting q i now = (q', Some g) → last_finished q = Some last →
      (now < last ∨ last + Time.from_secs 15 < now)%Z.
Proof.
  destruct (serve_main demo_kernel demo_env (Ok demo_roots) 1000 demo_process) as [p' [c|]] eqn:E; [|by vm_compute in E].
  exists p', c. split; [done|].
  destruct (daemon_starts_guarded demo_kernel demo_env (Ok demo_roots) 1000 demo_process p' c E)
    as (H1 & H2 & H3 & H4 & H5 & H6).
  split_and!; [done|done| | |].
  - destruct H3 as [?|H3]; [done|by vm_compute in H3].
  - destruct (H5 "600" eq_refl) as (n & Hn & ->). vm_compute in Hn. by injection Hn as <-.
  - apply H6. vm_compute in E. by injection E as _ <-.
Defined.
