(* ===== verification/Tiers.v ===== *)
(** The client's two tiers ([crates/secrets/src/client/agent.rs],
    [agent/file.rs], the name discovery of [human.rs], [cli/context.rs],
    [cli/naming.rs], [status.rs], [status/provenance.rs], [error.rs]).

    Files, directories and sops are what reading them returns; the broker is
    what a request to it returns.  A [BTreeMap] is a finite map; only the
    listing depends on its order. *)

From stdpp Require Import prelude strings list gmap sorting.
From Stdlib Require Import ZArith Lia Ascii.
From S2P Require Import Prelude Text Paths Wire Secret Store Grants Setup.

Local Open Scope string_scope.

(** * Errors *)
Inductive CliError : Type :=
| Usage
| ConfigFailed (e : ConfigError)
| InvalidSecretName
| InvalidTtl (raw : string)
| MissingSecret (name searched : string)
| AmbiguousName (name agent human : string)
| AgentKeyExists (name : string)
| HumanKeyExists (name : string)
| AgentFileChangedDuringEdit
| SopsEditFailed
| SopsStart (path : string)
| SopsFailed (path : option string)
| InvalidDotenv (path : option string)
| AgentKeySet (path : string)
| HumanDirectory (path : string)
| InvalidHumanFile
| DuplicateHumanKey (name first second : string)
| EditSourceRequired (names : string)
| UnknownEditSource (source available : string)
| EditConflict (name actual : string)
| EditTemp
| EditorStart
| EditorExited
| InvalidEditedHumanSecret (name : string)
| EmptyEditedHumanSecret (name : string)
| EncryptEditedSecret (path : string)
| SopsCiphertextTooLarge (limit : Z)
| InstallEditedSecret
| PipedHumanRead
| EmptyPipedHumanSecret (name : string)
| InvalidPipedHumanSecret (name : string)
| HardeningFailed (e : HardeningError)
| BrokerRefused (code : ErrCode) (socket : string)
| BrokerTransport (error : ClientError) (socket : string)
| ExecFailed
| StdoutFailed
| SourceNotice.

Definition from_client (error : ClientError) (socket : string) : CliError :=
  match error with Broker code => BrokerRefused code socket | error => BrokerTransport error socket end.

Definition in_file (e : CliError) (path : string) : CliError :=
  match e with
  | InvalidDotenv None => InvalidDotenv (Some path)
  | SopsFailed None => SopsFailed (Some path)
  | other => other
  end.

Definition map_err {E F A} (f : E → F) (r : result E A) : result F A :=
  match r with Ok a => Ok a | Err e => Err (f e) end.

(** * Agent-tier files *)
Record AgentFile : Type := { label : string; path : string }.

#[global] Instance AgentFile_eq_dec : EqDecision AgentFile.
Proof. solve_decision. Defined.

Section display.
Context (display : string → string).

Definition describe_file (f : AgentFile) : string := label f +:+ " (" +:+ display (path f) +:+ ")".

Definition searched (files : list AgentFile) : string :=
  match files with
  | [] => "no configured agent-tier files"
  | _ => "agent-tier files " +:+ concat_sep ", " (describe_file <$> files)
  end.
End display.

Definition of_root (r : SourceRoot) : list AgentFile :=
  [{| label := root_name r +:+ ".local"; path := (agent_files r).1 |};
   {| label := root_name r; path := (agent_files r).2 |}].

(** The non-empty, non-comment lines, a carriage return stripped. *)
Definition assignment_texts (dotenv : string) : list string :=
  List.filter (λ line, negb (is_empty line || starts_with line "#")) (dotenv_line <$> split newline dotenv).

Definition parse_assignment_line (line : string) : result CliError (string * string) :=
  '(raw_name, tail) ← ok_or (InvalidDotenv None) (split_at_byte "="%char line);
  text ← ok_or (InvalidDotenv None) (from_utf8 raw_name);
  name ← map_err (λ _, InvalidSecretName) (secret_name_parse text);
  value ← ok_or (InvalidDotenv None) (match tail with String _ v => Some v | EmptyString => None end);
  Ok (name, value).

Fixpoint names_of_lines (lines : list string) : result CliError (list string) :=
  match lines with
  | [] => Ok []
  | line :: rest =>
      '(name, _) ← parse_assignment_line line;
      names ← names_of_lines rest;
      Ok (if starts_with name "sops_" then names else name :: names)
  end.

Definition names_of (dotenv : string) : result CliError (list string) := names_of_lines (assignment_texts dotenv).

(** The map [values] grows by [entry(name).or_insert(value)]. *)
Definition or_insert {A} (name : string) (v : A) (m : gmap string A) : gmap string A :=
  match m !! name with Some _ => m | None => <[name := v]> m end.

Fixpoint dotenv_loop (values : gmap string string) (lines : list string) : result CliError (gmap string string) :=
  match lines with
  | [] => Ok values
  | line :: rest =>
      '(name, value) ← parse_assignment_line line;
      if contains_byte nul value then Err (InvalidDotenv None)
      else dotenv_loop (or_insert name value values) rest
  end.

Definition parse_dotenv (plaintext : string) : result CliError (gmap string string) :=
  dotenv_loop ∅ (assignment_texts plaintext).

(** ** The store *)
Inductive Sops : Type := SopsNotStarted | SopsExited | SopsOutput (plaintext : string).

Record AgentDisk : Type := {
  is_file : string → bool;
  read_bytes : string → option string;
  sops_decrypt : string → Sops;
}.

Section store.
Context (display : string → string) (disk : AgentDisk).

Definition names_in (p : string) : result CliError (list string) :=
  match read_bytes disk p with
  | None => Err (AgentKeySet p)
  | Some bytes => map_err (λ e, in_file e p) (names_of bytes)
  end.

Definition decrypt_all (p : string) : result CliError (gmap string string) :=
  match sops_decrypt disk p with
  | SopsNotStarted => Err (SopsStart p)
  | SopsExited => Err (SopsFailed (Some p))
  | SopsOutput plaintext => map_err (λ e, in_file e p) (parse_dotenv plaintext)
  end.

Fixpoint agent_locate (files : list AgentFile) (name : string) : result CliError (option AgentFile) :=
  match files with
  | [] => Ok None
  | f :: rest =>
      if is_file disk (path f) then
        names ← names_in (path f);
        if bool_decide (name ∈ names) then Ok (Some f) else agent_locate rest name
      else agent_locate rest name
  end.

Definition agent_contains (files : list AgentFile) (name : string) : result CliError bool :=
  is_some <$> agent_locate files name.

(** One file's values join those of the files before it. *)
Definition merge_file (f : AgentFile) (values : gmap string (string * AgentFile)) (new : gmap string string) :
    gmap string (string * AgentFile) :=
  values ∪ ((λ v, (v, f)) <$> new).

Fixpoint resolve_loop (values : gmap string (string * AgentFile)) (files : list AgentFile) :
    result CliError (gmap string (string * AgentFile)) :=
  match files with
  | [] => Ok values
  | f :: rest =>
      if is_file disk (path f) then
        new ← decrypt_all (path f);
        resolve_loop (merge_file f values new) rest
      else resolve_loop values rest
  end.

Definition resolve_all (files : list AgentFile) : result CliError (gmap string (string * AgentFile)) :=
  resolve_loop ∅ files.

Definition agent_resolve (files : list AgentFile) (name : string) : result CliError (string * AgentFile) :=
  all ← resolve_all files;
  ok_or (MissingSecret name (searched display files)) (all !! name).

End store.

(** * Human-tier names *)
Record HumanLocation : Type := { h_label : string; h_path : string }.

Notation HumanNames := (gmap string HumanLocation).

(** What a root's directory lists: names as bytes. *)
Inductive DirListing : Type := NotDirectory | ListFailed | Listed (names : list string).

Definition name_le (a b : string) : Prop := str_lt b a = false.
#[global] Instance name_le_dec : RelDecision name_le := λ a b, decide (str_lt b a = false).

Fixpoint load_entries (root : SourceRoot) (names : HumanNames) (entries : list string) : result CliError HumanNames :=
  match entries with
  | [] => Ok names
  | raw :: rest =>
      match from_utf8 raw with
      | None => Err InvalidHumanFile
      | Some file =>
          match parse_human_file_name file with
          | Ignored => load_entries root names rest
          | Invalid => Err InvalidHumanFile
          | Key name local =>
              let l := local_label (root_name root) local in
              match names !! name with
              | Some first => Err (DuplicateHumanKey name (h_label first) l)
              | None => load_entries root (<[name := {| h_label := l; h_path := join (human_dir root) file |}]> names) rest
              end
          end
      end
  end.

Fixpoint load_roots (listing : string → DirListing) (names : HumanNames) (roots : list SourceRoot) :
    result CliError HumanNames :=
  match roots with
  | [] => Ok names
  | root :: rest =>
      match listing (human_dir root) with
      | NotDirectory => load_roots listing names rest
      | ListFailed => Err (HumanDirectory (human_dir root))
      | Listed entries =>
          names ← load_entries root names (merge_sort name_le entries);
          load_roots listing names rest
      end
  end.

Definition load_human (listing : string → DirListing) (roots : list SourceRoot) : result CliError HumanNames :=
  load_roots listing ∅ roots.

(** * Answers *)
Inductive Provenance : Type :=
| FromAgent (source path : string)
| FromHuman (source socket : string) (grant_active : bool) (ttl_secs : option Z).

Definition agent_provenance (f : AgentFile) : Provenance := FromAgent (label f) (path f).

Definition human_provenance (human : HumanNames) (name socket : string) (active : bool) (ttl : option Z) : Provenance :=
  FromHuman (default "unknown" (h_label <$> human !! name)) socket active ttl.

Record Context : Type := {
  files : list AgentFile;
  disk : AgentDisk;
  human : HumanNames;
  roots : list SourceRoot;
}.

(** A broker for this caller: its socket and what it answers, or why no
    client could be made. *)
Record Client : Type := {
  client_path : string;
  client_get : string → option Z → result ClientError string;
  client_request : string → option Z → result ClientError (option Z);
}.

Section answers.
Context (display : string → string) (ctx : Context) (socket : string) (client : result ClientError Client).

Definition missing (name : string) : CliError :=
  MissingSecret name
    (searched display (files ctx) +:+ " and human-tier directories " +:+
     concat_sep ", " ((λ r, root_name r +:+ " (" +:+ display (human_dir r) +:+ ")") <$> roots ctx)).

Definition ambiguous (name : string) (f : AgentFile) : CliError :=
  AmbiguousName name (describe_file display f)
    match human ctx !! name with
    | None => "human tier"
    | Some l => h_label l +:+ " (" +:+ display (h_path l) +:+ ")"
    end.

Definition in_human (name : string) : bool := is_some (human ctx !! name).

(** [Context::value]. *)
Definition value (name : string) (ttl : option Z) : result CliError (string * Provenance) :=
  if in_human name then
    found ← agent_locate (disk ctx) (files ctx) name;
    match found with
    | Some f => Err (ambiguous name f)
    | None =>
        c ← map_err (λ e, from_client e socket) client;
        v ← map_err (λ e, from_client e (client_path c)) (client_get c name ttl);
        Ok (v, human_provenance (human ctx) name (client_path c) true None)
    end
  else
    '(v, f) ← agent_resolve display (disk ctx) (files ctx) name;
    Ok (v, agent_provenance f).

(** [Context::request_grant]: the provenance its status line reports. *)
Definition request_grant (name : string) (ttl : option Z) : result CliError Provenance :=
  found ← agent_locate (disk ctx) (files ctx) name;
  match found, in_human name with
  | Some f, true => Err (ambiguous name f)
  | Some f, false => Ok (agent_provenance f)
  | None, true =>
      c ← map_err (λ e, from_client e socket) client;
      granted ← map_err (λ e, from_client e (client_path c)) (client_request c name ttl);
      Ok (human_provenance (human ctx) name (client_path c) true granted)
  | None, false => Err (missing name)
  end.

(** ** Whether the caller holds a grant *)
Inductive CallerScope : Type := CallerSession | CallerTty (tty : string) | CallerNone.

Definition caller_scope (token_file : bool) (tty : option string) : CallerScope :=
  if token_file then CallerSession else match tty with Some t => CallerTty t | None => CallerNone end.

Definition grant_line_matches (scope : CallerScope) (name line : string) : bool :=
  match split tab line with
  | [key; grant_scope; _] =>
      bool_decide (key = name) &&
      match scope with
      | CallerSession => bool_decide (grant_scope = "session")
      | CallerTty tty => bool_decide (strip_prefix grant_scope "tty " = Some tty)
      | CallerNone => false
      end
  | _ => false
  end.

Definition active_grant (scope : CallerScope) (name grants : string) : result ClientError bool :=
  match from_utf8 grants with
  | None => Err InvalidResponse
  | Some listing => Ok (existsb (grant_line_matches scope name) (str_lines listing))
  end.

(** [Context::status]; [listed] is the broker's answer to GRANTS. *)
Definition status (scope : CallerScope) (listed : result CliError BrokerResponse) (name : string) :
    result CliError Provenance :=
  found ← agent_locate (disk ctx) (files ctx) name;
  match found, in_human name with
  | Some f, true => Err (ambiguous name f)
  | Some f, false => Ok (agent_provenance f)
  | None, true =>
      response ← listed;
      match response with
      | RespBytes grants =>
          active ← map_err (λ e, from_client e socket) (active_grant scope name grants);
          Ok (human_provenance (human ctx) name socket active None)
      | _ => Err (from_client InvalidResponse socket)
      end
  | None, false => Err (missing name)
  end.

End answers.

(** * One tier answers *)
Section one_tier.
Context (display : string → string) (ctx : Context) (socket : string) (client : result ClientError Client).

(** A value that is returned came from the one tier that holds the key: from
    the broker for a human-tier key that no agent file names, from the agent
    file that is reported otherwise. *)
Lemma value_from_one_tier name ttl v prov :
  value display ctx socket client name ttl = Ok (v, prov) →
  (in_human ctx name = true ∧ agent_locate (disk ctx) (files ctx) name = Ok None ∧
   ∃ c, client = Ok c ∧ client_get c name ttl = Ok v ∧
        prov = human_provenance (human ctx) name (client_path c) true None) ∨
  (in_human ctx name = false ∧
   ∃ f, agent_resolve display (disk ctx) (files ctx) name = Ok (v, f) ∧ prov = agent_provenance f).
Proof.
  unfold value. destruct (in_human ctx name) eqn:Hh.
  - destruct (agent_locate (disk ctx) (files ctx) name) as [[f|]|]; simpl; try done.
    destruct client as [c|]; simpl; [|done]. destruct (client_get c name ttl) eqn:Eg; simpl; [|done].
    intros [= -> <-]. left. split_and!; [done|done|]. by exists c.
  - destruct (agent_resolve display (disk ctx) (files ctx) name) as [[v' f]|]; simpl; [|done].
    intros [= -> <-]. right. split; [done|]. by exists f.
Qed.

(** A key in both tiers has no answer of any kind. *)
Lemma ambiguous_refused name ttl f scope listed :
  in_human ctx name = true → agent_locate (disk ctx) (files ctx) name = Ok (Some f) →
  value display ctx socket client name ttl = Err (ambiguous display ctx name f) ∧
  request_grant display ctx socket client name ttl = Err (ambiguous display ctx name f) ∧
  status display ctx socket scope listed name = Err (ambiguous display ctx name f).
Proof. intros Hh Hl. unfold value, request_grant, status. by rewrite Hh, Hl. Qed.

End one_tier.

(** * The first file wins *)
Section first_file.
Context (display : string → string) (d : AgentDisk).

(** sops keeps names in the clear: what is decrypted from a file has the names
    its ciphertext shows. *)
Definition sops_keeps_names : Prop := ∀ p bytes plaintext m ns n,
  read_bytes d p = Some bytes → sops_decrypt d p = SopsOutput plaintext →
  parse_dotenv plaintext = Ok m → names_of bytes = Ok ns → starts_with n "sops_" = false →
  n ∈ ns ↔ is_Some (m !! n).

(** The first file, of those that exist, that holds the name once decrypted. *)
Fixpoint first_holder (files : list AgentFile) (name : string) : option (string * AgentFile) :=
  match files with
  | [] => None
  | f :: rest =>
      if is_file d (path f) then
        match decrypt_all d (path f) with
        | Ok m => match m !! name with Some v => Some (v, f) | None => first_holder rest name end
        | Err _ => None
        end
      else first_holder rest name
  end.

Lemma resolve_loop_lookup values files all name :
  resolve_loop d values files = Ok all →
  all !! name = match values !! name with Some x => Some x | None => first_holder files name end.
Proof.
  revert values. induction files as [|f files IH]; intros values; cbn [resolve_loop first_holder].
  - intros [= ->]. by destruct (all !! name).
  - destruct (is_file d (path f)); [|by apply IH].
    destruct (decrypt_all d (path f)) as [m|] eqn:E; [|done]. cbn [mbind result_bind].
    intros ->%IH. unfold merge_file. rewrite lookup_union, lookup_fmap.
    destruct (values !! name), (m !! name); done.
Qed.

Lemma first_holder_locates files name v f :
  sops_keeps_names → starts_with name "sops_" = false →
  first_holder files name = Some (v, f) → ∀ found, agent_locate d files name = Ok found → found = Some f.
Proof.
  intros Hs Hn. induction files as [|g files IH]; cbn [first_holder agent_locate]; [done|].
  destruct (is_file d (path g)); [|done].
  unfold decrypt_all, names_in. destruct (sops_decrypt d (path g)) as [| |plain] eqn:Ed; [done|done|].
  destruct (parse_dotenv plain) as [m|] eqn:Ep; [|done]. cbn [map_err].
  destruct (read_bytes d (path g)) as [bytes|] eqn:Er; [|done].
  destruct (names_of bytes) as [ns|] eqn:En; [|done]. cbn [map_err mbind result_bind].
  pose proof (Hs _ _ _ _ _ _ Er Ed Ep En Hn) as Hiff.
  destruct (m !! name) as [w|].
  - intros [= -> ->] found. rewrite bool_decide_eq_true_2 by (by apply Hiff). by intros [= <-].
  - rewrite bool_decide_eq_false_2 by (intros H%Hiff; by destruct H). apply IH.
Qed.

Lemma names_of_lines_clear lines ns n : names_of_lines lines = Ok ns → n ∈ ns → starts_with n "sops_" = false.
Proof.
  revert ns. induction lines as [|line lines IH]; intros ns; cbn [names_of_lines]; [by intros [= <-] []%not_elem_of_nil|].
  destruct (parse_assignment_line line) as [[name v]|]; [|done]. cbn [mbind result_bind].
  destruct (names_of_lines lines) as [rest|]; [|done]. cbn [mbind result_bind]. intros [= <-].
  destruct (starts_with name "sops_") eqn:E; [by apply IH|].
  intros [->|]%elem_of_cons; [done|by eapply IH].
Qed.

(** A name the look-up finds is there once everything is decrypted. *)
Lemma located_resolves files name f all :
  sops_keeps_names → agent_locate d files name = Ok (Some f) → resolve_all d files = Ok all → is_Some (all !! name).
Proof.
  intros Hs Hl Hr. unfold resolve_all in Hr. rewrite (resolve_loop_lookup _ _ _ name Hr), lookup_empty.
  revert Hl Hr. generalize (∅ : gmap string (string * AgentFile)) as x.
  induction files as [|g files IH]; intros x; cbn [agent_locate resolve_loop first_holder]; [done|].
  destruct (is_file d (path g)); [|by apply IH].
  unfold names_in, decrypt_all. destruct (read_bytes d (path g)) as [bytes|] eqn:Eb; [|done].
  destruct (names_of bytes) as [ns|] eqn:En; [|done]. cbn [map_err mbind result_bind].
  destruct (sops_decrypt d (path g)) as [| |plain] eqn:Ed; [done|done|].
  destruct (parse_dotenv plain) as [m|] eqn:Ep; [|done]. cbn [map_err mbind result_bind].
  case_bool_decide as Hin.
  - intros _ _. apply (Hs _ _ _ _ _ _ Eb Ed Ep En) in Hin as [w ->]; [done|by eapply names_of_lines_clear].
  - intros Hl Hr. destruct (m !! name); [done|]. by eapply IH.
Qed.

(** A value and its file agree.  The value returned for an agent-tier key
    is that of the first existing file that assigns it, local before shared
    and roots in the order of the configuration; the look-up that decides
    ambiguity without decrypting anything names that very file. *)
Lemma agent_value_from_first files name v f :
  agent_resolve display d files name = Ok (v, f) →
  first_holder files name = Some (v, f) ∧
  (sops_keeps_names → starts_with name "sops_" = false →
   ∀ found, agent_locate d files name = Ok found → found = Some f).
Proof.
  unfold agent_resolve, resolve_all. destruct (resolve_loop d ∅ files) as [all|] eqn:E; [|done].
  cbn [mbind result_bind]. rewrite (resolve_loop_lookup _ _ _ name E), lookup_empty.
  destruct (first_holder files name) as [[v' f']|] eqn:Ef; [|done]. intros [= -> ->].
  split; [done|]. intros Hs Hn. by eapply first_holder_locates.
Qed.

End first_file.

(** * The client and the daemon see the same human tier *)
Definition daemon_sources (roots : list SourceRoot) : list HumanSource :=
  (λ r, {| hs_label := root_name r; hs_dir := human_dir r |}) <$> roots.

(** The same directories, read in whatever order. *)
Definition same_directory (listing : string → DirListing) (fs : filesystem) (dir : string) : Prop :=
  match listing dir, read_dir fs dir with
  | NotDirectory, NotFound => True
  | ListFailed, Unreadable => True
  | Listed names, Entries es => es ≡ₚ Some <$> names
  | _, _ => False
  end.

Definition hit (n raw : string) : option bool :=
  if bool_decide (raw = file_name n) then Some false
  else if bool_decide (raw = local_file_name n) then Some true else None.

Definition file_for (n : string) (local : bool) : string := if local then local_file_name n else file_name n.

Lemma hit_Some n raw local : secret_name_ok n → hit n raw = Some local ↔ raw = file_for n local.
Proof.
  intros Hn. unfold hit, file_for. destruct (file_name_local n n) as [Hne|]; [|done].
  destruct local; repeat case_bool_decide; naive_solver.
Qed.

Lemma hit_file_of n raw local : secret_name_ok n → hit n raw = Some local ↔ file_of raw = Some (n, local, raw).
Proof. intros Hn. rewrite hit_Some, file_of_Some by done. unfold file_for. naive_solver. Qed.

(** What [names] says of a key after files that hold it were added. *)
Definition extends (n : string) (before after : option HumanLocation) (found : list (HumanSource * bool)) : Prop :=
  match found with
  | [] => after = before
  | [(s, local)] => before = None ∧
      after = Some {| h_label := local_label (hs_label s) local; h_path := join (hs_dir s) (file_for n local) |}
  | _ => False
  end.

Lemma extends_app n a b c l1 l2 : extends n a b l1 → extends n b c l2 → extends n a c (l1 ++ l2).
Proof.
  destruct l1 as [|[s1 x1] [|? ?]], l2 as [|[s2 x2] [|? ?]]; simpl; try done; naive_solver.
Qed.

Definition source_of (r : SourceRoot) : HumanSource := {| hs_label := root_name r; hs_dir := human_dir r |}.

Lemma load_entries_spec root m es m' :
  load_entries root m es = Ok m' →
  forallb entry_ok (Some <$> es) = true ∧
  ∀ n, secret_name_ok n → extends n (m !! n) (m' !! n) (pair (source_of root) <$> omap (hit n) es).
Proof.
  revert m. induction es as [|raw es IH]; intros m; cbn [load_entries]; [by intros [= ->]|].
  destruct (from_utf8 raw) as [text|] eqn:Eu; [|done].
  assert (text = raw) as ->. { unfold from_utf8 in Eu. by case_match; simplify_eq. }
  destruct (parse_human_file_name raw) as [|name local|] eqn:Ep; [| |done].
  - intros H. destruct (IH _ H) as [H1 H2]. split.
    + cbn [fmap list_fmap forallb]. rewrite H1, andb_true_r. unfold entry_ok, human_file_name.
      cbn [is_some_and]. by rewrite Eu, Ep.
    + intros n Hn. cbn [omap list_omap]. destruct (hit n raw) as [l|] eqn:Eh; [|by apply H2].
      apply hit_file_of in Eh; [|done]. unfold file_of, human_file_name in Eh. by rewrite Eu, Ep in Eh.
  - destruct (m !! name) as [first|] eqn:Em; [done|]. intros H. destruct (IH _ H) as [H1 H2]. clear IH.
    assert (file_of raw = Some (name, local, raw)) as Hf.
    { unfold file_of, human_file_name. by rewrite Eu, Ep. }
    pose proof Hf as (Hok & Hraw & _)%file_of_Some. split.
    + cbn [fmap list_fmap forallb]. rewrite H1, andb_true_r. unfold entry_ok, human_file_name.
      cbn [is_some_and]. by rewrite Eu, Ep.
    + intros n Hn. cbn [omap list_omap]. destruct (decide (n = name)) as [->|Hne].
      * rewrite (proj2 (hit_file_of name raw local Hok) Hf). cbn [fmap list_fmap].
        eapply (extends_app name _ _ _ [(source_of root, local)]); [|apply (H2 name Hn)].
        rewrite lookup_insert_eq. simpl. split; [done|]. by rewrite Hraw.
      * destruct (hit n raw) as [l|] eqn:Eh; [|specialize (H2 n Hn); by rewrite lookup_insert_ne in H2].
        apply hit_file_of in Eh; [|done]. congruence.
Qed.

(** The files of a list of roots that hold [n], as the client reads them. *)
Definition client_hits (listing : string → DirListing) (n : string) (roots : list SourceRoot) : list (HumanSource * bool) :=
  roots ≫= λ r, match listing (human_dir r) with
                 | Listed es => pair (source_of r) <$> omap (hit n) (merge_sort name_le es)
                 | _ => []
                 end.

Lemma load_roots_spec listing m roots m' :
  load_roots listing m roots = Ok m' →
  Forall (λ r, match listing (human_dir r) with
               | Listed es => forallb entry_ok (Some <$> es) = true
               | NotDirectory => True
               | ListFailed => False
               end) roots ∧
  ∀ n, secret_name_ok n → extends n (m !! n) (m' !! n) (client_hits listing n roots).
Proof.
  revert m. induction roots as [|r roots IH]; intros m; cbn [load_roots]; [by intros [= ->]|].
  destruct (listing (human_dir r)) as [| |es] eqn:El; [| done|].
  - intros H. destruct (IH _ H) as [H1 H2]. split; [constructor; [by rewrite El|done]|].
    intros n Hn. unfold client_hits. cbn [mbind list_bind]. rewrite El. by apply H2.
  - destruct (load_entries r m (merge_sort name_le es)) as [m1|] eqn:E; [|done]. cbn [mbind result_bind].
    intros H. destruct (IH _ H) as [H1 H2]. apply load_entries_spec in E as [E1 E2]. split.
    + constructor; [|done]. rewrite El. apply forallb_elem. intros x Hx. rewrite forallb_elem in E1.
      apply E1. by rewrite (merge_sort_Permutation name_le es).
    + intros n Hn. unfold client_hits. cbn [mbind list_bind]. rewrite El.
      eapply extends_app; [by apply E2|by apply H2].
Qed.

Lemma backing_hits s (es : list string) n :
  secret_name_ok n → omap (backing_entry n s) (Some <$> es) = pair s <$> omap (hit n) es.
Proof.
  intros Hn. induction es as [|raw es IH]; [done|]. cbn [fmap list_fmap omap list_omap].
  unfold backing_entry at 1, hit at 1. cbn [mbind option_bind].
  case_bool_decide; [cbn; by rewrite IH|]. case_bool_decide; [cbn; by rewrite IH|]. apply IH.
Qed.

Lemma omap_Permutation {A B} (f : A → option B) (l l' : list A) : l ≡ₚ l' → omap f l ≡ₚ omap f l'.
Proof.
  induction 1 as [|x l l' _ IH|x y l|l1 l2 l3 _ IH1 _ IH2]; cbn [omap list_omap]; [done| | |by etrans].
  - destruct (f x); [by constructor|done].
  - destruct (f x), (f y); [constructor|done|done|done].
Qed.

Lemma backing_client listing fs n roots :
  secret_name_ok n → Forall (λ r, same_directory listing fs (human_dir r)) roots →
  backing fs n (daemon_sources roots) ≡ₚ client_hits listing n roots.
Proof.
  intros Hn. induction 1 as [|r roots Hr _ IH]; [done|].
  unfold backing, client_hits, daemon_sources in *. cbn [fmap list_fmap mbind list_bind]. f_equiv; [|exact IH].
  unfold Store.listing. cbn [hs_dir]. unfold same_directory in Hr.
  destruct (listing (human_dir r)) as [| |es], (read_dir fs (human_dir r)) as [names| |]; try done.
  rewrite Hr, (omap_Permutation _ _ _ (fmap_Permutation Some _ _ (symmetry (merge_sort_Permutation name_le es)))).
  by rewrite (backing_hits (source_of r)).
Qed.

Lemma readable_client listing fs roots :
  Forall (λ r, same_directory listing fs (human_dir r)) roots →
  Forall (λ r, match listing (human_dir r) with
               | Listed es => forallb entry_ok (Some <$> es) = true
               | NotDirectory => True
               | ListFailed => False
               end) roots →
  readable fs (daemon_sources roots) = true.
Proof.
  intros Hs Hl. apply forallb_elem. intros s (r & -> & Hr)%list_elem_of_fmap.
  rewrite Forall_forall in Hs, Hl. specialize (Hs r Hr). specialize (Hl r Hr).
  unfold source_ok, Store.listing. cbn [hs_dir]. unfold same_directory in Hs.
  destruct (listing (human_dir r)) as [| |es], (read_dir fs (human_dir r)) as [names| |]; try done.
  apply forallb_elem. intros x Hx. rewrite forallb_elem in Hl. apply Hl. by rewrite <-Hs.
Qed.

(** The client names the file the daemon decrypts.  When the client could
    load the human tier, then for every key the daemon, configured with the
    same roots and reading the same directories, finds exactly the file the
    client reports, under the label the client shows, and refuses as unknown
    exactly the keys the client does not list. *)
Lemma client_names_daemon_file listing fs roots names n :
  load_human listing roots = Ok names → secret_name_ok n →
  Forall (λ r, same_directory listing fs (human_dir r)) roots →
  match names !! n with
  | Some l => ∃ c, candidates fs (daemon_sources roots) n = Ok [c] ∧
                   c_label c = h_label l ∧ join (c_dir c) (c_file_name c) = h_path l ∧
                   Store.locate fs (daemon_sources roots) n = Ok (h_label l)
  | None => Store.locate fs (daemon_sources roots) n = Err NotHumanKey
  end.
Proof.
  intros Hload Hn Hs. apply load_roots_spec in Hload as [Hr Hx]. specialize (Hx n Hn).
  pose proof (backing_client listing fs n roots Hn Hs) as Hb. rewrite lookup_empty in Hx.
  unfold Store.locate. rewrite candidates_spec, (readable_client listing fs roots Hs Hr) by done.
  destruct (client_hits listing n roots) as [|[s local] [|? ?]]; [| |done].
  - apply Permutation_nil_r in Hb. rewrite Hb. by rewrite Hx.
  - apply Permutation_singleton_r in Hb. rewrite Hb. destruct Hx as [_ Hx]. rewrite Hx.
    eexists. split_and!; [done|done|done|done].
Qed.

(** * Reading the broker's listing *)

(** A key name and a terminal path that a line can hold. *)
Definition listable (g : Grant) : Prop :=
  secret_name_ok (g_key g) ∧
  match g_scope g with
  | Session _ => True
  | Tty tty _ => all_bytes (λ c, is_ascii c && negb (bool_decide (c = tab)) && negb (bool_decide (c = newline)) &&
                                 negb (bool_decide (c = carriage_return))) tty = true
  end.

(** The grants a caller is told of. *)
Definition told_of (scope : CallerScope) (name : string) (g : Grant) : bool :=
  bool_decide (g_key g = name) &&
  match scope, g_scope g with
  | CallerSession, Session _ => true
  | CallerTty tty, Tty t _ => bool_decide (t = tty)
  | _, _ => false
  end.

Definition grant_text (now : Z) (g : Grant) : string :=
  g_key g +:+ String tab
    (match g_scope g with Session _ => "session" | Tty tty _ => "tty " +:+ tty end +:+ String tab
      (to_string (Time.as_secs (Time.duration_since now (g_created g))) +:+ "s")).

Definition plain (c : ascii) : bool :=
  is_ascii c && negb (bool_decide (c = tab)) && negb (bool_decide (c = newline)) && negb (bool_decide (c = carriage_return)).

Lemma plain_lacks s : all_bytes plain s = true →
  contains_byte tab s = false ∧ contains_byte newline s = false ∧ contains_byte carriage_return s = false ∧
  all_bytes is_ascii s = true.
Proof.
  intros H. rewrite !contains_byte_false. split_and!; revert H; apply all_bytes_impl; unfold plain; intros c H;
    do 3 (apply andb_true_iff in H as [H ?]); done.
Qed.

Lemma name_plain n : secret_name_ok n → all_bytes plain n = true.
Proof. intros H%secret_name_ok_bytes. revert H. apply all_bytes_impl. apply byte_impl. by vm_compute. Qed.

Lemma age_plain z : (0 <= z)%Z → all_bytes plain (to_string z +:+ "s") = true.
Proof.
  intros Hz. rewrite all_bytes_append. apply andb_true_iff. split; [|by vm_compute].
  pose proof (to_string_digits z Hz) as H. revert H. apply all_bytes_impl. apply byte_impl. by vm_compute.
Qed.

Definition scope_text (g : Grant) : string := match g_scope g with Session _ => "session" | Tty tty _ => "tty " +:+ tty end.

Lemma listable_plain now g : listable g →
  all_bytes plain (g_key g) = true ∧ all_bytes plain (scope_text g) = true ∧
  all_bytes plain (to_string (Time.as_secs (Time.duration_since now (g_created g))) +:+ "s") = true.
Proof.
  intros [Hk Hs]. split_and!; [by apply name_plain| |].
  - unfold scope_text. destruct (g_scope g); [by vm_compute|]. rewrite all_bytes_append. apply andb_true_iff.
    split; [by vm_compute|done].
  - apply age_plain. unfold Time.as_secs, Time.duration_since, Time.nanos_per_sec.
    apply Z.div_pos; lia.
Qed.

Lemma grant_text_matches scope name now g :
  listable g → grant_line_matches scope name (grant_text now g) = told_of scope name g.
Proof.
  intros Hl. destruct (listable_plain now g Hl) as (Hk & Hs & Ha).
  apply plain_lacks in Hk as (Hk & _), Hs as (Hs & _), Ha as (Ha & _).
  unfold grant_line_matches, grant_text. fold (scope_text g).
  rewrite split_append, split_append, split_clean by done. unfold told_of. f_equal. unfold scope_text.
  destruct scope as [|tty|], (g_scope g) as [tok|t b]; try done.
  rewrite strip_prefix_append. apply bool_decide_ext. split; [by intros [= ->]|by intros ->].
Qed.

Definition grants_text (now : Z) (t : GrantTable) : string :=
  foldr (λ g s, grant_text now g +:+ String newline s) "" t.

Definition heading : string := "KEY" +:+ String tab ("SCOPE" +:+ String tab "AGE").

Lemma render_grant_text now g : Table.render_grant now g = grant_text now g +:+ String newline "".
Proof.
  unfold Table.render_grant, grant_text. generalize (to_string (Time.as_secs (Time.duration_since now (g_created g)))).
  generalize (match g_scope g with Session _ => "session" | Tty tty _ => "tty " +:+ tty end). intros sc age.
  rewrite <-append_assoc. f_equal. rewrite !append_cons. f_equal. rewrite <-append_assoc. f_equal.
  rewrite append_cons. f_equal. by rewrite <-append_assoc.
Qed.

Lemma render_text now g t :
  Table.render (g :: t) now = heading +:+ String newline (grants_text now (g :: t)).
Proof.
  unfold Table.render. generalize (g :: t). clear g t. intros t.
  assert (∀ h, fold_left (λ out g, out +:+ Table.render_grant now g) t h = h +:+ grants_text now t) as H.
  { induction t as [|g t IH]; intros h; [by rewrite append_nil_r|].
    cbn [fold_left grants_text foldr]. rewrite IH, <-append_assoc. f_equal.
    by rewrite render_grant_text, <-append_assoc. }
  rewrite H. reflexivity.
Qed.

Lemma contains_byte_cons c d s : d ≠ c → contains_byte c (String d s) = contains_byte c s.
Proof.
  intros Hd. change (String d s) with (String d "" +:+ s). rewrite contains_byte_append.
  unfold contains_byte at 1, any_byte. simpl. by rewrite bool_decide_eq_false_2.
Qed.

Lemma grant_text_line now g :
  listable g → line_text_ok (grant_text now g) ∧ all_bytes is_ascii (grant_text now g) = true.
Proof.
  intros Hl. destruct (listable_plain now g Hl) as (Hk & Hs & Ha).
  apply plain_lacks in Hk as (_ & Hk1 & Hk2 & Hk3), Hs as (_ & Hs1 & Hs2 & Hs3), Ha as (_ & Ha1 & Ha2 & Ha3).
  unfold grant_text, line_text_ok. fold (scope_text g).
  set (age := to_string _ +:+ "s") in *. clearbody age.
  repeat (rewrite ?contains_byte_append, ?all_bytes_append, ?contains_byte_cons by done; cbn [all_bytes]).
  by rewrite Hk1, Hk2, Hk3, Hs1, Hs2, Hs3, Ha1, Ha2, Ha3.
Qed.

Lemma grants_text_lines now t :
  Forall listable t →
  all_bytes is_ascii (grants_text now t) = true ∧ str_lines (grants_text now t) = grant_text now <$> t.
Proof.
  induction 1 as [|g t Hl _ [IH1 IH2]]; [done|]. cbn [grants_text foldr fmap list_fmap].
  fold (grants_text now t). destruct (grant_text_line now g Hl) as [G1 G2].
  rewrite all_bytes_append, G2. cbn [all_bytes]. rewrite IH1. split; [done|]. by rewrite str_lines_line, IH2.
Qed.

Lemma texts_match scope name now t :
  Forall listable t →
  existsb (grant_line_matches scope name) (grant_text now <$> t) = existsb (told_of scope name) t.
Proof.
  induction 1 as [|g t Hg _ IH]; [done|]. cbn [fmap list_fmap existsb]. by rewrite grant_text_matches, IH.
Qed.

(** The status line cannot tell sessions apart.  Read against the broker's
    own listing, a terminal caller is told of a grant exactly when its own
    terminal holds one; but a session caller is told that its grant is active
    when any session holds one for the key, whoever's it is. *)
Lemma status_sees_any_session scope name now t :
  Forall listable t →
  active_grant scope name (Table.render t now) = Ok (existsb (told_of scope name) t) ∧
  (∀ f, existsb (told_of CallerSession name)
          ((λ g, match g_scope g with
                 | Session tok => {| g_scope := Session (f tok); g_key := g_key g; g_value := g_value g;
                                     g_origin := g_origin g; g_created := g_created g; g_ttl := g_ttl g |}
                 | Tty _ _ => g
                 end) <$> t) = existsb (told_of CallerSession name) t).
Proof.
  intros Ht. split.
  - unfold active_grant. destruct t as [|g t]; [by destruct scope|].
    rewrite render_text. destruct (grants_text_lines now (g :: t) Ht) as [Ha Hs].
    rewrite from_utf8_ascii by (rewrite all_bytes_append; cbn [all_bytes]; by rewrite Ha).
    rewrite str_lines_line, Hs by done. f_equal.
    change (existsb (grant_line_matches scope name) (heading :: (grant_text now <$> g :: t)))
      with (grant_line_matches scope name heading || existsb (grant_line_matches scope name) (grant_text now <$> g :: t)).
    assert (grant_line_matches scope name heading = false) as ->.
    { unfold grant_line_matches. change (split tab heading) with ["KEY"; "SCOPE"; "AGE"].
      destruct scope; by rewrite ?andb_false_r. }
    by apply texts_match.
  - intros f. clear. induction t as [|g t IH]; [done|]. cbn [fmap list_fmap existsb]. rewrite IH. f_equal.
    unfold told_of. by destruct g as [[] ? ? ? ? ?].
Qed.

(** * The status object *)
Definition hex4 (n : Z) : string :=
  String "0" (String "0" (String (hex_digit (Z.shiftr n 4)) (String (hex_digit (Z.land n 15)) ""))).

Definition backslash : ascii := "\"%char.

(** The characters of a JSON string literal; [char::is_control] is the Unicode
    category of control characters, up to U+009F. *)
Fixpoint json_chars (text : string) : string :=
  match text with
  | EmptyString => EmptyString
  | String c rest =>
      if bool_decide (c = dquote) then String backslash (String dquote (json_chars rest))
      else if bool_decide (c = backslash) then String backslash (String backslash (json_chars rest))
      else if bool_decide (c = newline) then String backslash (String "n" (json_chars rest))
      else if bool_decide (c = carriage_return) then String backslash (String "r" (json_chars rest))
      else if bool_decide (c = tab) then String backslash (String "t" (json_chars rest))
      else if in_range 0 31 c || in_range 127 127 c then String backslash (String "u" (hex4 (code c) +:+ json_chars rest))
      else if in_range 194 194 c then
        match rest with
        | String d rest' =>
            if in_range 128 159 d then String backslash (String "u" (hex4 (code d) +:+ json_chars rest'))
            else String c (json_chars rest)
        | EmptyString => String c EmptyString
        end
      else String c (json_chars rest)
  end.

Definition push_json_string (text : string) : string := String dquote (json_chars text +:+ String dquote "").

Definition bool_text (b : bool) : string := if b then "true" else "false".

Definition status_json (p : Provenance) (name : string) : string :=
  quoted "{'key':'" +:+ name +:+
  match p with
  | FromAgent source path =>
      quoted "','tier':'agent','store':'sops file','source':" +:+ push_json_string source +:+
      quoted ",'path':" +:+ push_json_string (from_utf8_lossy path)
  | FromHuman source socket grant_active ttl_secs =>
      quoted "','tier':'human','store':'secretsd daemon','source':" +:+ push_json_string source +:+
      quoted ",'socket':" +:+ push_json_string (from_utf8_lossy socket) +:+
      quoted ",'grant':" +:+ bool_text grant_active +:+
      quoted ",'ttl':" +:+ default "null" (to_string <$> ttl_secs)
  end +:+ "}".

Definition describe (display : string → string) (p : Provenance) : string :=
  match p with
  | FromAgent source path => "agent tier, source " +:+ source +:+ " (" +:+ display path +:+ ")"
  | FromHuman source socket _ _ =>
      "human tier, source " +:+ source +:+ ", granted by the secretsd daemon (" +:+ display socket +:+ ")"
  end.

(** ** Reading a literal, as RFC 8259 has it, below U+0800 for escapes *)
Definition utf8_of (n : Z) : string :=
  if (n <? 128)%Z then String (char_of n) ""
  else String (char_of (192 + Z.shiftr n 6)) (String (char_of (128 + Z.land n 63)) "").

Definition simple_escape (e : ascii) : option ascii :=
  if bool_decide (e = dquote) then Some dquote else if bool_decide (e = backslash) then Some backslash
  else if bool_decide (e = "n"%char) then Some newline else if bool_decide (e = "r"%char) then Some carriage_return
  else if bool_decide (e = "t"%char) then Some tab else None.

Fixpoint read_chars (s : string) : option (string * string) :=
  match s with
  | EmptyString => None
  | String c rest =>
      if bool_decide (c = dquote) then Some (EmptyString, rest)
      else if bool_decide (c = backslash) then
        match rest with
        | String e rest' =>
            if bool_decide (e = "u"%char) then
              match rest' with
              | String h3 (String h2 (String h1 (String h0 rest''))) =>
                  a ← to_digit 16 h3; b ← to_digit 16 h2; x ← to_digit 16 h1; y ← to_digit 16 h0;
                  '(text, after) ← read_chars rest'';
                  Some (utf8_of (4096 * a + 256 * b + 16 * x + y) +:+ text, after)
              | _ => None
              end
            else
              ch ← simple_escape e;
              '(text, after) ← read_chars rest';
              Some (String ch text, after)
        | EmptyString => None
        end
      else if in_range 0 31 c then None
      else '(text, after) ← read_chars rest; Some (String c text, after)
  end.

Definition read_json_string (s : string) : option (string * string) :=
  match s with String c rest => if bool_decide (c = dquote) then read_chars rest else None | EmptyString => None end.

Lemma hex4_digits c :
  to_digit 16 (hex_digit (Z.shiftr (code c) 4)) = Some (Z.shiftr (code c) 4) ∧
  to_digit 16 (hex_digit (Z.land (code c) 15)) = Some (Z.land (code c) 15) ∧
  (4096 * 0 + 256 * 0 + 16 * Z.shiftr (code c) 4 + Z.land (code c) 15 = code c)%Z.
Proof. destruct c as [[] [] [] [] [] [] [] []]; vm_compute; done. Qed.

Lemma read_escaped c rest :
  read_chars (String backslash (String "u" (hex4 (code c) +:+ rest))) =
  '(text, after) ← read_chars rest; Some (utf8_of (code c) +:+ text, after).
Proof.
  destruct (hex4_digits c) as (H1 & H2 & H3). unfold hex4. rewrite !append_cons. change ("" +:+ rest) with rest.
  cbn [read_chars]. rewrite (bool_decide_eq_false_2 (backslash = dquote)), !bool_decide_eq_true_2 by done.
  change (to_digit 16 "0") with (Some 0%Z). cbn [mbind option_bind]. rewrite H1. cbn [mbind option_bind].
  rewrite H2. cbn [mbind option_bind]. by rewrite H3.
Qed.

Lemma utf8_of_byte c : in_range 0 31 c || in_range 127 127 c = true → utf8_of (code c) = String c "".
Proof. destruct c as [[] [] [] [] [] [] [] []]; by vm_compute. Qed.

Lemma utf8_of_c1 c d : in_range 194 194 c = true → in_range 128 159 d = true → utf8_of (code d) = String c (String d "").
Proof.
  intros Hc Hd. assert (c = char_of 194) as -> by (destruct c as [[] [] [] [] [] [] [] []]; by vm_compute in Hc |- *).
  destruct d as [[] [] [] [] [] [] [] []]; by vm_compute in Hd |- *.
Qed.

Lemma read_json_chars n text rest :
  (String.length text <= n)%nat → read_chars (json_chars text +:+ String dquote rest) = Some (text, rest).
Proof.
  revert text. induction n as [|n IH]; intros [|c text] Hl; try done; [simpl in Hl; lia|].
  simpl in Hl. assert (read_chars (json_chars text +:+ String dquote rest) = Some (text, rest)) as Ht by (apply IH; lia).
  cbn [json_chars]. repeat (case_bool_decide; [subst c; simpl; by rewrite Ht|]).
  destruct (in_range 0 31 c || in_range 127 127 c) eqn:Ec.
  { rewrite !append_cons, <-append_assoc, read_escaped, Ht. cbn [mbind option_bind]. by rewrite utf8_of_byte. }
  assert (∀ t, read_chars (String c t) = '(x, after) ← read_chars t; Some (String c x, after)) as Hplain.
  { intros t. cbn [read_chars]. rewrite !bool_decide_eq_false_2 by done.
    apply orb_false_iff in Ec as [Ec _]. by rewrite Ec. }
  destruct (in_range 194 194 c) eqn:E2; [|by rewrite append_cons, Hplain, Ht].
  destruct text as [|d text]; [by rewrite append_cons, Hplain|].
  destruct (in_range 128 159 d) eqn:Ed; [|by rewrite append_cons, Hplain, Ht].
  rewrite !append_cons, <-append_assoc, read_escaped, IH by (simpl in Hl; lia). cbn [mbind option_bind].
  by rewrite (utf8_of_c1 c d).
Qed.

(** The status object names the store for any path.  A source label or a
    path with whatever characters in it is written as a JSON string that reads
    back as exactly that text and ends where it was ended, so nothing in a
    configured path can add or change a field of the object. *)
Lemma json_string_roundtrip text rest :
  read_json_string (push_json_string text +:+ rest) = Some (text, rest).
Proof.
  unfold push_json_string, read_json_string. rewrite append_cons, bool_decide_eq_true_2 by done.
  rewrite <-append_assoc. apply (read_json_chars (String.length text)). lia.
Qed.

(** * Instances *)
Definition nl (s : string) : string := s +:+ String newline "".

Definition demo_files : list AgentFile := [{| label := "d.local"; path := "/l" |}; {| label := "d"; path := "/s" |}].

Definition demo_agent : AgentDisk := {|
  is_file := λ p, bool_decide (p ∈ ["/l"; "/s"]);
  read_bytes := λ p, if bool_decide (p = "/l") then Some (nl "A=ENC1" +:+ nl "sops_mac=x")
                     else if bool_decide (p = "/s") then Some (nl "A=ENC2" +:+ nl "B=ENC3") else None;
  sops_decrypt := λ p, if bool_decide (p = "/l") then SopsOutput (nl "A=one")
                       else if bool_decide (p = "/s") then SopsOutput (nl "A=two" +:+ nl "B=three") else SopsExited;
|}.

Lemma demo_sops_keeps_names : sops_keeps_names demo_agent.
Proof.
  assert (parse_dotenv (nl "A=one") = Ok {["A" := "one"]} ∧
          parse_dotenv (nl "A=two" +:+ nl "B=three") = Ok (<["B" := "three"]> {["A" := "two"]}) ∧
          names_of (nl "A=ENC1" +:+ nl "sops_mac=x") = Ok ["A"] ∧
          names_of (nl "A=ENC2" +:+ nl "B=ENC3") = Ok ["A"; "B"]) as (E1 & E2 & E3 & E4) by (by vm_compute).
  intros p bytes plaintext m ns n Hr Hd Hp Hn _. unfold demo_agent in Hr, Hd. cbn [read_bytes sops_decrypt] in Hr, Hd.
  destruct (bool_decide (p = "/l")), (bool_decide (p = "/s")); simplify_eq;
    rewrite ?E1, ?E2 in Hp; rewrite ?E3, ?E4 in Hn; simplify_eq.
  - rewrite lookup_singleton_is_Some. set_solver.
  - rewrite lookup_singleton_is_Some. set_solver.
  - rewrite lookup_insert_is_Some', lookup_singleton_is_Some. set_solver.
Qed.

Lemma agent_value_from_first_witness :
  agent_resolve (λ s, s) demo_agent demo_files "A" = Ok ("one", {| label := "d.local"; path := "/l" |}) ∧
  first_holder demo_agent demo_files "A" = Some ("one", {| label := "d.local"; path := "/l" |}) ∧
  ∀ found, agent_locate demo_agent demo_files "A" = Ok found → found = Some {| label := "d.local"; path := "/l" |}.
Proof.
  split; [by vm_compute|].
  destruct (agent_value_from_first (λ s, s) demo_agent demo_files "A" "one" {| label := "d.local"; path := "/l" |})
    as [H1 H2]; [by vm_compute|]. split; [done|]. by apply H2; [apply demo_sops_keeps_names|].
Defined.

Definition demo_root : SourceRoot := {| root_name := "d"; root_path := "/r" |}.

Definition demo_listing (dir : string) : DirListing :=
  if bool_decide (dir = "/r/secrets.human.d") then Listed ["README"; "K.local.env"] else NotDirectory.

Definition demo_store : filesystem := {|
  read_dir := λ dir, if bool_decide (dir = "/r/secrets.human.d") then Entries [Some "K.local.env"; Some "README"]
                     else NotFound;
  open_dir := λ _, true; openat := λ _ _, None; fstat := λ _, None;
|}.

Lemma client_names_daemon_file_witness :
  ∃ names, load_human demo_listing [demo_root] = Ok names ∧
    match names !! "K" with
    | Some l => ∃ c, candidates demo_store (daemon_sources [demo_root]) "K" = Ok [c] ∧
                     c_label c = h_label l ∧ join (c_dir c) (c_file_name c) = h_path l ∧
                     Store.locate demo_store (daemon_sources [demo_root]) "K" = Ok (h_label l)
    | None => Store.locate demo_store (daemon_sources [demo_root]) "K" = Err NotHumanKey
    end.
Proof.
  destruct (load_human demo_listing [demo_root]) as [names|] eqn:E; [|by vm_compute in E].
  exists names. split; [done|]. apply (client_names_daemon_file demo_listing); [done|by vm_compute|].
  constructor; [|done]. unfold same_directory. vm_compute (human_dir demo_root). cbn.
  apply perm_swap.
Defined.

Definition foreign_grant : Grant := {|
  g_scope := Session "someone-else"; g_key := "K"; g_value := "v"; g_origin := {| go_source := "d"; go_identity :=
    {| device := 0; inode := 0; size := 0; modified := {| seconds := 0; nanoseconds := 0 |};
       changed := {| seconds := 0; nanoseconds := 0 |} |} |}; g_created := 0; g_ttl := 10 |}.

Lemma status_sees_any_session_witness :
  active_grant CallerSession "K" (Table.render [foreign_grant] 5) = Ok true.
Proof.
  destruct (status_sees_any_session CallerSession "K" 5 [foreign_grant]) as [-> _]; [|by vm_compute].
  by repeat constructor.
Defined.
