(* ===== verification/Edit.v ===== *)
(** The write doors of the client ([crates/secrets/src/client/edit.rs],
    [edit/existing.rs], [edit/new.rs], [edit/plaintext.rs]).

    [Module Scratch] is the editor's plaintext file.  The doors run as
    processes that interleave: every system call that touches the disk or a
    lock is a step, sops and the editor are what they returned.  An agent file
    is the place its path leads to, so links and aliased roots share it; a
    human file is a name in the directory its path names. *)

From stdpp Require Import prelude strings list gmap sorting.
From Stdlib Require Import ZArith Lia Ascii.
From S2P Require Import Prelude Text Paths Wire Secret Store Setup Tiers.

Local Open Scope string_scope.

(** * The scratch file *)
Module Scratch.

(** A file of the runtime directory, by the number of its inode. *)
Record Node : Type := { content : string; regular : bool; uid : Z; mode : Z }.

(** What the scratch path names. *)
Inductive Link : Type := Gone | Symlink | Names (ino : nat).

Record Files : Type := { link : Link; nodes : gmap nat Node }.

Record PlaintextTemp : Type := { original : nat; edited : option nat }.

(** Which of the calls on the scratch file succeed. *)
Record Calls : Type := {
  can_create : bool;
  can_chmod : bool;
  can_write : bool;
  can_open : bool;
  can_stat : bool;
  can_chmod_again : bool;
  can_read : bool;
}.

Definition create (c : Calls) (euid : Z) (ino : nat) (fs : Files) : result CliError (Files * PlaintextTemp) :=
  if negb (can_create c) then Err EditTemp else
  if negb (can_chmod c) then Err EditTemp else
  Ok ({| link := Names ino;
         nodes := <[ino := {| content := ""; regular := true; uid := euid; mode := 384 |}]> (nodes fs) |},
      {| original := ino; edited := None |}).

(** [write]: at the end of what was written before, here at the start. *)
Definition write (c : Calls) (t : PlaintextTemp) (contents : string) (fs : Files) : result CliError Files :=
  if negb (can_write c) then Err EditTemp else
  Ok {| link := link fs;
        nodes := alter (λ n, {| content := contents; regular := regular n; uid := uid n; mode := mode n |})
                   (original t) (nodes fs) |}.

Definition set_mode (m : Z) (n : Node) : Node :=
  {| content := content n; regular := regular n; uid := uid n; mode := m |}.

Definition reopen_after_editor (c : Calls) (euid : Z) (t : PlaintextTemp) (fs : Files) :
    result CliError (Files * PlaintextTemp) :=
  match link fs with
  | Gone | Symlink => Err EditTemp
  | Names i =>
      match nodes fs !! i with
      | None => Err EditTemp
      | Some n =>
          if negb (can_open c) || negb (can_stat c) then Err EditTemp else
          if negb (regular n) || negb (bool_decide (uid n = euid)) then Err EditTemp else
          if bool_decide (Z.land (mode n) 511 = 384%Z)
          then Ok (fs, {| original := original t; edited := Some i |}) else
          if negb (can_chmod_again c) then Err EditTemp else
          Ok ({| link := link fs; nodes := alter (set_mode 384) i (nodes fs) |},
              {| original := original t; edited := Some i |})
      end
  end.

Definition read (c : Calls) (t : PlaintextTemp) (fs : Files) : result CliError string :=
  match edited t with
  | None => Err EditTemp
  | Some i =>
      match nodes fs !! i with
      | Some n => if can_read c then Ok (content n) else Err EditTemp
      | None => Err EditTemp
      end
  end.

Definition SCRUB_BLOCK_LEN : nat := 8192.

(** [k] zero bytes. *)
Fixpoint zeros (k : nat) : string := match k with 0 => "" | S k => String nul (zeros k) end.

(** The first [done] bytes are overwritten; [fuel] bounds the number of
    blocks, and every block but the last is a whole one.  [writes] says which
    of the writes succeed. *)
Fixpoint scrub_loop (fuel : nat) (writes : list bool) (done : nat) (remaining : nat) : option nat :=
  match remaining with
  | 0 => Some done
  | _ =>
      match fuel, writes with
      | S fuel, true :: writes =>
          let amount := Nat.min remaining SCRUB_BLOCK_LEN in
          scrub_loop fuel writes (done + amount) (remaining - amount)
      | S _, _ => Some done
      | 0, _ => None
      end
  end.

Definition overwrite (k : nat) (s : string) : string := zeros (Nat.min k (String.length s)) +:+ String.substring k (String.length s - k) s.

(** Which calls of one scrub succeed. *)
Record Scrub : Type := { stat_ok : bool; seek_ok : bool; writes : list bool }.

Definition scrub (c : Scrub) (n : Node) : option Node :=
  if negb (stat_ok c) || negb (seek_ok c) then Some n else
  done ← scrub_loop (String.length (content n)) (writes c) 0 (String.length (content n));
  Some {| content := overwrite done (content n); regular := regular n; uid := uid n; mode := mode n |}.

Definition scrub_at (c : Scrub) (i : nat) (fs : Files) : option Files :=
  match nodes fs !! i with
  | None => Some fs
  | Some n => n' ← scrub c n; Some {| link := link fs; nodes := <[i := n']> (nodes fs) |}
  end.

(** [Drop]: the edited file if it was reopened, the original, then the path. *)
Definition drop_temp (first second : Scrub) (t : PlaintextTemp) (fs : Files) : option Files :=
  fs ← match edited t with Some i => scrub_at first i fs | None => Some fs end;
  fs ← scrub_at second (original t) fs;
  Some {| link := Gone; nodes := nodes fs |}.

(** [run_editor]: whether it started, its exit status, and the files after it. *)
Inductive Editor : Type :=
| NotStarted
| Exited (success : bool) (after : Files).

(** [create] of [new.rs] up to the reading of the edited file: the files, the
    scratch file if there is one to drop, and the plaintext. *)
Definition session (c : Calls) (euid : Z) (ino : nat) (prefill : string) (e : Files → Editor) (fs : Files) :
    Files * option PlaintextTemp * result CliError string :=
  match create c euid ino fs with
  | Err e => (fs, None, Err e)
  | Ok (fs, t) =>
      match write c t prefill fs with
      | Err e => (fs, Some t, Err e)
      | Ok fs =>
          match e fs with
          | NotStarted => (fs, Some t, Err EditorStart)
          | Exited success after =>
              if negb success then (after, Some t, Err EditorExited) else
              match reopen_after_editor c euid t after with
              | Err e => (after, Some t, Err e)
              | Ok (fs, t) => (fs, Some t, read c t fs)
              end
          end
      end
  end.

(** ** Facts *)
Lemma zeros_length k : String.length (zeros k) = k.
Proof. induction k as [|k IH]; simpl; congruence. Qed.

Lemma overwrite_all s : overwrite (String.length s) s = zeros (String.length s).
Proof.
  unfold overwrite. rewrite Nat.min_id, Nat.sub_diag.
  assert (∀ k (t : string), String.substring k 0 t = "") as ->; [|apply append_nil_r].
  intros k t. revert k. induction t as [|c t IH]; intros [|k]; simpl; auto.
Qed.

(** The loop ends, and has gone over the whole file when no write failed. *)
Lemma scrub_loop_done (fuel d r : nat) (ws : list bool) :
  (r ≤ fuel)%nat →
  ∃ k, scrub_loop fuel ws d r = Some k ∧ (d ≤ k ≤ d + r)%nat ∧
    (Forall (λ w, w = true) ws → (r ≤ length ws)%nat → k = (d + r)%nat).
Proof.
  revert ws d r. induction fuel as [|fuel IH]; intros ws d r Hr.
  { exists d. assert (r = 0) as -> by lia. simpl. split_and!; [done|lia|lia|lia]. }
  destruct r as [|r]; [exists d; simpl; split_and!; [done|lia|lia|lia]|].
  cbn [scrub_loop]. destruct ws as [|[] ws].
  - exists d. split_and!; [done|lia|lia|simpl; lia].
  - assert (1 ≤ Nat.min (S r) SCRUB_BLOCK_LEN ≤ S r)%nat as Ha.
    { assert (1 ≤ SCRUB_BLOCK_LEN)%nat by (apply Nat.leb_le; by vm_compute). lia. }
    revert Ha. generalize (Nat.min (S r) SCRUB_BLOCK_LEN) as a. intros a Ha.
    destruct (IH ws (d + a) (S r - a)) as (k & -> & Hk & Hall); [lia|].
    exists k. split_and!; [done|lia|lia|]. intros [_ Hws]%Forall_cons Hl. simpl in Hl.
    rewrite Hall by (done || lia). lia.
  - exists d. split_and!; [done|lia|lia|]. by intros [? _]%Forall_cons.
Qed.

(** A scrub whose calls all succeed, with as many writes as it may need. *)
Definition all_ok (c : Scrub) (len : nat) : Prop :=
  stat_ok c = true ∧ seek_ok c = true ∧ Forall (λ w, w = true) (writes c) ∧ (len ≤ length (writes c))%nat.

Definition blank (n : Node) : Prop := content n = zeros (String.length (content n)).

Lemma scrub_blank c n : all_ok c (String.length (content n)) →
  ∃ n', scrub c n = Some n' ∧ blank n' ∧ String.length (content n') = String.length (content n).
Proof.
  intros (H1 & H2 & H3 & H4). unfold scrub. rewrite H1, H2. cbn [negb orb].
  destruct (scrub_loop_done (String.length (content n)) 0 (String.length (content n)) (writes c))
    as (k & -> & _ & Hk); [done|]. simpl. rewrite (Hk H3 H4). simpl.
  eexists. split; [done|]. unfold blank. simpl. by rewrite overwrite_all, zeros_length.
Qed.

Lemma scrub_at_blank c i fs :
  (∀ n, nodes fs !! i = Some n → all_ok c (String.length (content n))) →
  ∃ fs', scrub_at c i fs = Some fs' ∧ link fs' = link fs ∧
    (∀ n, nodes fs' !! i = Some n → blank n ∧ is_Some (nodes fs !! i)) ∧
    (∀ n, nodes fs' !! i = Some n → ∃ m, nodes fs !! i = Some m ∧ String.length (content n) = String.length (content m)) ∧
    ∀ j, j ≠ i → nodes fs' !! j = nodes fs !! j.
Proof.
  intros Hok. unfold scrub_at. destruct (nodes fs !! i) as [n|] eqn:E.
  - destruct (scrub_blank c n (Hok n eq_refl)) as (n' & -> & Hb & Hl). simpl. eexists. split_and!; [done|done| | |].
    + simpl. rewrite lookup_insert_eq. intros ? [= <-]. eauto.
    + simpl. rewrite lookup_insert_eq. intros ? [= <-]. eauto.
    + intros j Hj. simpl. by rewrite lookup_insert_ne.
  - eexists. split_and!; [done|done| | |done]; rewrite E; done.
Qed.

(** The scratch file does not outlive the command in the clear.  Once the
    edited file was read, dropping the scratch file (when no call fails)
    overwrites both the file that was read and the one it was created as, so
    an editor that saves by renaming leaves neither behind, and then removes
    the path. *)
Lemma scratch_is_scrubbed c euid ino prefill e fs fs' t plaintext first second :
  session c euid ino prefill e fs = (fs', Some t, Ok plaintext) →
  (∀ i n, nodes fs' !! i = Some n → all_ok first (String.length (content n)) ∧ all_ok second (String.length (content n))) →
  ∃ fs'' i n, drop_temp first second t fs' = Some fs'' ∧ link fs'' = Gone ∧
    edited t = Some i ∧ nodes fs' !! i = Some n ∧ content n = plaintext ∧
    ∀ j m, j = i ∨ j = original t → nodes fs'' !! j = Some m → blank m.
Proof.
  intros Hs Hok.
  assert (∃ i n, edited t = Some i ∧ nodes fs' !! i = Some n ∧ content n = plaintext) as (i & n & Ei & En & Ec).
  { unfold session in Hs. destruct (create _ _ _ _) as [[fs1 t1]|]; [|done]. destruct (write _ _ _ _) as [fs2|]; [|done].
    destruct (e fs2) as [|[] after]; [done| |done]. cbn [negb] in Hs.
    destruct (reopen_after_editor _ _ _ _) as [[fs3 t3]|]; [|done]. injection Hs as -> -> Hr.
    unfold read in Hr. destruct (edited t) as [i|]; [|done]. destruct (nodes fs' !! i) as [n|] eqn:En; [|done].
    destruct (can_read c); [|done]. injection Hr as <-. eauto. }
  unfold drop_temp. rewrite Ei.
  destruct (scrub_at_blank first i fs') as (fs1 & -> & L1 & B1 & N1 & O1); [intros; by eapply Hok|]. simpl.
  destruct (scrub_at_blank second (original t) fs1) as (fs2 & -> & L2 & B2 & N2 & O2).
  { intros m Hm. destruct (decide (original t = i)) as [Heq|Hne].
    - rewrite Heq in Hm. destruct (N1 m Hm) as (m' & Hm' & ->). by eapply Hok.
    - rewrite O1 in Hm by done. by eapply Hok. }
  simpl. eexists _, i, n. split_and!; [done|done|done|done|done|].
  intros j m Hj Hm. simpl in Hm. destruct (decide (j = original t)) as [->|Hne]; [by apply B2|].
  destruct Hj as [->|]; [|done]. rewrite O2 in Hm by done. by apply B1.
Qed.

(** An editor that saved by renaming and then exited with a failure: the file
    with the edited plaintext is unlinked as it is. *)
Lemma failed_editor_leaves_plaintext :
  let calls := {| can_create := true; can_chmod := true; can_write := true; can_open := true; can_stat := true;
                  can_chmod_again := true; can_read := true |} in
  let saved := {| content := "KEY=hunter2"; regular := true; uid := 0; mode := 384 |} in
  let renames (fs : Files) := Exited false {| link := Names 2; nodes := <[2 := saved]> (nodes fs) |} in
  let scrubs := {| stat_ok := true; seek_ok := true; writes := [true; true] |} in
  match session calls 0 1 "KEY=" renames {| link := Gone; nodes := ∅ |} with
  | (fs, Some t, Err EditorExited) => (λ fs', nodes fs' !! 2) <$> drop_temp scrubs scrubs t fs
  | _ => None
  end = Some (Some saved).
Proof. by vm_compute. Qed.

End Scratch.

(** * Choosing what to edit *)
Record EditArguments : Type := { source : option string; local : bool }.

Definition source_names (roots : list SourceRoot) : string := concat_sep ", " (root_name <$> roots).

Definition select_named_root (roots : list SourceRoot) (raw_source : string) : result CliError SourceRoot :=
  match from_utf8 raw_source with
  | None => Err Usage
  | Some source =>
      ok_or (UnknownEditSource source (source_names roots))
            (List.find (λ r, bool_decide (root_name r = source)) roots)
  end.

Definition select_root (roots : list SourceRoot) (source : option string) : result CliError SourceRoot :=
  match source with
  | Some s => select_named_root roots s
  | None =>
      match roots with
      | [root] => Ok root
      | [] => Err (ConfigFailed NoRoots)
      | _ => Err (EditSourceRequired (source_names roots))
      end
  end.

Definition parse_name (raw : string) : result CliError string :=
  match from_utf8 raw with
  | None => Err InvalidSecretName
  | Some name => map_err (λ _, InvalidSecretName) (secret_name_parse name)
  end.

Definition existing_human_path (roots : list SourceRoot) (name : string) (l : HumanLocation) (flags : EditArguments) :
    result CliError string :=
  let actual := default (h_label l) (strip_suffix (h_label l) ".local") in
  let conflict := Err (EditConflict name (h_label l)) in
  let finish :=
    if local flags && bool_decide (h_label l = actual) then conflict else Ok (h_path l) in
  match source flags with
  | None => finish
  | Some s =>
      selected ← select_named_root roots s;
      if negb (bool_decide (root_name selected = actual)) then conflict else finish
  end.

(** [mkdir] is whether the directory exists or could be made. *)
Definition new_human_path (roots : list SourceRoot) (name : string) (flags : EditArguments) (mkdir : bool) :
    result CliError string :=
  root ← select_root roots (source flags);
  if negb mkdir then Err (HumanDirectory (human_dir root)) else
  Ok (join (human_dir root) (if local flags then local_file_name name else file_name name)).

(** * Values and ciphertext *)
Definition validate_human (plaintext name : string) : result CliError () :=
  match parse_single_assignment plaintext name with
  | Err _ => Err (InvalidEditedHumanSecret name)
  | Ok value => if is_empty value then Err (EmptyEditedHumanSecret name) else Ok ()
  end.

(** One line end is dropped. *)
Definition chomp (value : string) : string :=
  match strip_suffix value (String newline "") with Some rest => strip_cr rest | None => value end.

Definition assignment (name value : string) : string := name +:+ "=" +:+ value +:+ String newline "".

(** [stdin] is all of standard input, unless reading it failed. *)
Definition read_piped_assignment (name : string) (stdin : option string) : result CliError string :=
  match stdin with
  | None => Err PipedHumanRead
  | Some input =>
      let value := chomp input in
      if is_empty value then Err (EmptyPipedHumanSecret name) else
      if contains_byte newline value || contains_byte carriage_return value then Err (InvalidPipedHumanSecret name) else
      match parse_single_assignment (assignment name value) name with
      | Err _ => Err (InvalidPipedHumanSecret name)
      | Ok _ => Ok (assignment name value)
      end
  end.

Definition MAX_SOPS_CIPHERTEXT_BYTES : Z := 1024 * 1024.

Inductive DrainFailure : Type := Read | TooLarge.

(** At most one byte more than the limit is read. *)
Definition drain_sops_stdout (stdout : string) (read_ok : bool) : result DrainFailure string :=
  if negb read_ok then Err Read else
  if (MAX_SOPS_CIPHERTEXT_BYTES <? slen stdout)%Z then Err TooLarge else Ok stdout.

(** [Path::parent] is something. *)
Definition has_parent (p : string) : bool := match components p with [] | [RootDir] => false | _ => true end.

(** One run of [sops encrypt]: which calls around it succeed, its exit status,
    and what it wrote if it failed. *)
Record SopsRun : Type := {
  temp_ok : bool;
  input_ok : bool;
  output_ok : bool;
  spawned : bool;
  exited_ok : bool;
  stderr_ok : bool;
  partial : string;
}.

Section sops.
Context (sops_encrypt : string → string).

Definition sops_stdout (o : SopsRun) (plaintext : string) : string :=
  if exited_ok o then sops_encrypt plaintext else partial o.

(** [encrypt]: sops writes the staged file itself. *)
Definition encrypt (o : SopsRun) (plaintext target : string) : result CliError string :=
  if negb (has_parent target) || negb (temp_ok o) then Err InstallEditedSecret else
  if negb (input_ok o) then Err EditTemp else
  if negb (output_ok o) then Err InstallEditedSecret else
  if negb (spawned o) then Err (EncryptEditedSecret target) else
  if negb (stderr_ok o) || negb (exited_ok o) then Err (EncryptEditedSecret target) else
  Ok (sops_stdout o plaintext).

(** [encrypt_bytes]: through pipes; here [input_ok] and [output_ok] are the
    write to and the reads from them. *)
Definition encrypt_bytes (o : SopsRun) (plaintext target : string) : result CliError string :=
  if negb (has_parent target) then Err InstallEditedSecret else
  if negb (spawned o) then Err (EncryptEditedSecret target) else
  match drain_sops_stdout (sops_stdout o plaintext) (output_ok o) with
  | Err TooLarge => Err (SopsCiphertextTooLarge MAX_SOPS_CIPHERTEXT_BYTES)
  | Err Read => Err (EncryptEditedSecret target)
  | Ok output =>
      if negb (input_ok o) || negb (exited_ok o) || negb (stderr_ok o) then Err (EncryptEditedSecret target) else
      if negb (temp_ok o) then Err InstallEditedSecret else Ok output
  end.

End sops.

(** * The doors as processes *)
Inductive Door : Type :=
| AgentDoor (source : option string) (local : bool)
| HumanDoor (raw_key : string) (flags : EditArguments) (piped : bool).

(** Agent files by place, human directories by place and then by name. *)
Record Disk : Type := {
  agent_at : gmap Z string;
  human_at : gmap Z (gmap string string);
}.

(** What is being published, and how: a new agent file, a new human file, a
    human file from a pipe. *)
Inductive Kind : Type := NewAgent | NewHuman | Piped.

Inductive Stage : Type :=
| Loading
| Locking (rest : list SourceRoot)
| Locked
| AgentEditing (before : string)
| AgentVerifying (before staged : string)
| AgentReplacing (before staged : string)
| Creating (kind : Kind) (path : string)
| Encrypting (kind : Kind) (path plaintext : string)
| Installing (kind : Kind) (path ciphertext : string)
| InPlace (path : string)
| Finished (r : option (result CliError ())).

(** [names] is the human tier as it was when the command started, [name] the
    parsed key of the human door, [target] the agent file of the agent door. *)
Record Proc : Type := {
  door : Door;
  names : HumanNames;
  name : string;
  target : string;
  held : list (Z * Z);
  stage : Stage;
}.

(** What a step is given: whether its call succeeded, what the editor or sops
    came back with, or a signal that ends the process. *)
Inductive StageEdit : Type :=
| NoStage
| SopsNotRun (stage_path : string)
| SopsFailedEdit
| Staged (stage_path : string) (bytes : option string).

Inductive Ev : Type :=
| Go (ok : bool)
| EditedStage (o : StageEdit)
| Session (s : result CliError string)
| PipeRead (hardened : option HardeningError) (stdin : option string)
| Encrypted (o : SopsRun)
| Persist (ok announced : bool)
| EditedInPlace (started ok : bool) (contents : option string)
| Die.

Definition at_stage (p : Proc) (s : Stage) : Proc :=
  {| door := door p; names := names p; name := name p; target := target p; held := held p; stage := s |}.

(** The guards drop when the command returns or dies. *)
Definition finish (p : Proc) (r : option (result CliError ())) : Proc :=
  {| door := door p; names := names p; name := name p; target := target p; held := []; stage := Finished r |}.

Definition fail_with (p : Proc) (e : CliError) : Proc := finish p (Some (Err e)).

Section doors.
Context (roots : list SourceRoot) (sops_encrypt : string → string).
Context (root_id : string → option (Z * Z)) (agent_slot : string → Z) (human_slot : string → Z).
Context (is_link : string → bool).

Definition agent_view (d : Disk) : AgentDisk := {|
  is_file := λ p, is_some (agent_at d !! agent_slot p);
  read_bytes := λ p, agent_at d !! agent_slot p;
  sops_decrypt := λ _, SopsNotStarted;
|}.

Definition human_listing (d : Disk) (dir : string) : DirListing :=
  match human_at d !! human_slot dir with
  | None => NotDirectory
  | Some entries => Listed (elements (dom entries))
  end.

Definition human_file (path : string) : Z * string :=
  match rsplit_once slash path with
  | Some (dir, file) => (human_slot dir, file)
  | None => (human_slot "", path)
  end.

Definition agent_paths : list AgentFile := roots ≫= of_root.

Definition write_agent (d : Disk) (path bytes : string) : Disk :=
  {| agent_at := <[agent_slot path := bytes]> (agent_at d); human_at := human_at d |}.

Definition write_human (d : Disk) (path bytes : string) : Disk :=
  let '(dir, file) := human_file path in
  {| agent_at := agent_at d; human_at := alter (insert file bytes) dir (human_at d) |}.

Definition human_exists (d : Disk) (path : string) : bool :=
  let '(dir, file) := human_file path in is_some (human_at d !! dir ≫= (.!! file)).

Definition make_human_dir (d : Disk) (path : string) : Disk :=
  let '(dir, _) := human_file path in
  {| agent_at := agent_at d; human_at := <[dir := default ∅ (human_at d !! dir)]> (human_at d) |}.

Definition ensure_no_human_clash (d : Disk) (ns : list string) : result CliError () :=
  human ← load_human (human_listing d) roots;
  match List.find (λ n, is_some (human !! n)) ns with
  | Some n => Err (HumanKeyExists n)
  | None => Ok ()
  end.

(** The commands up to the write lock. *)
Definition load_step (d : Disk) (p : Proc) : Proc :=
  match load_human (human_listing d) roots with
  | Err e => fail_with p e
  | Ok human =>
      match door p with
      | AgentDoor source local =>
          match select_root roots source with
          | Err e => fail_with p e
          | Ok root =>
              {| door := door p; names := human; name := "";
                 target := (if local then (agent_files root).1 else (agent_files root).2);
                 held := held p; stage := Locking roots |}
          end
      | HumanDoor raw_key _ _ =>
          match parse_name raw_key with
          | Err e => fail_with p e
          | Ok n => {| door := door p; names := human; name := n; target := ""; held := held p; stage := Locking roots |}
          end
      end
  end.

(** Whether an exclusive [flock] of a directory just opened is granted at once.
    A lock belongs to the open description it was taken on, so the caller's own
    earlier guards keep it waiting like anybody else's. *)
Definition flock_free (others guards : list (Z * Z)) (id : Z * Z) : bool :=
  negb (bool_decide (id ∈ others) || bool_decide (id ∈ guards)).

(** One round of [lock_roots]; [held] is both [locked] and [guards].  It waits
    as long as the lock is taken. *)
Definition lock_step (others : list (Z * Z)) (p : Proc) (rest : list SourceRoot) (ok : bool) : option Proc :=
  match rest with
  | [] => Some (at_stage p Locked)
  | root :: rest =>
      match root_id (root_path root) with
      | None => Some (fail_with p InstallEditedSecret)
      | Some id =>
          if bool_decide (id ∈ held p) then Some (at_stage p (Locking rest)) else
          if negb ok then Some (fail_with p InstallEditedSecret) else
          if negb (flock_free others (held p) id) then None else
          Some {| door := door p; names := names p; name := name p; target := target p;
                  held := (held p ++ [id])%list; stage := Locking rest |}
      end
  end.

(** The first things done under the lock. *)
Definition locked_step (d : Disk) (p : Proc) (mkdir : bool) : Disk * Proc :=
  match door p with
  | AgentDoor _ _ =>
      match agent_at d !! agent_slot (target p) with
      | Some before => (d, at_stage p (AgentEditing before))
      | None => (d, at_stage p (Creating NewAgent (target p)))
      end
  | HumanDoor _ flags piped =>
      match agent_contains (agent_view d) agent_paths (name p) with
      | Err e => (d, fail_with p e)
      | Ok true => (d, fail_with p (AgentKeyExists (name p)))
      | Ok false =>
          match names p !! name p with
          | Some l =>
              match existing_human_path roots (name p) l flags with
              | Err e => (d, fail_with p e)
              | Ok path => (d, at_stage p (if piped then Creating Piped path else InPlace path))
              end
          | None =>
              match new_human_path roots (name p) flags mkdir with
              | Err e => (d, fail_with p e)
              | Ok path => (make_human_dir d path, at_stage p (Creating (if piped then Piped else NewHuman) path))
              end
          end
      end
  end.

(** [edit_agent] once sops came back with the staged copy. *)
Definition staged_step (d : Disk) (p : Proc) (before : string) (o : StageEdit) : Proc :=
  match o with
  | NoStage => fail_with p EditTemp
  | SopsNotRun path => fail_with p (SopsStart path)
  | SopsFailedEdit => fail_with p SopsEditFailed
  | Staged path None => fail_with p (AgentKeySet path)
  | Staged path (Some staged) =>
      match map_err (λ e, in_file e path) (names_of staged) ≫= ensure_no_human_clash d with
      | Err e => fail_with p e
      | Ok _ => at_stage p (AgentVerifying before staged)
      end
  end.

(** [create] once the scratch file was read, and [write_piped_human]. *)
Definition plaintext_step (d : Disk) (p : Proc) (kind : Kind) (path : string) (e : Ev) : option Proc :=
  match kind, e with
  | NewAgent, Session s =>
      Some (match (plaintext ← s; ns ← names_of plaintext; _ ← ensure_no_human_clash d ns; Ok plaintext) with
            | Err e => fail_with p e
            | Ok plaintext => at_stage p (Encrypting NewAgent path plaintext)
            end)
  | NewHuman, Session s =>
      Some (match (plaintext ← s; _ ← validate_human plaintext (name p); Ok plaintext) with
            | Err e => fail_with p e
            | Ok plaintext => at_stage p (Encrypting NewHuman path plaintext)
            end)
  | Piped, PipeRead (Some e) _ => Some (fail_with p (HardeningFailed e))
  | Piped, PipeRead None stdin =>
      Some (match read_piped_assignment (name p) stdin with
            | Err e => fail_with p e
            | Ok plaintext => at_stage p (Encrypting Piped path plaintext)
            end)
  | _, _ => None
  end.

(** [persist_noclobber] for new files, [persist] for the piped door. *)
Definition install_step (d : Disk) (p : Proc) (kind : Kind) (path ciphertext : string) (ok announced : bool) :
    Disk * Proc :=
  if negb ok then (d, fail_with p InstallEditedSecret) else
  match kind with
  | NewAgent =>
      if is_link path || is_some (agent_at d !! agent_slot path) then (d, fail_with p InstallEditedSecret)
      else (write_agent d path ciphertext, finish p (Some (Ok ())))
  | NewHuman =>
      if human_exists d path then (d, fail_with p InstallEditedSecret)
      else (write_human d path ciphertext, finish p (Some (Ok ())))
  | Piped =>
      (write_human d path ciphertext, if announced then finish p (Some (Ok ())) else fail_with p StdoutFailed)
  end.

Definition pstep (others : list (Z * Z)) (d : Disk) (p : Proc) (e : Ev) : option (Disk * Proc) :=
  match stage p, e with
  | Finished _, _ => None
  | _, Die => Some (d, finish p None)
  | Loading, Go _ => Some (d, load_step d p)
  | Locking rest, Go ok => (λ p', (d, p')) <$> lock_step others p rest ok
  | Locked, Go mkdir => Some (locked_step d p mkdir)
  | AgentEditing before, EditedStage o => Some (d, staged_step d p before o)
  | AgentVerifying before staged, Go _ =>
      Some (d, match agent_at d !! agent_slot (target p) with
               | None => fail_with p (AgentKeySet (target p))
               | Some now => if bool_decide (now = before) then at_stage p (AgentReplacing before staged)
                             else fail_with p AgentFileChangedDuringEdit
               end)
  | AgentReplacing _ staged, Persist ok _ =>
      Some (if ok then (write_agent d (target p) staged, finish p (Some (Ok ())))
            else (d, fail_with p InstallEditedSecret))
  | Creating kind path, e => (λ p', (d, p')) <$> plaintext_step d p kind path e
  | Encrypting kind path plaintext, Encrypted o =>
      Some (d, match (match kind with Piped => encrypt_bytes | _ => encrypt end) sops_encrypt o plaintext path with
               | Err e => fail_with p e
               | Ok ciphertext => at_stage p (Installing kind path ciphertext)
               end)
  | Installing kind path ciphertext, Persist ok announced =>
      Some (install_step d p kind path ciphertext ok announced)
  | InPlace path, EditedInPlace started ok contents =>
      Some (if negb started then (d, fail_with p (SopsStart path)) else
            (match contents with Some bytes => write_human d path bytes | None => d end,
             if ok then finish p (Some (Ok ())) else fail_with p SopsEditFailed))
  | _, _ => None
  end.

(** All commands at once; any of them may take the next step. *)
Record World : Type := { disk : Disk; procs : list Proc }.

Definition others_held (w : World) (i : nat) : list (Z * Z) := delete i (procs w) ≫= held.

Definition step (w : World) (i : nat) (e : Ev) : option World :=
  p ← procs w !! i;
  '(d, p') ← pstep (others_held w i) (disk w) p e;
  Some {| disk := d; procs := <[i := p']> (procs w) |}.

Fixpoint run (w : World) (events : list (nat * Ev)) : option World :=
  match events with
  | [] => Some w
  | (i, e) :: rest => w' ← step w i e; run w' rest
  end.

Definition waiting (d : Door) : Proc :=
  {| door := d; names := ∅; name := ""; target := ""; held := []; stage := Loading |}.

Definition start (d : Disk) (doors : list Door) : World := {| disk := d; procs := waiting <$> doors |}.

End doors.

(** * Facts *)
Section facts.
Context (roots : list SourceRoot) (sops_encrypt : string → string).
Context (root_id : string → option (Z * Z)) (agent_slot : string → Z) (human_slot : string → Z).
Context (is_link : string → bool).

Local Notation pstep := (pstep roots sops_encrypt root_id agent_slot human_slot is_link).
Local Notation step := (step roots sops_encrypt root_id agent_slot human_slot is_link).
Local Notation run := (run roots sops_encrypt root_id agent_slot human_slot is_link).
Local Notation human_file := (human_file human_slot).

(** ** The lock *)
Definition critical (s : Stage) : bool :=
  match s with Loading | Locking _ | Finished _ => false | _ => true end.

Definition locked_root (p : Proc) (r : SourceRoot) : Prop := ∃ id, root_id (root_path r) = Some id ∧ id ∈ held p.

(** The locks a process has are those of the roots it has gone through. *)
Definition lock_ok (p : Proc) : Prop :=
  match stage p with
  | Loading | Finished _ => held p = []
  | Locking rest => ∃ past, roots = (past ++ rest)%list ∧ Forall (locked_root p) past ∧ (past = [] → held p = [])
  | _ => Forall (locked_root p) roots
  end.

(** What a step under the lock does to its process. *)
Definition follows (p p' : Proc) : Prop :=
  (held p' = held p ∧ name p' = name p ∧ names p' = names p ∧ critical (stage p') = true) ∨ ∃ r, p' = finish p r.

Local Ltac follow := unfold follows, fail_with in *; repeat case_match; simplify_eq;
  first [by left | by right; eexists | by eauto].

Lemma pstep_critical others d p e d' p' :
  critical (stage p) = true → pstep others d p e = Some (d', p') → follows p p'.
Proof.
  intros Hc Hs. unfold Edit.pstep in Hs. destruct (stage p) eqn:Es; try done; destruct e; try done;
    try (destruct (plaintext_step _ _ _ _ _ _) as [q|] eqn:E; [|done]; unfold plaintext_step in E);
    injection Hs as Hs; unfold locked_step, staged_step, install_step in *; try follow.
Qed.

Lemma lock_ok_critical p : critical (stage p) = true → lock_ok p ↔ Forall (locked_root p) roots.
Proof. unfold lock_ok. by destruct (stage p). Qed.

Lemma lock_step_ok others p rest ok p' :
  stage p = Locking rest → lock_ok p → lock_step root_id others p rest ok = Some p' →
  lock_ok p' ∧ (held p' = held p ∨ held p' = [] ∨ ∃ id, held p' = (held p ++ [id])%list ∧ id ∉ others).
Proof.
  intros Es Hl E. unfold lock_ok in Hl. rewrite Es in Hl. unfold lock_step in E.
  destruct Hl as (past & Hr & Hp & Hn). destruct rest as [|root rest].
  { injection E as <-. split; [|by left]. unfold lock_ok. simpl. rewrite Hr, app_nil_r. done. }
  assert (∀ q, Forall (locked_root q) past → locked_root q root → stage q = Locking rest → lock_ok q) as Hnext.
  { intros q Hq1 Hq2 Hq3. unfold lock_ok. rewrite Hq3. exists (past ++ [root])%list. rewrite <-app_assoc.
    split; [done|]. split; [|by intros [_ ?]%app_eq_nil]. apply Forall_app. auto. }
  destruct (root_id (root_path root)) as [id|] eqn:Ei; [|injection E as <-; split; [done|by right; left]].
  case_bool_decide as Hin.
  { injection E as <-. split; [|by left]. apply Hnext; [done|by exists id|done]. }
  destruct (negb ok); [injection E as <-; split; [done|by right; left]|].
  unfold flock_free in E. case_bool_decide as Ho; [done|]. rewrite bool_decide_eq_false_2 in E by done.
  injection E as <-. split; [|right; right; by exists id].
  apply Hnext; [|exists id; simpl; set_solver|done].
  eapply Forall_impl; [exact Hp|]. intros r (i & Hi & Hh). exists i. simpl. set_solver.
Qed.

Lemma pstep_lock others d p e d' p' :
  lock_ok p → pstep others d p e = Some (d', p') →
  lock_ok p' ∧
  (held p' = held p ∨ held p' = [] ∨ ∃ id, held p' = (held p ++ [id])%list ∧ id ∉ others) ∧
  (d' = d ∨ critical (stage p) = true).
Proof.
  intros Hl Hs. destruct (critical (stage p)) eqn:Ec.
  { destruct (pstep_critical _ _ _ _ _ _ Ec Hs) as [(Hh & _ & _ & Hc)|[r ->]];
      [|by split; [|split; [right; left|right]]].
    split; [|by split; [left|right]]. apply lock_ok_critical; [done|]. apply lock_ok_critical in Hl; [|done].
    eapply Forall_impl; [exact Hl|]. intros r (i & ? & ?). exists i. by rewrite Hh. }
  unfold Edit.pstep in Hs. destruct (stage p) as [|rest| | | | | | | | |] eqn:Es; try done; destruct e; try done;
    try (injection Hs as <- <-; split; [done|]; split; [by right; left|by left]).
  - injection Hs as <- <-. unfold lock_ok in Hl. rewrite Es in Hl. split; [|split; [|by left]]; unfold load_step;
      repeat case_match; try done; try (by right; left); try (by left).
    all: exists []; split; [done|]; split; [constructor|done].
  - destruct (lock_step _ _ _ _ _) as [q|] eqn:E; [|done]. injection Hs as <- <-.
    eapply lock_step_ok in E as [? ?]; [|done|done]. auto.
Qed.

(** ** The two tiers on disk *)
Definition agent_has (d : Disk) (n : string) : Prop := ∃ f bytes ns, f ∈ agent_paths roots ∧
  agent_at d !! agent_slot (path f) = Some bytes ∧ names_of bytes = Ok ns ∧ n ∈ ns.

Definition human_has (d : Disk) (n : string) : Prop := secret_name_ok n ∧ ∃ r entries local, r ∈ roots ∧
  human_at d !! human_slot (human_dir r) = Some entries ∧ is_Some (entries !! file_for n local).

Definition tiers_apart (d : Disk) : Prop := ∀ n, agent_has d n → human_has d n → False.

Definition names_apart (d : Disk) (bytes : string) : Prop :=
  ∀ ns n, names_of bytes = Ok ns → n ∈ ns → human_has d n → False.

Definition names_checked (d : Disk) (bytes : string) : Prop :=
  ∃ ns, names_of bytes = Ok ns ∧ ∀ n, n ∈ ns → human_has d n → False.

Definition path_ok (d : Disk) (p : Proc) (file_path : string) : Prop :=
  secret_name_ok (name p) ∧ (∃ local, (human_file file_path).2 = file_for (name p) local) ∧ ¬ agent_has d (name p).

(** What a process under the lock knows of the disk. *)
Definition data_ok (d : Disk) (p : Proc) : Prop :=
  match stage p with
  | AgentEditing before => agent_at d !! agent_slot (target p) = Some before
  | AgentVerifying before staged | AgentReplacing before staged =>
      agent_at d !! agent_slot (target p) = Some before ∧ names_apart d staged
  | Encrypting NewAgent _ bytes => names_checked d bytes
  | Installing NewAgent _ bytes => names_apart d bytes
  | Creating NewAgent _ => True
  | Creating _ path | Encrypting _ path _ | Installing _ path _ | InPlace path => path_ok d p path
  | _ => True
  end.

Definition snapshot_ok (p : Proc) : Prop :=
  match stage p, door p with
  | Locking _, HumanDoor _ _ _ | Locked, HumanDoor _ _ _ => secret_name_ok (name p) ∧
      ∀ l, names p !! name p = Some l → ∃ r local, r ∈ roots ∧ h_path l = join (human_dir r) (file_for (name p) local)
  | _, _ => True
  end.

Local Notation human_listing := (human_listing human_slot).
Local Notation agent_view := (agent_view agent_slot).

Lemma human_hits d n r entries l :
  secret_name_ok n → r ∈ roots → human_at d !! human_slot (human_dir r) = Some entries →
  is_Some (entries !! file_for n l) → (source_of r, l) ∈ client_hits (human_listing d) n roots.
Proof.
  intros Hn Hr He Hi. unfold client_hits. apply list_elem_of_bind. exists r. split; [|done].
  unfold Edit.human_listing. rewrite He. apply list_elem_of_fmap. exists l. split; [done|].
  apply list_elem_of_omap. exists (file_for n l). split; [|by apply hit_Some].
  rewrite (merge_sort_Permutation name_le). by apply elem_of_elements, elem_of_dom.
Qed.

Lemma loaded_has d human n :
  load_human (human_listing d) roots = Ok human → human_has d n → is_Some (human !! n).
Proof.
  intros [_ Hx]%load_roots_spec (Hn & r & entries & l & Hr & He & Hi). specialize (Hx n Hn).
  pose proof (human_hits d n r entries l Hn Hr He Hi) as Hin.
  destruct (client_hits _ _ _) as [|[s b] [|? ?]]; [by apply not_elem_of_nil in Hin| |done].
  destruct Hx as [_ ->]. by eexists.
Qed.

Lemma loaded_path d human n l :
  load_human (human_listing d) roots = Ok human → secret_name_ok n → human !! n = Some l →
  ∃ r b, r ∈ roots ∧ h_path l = join (human_dir r) (file_for n b).
Proof.
  intros [_ Hx]%load_roots_spec Hn Hl. specialize (Hx n Hn). rewrite lookup_empty, Hl in Hx.
  assert (∀ x, x ∈ client_hits (human_listing d) n roots → ∃ r, r ∈ roots ∧ x.1 = source_of r) as Hin.
  { intros x (r & Hx' & Hr)%list_elem_of_bind. exists r. split; [done|].
    destruct (human_listing d (human_dir r)) as [| |es]; try by apply not_elem_of_nil in Hx'.
    by apply list_elem_of_fmap in Hx' as (b & -> & _). }
  destruct (client_hits _ _ _) as [|[s b] [|? ?]]; [done| |done].
  destruct Hx as [_ [= ->]]. destruct (Hin (s, b)) as (r & Hr & Hs); [by left|]. simpl in Hs. subst s.
  by exists r, b.
Qed.

Lemma clash_apart d ns :
  ensure_no_human_clash roots human_slot d ns = Ok () → ∀ n, n ∈ ns → human_has d n → False.
Proof.
  unfold ensure_no_human_clash. destruct (load_human _ _) as [human|] eqn:E; [|done]. simpl.
  destruct (List.find _ _) eqn:Ef; [done|]. intros _ n Hn Hh.
  pose proof (loaded_has _ _ _ E Hh) as [l Hl].
  pose proof (List.find_none _ _ Ef n (proj1 (list_elem_of_In _ _) Hn)) as Hx. simpl in Hx. by rewrite Hl in Hx.
Qed.

Lemma rsplit_once_last d a b : contains_byte d b = false → rsplit_once d (a +:+ String d b) = Some (a, b).
Proof.
  intros Hb. induction a as [|c a IH]; [|simpl; by rewrite IH].
  change ("" +:+ String d b) with (String d b). cbn [rsplit_once].
  assert (rsplit_once d b = None) as ->; [|by rewrite bool_decide_eq_true_2].
  apply contains_byte_false in Hb. clear -Hb. induction b as [|c b IH]; [done|]. simpl in *.
  apply andb_true_iff in Hb as [Hc Hb]. rewrite IH by done. apply negb_true_iff in Hc. by rewrite Hc.
Qed.

Lemma human_file_join r f : contains_byte slash f = false → human_file (join (human_dir r) f) = (human_slot (human_dir r), f).
Proof.
  intros Hf. unfold Edit.human_file, join at 1.
  assert (is_absolute f = false) as ->.
  { destruct (is_absolute f) eqn:E; [|done]. apply is_absolute_cons in E as [q ->].
    apply contains_byte_false in Hf. done. }
  assert (last_byte (human_dir r) = Some "d"%char) as ->.
  { unfold human_dir, join. cbn. destruct (last_byte (root_path r)); [|done].
    case_bool_decide; [by apply (last_byte_app_r _ "secrets.human.d")|by apply (last_byte_app_r _ "/secrets.human.d")]. }
  rewrite bool_decide_eq_false_2 by done. change ("/" +:+ f) with (String slash f). by rewrite (rsplit_once_last slash).
Qed.

Lemma file_for_slash n l : secret_name_ok n → contains_byte slash (file_for n l) = false.
Proof.
  intros Hn%secret_name_ok_bytes. unfold file_for, local_file_name, file_name.
  assert (contains_byte slash n = false) as Hs by (eapply all_bytes_not_contains; [|exact Hn]; done).
  destruct l; by rewrite contains_byte_append, Hs.
Qed.

Lemma file_for_inj n m l k : secret_name_ok n → secret_name_ok m → file_for n l = file_for m k → n = m.
Proof.
  intros Hn Hm E%eq_sym. apply (proj2 (hit_Some n _ l Hn)) in E. apply hit_file_of in E; [|done].
  assert (file_of (file_for m k) = Some (m, k, file_for m k)) as Hf by (apply hit_file_of; [done|by apply hit_Some]).
  congruence.
Qed.

(** ** What each write changes *)
Lemma human_has_write d file_path bytes n :
  human_has (write_human human_slot d file_path bytes) n →
  human_has d n ∨ ∃ l, (human_file file_path).2 = file_for n l.
Proof.
  intros (Hn & r & entries & l & Hr & He & Hi). unfold write_human in He.
  destruct (human_file file_path) as [dir file] eqn:Ef. cbn [human_at] in He.
  destruct (decide (dir = human_slot (human_dir r))) as [->|Hd].
  - rewrite lookup_alter_eq in He. destruct (human_at d !! _) as [old|] eqn:Eo; [|done]. injection He as <-.
    destruct (decide (file = file_for n l)) as [->|Hf]; [right; by exists l|].
    rewrite lookup_insert_ne in Hi by done. left. split; [done|]. by exists r, old, l.
  - rewrite lookup_alter_ne in He by done. left. split; [done|]. by exists r, entries, l.
Qed.

Lemma human_has_mkdir d file_path n : human_has (make_human_dir human_slot d file_path) n → human_has d n.
Proof.
  intros (Hn & r & entries & l & Hr & He & Hi). unfold make_human_dir in He.
  destruct (human_file file_path) as [dir file]. cbn [human_at] in He.
  destruct (decide (dir = human_slot (human_dir r))) as [->|Hd].
  - rewrite lookup_insert_eq in He. injection He as <-.
    destruct (human_at d !! _) as [old|] eqn:Eo; [|by cbn in Hi; rewrite lookup_empty in Hi; destruct Hi].
    split; [done|]. by exists r, old, l.
  - rewrite lookup_insert_ne in He by done. split; [done|]. by exists r, entries, l.
Qed.

Lemma agent_has_write d file_path bytes n :
  agent_has (write_agent agent_slot d file_path bytes) n →
  agent_has d n ∨ ∃ ns, names_of bytes = Ok ns ∧ n ∈ ns.
Proof.
  intros (f & b & ns & Hf & Hb & Hns & Hn). unfold write_agent in Hb. cbn [agent_at] in Hb.
  destruct (decide (agent_slot file_path = agent_slot (path f))) as [E|E].
  - rewrite E, lookup_insert_eq in Hb. injection Hb as <-. right. by exists ns.
  - rewrite lookup_insert_ne in Hb by done. left. by exists f, b, ns.
Qed.

(** A name the agent tier was found not to hold is in none of its files. *)
Lemma not_contained d n : agent_contains (agent_view d) (agent_paths roots) n = Ok false → ¬ agent_has d n.
Proof.
  unfold agent_contains, agent_has. generalize (agent_paths roots) as files. intros files.
  destruct (agent_locate _ _ _) as [[f|]|] eqn:E; try done. intros _ (f & b & ns & Hf & Hb & Hns & Hn).
  induction files as [|g files IH]; [by apply not_elem_of_nil in Hf|]. cbn [agent_locate] in E.
  apply elem_of_cons in Hf as [->|Hf].
  - unfold Edit.agent_view at 1 in E. cbn [is_file] in E. rewrite Hb in E. cbn [is_some is_some_and] in E.
    unfold names_in at 1 in E. cbn [read_bytes Edit.agent_view] in E. rewrite Hb, Hns in E. cbn in E.
    by rewrite bool_decide_eq_true_2 in E.
  - destruct (is_file _ _); [|by apply IH]. destruct (names_in _ _); [|done]. cbn in E.
    case_bool_decide; [done|]. by apply IH.
Qed.

Lemma tiers_apart_write_agent d file_path bytes :
  tiers_apart d → names_apart d bytes → tiers_apart (write_agent agent_slot d file_path bytes).
Proof.
  intros Ht Hn n Ha Hh. change (human_has d n) in Hh.
  apply agent_has_write in Ha as [Ha|(ns & H1 & H2)]; [by eapply Ht|by eapply Hn].
Qed.

Lemma tiers_apart_write_human d p file_path bytes :
  tiers_apart d → path_ok d p file_path → tiers_apart (write_human human_slot d file_path bytes).
Proof.
  intros Ht (Hok & (l & Hl) & Hno) n Ha Hh.
  assert (agent_has d n) as Ha'.
  { unfold write_human in Ha. by destruct (human_file file_path). }
  apply human_has_write in Hh as Hh'. destruct Hh' as [Hh'|[l' Hl']]; [by eapply Ht|].
  destruct Hh as [Hn _]. apply Hno. replace (name p) with n; [done|].
  eapply file_for_inj; [done|done|]. by rewrite <-Hl', <-Hl.
Qed.

(** sops keeps the names of a dotenv file in the clear and adds only its own. *)
Definition encrypt_keeps_names : Prop := ∀ plaintext ns ns' n,
  names_of plaintext = Ok ns → names_of (sops_encrypt plaintext) = Ok ns' → n ∈ ns' → n ∈ ns.

Lemma encrypt_output (f : (string → string) → SopsRun → string → string → result CliError string) o plaintext file_path c :
  f = encrypt ∨ f = encrypt_bytes → f sops_encrypt o plaintext file_path = Ok c → c = sops_encrypt plaintext.
Proof.
  intros [-> | ->]; unfold encrypt, encrypt_bytes, drain_sops_stdout, sops_stdout; destruct o as [[] [] [] [] [] [] ?]; cbn;
    repeat case_match; intros; by simplify_eq.
Qed.

Lemma path_ok_new n flags mkdir file_path :
  new_human_path roots n flags mkdir = Ok file_path → secret_name_ok n → ∃ l, (human_file file_path).2 = file_for n l.
Proof.
  unfold new_human_path. intros H Hn. destruct (select_root _ _) as [r|]; [|done]. cbn in H.
  destruct (negb mkdir); [done|]. injection H as <-. exists (local flags).
  change (if local flags then local_file_name n else file_name n) with (file_for n (local flags)).
  rewrite human_file_join; [done|by apply file_for_slash].
Qed.

(** ** What a process knows stays true *)
Definition knows (d : Disk) (p : Proc) : Prop := data_ok d p ∧ snapshot_ok p.

Lemma knows_finish d p r : knows d (finish p r).
Proof. done. Qed.

Lemma parse_name_ok raw n : parse_name raw = Ok n → secret_name_ok n.
Proof.
  unfold parse_name. destruct (from_utf8 raw) as [t|]; [|done].
  destruct (secret_name_parse t) as [m|] eqn:E; [|done]. intros [= ->].
  pose proof (secret_name_parse_Ok _ _ E) as [-> _]. exact E.
Qed.

Lemma load_knows d p : stage p = Loading → knows d (load_step roots human_slot d p).
Proof.
  intros Es. unfold load_step. destruct (load_human _ _) as [human|] eqn:El; [|apply knows_finish].
  destruct (door p) as [src b|raw flags piped] eqn:Ed.
  - destruct (select_root _ _); [|apply knows_finish]. by split.
  - destruct (parse_name raw) as [n|] eqn:En; [|apply knows_finish]. apply parse_name_ok in En. split; [done|].
    unfold snapshot_ok. simpl. split; [done|]. intros l Hl. by eapply loaded_path.
Qed.

Lemma lock_knows d others p rest ok p' :
  stage p = Locking rest → snapshot_ok p → lock_step root_id others p rest ok = Some p' → knows d p'.
Proof.
  unfold snapshot_ok. intros Es Hs Hl. rewrite Es in Hs.
  assert (∀ h s, s = Locked ∨ (∃ rest, s = Locking rest) →
    knows d {| door := door p; names := names p; name := name p; target := target p; held := h; stage := s |}) as Hk.
  { intros h s [-> | [r ->]]; by split. }
  unfold lock_step in Hl. destruct rest as [|root rest]; [injection Hl as <-; apply Hk; auto|].
  destruct (root_id _); [|injection Hl as <-; apply knows_finish].
  case_bool_decide; [injection Hl as <-; apply Hk; eauto|].
  destruct (negb ok); [injection Hl as <-; apply knows_finish|].
  destruct (negb (flock_free _ _ _)); [done|]. injection Hl as <-. apply Hk; eauto.
Qed.

Lemma locked_knows d p mkdir d' p' :
  stage p = Locked → snapshot_ok p → locked_step roots agent_slot human_slot d p mkdir = (d', p') →
  knows d' p' ∧ (tiers_apart d → tiers_apart d').
Proof.
  unfold locked_step, snapshot_ok. intros Es Hs H. rewrite Es in Hs.
  destruct (door p) as [src b|raw flags piped].
  { destruct (agent_at d !! _) eqn:E; injection H as <- <-; by split. }
  destruct Hs as [Hn Hs].
  destruct (agent_contains _ _ _) as [[]|] eqn:Ec; [by injection H as <- <-| |by injection H as <- <-].
  apply not_contained in Ec. destruct (names p !! name p) as [l|] eqn:El.
  - destruct (existing_human_path _ _ _ _) as [file_path|] eqn:Ep; [|by injection H as <- <-].
    injection H as <- <-. split; [|done]. destruct (Hs l eq_refl) as (r & b & Hr & Hl).
    assert (file_path = h_path l) as ->.
    { unfold existing_human_path in Ep. destruct (source flags) as [s|].
      - destruct (select_named_root _ _); [|done]. cbn in Ep. by repeat case_match; simplify_eq.
      - by repeat case_match; simplify_eq. }
    assert (path_ok d p (h_path l)) as Hok.
    { split; [done|]. split; [|done]. exists b. rewrite Hl, human_file_join; [done|by apply file_for_slash]. }
    by destruct piped.
  - destruct (new_human_path _ _ _ _) as [file_path|] eqn:Ep; [|by injection H as <- <-].
    injection H as <- <-. apply path_ok_new in Ep; [|done].
    assert (∀ n, agent_has (make_human_dir human_slot d file_path) n → agent_has d n) as Ha.
    { intros n. unfold make_human_dir. by destruct (human_file file_path). }
    split; [|intros Ht n H1 H2%human_has_mkdir; by eapply Ht; [apply Ha|]].
    assert (path_ok (make_human_dir human_slot d file_path) p file_path) as Hok.
    { split; [done|]. split; [done|]. by intros ?%Ha. }
    by destruct piped.
Qed.

Lemma staged_knows d p before o :
  stage p = AgentEditing before → data_ok d p → knows d (staged_step roots human_slot d p before o).
Proof.
  intros Es Hd. unfold data_ok in Hd. rewrite Es in Hd. unfold staged_step.
  destruct o as [| | |file_path [staged|]]; try apply knows_finish.
  destruct (names_of staged) as [ns|] eqn:En; [|apply knows_finish]. cbn.
  destruct (ensure_no_human_clash _ _ _ _) as [[]|] eqn:Ec; [|apply knows_finish].
  split; [|done]. split; [done|]. intros ns' n Hns Hn. assert (ns' = ns) as -> by congruence.
  by eapply clash_apart.
Qed.

Lemma plaintext_knows d p kind file_path e p' :
  stage p = Creating kind file_path → data_ok d p → plaintext_step roots human_slot d p kind file_path e = Some p' → knows d p'.
Proof.
  intros Es Hd H. unfold data_ok in Hd. rewrite Es in Hd. unfold plaintext_step in H.
  destruct kind, e as [| |s|[h|] stdin| | | |]; try done; injection H as <-; try apply knows_finish.
  - destruct s as [plaintext|]; [|apply knows_finish]. cbn.
    destruct (names_of plaintext) as [ns|] eqn:En; [|apply knows_finish]. cbn.
    destruct (ensure_no_human_clash _ _ _ _) as [[]|] eqn:Ec; [|apply knows_finish]. cbn.
    split; [|done]. exists ns. split; [done|]. by eapply clash_apart.
  - destruct s as [plaintext|]; [|apply knows_finish]. cbn.
    by destruct (validate_human _ _); [|apply knows_finish].
  - by destruct (read_piped_assignment _ _); [|apply knows_finish].
Qed.

Lemma install_apart d p kind file_path c ok announced d' p' :
  stage p = Installing kind file_path c → data_ok d p → tiers_apart d →
  install_step agent_slot human_slot is_link d p kind file_path c ok announced = (d', p') →
  knows d' p' ∧ tiers_apart d'.
Proof.
  intros Es Hd Ht H. unfold data_ok in Hd. rewrite Es in Hd. unfold install_step in H.
  destruct (negb ok); [by injection H as <- <-|]. destruct kind.
  - destruct (_ || _); injection H as <- <-; [done|]. split; [apply knows_finish|]. by apply tiers_apart_write_agent.
  - destruct (human_exists _ _ _); injection H as <- <-; [done|]. split; [apply knows_finish|].
    by eapply tiers_apart_write_human.
  - injection H as <- <-. split; [by destruct announced|]. by eapply tiers_apart_write_human.
Qed.

Lemma pstep_knows others d p e d' p' :
  encrypt_keeps_names → knows d p → tiers_apart d → pstep others d p e = Some (d', p') →
  knows d' p' ∧ tiers_apart d'.
Proof.
  intros Hsops [Hd Hk] Ht Hs. unfold Edit.pstep in Hs.
  destruct (stage p) as [|rest| |before|before staged|before staged|kind fp|kind fp pt|kind fp ct|fp|] eqn:Es; [..|done];
    destruct e; try done; try (by injection Hs as <- <-);
    try (destruct (plaintext_step _ _ _ _ _ _) eqn:E; [|done]; injection Hs as <- <-; by split; [eapply plaintext_knows|]).
  - injection Hs as <- <-. split; [by apply load_knows|done].
  - destruct (lock_step _ _ _ _ _) eqn:E; [|done]. injection Hs as <- <-. split; [by eapply lock_knows|done].
  - injection Hs as Hs. apply locked_knows in Hs as [? ?]; auto.
  - injection Hs as <- <-. split; [by apply staged_knows|done].
  - injection Hs as <- <-. unfold data_ok in Hd. rewrite Es in Hd. destruct Hd as [Hb Hn]. split; [|done].
    rewrite Hb. by case_bool_decide.
  - injection Hs as Hs. unfold data_ok in Hd. rewrite Es in Hd. destruct Hd as [Hb Hn].
    destruct ok; injection Hs as <- <-; [|done]. split; [apply knows_finish|]. by apply tiers_apart_write_agent.
  - injection Hs as <- <-. split; [|done]. unfold data_ok in Hd. rewrite Es in Hd.
    destruct (_ sops_encrypt o pt fp) as [c|] eqn:E; [|apply knows_finish]. split; [|done].
    apply encrypt_output in E; [subst c|destruct kind; auto].
    destruct kind; try done. destruct Hd as (ns & Hns & Hno). intros ns' n Hns' Hn. by eapply Hno, Hsops.
  - injection Hs as Hs. by eapply install_apart.
  - unfold data_ok in Hd. rewrite Es in Hd. destruct (negb started); [by injection Hs as <- <-|].
    injection Hs as <- <-. split; [by destruct ok|]. destruct contents; [|done]. by eapply tiers_apart_write_human.
Qed.

(** ** All processes together *)
Record winv (w : World) : Prop := {
  w_lock : ∀ i p, procs w !! i = Some p → lock_ok p;
  w_excl : ∀ i j p q id, i ≠ j → procs w !! i = Some p → procs w !! j = Some q → id ∈ held p → id ∉ held q;
  w_knows : ∀ i p, procs w !! i = Some p → knows (disk w) p;
  w_apart : tiers_apart (disk w);
}.

Lemma elem_of_others w i id :
  id ∈ others_held w i ↔ ∃ j q, j ≠ i ∧ procs w !! j = Some q ∧ id ∈ held q.
Proof.
  unfold others_held. rewrite list_elem_of_bind. split.
  - intros (q & Hq & Hin). apply list_elem_of_lookup in Hin as [k Hk].
    destruct (decide (k < i)%nat).
    + rewrite list_lookup_delete_lt in Hk by done. exists k, q. split_and!; [lia|done|done].
    + rewrite list_lookup_delete_ge in Hk by lia. exists (S k), q. split_and!; [lia|done|done].
  - intros (j & q & Hj & Hq & Hin). exists q. split; [done|]. apply list_elem_of_lookup.
    destruct (decide (j < i)%nat).
    + exists j. by rewrite list_lookup_delete_lt.
    + exists (pred j). rewrite list_lookup_delete_ge by lia. by replace (S (pred j)) with j by lia.
Qed.

(** Whoever has a lock has the first root's. *)
Lemma first_locked r rs p :
  roots = r :: rs → lock_ok p → held p ≠ [] ∨ critical (stage p) = true → locked_root p r.
Proof.
  intros Hr Hl Hh. unfold lock_ok in Hl.
  destruct (stage p) as [|rest| | | | | | | | |]; try (rewrite Hr in Hl; by inversion Hl); try (by destruct Hh).
  destruct Hh as [Hh|]; [|done]. destruct Hl as (past & Hp & Hf & Hn). destruct past as [|r' past]; [by rewrite Hn in Hh|].
  rewrite Hr in Hp. injection Hp as -> _. by inversion Hf.
Qed.

Lemma one_holder w i j p q :
  roots ≠ [] → winv w → procs w !! i = Some p → procs w !! j = Some q →
  held p ≠ [] ∨ critical (stage p) = true → held q ≠ [] ∨ critical (stage q) = true → i = j.
Proof.
  intros Hr Hw Hp Hq H1 H2. destruct (decide (i = j)) as [|Hne]; [done|]. exfalso.
  assert (∃ r rs, roots = r :: rs) as (r & rs & Er) by (destruct roots; [done|eauto]).
  destruct (first_locked r rs p Er (w_lock w Hw i p Hp) H1) as (id & Hid & Hin).
  destruct (first_locked r rs q Er (w_lock w Hw j q Hq) H2) as (id' & Hid' & Hin').
  assert (id' = id) as -> by congruence. by eapply (w_excl w Hw i j p q id).
Qed.

Lemma knows_noncritical d p : critical (stage p) = false → snapshot_ok p → knows d p.
Proof. intros Hc Hs. split; [|done]. unfold data_ok. by destruct (stage p). Qed.

Lemma winv_start d doors : tiers_apart d → winv (start d doors).
Proof.
  intros Ht. assert (∀ i p, procs (start d doors) !! i = Some p → stage p = Loading ∧ held p = []) as Hp.
  { intros i p. unfold start. cbn [procs]. rewrite list_lookup_fmap. by intros (x & _ & ->)%fmap_Some. }
  split; [| | |done].
  - intros i p [Hs Hh]%Hp. unfold lock_ok. by rewrite Hs.
  - intros i j p q id _ [_ Hh]%Hp _ Hid. rewrite Hh in Hid. by apply not_elem_of_nil in Hid.
  - intros i p [Hs Hh]%Hp. split; [unfold data_ok|unfold snapshot_ok]; by rewrite Hs.
Qed.

Lemma winv_step w i e w' :
  roots ≠ [] → encrypt_keeps_names → winv w → step w i e = Some w' → winv w'.
Proof.
  intros Hr Hsops Hw Hs. unfold Edit.step in Hs. destruct (procs w !! i) as [p|] eqn:Ep; [|done]. cbn in Hs.
  destruct (pstep _ _ p e) as [[d' p']|] eqn:Es; [|done]. injection Hs as <-.
  pose proof (pstep_lock _ _ _ _ _ _ (w_lock w Hw i p Ep) Es) as (Hl & Hh & Hd).
  pose proof (pstep_knows _ _ _ _ _ _ Hsops (w_knows w Hw i p Ep) (w_apart w Hw) Es) as (Hk & Ht).
  assert (∀ j q, j ≠ i → procs w !! j = Some q → ∀ id, id ∈ held p' → id ∉ held q) as Hex.
  { intros j q Hj Hq id Hid Hid'. destruct Hh as [Hh|[Hh|(new & Hh & Hno)]]; rewrite Hh in Hid.
    - by eapply (w_excl w Hw i j p q id).
    - by apply not_elem_of_nil in Hid.
    - apply elem_of_app in Hid as [Hid| ->%list_elem_of_singleton]; [by eapply (w_excl w Hw i j p q id)|].
      apply Hno, elem_of_others. eauto. }
  assert (∀ j q, <[i:=p']> (procs w) !! j = Some q → (j = i ∧ q = p') ∨ (j ≠ i ∧ procs w !! j = Some q)) as Hlook.
  { intros j q. destruct (decide (j = i)) as [->|Hj]; [|rewrite list_lookup_insert_ne by done; auto].
    rewrite list_lookup_insert_eq by (by eapply lookup_lt_Some). intros [= <-]. auto. }
  split; cbn [procs disk]; [| | |done].
  - intros j q [[-> ->]|[Hj Hq]]%Hlook; [done|by eapply w_lock].
  - intros j k q1 q2 id Hne [[-> ->]|[Hj Hq1]]%Hlook [[-> ->]|[Hk' Hq2]]%Hlook Hid Hid'.
    + done.
    + by eapply Hex.
    + by eapply Hex.
    + by eapply (w_excl w Hw j k q1 q2 id).
  - intros j q [[-> ->]|[Hj Hq]]%Hlook; [done|]. pose proof (w_knows w Hw j q Hq) as Hkq.
    destruct Hd as [->|Hc]; [done|]. apply knows_noncritical; [|apply Hkq].
    destruct (critical (stage q)) eqn:Hcq; [|done]. exfalso. apply Hj. by eapply (one_holder w j i q p); eauto.
Qed.

Lemma winv_run w events w' :
  roots ≠ [] → encrypt_keeps_names → winv w → run w events = Some w' → winv w'.
Proof.
  intros Hr Hsops. revert w. induction events as [|[i e] events IH]; intros w Hw; simpl; [by intros [= <-]|].
  destruct (step w i e) as [w1|] eqn:E; [|done]. cbn. apply IH. by eapply winv_step.
Qed.

(** C22: a key stays in one tier.  However any number of edits of either tier
    interleave, and wherever they are interrupted, a disk on which no key is in
    both tiers keeps that property: each door checks the other tier and
    publishes under one lock that no two commands hold at once, and the bytes
    an agent edit replaces are the very bytes it was made from, so no edit is
    lost.  That sops leaves the names of a dotenv file in the clear is
    assumed. *)
Theorem edits_keep_tiers_apart d doors events w :
  roots ≠ [] → encrypt_keeps_names → tiers_apart d → run (start d doors) events = Some w →
  tiers_apart (disk w) ∧
  (∀ i j p q, procs w !! i = Some p → procs w !! j = Some q →
     critical (stage p) = true → critical (stage q) = true → i = j) ∧
  (∀ i p before staged, procs w !! i = Some p → stage p = AgentReplacing before staged →
     agent_at (disk w) !! agent_slot (target p) = Some before).
Proof.
  intros Hr Hsops Ht Hrun. assert (winv w) as Hw by eauto using winv_run, winv_start. split_and!.
  - apply Hw.
  - intros i j p q Hp Hq Hcp Hcq. eapply (one_holder w i j p q); eauto.
  - intros i p before staged Hp Hs. pose proof (w_knows w Hw i p Hp) as [Hd _]. unfold data_ok in Hd.
    rewrite Hs in Hd. apply Hd.
Qed.

(** ** Every command ends *)
Definition rank (s : Stage) : nat :=
  match s with
  | Loading => 6 + length roots
  | Locking rest => 5 + length rest
  | Locked => 4
  | AgentEditing _ | Creating _ _ => 3
  | AgentVerifying _ _ | Encrypting _ _ _ => 2
  | AgentReplacing _ _ | Installing _ _ _ | InPlace _ => 1
  | Finished _ => 0
  end.

Lemma pstep_rank others d p e d' p' :
  pstep others d p e = Some (d', p') → (rank (stage p') < rank (stage p))%nat.
Proof.
  intros Hs. unfold Edit.pstep in Hs. destruct (stage p) as [|rest| | | | | | | | |] eqn:Es; try done; destruct e; try done;
    try (destruct (plaintext_step _ _ _ _ _ _) as [q|] eqn:E; [|done]; unfold plaintext_step in E);
    try (destruct (lock_step _ _ _ _ _) as [q|] eqn:E; [|done]; unfold lock_step in E);
    injection Hs as Hs; unfold load_step, locked_step, staged_step, install_step, fail_with in *;
    repeat case_match; simplify_eq; simpl; lia.
Qed.

(** The steps a run gives to one process. *)
Definition steps_of (i : nat) (events : list (nat * Ev)) : nat := length (filter (λ x, x.1 = i) events).

Lemma run_steps w events w' i p' :
  run w events = Some w' → procs w' !! i = Some p' →
  ∃ p, procs w !! i = Some p ∧ (steps_of i events + rank (stage p') ≤ rank (stage p))%nat.
Proof.
  revert w. induction events as [|[j e] events IH]; intros w; cbn [Edit.run]; [intros [= <-] Hp; by exists p'|].
  destruct (step w j e) as [w1|] eqn:E; [|done]. cbn [mbind option_bind]. intros Hrun Hp'.
  destruct (IH w1 Hrun Hp') as (p1 & Hp1 & Hle). unfold Edit.step in E.
  destruct (procs w !! j) as [q|] eqn:Eq; [|done]. cbn in E.
  destruct (pstep _ _ q e) as [[d' q']|] eqn:Es; [|done]. injection E as <-. cbn [procs] in Hp1.
  unfold steps_of in *. rewrite filter_cons. cbn [fst]. case_decide as Hj.
  - subst j. rewrite list_lookup_insert_eq in Hp1 by (by eapply lookup_lt_Some). injection Hp1 as <-.
    exists q. split; [done|]. apply pstep_rank in Es. cbn [length]. lia.
  - rewrite list_lookup_insert_ne in Hp1 by done. by exists p1.
Qed.

Lemma run_procs w events w' : run w events = Some w' → length (procs w') = length (procs w).
Proof.
  revert w. induction events as [|[j e] events IH]; intros w; simpl; [by intros [= <-]|].
  destruct (step w j e) as [w1|] eqn:E; [|done]. cbn. intros ->%IH. unfold Edit.step in E.
  destruct (procs w !! j) as [q|]; [|done]. cbn in E. destruct (pstep _ _ q e) as [[d' q']|]; [|done].
  injection E as <-. cbn [procs]. apply length_insert.
Qed.

Lemma steps_bounded d doors events w i p :
  run (start d doors) events = Some w → procs w !! i = Some p →
  (steps_of i events + rank (stage p) ≤ 6 + length roots)%nat.
Proof.
  intros Hrun Hp. destruct (run_steps _ _ _ _ _ Hrun Hp) as (p0 & Hp0 & Hle).
  unfold start in Hp0. cbn [procs] in Hp0. rewrite list_lookup_fmap in Hp0.
  apply fmap_Some in Hp0 as (x & _ & ->). cbn in Hle. lia.
Qed.

(** A process nobody keeps waiting has a step other than dying. *)
Lemma pstep_enabled others d p :
  (∀ r, stage p ≠ Finished r) → (∀ id, id ∉ others) →
  ∃ e d' p', e ≠ Die ∧ pstep others d p e = Some (d', p').
Proof.
  intros Hf Ho. unfold Edit.pstep.
  destruct (stage p) as [|rest| | | | |kind ?|kind ? ?| | |r] eqn:Es; [| | | | | | | | | |by destruct (Hf r)].
  - by eexists (Go true), _, _.
  - assert (is_Some (lock_step root_id others p rest true)) as [q Hq].
    { unfold lock_step. destruct rest as [|r rest]; [done|]. destruct (root_id _) as [id|]; [|done].
      case_bool_decide; [done|]. unfold flock_free. cbn [negb].
      rewrite bool_decide_eq_false_2 by apply Ho. rewrite bool_decide_eq_false_2 by done. done. }
    exists (Go true). rewrite Hq. by eexists _, _.
  - exists (Go true). destruct (locked_step _ _ _ _ _ _) eqn:E. by eexists _, _.
  - by eexists (EditedStage NoStage), _, _.
  - by eexists (Go true), _, _.
  - by eexists (Persist false false), _, _.
  - destruct kind; [eexists (Session (Err EditTemp))|eexists (Session (Err EditTemp))|eexists (PipeRead None None)];
      by eexists _, _.
  - eexists (Encrypted {| temp_ok := true; input_ok := true; output_ok := true; spawned := true; exited_ok := true;
                          stderr_ok := true; partial := "" |}). by eexists _, _.
  - eexists (Persist false false). destruct (install_step _ _ _ _ _ _ _ _ _ _) eqn:E. by eexists _, _.
  - by eexists (EditedInPlace false false None), _, _.
Qed.


End facts.

(** * What is piped in is what is stored *)
Lemma assignment_parses n v :
  secret_name_ok n → contains_byte newline v = false → contains_byte carriage_return v = false →
  parse_single_assignment (assignment n v) n = if contains_byte nul v then Err Internal else Ok v.
Proof.
  intros Hn Hnl Hcr.
  assert (contains_byte newline n = false) as Hn1.
  { eapply all_bytes_not_contains; [|by apply secret_name_ok_bytes]. done. }
  assert (contains_byte carriage_return n = false) as Hn2.
  { eapply all_bytes_not_contains; [|by apply secret_name_ok_bytes]. done. }
  assert (contains_byte "="%char n = false) as Hn3.
  { eapply all_bytes_not_contains; [|by apply secret_name_ok_bytes]. done. }
  unfold parse_single_assignment, assignment. rewrite !append_assoc, split_app_sep, split_clean.
  2: { by rewrite !contains_byte_append, Hn1, Hnl. }
  cbn [app split]. cbn [assignment_lines]. fold (strip_cr ((n +:+ "=") +:+ v)). rewrite strip_cr_clean.
  2: { by rewrite !contains_byte_append, Hn2, Hcr. }
  rewrite <-append_assoc, name_not_comment by done. change ("=" +:+ v) with (String "="%char v).
  rewrite split_at_byte_append by done. cbn. rewrite bool_decide_eq_true_2 by done. cbn.
  by destruct (contains_byte nul v).
Qed.

(** The value that is read back is the one that was piped in.  Input is
    accepted exactly when what is left of it without its one line end is
    neither empty nor has a line end or a NUL in it; the assignment that is
    then encrypted reads back, with the daemon's own parser, as that value. *)
Lemma piped_value_stored n stdin a :
  secret_name_ok n →
  (read_piped_assignment n (Some stdin) = Ok a ↔
     a = assignment n (chomp stdin) ∧ chomp stdin ≠ "" ∧ contains_byte newline (chomp stdin) = false ∧
     contains_byte carriage_return (chomp stdin) = false ∧ contains_byte nul (chomp stdin) = false) ∧
  (read_piped_assignment n (Some stdin) = Ok a → parse_single_assignment a n = Ok (chomp stdin)).
Proof.
  intros Hn. unfold read_piped_assignment.
  destruct (is_empty (chomp stdin)) eqn:E0; [destruct (chomp stdin); [naive_solver|done]|].
  assert (chomp stdin ≠ "") as Hne by (by intros H; rewrite H in E0).
  destruct (contains_byte newline (chomp stdin)) eqn:E1; [naive_solver|].
  destruct (contains_byte carriage_return (chomp stdin)) eqn:E2; [naive_solver|]. cbn [orb].
  rewrite assignment_parses by done. destruct (contains_byte nul (chomp stdin)) eqn:E3; [naive_solver|].
  split; [naive_solver|]. intros [= <-]. by rewrite assignment_parses, E3.
Qed.

(** * Instances *)
Definition demo_roots : list SourceRoot :=
  [{| root_name := "a"; root_path := "/a" |}; {| root_name := "b"; root_path := "/b" |}].

Definition demo_id (p : string) : option (Z * Z) :=
  if bool_decide (p = "/a") then Some (1, 1)%Z else if bool_decide (p = "/b") then Some (1, 2)%Z else None.

Definition demo_agent_slot (p : string) : Z := if bool_decide (p = "/a/secrets.env") then 1 else 2.
Definition demo_human_slot (p : string) : Z := if bool_decide (p = "/a/secrets.human.d") then 1 else 2.

Definition demo_disk : Disk :=
  {| agent_at := {[ 1%Z := "A=x" +:+ String newline "" ]}; human_at := {[ 1%Z := {[ "K.env" := "K=x" ]}; 2%Z := ∅ ]} |}.

Definition demo_run : World → list (nat * Ev) → option World :=
  run demo_roots (λ s, s) demo_id demo_agent_slot demo_human_slot (λ _, false).

Definition sops_ok : SopsRun := {|
  temp_ok := true; input_ok := true; output_ok := true; spawned := true; exited_ok := true; stderr_ok := true; partial := ""
|}.

Definition pipe_to (key src : string) : Door := HumanDoor key {| source := Some src; local := false |} true.

Definition piped_write (i : nat) : list (nat * Ev) :=
  (i, Go true) :: (i, Go true) :: (i, Go true) :: (i, Go true) :: (i, PipeRead None (Some "v")) ::
  (i, Encrypted sops_ok) :: [(i, Persist true true)].

(** Two commands that started before either took the lock give one key two
    files: each goes by the names it read at its start.  Both succeed, and
    from then on no command can read the human tier. *)
Lemma stale_names_duplicate_key :
  let w := demo_run (start demo_disk [pipe_to "N" "a"; pipe_to "N" "b"])
             ((0, Go true) :: (1, Go true) :: piped_write 0 ++ piped_write 1)%list in
  (λ w, stage <$> procs w) <$> w = Some [Finished (Some (Ok ())); Finished (Some (Ok ()))] ∧
  (λ w, load_human (human_listing demo_human_slot (disk w)) demo_roots) <$> w = Some (Err (DuplicateHumanKey "N" "a" "b")).
Proof. by vm_compute. Qed.

(** Had the second started after the first was done, it would be refused. *)
Lemma fresh_names_refuse_duplicate :
  let w := demo_run (start demo_disk [pipe_to "N" "a"; pipe_to "N" "b"])
             ((0, Go true) :: piped_write 0 ++ [(1, Go true); (1, Go true); (1, Go true); (1, Go true); (1, Go true)])%list in
  (λ w, stage <$> procs w) <$> w =
    Some [Finished (Some (Ok ())); Finished (Some (Err (EditConflict "N" "a")))].
Proof. by vm_compute. Qed.

Lemma demo_apart : tiers_apart demo_roots demo_agent_slot demo_human_slot demo_disk.
Proof.
  assert (names_of ("A=x" +:+ String newline "") = Ok ["A"]) as En by (by vm_compute).
  intros n (f & bytes & ns & _ & Hb & Hns & Hn) (_ & r & entries & l & _ & He & Hi).
  unfold demo_disk in Hb, He. cbn [agent_at human_at] in Hb, He.
  apply lookup_singleton_Some in Hb as [_ <-]. assert (ns = ["A"]) as -> by congruence.
  apply list_elem_of_singleton in Hn as ->. unfold demo_human_slot in He.
  case_bool_decide; vm_compute in He; injection He as <-; by destruct l; vm_compute in Hi; destruct Hi.
Qed.

Lemma demo_keeps : encrypt_keeps_names (λ s, s).
Proof. intros plaintext ns ns' n H1 H2. congruence. Qed.

Definition demo_doors : list Door := [AgentDoor (Some "a") false; pipe_to "N" "b"].

(** An agent edit that adds a name, with a piped write let in between as far
    as the lock allows. *)
Definition demo_events : list (nat * Ev) :=
  (0, Go true) :: (1, Go true) :: (0, Go true) :: (0, Go true) :: (0, Go true) :: (0, Go true) ::
  (0, EditedStage (Staged "/a/.s.env" (Some ("A=x" +:+ String newline "" +:+ "B=y")))) ::
  (0, Go true) :: (0, Persist true true) :: piped_write 1.

Lemma edits_keep_tiers_apart_witness :
  ∃ w, demo_run (start demo_disk demo_doors) demo_events = Some w ∧
    stage <$> procs w = [Finished (Some (Ok ())); Finished (Some (Ok ()))] ∧
    tiers_apart demo_roots demo_agent_slot demo_human_slot (disk w).
Proof.
  destruct (demo_run (start demo_disk demo_doors) demo_events) as [w|] eqn:E; [|by vm_compute in E].
  exists w. split; [done|]. split; [vm_compute in E; by injection E as <-|].
  destruct (edits_keep_tiers_apart demo_roots (λ s, s) demo_id demo_agent_slot demo_human_slot (λ _, false)
              demo_disk demo_doors demo_events w) as [H _];
    [done|apply demo_keeps|apply demo_apart|exact E|exact H].
Defined.

(** Two roots that are one directory, and an edit that has locked the first. *)
Definition alias_id (p : string) : option (Z * Z) := Some (1, 1)%Z.
Definition alias_disk : Disk :=
  {| agent_at := {[ 1%Z := "A=x" +:+ String newline "" ]}; human_at := {[ 1%Z := ∅ ]} |}.

Definition alias_events : list (nat * Ev) := [(0, Go true); (0, Go true)].

Lemma alias_apart : tiers_apart demo_roots (λ _, 1%Z) (λ _, 1%Z) alias_disk.
Proof.
  intros n _ (_ & r & entries & l & _ & He & Hi). unfold alias_disk in He. cbn [human_at] in He.
  apply lookup_singleton_Some in He as [_ <-]. by destruct Hi.
Qed.


Lemma piped_value_stored_witness : parse_single_assignment ("K=v 1" +:+ String newline "") "K" = Ok "v 1".
Proof.
  destruct (piped_value_stored "K" ("v 1" +:+ String newline "") ("K=v 1" +:+ String newline "")) as [_ H]; [done|].
  apply H. by vm_compute.
Defined.
