(* ===== verification/Commands.v ===== *)
(** The [secrets] command ([crates/secrets/src/client/cli.rs],
    [cli/context.rs], [cli/control.rs], [sources.rs], [status.rs], the calls of
    [human.rs] and [proto/src/client.rs], [error/display.rs] and the messages of
    [proto/src/response.rs] and [config.rs]).

    A command runs in a small monad of its own: what it has written and
    executed so far, and the error that ends it.  Arguments are those clap
    parsed. *)

From stdpp Require Import prelude strings list gmap sorting.
From Stdlib Require Import ZArith Lia Ascii.
From S2P Require Import Prelude Text Paths Wire Request Secret Store Grants Setup Edit Tiers.

Local Open Scope string_scope.

(** * Effects *)
Inductive Effect : Type :=
| Stderr (bytes : string)
| Stdout (bytes : string)
| Exec (program : string) (args : list string) (env : list (string * string))
| Edits (roots : list SourceRoot) (d : Door).

(** [ok i] answers the [i]th effect. *)
Definition M (A : Type) : Type := (nat → bool) → list Effect → result CliError A * list Effect.

#[global] Instance M_ret : MRet M := λ A a ok t, (Ok a, t).
#[global] Instance M_bind : MBind M := λ A B f m ok t,
  match m ok t with
  | (Ok a, t') => f a ok t'
  | (Err e, t') => (Err e, t')
  end.

Definition lift {A} (r : result CliError A) : M A := λ ok t, (r, t).

Definition perform (e : Effect) (error : CliError) : M () := λ ok t,
  if ok (length t) then (Ok (), (t ++ [e])%list) else (Err error, t).

Definition write_stdout (bytes : string) : M () := perform (Stdout bytes) StdoutFailed.
Definition write_stderr (bytes : string) : M () := perform (Stderr bytes) SourceNotice.

(** [exec] returns only to fail. *)
Definition exec (program : string) (args : list string) (env : list (string * string)) : M () :=
  perform (Exec program args env) ExecFailed.

Fixpoint for_each {A} (f : A → M ()) (l : list A) : M () :=
  match l with [] => mret () | x :: rest => _ ← f x; for_each f rest end.

Definition writeln (text : string) : string := text +:+ String newline "".

(** * The broker's client *)

(** What one connection answers a request frame. *)
Notation Net := (string → result ClientError BrokerResponse).

(** [BrokerClient::call]: the handshake, then the request, on a connection of
    its own each. *)
Definition hello (net : Net) : result ClientError () := (λ _, ()) <$> hello_check (net hello_request).

Definition call (net : Net) (request : string) : result ClientError BrokerResponse :=
  _ ← hello net; net request.

Definition human_get (net : Net) (token tty : option string) (key : string) (ttl : option Z) : result ClientError string :=
  r ← call net (scoped_frame "GET" key token tty ttl);
  match r with RespBytes bytes => Ok bytes | _ => Err InvalidResponse end.

Definition human_request_grant (net : Net) (token tty : option string) (key : string) (ttl : option Z) :
    result ClientError (option Z) :=
  r ← call net (scoped_frame "REQUEST" key token tty ttl);
  match r with
  | RespOk => Ok None
  | RespFields fields => Ok (parse_ttl_field fields)
  | RespBytes _ => Err InvalidResponse
  end.

(** * The machine a command runs on

    [editing] is how the process that a door starts over the roots ends on this
    machine; its steps are those of [Edit.pstep], from [Loading] on. *)
Record Machine : Type := {
  config_file : result ConfigError string;
  sources : result ConfigError (list SourceRoot);
  store : AgentDisk;
  listing : string → DirListing;
  net : Net;
  socket : string;
  token_file : option (result ClientError string);
  terminal : option string;
  stdin_terminal : bool;
  editing : list SourceRoot → Door → result CliError ();
}.

(** [HumanClient::from_environment]. *)
Definition human_client (m : Machine) : result ClientError Client :=
  token ← match token_file m with None => Ok None | Some read => Some <$> read end;
  Ok {| client_path := socket m;
        client_get := human_get (net m) token (terminal m);
        client_request := human_request_grant (net m) token (terminal m) |}.

(** [caller_tty]: standard input's terminal, when it is one below [/dev]. *)
Definition caller_tty (is_terminal : bool) (link : option string) : option string :=
  if negb is_terminal then None else
  path ← link; text ← from_utf8 path; if starts_with text "/dev/" then Some text else None.

Section commands.
Context (display : string → string) (m : Machine).

(** [Context::from_environment]. *)
Definition from_environment : result CliError Context :=
  roots ← map_err ConfigFailed (sources m);
  human ← load_human (listing m) roots;
  Ok {| files := roots ≫= of_root; disk := store m; human := human; roots := roots |}.

(** ** Status and notices *)
Definition write_status (name : string) (p : Provenance) : M () := write_stdout (writeln (status_json p name)).

Definition notice (injected : list (string * Provenance)) : string :=
  writeln ("secrets: " +:+ concat_sep "; " ((λ x, x.1 +:+ " from " +:+ describe display x.2) <$> injected)).

Definition announce (injected : list (string * Provenance)) : M () := write_stderr (notice injected).

(** ** get, list, inject *)
Inductive GetOutput : Type := ORequest | OStatus | OValue.

Definition broker_call (request : string) : result CliError BrokerResponse :=
  map_err (λ e, from_client e (socket m)) (call (net m) request).

Definition get (ctx : Context) (raw_name : string) (output : GetOutput) (ttl : option Z) : M () :=
  name ← lift (parse_name raw_name);
  match output with
  | ORequest => p ← lift (request_grant display ctx (socket m) (human_client m) name ttl); write_status name p
  | OStatus =>
      p ← lift (status display ctx (socket m) (caller_scope (is_some (token_file m)) (terminal m)) (broker_call "GRANTS") name);
      write_status name p
  | OValue =>
      '(v, p) ← lift (value display ctx (socket m) (human_client m) name ttl);
      _ ← announce [(name, p)];
      _ ← write_stdout v;
      write_stdout (String newline "")
  end.

(** A [BTreeMap]'s entries in the order of their keys. *)
Definition items {A} (values : gmap string A) : list (string * A) :=
  omap (λ k, (λ v, (k, v)) <$> values !! k) (merge_sort name_le (elements (dom values))).

Definition agent_line (x : string * (string * AgentFile)) : string :=
  writeln (x.1 +:+ "  (agent tier: " +:+ label x.2.2 +:+ ")").

Definition human_line (agent : gmap string (string * AgentFile)) (x : string * HumanLocation) : string :=
  writeln (x.1 +:+ "  (human tier: " +:+ h_label x.2 +:+
    (if is_some (agent !! x.1) then "; ALSO agent tier -- ambiguous, reads refuse" else "") +:+ ")").

Definition list_names (ctx : Context) : M () :=
  agent ← lift (resolve_all (disk ctx) (files ctx));
  _ ← for_each (λ x, write_stdout (agent_line x)) (items agent);
  for_each (λ x, write_stdout (human_line agent x)) (items (human ctx)).

(** The loop over the keys: each one's name, value and provenance. *)
Fixpoint resolve_keys (ctx : Context) (keys : list string) : result CliError (list (string * string * Provenance)) :=
  match keys with
  | [] => Ok []
  | raw :: rest =>
      name ← parse_name raw;
      '(v, p) ← value display ctx (socket m) (human_client m) name None;
      others ← resolve_keys ctx rest;
      Ok ((name, v, p) :: others)
  end.

Definition inject (ctx : Context) (keys program : list string) : M () :=
  match program with
  | [] => lift (Err Usage)
  | command_name :: command_arguments =>
      answered ← lift (resolve_keys ctx keys);
      _ ← announce ((λ x, (x.1.1, x.2)) <$> answered);
      exec command_name command_arguments ((λ x, x.1) <$> answered)
  end.

(** ** grants, deny, lock *)
Definition grants : M () :=
  r ← lift (broker_call "GRANTS");
  match r with
  | RespBytes bytes => write_stdout bytes
  | _ => lift (Err (from_client InvalidResponse (socket m)))
  end.

Definition expect_ok (request : string) : M () :=
  r ← lift (broker_call request);
  match r with RespOk => mret () | _ => lift (Err (from_client InvalidResponse (socket m))) end.

Definition deny (raw_id : string) : M () :=
  match from_utf8 raw_id ≫= parse_unsigned u64_max with
  | None => lift (Err Usage)
  | Some id => expect_ok ("DENY" +:+ String tab ("id=" +:+ to_string id))
  end.

Definition lock : M () := expect_ok "LOCK".

(** ** edit, edit-local, edit-human: the rest of the command is the process of
    its door. *)
Definition continue_as (d : Door) (roots : list SourceRoot) : M () :=
  λ ok t, (editing m roots d, (t ++ [Edits roots d])%list).

Definition edit_through (d : Door) : M () :=
  roots ← lift (map_err ConfigFailed (sources m)); continue_as d roots.


(** ** sources *)
Record KeyFiles : Type := { committed : bool; local_copy : bool }.

Record HumanCounts : Type := { keys : gmap string KeyFiles; invalid : list string }.

Definition key_files (f : option KeyFiles) : KeyFiles := default {| committed := false; local_copy := false |} f.

Definition count_entry (counts : HumanCounts) (raw : string) : HumanCounts :=
  match from_utf8 raw with
  | None => {| keys := keys counts; invalid := (invalid counts ++ [from_utf8_lossy raw])%list |}
  | Some file_name =>
      match parse_human_file_name file_name with
      | Ignored => counts
      | Invalid => {| keys := keys counts; invalid := (invalid counts ++ [file_name])%list |}
      | Key name local =>
          let files := key_files (keys counts !! name) in
          let files := if local then {| committed := committed files; local_copy := true |}
                       else {| committed := true; local_copy := local_copy files |} in
          {| keys := <[name := files]> (keys counts); invalid := invalid counts |}
      end
  end.

Definition human_counts (path : string) (l : DirListing) : result CliError HumanCounts :=
  match l with
  | Listed entries => Ok (foldl count_entry {| keys := ∅; invalid := [] |} (merge_sort name_le entries))
  | _ => Err (HumanDirectory path)
  end.

Definition key_label (count : nat) : string := if (count =? 1)%nat then "key" else "keys".

Context (show_error : CliError → string).

Definition write_agent_count (label path : string) : M () :=
  if negb (is_file (store m) path) then write_stdout (writeln ("  " +:+ label +:+ ": absent")) else
  match names_in (store m) path with
  | Ok names =>
      let count := base.size (list_to_set names : gset string) in
      write_stdout (writeln ("  " +:+ label +:+ ": " +:+ to_string (Z.of_nat count) +:+ " " +:+ key_label count))
  | Err error => write_stdout (writeln ("  " +:+ label +:+ ": unreadable (" +:+ show_error error +:+ ")"))
  end.

Definition local_only (f : KeyFiles) : bool := local_copy f && negb (committed f).
Definition both_copies (f : KeyFiles) : bool := committed f && local_copy f.

Definition write_human_count (path : string) : M () :=
  match listing m path with
  | NotDirectory => write_stdout (writeln "  secrets.human.d: absent")
  | l =>
      counts ← lift (human_counts path l);
      let local := length (filter (λ x, local_only x.2 = true) (map_to_list (keys counts))) in
      _ ← write_stdout (writeln ("  secrets.human.d: " +:+ to_string (Z.of_nat (base.size (keys counts))) +:+ " " +:+
            key_label (base.size (keys counts)) +:+ " (" +:+ to_string (Z.of_nat local) +:+ " local)"));
      _ ← for_each (λ x, if both_copies x.2
            then write_stdout (writeln ("  warning: key " +:+ x.1 +:+ " has both committed and local files"))
            else mret ()) (items (keys counts));
      for_each (λ name, write_stdout (writeln ("  warning: invalid human file name " +:+ name))) (invalid counts)
  end.

Definition write_source (root : SourceRoot) : M () :=
  _ ← write_stdout (writeln ("source " +:+ root_name root +:+ ": " +:+ display (root_path root)));
  let '(local, shared) := agent_files root in
  _ ← write_agent_count "secrets.env" shared;
  _ ← write_agent_count "secrets.local.env" local;
  write_human_count (human_dir root).

Definition list_sources : M () :=
  config_path ← lift (map_err ConfigFailed (config_file m));
  roots ← lift (map_err ConfigFailed (sources m));
  _ ← write_stdout (writeln ("config: " +:+ display config_path));
  for_each write_source roots.

(** * The command line *)
Inductive CliCommand : Type :=
| Get (key : string) (value no_request : bool) (ttl : option string)
| CList
| CSources
| CEdit (source : option string)
| CEditLocal (source : option string)
| CEditHuman (key : string) (source : option string) (local : bool)
| CGrants
| CDeny (id : string)
| CLock
| Completions (shell : string)
| Inject (keys program : list string).

(** [completions shell] is what clap generates for the shell. *)
Definition run (completions : string → string) (command : CliCommand) : M () :=
  match command with
  | Inject keys program => ctx ← lift from_environment; inject ctx keys program
  | CSources => list_sources
  | Get key value no_request ttl =>
      let output := if value then OValue else if no_request then OStatus else ORequest in
      ttl_secs ← lift match ttl with
                      | None => Ok None
                      | Some raw => Some <$> ok_or (InvalidTtl raw) (parse_ttl raw)
                      end;
      ctx ← lift from_environment;
      get ctx key output ttl_secs
  | CList => ctx ← lift from_environment; list_names ctx
  | CGrants => grants
  | CDeny id => deny id
  | CLock => lock
  | CEdit source => edit_through (AgentDoor source false)
  | CEditLocal source => edit_through (AgentDoor source true)
  | CEditHuman key source local =>
      edit_through (HumanDoor key {| Edit.source := source; Edit.local := local |} (negb (stdin_terminal m)))
  | Completions shell => write_stdout (completions shell)
  end.

End commands.

(** * Messages

    [show] displays a path, [io] the error a variant wraps. *)
Definition AGENT_NOTICE : string := "AGENT NOTICE: ask the human; do not retry-loop.".

Definition broker_guidance (code : ErrCode) : string :=
  match code with
  | BadRequest => "secretsd rejected a malformed request; the human should update or restart the client and daemon."
  | UnknownOp => "this client requested an unsupported operation; the human should update the client and daemon together."
  | VersionMismatch => "the client and daemon speak different protocol versions; ask the human to move both halves to the same release -- the `secrets` binary and the tag OpenCode pins for its plugin -- then restart the daemon with `systemctl --user restart secretsd.service` and restart OpenCode. Restarting OpenCode while its plugin pin still names the old tag re-fetches the same mismatched plugin, so updating only one half leaves this error in place."
  | UnknownToken => "the broker restarted, losing this session's registration and every grant. The OpenCode plugin re-registers on the next command, so run this command once more -- once, not in a loop -- and expect the human's key to blink, because the first request after a restart needs a fresh touch."
  | NoScope => "there is neither a terminal tty nor a session token. Inside an agent session (omp or OpenCode) this means the secretsd plugin did not inject a token into this shell -- check with `echo $SECRETSD_SESSION_TOKEN_FILE`; if it is empty, the session predates the plugin or its registration failed, so start a fresh session. From non-interactive ssh ('ssh host secrets get KEY') this is expected; run from a human terminal with a tty instead."
  | AgentTty => "a tokenless request came from a known agent terminal; use the OpenCode token path instead."
  | ForeignCaller => "this session's token was presented from outside that session's process tree, so it was refused; run the request from the session that owns the token."
  | NotHumanKey => "the requested human-tier key is missing or was moved; ask the human to check its encrypted file. If config.toml just gained a new source root, restart secretsd (systemctl --user restart secretsd.service)."
  | AmbiguousKey => "the requested key exists in more than one human-tier location; ask the human to remove or rename one of the duplicate files -- run `secrets list` to see every source."
  | Denied => "the human declined the secret request."
  | Timeout => "the human did not approve the request before it expired; wait for the human instead of retrying."
  | YubikeyUnreachable => "the configured YubiKey path is unavailable; ask the human to connect the required hardware path."
  | TooManyPending => "this scope already has too many pending requests; stop retrying and wait for the human."
  | Internal => "the broker could not complete the request, including a failure to spawn sops; the human should inspect journalctl --user -u secretsd for the daemon's logged sops stderr."
  end.

Definition client_message (io : string) (e : ClientError) : string :=
  match e with
  | Io _ => "could not communicate with secretsd: " +:+ io
  | ApprovalTimeout => "timed out waiting for approval; the human may still need to touch the key, and the daemon waits out the hardware cooldown between decrypts"
  | InvalidRequest => "refusing to send an invalid broker request"
  | InvalidResponse => "secretsd returned an invalid response"
  | VersionHandshake | Broker VersionMismatch => "secretsd protocol version does not match this client"
  | Broker BadRequest => "secretsd rejected the request as malformed"
  | Broker UnknownOp => "this client requested an unsupported secretsd operation"
  | Broker UnknownToken => "this session's registration was lost, usually to a broker restart; the OpenCode plugin re-registers it on the next command"
  | Broker NoScope => "no session token or interactive terminal scope is available"
  | Broker AgentTty => "tokenless access from an agent terminal is not permitted"
  | Broker ForeignCaller => "the session token was presented from outside that session's process tree"
  | Broker NotHumanKey => "the requested key is not managed by secretsd"
  | Broker AmbiguousKey => "the requested key is managed by more than one human-tier file"
  | Broker Denied => "the secret request was denied"
  | Broker Timeout => "the secret request timed out before approval"
  | Broker YubikeyUnreachable => "the YubiKey is unreachable; connect through the devbox wrapper"
  | Broker TooManyPending => "this session already has too many pending secret requests"
  | Broker Internal => "secretsd could not complete the request"
  | TokenFile => "could not safely read the session token file"
  end.

Definition config_message (show : string → string) (io : string) (e : ConfigError) : string :=
  match e with
  | Missing path =>
      "no secretsd config at " +:+ show path +:+ "; create it with a [source.<name>] table per secrets root, e.g." +:+
      String newline ("[source.dotfiles]" +:+ String newline (quoted "path = '~/dotfiles'"))
  | ReadFailed path _ => "failed to read secretsd config at " +:+ show path +:+ ": " +:+ io
  | Toml message => "invalid secretsd config: " +:+ message
  | BadRootName name => "invalid secretsd source root name " +:+ name +:+ "; expected [a-z][a-z0-9-]*"
  | RelativePath path => "source root path " +:+ path +:+ " must be absolute and free of .. segments"
  | DuplicatePath first duplicate => "source roots " +:+ first +:+ " and " +:+ duplicate +:+ " resolve to the same path"
  | NoRoots => "secretsd config must define at least one [source.<name>] table"
  | RootNotDirectory name path config =>
      "source root " +:+ name +:+ " is not an existing directory: " +:+ show path +:+
      "; clone or create it, or remove [source." +:+ name +:+ "] from " +:+ show config
  | NoHome => "HOME must be set to an absolute path"
  end.

Definition cli_message (show : string → string) (io : string) (e : CliError) : string :=
  match e with
  | Usage => "expected `secrets <KEY>... -- <PROGRAM> [ARGS]...`; run `secrets --help` for the full grammar"
  | ConfigFailed error => config_message show io error
  | InvalidSecretName => "invalid secret key"
  | InvalidTtl raw => "invalid --ttl " +:+ String dquote (raw +:+ String dquote "; use 45s, 30m, or 2h")
  | MissingSecret name searched => "secret '" +:+ name +:+ "' not found; looked in " +:+ searched
  | AmbiguousName name agent human =>
      "key '" +:+ name +:+ "' exists in both the agent tier, source " +:+ agent +:+ ", and the human tier, source " +:+ human +:+
      "; refusing ambiguous access -- keep it in one tier: `secrets list` shows both locations"
  | AgentKeyExists name =>
      "key '" +:+ name +:+ "' is an agent-tier key; refusing a human-tier copy -- remove the agent-tier line first (`secrets list` shows where), or choose another name"
  | HumanKeyExists name =>
      "key '" +:+ name +:+ "' is a human-tier key; refusing to save an agent-tier copy -- remove the human-tier file first (`secrets list` shows where), or choose another name"
  | AgentFileChangedDuringEdit =>
      "the agent-tier file changed while it was being edited; nothing saved -- re-run the edit on the current contents"
  | SopsEditFailed => "sops edit exited unsuccessfully (" +:+ io +:+ "); the agent-tier file is unchanged"
  | SopsStart path => "could not start sops for " +:+ show path +:+ ": " +:+ io
  | SopsFailed (Some path) => "sops could not decrypt the agent-tier file " +:+ show path
  | SopsFailed None => "sops could not decrypt the agent-tier secrets"
  | InvalidDotenv (Some path) => "sops returned invalid dotenv data for " +:+ show path
  | InvalidDotenv None => "sops returned invalid dotenv data"
  | AgentKeySet path => "could not read agent-tier key names from " +:+ show path +:+ ": " +:+ io
  | HumanDirectory path => "could not list human-tier keys in " +:+ show path +:+ ": " +:+ io
  | InvalidHumanFile => "human-tier directory contains an invalid key filename"
  | DuplicateHumanKey name first second =>
      "key '" +:+ name +:+ "' exists in more than one human-tier location (" +:+ first +:+ ", " +:+ second +:+
      "); remove or rename one file"
  | EditSourceRequired available =>
      "multiple secrets sources are configured; pass --source NAME (available: " +:+ available +:+ ")"
  | UnknownEditSource source available =>
      "secrets source '" +:+ source +:+ "' is not configured (available: " +:+ available +:+ ")"
  | EditConflict name actual => "edit flags conflict with key '" +:+ name +:+ "' stored in source " +:+ actual
  | EditTemp => "could not prepare a private edit file"
  | EditorStart => "could not start editor: " +:+ io
  | EditorExited => "editor exited without creating a secret"
  | InvalidEditedHumanSecret name => "edited secret must contain exactly one assignment named '" +:+ name +:+ "'"
  | EmptyEditedHumanSecret name => "edited secret '" +:+ name +:+ "' value must not be empty"
  | EncryptEditedSecret target =>
      "could not encrypt edited secret for '" +:+ show target +:+ "'; ensure .sops.yaml has a matching creation rule"
  | SopsCiphertextTooLarge limit =>
      "sops produced more than " +:+ to_string limit +:+ " bytes of ciphertext; refusing to stage it"
  | InstallEditedSecret => "could not install encrypted secret"
  | PipedHumanRead => "could not read piped secret: " +:+ io
  | EmptyPipedHumanSecret name => "piped secret '" +:+ name +:+ "' value must not be empty"
  | InvalidPipedHumanSecret name => "piped secret '" +:+ name +:+ "' must be one single-line assignment value"
  | HardeningFailed _ => "could not disable core dumps: " +:+ io
  | BrokerRefused code socket =>
      AGENT_NOTICE +:+ " " +:+ broker_guidance code +:+ " (asked the secretsd daemon on " +:+ show socket +:+ ")"
  | BrokerTransport error socket =>
      AGENT_NOTICE +:+ " " +:+ client_message io error +:+ " (asked the secretsd daemon on " +:+ show socket +:+ ")"
  | ExecFailed => "could not execute command: " +:+ io
  | StdoutFailed => "could not write secret value: " +:+ io
  | SourceNotice => "could not name the source of the requested secrets: " +:+ io
  end.

(** * Which commands reveal values *)

(** Two machines that differ in values only: the same files, with the same
    names in their ciphertext and once decrypted, and the same broker except for
    what it answers to [GET].  Their ciphertexts may differ. *)
Definition same_names (d1 d2 : AgentDisk) : Prop :=
  (∀ p, is_file d1 p = is_file d2 p) ∧ (∀ p, names_in d1 p = names_in d2 p) ∧
  (∀ p, match decrypt_all d1 p, decrypt_all d2 p with
        | Ok a, Ok b => dom a = dom b
        | Err e1, Err e2 => e1 = e2
        | _, _ => False
        end).

Definition same_but_values (m1 m2 : Machine) : Prop :=
  config_file m1 = config_file m2 ∧ sources m1 = sources m2 ∧ listing m1 = listing m2 ∧ socket m1 = socket m2 ∧
  token_file m1 = token_file m2 ∧ terminal m1 = terminal m2 ∧ same_names (store m1) (store m2) ∧
  (∀ request, starts_with request "GET" = false → net m1 request = net m2 request).

Lemma request_frame_not_get key token tty ttl : starts_with (scoped_frame "REQUEST" key token tty ttl) "GET" = false.
Proof. by destruct token, tty, ttl. Qed.

Lemma bind_lift {A B} (r : result CliError A) (f : A → M B) ok t :
  (lift r ≫= f) ok t = match r with Ok a => f a ok t | Err e => (Err e, t) end.
Proof. done. Qed.

Lemma environment_disk m ctx : from_environment m = Ok ctx → disk ctx = store m.
Proof.
  unfold from_environment. destruct (sources m); [|done]. cbn [map_err mbind result_bind].
  destruct (load_human _ _); [|done]. by intros [= <-].
Qed.

Section reveal.
Context (display : string → string) (show_error : CliError → string).
Context (m1 m2 : Machine) (same : same_but_values m1 m2).

Lemma same_call request : starts_with request "GET" = false → call (net m1) request = call (net m2) request.
Proof.
  intros H. destruct same as (_ & _ & _ & _ & _ & _ & _ & Hn). unfold call, hello. by rewrite !Hn by done.
Qed.

Lemma same_broker_call request : starts_with request "GET" = false → broker_call m1 request = broker_call m2 request.
Proof. intros H. unfold broker_call. rewrite same_call by done. by destruct same as (_ & _ & _ & -> & _). Qed.

Lemma same_locate files name : agent_locate (store m1) files name = agent_locate (store m2) files name.
Proof.
  destruct same as (_ & _ & _ & _ & _ & _ & (Hf & Hr & _) & _).
  induction files as [|f files IH]; cbn [agent_locate]; [done|]. by rewrite Hf, IH, Hr.
Qed.

Definition with_store (ctx : Context) (d : AgentDisk) : Context :=
  {| files := files ctx; disk := d; human := human ctx; roots := roots ctx |}.

Lemma same_environment : from_environment m2 = (λ ctx, with_store ctx (store m2)) <$> from_environment m1.
Proof.
  unfold from_environment. destruct same as (_ & -> & -> & _).
  destruct (sources m2) as [roots|]; [|done]. cbn [map_err mbind result_bind].
  by destruct (load_human (listing m2) roots).
Qed.

Lemma same_request_grant ctx name ttl : disk ctx = store m1 →
  request_grant display ctx (socket m1) (human_client m1) name ttl =
  request_grant display (with_store ctx (store m2)) (socket m2) (human_client m2) name ttl.
Proof.
  intros Hd. unfold request_grant. rewrite Hd, same_locate. cbn [disk files with_store].
  destruct (agent_locate (store m2) (files ctx) name) as [[f|]|]; [done| |done]. cbn [mbind result_bind].
  unfold in_human, human_client. cbn [human with_store]. destruct (human ctx !! name) as [l|]; [|done]. cbn [is_some].
  destruct same as (_ & _ & _ & Hs & Ht & Htt & _ & _). rewrite Hs, Ht, Htt.
  destruct (match token_file m2 with None => _ | Some r => _ end) as [tok|]; [|done].
  cbn [mbind result_bind map_err client_request client_path]. unfold human_request_grant.
  by rewrite same_call by apply request_frame_not_get.
Qed.

Lemma same_status ctx name scope listed : disk ctx = store m1 →
  status display ctx (socket m1) scope listed name =
  status display (with_store ctx (store m2)) (socket m2) scope listed name.
Proof.
  intros Hd. unfold status. rewrite Hd, same_locate. cbn [disk files with_store].
  destruct (agent_locate (store m2) (files ctx) name) as [[f|]|]; [done| |done]. cbn [mbind result_bind].
  unfold in_human. cbn [human with_store]. destruct (human ctx !! name); [|done]. by destruct same as (_ & _ & _ & -> & _).
Qed.

(** What the listing sees of the agent tier. *)
Definition alike (a b : gmap string (string * AgentFile)) : Prop := snd <$> a = snd <$> b.

Lemma merge_alike f a b (x y : gmap string string) : alike a b → dom x = dom y → alike (merge_file f a x) (merge_file f b y).
Proof.
  intros Ha Hd. unfold alike, merge_file in *. apply map_eq. intros k.
  apply (f_equal (λ m, m !! k)) in Ha. rewrite !lookup_fmap in *. rewrite !lookup_union, !lookup_fmap.
  assert (is_Some (x !! k) ↔ is_Some (y !! k)) as Hk by (rewrite <-!elem_of_dom; by rewrite Hd).
  destruct Hk as [H1 H2]. destruct (a !! k) as [p|], (b !! k) as [q|]; try done; cbn in Ha.
  - injection Ha as Ha. destruct (x !! k), (y !! k); cbn; by rewrite Ha.
  - destruct (x !! k), (y !! k); [done| | |done]; [by destruct H1; [eexists|]|by destruct H2; [eexists|]].
Qed.

Lemma same_resolve files a b : alike a b →
  match resolve_loop (store m1) a files, resolve_loop (store m2) b files with
  | Ok x, Ok y => alike x y
  | Err e1, Err e2 => e1 = e2
  | _, _ => False
  end.
Proof.
  destruct same as (_ & _ & _ & _ & _ & _ & (Hf & _ & Hd) & _). revert a b.
  induction files as [|f files IH]; intros a b Hab; cbn [resolve_loop]; [done|].
  rewrite Hf. destruct (is_file (store m2) (path f)); [|by apply IH]. specialize (Hd (path f)).
  destruct (decrypt_all (store m1) (path f)), (decrypt_all (store m2) (path f)); try done.
  cbn [mbind result_bind]. apply IH. by apply merge_alike.
Qed.
Lemma items_alike (a b : gmap string (string * AgentFile)) : alike a b → agent_line <$> items a = agent_line <$> items b.
Proof.
  intros H. unfold items. assert (dom a = dom b) as -> by (rewrite <-(dom_fmap_L snd a), <-(dom_fmap_L snd b); by rewrite H).
  induction (merge_sort name_le (elements (dom b))) as [|k l IH]; [done|]. cbn [omap list_omap].
  apply (f_equal (λ m, m !! k)) in H. rewrite !lookup_fmap in H.
  destruct (a !! k) as [[v f]|], (b !! k) as [[v' f']|]; try done. cbn in H. injection H as ->. cbn. by rewrite IH.
Qed.

Lemma for_each_ext {A B} (f : A → M ()) (g : B → M ()) l l' (h : A → string) (h' : B → string) :
  (∀ x, f x = write_stdout (h x)) → (∀ x, g x = write_stdout (h' x)) → h <$> l = h' <$> l' →
  for_each f l = for_each g l'.
Proof.
  intros Hf Hg. revert l'. induction l as [|x l IH]; intros [|y l'] H; try done. cbn in H. injection H as Hx Hl.
  cbn [for_each]. rewrite Hf, Hg, Hx. by rewrite (IH l' Hl).
Qed.

Lemma human_line_alike a b x : alike a b → human_line a x = human_line b x.
Proof.
  intros H. apply (f_equal (λ m, m !! x.1)) in H. rewrite !lookup_fmap in H. unfold human_line.
  by destruct (a !! x.1), (b !! x.1).
Qed.

Lemma same_list ctx ok t : disk ctx = store m1 → list_names ctx ok t = list_names (with_store ctx (store m2)) ok t.
Proof.
  intros Hd. unfold list_names, resolve_all. rewrite Hd. cbn [disk files human with_store].
  pose proof (same_resolve (files ctx) ∅ ∅ eq_refl) as Hr. unfold mbind, M_bind, lift.
  destruct (resolve_loop (store m1) ∅ (files ctx)) as [a|], (resolve_loop (store m2) ∅ (files ctx)) as [b|]; try done.
  - rewrite (for_each_ext (λ x, write_stdout (agent_line x)) (λ x, write_stdout (agent_line x)) (items a) (items b) agent_line agent_line)
      by (done || by apply items_alike).
    destruct (for_each _ (items b) ok t) as [[[]|] t']; [|done].
    rewrite (for_each_ext (λ x, write_stdout (human_line a x)) (λ x, write_stdout (human_line b x)) (items (human ctx)) (items (human ctx))
      (human_line a) (human_line b)); [done|done|done|].
    apply list_fmap_ext. intros i x _. by apply human_line_alike.
  - by subst.
Qed.

Lemma same_source root ok t :
  write_source display m1 show_error root ok t = write_source display m2 show_error root ok t.
Proof.
  destruct same as (_ & _ & Hl & _ & _ & _ & (Hf & Hr & _) & _).
  assert (∀ label path, write_agent_count m1 show_error label path = write_agent_count m2 show_error label path) as Hc.
  { intros label path. unfold write_agent_count. by rewrite Hf, Hr. }
  assert (∀ path, write_human_count m1 path = write_human_count m2 path) as Hh.
  { intros path. unfold write_human_count. by rewrite Hl. }
  unfold write_source. by destruct (agent_files root); rewrite !Hc, Hh.
Qed.

Lemma for_each_same {A} (f g : A → M ()) l ok t : (∀ x ok t, f x ok t = g x ok t) → for_each f l ok t = for_each g l ok t.
Proof.
  intros H. revert t. induction l as [|x l IH]; intros t; [done|]. cbn [for_each]. unfold mbind, M_bind.
  rewrite H. destruct (g x ok t) as [[]]; [apply IH|done].
Qed.

(** The commands that hand a value over. *)
Definition hands_over (c : CliCommand) : bool :=
  match c with Inject _ _ => true | Get _ value _ _ => value | _ => false end.

(** The commands that open values in an editor, or store what is piped in. *)
Definition edits (c : CliCommand) : bool :=
  match c with CEdit _ | CEditLocal _ | CEditHuman _ _ _ => true | _ => false end.

(** C20: apart from the editing commands, only [secrets KEY... -- PROGRAM] and
    [secrets get --value] reveal values.  What [get] without [--value], [list],
    [sources], [grants], [deny], [lock] and [completions] write, execute and
    return is the same on two machines that differ in the values of secrets
    only: they have the same configuration, the same files holding the same
    names, in the ciphertext and decrypted, and a broker that gives the same
    answer to every request but [GET]; the ciphertexts, what sops decrypts them
    to and the answers to [GET] may differ.  [edit], [edit-local] and
    [edit-human] are not claimed: they open plaintext for the human. *)
Theorem only_handover_reveals completions command ok :
  hands_over command = false → edits command = false →
  run display m1 show_error completions command ok [] = run display m2 show_error completions command ok [].
Proof.
  intros Hh He. pose proof same as (Hcf & Hso & Hli & Hsk & Htf & Htm & _ & _). destruct command; try done; cbn [run hands_over] in *.
  - subst value. rewrite !bind_lift. destruct (match ttl with None => _ | Some r => _ end) as [ttl_secs|]; [|done].
    rewrite !bind_lift, same_environment. destruct (from_environment m1) as [ctx|] eqn:Ec; [|done]. cbn [fmap result_fmap].
    apply environment_disk in Ec. unfold get. rewrite !bind_lift. destruct (parse_name key) as [name|]; [|done].
    destruct no_request; rewrite !bind_lift.
    + by rewrite Htf, Htm, (same_broker_call "GRANTS"), (same_status ctx) by done.
    + by rewrite (same_request_grant ctx).
  - rewrite !bind_lift, same_environment. destruct (from_environment m1) as [ctx|] eqn:Ec; [|done]. cbn [fmap result_fmap].
    apply same_list. by apply environment_disk.
  - unfold list_sources. rewrite !bind_lift, Hcf. destruct (config_file m2); [|done]. cbn [map_err].
    rewrite !bind_lift, Hso. destruct (sources m2) as [rs|]; [|done]. cbn [map_err]. unfold mbind, M_bind.
    destruct (write_stdout _ ok []) as [[]]; [|done]. apply for_each_same. intros. apply same_source.
  - unfold grants. by rewrite (same_broker_call "GRANTS"), Hsk.
  - unfold deny, expect_ok. destruct (from_utf8 id ≫= parse_unsigned u64_max) as [n|]; [|done].
    by rewrite (same_broker_call ("DENY" +:+ _)), Hsk.
  - unfold lock, expect_ok. by rewrite (same_broker_call "LOCK"), Hsk.
Qed.

End reveal.

(** * Handing values over *)
Section handover.
Context (display : string → string) (m : Machine) (show_error : CliError → string) (completions : string → string).

(** What each key of a command was answered. *)
Definition answered_by (ctx : Context) (raw : string) (x : string * string * Provenance) : Prop :=
  parse_name raw = Ok x.1.1 ∧ value display ctx (socket m) (human_client m) x.1.1 None = Ok (x.1.2, x.2).

Lemma resolve_keys_all ctx raws l : resolve_keys display m ctx raws = Ok l ↔ Forall2 (answered_by ctx) raws l.
Proof.
  revert l. induction raws as [|raw raws IH]; intros l; cbn [resolve_keys].
  - split; [intros [= <-]; constructor|]. inversion 1. done.
  - unfold answered_by at 1. split.
    + destruct (parse_name raw) as [name|] eqn:Ep; [|done]. cbn [mbind result_bind].
      destruct (value display ctx (socket m) (human_client m) name None) as [[v p]|] eqn:Ev; [|done]. cbn [mbind result_bind].
      destruct (resolve_keys display m ctx raws) as [others|] eqn:Er; [|done]. intros [= <-].
      constructor; [done|]. by apply IH.
    + intros H. inversion H as [|? [[n v] p] ? l' [Hp Hv] Hl]; subst. cbn [fst snd] in *.
      rewrite Hp. cbn [mbind result_bind]. rewrite Hv. cbn [mbind result_bind]. apply IH in Hl. by rewrite Hl.
Qed.

(** C21: a program is started only with every value asked for, and only after
    the store of each was named.  When [secrets KEY... -- PROGRAM] executes
    anything, it executes that program with those arguments; its environment
    gains exactly the keys in order, each with the value its tier answered; and
    the one thing written before is the notice that names every key and its
    source, which holds no value.  When a key has no answer, or the notice
    cannot be written, nothing is executed. *)
Theorem inject_all_or_nothing raws program ok r t :
  run display m show_error completions (Inject raws program) ok [] = (r, t) →
  (∀ p args env, Exec p args env ∈ t →
     ∃ ctx answers, from_environment m = Ok ctx ∧ program = p :: args ∧ Forall2 (answered_by ctx) raws answers ∧
       env = fst <$> answers ∧ r = Ok () ∧
       t = [Stderr (notice display ((λ x, (x.1.1, x.2)) <$> answers)); Exec p args env]) ∧
  (∀ b, Stdout b ∉ t) ∧ (r = Ok () → ∃ p args env, Exec p args env ∈ t).
Proof.
  cbn [run]. rewrite bind_lift. destruct (from_environment m) as [ctx|] eqn:Ec;
    [|intros [= <- <-]; split_and!; [by intros ??? []%elem_of_nil|by intros ? []%elem_of_nil|done]].
  unfold inject. destruct program as [|p args];
    [intros [= <- <-]; split_and!; [by intros ??? []%elem_of_nil|by intros ? []%elem_of_nil|done]|].
  rewrite bind_lift. destruct (resolve_keys display m ctx raws) as [answers|] eqn:Er;
    [|intros [= <- <-]; split_and!; [by intros ??? []%elem_of_nil|by intros ? []%elem_of_nil|done]].
  apply resolve_keys_all in Er. unfold announce, write_stderr, exec, perform, mbind, M_bind. cbn [length].
  destruct (ok 0%nat); [|intros [= <- <-]; split_and!; [by intros ??? []%elem_of_nil|by intros ? []%elem_of_nil|done]].
  cbn [app length]. destruct (ok 1%nat); intros [= <- <-].
  - split_and!.
    + intros p' args' env' [?|[[= -> -> ->]|[]%elem_of_nil]%elem_of_cons]%elem_of_cons; [done|].
      exists ctx, answers. done.
    + intros b [?|[?|[]%elem_of_nil]%elem_of_cons]%elem_of_cons; done.
    + intros _. eexists _, _, _. right; left.
  - split_and!; [|intros b [?|[]%elem_of_nil]%elem_of_cons; done|done].
    intros ??? [?|[]%elem_of_nil]%elem_of_cons. done.
Qed.

(** The same for one value on standard output: nothing is written before the
    notice that names its source. *)
Lemma get_value_named raw no_request ok r t :
  run display m show_error completions (Get raw true no_request None) ok [] = (r, t) →
  t = [] ∨ ∃ ctx name v p rest, from_environment m = Ok ctx ∧ parse_name raw = Ok name ∧
    value display ctx (socket m) (human_client m) name None = Ok (v, p) ∧
    t = Stderr (notice display [(name, p)]) :: rest ∧
    (rest = [] ∨ rest = [Stdout v] ∨ rest = [Stdout v; Stdout (String newline "")]).
Proof.
  cbn [run]. rewrite !bind_lift. destruct (from_environment m) as [ctx|] eqn:Ec; [|intros [= <- <-]; by left].
  unfold get. rewrite bind_lift. destruct (parse_name raw) as [name|]; [|intros [= <- <-]; by left].
  rewrite bind_lift. destruct (value display ctx (socket m) (human_client m) name None) as [[v p]|] eqn:Ev; [|intros [= <- <-]; by left].
  unfold announce, write_stderr, write_stdout, perform, mbind, M_bind. cbn [length].
  destruct (ok 0%nat); [|intros [= <- <-]; by left]. cbn [app length].
  destruct (ok 1%nat); [|intros [= <- <-]; right; exists ctx, name, v, p, []; split_and!; auto]. cbn [app length].
  destruct (ok 2%nat); intros [= <- <-]; right; [exists ctx, name, v, p, [Stdout v; Stdout (String newline "")]|exists ctx, name, v, p, [Stdout v]];
    split_and!; auto.
Qed.

(** ** A key in both tiers *)
Lemma for_each_writes {A} (h : A → string) l t :
  for_each (λ x, write_stdout (h x)) l (λ _, true) t = (Ok (), (t ++ ((λ x, Stdout (h x)) <$> l))%list).
Proof.
  revert t. induction l as [|x l IH]; intros t; cbn [for_each fmap list_fmap].
  - by rewrite app_nil_r.
  - unfold mbind, M_bind. cbn [write_stdout perform]. rewrite IH. by rewrite <-app_assoc.
Qed.

Lemma elem_of_items {A} (values : gmap string A) k v : values !! k = Some v → (k, v) ∈ items values.
Proof.
  intros Hk. unfold items. apply list_elem_of_omap. exists k. rewrite Hk. split; [|done].
  rewrite merge_sort_Permutation. apply elem_of_elements, elem_of_dom. by eexists.
Qed.

Lemma resolve_keys_refuses ctx raws e raw name :
  raw ∈ raws → parse_name raw = Ok name → value display ctx (socket m) (human_client m) name None = Err e →
  ∃ e', resolve_keys display m ctx raws = Err e'.
Proof.
  intros Hin Hp Hv. destruct (resolve_keys display m ctx raws) as [l|e'] eqn:E; [|by eexists].
  apply resolve_keys_all in E. apply list_elem_of_lookup in Hin as [i Hi].
  eapply Forall2_lookup_l in E as ([[n v] p] & _ & Hn & Ha); [|exact Hi]. cbn [fst snd] in *.
  assert (n = name) as -> by congruence. rewrite Hv in Ha. done.
Qed.

Lemma list_marks_clash ctx name l all :
  from_environment m = Ok ctx → human ctx !! name = Some l → resolve_all (disk ctx) (files ctx) = Ok all →
  is_Some (all !! name) →
  ∃ t, run display m show_error completions CList (λ _, true) [] = (Ok (), t) ∧
    Stdout (writeln (name +:+ "  (human tier: " +:+ h_label l +:+
      "; ALSO agent tier -- ambiguous, reads refuse" +:+ ")")) ∈ t.
Proof.
  intros Hc Hl Ha [x Hx]. cbn [run]. rewrite bind_lift, Hc. unfold list_names. rewrite bind_lift, Ha.
  unfold mbind, M_bind. rewrite for_each_writes, for_each_writes. eexists. split; [done|].
  apply elem_of_app. right. apply list_elem_of_fmap. exists (name, l). split; [|by apply elem_of_items].
  unfold human_line. cbn [fst snd]. by rewrite Hx.
Qed.

(** C39: a key in both tiers is never read.  When a name is in the human tier
    and an agent file names it too, [secrets get] refuses it in all three of
    its forms with an error that names both places, whatever the broker would
    say, and writes nothing; a program that asks for it among its keys is not
    started, and nothing is written; and [secrets list], which does not refuse,
    marks the key as ambiguous, once every agent file decrypts.  That sops leaves
    the names of a dotenv file in the clear is assumed for the last part. *)
Theorem ambiguous_never_answered ctx raw name f ok :
  from_environment m = Ok ctx → parse_name raw = Ok name →
  in_human ctx name = true → agent_locate (disk ctx) (files ctx) name = Ok (Some f) →
  (∀ value no_request ttl, (∀ t, ttl = Some t → is_Some (parse_ttl t)) →
     run display m show_error completions (Get raw value no_request ttl) ok [] = (Err (ambiguous display ctx name f), [])) ∧
  (∀ raws program, raw ∈ raws → ∃ e, run display m show_error completions (Inject raws program) ok [] = (Err e, [])) ∧
  (∀ program, program ≠ [] →
     run display m show_error completions (Inject [raw] program) ok [] = (Err (ambiguous display ctx name f), [])) ∧
  (∀ all, sops_keeps_names (disk ctx) → resolve_all (disk ctx) (files ctx) = Ok all →
     ∃ l t, human ctx !! name = Some l ∧ run display m show_error completions CList (λ _, true) [] = (Ok (), t) ∧
       Stdout (writeln (name +:+ "  (human tier: " +:+ h_label l +:+
         "; ALSO agent tier -- ambiguous, reads refuse" +:+ ")")) ∈ t).
Proof.
  intros Hc Hp Hh Hl. split_and!.
  - intros v nr ttl Ht. cbn [run]. rewrite bind_lift.
    assert (∃ secs, match ttl with None => Ok None | Some raw => Some <$> ok_or (InvalidTtl raw) (parse_ttl raw) end = Ok secs)
      as [secs ->] by (destruct ttl as [t|]; [destruct (Ht t eq_refl) as [z ->]; by eexists|by eexists]).
    rewrite bind_lift, Hc. unfold get. rewrite bind_lift, Hp.
    destruct (ambiguous_refused display ctx (socket m) (human_client m) name secs f
      (caller_scope (is_some (token_file m)) (terminal m)) (broker_call m "GRANTS") Hh Hl) as (H1 & H2 & H3).
    by destruct v, nr; rewrite bind_lift, ?H1, ?H2, ?H3.
  - intros raws program Hin. cbn [run]. rewrite bind_lift, Hc. unfold inject. destruct program as [|p args]; [by eexists|].
    destruct (ambiguous_refused display ctx (socket m) (human_client m) name None f CallerNone (Err Usage) Hh Hl) as (H1 & _).
    destruct (resolve_keys_refuses ctx raws _ raw name Hin Hp H1) as [e He]. rewrite bind_lift, He. by eexists.
  - intros [|p args] Hne; [done|]. cbn [run]. rewrite bind_lift, Hc. unfold inject. rewrite bind_lift. cbn [resolve_keys].
    destruct (ambiguous_refused display ctx (socket m) (human_client m) name None f CallerNone (Err Usage) Hh Hl) as (H1 & _).
    rewrite Hp. cbn [mbind result_bind]. by rewrite H1.
  - intros all Hs Ha. unfold in_human in Hh. destruct (human ctx !! name) as [l|] eqn:El; [|done]. exists l.
    destruct (list_marks_clash ctx name l all Hc El Ha) as (t & Ht & Hin); [by eapply located_resolves|]. by exists t.
Qed.

End handover.

(** * What [secrets sources] counts *)
Lemma str_lt_irrefl a : str_lt a a = false.
Proof. induction a as [|c a IH]; [done|]. cbn [str_lt]. rewrite IH, andb_false_r, orb_false_r. lia. Qed.

Lemma str_lt_total a b : str_lt a b = false → str_lt b a = false → a = b.
Proof.
  revert b. induction a as [|c a IH]; intros [|d b]; cbn [str_lt]; try done.
  rewrite !orb_false_iff, !andb_false_iff. intros [H1 H2] [H3 H4].
  assert (code c = code d) as Hc by lia. rewrite (IH b) by (destruct H2, H4; lia || done).
  f_equal. unfold code in Hc. apply N2Z.inj in Hc. rewrite <-(ascii_N_embedding c), <-(ascii_N_embedding d). by rewrite Hc.
Qed.

Lemma str_lt_trans a b c : str_lt a b = true → str_lt b c = true → str_lt a c = true.
Proof.
  revert b c. induction a as [|x a IH]; intros [|y b] [|z c]; cbn [str_lt]; try done.
  rewrite !orb_true_iff, !andb_true_iff, !Z.ltb_lt, !Z.eqb_eq. intros [?|[? ?]] [?|[? ?]]; [left; lia..|].
  right. split; [lia|]. by eapply IH.
Qed.

#[global] Instance name_le_total : Total name_le.
Proof.
  intros a b. unfold name_le. destruct (str_lt b a) eqn:E1, (str_lt a b) eqn:E2; auto.
  pose proof (str_lt_trans _ _ _ E1 E2) as H. by rewrite str_lt_irrefl in H.
Qed.

#[global] Instance name_le_anti : AntiSymm (=) name_le.
Proof. intros a b H1 H2. by apply str_lt_total. Qed.

#[global] Instance name_le_transitive : Transitive name_le.
Proof.
  intros a b c H1 H2. unfold name_le in *. destruct (str_lt c a) eqn:E; [|done].
  destruct (decide (a = b)) as [->|Hab]; [congruence|].
  destruct (str_lt a b) eqn:E3; [|by destruct Hab; apply str_lt_total].
  pose proof (str_lt_trans _ _ _ E E3). congruence.
Qed.

Lemma sorted_names_unique l l' : l ≡ₚ l' → merge_sort name_le l = merge_sort name_le l'.
Proof.
  intros H. apply (StronglySorted_unique name_le); [apply StronglySorted_merge_sort; apply _..|].
  by rewrite !merge_sort_Permutation.
Qed.

Lemma file_for_utf8 n local : secret_name_ok n → from_utf8 (file_for n local) = Some (file_for n local).
Proof.
  intros Hn. apply from_utf8_ascii. pose proof (name_plain n Hn) as Hp.
  assert (all_bytes is_ascii n = true) as Ha.
  { eapply all_bytes_impl; [|exact Hp]. intros c. unfold plain, is_ascii_graphic, is_ascii, in_range. intros. bool_to_prop. lia. }
  unfold file_for, local_file_name, file_name. destruct local; rewrite all_bytes_append, Ha; done.
Qed.

(** What one entry adds to the count of a key. *)
Lemma count_entry_key c raw n : secret_name_ok n →
  keys (count_entry c raw) !! n =
  match hit n raw with
  | Some true => Some {| committed := committed (key_files (keys c !! n)); local_copy := true |}
  | Some false => Some {| committed := true; local_copy := local_copy (key_files (keys c !! n)) |}
  | None => keys c !! n
  end.
Proof.
  intros Hn. unfold count_entry. destruct (hit n raw) as [b|] eqn:Eh.
  - apply hit_Some in Eh as ->; [|done]. rewrite file_for_utf8 by done.
    assert (parse_human_file_name (file_for n b) = Key n b) as -> by (by apply parse_human_file_name_spec; destruct b).
    by destruct b; cbn [keys]; rewrite lookup_insert_eq.
  - destruct (from_utf8 raw) as [file|] eqn:Eu; [|done].
    assert (file = raw) as -> by (unfold from_utf8 in Eu; destruct (valid_utf8 raw); congruence).
    destruct (parse_human_file_name raw) as [|name local|] eqn:Ep; [done| |done].
    assert (name ≠ n) as Hne.
    { intros ->. apply parse_human_file_name_spec in Ep as [_ Ep]. apply (hit_Some n raw local Hn) in Ep. congruence. }
    by destruct local; cbn [keys]; rewrite lookup_insert_ne.
Qed.

Lemma count_entries_key l c n : secret_name_ok n →
  keys (foldl count_entry c l) !! n =
  if bool_decide (file_name n ∈ l ∨ local_file_name n ∈ l)
  then Some {| committed := committed (key_files (keys c !! n)) || bool_decide (file_name n ∈ l);
               local_copy := local_copy (key_files (keys c !! n)) || bool_decide (local_file_name n ∈ l) |}
  else keys c !! n.
Proof.
  intros Hn. revert c. induction l as [|raw l IH]; intros c; cbn [foldl].
  - by rewrite bool_decide_eq_false_2 by (intros [?%not_elem_of_nil|?%not_elem_of_nil]; done).
  - rewrite IH, count_entry_key by done.
    pose proof (hit_Some n raw false Hn) as Hf. pose proof (hit_Some n raw true Hn) as Hl. cbn [file_for] in Hf, Hl.
    destruct (hit n raw) as [[|]|] eqn:Eh.
    + assert (raw = local_file_name n ∧ raw ≠ file_name n) as [Er En] by naive_solver. subst raw. clear IH Hf Hl Eh.
      rewrite (bool_decide_eq_true_2 (file_name n ∈ local_file_name n :: l ∨ _)) by (right; left).
      rewrite (bool_decide_ext (file_name n ∈ local_file_name n :: l) (file_name n ∈ l)) by set_solver.
      rewrite (bool_decide_eq_true_2 (local_file_name n ∈ local_file_name n :: l)) by left. rewrite orb_true_r. cbn [key_files default committed local_copy].
      case_bool_decide as H1; [by rewrite orb_true_l|]. f_equal. f_equal.
      rewrite bool_decide_eq_false_2 by tauto. by rewrite orb_false_r.
    + assert (raw = file_name n ∧ raw ≠ local_file_name n) as [Er En] by naive_solver. subst raw. clear IH Hf Hl Eh.
      rewrite (bool_decide_eq_true_2 (file_name n ∈ file_name n :: l ∨ _)) by (left; left).
      rewrite (bool_decide_ext (local_file_name n ∈ file_name n :: l) (local_file_name n ∈ l)) by set_solver.
      rewrite (bool_decide_eq_true_2 (file_name n ∈ file_name n :: l)) by left. rewrite orb_true_r. cbn [key_files default committed local_copy].
      case_bool_decide as H1; [by rewrite orb_true_l|]. f_equal. f_equal.
      rewrite bool_decide_eq_false_2 by tauto. by rewrite orb_false_r.
    + assert (raw ≠ local_file_name n ∧ raw ≠ file_name n) as [En1 En2] by naive_solver.
      rewrite (bool_decide_ext (file_name n ∈ raw :: l) (file_name n ∈ l)) by set_solver.
      rewrite (bool_decide_ext (local_file_name n ∈ raw :: l) (local_file_name n ∈ l)) by set_solver.
      by rewrite (bool_decide_ext (file_name n ∈ raw :: l ∨ local_file_name n ∈ raw :: l) (file_name n ∈ l ∨ local_file_name n ∈ l)) by set_solver.
Qed.

(** [secrets sources] counts what is there, whatever order the directory is
    read in: a key is counted once if it has a committed file or a local one,
    with a warning exactly if it has both. *)
Lemma sources_count path entries entries' c : entries ≡ₚ entries' →
  human_counts path (Listed entries) = Ok c →
  human_counts path (Listed entries') = Ok c ∧
  ∀ n, secret_name_ok n →
    keys c !! n = if bool_decide (file_name n ∈ entries ∨ local_file_name n ∈ entries)
                  then Some {| committed := bool_decide (file_name n ∈ entries);
                               local_copy := bool_decide (local_file_name n ∈ entries) |}
                  else None.
Proof.
  intros Hp. unfold human_counts. rewrite (sorted_names_unique _ _ Hp). intros [= <-]. split; [done|].
  intros n Hn. rewrite count_entries_key by done. cbn [keys key_files default committed local_copy orb].
  assert (∀ f, f ∈ merge_sort name_le entries' ↔ f ∈ entries) as He by (intros f; by rewrite merge_sort_Permutation, Hp).
  rewrite !(bool_decide_ext (file_name n ∈ merge_sort name_le entries') (file_name n ∈ entries)) by apply He.
  rewrite !(bool_decide_ext (local_file_name n ∈ merge_sort name_le entries') (local_file_name n ∈ entries)) by apply He.
  rewrite (bool_decide_ext (file_name n ∈ merge_sort name_le entries' ∨ _) (file_name n ∈ entries ∨ local_file_name n ∈ entries))
    by (by rewrite !He).
  done.
Qed.

(** An agent is told to ask the human exactly when the daemon was asked. *)
Lemma notice_iff_broker show io e :
  starts_with (cli_message show io e) AGENT_NOTICE =
  match e with BrokerRefused _ _ | BrokerTransport _ _ => true | _ => false end.
Proof.
  assert (∀ text, starts_with (AGENT_NOTICE +:+ text) AGENT_NOTICE = true) as Hn
    by (intros text; unfold starts_with; by rewrite strip_prefix_append).
  destruct e as [|e| | | | | | | | | |[]|[]| | | | | | | | | | | | | | | | | | | | | | | |]; try reflexivity; try apply Hn.
  by destruct e.
Qed.

(** * Instances *)
Definition demo_disk (v : string) : AgentDisk := {|
  is_file := λ p, bool_decide (p = "/r/secrets.env");
  read_bytes := λ _, Some (writeln ("API=ENC[" +:+ v +:+ "]"));
  sops_decrypt := λ _, SopsOutput (writeln ("API=" +:+ v)) |}.

Definition demo_machine (v : string) : Machine := {|
  config_file := Ok "/c"; sources := Ok [{| root_name := "d"; root_path := "/r" |}];
  store := demo_disk v; listing := λ _, NotDirectory; net := λ _, Err TokenFile; socket := "/s";
  token_file := None; terminal := None; stdin_terminal := true; editing := λ _ _, Err Usage |}.

Lemma only_handover_reveals_witness :
  run (λ s, s) (demo_machine "one") (λ _, "") (λ _, "") CList (λ _, true) [] =
  run (λ s, s) (demo_machine "two") (λ _, "") (λ _, "") CList (λ _, true) [].
Proof.
  apply (only_handover_reveals (λ s, s) (λ _, "") (demo_machine "one") (demo_machine "two")); [|reflexivity..].
  by repeat split.
Defined.

Lemma inject_all_or_nothing_witness :
  ∃ t, run (λ s, s) (demo_machine "one") (λ _, "") (λ _, "") (Inject ["API"] ["env"; "-0"]) (λ _, true) [] = (Ok (), t) ∧
    ∃ p args env, Exec p args env ∈ t ∧ env = [("API", "one")].
Proof.
  eexists. split; [by vm_compute|].
  destruct (inject_all_or_nothing (λ s, s) (demo_machine "one") (λ _, "") (λ _, "") ["API"] ["env"; "-0"] (λ _, true) _ _
    ltac:(by vm_compute)) as (_ & _ & H).
  destruct (H eq_refl) as (p & args & env & Hin). exists p, args, env. split; [exact Hin|].
  apply elem_of_cons in Hin as [Hin|[Hin|Hin%elem_of_nil]%elem_of_cons]; [done|by injection Hin|done].
Defined.

(** [API] in the agent file of a root and in its human directory. *)
Definition clash_machine : Machine := {|
  config_file := Ok "/c"; sources := Ok [{| root_name := "d"; root_path := "/r" |}];
  store := demo_disk "one"; listing := λ _, Listed ["API.env"]; net := λ _, Err TokenFile; socket := "/s";
  token_file := None; terminal := None; stdin_terminal := true; editing := λ _ _, Err Usage |}.

Lemma Ok_inj {E A} (x y : A) : @Ok E A x = Ok y → x = y.
Proof. congruence. Qed.

Lemma demo_disk_keeps : sops_keeps_names (demo_disk "one").
Proof.
  assert (parse_dotenv (writeln ("API=" +:+ "one")) = Ok {[ "API" := "one" ]}) as E1 by (vm_compute; reflexivity).
  assert (names_of (writeln ("API=ENC[" +:+ "one" +:+ "]")) = Ok ["API"]) as E2 by (vm_compute; reflexivity).
  intros p bytes plain mm ns n Hb Hp Hm Hn _. unfold demo_disk in Hb, Hp. cbn [read_bytes sops_decrypt] in Hb, Hp.
  assert (Some (writeln ("API=ENC[" +:+ "one" +:+ "]")) = Some bytes) as <-%(inj Some) by exact Hb.
  assert (plain = writeln ("API=" +:+ "one")) as -> by congruence.
  rewrite E1 in Hm. rewrite E2 in Hn. apply Ok_inj in Hm as <-. apply Ok_inj in Hn as <-.
  rewrite list_elem_of_singleton, <-elem_of_dom. set_solver.
Qed.

Definition clash_message : CliError :=
  AmbiguousName "API" "d (/r/secrets.env)" "d (/r/secrets.human.d/API.env)".

Lemma ambiguous_never_answered_witness :
  run (λ s, s) clash_machine (λ _, "") (λ _, "") (Get "API" true false None) (λ _, true) [] = (Err clash_message, []) ∧
  ∃ l t, h_label l = "d" ∧ run (λ s, s) clash_machine (λ _, "") (λ _, "") CList (λ _, true) [] = (Ok (), t) ∧
    Stdout (writeln ("API  (human tier: d; ALSO agent tier -- ambiguous, reads refuse)")) ∈ t.
Proof.
  destruct (from_environment clash_machine) as [ctx|] eqn:Ec; [|by vm_compute in Ec].
  destruct (ambiguous_never_answered (λ s, s) clash_machine (λ _, "") (λ _, "") ctx "API" "API"
    {| label := "d"; path := "/r/secrets.env" |} (λ _, true) Ec) as (H1 & _ & _ & H4);
    [vm_compute; reflexivity|vm_compute in Ec; apply Ok_inj in Ec as <-; vm_compute; reflexivity..|].
  split; [rewrite H1 by done; vm_compute in Ec; apply Ok_inj in Ec as <-; vm_compute; reflexivity|].
  destruct (H4 {[ "API" := ("one", {| label := "d"; path := "/r/secrets.env" |}) ]}) as (l & t & Hl & Ht & Hin).
  - rewrite (environment_disk _ _ Ec). cbn [store clash_machine demo_disk]. exact demo_disk_keeps.
  - vm_compute in Ec. apply Ok_inj in Ec as <-. reflexivity.
  - exists l, t. vm_compute in Ec. apply Ok_inj in Ec as <-. vm_compute in Hl. apply (inj Some) in Hl as <-.
    split; [reflexivity|]. split; [exact Ht|exact Hin].
Defined.
