(* ===== verification/Holders.v ===== *)
(** The local ends of the bridge ([crates/forward/src/bridge/arming.rs],
    [bridge/hold.rs] and the exchange of [bridge/holder.rs]): where the arming
    socket is, what arming and holding are answered, and the dial protocol
    between the bridge and a holder, in any order of their steps. *)

From stdpp Require Import prelude strings list gmap.
From Stdlib Require Import ZArith Lia Ascii.
From S2P Require Import Prelude Text Paths Containment Peers Bridge Leases Relay.
Import Fdpass.

Local Open Scope string_scope.

(** * The arming socket *)
Record DirStat : Type := { dir_uid : Z; dir_mode : Z }.

Definition trusted_runtime_dir (metadata : string → option DirStat) (dir : string) (uid : Z) : option string :=
  m ← metadata dir;
  if bool_decide (dir_uid m = uid) && bool_decide (Z.land (dir_mode m) 18 = 0%Z) then Some dir else None.

(** [self_uid] is the owner of [/proc/self]. *)
Definition default_runtime_dir (metadata : string → option DirStat) (self_uid : option Z) : option string :=
  uid ← self_uid; trusted_runtime_dir metadata ("/run/user/" +:+ to_string uid) uid.

Definition non_empty (p : string) : option string := if is_empty p then None else Some p.

Definition arm_socket_path_in (runtime_dir : option string) : string :=
  join (default "/dev/null" (runtime_dir ≫= non_empty)) "forward/arm.sock".

Definition arm_socket_path (xdg : option string) (metadata : string → option DirStat) (self_uid : option Z) : string :=
  arm_socket_path_in (match xdg ≫= non_empty with
                      | Some p => Some p
                      | None => default_runtime_dir metadata self_uid
                      end).

(** * Arming and holding *)
Definition line_end : string := String newline "".
Definition DIAL : string := "DIAL" +:+ line_end.
Definition HELD : string := "ok" +:+ line_end.
Definition BUSY : string := "busy" +:+ line_end.
Definition UNSAFE : string := "unsafe" +:+ line_end.

(** [handle_arming]: what the connection is sent once the request is decided,
    and whether it stays open. *)
Definition arming_reply (out : output) : string * bool :=
  match out with
  | OArm true => (HELD, false)
  | OHeld => (HELD, true)
  | OUnsafe => (UNSAFE, false)
  | OBusy => (BUSY, false)
  | _ => ("", false)
  end.

(** How reading from the bridge ends when it sends no more. *)
Inductive ReadEnd : Type := EndOfFile | ReadError (errno : Z).

(** [read_exact] of [n] bytes. *)
Definition read_exact (n : nat) (sent : string) (ended : ReadEnd) : result ReadEnd string :=
  if (n <=? String.length sent)%nat then Ok (String.substring 0 n sent) else Err ended.

Inductive HoldError : Type :=
| NoBridge (path : string)
| RefusedPort (port : Z)
| Unanswered (path : string)
| BusyPort (port : Z)
| EndedHold (port : Z)
| UnexpectedRequest (port : Z) (request : string)
| HoldIo (port : Z).

(** What setting up the connection to the arming socket gave. *)
Record Channel : Type := { connected : bool; timeout_set : bool; written : bool; timeouts_reset : bool }.

Definition hold (path : string) (port : Z) (c : Channel) (sent : string) (ended : ReadEnd) : result HoldError Z :=
  if negb (connected c) then Err (NoBridge path) else
  if negb (timeout_set c) || negb (written c) then Err (HoldIo port) else
  match read_exact (String.length HELD) sent ended with
  | Err EndOfFile => Err (Unanswered path)
  | Err (ReadError _) => Err (HoldIo port)
  | Ok reply =>
      if bool_decide (reply = HELD) then
        if timeouts_reset c then Ok port else Err (HoldIo port)
      else if starts_with BUSY reply then Err (BusyPort port)
      else if starts_with UNSAFE reply then Err (RefusedPort port)
      else Err (Unanswered path)
  end.

Definition arm_one (c : Channel) (sent : string) (ended : ReadEnd) : bool :=
  connected c && timeout_set c && written c &&
  match read_exact 3 sent ended with Ok reply => bool_decide (reply = "ok" +:+ line_end) | Err _ => false end.

(** [arm]: every port is asked for, also after one failed. *)
Definition arm (one : Z → bool) (ports : list Z) : bool :=
  foldl (λ all port, all && one port) (negb (bool_decide (ports = []))) ports.

(** * The dial protocol *)
Definition LOCALHOST_V4 : IpAddr := V4 127 0 0 1.
Definition LOCALHOST_V6 : IpAddr := V6 0 0 0 0 0 0 0 1.

(** [connect_loopback]: IPv4 first; the address connected to. *)
Definition connect_loopback (port : Z) (v4 v6 : bool) : option SocketAddr :=
  if v4 then Some {| ip := LOCALHOST_V4; sport := port |}
  else if v6 then Some {| ip := LOCALHOST_V6; sport := port |} else None.

(** Where the holder's loop is. *)
Inductive HolderPhase : Type :=
| Reading (got : string)
| Connecting
| Over (e : option HoldError).

(** Where the bridge is: no dial, or one that waits for its answer. *)
Inductive BridgePhase : Type := AtRest | Awaiting | Dropped.

(** The connection between them: bytes to the holder, messages to the bridge.
    [dialled] is what each connect gave, [results] what each dial made of it. *)
Record Exchange : Type := {
  to_holder : string;
  to_bridge : list (ascii * option Descriptor);
  holder : HolderPhase;
  bridge : BridgePhase;
  dialled : list (option SocketAddr);
  results : list Dial;
}.

Inductive XEvent : Type :=
| BridgeDials
| HolderReads
| HolderConnects (v4 v6 : bool) (fd : nat)
| BridgeReceives (interrupted : nat)
| BridgeTimesOut
| HolderExits.

Definition is_over (h : HolderPhase) : bool := match h with Over _ => true | _ => false end.

(** One turn of [Held::serve] on the next byte of the request. *)
Definition serve_byte (port : Z) (got : string) (c : ascii) : HolderPhase :=
  let got := got +:+ String c "" in
  if (String.length got <? String.length DIAL)%nat then Reading got
  else if bool_decide (got = DIAL) then Connecting
  else Over (Some (UnexpectedRequest port (from_utf8_lossy got))).

(** What the bridge makes of a received message: [fdpass::receive] keeps the
    first descriptor and [connected_stream] looks at it. *)
Definition stream_error_text (e : StreamError) : string :=
  match e with
  | NotStream => "sent a socket that is not a stream"
  | NotSocket => "sent a descriptor that is not a socket"
  | NotConnected => "sent a socket that is not a connected TCP stream"
  end.

Definition received_answer (descriptor : nat → option Descriptor) (script : list Recv) :
    option (result string (ascii * option (result string (IpAddr * Z)))) :=
  (λ r, match r.1 with
        | Err _ => Err "no answer"
        | Ok (m, None) => Ok (m, None)
        | Ok (m, Some fd) =>
            Ok (m, Some (match descriptor fd with
                         | None => Err (stream_error_text NotSocket)
                         | Some d => match connected_stream d with
                                     | Ok (_, a) => Ok (ip a, sport a)
                                     | Err e => Err (stream_error_text e)
                                     end
                         end))
        end) <$> receive script.

Definition message_script (interrupted : nat) (m : ascii * option Descriptor) : list Recv :=
  (replicate interrupted RInterrupted ++ [RMessage 1 m.1 false (Some (option_list (fd <$> m.2)))])%list.

Definition holds_fd (m : ascii * option Descriptor) (n : nat) : option Descriptor :=
  d ← m.2; if bool_decide (fd d = n) then Some d else None.

(** The end of a dial: a holder that is gone or broke the protocol loses its
    port and its connection. *)
Definition end_dial (x : Exchange) (rest : list (ascii * option Descriptor)) (r : Dial) : Exchange :=
  {| to_holder := to_holder x; to_bridge := rest; holder := holder x;
     bridge := match r with DialGone _ => Dropped | _ => AtRest end;
     dialled := dialled x; results := (results x ++ [r])%list |}.

Definition with_holder (x : Exchange) (bytes : string) (h : HolderPhase) : Exchange :=
  {| to_holder := bytes; to_bridge := to_bridge x; holder := h; bridge := bridge x; dialled := dialled x;
     results := results x |}.

Definition xstep (port : Z) (x : Exchange) (e : XEvent) : option Exchange :=
  match e, bridge x, holder x with
  | BridgeDials, AtRest, Over _ => Some (end_dial x (to_bridge x) (dial port true false (Err "no answer")))
  | BridgeDials, AtRest, _ =>
      Some {| to_holder := to_holder x +:+ DIAL; to_bridge := to_bridge x; holder := holder x; bridge := Awaiting;
              dialled := dialled x; results := results x |}
  | HolderReads, _, Reading got =>
      match to_holder x, bridge x with
      | String c rest, _ => Some (with_holder x rest (serve_byte port got c))
      | "", Dropped => Some (with_holder x "" (Over (Some (EndedHold port))))
      | "", _ => None
      end
  | HolderConnects v4 v6 fd, b, Connecting =>
      let a := connect_loopback port v4 v6 in
      match b with
      | Dropped =>
          Some {| to_holder := to_holder x; to_bridge := to_bridge x; holder := Over (Some (HoldIo port));
                  bridge := b; dialled := (dialled x ++ [a])%list; results := results x |}
      | _ =>
          let m := match a with
                   | Some a => (DIALED, Some {| fd := fd; sock_type := Some Stream; peer_addr := Some a |})
                   | None => (UNREACHABLE, None)
                   end in
          Some {| to_holder := to_holder x; to_bridge := (to_bridge x ++ [m])%list; holder := Reading "";
                  bridge := b; dialled := (dialled x ++ [a])%list; results := results x |}
      end
  | BridgeReceives interrupted, Awaiting, h =>
      match to_bridge x with
      | m :: rest =>
          answer ← received_answer (holds_fd m) (message_script interrupted m);
          Some (end_dial x rest (dial port true true answer))
      | [] => if is_over h then Some (end_dial x [] (dial port true true (Err "no answer"))) else None
      end
  | BridgeTimesOut, Awaiting, _ => Some (end_dial x (to_bridge x) (dial port true true (Err "no answer")))
  | HolderExits, _, Over _ => None
  | HolderExits, _, _ => Some (with_holder x (to_holder x) (Over None))
  | _, _, _ => None
  end.

Fixpoint xrun (port : Z) (x : Exchange) (events : list XEvent) : option Exchange :=
  match events with
  | [] => Some x
  | e :: rest => x' ← xstep port x e; xrun port x' rest
  end.

(** A hold that was just acknowledged. *)
Definition fresh_hold : Exchange :=
  {| to_holder := ""; to_bridge := []; holder := Reading ""; bridge := AtRest; dialled := []; results := [] |}.

(** [Holder::is_alive], taken between dials: nothing to read and not closed. *)
Definition is_alive (x : Exchange) : bool := bool_decide (to_bridge x = []) && negb (is_over (holder x)).

(** * Facts *)

(** The socket is in a directory the environment names, or in this user's own
    runtime directory if nobody else can write there, or nowhere. *)
Lemma arm_path_trusted xdg metadata self_uid :
  ∃ dir, arm_socket_path xdg metadata self_uid = join dir "forward/arm.sock" ∧
    (xdg = Some dir ∨ dir = "/dev/null" ∨
     ∃ uid m, self_uid = Some uid ∧ dir = "/run/user/" +:+ to_string uid ∧ metadata dir = Some m ∧
       dir_uid m = uid ∧ Z.land (dir_mode m) 18 = 0%Z).
Proof.
  unfold arm_socket_path, arm_socket_path_in. destruct (xdg ≫= non_empty) as [p|] eqn:Ex.
  - destruct xdg as [q|]; [|done]. simpl in Ex. unfold non_empty in Ex. destruct (is_empty q) eqn:Eq; [done|].
    injection Ex as ->. exists p. simpl. unfold non_empty. rewrite Eq. auto.
  - destruct (default_runtime_dir metadata self_uid) as [dir|] eqn:Ed; [|exists "/dev/null"; auto].
    unfold default_runtime_dir in Ed. destruct self_uid as [uid|]; [|done]. simpl in Ed. unfold trusted_runtime_dir in Ed.
    destruct (metadata _) as [m|] eqn:Em; [|done]. simpl in Ed.
    destruct (bool_decide _ && bool_decide _) eqn:Eb; [|done]. injection Ed as <-.
    apply andb_true_iff in Eb as [H1%bool_decide_eq_true H2%bool_decide_eq_true].
    exists ("/run/user/" +:+ to_string uid). split; [done|]. right. right. by exists uid, m.
Qed.

Definition at_now (now : Z) (s : string) : list (Z * byte_read) :=
  (λ c, (now, Got c)) <$> String.list_ascii_of_string s.

Lemma at_now_delivers now wait s : (0 < wait)%Z → delivers (now + wait) (at_now now s) s.
Proof. intros H. unfold at_now. induction s as [|c s IH]; constructor; [lia|done]. Qed.

Definition working : Channel := {| connected := true; timeout_set := true; written := true; timeouts_reset := true |}.

(** What a local process asked for is what the bridge read, and what it is
    told is what the bridge did. *)
Lemma local_requests_answered port ttl now arm_script hold_script path out :
  (0 <= port <= u16_max)%Z → (0 <= ttl <= u64_max)%Z → (now + REQUEST_LINE_READ_TIMEOUT <= Time.instant_max)%Z →
  delivers (now + ARM_REQUEST_TIMEOUT) arm_script (arm_line port ttl) →
  delivers (now + ARM_REQUEST_TIMEOUT) hold_script (hold_line port) →
  read_request now arm_script = Some (Some (Arm port ttl)) ∧
  read_request now hold_script = Some (Some (Hold port)) ∧
  (arm_one working (arming_reply out).1 EndOfFile = true ↔ out = OArm true ∨ out = OHeld) ∧
  hold path port working (arming_reply out).1 EndOfFile =
    match out with
    | OArm true | OHeld => Ok port
    | OBusy => Err (BusyPort port)
    | OUnsafe => Err (RefusedPort port)
    | _ => Err (Unanswered path)
    end.
Proof.
  intros Hp Ht Hn Ha Hh.
  destruct (bridge_lines_roundtrip port ttl now arm_script hold_script (at_now now (connect_line port))) as (H1 & H2 & _);
    [done|done|done|done|done|apply at_now_delivers; by vm_compute|].
  split_and!; [done|done| |].
  - destruct out as [[]| | | | | | | |]; vm_compute; split; intuition congruence.
  - by destruct out as [[]| | | | | | | |]; vm_compute.
Qed.

(** ** The exchange *)
Definition outcome (a : option SocketAddr) : Dial :=
  match a with Some a => DialConnected (ip a, sport a) | None => DialUnreachable end.

Definition answers_with (port : Z) (m : ascii * option Descriptor) (a : option SocketAddr) : Prop :=
  match a with
  | Some a => ∃ fd, m = (DIALED, Some {| fd := fd; sock_type := Some Stream; peer_addr := Some a |})
  | None => m = (UNREACHABLE, None)
  end.

Definition on_loopback (port : Z) (a : option SocketAddr) : Prop :=
  match a with Some a => is_loopback (ip a) = true ∧ sport a = port | None => True end.

(** A request on its way: some of it read, the rest in the connection. *)
Definition mid_request (x : Exchange) : Prop :=
  (∃ got, holder x = Reading got ∧ got +:+ to_holder x = DIAL ∧ (String.length got < 5)%nat) ∨
  (holder x = Connecting ∧ to_holder x = "").

Definition quiet (x : Exchange) : Prop := holder x = Reading "" ∧ to_holder x = "".

Definition gone_on_its_own (h : HolderPhase) : Prop :=
  match h with Over (Some (UnexpectedRequest _ _)) => False | Over _ => True | _ => False end.

(** [l] are the connects whose answers the bridge has seen, [k] the one it has
    not. *)
Definition phases_ok (x : Exchange) (port : Z) (l k : list (option SocketAddr)) : Prop :=
  match bridge x with
  | AtRest => k = [] ∧ to_bridge x = [] ∧ results x = outcome <$> l ∧ (quiet x ∨ gone_on_its_own (holder x))
  | Awaiting => results x = outcome <$> l ∧ Forall2 (answers_with port) (to_bridge x) k ∧
      ((k = [] ∧ mid_request x) ∨ (length k = 1 ∧ quiet x) ∨ gone_on_its_own (holder x))
  | Dropped => (∃ g, results x = ((outcome <$> l) ++ [DialGone g])%list) ∧
      ((k = [] ∧ mid_request x) ∨ quiet x ∨ gone_on_its_own (holder x))
  end.

Definition exchange_ok (port : Z) (x : Exchange) : Prop := ∃ l k,
  dialled x = (l ++ k)%list ∧ (length k ≤ 1)%nat ∧ Forall (on_loopback port) (dialled x) ∧ phases_ok x port l k.

Lemma receive_message n m : receive (message_script n m) = Some (received 1 m.1 false (option_list (fd <$> m.2))).
Proof. unfold message_script. by induction n as [|n IH]. Qed.

Lemma answered port n m a :
  answers_with port m a → on_loopback port a →
  ∃ answer, received_answer (holds_fd m) (message_script n m) = Some answer ∧ dial port true true answer = outcome a.
Proof.
  intros Ha Hl. unfold received_answer. rewrite receive_message. destruct a as [a|]; simpl in Ha.
  - destruct Ha as [f ->]. destruct Hl as [H1 H2]. eexists. split; [done|]. unfold holds_fd. simpl.
    rewrite bool_decide_eq_true_2 by done. cbn. rewrite H1. destruct (Z.eqb_spec (sport a) port); done.
  - subst m. eexists. by split.
Qed.

Lemma serve_byte_request port got c rest :
  got +:+ String c rest = DIAL → (String.length got < 5)%nat →
  (serve_byte port got c = Reading (got +:+ String c "") ∧ (String.length (got +:+ String c "") < 5)%nat) ∨
  (serve_byte port got c = Connecting ∧ rest = "").
Proof.
  intros E Hl. unfold serve_byte. change (String.length DIAL) with 5.
  assert (got +:+ String c rest = (got +:+ String c "") +:+ rest) as E' by (by rewrite <-append_assoc).
  destruct (Nat.ltb_spec (String.length (got +:+ String c "")) 5); [by left|]. right.
  assert (rest = "") as ->.
  { destruct rest as [|d rest]; [done|]. apply (f_equal String.length) in E.
    rewrite E', !length_append in E. rewrite length_append in H. simpl in *. lia. }
  rewrite bool_decide_eq_true_2 by done. done.
Qed.

Lemma holder_reads_ok port x got c rest :
  holder x = Reading got → to_holder x = String c rest → mid_request x →
  mid_request (with_holder x rest (serve_byte port got c)).
Proof.
  intros Hh Hb [(g & Hg & E & Hl)|[? _]]; [|congruence]. assert (g = got) as -> by congruence. rewrite Hb in E.
  destruct (serve_byte_request port got c rest E Hl) as [[-> Hl']|[-> ->]].
  - left. eexists. split; [done|]. split; [|done]. simpl. rewrite <-append_assoc. done.
  - by right.
Qed.

(** A step that nothing forced leaves both ends in touch. *)
Definition in_touch (x : Exchange) : Prop := bridge x ≠ Dropped ∧ is_over (holder x) = false.

Lemma exchange_dials port x x' : exchange_ok port x → xstep port x BridgeDials = Some x' → exchange_ok port x'.
Proof.
  intros (l & k & Hd & Hk & Hf & Hp) Hs. unfold phases_ok in Hp. unfold xstep in Hs.
  destruct (bridge x) eqn:Eb; [|done|done]. destruct Hp as (-> & Ht & Hr & Hq).
  destruct (holder x) as [got| |e] eqn:Eh; try injection Hs as <-.
  + exists l, []. split_and!; [done|done|done|]. unfold phases_ok. cbn [bridge results to_bridge to_holder holder].
    split; [done|]. rewrite Ht. split; [done|]. left. split; [done|]. left. exists got.
    destruct Hq as [[Hq1 Hq2]|[]]. assert (got = "") as -> by congruence. cbn [holder to_holder]. rewrite Hq2.
    split; [done|]. split; [done|simpl; lia].
  + destruct Hq as [[? ?]|[]]; congruence.
  + exists l, []. split_and!; [done|done|done|]. unfold phases_ok. cbn [bridge results end_dial dial negb holder].
    split; [eexists; by rewrite Hr|]. right. right. destruct Hq as [[? ?]|Hq]; [congruence|]. by rewrite Eh.
Qed.

Lemma exchange_reads port x x' : exchange_ok port x → xstep port x HolderReads = Some x' → exchange_ok port x'.
Proof.
  intros (l & k & Hd & Hk & Hf & Hp) Hs. unfold phases_ok in Hp. unfold xstep in Hs.
  destruct (holder x) as [got| |] eqn:Eh; [|by destruct (bridge x)|by destruct (bridge x)].
  assert (match to_holder x, bridge x with
          | String c rest, _ => Some (with_holder x rest (serve_byte port got c))
          | "", Dropped => Some (with_holder x "" (Over (Some (EndedHold port))))
          | "", _ => None
          end = Some x') as Hs' by (by destruct (bridge x)). clear Hs.
  assert (∀ c rest, to_holder x = String c rest → ¬ quiet x) as Hnq by (intros c rest Hc [_ ?]; congruence).
  exists l, k. destruct (to_holder x) as [|c rest] eqn:Et.
  { destruct (bridge x) eqn:Eb; [done|done|]. injection Hs' as <-. split_and!; [done|done|done|].
    unfold phases_ok. cbn [with_holder bridge results holder]. rewrite Eb. split; [apply Hp|]. by right; right. }
  injection Hs' as <-. split_and!; [done|done|done|]. unfold phases_ok. cbn [with_holder bridge results to_bridge].
  destruct (bridge x) eqn:Eb.
  + destruct Hp as (_ & _ & _ & [[? ?]|Hg]); [congruence|]. by destruct Hg.
  + destruct Hp as (Hr & Hm & [[-> Hq]|[[_ Hq]|Hg]]); [|by destruct (Hnq c rest eq_refl)|by destruct Hg].
    split; [done|]. split; [done|]. left. split; [done|]. by apply holder_reads_ok.
  + destruct Hp as (Hr & [[-> Hq]|[Hq|Hg]]); [|by destruct (Hnq c rest eq_refl)|by destruct Hg].
    split; [done|]. left. split; [done|]. by apply holder_reads_ok.
Qed.

Lemma exchange_connects port x v4 v6 f x' : exchange_ok port x → xstep port x (HolderConnects v4 v6 f) = Some x' → exchange_ok port x'.
Proof.
  intros (l & k & Hd & Hk & Hf & Hp) Hs. unfold phases_ok in Hp. unfold xstep in Hs.
  destruct (holder x) as [got| |] eqn:Eh; [by destruct (bridge x)| |by destruct (bridge x)].
  assert (on_loopback port (connect_loopback port v4 v6)) as Hl by (by destruct v4, v6).
  destruct (bridge x) eqn:Eb.
  + destruct Hp as (_ & _ & _ & [[? ?]|Hg]); [congruence|]. by destruct Hg.
  + destruct Hp as (Hr & Hm & [[-> Hq]|[[_ [? _]]|Hg]]); [|congruence|by destruct Hg].
    injection Hs as <-. exists l, [connect_loopback port v4 v6]. rewrite app_nil_r in Hd.
    split_and!; [cbn; by rewrite Hd|done|cbn; apply Forall_app; auto|].
    unfold phases_ok. cbn [bridge results to_bridge holder to_holder]. split; [done|]. split.
    * apply Forall2_nil_inv_r in Hm as ->. constructor; [|constructor]. destruct (connect_loopback port v4 v6); simpl; eauto.
    * right. left. split; [done|]. split; [done|]. cbn. destruct Hq as [(? & ? & _)|[_ ?]]; [congruence|done].
  + injection Hs as <-. destruct Hp as (Hr & [[-> Hq]|[[? _]|Hg]]); [|congruence|by destruct Hg].
    exists l, [connect_loopback port v4 v6]. rewrite app_nil_r in Hd.
    split_and!; [cbn; by rewrite Hd|done|cbn; apply Forall_app; auto|].
    unfold phases_ok. cbn [bridge results holder]. split; [done|]. by right; right.
Qed.

Lemma exchange_receives port x n x' : exchange_ok port x → xstep port x (BridgeReceives n) = Some x' → exchange_ok port x'.
Proof.
  intros (l & k & Hd & Hk & Hf & Hp) Hs. unfold phases_ok in Hp. unfold xstep in Hs.
  destruct (bridge x) eqn:Eb; [done| |done]. destruct Hp as (Hr & Hm & Hq).
  assert (quiet x ∨ gone_on_its_own (holder x) ∨ (k = [] ∧ mid_request x)) as Hq' by tauto. clear Hq.
  destruct (to_bridge x) as [|m rest] eqn:Et.
  { apply Forall2_nil_inv_l in Hm as ->. destruct (is_over (holder x)) eqn:Eo; [|done]. injection Hs as <-.
    exists l, []. split_and!; [done|done|done|]. unfold phases_ok. cbn [end_dial dial negb bridge results holder].
    split; [eexists; by rewrite Hr|]. unfold quiet, mid_request in *. cbn [end_dial holder to_holder]. tauto. }
  destruct k as [|a [|? ?]]; [by apply Forall2_nil_inv_r in Hm| |simpl in Hk; lia].
  apply Forall2_cons_1 in Hm as [Ha Hm]. apply Forall2_nil_inv_r in Hm as ->.
  rewrite Hd, Forall_app, Forall_singleton in Hf. destruct Hf as [Hf Hfa].
  destruct (answered port n m a Ha Hfa) as (answer & Hans & Hres). rewrite Hans in Hs. cbn [mbind option_bind] in Hs. rewrite Hres in Hs. injection Hs as <-.
  exists (l ++ [a])%list, []. rewrite app_nil_r. split_and!; [done|simpl; lia|cbn; rewrite Hd; apply Forall_app; by rewrite Forall_singleton|].
  unfold phases_ok. cbn [end_dial bridge results to_bridge holder].
  assert (match outcome a with DialGone _ => Dropped | _ => AtRest end = AtRest) as -> by (by destruct a).
  split; [done|]. split; [done|]. split; [by rewrite Hr, fmap_app|]. unfold quiet in *. cbn [end_dial holder to_holder].
  destruct Hq' as [?|[?|[? _]]]; [by left|by right|done].
Qed.

Lemma exchange_times_out port x x' : exchange_ok port x → xstep port x BridgeTimesOut = Some x' → exchange_ok port x'.
Proof.
  intros (l & k & Hd & Hk & Hf & Hp) Hs. unfold phases_ok in Hp. unfold xstep in Hs.
  destruct (bridge x) eqn:Eb; [done| |done]. injection Hs as <-. destruct Hp as (Hr & Hm & Hq).
  exists l, k. split_and!; [done|done|done|]. unfold phases_ok. cbn [end_dial dial negb bridge results holder].
  split; [eexists; by rewrite Hr|]. destruct Hq as [?|[[_ ?]|?]]; [by left|by right; left|by right; right].
Qed.

Lemma exchange_exits port x x' : exchange_ok port x → xstep port x HolderExits = Some x' → exchange_ok port x'.
Proof.
  intros (l & k & Hd & Hk & Hf & Hp) Hs. unfold phases_ok in Hp. unfold xstep in Hs.
  assert (x' = with_holder x (to_holder x) (Over None)) as ->.
  { destruct (holder x), (bridge x); by simplify_eq. }
  exists l, k. split_and!; [done|done|done|]. unfold phases_ok in *. cbn [with_holder bridge results to_bridge holder].
  destruct (bridge x); [|destruct Hp as (? & ? & _); by split_and!; [..|right; right]|destruct Hp; split; [done|by right; right]].
  destruct Hp as (? & ? & ? & _). split_and!; [done|done|done|by right].
Qed.

Lemma exchange_step port x e x' : exchange_ok port x → xstep port x e = Some x' → exchange_ok port x'.
Proof.
  destruct e; eauto using exchange_dials, exchange_reads, exchange_connects, exchange_receives, exchange_times_out,
    exchange_exits.
Qed.

Lemma exchange_run port x events x' : exchange_ok port x → xrun port x events = Some x' → exchange_ok port x'.
Proof.
  revert x. induction events as [|e events IH]; intros x Hx; simpl; [by intros [= <-]|].
  destruct (xstep port x e) as [x1|] eqn:E; [|done]. cbn. apply IH. by eapply exchange_step.
Qed.

(** A holder that is not gone on its own is in the middle of the protocol. *)
Lemma holder_not_broken port x p r : exchange_ok port x → holder x ≠ Over (Some (UnexpectedRequest p r)).
Proof.
  intros (l & k & _ & _ & _ & Hp) He. unfold phases_ok, quiet, mid_request in Hp. rewrite He in Hp.
  destruct (bridge x); naive_solver.
Qed.

Lemma stays_in_touch port x e x' :
  exchange_ok port x → xstep port x e = Some x' → e ≠ BridgeTimesOut → e ≠ HolderExits → in_touch x → in_touch x'.
Proof.
  intros Hx Hs H1 H2 [Hb Ho]. assert (exchange_ok port x') as Hx' by (by eapply exchange_step).
  unfold xstep in Hs. destruct e as [| |v4 v6 f|n| |]; [| | | |done|done].
  - destruct (bridge x) eqn:Eb; [|done|done]. destruct (holder x) eqn:Eh; simplify_eq; split; simpl; by rewrite ?Eh.
  - destruct (holder x) as [got| |] eqn:Eh; [|by destruct (bridge x)|done].
    destruct (to_holder x) as [|c rest]; [by destruct (bridge x)|].
    assert (x' = with_holder x rest (serve_byte port got c)) as -> by (destruct (bridge x); congruence).
    split; [done|]. cbn [with_holder holder]. pose proof (λ p r, holder_not_broken port _ p r Hx') as Hn.
    cbn [with_holder holder] in Hn. unfold serve_byte in *. repeat case_match; try done. by destruct (Hn port (from_utf8_lossy (got +:+ String c ""))).
  - destruct (holder x) eqn:Eh; [by destruct (bridge x)| |done]. destruct (bridge x); [| |done]; by simplify_eq.
  - destruct (bridge x) eqn:Eb; [done| |done]. destruct Hx as (l & k & Hd & Hk & Hf & Hp). unfold phases_ok in Hp.
    rewrite Eb in Hp. destruct Hp as (_ & Hm & _). destruct (to_bridge x) as [|m rest]; [by rewrite Ho in Hs|].
    destruct k as [|a k]; [by apply Forall2_nil_inv_r in Hm|]. apply Forall2_cons_1 in Hm as [Ha _].
    rewrite Hd, Forall_app, Forall_cons in Hf. destruct Hf as (_ & Hfa & _).
    destruct (answered port n m a Ha Hfa) as (answer & Hans & Hres). rewrite Hans in Hs. cbn [mbind option_bind] in Hs.
    rewrite Hres in Hs. injection Hs as <-. split; [|done]. by destruct a.
Qed.

Lemma stays_in_touch_run port x events x' :
  exchange_ok port x → xrun port x events = Some x' → BridgeTimesOut ∉ events → HolderExits ∉ events →
  in_touch x → in_touch x'.
Proof.
  revert x. induction events as [|e events IH]; intros x Hx; simpl; [by intros [= <-]|].
  destruct (xstep port x e) as [x1|] eqn:E; [|done]. cbn. intros Hr H1 H2 Ht. rewrite not_elem_of_cons in H1, H2.
  eapply IH; [by eapply exchange_step|done|apply H1|apply H2|]. eapply stays_in_touch; [done|done|..|done]; naive_solver.
Qed.

(** C28: a held port leads to its holder's own loopback.  However the steps of
    the bridge and of a holder interleave over their connection: the dials that
    succeed are, one for one and in order, the connects the holder made, each to
    the held port on its loopback, and those that fail are the ones where
    nothing listened there; a holder that has not exited is never sent anything
    it cannot read; between dials the bridge finds it alive; and as long as no
    dial timed out and the holder did not exit, it is never given up. *)
Theorem held_dials_in_step port events x :
  xrun port fresh_hold events = Some x →
  (∃ seen gave_up, seen `prefix_of` dialled x ∧ results x = ((outcome <$> seen) ++ gave_up)%list ∧
     (bridge x ≠ Dropped → gave_up = []) ∧ (length (dialled x) <= S (length seen))%nat ∧
     Forall (on_loopback port) (dialled x)) ∧
  (∀ p r, holder x ≠ Over (Some (UnexpectedRequest p r))) ∧
  (bridge x = AtRest → is_over (holder x) = false → is_alive x = true) ∧
  (BridgeTimesOut ∉ events → HolderExits ∉ events → bridge x ≠ Dropped ∧ is_over (holder x) = false).
Proof.
  intros Hrun.
  assert (exchange_ok port fresh_hold) as H0.
  { exists [], []. split_and!; [done|simpl; lia|constructor|]. unfold phases_ok, quiet. simpl. tauto. }
  assert (exchange_ok port x) as Hx by (by eapply exchange_run). split_and!.
  - destruct Hx as (l & k & Hd & Hk & Hf & Hp). exists l. unfold phases_ok in Hp.
    assert (l `prefix_of` dialled x) as Hpre by (rewrite Hd; by eexists).
    assert (length (dialled x) <= S (length l))%nat as Hlen by (rewrite Hd, length_app; lia).
    destruct (bridge x).
    + exists []. rewrite app_nil_r. naive_solver.
    + exists []. rewrite app_nil_r. naive_solver.
    + destruct Hp as ([g Hr] & _). exists [DialGone g]. naive_solver.
  - intros p r. by eapply holder_not_broken.
  - intros Hb Ho. destruct Hx as (l & k & _ & _ & _ & Hp). unfold phases_ok in Hp. rewrite Hb in Hp.
    unfold is_alive. destruct Hp as (_ & -> & _). by rewrite Ho.
  - intros H1 H2. by apply (stays_in_touch_run port fresh_hold events).
Qed.

(** [arm] reports success only when every port was armed, and there was one. *)
Lemma arm_all_armed one ports : arm one ports = true ↔ ports ≠ [] ∧ ∀ p, p ∈ ports → one p = true.
Proof.
  unfold arm. assert (∀ b l, foldl (λ all port, all && one port) b l = b && forallb one l) as Hf.
  { intros b l. revert b. induction l as [|p l IH]; intros b; simpl; [by rewrite andb_true_r|]. by rewrite IH, andb_assoc. }
  rewrite Hf, andb_true_iff, negb_true_iff, bool_decide_eq_false, forallb_elem. done.
Qed.

(** * Instances *)
Lemma held_dials_in_step_witness :
  ∃ x, xrun 5173 fresh_hold [BridgeDials; HolderReads; HolderReads; HolderReads; HolderReads; HolderReads;
                             HolderConnects false true 7; BridgeReceives 1] = Some x ∧
    results x = [DialConnected (LOCALHOST_V6, 5173%Z)] ∧ is_alive x = true.
Proof.
  destruct (xrun _ _ _) as [x|] eqn:E; [|by vm_compute in E]. exists x. split; [done|].
  assert (x = {| to_holder := ""; to_bridge := []; holder := Reading ""; bridge := AtRest;
                 dialled := [Some {| ip := LOCALHOST_V6; sport := 5173 |}];
                 results := [DialConnected (LOCALHOST_V6, 5173%Z)] |}) as -> by (vm_compute in E; by injection E as <-).
  split; [done|]. destruct (held_dials_in_step _ _ _ E) as (_ & _ & H & _). by apply H.
Defined.

Lemma local_requests_answered_example :
  read_request 0 (at_once (hold_line 5173)) = Some (Some (Hold 5173)) ∧
  hold "/run/user/0/forward/arm.sock" 5173 working (arming_reply OBusy).1 EndOfFile = Err (BusyPort 5173).
Proof. by vm_compute. Qed.
