(* ===== verification/Channels.v ===== *)
(** The two raw channels of forward: PC/SC ([crates/forward/src/pcsc.rs],
    [pcsc/devbox.rs], [pcsc/laptop.rs]) and PulseAudio ([pulse.rs],
    [pulse/devbox.rs], [pulse/laptop.rs]), with the connection limit of
    [bridge/limit.rs], the socket options of [pipe.rs] and the socket's parent
    directory of [socket.rs].

    Each end's [spawn] decides whether and where it serves.  A listener is a
    state machine of its accept loop and its session threads, whose steps may
    interleave in any order; a channel is a client, a session of the devbox, a
    session of the laptop and the local server, chained by what each writes
    the next. *)

From stdpp Require Import prelude strings list gmap.
From Stdlib Require Import ZArith Lia Ascii.
From S2P Require Import Prelude Text Paths Peers Bridge Sockets Relay.

Local Open Scope string_scope.

(** * Socket options *)
Inductive SockOpt : Type :=
| KeepAlive | TcpKeepIdle (secs : Z) | TcpKeepInterval (secs : Z) | TcpKeepCount (probes : Z) | NoDelay.

#[global] Instance SockOpt_eq_dec : EqDecision SockOpt.
Proof. solve_decision. Defined.

(** The options set, in order, until one is refused. *)
Fixpoint set_options (accepts : SockOpt → bool) (opts so_far : list SockOpt) : list SockOpt * bool :=
  match opts with
  | [] => (so_far, true)
  | o :: rest => if accepts o then set_options accepts rest (so_far ++ [o])%list else (so_far, false)
  end.

Definition keepalive_options : list SockOpt := [KeepAlive; TcpKeepIdle 60; TcpKeepInterval 10; TcpKeepCount 6].

Definition keepalive (accepts : SockOpt → bool) : list SockOpt * bool := set_options accepts keepalive_options [].

(** [pulse::tune]. *)
Definition tune (accepts : SockOpt → bool) : list SockOpt * bool :=
  let '(set, ok) := keepalive accepts in
  if ok : bool then set_options accepts [NoDelay] set else (set, false).

Inductive ChannelKind : Type := Pcsc | Pulse.

#[global] Instance ChannelKind_eq_dec : EqDecision ChannelKind.
Proof. solve_decision. Defined.

Definition configure (k : ChannelKind) : (SockOpt → bool) → list SockOpt * bool :=
  match k with Pcsc => keepalive | Pulse => tune end.

Definition wanted_options (k : ChannelKind) : list SockOpt :=
  match k with Pcsc => keepalive_options | Pulse => (keepalive_options ++ [NoDelay])%list end.

(** * Starting a channel *)

(** [Path::parent]: the path without its last component, when it has one. *)
Definition parent (p : string) : option (list Component) :=
  match last (components p) with
  | None | Some RootDir => None
  | Some _ => Some (removelast (components p))
  end.

Inductive FsOp : Type := CreateDirAll (dir : list Component) | SetMode (dir : list Component) (mode : Z).

(** [create_dir_all] and [set_permissions] answer [made] and [restricted]. *)
Definition prepare_private_parent (made restricted : result Z ()) (path : string) : result Z () * list FsOp :=
  match parent path with
  | None => (Ok (), [])
  | Some dir =>
      match made with
      | Err e => (Err e, [CreateDirAll dir])
      | Ok () => (restricted, [CreateDirAll dir; SetMode dir 448])
      end
  end.

(** What a machine answers while a channel starts. *)
Record Host : Type := {
  HOME : option string;
  XDG_RUNTIME_DIR : option string;
  made : result Z ();
  restricted : result Z ();
  umask : Z;
  seen : Bind.Seen;
  tcp_bind : result Z ();
  thread : result Z ();
}.

(** [PcscError] and [PulseError] have the same cases; [NoDirectory] is
    [PcscError::Home] and [PulseError::RuntimeDir]. *)
Inductive ChannelError : Type :=
| BindError (address : string)
| SpawnError
| SocketError (path : string)
| NoDirectory.

Inductive Quiet : Type := NoPeer | DisabledPort.

(** What a successful [spawn] left running: nothing, the devbox's socket with
    the address its sessions dial, or the laptop's listener with the path its
    sessions connect to. *)
Inductive Served (A : Type) : Type := NotServed (why : Quiet) | Serving (s : A).
Arguments NotServed {A} why.
Arguments Serving {A} s.

Definition absolute (v : option string) : option string :=
  v ≫= λ p, if is_absolute p then Some p else None.

(** [listener_spawn_result]. *)
Definition listener_spawn_result {A} (h : Host) (s : A) : result ChannelError (Served A) :=
  match thread h with Ok () => Ok (Serving s) | Err _ => Err SpawnError end.

Section spawning.
Context (parse : string → option IpAddr) (display : IpAddr → string).

(** ** Devbox *)
Record UnixServer : Type := { at_path : string; socket_mode : Z; dials : IpAddr * Z }.

Definition pcsc_socket_path (h : Host) : option string :=
  (λ home, join home ".pcscd/pcscd.comm") <$> absolute (HOME h).

Definition runtime_dir (h : Host) : option string := absolute (XDG_RUNTIME_DIR h).

Definition pulse_socket_path (h : Host) : option string :=
  (λ dir, join dir "forward/pulse.sock") <$> runtime_dir h.

(** [crate::socket::bind] at [path], then the accept thread. *)
Definition bind_and_serve (h : Host) (path : string) (upstream : IpAddr * Z) :
    result ChannelError (Served UnixServer) :=
  match (Bind.bind (umask h) (seen h)).1.1 with
  | Err _ => Err (SocketError path)
  | Ok mode => listener_spawn_result h {| at_path := path; socket_mode := mode; dials := upstream |}
  end.

Definition pcsc_devbox_spawn (h : Host) (cfg : Config) : result ChannelError (Served UnixServer) :=
  match peer_ip parse cfg with
  | Err _ => Err SpawnError
  | Ok None => Ok (NotServed NoPeer)
  | Ok (Some peer) =>
      if (pcsc_port cfg =? 0)%Z then Ok (NotServed DisabledPort) else
      path ← ok_or NoDirectory (pcsc_socket_path h);
      _ ← match parent path with
          | Some _ => match made h with Ok () => Ok () | Err _ => Err (SocketError path) end
          | None => Ok ()
          end;
      bind_and_serve h path (peer, pcsc_port cfg)
  end.

Definition pulse_devbox_spawn (h : Host) (cfg : Config) : result ChannelError (Served UnixServer) :=
  match peer_ip parse cfg with
  | Err _ => Err SpawnError
  | Ok None => Ok (NotServed NoPeer)
  | Ok (Some peer) =>
      if (pulse_port cfg =? 0)%Z then Ok (NotServed DisabledPort) else
      path ← ok_or NoDirectory (pulse_socket_path h);
      _ ← match (prepare_private_parent (made h) (restricted h) path).1 with
          | Ok () => Ok ()
          | Err _ => Err (SocketError path)
          end;
      bind_and_serve h path (peer, pulse_port cfg)
  end.

(** ** Laptop *)
Record TcpServer : Type := { bound : IpAddr * Z; connects : string }.

Definition LAPTOP_PCSCD_SOCKET : string := "/run/pcscd/pcscd.comm".

Definition upstream_path (h : Host) : option string :=
  (λ dir, join dir "pulse/native") <$> runtime_dir h.

(** [TcpListener::bind] on the configured address, then the accept thread. *)
Definition bind_and_listen (h : Host) (cfg : Config) (port : Z) (upstream : string) :
    result ChannelError (Served TcpServer) :=
  match listen_ip parse cfg with
  | Err _ => Err (BindError (listen cfg))
  | Ok ip =>
      match tcp_bind h with
      | Err _ => Err (BindError (display ip +:+ ":" +:+ to_string port))
      | Ok () => listener_spawn_result h {| bound := (ip, port); connects := upstream |}
      end
  end.

Definition pcsc_laptop_spawn (h : Host) (cfg : Config) : result ChannelError (Served TcpServer) :=
  if (pcsc_port cfg =? 0)%Z then Ok (NotServed DisabledPort)
  else bind_and_listen h cfg (pcsc_port cfg) LAPTOP_PCSCD_SOCKET.

Definition pulse_laptop_spawn (h : Host) (cfg : Config) : result ChannelError (Served TcpServer) :=
  if negb (has_peers cfg) then Ok (NotServed NoPeer) else
  if (pulse_port cfg =? 0)%Z then Ok (NotServed DisabledPort) else
  upstream ← ok_or NoDirectory (upstream_path h);
  bind_and_listen h cfg (pulse_port cfg) upstream.

(** Who the laptop's handler admits. *)
Definition admitted (k : ChannelKind) (cfg : Config) : IpAddr → bool :=
  match k with Pcsc => authorized parse cfg | Pulse => authorized_remote parse cfg end.

End spawning.

(** * Sessions *)
Inductive Outcome : Type :=
| NoAddress
| RefusedPeer
| Unreachable
| Untuned
| Uncloned
| Finished (r : result Z ()).

Inductive Phase : Type :=
| Addressing
| Reaching
| Tuning
| Cloning
| Piping
| Over (o : Outcome).

#[global] Instance Phase_eq_dec : EqDecision Phase.
Proof.
  assert (EqDecision (result Z ())) by solve_decision.
  assert (EqDecision Outcome) by solve_decision. solve_decision.
Defined.

(** A session: whose connection it is (as far as it was asked), how far its
    handler got, whether it reached its upstream, the options set on the TCP
    leg, the pipe once both streams are cloned, and whether the permit its
    thread owns is still held. *)
Record Session : Type := {
  remote : option IpAddr;
  phase : Phase;
  reached : bool;
  options : list SockOpt;
  pipe : option Pipe.Pipe;
  permit : bool;
}.

(** What the system answers the handler's next call. *)
Inductive Answer : Type :=
| PeerAddr (addr : option IpAddr)
| Connected (ok : bool)
| Options (accepts : SockOpt → bool)
| Cloned (ok : bool)
| Piped (d : Pipe.Dir) (e : Pipe.PipeEvent).

Definition at_phase (s : Session) (p : Phase) : Session :=
  {| remote := remote s; phase := p; reached := reached s; options := options s; pipe := pipe s; permit := permit s |}.

Definition finish (s : Session) (o : Outcome) : Session := at_phase s (Over o).

(** The part both ends' handlers share, from the upstream connection to the
    end of [bidirectional]. *)
Definition relay_step (k : ChannelKind) (s : Session) (a : Answer) : option Session :=
  match phase s, a with
  | Reaching, Connected ok =>
      Some (if ok : bool
            then {| remote := remote s; phase := Tuning; reached := true; options := options s;
                    pipe := pipe s; permit := permit s |}
            else finish s Unreachable)
  | Tuning, Options accepts =>
      let '(set, ok) := configure k accepts in
      Some {| remote := remote s; phase := if ok : bool then Cloning else Over Untuned; reached := reached s;
              options := set; pipe := pipe s; permit := permit s |}
  | Cloning, Cloned ok =>
      Some (if ok : bool
            then {| remote := remote s; phase := Piping; reached := reached s; options := options s;
                    pipe := Some Pipe.fresh_pipe; permit := permit s |}
            else finish s Uncloned)
  | Piping, Piped d e =>
      p ← pipe s; p' ← Pipe.half_step p d e;
      Some {| remote := remote s;
              phase := match Pipe.bidirectional p' with Some r => Over (Finished r) | None => Piping end;
              reached := reached s; options := options s; pipe := Some p'; permit := permit s |}
  | _, _ => None
  end.

(** The devboxes' [handle_with_dial]. *)
Definition pcsc_devbox_handle : Session → Answer → option Session := relay_step Pcsc.
Definition pulse_devbox_handle : Session → Answer → option Session := relay_step Pulse.

Definition devbox_step (k : ChannelKind) : Session → Answer → option Session :=
  match k with Pcsc => pcsc_devbox_handle | Pulse => pulse_devbox_handle end.

(** The laptops' [handle] and [handle_from], who is admitted apart. *)
Definition laptop_step (allows : IpAddr → bool) (k : ChannelKind) (s : Session) (a : Answer) : option Session :=
  match phase s, a with
  | Addressing, PeerAddr None => Some (finish s NoAddress)
  | Addressing, PeerAddr (Some addr) =>
      Some {| remote := Some addr; phase := if allows addr then Reaching else Over RefusedPeer; reached := reached s;
              options := options s; pipe := pipe s; permit := permit s |}
  | _, _ => relay_step k s a
  end.

Definition pcsc_laptop_handle (parse : string → option IpAddr) (cfg : Config) : Session → Answer → option Session :=
  laptop_step (authorized parse cfg) Pcsc.
Definition pulse_laptop_handle (parse : string → option IpAddr) (cfg : Config) : Session → Answer → option Session :=
  laptop_step (authorized_remote parse cfg) Pulse.

Definition session_new (p : Phase) : Session :=
  {| remote := None; phase := p; reached := false; options := []; pipe := None; permit := true |}.

Definition devbox_session : Session := session_new Reaching.
Definition laptop_session : Session := session_new Addressing.

(** The bytes a session has written in a direction. *)
Fixpoint bytes_of (d : Pipe.Dir) (l : list (Pipe.Dir * string)) : string :=
  match l, d with
  | [], _ => ""
  | (Pipe.Outbound, c) :: rest, Pipe.Outbound => c +:+ bytes_of d rest
  | (Pipe.Inbound, c) :: rest, Pipe.Inbound => c +:+ bytes_of d rest
  | _ :: rest, _ => bytes_of d rest
  end.

Definition carried (s : Session) (d : Pipe.Dir) : string :=
  match pipe s with Some p => bytes_of d (Pipe.delivered p) | None => "" end.

(** * Listeners *)
Record Listener : Type := { active : nat; sessions : gmap nat Session; accepted : nat }.

Definition listener_start : Listener := {| active := 0; sessions := ∅; accepted := 0 |}.

(** [Arrives]: a connection, and whether its thread could be started;
    [AcceptFails]: the loop waits and goes on; [Answers]: a session thread
    goes on; [Dropped]: one that ended drops its permit. *)
Inductive LEvent : Type :=
| Arrives (started : bool)
| AcceptFails
| Answers (id : nat) (a : Answer)
| Dropped (id : nat).

(** [ConnectionPermit::drop]. *)
Definition release (n : nat) : nat := pred n.

Definition drop_permit (s : Session) : Session :=
  {| remote := remote s; phase := phase s; reached := reached s; options := options s; pipe := pipe s; permit := false |}.

Section listener.
Context (step : Session → Answer → option Session) (new : Session).

(** The accept loops of the four ends: they differ in [new], the state a
    handler starts in, and in [step], the handler. *)
Definition lstep (l : Listener) (e : LEvent) : option Listener :=
  match e with
  | Arrives started =>
      match acquire (active l) with
      | None => Some {| active := active l; sessions := sessions l; accepted := S (accepted l) |}
      | Some n =>
          if started : bool
          then Some {| active := n; sessions := <[accepted l := new]> (sessions l); accepted := S (accepted l) |}
          else Some {| active := release n; sessions := sessions l; accepted := S (accepted l) |}
      end
  | AcceptFails => Some l
  | Answers id a =>
      s ← sessions l !! id; s' ← step s a;
      Some {| active := active l; sessions := <[id := s']> (sessions l); accepted := accepted l |}
  | Dropped id =>
      s ← sessions l !! id;
      match phase s, permit s with
      | Over _, true =>
          Some {| active := release (active l); sessions := <[id := drop_permit s]> (sessions l); accepted := accepted l |}
      | _, _ => None
      end
  end.

End listener.

Definition pcsc_devbox_accept_loop : Listener → LEvent → option Listener := lstep pcsc_devbox_handle devbox_session.
Definition pulse_devbox_accept_loop : Listener → LEvent → option Listener := lstep pulse_devbox_handle devbox_session.
Definition pcsc_laptop_accept_loop (parse : string → option IpAddr) (cfg : Config) : Listener → LEvent → option Listener :=
  lstep (pcsc_laptop_handle parse cfg) laptop_session.
Definition pulse_laptop_accept_loop (parse : string → option IpAddr) (cfg : Config) : Listener → LEvent → option Listener :=
  lstep (pulse_laptop_handle parse cfg) laptop_session.

Definition laptop_accept_loop (parse : string → option IpAddr) (k : ChannelKind) (cfg : Config) :
    Listener → LEvent → option Listener :=
  match k with Pcsc => pcsc_laptop_accept_loop parse cfg | Pulse => pulse_laptop_accept_loop parse cfg end.

(** A history of a loop and its sessions. *)
Fixpoint lrun (loop : Listener → LEvent → option Listener) (l : Listener) (events : list LEvent) : option Listener :=
  match events with
  | [] => Some l
  | e :: rest => l' ← loop l e; lrun loop l' rest
  end.

Definition devbox_accept_loop (k : ChannelKind) : Listener → LEvent → option Listener :=
  match k with Pcsc => pcsc_devbox_accept_loop | Pulse => pulse_devbox_accept_loop end.

(** * Channels *)

(** Client, devbox session, laptop session, server; what the two ends sent,
    and whether they closed their writing half. *)
Record Channel : Type := {
  client_sent : string;
  client_shut : bool;
  near : Session;
  far : Session;
  server_sent : string;
  server_shut : bool;
}.

Inductive ChEvent : Type :=
| ClientSends (chunk : string)
| ClientShuts
| ServerSends (chunk : string)
| ServerShuts
| Near (a : Answer)
| Far (a : Answer).

Definition channel_start : Channel := {|
  client_sent := ""; client_shut := false; near := devbox_session; far := laptop_session;
  server_sent := ""; server_shut := false |}.

(** What a session's neighbour can still read from it: nothing more once the
    session shut the way there, or ended without opening its pipe. *)
Definition writes_over (s : Session) (d : Pipe.Dir) : bool :=
  match pipe s with
  | Some p => Pipe.shut_write (Pipe.to p d)
  | None => match phase s with Over _ => true | _ => false end
  end.

(** A read of a direction's source: bytes it has sent and that were not read
    yet; its end only when they all were, or when the reader itself was shut. *)
Definition readable (s : Session) (d : Pipe.Dir) (source : string) (source_over : bool) (e : Pipe.PipeEvent) : bool :=
  match e with
  | Pipe.Copied chunk => starts_with source (carried s d +:+ chunk)
  | Pipe.Eof =>
      (bool_decide (carried s d = source) && source_over) ||
      match pipe s with Some p => Pipe.shut_read (Pipe.from p d) | None => false end
  | Pipe.Failed _ => true
  end.

Definition near_reads (c : Channel) (a : Answer) : bool :=
  match a with
  | Piped Pipe.Outbound e => readable (near c) Pipe.Outbound (client_sent c) (client_shut c) e
  | Piped Pipe.Inbound e => readable (near c) Pipe.Inbound (carried (far c) Pipe.Inbound) (writes_over (far c) Pipe.Inbound) e
  | _ => true
  end.

Definition far_reads (c : Channel) (a : Answer) : bool :=
  match a with
  | Piped Pipe.Outbound e => readable (far c) Pipe.Outbound (carried (near c) Pipe.Outbound) (writes_over (near c) Pipe.Outbound) e
  | Piped Pipe.Inbound e => readable (far c) Pipe.Inbound (server_sent c) (server_shut c) e
  | _ => true
  end.

Definition chstep (allows : IpAddr → bool) (k : ChannelKind) (c : Channel) (e : ChEvent) : option Channel :=
  match e with
  | ClientSends chunk =>
      if client_shut c then None
      else Some {| client_sent := client_sent c +:+ chunk; client_shut := false; near := near c; far := far c;
                   server_sent := server_sent c; server_shut := server_shut c |}
  | ClientShuts =>
      Some {| client_sent := client_sent c; client_shut := true; near := near c; far := far c;
              server_sent := server_sent c; server_shut := server_shut c |}
  | ServerSends chunk =>
      if server_shut c || negb (reached (far c)) then None
      else Some {| client_sent := client_sent c; client_shut := client_shut c; near := near c; far := far c;
                   server_sent := server_sent c +:+ chunk; server_shut := false |}
  | ServerShuts =>
      Some {| client_sent := client_sent c; client_shut := client_shut c; near := near c; far := far c;
              server_sent := server_sent c; server_shut := true |}
  | Near a =>
      if near_reads c a
      then s ← devbox_step k (near c) a;
           Some {| client_sent := client_sent c; client_shut := client_shut c; near := s; far := far c;
                   server_sent := server_sent c; server_shut := server_shut c |}
      else None
  | Far a =>
      if reached (near c) && far_reads c a
      then s ← laptop_step allows k (far c) a;
           Some {| client_sent := client_sent c; client_shut := client_shut c; near := near c; far := s;
                   server_sent := server_sent c; server_shut := server_shut c |}
      else None
  end.

Fixpoint chrun (allows : IpAddr → bool) (k : ChannelKind) (c : Channel) (events : list ChEvent) : option Channel :=
  match events with
  | [] => Some c
  | e :: rest => c' ← chstep allows k c e; chrun allows k c' rest
  end.

(** * Lemmas *)

Lemma set_options_all accepts opts done0 set :
  set_options accepts opts done0 = (set, true) → set = (done0 ++ opts)%list.
Proof.
  revert done0. induction opts as [|o opts IH]; intros done0; cbn [set_options].
  - intros [= <-]. by rewrite app_nil_r.
  - destruct (accepts o); [|done]. intros ->%IH. by rewrite <-app_assoc.
Qed.

Lemma configure_wanted k accepts set : configure k accepts = (set, true) → set = wanted_options k.
Proof.
  destruct k; cbn [configure wanted_options]; [apply set_options_all|].
  unfold tune, keepalive. destruct (set_options accepts keepalive_options []) as [set0 [|]] eqn:E; [|done].
  apply set_options_all in E as ->. apply set_options_all.
Qed.

Lemma bytes_of_snoc d l d' c :
  bytes_of d (l ++ [(d', c)])%list =
  bytes_of d l +:+ (match d, d' with
                    | Pipe.Outbound, Pipe.Outbound | Pipe.Inbound, Pipe.Inbound => c
                    | _, _ => ""
                    end).
Proof.
  induction l as [|[[] c'] l IH]; [by destruct d, d'; cbn [app bytes_of]; rewrite ?append_nil_r|..];
    destruct d; cbn [app bytes_of]; rewrite IH; [by rewrite append_assoc|done|done|by rewrite append_assoc].
Qed.

(** What a session is bound by: whoever it reached its upstream for passes
    [who], and it pipes only with all options set. *)
Definition checked (p : Phase) : bool := match p with Reaching | Tuning | Cloning | Piping => true | _ => false end.
Definition before_pipe (p : Phase) : bool := match p with Piping | Over _ => false | _ => true end.

Definition session_ok (who : option IpAddr → Prop) (k : ChannelKind) (s : Session) : Prop :=
  (reached s = true ∨ checked (phase s) = true ∨ is_Some (pipe s) → who (remote s)) ∧
  (phase s = Cloning ∨ is_Some (pipe s) → options s = wanted_options k) ∧
  (phase s = Addressing → reached s = false) ∧
  (before_pipe (phase s) = true → pipe s = None) ∧
  (∀ p, pipe s = Some p → Pipe.pipe_ok p).

Lemma relay_step_ok who k s a s' : session_ok who k s → relay_step k s a = Some s' → session_ok who k s'.
Proof.
  destruct s as [r ph re op pi pe]. unfold session_ok, relay_step, finish, at_phase; cbn [phase reached remote options pipe].
  intros (H1 & H2 & H0 & H3 & H4). destruct ph, a; try done; cbn [checked before_pipe] in *.
  - rewrite (H3 eq_refl) in *. destruct ok; intros [= <-]; simpl; naive_solver.
  - rewrite (H3 eq_refl) in *. destruct (configure k accepts) as [set [|]] eqn:Ec; intros [= <-]; simpl;
      [apply configure_wanted in Ec as ->|]; naive_solver.
  - rewrite (H3 eq_refl) in *. destruct ok; intros [= <-]; simpl; split_and!; try naive_solver.
    intros ? [= <-]. done.
  - destruct pi as [p|]; [|done]. cbn [mbind option_bind].
    destruct (Pipe.half_step p d e) as [p'|] eqn:Eh; [|done]. cbn [mbind option_bind]. intros [= <-]. simpl.
    split_and!; [naive_solver..| | |].
    + by destruct (Pipe.bidirectional p').
    + by destruct (Pipe.bidirectional p').
    + intros ? [= <-]. eapply Pipe.half_step_ok; [|done]. by apply H4.
Qed.

(** The remote a laptop session was admitted for. *)
Definition admitted_by (allows : IpAddr → bool) (r : option IpAddr) : Prop := ∃ a, r = Some a ∧ allows a = true.

Lemma laptop_step_ok allows k s a s' :
  session_ok (admitted_by allows) k s → laptop_step allows k s a = Some s' → session_ok (admitted_by allows) k s'.
Proof.
  intros Hs. unfold laptop_step. destruct (phase s) eqn:Ep; try (by apply relay_step_ok).
  destruct a as [[addr|]| | | |]; try (by apply relay_step_ok);
    destruct Hs as (H1 & H2 & H0 & H3 & H4); intros [= <-];
    unfold session_ok, finish, at_phase; simpl; rewrite Ep in *;
    rewrite (H0 eq_refl), (H3 eq_refl); [destruct (allows addr) eqn:Ea|]; split_and!;
    try (by intros [?|[?|[? [=]]]]); try (by intros [?|[? [=]]]); try done.
  intros _. by exists addr.
Qed.

(** ** Permits *)
Definition holds_permit : (nat * Session) → Prop := λ x, permit x.2 = true.
Definition holders (m : gmap nat Session) : gmap nat Session := filter holds_permit m.

Definition listener_ok (ok : Session → Prop) (l : Listener) : Prop :=
  active l = size (holders (sessions l)) ∧ (active l <= MAX_CONCURRENT_CONNECTIONS)%nat ∧
  (∀ id, accepted l ≤ id → sessions l !! id = None)%nat ∧
  (∀ id s, sessions l !! id = Some s → ok s ∧ ((∀ o, phase s ≠ Over o) → permit s = true)).

Lemma holders_insert_same m id s s' : m !! id = Some s → permit s' = permit s →
  size (holders (<[id := s']> m)) = size (holders m).
Proof.
  intros Hm Hp. unfold holders. destruct (permit s) eqn:E.
  - rewrite map_filter_insert_True by done. rewrite map_size_insert_Some; [done|]. exists s.
    by apply map_lookup_filter_Some.
  - rewrite map_filter_insert_False by (unfold holds_permit; simpl; congruence).
    rewrite map_filter_delete_not; [done|]. intros s2 H2 H3. rewrite Hm in H2. injection H2 as <-.
    unfold holds_permit in H3. simpl in H3. congruence.
Qed.

Lemma holders_insert_new m id s : m !! id = None → permit s = true → size (holders (<[id := s]> m)) = S (size (holders m)).
Proof.
  intros Hm Hp. unfold holders. rewrite map_filter_insert_True by done. apply map_size_insert_None.
  apply map_lookup_filter_None. by left.
Qed.

Lemma holders_drop m id s s' : m !! id = Some s → permit s = true → permit s' = false →
  size (holders (<[id := s']> m)) = pred (size (holders m)).
Proof.
  intros Hm Hp Hp'. unfold holders. rewrite map_filter_insert_False by (unfold holds_permit; simpl; congruence).
  rewrite map_filter_delete. rewrite map_size_delete_Some; [done|]. exists s. by apply map_lookup_filter_Some.
Qed.

Lemma relay_step_permit k s a s' : relay_step k s a = Some s' → permit s' = permit s ∧ ∀ o, phase s ≠ Over o.
Proof.
  unfold relay_step. destruct (phase s), a; try done.
  - by destruct ok; intros [= <-].
  - destruct (configure k accepts). by intros [= <-].
  - by destruct ok; intros [= <-].
  - destruct (pipe s) as [p|]; [|done]. cbn [mbind option_bind].
    destruct (Pipe.half_step p d e); [|done]. cbn [mbind option_bind]. by intros [= <-].
Qed.

Lemma laptop_step_permit allows k s a s' : laptop_step allows k s a = Some s' → permit s' = permit s ∧ ∀ o, phase s ≠ Over o.
Proof.
  unfold laptop_step. destruct (phase s) eqn:Ep; rewrite <-?Ep; try apply relay_step_permit.
  destruct a as [[addr|]| | | |]; try apply relay_step_permit; intros [= <-]; by rewrite Ep.
Qed.

Section listener.
Context (step : Session → Answer → option Session) (new : Session) (ok : Session → Prop).
Context (step_ok : ∀ s a s', ok s → step s a = Some s' → ok s').
Context (step_permit : ∀ s a s', step s a = Some s' → permit s' = permit s ∧ ∀ o, phase s ≠ Over o).
Context (drop_ok : ∀ s, ok s → ok (drop_permit s)).
Context (new_ok : ok new) (new_permit : permit new = true).

Lemma lstep_ok l e l' : listener_ok ok l → lstep step new l e = Some l' → listener_ok ok l'.
Proof.
  intros (Ha & Hm & Hf & Hs). destruct e as [started| |id a|id]; cbn [lstep].
  - unfold acquire. destruct (Nat.eqb_spec (active l) MAX_CONCURRENT_CONNECTIONS) as [E|E].
    + intros [= <-]. split_and!; simpl; [done|done| |done]. intros id Hid. apply Hf. lia.
    + destruct started; intros [= <-]; unfold listener_ok; simpl.
      * split_and!; [rewrite holders_insert_new by (done || by apply Hf); lia|lia| |].
        -- intros id Hid. rewrite lookup_insert_ne by lia. apply Hf. lia.
        -- intros id s. rewrite lookup_insert. case_decide; [|apply Hs]. intros [= <-]. done.
      * split_and!; [done|done| |done]. intros id Hid. apply Hf. lia.
  - by intros [= <-].
  - destruct (sessions l !! id) as [s|] eqn:E; [|done]. cbn [mbind option_bind].
    destruct (step s a) as [s'|] eqn:Es; [|done]. cbn [mbind option_bind]. intros [= <-].
    destruct (step_permit s a s' Es) as [Hp Ho]. destruct (Hs id s E) as [Hok Hl].
    unfold listener_ok; simpl. split_and!; [by rewrite (holders_insert_same _ _ s)|done| |].
    + intros i Hi. rewrite lookup_insert_ne; [by apply Hf|]. intros <-. rewrite Hf in E by done. done.
    + intros i t. rewrite lookup_insert. case_decide; [|apply Hs]. intros [= <-].
      split; [by eapply step_ok|]. intros _. rewrite Hp. by apply Hl.
  - destruct (sessions l !! id) as [s|] eqn:E; [|done]. cbn [mbind option_bind].
    destruct (phase s) eqn:Eph; try done. destruct (permit s) eqn:Ep; [|done]. intros [= <-].
    destruct (Hs id s E) as [Hok Hl]. unfold listener_ok, release; simpl.
    split_and!; [by rewrite (holders_drop _ _ s), Ha|lia| |].
    + intros i Hi. rewrite lookup_insert_ne; [by apply Hf|]. intros <-. rewrite Hf in E by done. done.
    + intros i t. rewrite lookup_insert. case_decide; [|apply Hs]. intros [= <-]. split; [by apply drop_ok|].
      intros Hn. exfalso. by apply (Hn o).
Qed.

Lemma lrun_ok l events l' : listener_ok ok l → lrun (lstep step new) l events = Some l' → listener_ok ok l'.
Proof.
  revert l. induction events as [|e events IH]; intros l Hl; cbn [lrun]; [by intros [= <-]|].
  destruct (lstep step new l e) as [l1|] eqn:E; [|done]. cbn [mbind option_bind]. apply IH. by eapply lstep_ok.
Qed.

Lemma listener_start_ok : listener_ok ok listener_start.
Proof. split_and!; simpl; [done|lia|done|]. intros id s. by rewrite lookup_empty. Qed.

End listener.

(** ** What a session passes on *)
Definition sound (s : Session) : bool :=
  match pipe s with
  | Some p => negb (Pipe.failed (Pipe.outbound p)) && negb (Pipe.failed (Pipe.inbound p))
  | None => false
  end.

Definition ended (s : Session) (d : Pipe.Dir) : bool :=
  match pipe s with Some p => Pipe.returned (Pipe.half_of p d) | None => false end.

(** What a step does to the pipe. *)
Definition moves (a : Answer) (s s' : Session) : Prop :=
  (∀ o, phase s ≠ Over o) ∧
  (pipe s' = pipe s ∨ (pipe s = None ∧ pipe s' = Some Pipe.fresh_pipe) ∨
   ∃ p p' d e, a = Piped d e ∧ pipe s = Some p ∧ Pipe.half_step p d e = Some p' ∧ pipe s' = Some p').

Lemma relay_step_moves who k s a s' : session_ok who k s → relay_step k s a = Some s' → moves a s s'.
Proof.
  intros (_ & _ & _ & H3 & _). unfold relay_step, moves. destruct (phase s) eqn:Ep, a; try done.
  - destruct ok; intros [= <-]; split; [done|by left|done|by left].
  - destruct (configure k accepts). intros [= <-]. split; [done|by left].
  - destruct ok; intros [= <-]; (split; [done|]); [right; left; split; [by apply H3|done]|by left].
  - destruct (pipe s) as [p|] eqn:Epi; [|done]. cbn [mbind option_bind].
    destruct (Pipe.half_step p d e) as [p'|] eqn:Eh; [|done]. cbn [mbind option_bind]. intros [= <-].
    split; [done|]. right; right. by exists p, p', d, e.
Qed.

Lemma laptop_step_moves allows who k s a s' : session_ok who k s → laptop_step allows k s a = Some s' → moves a s s'.
Proof.
  intros Hs. unfold laptop_step. destruct (phase s) eqn:Ep; try by eapply relay_step_moves.
  destruct a as [[addr|]| | | |]; try by eapply relay_step_moves.
  all: intros [= <-]; split; [by rewrite Ep|by left].
Qed.

(** A direction follows its source: what was passed on is the start of what
    the source sent, and once it ended with nothing failed, all of it. *)
Definition follows (s : Session) (d : Pipe.Dir) (source : string) (over : bool) : Prop :=
  (∃ r, source = carried s d +:+ r) ∧
  (sound s = true → ended s d = true → over = true ∧ carried s d = source).

Lemma half_step_carried p d e p' d' : Pipe.half_step p d e = Some p' →
  bytes_of d' (Pipe.delivered p') =
  bytes_of d' (Pipe.delivered p) +:+ match e, d, d' with
    | Pipe.Copied c, Pipe.Outbound, Pipe.Outbound | Pipe.Copied c, Pipe.Inbound, Pipe.Inbound => c
    | _, _, _ => ""
    end.
Proof.
  unfold Pipe.half_step. destruct (Pipe.half_of p d); [|done]. destruct e.
  - destruct (_ || _); [done|]. intros [= <-]. simpl. rewrite bytes_of_snoc. by destruct d, d'.
  - intros [= <-]. destruct d, d'; simpl; by rewrite append_nil_r.
  - intros [= <-]. destruct d, d'; simpl; by rewrite append_nil_r.
Qed.

Lemma follows_fresh s s' d source over : pipe s = None → pipe s' = Some Pipe.fresh_pipe →
  follows s d source over → follows s' d source over.
Proof.
  unfold follows, carried, sound, ended. intros -> -> [[r Hr] _]. split; [by exists r|]. by destruct d.
Qed.

Lemma half_step_sound p d e p' : Pipe.half_step p d e = Some p' →
  Pipe.failed (Pipe.outbound p') = false → Pipe.failed (Pipe.inbound p') = false →
  Pipe.failed (Pipe.outbound p) = false ∧ Pipe.failed (Pipe.inbound p) = false ∧ ∀ errno, e ≠ Pipe.Failed errno.
Proof.
  unfold Pipe.half_step. destruct (Pipe.half_of p d) eqn:Eo; [|done].
  destruct e; [destruct (_ || _); [done|]| |]; intros [= <-]; destruct d; simpl in *; rewrite ?Eo; intros; done.
Qed.

Lemma half_step_other p d e p' d' : Pipe.half_step p d e = Some p' → d ≠ d' → Pipe.half_of p' d' = Pipe.half_of p d'.
Proof.
  unfold Pipe.half_step. destruct (Pipe.half_of p d); [|done].
  destruct e; [destruct (_ || _); [done|]| |]; intros [= <-]; by destruct d, d'.
Qed.

Lemma half_step_copied p d c p' : Pipe.half_step p d (Pipe.Copied c) = Some p' →
  Pipe.half_of p' d = Pipe.Copying ∧ Pipe.shut_write (Pipe.to p d) = false.
Proof.
  unfold Pipe.half_step. destruct (Pipe.half_of p d) eqn:E; [|done].
  destruct (Pipe.shut_read _) eqn:E1, (Pipe.shut_write _) eqn:E2; try done. intros [= <-]. by destruct d.
Qed.

Lemma pipe_ok_open p d : Pipe.pipe_ok p → Pipe.failed (Pipe.outbound p) = false → Pipe.failed (Pipe.inbound p) = false →
  Pipe.shut_read (Pipe.from p d) = false ∧ Pipe.shut_write (Pipe.to p d) = Pipe.returned (Pipe.half_of p d).
Proof. unfold Pipe.pipe_ok. intros H H1 H2. rewrite H1, H2 in H. destruct H as [Hl Hr], d; simpl; by rewrite Hl, Hr. Qed.

(** A step of the session itself. *)
Lemma follows_step who k a s s' d source over : session_ok who k s → moves a s s' →
  (∀ e, a = Piped d e → readable s d source over e = true) →
  follows s d source over → follows s' d source over.
Proof.
  intros (_ & _ & _ & _ & Hpo) [_ [E|[[E1 E2]|(p & p' & d' & e & -> & E1 & Eh & E2)]]] Hr Hf.
  - revert Hf. unfold follows, carried, sound, ended. by rewrite E.
  - by eapply follows_fresh.
  - specialize (Hpo p E1). unfold follows, readable, carried, sound, ended in *. rewrite E1 in *. rewrite E2.
    pose proof (half_step_sound p d' e p' Eh) as Hso. rewrite andb_true_iff, !negb_true_iff.
    rewrite andb_true_iff, !negb_true_iff in Hf. destruct Hf as [[r Hs] Hf].
    rewrite (half_step_carried p d' e p' d Eh).
    assert (d = d' ∨ d ≠ d') as [<-|Hd] by (destruct d, d'; auto).
    + specialize (Hr e eq_refl). destruct e as [c| |errno].
      * destruct (half_step_copied _ _ _ _ Eh) as [-> _]. split; [|done].
        unfold starts_with in Hr. destruct (strip_prefix _ _) as [r'|] eqn:Es; [|done].
        apply strip_prefix_Some in Es. exists r'. by destruct d.
      * rewrite append_nil_r. split; [by exists r|]. intros [H1 H2] _. destruct (Hso H1 H2) as (H3 & H4 & _).
        destruct (pipe_ok_open p d Hpo H3 H4) as [Ho _]. rewrite Ho, orb_false_r in Hr.
        bool_to_prop. naive_solver.
      * rewrite append_nil_r. split; [by exists r|]. intros [H1 H2]. by destruct (Hso H1 H2) as (_ & _ & []%(λ f, f errno)).
    + replace (match e with Pipe.Copied c => _ | _ => _ end) with "" by (destruct e, d, d'; done).
      rewrite append_nil_r, (half_step_other _ _ _ _ d Eh) by done. split; [by exists r|].
      intros [H1 H2]. destruct (Hso H1 H2) as (H3 & H4 & _). by apply Hf.
Qed.

(** A step of the source: it grows only while it is not over, and it stays
    over. *)
Lemma follows_source s d source over x over' :
  follows s d source over → (x = "" ∨ over = false) → (over = true → over' = true) →
  follows s d (source +:+ x) over'.
Proof.
  intros [[r Hr] Hf] Hx Ho. split.
  - exists (r +:+ x). by rewrite Hr, append_assoc.
  - intros H1 H2. destruct (Hf H1 H2) as [H3 H4]. destruct Hx as [->|?]; [|congruence].
    rewrite append_nil_r. auto.
Qed.

Lemma moves_source who k a s s' d : session_ok who k s → moves a s s' →
  ∃ x, carried s' d = carried s d +:+ x ∧ (x = "" ∨ writes_over s d = false) ∧
       (writes_over s d = true → writes_over s' d = true).
Proof.
  intros (_ & _ & _ & _ & Hpo) [Ho [E|[[E1 E2]|(p & p' & d' & e & -> & E1 & Eh & E2)]]];
    unfold carried, writes_over in *.
  - rewrite E. exists "". rewrite append_nil_r. split_and!; [done|by left|].
    destruct (pipe s); [done|]. destruct (phase s); try done. by destruct (Ho o).
  - rewrite E1, E2. exists "". split_and!; [by destruct d|by left|]. destruct (phase s); try done. by destruct (Ho o).
  - rewrite E1, E2, (half_step_carried p d' e p' d Eh). eexists. split; [done|].
    specialize (Hpo p E1). clear E1 E2 Ho.
    unfold Pipe.half_step in Eh. destruct (Pipe.half_of p d') eqn:Eo; [|done]. destruct e.
    + destruct (Pipe.shut_read (Pipe.from p d')), (Pipe.shut_write (Pipe.to p d')) eqn:Ew; try done.
      injection Eh as <-. split; [|by destruct d]. destruct d, d'; auto.
    + injection Eh as <-. split; [by left|]. by destruct d, d'.
    + injection Eh as <-. split; [by left|]. by destruct d, d'.
Qed.

Lemma devbox_step_relay k s a : devbox_step k s a = relay_step k s a.
Proof. by destruct k. Qed.

Definition anyone (_ : option IpAddr) : Prop := True.

Definition channel_ok (allows : IpAddr → bool) (k : ChannelKind) (c : Channel) : Prop :=
  session_ok anyone k (near c) ∧ session_ok (admitted_by allows) k (far c) ∧
  follows (near c) Pipe.Outbound (client_sent c) (client_shut c) ∧
  follows (far c) Pipe.Outbound (carried (near c) Pipe.Outbound) (writes_over (near c) Pipe.Outbound) ∧
  follows (far c) Pipe.Inbound (server_sent c) (server_shut c) ∧
  follows (near c) Pipe.Inbound (carried (far c) Pipe.Inbound) (writes_over (far c) Pipe.Inbound).

Lemma chstep_ok allows k c e c' : channel_ok allows k c → chstep allows k c e = Some c' → channel_ok allows k c'.
Proof.
  intros (Hn & Hf & F1 & F2 & F3 & F4). destruct e as [chunk| |chunk| |a|a]; cbn [chstep].
  - destruct (client_shut c) eqn:E; [done|]. intros [= <-]. split_and!; try done; simpl.
    by eapply follows_source; [exact F1|right|].
  - intros [= <-]. split_and!; try done; simpl. rewrite <-(append_nil_r (client_sent c)).
    by eapply follows_source; [exact F1|left|].
  - destruct (server_shut c) eqn:E; [done|]. destruct (reached (far c)); [|done]. intros [= <-].
    split_and!; try done; simpl. by eapply follows_source; [exact F3|right|].
  - intros [= <-]. split_and!; try done; simpl. rewrite <-(append_nil_r (server_sent c)).
    by eapply follows_source; [exact F3|left|].
  - destruct (near_reads c a) eqn:Er; [|done]. rewrite devbox_step_relay.
    destruct (relay_step k (near c) a) as [s|] eqn:Es; [|done]. cbn [mbind option_bind]. intros [= <-].
    pose proof (relay_step_moves _ _ _ _ _ Hn Es) as Hm. split_and!; simpl; try done.
    + by eapply relay_step_ok.
    + eapply follows_step; [exact Hn|exact Hm| |done]. intros e ->. exact Er.
    + destruct (moves_source _ _ _ _ _ Pipe.Outbound Hn Hm) as (x & -> & Hx & Ho). by eapply follows_source.
    + eapply follows_step; [exact Hn|exact Hm| |done]. intros e ->. exact Er.
  - destruct (reached (near c)), (far_reads c a) eqn:Er; try done. cbn [andb].
    destruct (laptop_step allows k (far c) a) as [s|] eqn:Es; [|done]. cbn [mbind option_bind]. intros [= <-].
    pose proof (laptop_step_moves _ _ _ _ _ _ Hf Es) as Hm. split_and!; simpl; try done.
    + by eapply laptop_step_ok.
    + eapply follows_step; [exact Hf|exact Hm| |done]. intros e ->. exact Er.
    + eapply follows_step; [exact Hf|exact Hm| |done]. intros e ->. exact Er.
    + destruct (moves_source _ _ _ _ _ Pipe.Inbound Hf Hm) as (x & -> & Hx & Ho). by eapply follows_source.
Qed.

Lemma session_new_ok k p who : p = Addressing ∨ p = Reaching ∧ who None → session_ok who k (session_new p).
Proof.
  intros [->|[-> H]]; unfold session_ok; simpl; split_and!; try done;
    try (by intros [?|[?|[? [=]]]]); by intros [?|[? [=]]].
Qed.

Lemma follows_new p d over : follows (session_new p) d "" over.
Proof. split; [by exists ""|done]. Qed.

Lemma chrun_ok allows k c events c' : channel_ok allows k c → chrun allows k c events = Some c' → channel_ok allows k c'.
Proof.
  revert c. induction events as [|e events IH]; intros c Hc; cbn [chrun]; [by intros [= <-]|].
  destruct (chstep allows k c e) as [c1|] eqn:E; [|done]. cbn [mbind option_bind]. apply IH. by eapply chstep_ok.
Qed.

Lemma channel_start_ok allows k : channel_ok allows k channel_start.
Proof.
  split_and!; try apply follows_new; [apply session_new_ok; right; by split|apply session_new_ok; by left].
Qed.

Lemma sound_writes_over who k s d : session_ok who k s → sound s = true → writes_over s d = ended s d.
Proof.
  intros (_ & _ & _ & _ & Hpo). unfold sound, writes_over, ended. destruct (pipe s) as [p|]; [|done].
  rewrite andb_true_iff, !negb_true_iff. intros [H1 H2]. by apply pipe_ok_open; [apply Hpo|..].
Qed.

(** C26: a channel is transparent and only an admitted devbox reaches the
    server behind it.  Whatever the interleaving, the server has been sent a
    prefix of what the client sent and the client a prefix of what the server
    sent, nothing else and in order; the laptop reaches the server only for an
    address it admits, and otherwise not a byte passes either way; the end of
    a stream reaches the other side, no copy having failed, only once its
    sender closed it and only behind all its bytes; and both sessions pipe
    only over connections with keepalive set, and with [TCP_NODELAY] for
    audio. *)
Theorem channel_transparent allows k events c :
  chrun allows k channel_start events = Some c →
  (∃ r, client_sent c = carried (far c) Pipe.Outbound +:+ r) ∧
  (∃ r, server_sent c = carried (near c) Pipe.Inbound +:+ r) ∧
  (reached (far c) = true → admitted_by allows (remote (far c))) ∧
  (¬ admitted_by allows (remote (far c)) →
     carried (far c) Pipe.Outbound = "" ∧ carried (near c) Pipe.Inbound = "") ∧
  (sound (near c) = true → sound (far c) = true →
     (ended (far c) Pipe.Outbound = true → client_shut c = true ∧ carried (far c) Pipe.Outbound = client_sent c) ∧
     (ended (near c) Pipe.Inbound = true → server_shut c = true ∧ carried (near c) Pipe.Inbound = server_sent c)) ∧
  (is_Some (pipe (near c)) → options (near c) = wanted_options k) ∧
  (is_Some (pipe (far c)) → options (far c) = wanted_options k).
Proof.
  intros Hr. pose proof (chrun_ok _ _ _ _ _ (channel_start_ok allows k) Hr) as (Hn & Hf & F1 & F2 & F3 & F4).
  split_and!.
  - destruct F1 as [[r1 ->] _], F2 as [[r2 ->] _]. exists (r2 +:+ r1). by rewrite append_assoc.
  - destruct F3 as [[r1 ->] _], F4 as [[r2 ->] _]. exists (r2 +:+ r1). by rewrite append_assoc.
  - intros H. apply Hf. by left.
  - intros Ha. assert (pipe (far c) = None) as Hp.
    { destruct (pipe (far c)) as [p|] eqn:E; [|done]. destruct Ha. apply Hf. right; right. by eexists. }
    assert (∀ d, carried (far c) d = "") as Hc by (intros d; unfold carried; by rewrite Hp).
    split; [done|]. destruct F4 as [[r Hr'] _]. rewrite Hc in Hr'. by destruct (carried (near c) Pipe.Inbound).
  - intros Sn Sf. destruct F1 as [_ F1], F2 as [_ F2], F3 as [_ F3], F4 as [_ F4]. split; intros He.
    + destruct (F2 Sf He) as [H1 ->]. rewrite (sound_writes_over _ _ _ _ Hn Sn) in H1. by apply F1.
    + destruct (F4 Sn He) as [H1 ->]. rewrite (sound_writes_over _ _ _ _ Hf Sf) in H1. by apply F3.
  - intros H. apply Hn. by right.
  - intros H. apply Hf. by right.
Qed.

(** The listeners of both channels, at the laptop: at most 32 permits are
    out, exactly those of the sessions that hold one, and every session still
    running holds one; a session has reached the local server only for an
    address admitted, and one of an address not admitted has written nothing
    on either side. *)
Lemma laptop_listener_guarded parse k cfg events l :
  lrun (laptop_accept_loop parse k cfg) listener_start events = Some l →
  active l = size (holders (sessions l)) ∧ (active l <= 32)%nat ∧
  (∀ id s, sessions l !! id = Some s →
     ((∀ o, phase s ≠ Over o) → permit s = true) ∧
     (reached s = true → admitted_by (admitted parse k cfg) (remote s)) ∧
     (¬ admitted_by (admitted parse k cfg) (remote s) → ∀ d, carried s d = "")).
Proof.
  replace (laptop_accept_loop parse k cfg) with (lstep (laptop_step (admitted parse k cfg) k) laptop_session) by by destruct k.
  set (allows := admitted parse k cfg).
  intros Hr. edestruct (lrun_ok (laptop_step allows k) laptop_session (session_ok (admitted_by allows) k))
    as (H1 & H2 & _ & H3); [| | | | |apply listener_start_ok|exact Hr|].
  - intros. by eapply laptop_step_ok.
  - intros. by eapply laptop_step_permit.
  - done.
  - apply session_new_ok. by left.
  - done.
  - split_and!; [done|done|]. intros id s Hs. destruct (H3 id s Hs) as [Hok Hp]. split_and!; [done| |].
    + intros H. apply Hok. by left.
    + intros Ha d. unfold carried. destruct (pipe s) as [p|] eqn:E; [|done].
      destruct Ha. apply Hok. right; right. by rewrite E.
Qed.

(** The devbox's listeners keep the same count. *)
Lemma devbox_listener_bounded k events l :
  lrun (devbox_accept_loop k) listener_start events = Some l →
  active l = size (holders (sessions l)) ∧ (active l <= 32)%nat ∧
  (∀ id s, sessions l !! id = Some s → (∀ o, phase s ≠ Over o) → permit s = true).
Proof.
  replace (devbox_accept_loop k) with (lstep (relay_step k) devbox_session) by by destruct k.
  intros Hr. edestruct (lrun_ok (relay_step k) devbox_session (session_ok anyone k))
    as (H1 & H2 & _ & H3); [| | | | |apply listener_start_ok|exact Hr|].
  - intros. by eapply relay_step_ok.
  - intros. by eapply relay_step_permit.
  - done.
  - apply session_new_ok. by right.
  - done.
  - split_and!; [done|done|]. intros id s Hs. by apply (H3 id s Hs).
Qed.

(** A permit that is dropped serves the next connection: the limit refuses one
    only while 32 sessions hold theirs. *)
Lemma arrival_served step new l :
  (active l < 32)%nat →
  ∃ l', lstep step new l (Arrives true) = Some l' ∧ sessions l' !! accepted l = Some new ∧ active l' = S (active l).
Proof.
  intros H. cbn [lstep]. unfold acquire. destruct (Nat.eqb_spec (active l) MAX_CONCURRENT_CONNECTIONS) as [E|E].
  - rewrite E in H. unfold MAX_CONCURRENT_CONNECTIONS in H. lia.
  - eexists. split_and!; [done|by simpl; rewrite lookup_insert_eq|done].
Qed.

(** ** Where the two ends meet *)
Section meeting.
Context (parse : string → option IpAddr) (display : IpAddr → string).

Definition laptop_spawn (k : ChannelKind) : Host → Config → result ChannelError (Served TcpServer) :=
  match k with Pcsc => pcsc_laptop_spawn parse display | Pulse => pulse_laptop_spawn parse display end.
Definition devbox_spawn (k : ChannelKind) : Host → Config → result ChannelError (Served UnixServer) :=
  match k with Pcsc => pcsc_devbox_spawn parse | Pulse => pulse_devbox_spawn parse end.
Definition port_of (k : ChannelKind) : Config → Z := match k with Pcsc => pcsc_port | Pulse => pulse_port end.

Lemma listener_spawn_Serving {A} h (s t : A) : listener_spawn_result h s = Ok (Serving t) → t = s.
Proof. unfold listener_spawn_result. destruct (thread h) as [[]|]; [|done]. by intros [= ->]. Qed.

Lemma socket_path_absolute v path rest : (λ d, join d rest) <$> absolute v = Some path → is_absolute path = true.
Proof.
  unfold absolute. destruct v as [v|]; simpl; [|done]. destruct (is_absolute v) eqn:Ev; [|done].
  intros [= <-]. by apply is_absolute_join.
Qed.

Lemma devbox_spawn_Serving k h cfg s : devbox_spawn k h cfg = Ok (Serving s) →
  port_of k cfg ≠ 0%Z ∧ (∃ ip, peer_ip parse cfg = Ok (Some ip) ∧ dials s = (ip, port_of k cfg)) ∧
  is_absolute (at_path s) = true ∧ (Bind.bind (umask h) (seen h)).1.1 = Ok (socket_mode s).
Proof.
  assert (∀ path up, is_absolute path = true → bind_and_serve h path up = Ok (Serving s) →
    dials s = up ∧ is_absolute (at_path s) = true ∧ (Bind.bind (umask h) (seen h)).1.1 = Ok (socket_mode s)) as Hb.
  { unfold bind_and_serve. intros path up Hp. destruct (Bind.bind _ _).1.1 eqn:E; [|done].
    by intros ->%listener_spawn_Serving. }
  destruct k; cbn [devbox_spawn port_of].
  - unfold pcsc_devbox_spawn. destruct (peer_ip parse cfg) as [[ip|]|]; try done.
    destruct (Z.eqb_spec (pcsc_port cfg) 0) as [|Hz]; [done|].
    destruct (pcsc_socket_path h) as [path|] eqn:Epa; [|done]. cbn [ok_or mbind result_bind].
    apply socket_path_absolute in Epa. destruct (match parent path with Some _ => _ | None => _ end) as [[]|] eqn:E; [|done]. cbn [mbind result_bind].
    intros H. destruct (Hb _ _ Epa H) as (H1 & H2 & H3). split_and!; [done|by exists ip|done|done].
  - unfold pulse_devbox_spawn. destruct (peer_ip parse cfg) as [[ip|]|]; try done.
    destruct (Z.eqb_spec (pulse_port cfg) 0) as [|Hz]; [done|].
    destruct (pulse_socket_path h) as [path|] eqn:Epa; [|done]. cbn [ok_or mbind result_bind].
    apply socket_path_absolute in Epa. destruct (prepare_private_parent _ _ _).1 as [[]|]; [|done]. cbn [mbind result_bind].
    intros H. destruct (Hb _ _ Epa H) as (H1 & H2 & H3). split_and!; [done|by exists ip|done|done].
Qed.

Lemma laptop_spawn_Serving k h cfg s : laptop_spawn k h cfg = Ok (Serving s) →
  ∃ ip, listen_ip parse cfg = Ok ip ∧ bound s = (ip, port_of k cfg) ∧ port_of k cfg ≠ 0%Z ∧
        (k = Pulse → has_peers cfg = true).
Proof.
  assert (∀ port up, bind_and_listen parse display h cfg port up = Ok (Serving s) →
    ∃ ip, listen_ip parse cfg = Ok ip ∧ bound s = (ip, port)) as Hb.
  { unfold bind_and_listen. intros port up. destruct (listen_ip parse cfg) as [ip|]; [|done].
    destruct (tcp_bind h) as [[]|]; [|done]. intros ->%listener_spawn_Serving. by exists ip. }
  destruct k; cbn [laptop_spawn port_of].
  - unfold pcsc_laptop_spawn. destruct (Z.eqb_spec (pcsc_port cfg) 0); [done|].
    intros (ip & H1 & H2)%Hb. by exists ip.
  - unfold pulse_laptop_spawn. destruct (has_peers cfg) eqn:Ehp; [|done]. cbn [negb].
    destruct (Z.eqb_spec (pulse_port cfg) 0); [done|].
    destruct (upstream_path h) as [up|]; [|done]. cbn [ok_or mbind result_bind].
    intros (ip & H1 & H2)%Hb. by exists ip.
Qed.

(** Two configurations that name each other meet: the devbox dials the very
    address the laptop listens on, and the laptop admits an address exactly
    when it is one of its peers or, for PC/SC without a peer list, loopback. *)
Lemma ends_meet k hd hl cd cl sd sl ip ips :
  devbox_spawn k hd cd = Ok (Serving sd) → laptop_spawn k hl cl = Ok (Serving sl) →
  port_of k cd = port_of k cl → peer_ip parse cd = Ok (Some ip) → listen_ip parse cl = Ok ip →
  peer_ips parse cl = Ok ips →
  dials sd = bound sl ∧
  ∀ from, admitted parse k cl from = true ↔
    to_canonical from ∈ ips ∨ (k = Pcsc ∧ peers cl = None ∧ is_loopback (to_canonical from) = true).
Proof.
  intros (_ & (ip1 & E1 & ->) & _)%devbox_spawn_Serving (ip2 & E2 & -> & _)%laptop_spawn_Serving Hp Hd Hl Hi.
  split; [congruence|]. intros from.
  assert (admits_peer parse cl from = bool_decide (to_canonical from ∈ ips)) as Ha by by rewrite admits_peer_spec, Hi.
  destruct k; cbn [admitted]; unfold authorized, authorized_remote, is_multi_peer; rewrite Ha;
    rewrite ?orb_true_iff, ?andb_true_iff, ?bool_decide_eq_true; [|naive_solver].
  destruct (peers cl); naive_solver.
Qed.

End meeting.

(** * Instances *)
Definition all_options : SockOpt → bool := λ _, true.

Definition demo_exchange : list ChEvent := [
  ClientSends "ESTABLISH"; Near (Connected true); Near (Options all_options); Near (Cloned true);
  Near (Piped Pipe.Outbound (Pipe.Copied "ESTAB")); Far (PeerAddr (Some (V4 100 64 0 2))); Far (Connected true);
  Far (Options all_options); Far (Cloned true); Near (Piped Pipe.Outbound (Pipe.Copied "LISH"));
  ClientShuts; Near (Piped Pipe.Outbound Pipe.Eof); Far (Piped Pipe.Outbound (Pipe.Copied "ESTABLISH"));
  ServerSends "CONTEXT"; Far (Piped Pipe.Outbound Pipe.Eof); Far (Piped Pipe.Inbound (Pipe.Copied "CONTEXT"));
  Near (Piped Pipe.Inbound (Pipe.Copied "CONTEXT"))].

Definition demo_admit (a : IpAddr) : bool := bool_decide (a = V4 100 64 0 2).

Lemma channel_transparent_witness :
  ∃ c, chrun demo_admit Pcsc channel_start demo_exchange = Some c ∧
    client_shut c = true ∧ carried (far c) Pipe.Outbound = "ESTABLISH" ∧ carried (near c) Pipe.Inbound = "CONTEXT".
Proof.
  eexists. split; [by vm_compute|].
  destruct (channel_transparent demo_admit Pcsc demo_exchange _ ltac:(by vm_compute)) as (_ & _ & _ & _ & H & _).
  destruct H as [H _]; [by vm_compute..|]. destruct H as [H1 H2]; [by vm_compute|]. split_and!; [exact H1|by vm_compute|by vm_compute].
Defined.

Definition demo_arrivals : list LEvent :=
  [Arrives true; AcceptFails; Answers 0 (PeerAddr (Some (V4 100 64 0 9))); Arrives false; Arrives true;
   Answers 2 (PeerAddr (Some (V4 100 64 0 2))); Answers 2 (Connected true); Dropped 0].

Definition demo_literal (s : string) : option IpAddr :=
  if bool_decide (s = "100.64.0.2") then Some (V4 100 64 0 2) else None.

Definition demo_peers : Config := {|
  mode := mode default_values; opener := opener default_values; notifier := notifier default_values;
  clipboard := clipboard default_values; forward_ttl_secs := forward_ttl_secs default_values; listen := listen default_values;
  peer := "100.64.0.2"; peers := None; bridge_port := bridge_port default_values; relay_port := relay_port default_values;
  pcsc_port := pcsc_port default_values; grant_port := grant_port default_values; pulse_port := pulse_port default_values;
  allow := [] |}.

Lemma laptop_listener_guarded_witness :
  ∃ l, lrun (laptop_accept_loop demo_literal Pulse demo_peers) listener_start demo_arrivals = Some l ∧
    active l = 1%nat ∧ (active l <= 32)%nat ∧ ∃ s, sessions l !! 0%nat = Some s ∧ ∀ d, carried s d = "".
Proof.
  eexists. split; [by vm_compute|].
  destruct (laptop_listener_guarded demo_literal Pulse demo_peers demo_arrivals _ ltac:(by vm_compute)) as (_ & H2 & H3).
  split_and!; [by vm_compute|exact H2|]. eexists. split; [by vm_compute|].
  eapply (H3 0%nat); [by vm_compute|]. intros (a & [= <-] & H). by vm_compute in H.
Defined.
