(* ===== verification/Gates.v ===== *)
(** The two TCP gates of forward that speak refusals: the callback bridge's
    listener ([crates/forward/src/bridge/listener.rs]) and the browser relay
    channel ([browser.rs]), with the refusals of [refusal.rs]; and the arming socket
    ([serve_arming] of [bridge/arming.rs]).

    A gate checks an arriving address before it takes a permit, so a stranger
    costs nothing; the connections it serves are handled by threads of their
    own, in any order.  What a handler does with its connection is a function
    of what the system answered it. *)

From stdpp Require Import prelude strings list gmap.
From Stdlib Require Import ZArith Lia Ascii.
From S2P Require Import Prelude Text Paths Channels Peers Bridge Feed.

Local Open Scope string_scope.

Definition frame (text : string) : string := text +:+ String newline "".

Definition GENERIC_REFUSAL : string := frame "REFUSED".
Definition PEER_REFUSAL : string := frame "REFUSED PEER".
Definition BUSY_REFUSAL : string := frame "REFUSED BUSY".
Definition DENIED_PORT_REFUSAL : string := frame "REFUSED DENIED".
Definition UNARMED_PORT_REFUSAL : string := frame "REFUSED UNARMED".
Definition FEED_REFUSAL : string := frame "REFUSED FEED".
Definition TOKEN_UPSTREAM_HEALTHY_REFUSAL : string := frame "REFUSED TOKEN UPSTREAM 200".
Definition TOKEN_UPSTREAM_DOWN_REFUSAL : string := frame "REFUSED TOKEN UPSTREAM 503".

(** * Refusing *)

(** What a refusal did: the bytes that were sent before the end of the
    stream, and how often the client's bytes were read. *)
Record Refused : Type := { response : string; fin : bool; reads : nat }.

Definition REFUSAL_DRAIN_READS : nat := 32.

(** [write_all], of which the system took [taken] bytes before it failed, all
    of them when there are fewer. *)
Definition write_all (taken : nat) (bytes : string) : string := String.substring 0 taken bytes.

Definition refuse_peer (taken : nat) (bytes : string) : Refused :=
  {| response := write_all taken bytes; fin := true; reads := 0 |}.

(** The draining loop: it ends after [n] reads, at the end of the stream, and
    at the first error ([None]); a flood is an endless supply of bytes. *)
Fixpoint drain (n : nat) (pending : nat → option nat) : nat :=
  match n with
  | O => O
  | S n' => match pending O with
            | Some (S _) => S (drain n' (λ i, pending (S i)))
            | _ => 1
            end
  end.

(** The answers of the system to a refusal. *)
Record Refusing : Type := {
  blocking : bool;
  write_timeout : bool;
  taken : nat;
  nonblocking : bool;
  pending : nat → option nat;
}.

Definition refuse (w : Refusing) (bytes : string) : Refused := {|
  response := if blocking w && write_timeout w then write_all (taken w) bytes else "";
  fin := true;
  reads := if nonblocking w then drain REFUSAL_DRAIN_READS (pending w) else 0;
|}.

(** * Handlers *)

(** How a handler leaves its connection. *)
Inductive Handled : Type :=
| RefusesPeer (bytes : string)
| Refuses (bytes : string)
| Drops
| Pipes.

Inductive Upstream : Type := Connected | Unarmed | FailedUpstream.

(** The outcome of [armed.connect], by the state machine that models it. *)
Definition upstream_of (out : output) : Upstream :=
  match out with
  | OHost _ _ | OThrough _ _ _ => Connected
  | OUnarmed => Unarmed
  | _ => FailedUpstream
  end.

(** [timeouts]: whether the four timeouts of the two streams could be set, in
    the order they are set. *)
Definition timeouts_set (timeouts : list bool) : bool := forallb (λ b, b) timeouts.

(** [bridge::listener::handle]. *)
Definition bridge_handle (parse : string → option IpAddr) (cfg : Config) (listener_port : Z)
    (remote : option IpAddr) (requested : option Z) (upstream : Upstream) (timeouts : list bool) : Handled :=
  match remote with
  | None => RefusesPeer GENERIC_REFUSAL
  | Some ip =>
      if negb (authorized parse cfg ip) then RefusesPeer PEER_REFUSAL else
      match requested with
      | None => Refuses GENERIC_REFUSAL
      | Some port =>
          if denied_port cfg listener_port port then Refuses DENIED_PORT_REFUSAL else
          match upstream with
          | Unarmed => Refuses UNARMED_PORT_REFUSAL
          | FailedUpstream => Refuses GENERIC_REFUSAL
          | Connected => if timeouts_set timeouts then Pipes else Refuses GENERIC_REFUSAL
          end
      end
  end.

(** [token_refusal]: the status line, when the endpoint could be asked, up to
    what a failed read left of it. *)
Inductive StatusRead : Type := NoConnection | NoRequest | Line (status : string) (ok : bool).

Definition token_refusal (s : StatusRead) : string :=
  match s with
  | NoConnection | NoRequest => TOKEN_UPSTREAM_DOWN_REFUSAL
  | Line status ok =>
      if ok && has_window " 200" status then TOKEN_UPSTREAM_HEALTHY_REFUSAL else TOKEN_UPSTREAM_DOWN_REFUSAL
  end.

(** [browser::handle] and [handle_from], on the tokens of the feed. *)
Definition relay_handle_from (parse : string → option IpAddr) (cfg : Config) (t : RelayTokens) (remote local : IpAddr)
    (presented : option string) (now : Z) (status : StatusRead) (upstream : bool) (timeouts : list bool) :
    RelayTokens * Handled :=
  if negb (authorized_sensitive parse cfg remote local) then (t, RefusesPeer PEER_REFUSAL) else
  let h := scope_of cfg remote in
  let '(i, accepted) :=
    match presented with
    | Some p => accepts_at (cache t h) p now
    | None => (cache t h, false)
    end in
  let t := with_cache t h i in
  if negb accepted then
    if negb (connected i) then (t, Refuses FEED_REFUSAL) else (t, Refuses (token_refusal status))
  else if negb upstream then (t, Refuses GENERIC_REFUSAL)
  else if timeouts_set timeouts then (t, Pipes) else (t, Drops).

Definition relay_handle (parse : string → option IpAddr) (cfg : Config) (t : RelayTokens) (remote local : option IpAddr)
    (presented : option string) (now : Z) (status : StatusRead) (upstream : bool) (timeouts : list bool) :
    RelayTokens * Handled :=
  match remote, local with
  | Some remote, Some local => relay_handle_from parse cfg t remote local presented now status upstream timeouts
  | _, _ => (t, RefusesPeer GENERIC_REFUSAL)
  end.

(** * Accept loops *)

(** Connections whose address passed are numbered.  [turned_away] are the
    refusals of the others, [busy] those at the limit; [stopped]: starting a
    thread failed, which panics, and a panic ends the process. *)
Record Gate : Type := {
  active : nat;
  live : gset nat;
  admitted : nat;
  turned_away : list Refused;
  busy : list (nat * Refused);
  stopped : bool;
}.

Definition gate_start : Gate :=
  {| active := 0; live := ∅; admitted := 0; turned_away := []; busy := []; stopped := false |}.

(** An arrival: its two addresses, what the system answers a refusal, and
    whether a thread could be started; a failed [accept]; a handler that
    returned, which drops its permit. *)
Inductive GEvent : Type :=
| GArrives (remote local : option IpAddr) (w : Refusing) (started : bool)
| GFails
| GReturns (id : nat).

Section gate.
Context (check : option IpAddr → option IpAddr → bool).

Definition gate_step (g : Gate) (e : GEvent) : Gate :=
  if stopped g then g else
  match e with
  | GArrives remote local w started =>
      if negb (check remote local)
      then {| active := active g; live := live g; admitted := admitted g;
              turned_away := (turned_away g ++ [refuse_peer (taken w) PEER_REFUSAL])%list; busy := busy g;
              stopped := false |}
      else
        match acquire (active g) with
        | None =>
            {| active := active g; live := live g; admitted := S (admitted g); turned_away := turned_away g;
               busy := (busy g ++ [(admitted g, refuse w BUSY_REFUSAL)])%list; stopped := false |}
        | Some n =>
            {| active := n; live := live g ∪ {[admitted g]}; admitted := S (admitted g); turned_away := turned_away g;
               busy := busy g; stopped := negb started |}
        end
  | GFails => g
  | GReturns id =>
      if bool_decide (id ∈ live g)
      then {| active := pred (active g); live := live g ∖ {[id]}; admitted := admitted g;
              turned_away := turned_away g; busy := busy g; stopped := false |}
      else g
  end.

Definition gate_run (g : Gate) (events : list GEvent) : Gate := foldl gate_step g events.

End gate.

(** The checks of the two loops. *)
Definition bridge_check (parse : string → option IpAddr) (cfg : Config) (remote _local : option IpAddr) : bool :=
  is_some_and (authorized parse cfg) remote.

Definition relay_check (parse : string → option IpAddr) (cfg : Config) (remote local : option IpAddr) : bool :=
  match remote, local with
  | Some remote, Some local => authorized_sensitive parse cfg remote local
  | _, _ => false
  end.

(** The two loops. *)
Definition bridge_accept_loop (parse : string → option IpAddr) (cfg : Config) : Gate → GEvent → Gate :=
  gate_step (bridge_check parse cfg).
Definition relay_accept_loop (parse : string → option IpAddr) (cfg : Config) : Gate → GEvent → Gate :=
  gate_step (relay_check parse cfg).

(** ** Starting them *)
Inductive GateError : Type := GateBind (address : string) | GateSpawn.

Section starting.
Context (parse : string → option IpAddr) (display : IpAddr → string).

(** [bridge::listener::serve], up to its accept loop; [binds] is
    [TcpListener::bind]. *)
Definition bridge_serve (cfg : Config) (binds : IpAddr → Z → bool) : result GateError (IpAddr * Z) :=
  match validate parse cfg with
  | Err _ => Err (GateBind (listen cfg))
  | Ok () =>
      match listen_ip parse cfg with
      | Err _ => Err (GateBind (listen cfg))
      | Ok ip =>
          if binds ip (bridge_port cfg) then Ok (ip, bridge_port cfg)
          else Err (GateBind (display ip +:+ ":" +:+ to_string (bridge_port cfg)))
      end
  end.

(** [browser::spawn]: [None] when the relay is disabled. *)
Definition relay_spawn (cfg : Config) (binds : IpAddr → Z → bool) (started : bool) :
    result GateError (option (IpAddr * Z)) :=
  if (relay_port cfg =? 0)%Z then Ok None else
  let address := listen cfg +:+ ":" +:+ to_string (relay_port cfg) in
  match validate parse cfg with
  | Err _ => Err (GateBind address)
  | Ok () =>
      match listen_ip parse cfg with
      | Err _ => Err (GateBind address)
      | Ok ip =>
          if binds ip (relay_port cfg)
          then if started then Ok (Some (ip, relay_port cfg)) else Err GateSpawn
          else Err (GateBind (display ip +:+ ":" +:+ to_string (relay_port cfg)))
      end
  end.

End starting.

(** ** The arming socket *)
Inductive ArmOp : Type := Directory (op : FsOp) | RemoveSocket | BindSocket | SocketMode (mode : Z).

(** [serve_arming] up to its accept loop: whether it serves, and what it did to
    the file system.  [made] and [restricted] answer for the directory, [binds]
    and [chmods] for the socket. *)
Definition serve_arming (made restricted : result Z ()) (binds chmods : bool) (path : string) : bool * list ArmOp :=
  let '(prepared, ops) := prepare_private_parent made restricted path in
  let ops := (Directory <$> ops)%list in
  match prepared with
  | Err _ => (false, ops)
  | Ok () =>
      if negb binds then (false, (ops ++ [RemoveSocket])%list) else
      if negb chmods then (false, (ops ++ [RemoveSocket; BindSocket; RemoveSocket])%list)
      else (true, (ops ++ [RemoveSocket; BindSocket; SocketMode 384])%list)
  end.

(** What is at the path after these operations: a socket that this process
    bound, and the mode it was restricted to. *)
Definition socket_after (ops : list ArmOp) : option (option Z) :=
  foldl (λ s op, match op with
                 | Directory _ => s
                 | RemoveSocket => None
                 | BindSocket => Some None
                 | SocketMode m => (λ _, Some m) <$> s
                 end) None ops.

(** * Lemmas *)

(** Arming is served on a socket of the owner alone, in a directory of the
    owner alone, or this process leaves no socket behind. *)
Lemma arming_private made restricted binds chmods path dir :
  parent path = Some dir →
  let '(serves, ops) := serve_arming made restricted binds chmods path in
  socket_after ops = (if serves then Some (Some 384%Z) else None) ∧
  (serves = true → Directory (SetMode dir 448) ∈ ops ∧ restricted = Ok ()).
Proof.
  intros Hp. unfold serve_arming, prepare_private_parent. rewrite Hp. destruct made as [[]|]; [|done].
  destruct restricted as [[]|]; [|done]. destruct binds, chmods; cbn; split; try done. intros _. split; [|done]. right. by left.
Qed.

Lemma drain_bounded n p : (drain n p <= n)%nat.
Proof. revert p. induction n as [|n IH]; intros p; simpl; [lia|]. destruct (p 0%nat) as [[|k]|]; [lia| |lia]. specialize (IH (λ i, p (S i))). lia. Qed.

Lemma write_all_prefix n s : ∃ r, s = write_all n s +:+ r.
Proof.
  unfold write_all. revert s. induction n as [|n IH]; intros s; [by exists s; destruct s|].
  destruct s as [|c s]; [by exists ""|]. destruct (IH s) as [r Hr]. exists r. simpl. by rewrite Hr at 1.
Qed.

Lemma refuse_reads w bytes : (reads (refuse w bytes) <= 32)%nat.
Proof. simpl. destruct (nonblocking w); [apply (drain_bounded REFUSAL_DRAIN_READS)|lia]. Qed.

Lemma refuse_prefix w bytes : ∃ r, bytes = response (refuse w bytes) +:+ r.
Proof. simpl. destruct (_ && _); [apply write_all_prefix|by exists bytes]. Qed.

Section gate.
Context (check : option IpAddr → option IpAddr → bool).

(** What holds of a gate. *)
Definition gate_ok (g : Gate) : Prop :=
  active g = size (live g) ∧ (active g <= MAX_CONCURRENT_CONNECTIONS)%nat ∧
  (∀ id, id ∈ live g → (id < admitted g)%nat) ∧
  Forall (λ r, reads r = 0%nat ∧ ∃ rest, PEER_REFUSAL = response r +:+ rest) (turned_away g) ∧
  Forall (λ x, (reads x.2 <= 32)%nat ∧ ∃ rest, BUSY_REFUSAL = response x.2 +:+ rest) (busy g).

Lemma gate_step_ok g e : gate_ok g → gate_ok (gate_step check g e).
Proof.
  intros (H1 & H2 & H3 & H4 & H5). unfold gate_step. destruct (stopped g); [done|].
  destruct e as [remote local w started| |id]; [|done|].
  - destruct (check remote local); cbn [negb].
    + unfold acquire. destruct (Nat.eqb_spec (active g) MAX_CONCURRENT_CONNECTIONS) as [E|E]; split_and!; simpl; try done.
      * intros id Hid%H3. lia.
      * apply Forall_app. split; [done|]. apply Forall_singleton. split; [apply refuse_reads|apply refuse_prefix].
      * rewrite H1, size_union, size_singleton; [lia|]. intros id Hid%H3 ->%elem_of_singleton. lia.
      * lia.
      * intros id [Hid%H3| ->%elem_of_singleton]%elem_of_union; lia.
    + split_and!; simpl; try done. apply Forall_app. split; [done|]. apply Forall_singleton.
      split; [done|apply write_all_prefix].
  - case_bool_decide as Hid; [|done]. split_and!; simpl; try done; [|lia|set_solver].
    rewrite size_difference by set_solver. rewrite size_singleton. lia.
Qed.

Lemma gate_run_ok events : gate_ok (gate_run check gate_start events).
Proof.
  unfold gate_run. assert (gate_ok gate_start) as H by (split_and!; simpl; [done|lia|set_solver|constructor|constructor]).
  revert H. generalize gate_start. induction events as [|e events IH]; intros g Hg; [done|].
  cbn [foldl]. apply IH. by apply gate_step_ok.
Qed.

Definition listed (e : GEvent) : bool :=
  match e with GArrives remote local _ _ => check remote local | _ => true end.

(** The gate as everyone but the turned away sees it. *)
Definition view (g : Gate) : nat * gset nat * nat * list (nat * Refused) * bool :=
  (active g, live g, admitted g, busy g, stopped g).

Lemma gate_step_view g h e : view g = view h → view (gate_step check g e) = view (gate_step check h e).
Proof.
  destruct g as [ga gl gn gt gb gs], h as [ha hl hn ht hb hs]. unfold view. simpl. intros [= -> -> -> -> ->].
  unfold gate_step; simpl. destruct hs; [done|]. destruct e as [remote local w started| |id]; [|done|].
  - destruct (check remote local); simpl; [|done]. by destruct (acquire ha).
  - by case_bool_decide.
Qed.

Lemma gate_step_unlisted g e : listed e = false → view (gate_step check g e) = view g.
Proof.
  destruct e as [remote local w started| |id]; simpl; [|done|done]. intros E. unfold gate_step, view.
  destruct (stopped g) eqn:Es; [by rewrite Es|]. by rewrite E.
Qed.

Lemma gate_run_listed g h events : view g = view h →
  view (gate_run check g events) = view (gate_run check h (filter (λ e, listed e = true) events)).
Proof.
  unfold gate_run. revert g h. induction events as [|e events IH]; intros g h Hv; [done|].
  rewrite filter_cons. cbn [foldl]. case_decide as Hl; cbn [foldl].
  - apply IH. by apply gate_step_view.
  - apply IH. rewrite gate_step_unlisted; [done|]. by destruct (listed e).
Qed.

(** C27: strangers cost a gate nothing.  Of a history of arrivals and returns,
    the permits, the live connections, who was served, who was told the gate
    is busy and whether it still runs are what they are without the arrivals
    the gate does not admit, however many there are; those are sent no more
    than [REFUSED PEER] and none of their bytes is read.  Permits and live
    connections agree and are at most 32, and even a client told the gate is
    busy is read at most 32 times. *)
Theorem strangers_cost_nothing events :
  let g := gate_run check gate_start events in
  let h := gate_run check gate_start (filter (λ e, listed e = true) events) in
  view g = view h ∧
  active g = size (live g) ∧ (active g <= 32)%nat ∧
  Forall (λ r, reads r = 0%nat ∧ ∃ rest, PEER_REFUSAL = response r +:+ rest) (turned_away g) ∧
  Forall (λ x, (reads x.2 <= 32)%nat ∧ ∃ rest, BUSY_REFUSAL = response x.2 +:+ rest) (busy g).
Proof.
  intros g h. destruct (gate_run_ok events) as (H1 & H2 & _ & H4 & H5). split; [|done].
  by apply gate_run_listed.
Qed.

(** Below the limit an admitted arrival is served, and not before another
    returned when the gate is full. *)
Lemma gate_serves g remote local w : stopped g = false → check remote local = true →
  (active g < 32)%nat → admitted g ∈ live (gate_step check g (GArrives remote local w true)).
Proof.
  intros Hs Hc Ha. unfold gate_step. rewrite Hs, Hc. cbn [negb]. unfold acquire.
  destruct (Nat.eqb_spec (active g) MAX_CONCURRENT_CONNECTIONS) as [E|E]; [unfold MAX_CONCURRENT_CONNECTIONS in E; lia|].
  simpl. set_solver.
Qed.

End gate.

(** ** What a handler answers *)

(** The frames of the two gates. *)
Definition bridge_frames : list string :=
  [GENERIC_REFUSAL; PEER_REFUSAL; BUSY_REFUSAL; DENIED_PORT_REFUSAL; UNARMED_PORT_REFUSAL].

Definition relay_frames : list string :=
  [GENERIC_REFUSAL; PEER_REFUSAL; BUSY_REFUSAL; FEED_REFUSAL; TOKEN_UPSTREAM_HEALTHY_REFUSAL; TOKEN_UPSTREAM_DOWN_REFUSAL].

Definition handled_frame (h : Handled) : option string :=
  match h with RefusesPeer b | Refuses b => Some b | Drops | Pipes => None end.

Lemma bridge_handle_frames parse cfg lport remote requested up timeouts f :
  handled_frame (bridge_handle parse cfg lport remote requested up timeouts) = Some f → f ∈ bridge_frames.
Proof.
  unfold bridge_handle. intros H.
  repeat (case_match; simpl in H; simplify_eq); unfold bridge_frames; set_solver.
Qed.

(** A callback is piped exactly for an admitted address that asked for a port
    that may be dialled and was reached. *)
Lemma bridge_handle_pipes parse cfg lport remote requested up timeouts :
  bridge_handle parse cfg lport remote requested up timeouts = Pipes ↔
  ∃ ip port, remote = Some ip ∧ requested = Some port ∧ Bridge.handle parse cfg lport remote requested = Dials port ∧
             up = Connected ∧ timeouts_set timeouts = true.
Proof.
  unfold bridge_handle, Bridge.handle. destruct remote as [ip|]; [|naive_solver].
  destruct (authorized parse cfg ip); simpl; [|naive_solver].
  destruct requested as [port|]; [|naive_solver]. destruct (denied_port cfg lport port); [naive_solver|].
  destruct up; [|naive_solver..]. destruct (timeouts_set timeouts); naive_solver.
Qed.

(** The bytes of a decision of the relay. *)
Definition reply_frame (r : RelayReply) : option string :=
  match r with
  | PeerRefusal => Some PEER_REFUSAL
  | FeedRefusal => Some FEED_REFUSAL
  | TokenUpstreamHealthy => Some TOKEN_UPSTREAM_HEALTHY_REFUSAL
  | TokenUpstreamDown => Some TOKEN_UPSTREAM_DOWN_REFUSAL
  | GenericRefusal => Some GENERIC_REFUSAL
  | Relayed => None
  end.

Definition status_of (s : StatusRead) : option string :=
  match s with Line status true => Some status | _ => None end.

(** The handler is the decision of the feed's tokens: the same tokens are
    left, its refusals are that decision's frames, and what is piped was
    decided to be relayed. *)
Lemma relay_handle_decides parse cfg t remote local presented now status upstream timeouts :
  let h := relay_handle_from parse cfg t remote local presented now status upstream timeouts in
  let d := handle_from parse cfg t remote local presented now (status_of status) upstream in
  h.1 = d.1 ∧ handled_frame h.2 = reply_frame d.2 ∧ (h.2 = Pipes → d.2 = Relayed).
Proof.
  unfold relay_handle_from, handle_from. destruct (authorized_sensitive parse cfg remote local); cbn [negb]; [|done].
  destruct (match presented with Some p => _ | None => _ end) as [i [|]]; cbn [negb].
  - destruct upstream; cbn [negb]; [|done]. by destruct (timeouts_set timeouts).
  - destruct (connected i); cbn [negb]; [|done].
    destruct status as [| |line [|]]; try done. simpl. unfold Feed.token_refusal.
    by destruct (has_window " 200" line).
Qed.

Lemma reply_frame_known r f : reply_frame r = Some f → f ∈ relay_frames.
Proof. unfold relay_frames. destruct r; simpl; intros [= <-]; set_solver. Qed.
