(* ===== verification/Doctor.v ===== *)
(** [forward doctor]: [crates/forward/src/doctor.rs] and the files of
    [doctor/] ([response.rs], [browser.rs], [browser/evidence.rs], [grant.rs],
    [multi_peer.rs], [pcsc.rs], [preview.rs], [pulse.rs]).

    The machines it probes are what a connection to a host and a port answers:
    an error, or for the bytes written the bytes that come back and how reading
    them ends.  Each check returns its verdict and the lines it prints. *)

From stdpp Require Import prelude strings list gmap.
From Stdlib Require Import ZArith Lia Ascii.
From S2P Require Import Prelude Text Paths Channels Peers Bridge Feed Relay Daemon Ceremony Preview Gates.

Local Open Scope string_scope.

(** * Reading an answer *)

(** How a stream ends: its end, or an error with the text it displays. *)
Inductive Ending : Type := Finishes | Breaks (error : string).

Definition MAX_REFUSAL_BYTES : nat := 32.

Definition REFUSED : string := "REFUSED".

Definition known_frames : list string :=
  [frame "REFUSED"; frame "REFUSED PEER"; frame "REFUSED DENIED"; frame "REFUSED BUSY"; frame "REFUSED UNARMED";
   frame "REFUSED FEED"; frame "REFUSED TOKEN"; frame "REFUSED TOKEN UPSTREAM 200"; frame "REFUSED TOKEN UPSTREAM 503"].

Definition ended_error (e : Ending) : string :=
  match e with Finishes => "failed to fill whole buffer" | Breaks error => error end.

Fixpoint read_refusal (n : nat) (body stream : string) (e : Ending) : result string string :=
  match n with
  | O => Err "refusal frame exceeds 32 bytes"
  | S n' =>
      match stream with
      | EmptyString => Err (ended_error e)
      | String c rest =>
          let body := body +:+ String c "" in
          if negb (starts_with REFUSED body) && negb (starts_with body REFUSED)
          then match e with Finishes => Ok (body +:+ rest) | Breaks error => Err error end
          else if bool_decide (c = newline)
          then if bool_decide (body ∈ known_frames) then Ok body else Err "malformed refusal frame"
          else read_refusal n' body rest e
      end
  end.

Definition read_response (stream : string) (e : Ending) : result string string :=
  read_refusal MAX_REFUSAL_BYTES "" stream e.

(** [{:?}] of bytes. *)
Definition debug_bytes (s : string) : string :=
  "[" +:+ concat_sep ", " (to_string ∘ code <$> String.list_ascii_of_string s) +:+ "]".

Definition unexpected (body : string) : string :=
  "unexpected " +:+ to_string (slen body) +:+ "-byte response " +:+ debug_bytes body.

(** * The relay's answers *)
Inductive RelayEvidence : Type :=
| PeerRefused | FeedDown | TokenRequired | UpstreamDown | Busy | ExtensionDisconnected | Healthy.

#[global] Instance RelayEvidence_eq_dec : EqDecision RelayEvidence.
Proof. solve_decision. Defined.

(** The bytes before the first newline. *)
Definition first_line (body : string) : string := default "" (head (split newline body)).

Definition classify (body : string) : result string RelayEvidence :=
  if starts_with body "REFUSED PEER" then Ok PeerRefused else
  if starts_with body "REFUSED FEED" then Ok FeedDown else
  if starts_with body "REFUSED TOKEN UPSTREAM 503" then Ok ExtensionDisconnected else
  if starts_with body "REFUSED TOKEN" then Ok TokenRequired else
  if bool_decide (body = frame "REFUSED") then Ok UpstreamDown else
  if starts_with body "REFUSED BUSY" then Ok Busy else
  let status := first_line body in
  if has_window " 200" status then Ok Healthy else
  if has_window " 503" status then Ok ExtensionDisconnected else
  Err (unexpected body).

Fixpoint count_windows (pat s : string) : nat :=
  (if starts_with s pat then 1 else 0) + match s with EmptyString => 0 | String _ s' => count_windows pat s' end.

Definition count_targets (body : string) : nat := count_windows (quoted "'id':") body.

(** * The preview's answer *)
Inductive ProbeEvidence : Type :=
| TcpAccepted | PreviewHealthy | FileAccessRefused | BridgeDenied | BridgePeerRefused.

#[global] Instance ProbeEvidence_eq_dec : EqDecision ProbeEvidence.
Proof. solve_decision. Defined.

Definition crlf : string := String carriage_return (String newline "").

(** [str::split] on the two characters of a line end. *)
Fixpoint crlf_lines (s : string) : list string :=
  match s with
  | EmptyString => [""]
  | String c s' =>
      match s' with
      | String d s'' =>
          if bool_decide (c = carriage_return) && bool_decide (d = newline) then "" :: crlf_lines s''
          else match crlf_lines s' with [] => [String c ""] | w :: ws => String c w :: ws end
      | EmptyString => [String c ""]
      end
  end.

Definition is_ascii_control (c : ascii) : bool := in_range 0 31 c || in_range 127 127 c.

(** [str::splitn] with three pieces. *)
Definition splitn3 (s : string) : string * option string * option string :=
  match split_once " " s with
  | None => (s, None, None)
  | Some (a, rest) =>
      match split_once " " rest with
      | None => (a, Some rest, None)
      | Some (b, c) => (a, Some b, Some c)
      end
  end.

Definition token_marks : string := String.concat "" ["!#$%&"; String squote ""; "*+-.^_`|~"].

Definition header_name_byte (c : ascii) : bool := is_ascii_alphanumeric c || contains_byte c token_marks.

Definition header_value_byte (c : ascii) : bool :=
  negb ((in_range 0 31 c && negb (bool_decide (c = tab))) || in_range 127 127 c).

Definition eq_ignore_ascii_case (s t : string) : bool :=
  bool_decide (map_bytes to_ascii_lowercase s = map_bytes to_ascii_lowercase t).

Definition blank (c : ascii) : bool := bool_decide (c = " "%char) || bool_decide (c = tab).

(** [trim_matches] of blanks. *)
Fixpoint trim_start_blank (s : string) : string :=
  match s with String c s' => if blank c then trim_start_blank s' else s | EmptyString => "" end.

Fixpoint trim_end_blank (s : string) : string :=
  match s with
  | EmptyString => ""
  | String c s' => match trim_end_blank s' with
                   | EmptyString => if blank c then "" else String c ""
                   | t => String c t
                   end
  end.

Definition trim_blank (s : string) : string := trim_end_blank (trim_start_blank s).

(** The header loop: the content length seen so far. *)
Fixpoint header_loop (length : option Z) (lines : list string) : result string (option Z) :=
  match lines with
  | [] => Ok length
  | line :: rest =>
      match split_once ":" line with
      | None => Err "malformed preview health header"
      | Some (name, value) =>
          if is_empty name || negb (all_bytes header_name_byte name) then Err "invalid preview health header name" else
          if negb (all_bytes header_value_byte value) then Err "invalid control byte in preview health header" else
          if eq_ignore_ascii_case name "Transfer-Encoding"
          then Err "preview health response must not use Transfer-Encoding" else
          if eq_ignore_ascii_case name "Content-Length" then
            let value := trim_blank value in
            if is_some length || is_empty value || negb (all_bytes is_ascii_digit value)
            then Err "invalid or duplicate preview health Content-Length" else
            match parse_unsigned u64_max value with
            | None => Err "invalid preview health Content-Length"
            | Some n => header_loop (Some n) rest
            end
          else header_loop length rest
      end
  end.

(** The answer of a bridge, by [probe_bridge]. *)
Definition bridge_classify (body : string) : result string ProbeEvidence :=
  if bool_decide (body = frame "REFUSED DENIED") then Ok BridgeDenied else
  if bool_decide (body = frame "REFUSED PEER") then Ok BridgePeerRefused else
  Err (unexpected body).

Section probing.
(** [debug] displays a string in an error line ([{:?}]); [is_v6] recognises
    IPv6 literals, as [url_host] asks the standard library. *)
Context (debug : string → string) (is_v6 : string → bool).

Definition preview_classify (response : string) : result string ProbeEvidence :=
  match split_once (crlf +:+ crlf) response with
  | None => Err "preview health response has no header separator"
  | Some (before, body) =>
      match from_utf8 before with
      | None => Err "preview health headers are not UTF-8"
      | Some headers =>
          match crlf_lines headers with
          | [] => Err "preview health response has no status"
          | status :: lines =>
              if any_byte is_ascii_control status then Err "preview health status contains a control byte" else
              let '(version, code, reason) := splitn3 status in
              if negb (bool_decide (version = "HTTP/1.0") || bool_decide (version = "HTTP/1.1"))
              then Err "preview health response has an invalid HTTP version" else
              match code with
              | None => Err "preview health response has no status code"
              | Some code =>
                  match reason with
                  | None => Err "preview health status has no reason separator"
                  | Some reason =>
                      if starts_with reason " " then Err "preview health status has an invalid separator" else
                      if bool_decide (code = "403") then Ok FileAccessRefused else
                      if negb (bool_decide (code = "200")) then Err (HEALTH_PATH +:+ " answered " +:+ debug status) else
                      length ← header_loop None lines;
                      if bool_decide (length = Some (slen HEALTH_BODY)) && bool_decide (body = HEALTH_BODY)
                      then Ok PreviewHealthy
                      else Err "preview health response has an unexpected length or body"
                  end
              end
          end
      end
  end.

(** What a read does. *)
Inductive ReadStep : Type := Chunk (bytes : string) | Broken (error : string).

(** The reads of [preview::probe]: the [i]th is made at [fst (steps i)] and
    does [snd (steps i)].  A read returns at most what the buffer has room for;
    what is left of a chunk is of no use, since the next round finds the buffer
    full.  Each round fills the buffer or is the last, so the fuel of
    [preview_read] is never used up. *)
Fixpoint preview_loop (fuel : nat) (deadline : Z) (used : string) (i : nat) (steps : nat → Z * ReadStep) :
    result string string :=
  match fuel with
  | O => Err "out of fuel"
  | S fuel =>
      if (deadline <=? (steps i).1)%Z then Err "preview health response deadline exceeded" else
      if (4096 <=? String.length used)%nat then Err "preview health response exceeds 4096 bytes" else
      match (steps i).2 with
      | Broken error => Err error
      | Chunk EmptyString => Ok used
      | Chunk bytes => preview_loop fuel deadline (used +:+ prefix_of (4096 - String.length used) bytes) (S i) steps
      end
  end.

Definition preview_read (deadline : Z) (steps : nat → Z * ReadStep) : result string string :=
  preview_loop 4097 deadline "" 0 steps.

(** * The machines *)

(** A connection: when it was opened, and for the request written an error of
    writing, or the answer, as bytes with their end and as the reads by which
    they come. *)
Record Conn : Type := {
  opened : Z;
  answers : string → result string (string * Ending * (nat → Z * ReadStep));
}.

(** [resolves] is [to_socket_addrs], [dials_to] [connect_timeout] and
    [read_timeout] [set_read_timeout]; [host] holds the environment; [is_dir] and [socket_accepts] ask the file system;
    [grant_reply] is the reply of the local request socket to [STATUS], and
    [served] what [endpoint_is_served] finds at a port. *)
Record World : Type := {
  resolves : string → Z → result string (list (IpAddr * Z));
  dials_to : IpAddr * Z → result string Conn;
  read_timeout : IpAddr * Z → result string ();
  host : Host;
  is_dir : list Component → bool;
  socket_accepts : string → result string ();
  grant_reply : option string;
  served : Z → bool;
}.

Context (w : World).

Definition PROBE_TIMEOUT : Z := Time.from_secs 3.

(** [connect]. *)
Definition connects (host : string) (port : Z) : result string Conn :=
  addresses ← resolves w host port;
  address ← ok_or "no address" (head addresses);
  stream ← dials_to w address;
  _ ← read_timeout w address;
  Ok stream.

Definition probe_url_channel (host : string) (port : Z) : result string ProbeEvidence :=
  (λ _, TcpAccepted) <$> connects host port.

Definition probe_bridge (host : string) (port : Z) : result string ProbeEvidence :=
  stream ← connects host port;
  '(bytes, e, _) ← answers stream (frame "CONNECT 0");
  body ← read_response bytes e;
  bridge_classify body.

Definition preview_request (host : string) : string :=
  "GET " +:+ HEALTH_PATH +:+ " HTTP/1.0" +:+ crlf +:+ "Host: " +:+ url_host is_v6 host +:+ crlf +:+
  "Connection: close" +:+ crlf +:+ crlf.

Definition preview_probe (host : string) (port : Z) : result string ProbeEvidence :=
  stream ← connects host port;
  '(_, _, steps) ← answers stream (preview_request host);
  response ← preview_read (opened stream + PROBE_TIMEOUT)%Z steps;
  preview_classify response.

(** * Channels *)
Definition at_ (host : string) (port : Z) : string := host +:+ ":" +:+ to_string port.

Definition observation (e : ProbeEvidence) (host : string) (port : Z) : string :=
  match e with
  | TcpAccepted => "accepted TCP at " +:+ at_ host port +:+ "; delivery unverified"
  | PreviewHealthy => "answered preview health probe at " +:+ at_ host port
  | FileAccessRefused => "reachable and correctly refused self-probe at " +:+ at_ host port +:+ " (HTTP 403)"
  | BridgeDenied => "confirmed denied-port refusal at " +:+ at_ host port +:+ "; active relay delivery unverified"
  | BridgePeerRefused =>
      "reachable and correctly refused self-probe at " +:+ at_ host port +:+ "; active relay delivery unverified"
  end.

Definition failure_reason (e : ProbeEvidence) : string :=
  match e with
  | TcpAccepted | PreviewHealthy | BridgeDenied => "internal doctor evidence classification error"
  | FileAccessRefused => "HTTP 403 from a vantage that should be served"
  | BridgePeerRefused => "peer refusal from a vantage that should be served"
  end.

Definition probe_hosts (cfg : Config) : list string :=
  foldl (λ hosts host, if negb (is_empty host) && negb (bool_decide (host ∈ hosts)) then (hosts ++ [host])%list else hosts)
    [] [listen cfg; "127.0.0.1"; peer cfg].

Context (parse : string → option IpAddr).

Definition has_routable_listen (cfg : Config) : bool :=
  match listen_ip parse cfg with Ok address => negb (is_loopback address) | Err _ => false end.

Definition evidence_is_healthy (cfg : Config) (host : string) (e : ProbeEvidence) : bool :=
  match e with
  | FileAccessRefused | BridgePeerRefused => bool_decide (host = listen cfg) && has_routable_listen cfg
  | TcpAccepted | PreviewHealthy | BridgeDenied => true
  end.

(** The verdict of a check and the lines it prints. *)
Notation Report := (bool * list string)%type.

Fixpoint channel_loop (cfg : Config) (hosts : list string) (name : string) (port : Z)
    (probe : string → Z → result string ProbeEvidence) (failures : list string) : Report :=
  match hosts with
  | [] => (false, [name +:+ ": FAIL — tried " +:+ concat_sep ", " failures])
  | host :: rest =>
      match probe host port with
      | Ok e =>
          if evidence_is_healthy cfg host e then (true, [name +:+ ": " +:+ observation e host port])
          else channel_loop cfg rest name port probe
                 (failures ++ [at_ host port +:+ " (" +:+ failure_reason e +:+ ")"])%list
      | Err reason =>
          channel_loop cfg rest name port probe (failures ++ [at_ host port +:+ " (" +:+ reason +:+ ")"])%list
      end
  end.

Definition channel (cfg : Config) (hosts : list string) (name : string) (port : Z)
    (probe : string → Z → result string ProbeEvidence) : Report :=
  channel_loop cfg hosts name port probe [].

Definition optional_channel (cfg : Config) (hosts : list string) (name field : string) (port : Z) : Report :=
  if (port =? 0)%Z then (true, [name +:+ ": disabled (" +:+ field +:+ " = 0)"])
  else channel cfg hosts name port probe_url_channel.

(** * The browser relay *)
Definition RELAY_TARGET_PORT : Z := 9224.

Definition relay_request_line (host : string) (port : Z) (path : string) : string :=
  "GET " +:+ path +:+ " HTTP/1.0" +:+ crlf +:+ "Host: " +:+ url_host is_v6 host +:+ ":" +:+ to_string port +:+ crlf +:+
  "Connection: close" +:+ crlf +:+ crlf.

Definition request (host : string) (port : Z) (path : string) : result string string :=
  stream ← connects host port;
  '(bytes, e, _) ← answers stream (relay_request_line host port path);
  read_response bytes e.

Definition relay_probe (host : string) (port : Z) (path : string) : result string RelayEvidence :=
  body ← request host port path; classify body.

Definition relay_fail (text : string) : bool * string := (false, "browser relay: FAIL — " +:+ text).
Definition relay_fine (text : string) : bool * string := (true, "browser relay: " +:+ text).

Definition report_probe (r : result string RelayEvidence) (host : string) (port : Z) (probe_host : string) (probe_port : Z) :
    bool * string :=
  match r with
  | Err error => relay_fail (at_ host port +:+ " (" +:+ error +:+ "); relay channel down — is forward daemon running?")
  | Ok PeerRefused => relay_fail (at_ host port +:+ ": not the configured peer — check peer on the laptop")
  | Ok FeedDown =>
      relay_fail ("laptop has no grant feed — is forward serve running on the devbox? (at " +:+ at_ host port +:+ ")")
  | Ok TokenRequired => relay_fine ("locked at " +:+ at_ host port +:+ " (no grant)")
  | Ok UpstreamDown => relay_fail ("relay process down — start omp-browser-relay (via " +:+ at_ host port +:+ ")")
  | Ok Busy => relay_fail (at_ host port +:+ " at its connection limit")
  | Ok ExtensionDisconnected =>
      relay_fine ("relay up, extension not connected — check the badge (at " +:+ at_ host port +:+ ")")
  | Ok Healthy =>
      match request probe_host probe_port "/json/list" with
      | Ok body => relay_fine ("healthy at " +:+ at_ host port +:+ " (" +:+ to_string (Z.of_nat (count_targets body)) +:+ " targets)")
      | Err error => relay_fail (at_ host port +:+ " (/json/list: " +:+ error +:+ ")")
      end
  end.

Definition report_laptop_upstream (r : result string RelayEvidence) (host : string) (port relay_target_port : Z) :
    bool * string :=
  match r with
  | Err _ | Ok UpstreamDown => relay_fail ("relay process down — start omp-browser-relay (via " +:+ at_ host port +:+ ")")
  | _ => report_probe r host port "127.0.0.1" relay_target_port
  end.

Definition relay_dialed_at_peer (cfg : Config) : bool :=
  match listen_ip parse cfg, peer_ip parse cfg with
  | Ok listen, Ok (Some peer) =>
      negb (is_multi_peer cfg) && negb (bool_decide (to_canonical listen = to_canonical peer))
  | _, _ => false
  end.

Definition report_devbox_peer (cfg : Config) (local_error : string) : bool * string :=
  match relay_probe (peer cfg) (relay_port cfg) "/json/version" with
  | Err peer_error =>
      relay_fail ("neither local listener " +:+ at_ (listen cfg) (relay_port cfg) +:+ " (" +:+ local_error +:+
        ") nor laptop peer " +:+ at_ (peer cfg) (relay_port cfg) +:+ " (" +:+ peer_error +:+ ") answered")
  | r => report_probe r (peer cfg) (relay_port cfg) (peer cfg) (relay_port cfg)
  end.

Definition evaluate_with (cfg : Config) (well_known_port relay_target_port : Z) : bool * string :=
  if (relay_port cfg =? 0)%Z && (is_multi_peer cfg || negb (has_peers cfg))
  then relay_fine "disabled (relay_port = 0)" else
  if (relay_port cfg =? 0)%Z
  then report_probe (relay_probe (peer cfg) well_known_port "/json/version") (peer cfg) well_known_port
         (peer cfg) well_known_port
  else
    let r := relay_probe (listen cfg) (relay_port cfg) "/json/version" in
    match r with
    | Ok PeerRefused =>
        if has_routable_listen cfg
        then report_laptop_upstream (relay_probe "127.0.0.1" relay_target_port "/json/version") (listen cfg) (relay_port cfg)
               relay_target_port
        else report_probe r (listen cfg) (relay_port cfg) (listen cfg) (relay_port cfg)
    | Err local_error =>
        if relay_dialed_at_peer cfg then report_devbox_peer cfg local_error
        else report_probe r (listen cfg) (relay_port cfg) (listen cfg) (relay_port cfg)
    | _ => report_probe r (listen cfg) (relay_port cfg) (listen cfg) (relay_port cfg)
    end.

Definition browser_report (cfg : Config) : Report :=
  let '(healthy, line) := evaluate_with cfg (relay_port default_values) RELAY_TARGET_PORT in (healthy, [line]).

(** * The grant row *)
Definition grant_row (s : GrantStatus) (is_served : Z → bool) : string :=
  match s with
  | StatusUnreachable =>
      "browser grant: info — grant status unavailable; no valid STATUS reply from the local request socket"
  | StatusNone => "browser grant: none for this session — forward browser grant --ttl 30m"
  | StatusLive port remaining =>
      let row := "browser grant: live for this session at http://127.0.0.1:" +:+ to_string port +:+ " (" +:+
                 to_string remaining +:+ "s left)" in
      if is_served port
      then row +:+ " — endpoint served here; the laptop side is not probed from forward"
      else row +:+ " — no endpoint is served here; forward browser grant --ttl 30m"
  end.

Definition grant_report : list string := [grant_row (Ceremony.status (grant_reply w)) (served w)].

(** * The devbox's sockets *)
Definition in_directory (path : option string) : option string :=
  path ≫= λ p, if is_some_and (is_dir w) (parent p) then Some p else None.

Definition socket_accepted (name path : string) : bool * string :=
  match socket_accepts w path with
  | Ok () => (true, name +:+ ": " +:+ path +:+ " accepts")
  | Err error => (false, name +:+ ": FAIL — " +:+ path +:+ " (" +:+ error +:+ "); is forward serve running?")
  end.

Definition pcsc_evaluate (cfg : Config) (socket : option string) : bool * string :=
  match socket with
  | None => (true, "pcsc socket: not served on this machine (no ~/.pcscd)")
  | Some path =>
      if negb (has_peers cfg) then (true, "pcsc socket: not served (no peer configured)") else
      if (pcsc_port cfg =? 0)%Z then (true, "pcsc socket: not served (pcsc channel disabled, pcsc_port = 0)")
      else socket_accepted "pcsc socket" path
  end.

Definition pulse_evaluate (cfg : Config) (socket : option string) : bool * string :=
  match socket with
  | None => (true, "pulse socket: not served on this machine (no $XDG_RUNTIME_DIR/forward)")
  | Some path =>
      if negb (has_peers cfg) then (true, "pulse socket: not served (no peer configured)") else
      if (pulse_port cfg =? 0)%Z then (true, "pulse socket: not served (pulse channel disabled, pulse_port = 0)")
      else socket_accepted "pulse socket" path
  end.

Definition pcsc_report (cfg : Config) : Report :=
  let '(healthy, line) := pcsc_evaluate cfg (in_directory (pcsc_socket_path (host w))) in (healthy, [line]).

Definition pulse_report (cfg : Config) : Report :=
  let '(healthy, line) := pulse_evaluate cfg (in_directory (pulse_socket_path (host w))) in (healthy, [line]).

(** * The command *)

(** Checks one after the other: every one is made and printed, and the
    verdict is that of all. *)
Definition andr (r s : Report) : Report := (r.1 && s.1, (r.2 ++ s.2)%list).
Definition info (lines : list string) : Report := (true, lines).

Context (display : IpAddr → string) (show_error : ConfigError → string).

Definition multi_report (cfg : Config) (channel_port files_port : Z) : Report :=
  match peer_ips parse cfg with
  | Err error => (false, ["peers: FAIL — " +:+ show_error error])
  | Ok peers =>
      let local := [listen cfg] in
      let own :=
        andr (channel cfg local "url channel" channel_port probe_url_channel)
        (andr (browser_report cfg)
        (andr (info grant_report)
        (andr (optional_channel cfg local "pcsc channel" "pcsc_port" (pcsc_port cfg))
              (optional_channel cfg local "pulse channel" "pulse_port" (pulse_port cfg))))) in
      foldl (λ acc peer,
          let name := "peer " +:+ display peer in
          let host := [display peer] in
          andr acc
          (andr (channel cfg host (name +:+ " file preview") files_port preview_probe)
          (andr (channel cfg host (name +:+ " callback bridge") (bridge_port cfg) probe_bridge)
                (optional_channel cfg host (name +:+ " browser feed") "grant_port" (grant_port cfg)))))
        own peers
  end.

Definition run (cfg : Config) (channel_port files_port : Z) : Report :=
  if is_multi_peer cfg then multi_report cfg channel_port files_port else
  let hosts := probe_hosts cfg in
  andr (channel cfg hosts "url channel" channel_port probe_url_channel)
  (andr (channel cfg hosts "file preview" files_port preview_probe)
  (andr (channel cfg hosts "callback bridge" (bridge_port cfg) probe_bridge)
  (andr (browser_report cfg)
  (andr (info grant_report)
  (andr (optional_channel cfg hosts "browser feed" "grant_port" (grant_port cfg))
  (andr (optional_channel cfg hosts "pcsc channel" "pcsc_port" (pcsc_port cfg))
  (andr (pcsc_report cfg)
  (andr (optional_channel cfg hosts "pulse channel" "pulse_port" (pulse_port cfg))
        (pulse_report cfg))))))))).

End probing.

(** * The endpoint check *)

(** A read of [endpoint_is_served]; no bytes are the end of the stream. *)
Inductive EndpointRead : Type := Bytes (s : string) | Interrupt | EndpointError.

(** The loop, from what it has of the answer; [None] when the script of reads,
    each with the clock before it and whether its timeout could be set, has not
    ended it. *)
Fixpoint endpoint_loop (deadline : Z) (answer : string) (script : list (Z * bool * EndpointRead)) : option string :=
  if (String.length SESSION_REFUSAL <=? String.length answer)%nat then Some answer else
  match script with
  | [] => None
  | (now, timeout_set, read) :: rest =>
      if (Time.duration_since deadline now =? 0)%Z || negb timeout_set then Some answer else
      match read with
      | Bytes EmptyString => Some answer
      | Bytes s => endpoint_loop deadline (answer +:+ prefix_of (String.length SESSION_REFUSAL - String.length answer) s) rest
      | Interrupt => endpoint_loop deadline answer rest
      | EndpointError => Some answer
      end
  end.

Definition ENDPOINT_PROBE_TIMEOUT : Z := Time.from_secs 3.

Definition endpoint_is_served (connected : bool) (now : Z) (script : list (Z * bool * EndpointRead)) : option bool :=
  if negb connected then Some false else
  match Time.checked_add now ENDPOINT_PROBE_TIMEOUT with
  | None => Some false
  | Some deadline => (λ answer, starts_with answer SESSION_REFUSAL) <$> endpoint_loop deadline "" script
  end.

(** * Refusals read back *)

Lemma read_response_frame f rest e : f ∈ (bridge_frames ++ relay_frames)%list → read_response (f +:+ rest) e = Ok f.
Proof.
  unfold bridge_frames, relay_frames. cbn [app]. intros H.
  repeat (apply elem_of_cons in H as [->|H]; [by vm_compute|]). by apply not_elem_of_nil in H.
Qed.

Lemma read_response_cut f n e : f ∈ (bridge_frames ++ relay_frames)%list → (n < String.length f)%nat →
  read_response (write_all n f) e = Err (ended_error e).
Proof.
  unfold bridge_frames, relay_frames. cbn [app]. intros H.
  repeat (apply elem_of_cons in H as [->|H];
    [intros Hn; vm_compute in Hn; do 28 (destruct n as [|n]; [first [exfalso; lia|by vm_compute]|]); exfalso; lia|]).
  by apply not_elem_of_nil in H.
Qed.

(** Anything else is read to its end. *)
Lemma read_response_other c stream : starts_with REFUSED (String c "") = false →
  read_response (String c stream) Finishes = Ok (String c stream).
Proof.
  intros H. unfold read_response, MAX_REFUSAL_BYTES. cbn [read_refusal]. change ("" +:+ String c "") with (String c "").
  rewrite H. replace (starts_with (String c "") REFUSED) with false; [done|].
  symmetry. unfold starts_with, REFUSED. cbn [strip_prefix]. by destruct (bool_decide _).
Qed.

(** The evidence that fits a relay gate whose upstream, when it gets as far as
    asking, answers the status line [line]. *)
Definition relay_evidence (admitted fed : bool) (line : string) : RelayEvidence :=
  if negb admitted then PeerRefused else
  if negb fed then FeedDown else
  if has_window " 200" line then TokenRequired else ExtensionDisconnected.

Lemma parse_connect_zero : parse_connect "CONNECT 0" = Some 0%Z.
Proof. by vm_compute. Qed.

Lemma bridge_probe_answer parse cfg lport ip up timeouts :
  bridge_handle parse cfg lport (Some ip) (parse_connect "CONNECT 0") up timeouts =
  if authorized parse cfg ip then Refuses DENIED_PORT_REFUSAL else RefusesPeer PEER_REFUSAL.
Proof.
  rewrite parse_connect_zero. unfold bridge_handle. destruct (authorized parse cfg ip); [|done]. simpl.
  by replace (denied_port cfg lport 0) with true.
Qed.

Lemma relay_probe_answer parse cfg t remote local now status upstream timeouts :
  ∃ f, handled_frame (relay_handle_from parse cfg t remote local None now status upstream timeouts).2 = Some f ∧
    f ∈ relay_frames ∧
    classify f = Ok (relay_evidence (authorized_sensitive parse cfg remote local) (connected (cache t (scope_of cfg remote)))
                       (default "" (status_of status))).
Proof.
  unfold relay_handle_from, relay_evidence, relay_frames.
  destruct (authorized_sensitive parse cfg remote local); cbn [negb];
    [|eexists; split_and!; [done|set_solver|by vm_compute]].
  destruct (connected (cache t (scope_of cfg remote))); cbn [negb];
    [|eexists; split_and!; [done|set_solver|by vm_compute]].
  destruct status as [| |status ok]; cbn [token_refusal status_of from_option id];
    [eexists; split_and!; [done|set_solver|by vm_compute]..|].
  destruct ok; cbn [andb from_option id]; [|eexists; split_and!; [done|set_solver|by vm_compute]].
  destruct (has_window " 200" status); (eexists; split_and!; [done|set_solver|by vm_compute]).
Qed.

(** A line that does not start as [RELAY ] presents no token. *)
Lemma request_presents_nothing now timeout t c script :
  c ≠ "R"%char → read_relay_token now timeout ((t, Got c) :: script) = Some None.
Proof.
  intros Hc. unfold read_relay_token. destruct (Time.checked_add now timeout) as [dl|]; [|done].
  change (seq 0 Feed.MAX_REQUEST_LINE) with (0 :: seq 1 127)%nat%list. generalize (seq 1 127). intros l. cbn [token_loop].
  destruct (_ =? 0)%Z; [done|]. change (String.get 0 RELAY_PREFIX) with (Some "R"%char). cbv beta iota.
  by rewrite (bool_decide_eq_false_2 (c = "R"%char) Hc).
Qed.

(** C31: what the gates answer, [forward doctor] understands.  Asked for port 0
    the bridge never dials, and its answer is read back as the evidence that
    fits: a denied port for an admitted address, a refused peer for any other.
    The relay's answer to a request without a token is read back as a refused
    peer, a missing feed, a missing token when the upstream answers with status
    200 and a disconnected extension when it answers with another status; this
    is claimed for an upstream that answers with a status line.  (One that does
    not answer at all is also read as a disconnected extension, which is not
    what it is: [dead_upstream_reads_up].)  A refusal cut short anywhere is an
    error, never evidence. *)
Theorem doctor_reads_gates parse cfg :
  (∀ lport ip up timeouts rest e,
     ∃ f, handled_frame (bridge_handle parse cfg lport (Some ip) (parse_connect "CONNECT 0") up timeouts) = Some f ∧
       read_response (f +:+ rest) e = Ok f ∧
       bridge_classify f = Ok (if authorized parse cfg ip then BridgeDenied else BridgePeerRefused)) ∧
  (∀ t remote local now timeout at_time c script status line upstream timeouts rest e, c ≠ "R"%char →
     (authorized_sensitive parse cfg remote local = true → connected (cache t (scope_of cfg remote)) = true →
        status = Line line true ∧ line ≠ "") →
     ∃ f, handled_frame (relay_handle_from parse cfg t remote local
            (mjoin (read_relay_token now timeout ((at_time, Got c) :: script))) now status upstream timeouts).2 = Some f ∧
       read_response (f +:+ rest) e = Ok f ∧
       classify f = Ok (relay_evidence (authorized_sensitive parse cfg remote local)
                          (connected (cache t (scope_of cfg remote))) line)) ∧
  (∀ f n e, f ∈ (bridge_frames ++ relay_frames)%list → (n < String.length f)%nat →
     read_response (write_all n f) e = Err (ended_error e)).
Proof.
  split_and!.
  - intros. rewrite bridge_probe_answer. destruct (authorized parse cfg ip); (eexists; split_and!; [done| |by vm_compute]);
      apply read_response_frame; unfold bridge_frames; set_solver.
  - intros t remote local now timeout at_time c script status line upstream timeouts rest e Hc Hup.
    rewrite request_presents_nothing by done. change (mjoin (Some None)) with (@None string).
    destruct (relay_probe_answer parse cfg t remote local now status upstream timeouts) as (f & H1 & H2 & H3).
    exists f. split_and!; [done|apply read_response_frame, elem_of_app; by right|]. rewrite H3. unfold relay_evidence.
    destruct (authorized_sensitive parse cfg remote local); [|done]. destruct (connected _); [|done].
    by destruct (Hup eq_refl eq_refl) as [-> _].
  - intros. by apply read_response_cut.
Qed.

(** A relay process that is down is not told from an extension that is not
    connected: when nothing answers at the laptop's upstream, the row says the
    relay is up, and is healthy. *)
Lemma dead_upstream_reads_up parse cfg t remote local now upstream timeouts is_v6 w host port :
  authorized_sensitive parse cfg remote local = true → connected (cache t (scope_of cfg remote)) = true →
  ∃ f, handled_frame (relay_handle_from parse cfg t remote local None now NoConnection upstream timeouts).2 = Some f ∧
    report_probe is_v6 w (classify f) host port host port =
      (true, "browser relay: relay up, extension not connected — check the badge (at " +:+ at_ host port +:+ ")").
Proof.
  intros Ha Hc. destruct (relay_probe_answer parse cfg t remote local now NoConnection upstream timeouts) as (f & H1 & _ & H3).
  exists f. split; [done|]. rewrite H3, Ha, Hc. done.
Qed.

(** * Verdict and report *)

(** A line that says the check named [name] failed. *)
Definition fails (name line : string) : bool := starts_with line (name +:+ ": FAIL").

(** A report of one line per name, which is healthy when none of them fails. *)
Definition rows (names : list string) (r : bool * list string) : Prop :=
  length names = length r.2 ∧ r.1 = forallb negb (zip_with fails names r.2).

Lemma strip_prefix_app a s p : strip_prefix (a +:+ s) (a +:+ p) = strip_prefix s p.
Proof.
  induction a as [|c a IH]; [by destruct s, p|]. rewrite !append_cons. cbn [strip_prefix].
  by rewrite bool_decide_eq_true_2.
Qed.

Lemma fails_line name text : fails name (name +:+ text) = starts_with text ": FAIL".
Proof. unfold fails, starts_with. by rewrite strip_prefix_app. Qed.

Lemma rows_andr names names' r s : rows names r → rows names' s → rows (names ++ names')%list (andr r s).
Proof.
  intros [H1 H2] [H3 H4]. unfold rows, andr; simpl. split; [rewrite !length_app; lia|].
  by rewrite zip_with_app, forallb_app, H2, H4.
Qed.

Lemma rows_line name b text : starts_with text ": FAIL" = negb b → rows [name] (b, [name +:+ text]).
Proof. intros H. split; [done|]. simpl. rewrite fails_line, H. by destruct b. Qed.

Section rows.
Context (debug : string → string) (is_v6 : string → bool) (w : World) (parse : string → option IpAddr).
Context (display : IpAddr → string) (show_error : ConfigError → string).

Lemma channel_loop_rows cfg hosts name port probe failures : rows [name] (channel_loop parse cfg hosts name port probe failures).
Proof.
  revert failures.
  induction hosts as [|h hosts IH]; intros failures; cbn [channel_loop].
  - by apply rows_line.
  - destruct (probe h port) as [e|]; [|apply IH]. destruct (evidence_is_healthy parse cfg h e); [|apply IH].
    apply rows_line. by destruct e.
Qed.

Lemma channel_rows cfg hosts name port probe : rows [name] (channel parse cfg hosts name port probe).
Proof. apply channel_loop_rows. Qed.

Lemma optional_rows cfg hosts name field port : rows [name] (optional_channel w parse cfg hosts name field port).
Proof. unfold optional_channel. destruct (port =? 0)%Z; [by apply rows_line|apply channel_rows]. Qed.

(** The line of the relay. *)
Definition relay_row (r : bool * string) : Prop := rows ["browser relay"] (r.1, [r.2]).

Lemma relay_fail_row text : relay_row (relay_fail text).
Proof. apply (rows_line "browser relay" false (": FAIL — " +:+ text)). done. Qed.

Lemma relay_fine_row text : starts_with text "FAIL" = false → relay_row (relay_fine text).
Proof.
  intros H. apply (rows_line "browser relay" true (": " +:+ text)).
  change ": FAIL" with (": " +:+ "FAIL"). unfold starts_with in *. by rewrite strip_prefix_app.
Qed.

Lemma report_probe_row r host port ph pp : relay_row (report_probe is_v6 w r host port ph pp).
Proof.
  unfold report_probe. destruct r as [[]|]; try apply relay_fail_row; try by apply relay_fine_row.
  destruct (request is_v6 w ph pp "/json/list"); [by apply relay_fine_row|apply relay_fail_row].
Qed.

Lemma browser_rows cfg : rows ["browser relay"] (browser_report is_v6 w parse cfg).
Proof.
  unfold browser_report. assert (relay_row (evaluate_with is_v6 w parse cfg (relay_port default_values) RELAY_TARGET_PORT)) as H.
  { unfold evaluate_with, report_laptop_upstream, report_devbox_peer.
    destruct (_ && _); [by apply relay_fine_row|]. destruct (_ =? 0)%Z; [apply report_probe_row|].
    destruct (relay_probe is_v6 w (listen cfg) (relay_port cfg) "/json/version") as [[]|]; try apply report_probe_row.
    - destruct (has_routable_listen parse cfg); [|apply report_probe_row].
      destruct (relay_probe is_v6 w "127.0.0.1" RELAY_TARGET_PORT "/json/version") as [[]|];
        try apply report_probe_row; apply relay_fail_row.
    - destruct (relay_dialed_at_peer parse cfg); [|apply report_probe_row].
      destruct (relay_probe is_v6 w (peer cfg) (relay_port cfg) "/json/version"); [apply report_probe_row|apply relay_fail_row]. }
  by destruct (evaluate_with _ _ _ _ _ _).
Qed.

Lemma grant_rows : rows ["browser grant"] (info (grant_report w)).
Proof.
  unfold grant_report, info, grant_row. split; [done|]. cbn [snd fst zip_with forallb].
  destruct (Ceremony.status (grant_reply w)) as [| |p s]; [done|done|]. by destruct (served w p).
Qed.

Lemma socket_rows name path : is_absolute path = true →
  rows [name] ((socket_accepted w name path).1, [(socket_accepted w name path).2]).
Proof.
  intros (q & ->)%is_absolute_cons. unfold socket_accepted. destruct (socket_accepts w _) as [[]|]; by apply rows_line.
Qed.

Lemma in_directory_absolute v rest path :
  in_directory w ((λ d, join d rest) <$> absolute v) = Some path → is_absolute path = true.
Proof.
  unfold in_directory. destruct ((λ d, join d rest) <$> absolute v) as [p|] eqn:E; [|done]. simpl.
  destruct (is_some_and _ _); [|done]. intros [= ->]. by eapply socket_path_absolute.
Qed.

Lemma pcsc_rows cfg : rows ["pcsc socket"] (pcsc_report w cfg).
Proof.
  unfold pcsc_report, pcsc_evaluate. destruct (in_directory w (pcsc_socket_path (host w))) as [path|] eqn:E; [|done].
  apply in_directory_absolute in E. destruct (has_peers cfg); [|done]. destruct (_ =? 0)%Z; [done|]. cbn [negb].
  pose proof (socket_rows "pcsc socket" path E). by destruct (socket_accepted w "pcsc socket" path).
Qed.

Lemma pulse_rows cfg : rows ["pulse socket"] (pulse_report w cfg).
Proof.
  unfold pulse_report, pulse_evaluate. destruct (in_directory w (pulse_socket_path (host w))) as [path|] eqn:E; [|done].
  apply in_directory_absolute in E. destruct (has_peers cfg); [|done]. destruct (_ =? 0)%Z; [done|]. cbn [negb].
  pose proof (socket_rows "pulse socket" path E). by destruct (socket_accepted w "pulse socket" path).
Qed.

(** The rows of a run. *)
Definition peer_rows (peer : IpAddr) : list string :=
  let name := "peer " +:+ display peer in
  [name +:+ " file preview"; name +:+ " callback bridge"; name +:+ " browser feed"].

Definition run_rows (cfg : Config) : list string :=
  if is_multi_peer cfg then
    match peer_ips parse cfg with
    | Err _ => ["peers"]
    | Ok peers =>
        (["url channel"; "browser relay"; "browser grant"; "pcsc channel"; "pulse channel"] ++
         concat (peer_rows <$> peers))%list
    end
  else ["url channel"; "file preview"; "callback bridge"; "browser relay"; "browser grant"; "browser feed";
        "pcsc channel"; "pcsc socket"; "pulse channel"; "pulse socket"].

Lemma multi_rows cfg cport fport : is_multi_peer cfg = true →
  rows (run_rows cfg) (multi_report debug is_v6 w parse display show_error cfg cport fport).
Proof.
  intros Hm. unfold run_rows, multi_report. rewrite Hm. destruct (peer_ips parse cfg) as [peers|]; [|by apply (rows_line "peers")].
  match goal with |- rows (?l ++ _)%list (foldl _ ?own _) => assert (rows l own) as H end.
  { apply (rows_andr ["url channel"]); [apply channel_rows|]. apply (rows_andr ["browser relay"]); [apply browser_rows|].
    apply (rows_andr ["browser grant"]); [apply grant_rows|]. apply (rows_andr ["pcsc channel"]); apply optional_rows. }
  revert H. generalize ["url channel"; "browser relay"; "browser grant"; "pcsc channel"; "pulse channel"].
  generalize (andr (channel parse cfg [listen cfg] "url channel" cport (probe_url_channel w))
     (andr (browser_report is_v6 w parse cfg) (andr (info (grant_report w))
     (andr (optional_channel w parse cfg [listen cfg] "pcsc channel" "pcsc_port" (pcsc_port cfg))
           (optional_channel w parse cfg [listen cfg] "pulse channel" "pulse_port" (pulse_port cfg)))))).
  induction peers as [|p peers IH]; intros own l H; [by rewrite app_nil_r|].
  cbn [foldl fmap list_fmap concat]. rewrite app_assoc. apply IH. apply rows_andr; [done|].
  apply (rows_andr [_]); [apply channel_rows|]. apply (rows_andr [_]); [apply channel_rows|apply optional_rows].
Qed.

(** The exit status of [forward doctor] is what it printed.  It prints one
    line for each check it names, every check is made however the others went,
    and it ends in success exactly when no line says [FAIL]. *)
Lemma doctor_verdict_is_report cfg cport fport :
  rows (run_rows cfg) (run debug is_v6 w parse display show_error cfg cport fport).
Proof.
  unfold run. destruct (is_multi_peer cfg) eqn:Hm; [by apply multi_rows|]. unfold run_rows. rewrite Hm.
  repeat (apply (rows_andr [_]); [first [apply channel_rows|apply browser_rows|apply grant_rows|apply optional_rows|apply pcsc_rows]|]).
  apply pulse_rows.
Qed.

(** A channel is healthy exactly when some host gives evidence that is. *)
Lemma channel_healthy cfg hosts name port probe :
  (channel parse cfg hosts name port probe).1 = true ↔
  ∃ h e, h ∈ hosts ∧ probe h port = Ok e ∧ evidence_is_healthy parse cfg h e = true.
Proof.
  unfold channel. generalize (@nil string). induction hosts as [|h hosts IH]; intros failures; cbn [channel_loop].
  - split; [done|]. intros (h & e & Hh & _). by apply not_elem_of_nil in Hh.
  - destruct (probe h port) as [e|] eqn:E; [destruct (evidence_is_healthy parse cfg h e) eqn:Eh|].
    + split; [|done]. intros _. exists h, e. split_and!; [by left|done|done].
    + rewrite IH. split; intros (h' & e' & Hh & He & Hv); exists h', e'; (split_and!; [|done|done]).
      * by right.
      * apply elem_of_cons in Hh as [->|Hh]; [congruence|done].
    + rewrite IH. split; intros (h' & e' & Hh & He & Hv); exists h', e'; (split_and!; [|done|done]).
      * by right.
      * apply elem_of_cons in Hh as [->|Hh]; [congruence|done].
Qed.

(** Ports set to zero never make [forward doctor] fail. *)
Lemma disabled_healthy cfg hosts name field : (optional_channel w parse cfg hosts name field 0).1 = true.
Proof. done. Qed.

End rows.

(** * The endpoint check *)
Fixpoint received (script : list (Z * bool * EndpointRead)) : string :=
  match script with
  | [] => ""
  | (_, _, Bytes s) :: rest => s +:+ received rest
  | _ :: rest => received rest
  end.

(** Reads that come in time and do not fail. *)
Definition timely (deadline : Z) (script : list (Z * bool * EndpointRead)) : Prop :=
  Forall (λ x, (x.1.1 < deadline)%Z ∧ x.1.2 = true ∧ match x.2 with Bytes s => s ≠ "" | Interrupt => True | EndpointError => False end)
    script.

Lemma starts_with_app s p r : starts_with s p = true → starts_with (s +:+ r) p = true.
Proof.
  unfold starts_with. destruct (strip_prefix s p) as [q|] eqn:E; [|done]. apply strip_prefix_Some in E as ->.
  by rewrite <-append_assoc, strip_prefix_append.
Qed.

Lemma length_prefix_of n s : String.length (prefix_of n s) = Nat.min n (String.length s).
Proof. revert s. induction n as [|n IH]; intros [|c s]; cbn; [done..|]. by rewrite IH. Qed.

Lemma append_split p q a b : p +:+ q = a +:+ b → (String.length p <= String.length a)%nat → ∃ r, a = p +:+ r.
Proof.
  revert a. induction p as [|c p IH]; intros a; [by exists a; destruct a|].
  destruct a as [|d a]; cbn [String.length]; [lia|]. rewrite !append_cons. intros [= -> H] Hl.
  destruct (IH a H ltac:(lia)) as [r ->]. by exists r.
Qed.

Lemma endpoint_loop_full deadline answer script : (String.length SESSION_REFUSAL <= String.length answer)%nat →
  endpoint_loop deadline answer script = Some answer.
Proof. intros H. apply Nat.leb_le in H. destruct script as [|[[now ts] read] script]; cbn [endpoint_loop]; by rewrite H. Qed.

(** One read: all of the chunk is taken, or the buffer is full. *)
Lemma endpoint_chunk answer x : (String.length answer < String.length SESSION_REFUSAL)%nat →
  let y := prefix_of (String.length SESSION_REFUSAL - String.length answer) x in
  y = x ∨ (String.length SESSION_REFUSAL <= String.length (answer +:+ y))%nat.
Proof.
  intros Ha y. destruct (decide (String.length x <= String.length SESSION_REFUSAL - String.length answer)%nat) as [Hx|Hx].
  - left. by apply prefix_of_all.
  - right. subst y. rewrite length_append, length_prefix_of. lia.
Qed.

Lemma endpoint_loop_reads deadline answer script a : endpoint_loop deadline answer script = Some a →
  ∃ r, answer +:+ received script = a +:+ r.
Proof.
  revert answer. induction script as [|[[now ts] read] script IH]; intros answer; cbn [endpoint_loop].
  - destruct (_ <=? _)%nat; [|done]. intros [= <-]. by exists "".
  - destruct (Nat.leb_spec (String.length SESSION_REFUSAL) (String.length answer)) as [|Hl]; [intros [= <-]; by eexists|].
    destruct (_ || _); [intros [= <-]; by eexists|]. destruct read as [[|c s]| |]; cbn [received]; try (intros [= <-]; by eexists); [|by apply IH].
    set (x := String c s) in *. intros H. destruct (endpoint_chunk answer x Hl) as [E|E].
    + rewrite E in H. apply IH in H as [r Hr]. exists r. by rewrite <-Hr, append_assoc.
    + rewrite endpoint_loop_full in H by done. injection H as <-. destruct (prefix_of_prefix (String.length SESSION_REFUSAL - String.length answer) x) as [r Hr].
      exists (r +:+ received script). rewrite Hr at 1. by rewrite !append_assoc.
Qed.

Lemma endpoint_loop_timely deadline answer script q : timely deadline script →
  answer +:+ received script = SESSION_REFUSAL +:+ q →
  ∃ r, endpoint_loop deadline answer script = Some (SESSION_REFUSAL +:+ r).
Proof.
  intros Ht. revert answer. induction Ht as [|[[now ts] read] script (H1 & H2 & H3) Ht IH]; intros answer Hq.
  - cbn [received] in Hq. rewrite append_nil_r in Hq. subst answer. exists q. apply endpoint_loop_full.
    rewrite length_append. lia.
  - destruct (Nat.leb_spec (String.length SESSION_REFUSAL) (String.length answer)) as [Hl|Hl].
    + rewrite endpoint_loop_full by done. destruct (append_split _ _ _ _ (eq_sym Hq) Hl) as [r ->]. by exists r.
    + cbn [endpoint_loop]. apply Nat.leb_gt in Hl as Hl'. rewrite Hl'. cbn [fst snd] in *. subst ts. cbn [negb].
      replace (Time.duration_since deadline now =? 0)%Z with false by (unfold Time.duration_since; lia). cbn [orb].
      destruct read as [[|c s]| |]; [done| |by apply IH|done]. cbn [received] in Hq. set (x := String c s) in *.
      destruct (endpoint_chunk answer x Hl) as [E|E].
      * rewrite E. apply IH. by rewrite <-append_assoc.
      * rewrite endpoint_loop_full by done.
        destruct (prefix_of_prefix (String.length SESSION_REFUSAL - String.length answer) x) as [r Hr].
        revert E Hr. generalize (prefix_of (String.length SESSION_REFUSAL - String.length answer) x). intros y E Hr.
        destruct (append_split SESSION_REFUSAL q (answer +:+ y) (r +:+ received script)) as [r' Hr'];
          [|exact E|by rewrite Hr'; eexists].
        rewrite <-Hq, Hr, <-(append_assoc answer), <-(append_assoc y). done.
Qed.

(** An endpoint counts as served exactly when a relay refused the probe:
    whenever the check says so, the bytes that came start with the relay's
    refusal of a session it does not know, and when that refusal comes in time,
    in whatever pieces and with whatever behind it, the check says so. *)
Lemma endpoint_served_is_refusal now deadline script :
  Time.checked_add now ENDPOINT_PROBE_TIMEOUT = Some deadline →
  (endpoint_is_served true now script = Some true → starts_with (received script) SESSION_REFUSAL = true) ∧
  (timely deadline script → starts_with (received script) SESSION_REFUSAL = true →
     endpoint_is_served true now script = Some true).
Proof.
  intros Hd. unfold endpoint_is_served. rewrite Hd. cbn [negb]. split.
  - destruct (endpoint_loop deadline "" script) as [a|] eqn:E; [|done]. cbn. intros [= H].
    apply endpoint_loop_reads in E as [r Hr]. change ("" +:+ received script) with (received script) in Hr. rewrite Hr.
    by apply starts_with_app.
  - intros Ht H. unfold starts_with in H. destruct (strip_prefix _ _) as [q|] eqn:E; [|done]. apply strip_prefix_Some in E.
    destruct (endpoint_loop_timely deadline "" script q Ht E) as [r ->]. cbn. f_equal. unfold starts_with. by rewrite strip_prefix_append.
Qed.

(** * The preview check *)

(** The fuel is enough: more of it changes nothing. *)
Lemma preview_loop_fuel fuel deadline used i steps :
  (4096 - String.length used < fuel)%nat →
  preview_loop fuel deadline used i steps = preview_loop (S fuel) deadline used i steps.
Proof.
  revert used i. induction fuel as [|fuel IH]; intros used i Hf; [lia|].
  remember (S fuel) as f2. cbn [preview_loop]. subst f2. cbn [preview_loop].
  destruct (_ <=? _)%Z; [done|]. destruct (Nat.leb_spec 4096 (String.length used)); [done|].
  destruct (steps i).2 as [[|c s]|]; [done| |done]. apply IH.
  rewrite length_append, length_prefix_of. cbn [String.length]. lia.
Qed.

Lemma preview_read_total fuel deadline steps : (4097 <= fuel)%nat →
  preview_read deadline steps = preview_loop fuel deadline "" 0 steps.
Proof.
  intros Hf. unfold preview_read. replace fuel with ((fuel - 4097) + 4097)%nat by lia.
  generalize (fuel - 4097)%nat. intros n. induction n as [|n IH]; [done|]. rewrite IH. cbn [Nat.add].
  apply preview_loop_fuel. cbn [String.length]. lia.
Qed.

(** The preview is reported healthy only for an answer that is one: a status
    200 of HTTP/1.0 or 1.1, headers that announce exactly the body's length,
    and the health body with nothing behind it. *)
Lemma preview_healthy_sound debug r : preview_classify debug r = Ok PreviewHealthy →
  ∃ before status lines version reason,
    r = before +:+ crlf +:+ crlf +:+ HEALTH_BODY ∧ crlf_lines before = status :: lines ∧
    (version = "HTTP/1.0" ∨ version = "HTTP/1.1") ∧ status = version +:+ " 200 " +:+ reason ∧
    header_loop None lines = Ok (Some (slen HEALTH_BODY)).
Proof.
  unfold preview_classify. destruct (split_once (crlf +:+ crlf) r) as [[before body]|] eqn:Es; [|done].
  apply split_once_Some in Es. unfold from_utf8. destruct (valid_utf8 before); [|done].
  destruct (crlf_lines before) as [|status lines] eqn:El; [done|]. destruct (any_byte _ status); [done|].
  unfold splitn3. destruct (split_once " " status) as [[version rest]|] eqn:E1; [|by destruct (negb _)].
  apply split_once_Some in E1. destruct (split_once " " rest) as [[code reason]|] eqn:E2; [|by destruct (negb _)].
  apply split_once_Some in E2. destruct (bool_decide (version = "HTTP/1.0") || bool_decide (version = "HTTP/1.1")) eqn:Ev; [|done].
  cbn [negb]. destruct (starts_with reason " "); [done|]. destruct (bool_decide (code = "403")); [done|].
  destruct (bool_decide (code = "200")) eqn:Hc; [|done]. apply bool_decide_eq_true in Hc. cbn [negb]. destruct (header_loop None lines) as [len|] eqn:Eh; [|done]. cbn [mbind result_bind].
  destruct (bool_decide (len = _)) eqn:Hlen; [|done]. destruct (bool_decide (body = _)) eqn:Hb; [|done]. intros _.
  apply bool_decide_eq_true in Hlen, Hb. subst.
  exists before, (version +:+ " " +:+ "200" +:+ " " +:+ reason), lines, version, reason.
  split_and!; [|done| |done|done].
  - by rewrite <-!append_assoc.
  - apply orb_true_iff in Ev as [H%bool_decide_eq_true|H%bool_decide_eq_true]; auto.
Qed.

(** * Instances *)
Definition demo_health : string :=
  "HTTP/1.0 200 OK" +:+ crlf +:+ "Server: tiny-http (Rust)" +:+ crlf +:+ "Content-Type: text/plain; charset=utf-8" +:+ crlf +:+
  "Content-Length: 24" +:+ crlf +:+ crlf +:+ HEALTH_BODY.

Example demo_health_healthy : preview_classify (λ s, s) demo_health = Ok PreviewHealthy.
Proof. by vm_compute. Qed.

Definition demo_reads : list (Z * bool * EndpointRead) :=
  [(1, true, Bytes "REFUSED S"); (2, true, Interrupt); (3, true, Bytes ("ESSION" +:+ String newline "and more"))]%Z.

Lemma endpoint_served_is_refusal_witness :
  timely (Time.from_secs 3) demo_reads ∧ endpoint_is_served true 0 demo_reads = Some true.
Proof.
  assert (timely (Time.from_secs 3) demo_reads) as H by (repeat constructor; done).
  split; [exact H|]. apply (endpoint_served_is_refusal 0 (Time.from_secs 3) demo_reads); [by vm_compute|exact H|by vm_compute].
Defined.

(** A devbox whose feed is connected asks the relay, whose upstream is well. *)
Lemma doctor_reads_gates_witness :
  ∃ f, handled_frame (relay_handle_from demo_parse demo_config
         (lrun demo_parse demo_config new [LConnected demo_peer true]) demo_peer (Peers.V4 100 64 0 1)
         (mjoin (read_relay_token 0 (Time.from_secs 10) [(1%Z, Got "G"%char)])) 0
         (Line "HTTP/1.0 200 OK" true) true []).2 = Some f ∧
    read_response (f +:+ "") Finishes = Ok f ∧ classify f = Ok TokenRequired.
Proof.
  destruct (doctor_reads_gates demo_parse demo_config) as (_ & H & _).
  destruct (H (lrun demo_parse demo_config new [LConnected demo_peer true]) demo_peer (Peers.V4 100 64 0 1) 0%Z
    (Time.from_secs 10) 1%Z "G"%char [] (Line "HTTP/1.0 200 OK" true) "HTTP/1.0 200 OK" true [] "" Finishes)
    as (f & H1 & H2 & H3); [done|done|].
  exists f. split; [exact H1|]. split; [exact H2|]. rewrite H3. vm_compute. reflexivity.
Defined.
