(* ===== verification/Startup.v ===== *)
(** How forward starts: [crates/forward/src/main.rs], [daemon.rs]'s [run],
    [config.rs]'s [load], the feed's listener of [browser/push.rs] and client of
    [browser/feed/client.rs], and the grant socket of
    [browser/request/server.rs].

    Starting is a sequence of steps; each adds what it left running, or ends
    the process.  What the machine answers while they run is a record. *)

From stdpp Require Import prelude strings list gmap.
From Stdlib Require Import ZArith Lia Ascii.
From S2P Require Import Prelude Text Paths Sockets Setup Channels Peers Bridge Feed Gates.

Local Open Scope string_scope.

(** * The configuration *)
Inductive FileRead : Type := Contents (text : string) | FileNotFound | Unreadable.

(** [config::load]; [from_toml] is the parser serde derives for [Config]. *)
Definition load_file (from_toml : string → option Config) (r : FileRead) : result ConfigError Config :=
  match r with
  | Contents text => ok_or ParseError (from_toml text)
  | FileNotFound => Ok default_values
  | Unreadable => Err ReadError
  end.

(** [default_config_path]. *)
Definition default_config_path (xdg home : option string) : option string :=
  let usable v := v ≫= λ p, if negb (is_empty p) && is_absolute p then Some p else None in
  match usable xdg with
  | Some p => Some (join p "forward/config.toml")
  | None => (λ p, join p ".config/forward/config.toml") <$> usable home
  end.

(** * What the machine answers *)
Record Answers : Type := {
  xdg_config : option string;
  home_dir : option string;
  absolutes : string → option string;
  reads : string → FileRead;
  host : Host;
  binds : IpAddr → Z → bool;
  arm_path : string;
  arm_binds : bool;
  arm_restricts : bool;
  grant_path : string;
  grant_binds : bool;
  grant_restricts : bool;
  renewer_starts : bool;
  feed_starts : bool;
  subscription_starts : bool;
  relay_starts : bool;
  client_starts : IpAddr → bool;
  kernel : Kernel;
}.

(** * Services *)
Inductive Service : Type :=
| PcscSocket (s : UnixServer)
| PulseSocket (s : UnixServer)
| ArmingSocket
| AuthoritySubscription
| FeedListener (at_ : IpAddr * Z)
| GrantSocket (upstream : option (IpAddr * Z))
| BridgeListener (at_ : IpAddr * Z)
| PreviewServer (at_ : IpAddr * Z)
| UrlChannel (at_ : IpAddr * Z)
| FeedClient (to : IpAddr * Z) (tokens : handle)
| RelayListener (at_ : IpAddr * Z)
| PcscListener (s : TcpServer)
| PulseListener (s : TcpServer).

(** A start: [None] when the process ended, and the services it started. *)
Definition Start (A : Type) : Type := list Service → option A * list Service.

#[global] Instance Start_ret : MRet Start := λ A a s, (Some a, s).
#[global] Instance Start_bind : MBind Start := λ A B f m s,
  match m s with (Some a, s') => f a s' | (None, s') => (None, s') end.

(** [exit_with_error], and [?] out of [main]. *)
Definition exit {A} : Start A := λ s, (None, s).
Definition start (v : Service) : Start () := λ s, (Some (), (s ++ [v])%list).
Definition or_exit {E A} (r : result E A) : Start A := match r with Ok a => mret a | Err _ => exit end.

Definition served {A} (f : A → Service) (r : result ChannelError (Served A)) : Start () :=
  x ← or_exit r;
  match x with NotServed _ => mret () | Serving s => start (f s) end.

Section starting.
Context (parse : string → option IpAddr) (display : IpAddr → string) (from_toml : string → option Config) (m : Answers).

(** [load_config]. *)
Definition load_config (path : option string) : Start Config :=
  path ← or_exit (ok_or () (match path with Some p => Some p | None => default_config_path (xdg_config m) (home_dir m) end));
  path ← or_exit (ok_or () (absolutes m path));
  cfg ← or_exit (load_file from_toml (reads m path));
  _ ← or_exit (Peers.validate parse cfg);
  mret cfg.

(** [push::spawn_listener]: the renewer's thread, then the listener's. *)
Definition spawn_listener (cfg : Config) : Start () :=
  if (grant_port cfg =? 0)%Z then mret () else
  _ ← or_exit (peer_ip parse cfg);
  ip ← or_exit (listen_ip parse cfg);
  if negb (binds m ip (grant_port cfg)) then exit else
  if negb (renewer_starts m) then exit else
  if negb (feed_starts m) then exit else
  start (FeedListener (ip, grant_port cfg)).

(** [request::serve_with_deps] up to its accept loop, on a thread of its own:
    its errors end the thread. *)
Definition serve_grants (cfg : Config) : Start () :=
  match peer_ip parse cfg with
  | Err _ => mret ()
  | Ok peer =>
      if (serve_arming (made (host m)) (restricted (host m)) (grant_binds m) (grant_restricts m) (grant_path m)).1
      then start (GrantSocket ((λ ip, (ip, relay_port cfg)) <$> peer)) else mret ()
  end.

(** [bridge::serve] on its thread. *)
Definition serve_bridge (cfg : Config) : Start () :=
  match bridge_serve parse display cfg (binds m) with
  | Ok at_ => start (BridgeListener at_)
  | Err _ => mret ()
  end.

(** [serve::run] up to its request loop. *)
Definition preview_run (cfg : Config) (port : Z) : Start () :=
  _ ← or_exit (validate_devbox parse cfg);
  ip ← or_exit (listen_ip parse cfg);
  if binds m ip port then start (PreviewServer (ip, port)) else exit.

(** [Command::Serve] once it has its configuration. *)
Definition serve_rest (cfg : Config) (port : Z) : Start () :=
  _ ← or_exit (validate_devbox parse cfg);
  _ ← served PcscSocket (pcsc_devbox_spawn parse (host m) cfg);
  _ ← served PulseSocket (pulse_devbox_spawn parse (host m) cfg);
  _ ← (if (serve_arming (made (host m)) (restricted (host m)) (arm_binds m) (arm_restricts m) (arm_path m)).1
       then start ArmingSocket else mret ());
  _ ← (if subscription_starts m then start AuthoritySubscription else exit);
  _ ← spawn_listener cfg;
  _ ← serve_grants cfg;
  _ ← serve_bridge cfg;
  preview_run cfg port.

(** [Command::Serve]. *)
Definition serve_command (path : option string) (port : Z) : Start () :=
  cfg ← load_config path; serve_rest cfg port.

(** [feed::spawn_client]: a client for each peer, with that peer's tokens. *)
Fixpoint feed_clients (cfg : Config) (ips : list IpAddr) : Start () :=
  match ips with
  | [] => mret ()
  | ip :: rest =>
      let tokens := if is_multi_peer cfg then for_peer ip else Shared in
      if client_starts m ip then _ ← start (FeedClient (ip, grant_port cfg) tokens); feed_clients cfg rest else exit
  end.

Definition spawn_client (cfg : Config) : Start () :=
  if (grant_port cfg =? 0)%Z then mret () else
  ips ← or_exit (peer_ips parse cfg);
  feed_clients cfg ips.

(** [daemon::run] up to its accept loop. *)
Definition daemon_run (cfg : Config) (port : Z) : Start () :=
  _ ← or_exit (Peers.validate parse cfg);
  ip ← or_exit (listen_ip parse cfg);
  if negb (binds m ip port) then exit else
  _ ← start (UrlChannel (ip, port));
  _ ← spawn_client cfg;
  relay ← or_exit (relay_spawn parse display cfg (binds m) (relay_starts m));
  _ ← (match relay with Some at_ => start (RelayListener at_) | None => mret () end);
  _ ← served PcscListener (pcsc_laptop_spawn parse display (host m) cfg);
  served PulseListener (pulse_laptop_spawn parse display (host m) cfg).

Definition daemon_command (path : option string) (port : Z) : Start () :=
  cfg ← load_config path; daemon_run cfg port.

(** [main]: hardening before anything else. *)
Inductive Command : Type := ServeCmd (path : option string) (port : Z) | DaemonCmd (path : option string) (port : Z).

Definition main (c : Command) (p : Process) : Process * option () * list Service :=
  match apply_no_core_dumps (kernel m) p with
  | (p', Err _) => (p', None, [])
  | (p', Ok ()) =>
      let '(r, s) := match c with
                     | ServeCmd path port => serve_command path port []
                     | DaemonCmd path port => daemon_command path port []
                     end in
      (p', r, s)
  end.

End starting.

(** * The listener's budget *)
Definition MAX_UNHEALTHY_LISTENER : Z := Time.from_secs 30.

(** What the listener's thread meets: a failed [accept] at an instant, a
    connection, and a connection's thread that ends and drops its permit. *)
Inductive Turn : Type := AcceptFailed (now : Z) | Arrived | Finished.

Record FeedListening : Type := { failures : option Z; holding : nat; served_count : nat; turned_away : nat }.

Definition listening_new : FeedListening := {| failures := None; holding := 0; served_count := 0; turned_away := 0 |}.

(** [accept_loop]; the result [None] is its return, after which the process
    exits. *)
Fixpoint accept_loop (l : FeedListening) (turns : list Turn) : option FeedListening :=
  match turns with
  | [] => Some l
  | Finished :: rest =>
      accept_loop {| failures := failures l; holding := Channels.release (holding l); served_count := served_count l; turned_away := turned_away l |} rest
  | Arrived :: rest =>
      match acquire (holding l) with
      | Some n =>
          accept_loop {| failures := None; holding := n; served_count := S (served_count l); turned_away := turned_away l |} rest
      | None =>
          accept_loop {| failures := None; holding := holding l; served_count := served_count l; turned_away := S (turned_away l) |} rest
      end
  | AcceptFailed now :: rest =>
      match failed_at MAX_UNHEALTHY_LISTENER (failures l) now with
      | (_, true) => None
      | (b, false) =>
          accept_loop {| failures := b; holding := holding l; served_count := served_count l; turned_away := turned_away l |} rest
      end
  end.

(** * Lemmas *)

(** What a start adds satisfies [P], and what it returns [Q]. *)
Definition starts {A} (P : Service → Prop) (c : Start A) (Q : A → Prop) : Prop :=
  ∀ s r s', c s = (r, s') → (∃ l, s' = (s ++ l)%list ∧ Forall P l) ∧ (∀ a, r = Some a → Q a).

Lemma starts_ret {A} P (a : A) (Q : A → Prop) : Q a → starts P (mret a) Q.
Proof. intros HQ s r s' [= <- <-]. split; [exists []; by rewrite app_nil_r|]. by intros ? [= <-]. Qed.

Lemma starts_exit {A} P (Q : A → Prop) : starts P exit Q.
Proof. intros s r s' [= <- <-]. split; [exists []; by rewrite app_nil_r|done]. Qed.

Lemma starts_start (P : Service → Prop) v : P v → starts P (start v) (λ _, True).
Proof. intros HP s r s' [= <- <-]. split; [exists [v]; by auto|done]. Qed.

Lemma starts_bind {A B} P (c : Start A) (f : A → Start B) Q R :
  starts P c Q → (∀ a, Q a → starts P (f a) R) → starts P (c ≫= f) R.
Proof.
  intros Hc Hf s r s'. unfold mbind, Start_bind. destruct (c s) as [[a|] s1] eqn:E.
  - destruct (Hc _ _ _ E) as [(l & -> & Hl) HQ]. intros H. destruct (Hf a (HQ a eq_refl) _ _ _ H) as [(l' & -> & Hl') HR].
    split; [|done]. exists (l ++ l')%list. rewrite app_assoc. split; [done|]. by apply Forall_app.
  - intros [= <- <-]. destruct (Hc _ _ _ E) as [Hl _]. by split.
Qed.

Lemma starts_or_exit {E A} P (r : result E A) : starts P (or_exit r) (λ a, r = Ok a).
Proof. destruct r; [by apply starts_ret|apply starts_exit]. Qed.

Lemma starts_weaken {A} P (c : Start A) (Q R : A → Prop) : starts P c Q → (∀ a, Q a → R a) → starts P c R.
Proof. intros Hc HQR s r s' H. destruct (Hc _ _ _ H) as [Hl HQ]. split; [done|]. auto. Qed.

Lemma starts_services {A} (P Q : Service → Prop) (c : Start A) R :
  (∀ v, P v → Q v) → starts P c R → starts Q c R.
Proof.
  intros HPQ Hc s r s' H. destruct (Hc _ _ _ H) as [(l & -> & Hl) HR]. split; [|done]. exists l. split; [done|].
  by eapply Forall_impl.
Qed.

Lemma starts_served {A} (P : Service → Prop) (f : A → Service) r :
  (∀ s, r = Ok (Serving s) → P (f s)) → starts P (served f r) (λ _, True).
Proof.
  intros H. unfold served. eapply starts_bind; [apply starts_or_exit|]. intros [why|s] E; [by apply starts_ret|].
  apply starts_start. by apply H.
Qed.

Ltac starting := repeat first
  [ apply starts_exit
  | eapply starts_bind; [apply starts_or_exit|let H := fresh in intros ? H; cbn beta in H]
  | match goal with |- starts _ (if ?b then _ else _) _ => destruct b eqn:?; cbn [negb] end ].

Section guarded.
Context (parse : string → option IpAddr) (display : IpAddr → string) (from_toml : string → option Config) (m : Answers).

(** Where a service may be. *)
Definition placed (cfg : Config) (v : Service) : Prop :=
  match v with
  | FeedListener a | BridgeListener a | PreviewServer a | UrlChannel a | RelayListener a => listen_ip parse cfg = Ok a.1
  | PcscListener s | PulseListener s => listen_ip parse cfg = Ok (bound s).1
  | PcscSocket s | PulseSocket s => peer_ip parse cfg = Ok (Some (dials s).1)
  | FeedClient a tokens => (∃ ips, peer_ips parse cfg = Ok ips ∧ a.1 ∈ ips) ∧ tokens = scope_of cfg a.1
  | GrantSocket up => peer_ip parse cfg = Ok (fst <$> up)
  | ArmingSocket | AuthoritySubscription => True
  end.

Lemma spawn_listener_placed cfg : starts (placed cfg) (spawn_listener parse m cfg) (λ _, True).
Proof. unfold spawn_listener. starting; [by apply starts_ret|..]. by apply starts_start. Qed.

Lemma serve_grants_placed cfg : starts (placed cfg) (serve_grants parse m cfg) (λ _, True).
Proof.
  unfold serve_grants. destruct (peer_ip parse cfg) as [peer|] eqn:E; [|by apply starts_ret].
  starting; [|by apply starts_ret]. apply starts_start. cbn. rewrite E. by destruct peer.
Qed.

Lemma serve_bridge_placed cfg : starts (placed cfg) (serve_bridge parse display m cfg) (λ _, True).
Proof.
  unfold serve_bridge, bridge_serve. destruct (Peers.validate parse cfg) as [[]|]; [|by apply starts_ret].
  destruct (listen_ip parse cfg) as [ip|] eqn:E; [|by apply starts_ret].
  destruct (binds m ip (bridge_port cfg)); [by apply starts_start|by apply starts_ret].
Qed.

Lemma preview_placed cfg port : starts (placed cfg) (preview_run parse m cfg port) (λ _, True).
Proof. unfold preview_run. starting. by apply starts_start. Qed.

Lemma feed_clients_placed cfg ips all : peer_ips parse cfg = Ok all → (∀ ip, ip ∈ ips → ip ∈ all) →
  starts (placed cfg) (feed_clients m cfg ips) (λ _, True).
Proof.
  intros Ha. induction ips as [|ip ips IH]; intros Hi; cbn [feed_clients]; [by apply starts_ret|]. starting.
  eapply starts_bind; [apply starts_start; split; [exists all; split; [done|apply Hi; by left]|done]|]. intros _ _. apply IH. intros x Hx. apply Hi. by right.
Qed.

Lemma spawn_client_placed cfg : starts (placed cfg) (spawn_client parse m cfg) (λ _, True).
Proof. unfold spawn_client. starting; [by apply starts_ret|]. eapply feed_clients_placed; eauto. Qed.

Lemma devbox_channel_placed k cfg (f : UnixServer → Service) :
  (∀ s, placed cfg (f s) ↔ peer_ip parse cfg = Ok (Some (dials s).1)) →
  starts (placed cfg) (served f (devbox_spawn parse k (host m) cfg)) (λ _, True).
Proof.
  intros Hf. apply starts_served. intros s (_ & (ip & Hip & Hd) & _)%devbox_spawn_Serving. apply Hf. by rewrite Hd.
Qed.

Lemma laptop_channel_placed k cfg (f : TcpServer → Service) :
  (∀ s, placed cfg (f s) ↔ listen_ip parse cfg = Ok (bound s).1) →
  starts (placed cfg) (served f (laptop_spawn parse display k (host m) cfg)) (λ _, True).
Proof.
  intros Hf. apply starts_served. intros s (ip & Hip & Hb & _)%laptop_spawn_Serving. apply Hf. by rewrite Hb.
Qed.

Lemma relay_spawn_placed cfg at_ :
  relay_spawn parse display cfg (binds m) (relay_starts m) = Ok (Some at_) → listen_ip parse cfg = Ok at_.1.
Proof.
  unfold relay_spawn. destruct (_ =? _)%Z; [done|]. destruct (Peers.validate parse cfg) as [[]|]; [|done].
  destruct (listen_ip parse cfg); [|done]. destruct (binds m _ _); [|done]. destruct (relay_starts m); [|done].
  by intros [= <-].
Qed.

Ltac then_starts L := eapply starts_bind; [apply L; try done|intros _ _].

Lemma daemon_run_placed cfg port : starts (placed cfg) (daemon_run parse display m cfg port) (λ _, True).
Proof.
  unfold daemon_run. starting. then_starts starts_start. then_starts spawn_client_placed.
  eapply starts_bind; [apply starts_or_exit|]. intros relay Hr. cbn beta in Hr.
  eapply (starts_bind _ _ _ (λ _, True)).
  { destruct relay as [at_|]; [|by apply starts_ret]. apply starts_start. by apply relay_spawn_placed. }
  intros _ _. then_starts (laptop_channel_placed Pcsc). by apply (laptop_channel_placed Pulse).
Qed.

Lemma serve_rest_placed cfg port :
  starts (λ v, placed cfg v ∧ is_multi_peer cfg = false) (serve_rest parse display m cfg port) (λ _, True).
Proof.
  unfold serve_rest. eapply starts_bind; [apply starts_or_exit|]. intros [] Hv.
  assert (is_multi_peer cfg = false) as Hm.
  { revert Hv. unfold validate_devbox. destruct (Peers.validate parse cfg); [|done]. cbn [mbind result_bind].
    by destruct (is_multi_peer cfg). }
  apply (starts_services (placed cfg)); [done|].
  then_starts (devbox_channel_placed Pcsc). then_starts (devbox_channel_placed Pulse).
  eapply (starts_bind _ _ _ (λ _, True)). { starting; [by apply starts_start|by apply starts_ret]. } intros _ _.
  eapply (starts_bind _ _ _ (λ _, True)). { starting. by apply starts_start. } intros _ _.
  then_starts spawn_listener_placed. then_starts serve_grants_placed. then_starts serve_bridge_placed.
  apply preview_placed.
Qed.

(** The configuration a start runs with. *)
Definition loaded (path : option string) (cfg : Config) : Prop :=
  ∃ p q, (path = Some p ∨ path = None ∧ default_config_path (xdg_config m) (home_dir m) = Some p) ∧
    absolutes m p = Some q ∧ load_file from_toml (reads m q) = Ok cfg ∧ Peers.validate parse cfg = Ok ().

Lemma load_config_loaded P path : starts P (load_config parse from_toml m path) (loaded path).
Proof.
  unfold load_config. do 4 (eapply starts_bind; [apply starts_or_exit|let H := fresh in intros ? H; cbn beta in H]). apply starts_ret.
  repeat match goal with H : ok_or _ ?o = Ok _ |- _ => destruct o eqn:?; cbn in H; simplify_eq end.
  exists a, a0. destruct a2. destruct path; simplify_eq; eauto 10.
Qed.

(** Nothing runs before the configuration is loaded. *)
Lemma load_config_silent path s : (load_config parse from_toml m path s).2 = s.
Proof.
  destruct (load_config parse from_toml m path s) as [r s'] eqn:E.
  destruct (load_config_loaded (λ _, False) path _ _ _ E) as [(l & -> & Hl) _].
  destruct l as [|v l]; [by rewrite app_nil_r|]. by apply Forall_cons in Hl as [[] _].
Qed.

Lemma loaded_then (P : Config → Service → Prop) path (f : Config → Start ()) r s :
  (∀ cfg, starts (P cfg) (f cfg) (λ _, True)) →
  (load_config parse from_toml m path ≫= f) [] = (r, s) → s ≠ [] →
  ∃ cfg, loaded path cfg ∧ Forall (P cfg) s.
Proof.
  intros Hf. unfold mbind, Start_bind. pose proof (load_config_silent path []) as Hs.
  destruct (load_config parse from_toml m path []) as [[cfg|] s1] eqn:E; cbn in Hs; subst s1; [|by intros [= <- <-]].
  intros H _. exists cfg. destruct (load_config_loaded (λ _, True) path _ _ _ E) as [_ HQ]. split; [by apply HQ|].
  destruct (Hf cfg _ _ _ H) as [(l & -> & Hl) _]. done.
Qed.
End guarded.

Definition command_path (c : Command) : option string := match c with ServeCmd p _ | DaemonCmd p _ => p end.
Definition is_serve (c : Command) : bool := match c with ServeCmd _ _ => true | DaemonCmd _ _ => false end.

Lemma apply_no_core_dumps_hardens k p p' : apply_no_core_dumps k p = (p', Ok ()) →
  dumpable p' = false ∧ core_limited p' = true.
Proof.
  unfold apply_no_core_dumps. destruct (set_dumpable k) as [[]|]; [|done]. destruct (set_core_limit k) as [[]|]; [|done].
  by intros [= <-].
Qed.

(** What a validated configuration says of the address listened on. *)
Lemma validate_listen parse cfg : Peers.validate parse cfg = Ok () →
  ∃ ip ips, listen_ip parse cfg = Ok ip ∧ peer_ips parse cfg = Ok ips ∧ is_unspecified ip = false ∧
    (is_loopback ip = true ∨ ips ≠ []).
Proof.
  unfold Peers.validate. destruct (listen_ip parse cfg) as [ip|]; [|done]. cbn [mbind result_bind].
  destruct (is_unspecified ip) eqn:Eu; [done|]. destruct (peer_ips parse cfg) as [ips|]; [|done]. cbn [mbind result_bind].
  exists ip, ips. split_and!; [done..|]. destruct (is_loopback ip); [by left|right]. by destruct ips.
Qed.

(** C24: forward leaves something running only behind its guards.  If [main]
    started any service, core dumps were off first; the configuration came
    from the file named, or from the default path, and passed validation: the
    one address it listens on is not the unspecified one, and is the loopback
    or has peers configured.  Every listening socket of every service is on
    that one address, and every service that dials out dials a configured
    peer; what a devbox feeds the laptop goes into the very cache that is asked
    when that devbox presents a token; and the devbox's services never start
    from a laptop's list of peers. *)
Theorem startup_guarded parse display from_toml m c p p' r s :
  main parse display from_toml m c p = (p', r, s) → s ≠ [] →
  dumpable p' = false ∧ core_limited p' = true ∧
  ∃ cfg ip ips, loaded parse from_toml m (command_path c) cfg ∧
    listen_ip parse cfg = Ok ip ∧ peer_ips parse cfg = Ok ips ∧ is_unspecified ip = false ∧
    (is_loopback ip = true ∨ ips ≠ []) ∧
    Forall (placed parse cfg) s ∧ (is_serve c = true → is_multi_peer cfg = false).
Proof.
  unfold main. destruct (apply_no_core_dumps (kernel m) p) as [p1 [[]|]] eqn:Ek; [|by intros [= <- <- <-]].
  apply apply_no_core_dumps_hardens in Ek as [Hd Hc].
  destruct (match c with ServeCmd _ _ => _ | DaemonCmd _ _ => _ end) as [r1 s1] eqn:Er. intros [= <- <- <-] Hs.
  split_and!; [done|done|].
  assert (∃ cfg, loaded parse from_toml m (command_path c) cfg ∧
    Forall (λ v, placed parse cfg v ∧ (is_serve c = true → is_multi_peer cfg = false)) s1) as (cfg & Hl & Hf).
  { destruct c as [path port|path port]; eapply (loaded_then _ _ _ (λ cfg v, placed parse cfg v ∧ (_ → is_multi_peer cfg = false)) path _ r1 s1); try exact Er; try done;
      intros cfg; cbn [is_serve].
    - eapply starts_services; [|apply serve_rest_placed]. intros v [? ?]. by split.
    - eapply starts_services; [|apply daemon_run_placed]. intros v ?. by split. }
  assert (Hv := Hl). destruct Hv as (_ & _ & _ & _ & _ & (ip & ips & H1 & H2 & H3 & H4)%validate_listen).
  exists cfg, ip, ips. split_and!; [done..| |].
  - eapply Forall_impl; [exact Hf|]. by intros v [? _].
  - destruct s1; [done|]. by apply Forall_cons in Hf as [[_ ?] _].
Qed.

(** The failures and connections among the turns, and the loop on them alone. *)
Definition outcome (t : Turn) : option (option Z) :=
  match t with AcceptFailed now => Some (Some now) | Arrived => Some None | Finished => None end.

Fixpoint budget_loop (b : option Z) (outcomes : list (option Z)) : bool :=
  match outcomes with
  | [] => false
  | None :: rest => budget_loop None rest
  | Some now :: rest =>
      let '(b', over) := failed_at MAX_UNHEALTHY_LISTENER b now in over || budget_loop b' rest
  end.

Lemma accept_loop_budget turns : ∀ l,
  accept_loop l turns = None ↔ budget_loop (failures l) (omap outcome turns) = true.
Proof.
  induction turns as [|[now| |] turns IH]; intros l; [done|..]; cbn [accept_loop].
  - change (omap outcome (AcceptFailed now :: turns)) with (Some now :: omap outcome turns). cbn [budget_loop].
    destruct (failed_at _ _ now) as [b []]; [done|]. apply IH.
  - change (omap outcome (Arrived :: turns)) with (None :: omap outcome turns). cbn [budget_loop].
    destruct (acquire (holding l)); apply IH.
  - change (omap outcome (Finished :: turns)) with (omap outcome turns). by rewrite IH.
Qed.

(** No more than 32 connections are served at a time. *)
Lemma accept_loop_bounded turns : ∀ l l', (holding l ≤ MAX_CONCURRENT_CONNECTIONS)%nat →
  accept_loop l turns = Some l' → (holding l' ≤ MAX_CONCURRENT_CONNECTIONS)%nat.
Proof.
  induction turns as [|[now| |] turns IH]; intros l l' Hl; cbn [accept_loop]; [by intros [= <-]|..].
  - destruct (failed_at _ _ now) as [b []]; [done|]. by apply IH.
  - unfold acquire. destruct (Nat.eqb_spec (holding l) MAX_CONCURRENT_CONNECTIONS); apply IH; cbn; lia.
  - apply IH. cbn. unfold Channels.release. lia.
Qed.

(** From a failure at [t0], no connection before one thirty seconds later. *)
Definition outage (t0 : Z) (l : list (option Z)) : Prop :=
  ∃ mid t post, l = ((Some <$> mid) ++ Some t :: post)%list ∧ (t0 + MAX_UNHEALTHY_LISTENER ≤ t)%Z.

Lemma budget_first t0 l : budget_loop None (Some t0 :: l) = budget_loop (Some t0) l.
Proof.
  cbn [budget_loop]. unfold failed_at, Time.duration_since. simpl.
  replace (Z.max (t0 - t0) 0) with 0%Z by lia. done.
Qed.

Lemma failed_at_since t0 now :
  failed_at MAX_UNHEALTHY_LISTENER (Some t0) now = (Some t0, (t0 + MAX_UNHEALTHY_LISTENER <=? now)%Z).
Proof.
  unfold failed_at, Time.duration_since. simpl. f_equal. apply eq_true_iff_eq. rewrite !Z.leb_le.
  assert (0 < MAX_UNHEALTHY_LISTENER)%Z by done. lia.
Qed.

Lemma outage_ends t0 l : outage t0 l → budget_loop (Some t0) l = true.
Proof.
  intros (mid & t & post & -> & Ht). induction mid as [|x mid IH]; cbn [fmap list_fmap app budget_loop];
    rewrite failed_at_since.
  - by rewrite (proj2 (Z.leb_le _ _) Ht).
  - rewrite IH. apply orb_true_r.
Qed.

Lemma budget_after_connection b pre l : budget_loop None l = true → budget_loop b (pre ++ None :: l) = true.
Proof.
  intros H. revert b. induction pre as [|[now|] pre IH]; intros b; cbn [app budget_loop]; [done| |apply IH].
  destruct (failed_at _ b now) as [b' over]. rewrite IH. apply orb_true_r.
Qed.

Lemma budget_outage l : ∀ b, budget_loop b l = true →
  (∃ t0, b = Some t0 ∧ outage t0 l) ∨
  ∃ pre t0 rest, l = (pre ++ Some t0 :: rest)%list ∧ (pre = [] ∧ b = None ∨ last pre = Some None) ∧ outage t0 rest.
Proof.
  induction l as [|[now|] l IH]; intros b; [done| |].
  - assert (∀ t1, budget_loop (Some t1) l = true → outage t1 l ∨
      ∃ pre t0 rest, Some now :: l = (pre ++ Some t0 :: rest)%list ∧ last pre = Some None ∧ outage t0 rest) as Hin.
    { intros t1 [(t & [= <-] & Ho)|(pre & t & rest & -> & Hp & Ho)]%IH; [by left|right].
      exists (Some now :: pre), t, rest. split_and!; [done| |done]. destruct Hp as [[_ ?]|Hp]; [done|].
      by rewrite last_cons, Hp. }
    destruct b as [t0|].
    + cbn [budget_loop]. rewrite failed_at_since. destruct (Z.leb_spec (t0 + MAX_UNHEALTHY_LISTENER) now) as [Hle|_].
      { intros _. left. exists t0. split; [done|]. by exists [], now, l. }
      intros [(mid & t' & post & -> & Ht)|(pre & t & rest & E & Hp & Ho)]%Hin; [left|right].
      * exists t0. split; [done|]. by exists (now :: mid), t', post.
      * exists pre, t, rest. by auto.
    + rewrite budget_first. intros [Ho|(pre & t & rest & E & Hp & Ho)]%Hin; right.
      * exists [], now, l. by auto.
      * exists pre, t, rest. by auto.
  - cbn [budget_loop]. intros [(t & ? & _)|(pre & t & rest & -> & Hp & Ho)]%IH; [done|].
    right. exists (None :: pre), t, rest. split_and!; [done| |done]. right.
    destruct Hp as [[-> _]|Hp]; [done|]. by rewrite last_cons, Hp.
Qed.

(** The feed's listener ends its process exactly when [accept] failed for thirty
    seconds on end: from some failure, the first or the first since a
    connection, no connection came before another failure that much later. *)
Lemma listener_budget_spec turns :
  accept_loop listening_new turns = None ↔
  ∃ pre t0 rest, omap outcome turns = (pre ++ Some t0 :: rest)%list ∧ (pre = [] ∨ last pre = Some None) ∧ outage t0 rest.
Proof.
  rewrite accept_loop_budget. cbn [failures listening_new]. split.
  - intros [(t & ? & _)|(pre & t & rest & -> & Hp & Ho)]%budget_outage; [done|].
    exists pre, t, rest. split_and!; [done| |done]. destruct Hp as [[-> _]|?]; auto.
  - intros (pre & t0 & rest & -> & Hp & Ho%outage_ends). rewrite <-budget_first in Ho.
    destruct Hp as [->|[pre' ->]%last_Some]; [done|]. rewrite <-app_assoc. by apply budget_after_connection.
Qed.

Definition demo_host : Host := {|
  HOME := Some "/home/me"; XDG_RUNTIME_DIR := Some "/run/user/1000"; made := Ok (); restricted := Ok (); umask := 18;
  seen := {| Bind.at_connect := Bind.Absent; Bind.at_lstat := Bind.Absent; Bind.at_reconnect := Bind.Absent;
             Bind.at_relstat := Bind.Absent; Bind.at_unlink := Bind.Absent; Bind.at_bind := Bind.Absent |};
  tcp_bind := Ok (); Channels.thread := Ok ();
|}.

Definition demo_answers : Answers := {|
  xdg_config := None; home_dir := Some "/home/me"; absolutes := Some;
  reads := λ p, if bool_decide (p = "/home/me/.config/forward/config.toml") then Contents "listen" else FileNotFound;
  host := demo_host; binds := λ _ _, true;
  arm_path := "/run/user/1000/forward/arm.sock"; arm_binds := true; arm_restricts := true;
  grant_path := "/run/user/1000/forward/grant.sock"; grant_binds := true; grant_restricts := true;
  renewer_starts := true; feed_starts := true; subscription_starts := true; relay_starts := true;
  client_starts := λ _, true;
  kernel := demo_kernel;
|}.

(** The devbox's eight services start, on its one address and towards its
    peer. *)
Lemma startup_guarded_witness :
  ∃ p' s, main demo_parse (λ _, "") (λ _, Some demo_config) demo_answers (ServeCmd None 12802) demo_process = (p', Some (), s) ∧
    length s = 8 ∧ dumpable p' = false ∧
    ∃ cfg ip ips, listen_ip demo_parse cfg = Ok ip ∧ peer_ips demo_parse cfg = Ok ips ∧
      (is_loopback ip = true ∨ ips ≠ []) ∧ Forall (placed demo_parse cfg) s ∧ is_multi_peer cfg = false.
Proof.
  destruct (main demo_parse (λ _, "") (λ _, Some demo_config) demo_answers (ServeCmd None 12802) demo_process)
    as [[p' r] s] eqn:E. assert (E' := E). vm_compute in E'.
  exists p', s.
  destruct (startup_guarded demo_parse (λ _, "") (λ _, Some demo_config) demo_answers (ServeCmd None 12802) demo_process p' r s E)
    as (H1 & H2 & cfg & ip & ips & H3 & H4 & H5 & H6 & H7 & H8 & H9); [by simplify_eq|].
  split; [by simplify_eq|]. split; [by simplify_eq|]. split; [done|]. exists cfg, ip, ips. split_and!; try done. by apply H9.
Defined.
